(* ===== verification/_CoqProject ===== *)
-Q . S2P
Prelude.v
GoIO.v
GoStrings.v
Protocol.v
Auth.v
Catchup.v
Coalesce.v
Escape.v
Transport.v
Handshake.v
Sender.v
Delivery.v
Pty.v
Session.v
Listen.v
SessionRun.v
SessionEnd.v
Client.v
System.v
Input.v
Duplex.v
Reconnect.v
Progress.v
Bootstrap.v
CommandLine.v
Profile.v
ProfileFile.v
ClientRun.v
