(* ===== verification/Prelude.v ===== *)
(** * goet: a verification library for the reconnectable terminal

    goet keeps a shell alive on a remote host across network failures.  A
    _session_ owns the shell's PTY; a _client_ owns the user's terminal.  They
    talk over QUIC or over TCP with TLS, exchange framed messages, number the
    batches they send, keep the recent ones in a catchup buffer, and replay
    after a reconnect what the other side reports as missing.  This library
    models the Go packages under [src/] and proves what makes them correct.

    ** Files and source

    - [Prelude]: automation and lemmas on lists, bytes, machine integers.
    - [GoIO], [GoStrings]: the Go this program uses.  [res] is a value, an
      error or a panic; [io S A] a function over a state [S] that may also
      block ([None]); readers and writers that deliver any part of what is
      asked for and may fail at any byte; slices, channels and timers; parts
      of strings, strconv, hex and bufio.
    - [Protocol] ([internal/protocol]): messages, framing, their decoding.
    - [Auth] ([internal/auth]): SHA-256, HMAC, tokens and passkeys.
    - [Catchup] ([internal/catchup/buffer.go]): the ring buffer.
    - [Coalesce] ([internal/coalesce]): batching of writes.
    - [Escape] ([internal/client/escape.go]): the escape sequences.
    - [Transport] ([internal/transport]: [conn.go], [streams.go], [tcp.go]):
      both kinds of connection and the demultiplexer goroutine of the second.
      The classes [Conn] and [ConnLaws] are what a connection promises; both
      kinds, and their sum, are instances, and the two ends are proved against the
      interface alone.
    - [Handshake] ([tcp_dialer.go], [client_dialer.go], [tcp_listener.go],
      [session_listener.go], [dual_listener.go]): authentication on both
      sides, and accepting.
    - [Sender], [Delivery]: the two halves of sequence-numbered delivery,
      shared by both directions: a counter and a buffer mean a history of
      batches ([sender_ok]); what a receiver has of it ([displayed]).
    - [Pty] ([internal/session/pty.go]): the shell's command and terminal.
    - [Session] ([internal/session/session.go]), [Client]
      ([internal/client/client.go]): the event loops as functions of the select
      case taken, the goroutines that feed them, and the relations [reach] that
      interleave them.  The session holds its connections in a heap, because
      it compares them by identity.
    - [Listen] ([session_listener.go], [tcp_listener.go], [dual_listener.go],
      [tls.go]): opening and closing the listeners, over the interface [NetLib].
    - [SessionRun], [SessionEnd]: [Run] of the session with the goroutines that
      feed its loop ([acceptLoop], [readStream], [readPTY], [waitShell]) and the
      channels between them, which any goroutine may move at any time, and its
      deferred calls.
    - [System], [Input], [Duplex]: both loops and the network between them.
      [System] follows the shell's output to the screen; [Duplex] adds the
      typed input, with the lemmas on single events in [Input], and there what
      a PTY write that fails makes of it.
    - [Reconnect], [Progress]: whether a reconnect goes through, over TCP with
      its one stream and over QUIC, with the flow control of its streams.
    - [Bootstrap] ([internal/client/ssh.go], [install.go]): starting and
      installing the remote program, over the interface [HostLib].
    - [CommandLine] ([cmd/goet/main.go], [internal/version]): from the
      arguments to the configuration that is started.
    - [Profile], [ProfileFile] ([internal/client/profile.go]): what [--profile]
      prints, with the rounding of [float64], and the JSON file it leaves, with the
      shortest decimals, escapes and dates of the Go library.
    - [ClientRun]: [Run] of the client ([client.go]) with the mode of the terminal,
      over the interface [TermLib], its messages, its deferred calls and the
      panics of its goroutines.

    ** What the theorems show

    - End to end ([System], [Duplex]): in each direction the receiver gets
      a subsequence of the sender's batches, in order and none twice, and lacks
      only batches that were evicted; all of it when it fits the buffer.
    - Each end ([Session], [Client]): what a connection has been sent is a
      gap-free run of the history; a reconnect resumes at the peer's number; which
      input is lost, and what a failing PTY write loses.  Over QUIC a reconnect
      goes through unless the client's backlog exceeds the window of the data
      stream; over TCP it does not while there is input to resend.
    - Whole runs ([SessionRun], [SessionEnd], [ClientRun]): between the session's
      goroutines and its loop nothing is lost, repeated or reordered, neither
      events nor output nor connections, and its end
      leaves no listener, no received connection and no PTY open, and kills the
      shell if it does not exit in its grace period; the client's terminal is raw
      exactly while it is connected, and restored however [Run] ends.  Both are
      refinements of the transition systems of [Session] and [Client].
    - Components: the ring buffer refines a queue, the coalescer a list of
      pending bytes, the escape processor an automaton that is insensitive to
      chunking; framing and decoding round trip, and which payloads make the
      decoder panic.
    - Transport and handshake: messages reach the right channel in order,
      blocked readers are released, at the latest when the bytes the TLS library
      already holds have been read, both sides agree on the connection they made,
      only the holder of the passkey is accepted, and which peers can block or crash the accept path.
    - Starting up: a session listens on one port on both transports or on
      nothing, a failed start leaves no process behind and no file but one that
      [os.Remove] refuses to delete, and the command line one
      side writes is read back by the other.
    - Profiling: printed quantities are off by at most the rounding of their
      last digit, and the JSON file, read by a parser written against the grammar of
      JSON, has exactly the members of the record, each with its statistic.
    - Where the code does not do what it means to, the theorem states
      what it does.

    ** Conventions

    Machine integers are [Z] with the wrap-around written out ([uint64],
    [int64], [uint16]); times are nanoseconds.  Loops that are not structural take
    fuel: one unit per slot of the ring ([evict_loop_spec] shows it is enough),
    per byte of a string ([runes_of]), per byte of a JSON text ([Unmarshal]), per digit of a number ([Utoa_fuel]);
    [ReadMessages] takes as many messages as a theorem asks for.
    Theorems on runs assume fewer than 2^64 iterations of a loop, so that
    sequence numbers do not wrap.  A goroutine is a step relation beside its
    loop; [None] is a call that blocks, and the relations only take calls that
    return.  Concrete instances ([ex_...]) discharge the hypotheses of
    each property.

    ** Not modelled

    The TLS, QUIC and X.509 libraries, the PTY device, ssh, processes and
    files are arguments or interfaces with laws, and so is what dialling and
    accepting return.  Left out: log lines, signals, the real time between
    events, and the test helpers ([newTestClient], [WriteRawData]). *)

From stdpp Require Export base tactics list strings numbers gmap.
From Stdlib Require Export ZArith Lia.
From Stdlib Require Export Strings.Byte Strings.String.

#[global] Open Scope Z_scope.
#[global] Open Scope list_scope.
#[global] Set Default Goal Selector "!".

(** Statements of Go functions in the monad of [GoIO] read as the source does:
    [x <- call ;; rest]. *)
Declare Scope go_scope.
Delimit Scope go_scope with go.

(** ** Automation

    [goet] holds the lemmas that close routine side conditions (lengths,
    ranges); [goet_simpl] rewrites them. *)

Create HintDb goet.
Create Rewrite HintDb goet.

(** Length facts of lists under [lia]: every list length of the context is
    normalised to a sum of lengths first. *)
Ltac simpl_len :=
  repeat first
    [ rewrite length_app | rewrite length_cons | rewrite length_nil
    | rewrite length_take | rewrite length_drop | rewrite length_replicate
    | rewrite length_insert | rewrite length_fmap ].

Ltac simpl_len_in H :=
  repeat first
    [ rewrite length_app in H | rewrite length_cons in H | rewrite length_nil in H
    | rewrite length_take in H | rewrite length_drop in H | rewrite length_replicate in H
    | rewrite length_insert in H | rewrite length_fmap in H ].

Ltac len_lia := simpl_len; simpl in *; lia.

(** Case analysis on a boolean integer comparison or test in the goal. *)
Ltac case_bool :=
  match goal with
  | |- context [Z.leb ?a ?b] => destruct (Z.leb_spec a b)
  | |- context [Z.ltb ?a ?b] => destruct (Z.ltb_spec a b)
  | |- context [Z.eqb ?a ?b] => destruct (Z.eqb_spec a b)
  | |- context [Z.gtb ?a ?b] => rewrite (Z.gtb_ltb a b)
  | |- context [Z.geb ?a ?b] => rewrite (Z.geb_leb a b)
  end.

(** ** Go values *)

(** A Go [byte]; a [[]byte] slice is its sequence of bytes. *)
Abbreviation byte := Byte.byte.
Abbreviation bytes := (list Byte.byte).

#[export] Instance byte_eq_dec : EqDecision byte := Byte.byte_eq_dec.

(** The numeric value of a byte, and the conversion [byte(v)] of an integer,
    which keeps the low eight bits. *)
Definition Zb (b : byte) : Z := Z.of_N (Byte.to_N b).

Definition byteZ (z : Z) : byte :=
  match Byte.of_N (Z.to_N (z mod 256)) with Some b => b | None => x00 end.

(** [len(s)] of a slice or string, as a Go [int]. *)
Definition len {A} (l : list A) : Z := Z.of_nat (List.length l).

(** Conversions to the fixed-width integer types of Go: they wrap around. *)
Definition uint16 (z : Z) : Z := z mod 2 ^ 16.
Definition uint32 (z : Z) : Z := z mod 2 ^ 32.
Definition uint64 (z : Z) : Z := z mod 2 ^ 64.
Definition int64 (z : Z) : Z := (z + 2 ^ 63) mod 2 ^ 64 - 2 ^ 63.

(** Ranges of the types. *)
Definition is_uint (w : Z) (z : Z) : Prop := 0 <= z < 2 ^ w.
Definition is_int64 (z : Z) : Prop := - 2 ^ 63 <= z < 2 ^ 63.

(** The bytes of a string, and back: [[]byte(s)] and [string(b)]. *)
Abbreviation string_bytes := String.list_byte_of_string.
Abbreviation bytes_string := String.string_of_list_byte.

(** ** Errors, panics and results *)

(** A Go [error]: made by [errors.New] or [fmt.Errorf] without [%w], or
    wrapping another error with [%w].  The text is the format string; the
    operands that only decorate the message are not rendered. *)
Inductive error : Type :=
| ErrNew (text : string)
| ErrWrap (text : string) (inner : error).

#[export] Instance error_eq_dec : EqDecision error.
Proof. solve_decision. Defined.

(** [errors.Is]: follow the chain of wrapped errors. *)
Fixpoint errors_Is (e target : error) : bool :=
  bool_decide (e = target) ||
  match e with ErrNew _ => false | ErrWrap _ i => errors_Is i target end.

(** Run-time panics of the language the code can reach. *)
Inductive panic : Type :=
| IndexOutOfRange
| SliceOutOfRange
| NilDereference.

(** What a call gives back: a value, a non-nil error, or a panic that unwinds
    the goroutine. *)
Inductive res (A : Type) : Type :=
| Ok (a : A)
| Err (e : error)
| Panicked (p : panic).
Arguments Ok {_} _.
Arguments Err {_} _.
Arguments Panicked {_} _.

#[export] Instance res_ret : MRet res := @Ok.
#[export] Instance res_bind : MBind res := λ A B f r,
  match r with Ok a => f a | Err e => Err e | Panicked p => Panicked p end.
#[export] Instance res_fmap : FMap res := λ A B f r,
  match r with Ok a => Ok (f a) | Err e => Err e | Panicked p => Panicked p end.

(** [fmt.Errorf("text: %w", err)] around a failing call. *)
Definition wrap_err {A} (text : string) (r : res A) : res A :=
  match r with Err e => Err (ErrWrap text e) | _ => r end.

Definition is_ok {A} (r : res A) : bool := match r with Ok _ => true | _ => false end.
Definition panics {A} (r : res A) : bool := match r with Panicked _ => true | _ => false end.

(** ** Slices: bounds are checked the way the run time does *)

(** [s[lo:hi]] for a slice whose capacity is its length. *)
Definition go_slice {A} (l : list A) (lo hi : Z) : res (list A) :=
  if (0 <=? lo) && (lo <=? hi) && (hi <=? len l)
  then Ok (take (Z.to_nat (hi - lo)) (drop (Z.to_nat lo) l))
  else Panicked SliceOutOfRange.

(** [s[i]] *)
Definition go_index {A} (l : list A) (i : Z) : res A :=
  if 0 <=? i
  then match l !! Z.to_nat i with Some a => Ok a | None => Panicked IndexOutOfRange end
  else Panicked IndexOutOfRange.

(** [s[i] = v] *)
Definition go_store {A} (l : list A) (i : Z) (v : A) : res (list A) :=
  if (0 <=? i) && (i <? len l)
  then Ok (<[Z.to_nat i := v]> l)
  else Panicked IndexOutOfRange.

(** ** [encoding/binary]'s big-endian accessors *)

(** [BigEndian.PutUint<8n>]: the [n] bytes of [z], most significant first. *)
Fixpoint be_put (n : nat) (z : Z) : bytes :=
  match n with
  | O => []
  | S m => byteZ (Z.shiftr z (8 * Z.of_nat m)) :: be_put m z
  end.

(** [BigEndian.Uint<8n>] of the first bytes. *)
Fixpoint be_get (l : bytes) : Z :=
  match l with
  | [] => 0
  | b :: l' => Z.lor (Z.shiftl (Zb b) (8 * Z.of_nat (List.length l'))) (be_get l')
  end.

(** ** Lemmas: bytes and fixed-width integers *)

Lemma Zb_range b : 0 <= Zb b < 256.
Proof. unfold Zb. pose proof (Byte.to_N_bounded b). lia. Qed.

Lemma Zb_byteZ z : Zb (byteZ z) = z mod 256.
Proof.
  unfold Zb, byteZ. pose proof (Z.mod_pos_bound z 256 eq_refl) as Hz.
  destruct (Byte.of_N (Z.to_N (z mod 256))) as [b|] eqn:E.
  - apply Byte.to_of_N in E. rewrite E. lia.
  - apply Byte.of_N_None_iff in E. lia.
Qed.

Lemma byteZ_Zb b : byteZ (Zb b) = b.
Proof.
  unfold Zb, byteZ. pose proof (Byte.to_N_bounded b).
  rewrite Z.mod_small by lia. rewrite N2Z.id, Byte.of_to_N. done.
Qed.

Lemma Zb_inj a b : Zb a = Zb b → a = b.
Proof. intros H. rewrite <-(byteZ_Zb a), <-(byteZ_Zb b). by f_equal. Qed.

Lemma byteZ_mod z : byteZ (z mod 256) = byteZ z.
Proof. unfold byteZ. by rewrite Z.mod_mod. Qed.

Lemma uint64_small z : is_uint 64 z → uint64 z = z.
Proof. intros H. apply Z.mod_small, H. Qed.

Lemma uint64_range z : is_uint 64 (uint64 z).
Proof. apply Z.mod_pos_bound. done. Qed.

Lemma uint16_range z : is_uint 16 (uint16 z).
Proof. apply Z.mod_pos_bound. done. Qed.

Lemma int64_uint64 z : is_int64 z → int64 (uint64 z) = z.
Proof.
  unfold is_int64, int64, uint64. intros H.
  destruct (Z.leb_spec 0 z) as [Hz|Hz].
  - rewrite (Z.mod_small z) by lia. rewrite Z.mod_small; lia.
  - replace (z mod 2 ^ 64) with (z + 2 ^ 64)
      by (apply Z.mod_unique with (q := -1); lia).
    replace ((z + 2 ^ 64 + 2 ^ 63) mod 2 ^ 64) with (z + 2 ^ 63)
      by (apply Z.mod_unique with (q := 1); lia). lia.
Qed.

Lemma int64_range z : is_int64 (int64 z).
Proof.
  unfold is_int64, int64. pose proof (Z.mod_pos_bound (z + 2 ^ 63) (2 ^ 64) eq_refl). lia.
Qed.

#[export] Hint Resolve Zb_range uint64_range uint16_range int64_range : goet.

(** ** Lemmas: lengths *)

Lemma len_nonneg {A} (l : list A) : 0 <= len l.
Proof. unfold len. lia. Qed.

Lemma len_nil {A} : len (@nil A) = 0.
Proof. done. Qed.

Lemma len_cons {A} (a : A) l : len (a :: l) = 1 + len l.
Proof. unfold len. rewrite length_cons. lia. Qed.

Lemma len_app {A} (l k : list A) : len (l ++ k) = len l + len k.
Proof. unfold len. rewrite length_app. lia. Qed.

Lemma len_replicate {A} n (a : A) : len (replicate n a) = Z.of_nat n.
Proof. unfold len. by rewrite length_replicate. Qed.

Lemma len_take {A} n (l : list A) : len (take n l) = Z.min (Z.of_nat n) (len l).
Proof. unfold len. rewrite length_take. lia. Qed.

Lemma len_drop {A} n (l : list A) : len (drop n l) = Z.max 0 (len l - Z.of_nat n).
Proof. unfold len. rewrite length_drop. lia. Qed.

Lemma len_insert {A} n (a : A) l : len (<[n := a]> l) = len l.
Proof. unfold len. by rewrite length_insert. Qed.

Lemma len_zero {A} (l : list A) : len l = 0 → l = [].
Proof. destruct l; [done|]. rewrite len_cons. pose proof (len_nonneg l). lia. Qed.

Lemma len_pos {A} (l : list A) : l ≠ [] → 0 < len l.
Proof. destruct l; [done|]. rewrite len_cons. pose proof (len_nonneg l). lia. Qed.

#[export] Hint Resolve len_nonneg len_pos : goet.
#[export] Hint Rewrite @len_nil @len_cons @len_app @len_replicate @len_take
  @len_drop @len_insert : goet.

(** ** Lemmas: slices *)

Lemma go_slice_ok {A} (l : list A) lo hi :
  0 <= lo → lo <= hi → hi <= len l →
  go_slice l lo hi = Ok (take (Z.to_nat (hi - lo)) (drop (Z.to_nat lo) l)).
Proof.
  intros. unfold go_slice.
  rewrite !(proj2 (Z.leb_le _ _)) by lia. done.
Qed.

Lemma go_slice_head {A} (l : list A) k :
  0 <= k <= len l → go_slice l 0 k = Ok (take (Z.to_nat k) l).
Proof. intros. rewrite go_slice_ok by lia. by rewrite Z.sub_0_r. Qed.

Lemma go_slice_inverted {A} (l : list A) lo hi :
  hi < lo → go_slice l lo hi = Panicked SliceOutOfRange.
Proof.
  intros. unfold go_slice.
  rewrite (proj2 (Z.leb_gt lo hi)) by lia. by rewrite andb_false_r.
Qed.

Lemma go_slice_mid {A} (p l s : list A) lo hi :
  lo = len p → hi = len p + len l → go_slice (p ++ l ++ s) lo hi = Ok l.
Proof.
  intros -> ->. rewrite go_slice_ok by
    (rewrite ?len_app; pose proof (len_nonneg p); pose proof (len_nonneg l);
     pose proof (len_nonneg s); lia).
  unfold len. replace (Z.to_nat _) with (List.length l) at 1 by lia.
  rewrite Nat2Z.id, drop_app_length, take_app_length. done.
Qed.

Lemma go_slice_prefix {A} (l s : list A) hi :
  hi = len l → go_slice (l ++ s) 0 hi = Ok l.
Proof. intros ->. by apply (go_slice_mid [] l s). Qed.

Lemma go_slice_suffix {A} (p l : list A) lo hi :
  lo = len p → hi = len p + len l → go_slice (p ++ l) lo hi = Ok l.
Proof. intros -> ->. rewrite <-(app_nil_r l) at 1. by apply go_slice_mid. Qed.

Lemma go_slice_length {A} (l k : list A) lo hi :
  go_slice l lo hi = Ok k → len k = hi - lo.
Proof.
  unfold go_slice. destruct (_ && _) eqn:E; [|done]. intros [= <-].
  rewrite !andb_true_iff, !Z.leb_le in E. rewrite len_take, len_drop. lia.
Qed.

Lemma go_index_ok {A} (l : list A) i a :
  0 <= i → l !! Z.to_nat i = Some a → go_index l i = Ok a.
Proof. intros Hi Ha. unfold go_index. rewrite (proj2 (Z.leb_le _ _)) by lia. by rewrite Ha. Qed.

Lemma go_index_inv {A} (l : list A) i a :
  go_index l i = Ok a → 0 <= i ∧ l !! Z.to_nat i = Some a.
Proof.
  unfold go_index. destruct (Z.leb_spec 0 i); [|done].
  destruct (l !! Z.to_nat i) eqn:E; naive_solver.
Qed.

Lemma go_index_total {A} (l : list A) i :
  0 <= i < len l → ∃ a, go_index l i = Ok a ∧ l !! Z.to_nat i = Some a.
Proof.
  intros Hi. destruct (lookup_lt_is_Some_2 l (Z.to_nat i)) as [a Ha].
  { unfold len in Hi. lia. }
  exists a. split; [apply go_index_ok; [lia|done]|done].
Qed.

Lemma go_store_ok {A} (l : list A) i v :
  0 <= i < len l → go_store l i v = Ok (<[Z.to_nat i := v]> l).
Proof.
  intros Hi. unfold go_store.
  rewrite (proj2 (Z.leb_le _ _)), (proj2 (Z.ltb_lt _ _)) by lia. done.
Qed.

Lemma go_store_inv {A} (l : list A) i v k :
  go_store l i v = Ok k → 0 <= i < len l ∧ k = <[Z.to_nat i := v]> l.
Proof.
  unfold go_store. destruct (Z.leb_spec 0 i); [|done].
  destruct (Z.ltb_spec i (len l)); [|done]. simpl. naive_solver.
Qed.

#[export] Hint Resolve go_slice_ok go_index_ok go_store_ok : goet.

(** ** Lemmas: big-endian encoding *)

Lemma be_put_length n z : List.length (be_put n z) = n.
Proof. revert z. induction n as [|n IH]; intros z; simpl; [done|]. by rewrite IH. Qed.

Lemma len_be_put n z : len (be_put n z) = Z.of_nat n.
Proof. unfold len. by rewrite be_put_length. Qed.

Lemma lor_shiftl_add a n k :
  0 <= n → 0 <= k < 2 ^ n → Z.lor (Z.shiftl a n) k = a * 2 ^ n + k.
Proof.
  intros Hn Hk. rewrite <-Z.shiftl_mul_pow2, <-Z.add_lor_land by lia.
  enough (Z.land (Z.shiftl a n) k = 0) as -> by lia.
  apply Z.bits_inj_0. intros i. rewrite Z.land_spec.
  destruct (Z.ltb_spec i n); [by rewrite Z.shiftl_spec_low by lia|].
  destruct (Z.eq_dec k 0) as [->|]; [by rewrite Z.bits_0, andb_false_r|].
  rewrite (Z.bits_above_log2 k), andb_false_r; [done|lia|].
  apply Z.log2_lt_pow2; [lia|]. eapply Z.lt_le_trans; [apply Hk|].
  apply Z.pow_le_mono_r; lia.
Qed.

Lemma be_get_range l : 0 <= be_get l < 2 ^ (8 * len l).
Proof.
  induction l as [|b l IH]; [done|]. simpl be_get.
  change (Z.of_nat (List.length l)) with (len l).
  rewrite lor_shiftl_add by (pose proof (len_nonneg l); lia).
  rewrite len_cons. pose proof (Zb_range b). pose proof (len_nonneg l).
  replace (8 * (1 + len l)) with (8 + 8 * len l) by lia.
  rewrite Z.pow_add_r by lia. nia.
Qed.

Lemma be_get_cons b l : be_get (b :: l) = Zb b * 2 ^ (8 * len l) + be_get l.
Proof.
  change (be_get (b :: l)) with (Z.lor (Z.shiftl (Zb b) (8 * len l)) (be_get l)).
  apply lor_shiftl_add; [pose proof (len_nonneg l); lia|]. apply be_get_range.
Qed.

Lemma be_get_put n z : be_get (be_put n z) = z mod 2 ^ (8 * Z.of_nat n).
Proof.
  revert z. induction n as [|n IH]; intros z; [by rewrite Z.mod_1_r|].
  simpl be_put. rewrite be_get_cons, IH, len_be_put, Zb_byteZ, Z.shiftr_div_pow2 by lia.
  replace (8 * Z.of_nat (S n)) with (8 * Z.of_nat n + 8) by lia.
  rewrite Z.pow_add_r by lia. change (2 ^ 8) with 256.
  rewrite (Z.rem_mul_r z (2 ^ (8 * Z.of_nat n)) 256) by lia. lia.
Qed.

Lemma be_put_low c n m k :
  (n ≤ m)%nat → be_put n (c * 2 ^ (8 * Z.of_nat m) + k) = be_put n k.
Proof.
  induction n as [|n IH]; intros Hn; [done|].
  simpl. rewrite IH by lia. f_equal.
  rewrite <-byteZ_mod, <-(byteZ_mod (Z.shiftr k _)). f_equal.
  rewrite !Z.shiftr_div_pow2 by lia.
  replace (8 * Z.of_nat m)
    with (8 * (Z.of_nat m - Z.of_nat n - 1) + 8 + 8 * Z.of_nat n) by lia.
  rewrite !Z.pow_add_r, !Z.mul_assoc, Z.div_add_l by lia.
  change (2 ^ 8) with 256. by rewrite Z.add_comm, Z.mod_add by lia.
Qed.

Lemma be_put_get l : be_put (List.length l) (be_get l) = l.
Proof.
  induction l as [|b l IH]; [done|].
  rewrite be_get_cons. pose proof (be_get_range l).
  unfold len in *. simpl. rewrite be_put_low, IH by lia. f_equal.
  rewrite Z.shiftr_div_pow2, Z.div_add_l, (Z.div_small (be_get l)) by lia.
  rewrite Z.add_0_r. apply byteZ_Zb.
Qed.

Lemma be_get_put_fits n z : is_uint (8 * Z.of_nat n) z → be_get (be_put n z) = z.
Proof. intros H. rewrite be_get_put. by apply Z.mod_small. Qed.

Lemma be_put_inj n a b :
  is_uint (8 * Z.of_nat n) a → is_uint (8 * Z.of_nat n) b → be_put n a = be_put n b → a = b.
Proof. intros Ha Hb H. by rewrite <-(be_get_put_fits n a), H, be_get_put_fits. Qed.

#[export] Hint Rewrite be_put_length len_be_put : goet.

Arguments len : simpl never.
Arguments be_put : simpl never.
Arguments be_get : simpl never.
Arguments go_slice : simpl never.
Arguments go_index : simpl never.
Arguments go_store : simpl never.
Arguments byteZ : simpl never.
Arguments uint16 : simpl never.
Arguments uint32 : simpl never.
Arguments uint64 : simpl never.
Arguments int64 : simpl never.
