(* ===== verification/GoIO.v ===== *)
(** * Go's blocking I/O

    The part of the standard library's [io] package the program relies on.
    An operation runs against the state of the object it is called on; it
    gives a result and the next state, or no result at all when the calling
    goroutine blocks for ever.  What the environment will do is part of the
    state (the bytes that will arrive, how many bytes will be accepted, the
    error that follows), so the operations stay executable and a theorem that
    quantifies over the state quantifies over every behaviour of the peer. *)

From S2P Require Import Prelude.

(** [io S A]: a computation over state [S]; [None] means it never returns. *)
Definition io (S A : Type) : Type := S → option (res A * S).

Section monad.
Context {S : Type}.

Definition io_ret {A} (a : A) : io S A := λ s, Some (Ok a, s).
Definition io_lift {A} (r : res A) : io S A := λ s, Some (r, s).
Definition io_block {A} : io S A := λ _, None.

(** Sequencing: an error or a panic ends the function, as an early
    [return err] does. *)
Definition io_bind {A B} (c : io S A) (k : A → io S B) : io S B := λ s,
  match c s with
  | None => None
  | Some (Ok a, s') => k a s'
  | Some (Err e, s') => Some (Err e, s')
  | Some (Panicked p, s') => Some (Panicked p, s')
  end.

(** Inspect the error of a call instead of returning it; a panic still
    unwinds. *)
Definition io_try {A} (c : io S A) : io S (res A) := λ s,
  match c s with
  | None => None
  | Some (Panicked p, s') => Some (Panicked p, s')
  | Some (r, s') => Some (Ok r, s')
  end.

(** [if err != nil { return fmt.Errorf("text: %w", err) }] *)
Definition io_wrap {A} (text : string) (c : io S A) : io S A := λ s,
  match c s with
  | Some (r, s') => Some (wrap_err text r, s')
  | None => None
  end.
End monad.

#[export] Instance io_mret S : MRet (io S) := @io_ret S.
#[export] Instance io_mbind S : MBind (io S) := λ A B k c, io_bind c k.

Notation "x <- c ;; k" := (io_bind c (λ x, k))
  (at level 100, c at next level, right associativity) : go_scope.
Notation "c ;; k" := (io_bind c (λ _, k)) (at level 100, right associativity) : go_scope.

(** Run a computation on a part of a larger state. *)
Definition io_zoom {S T A} (get : T → S) (put : S → T → T) (c : io S A) : io T A := λ t,
  match c (get t) with
  | None => None
  | Some (r, s') => Some (r, put s' t)
  end.

(** ** [io.Reader] and [io.ReadFull] *)

Definition EOF : error := ErrNew "EOF".
Definition ErrUnexpectedEOF : error := ErrNew "unexpected EOF".

(** A reader: the bytes it will deliver, then the error every later read
    returns; with no error the read blocks. *)
Record reader : Type := Reader { rd_in : bytes; rd_fin : option error }.

(** [io.ReadFull(r, buf)] with [len(buf) = n]: exactly [n] bytes, or the
    reader's error; an [EOF] after some bytes is [ErrUnexpectedEOF]. *)
Definition ReadFull (n : Z) : io reader bytes := λ r,
  if n <=? len (rd_in r)
  then Some (Ok (take (Z.to_nat n) (rd_in r)), Reader (drop (Z.to_nat n) (rd_in r)) (rd_fin r))
  else match rd_fin r with
       | None => None
       | Some e =>
         Some (Err (if bool_decide (e = EOF) && (0 <? len (rd_in r)) then ErrUnexpectedEOF else e),
               Reader [] (rd_fin r))
       end.

(** ** [io.Writer] *)

(** A writer: the bytes it has accepted, how many more it accepts ([None]:
    no limit), and the error it returns when it accepts fewer than it is
    given; with no error that write blocks. *)
Record writer : Type := Writer { wr_out : bytes; wr_room : option Z; wr_fin : option error }.

Definition Write (p : bytes) : io writer unit := λ w,
  match wr_room w with
  | None => Some (Ok (), Writer (wr_out w ++ p) None (wr_fin w))
  | Some k =>
    if len p <=? k
    then Some (Ok (), Writer (wr_out w ++ p) (Some (k - len p)) (wr_fin w))
    else match wr_fin w with
         | None => None
         | Some e => Some (Err e, Writer (wr_out w ++ take (Z.to_nat k) p) (Some 0) (wr_fin w))
         end
  end.

(** The writer takes all of [p]. *)
Definition accepts (w : writer) (n : Z) : Prop :=
  match wr_room w with None => True | Some k => n <= k end.

Definition advance (w : writer) (p : bytes) : writer :=
  Writer (wr_out w ++ p) ((λ k, k - len p) <$> wr_room w) (wr_fin w).

(** ** Lemmas *)

Lemma io_bind_ok {S A B} (c : io S A) (k : A → io S B) s a s' :
  c s = Some (Ok a, s') → io_bind c k s = k a s'.
Proof. unfold io_bind. by intros ->. Qed.

Lemma io_bind_err {S A B} (c : io S A) (k : A → io S B) s e s' :
  c s = Some (Err e, s') → io_bind c k s = Some (Err e, s').
Proof. unfold io_bind. by intros ->. Qed.

Lemma io_bind_panic {S A B} (c : io S A) (k : A → io S B) s p s' :
  c s = Some (Panicked p, s') → io_bind c k s = Some (Panicked p, s').
Proof. unfold io_bind. by intros ->. Qed.

Lemma io_bind_lift {S A B} (a : A) (k : A → io S B) s :
  io_bind (io_lift (Ok a)) k s = k a s.
Proof. done. Qed.

(** Inversion of a sequence that returned a value. *)
Lemma io_bind_inv {S A B} (c : io S A) (k : A → io S B) s b s'' :
  io_bind c k s = Some (Ok b, s'') →
  ∃ a s', c s = Some (Ok a, s') ∧ k a s' = Some (Ok b, s'').
Proof. unfold io_bind. destruct (c s) as [[[]]|]; naive_solver. Qed.

(** A sequence that returned at all. *)
Lemma io_bind_split {S A B} (c : io S A) (k : A → io S B) s r s'' :
  io_bind c k s = Some (r, s'') →
  ∃ r1 s1, c s = Some (r1, s1) ∧
    match r1 with
    | Ok a => k a s1 = Some (r, s'')
    | Err e => r = Err e ∧ s'' = s1
    | Panicked p => r = Panicked p ∧ s'' = s1
    end.
Proof. unfold io_bind. destruct (c s) as [[[] s1]|]; [..|done]; intros Hk; eexists _, s1; naive_solver. Qed.

(** A call whose error is inspected; if it panics, so does the whole. *)
Lemma io_try_split {S A B} (c : io S A) (k : res A → io S B) s r s'' :
  io_bind (io_try c) k s = Some (r, s'') → panics r = false →
  ∃ r1 s1, c s = Some (r1, s1) ∧ panics r1 = false ∧ k r1 s1 = Some (r, s'').
Proof.
  unfold io_bind, io_try. destruct (c s) as [[[] s1]|]; [..|done]; intros Hk Hp.
  - by eexists _, s1.
  - by eexists _, s1.
  - by injection Hk as <- <-.
Qed.

Lemma io_wrap_ok {S A} text (c : io S A) s a s' :
  c s = Some (Ok a, s') → io_wrap text c s = Some (Ok a, s').
Proof. unfold io_wrap. by intros ->. Qed.

Lemma io_wrap_inv {S A} text (c : io S A) s a s' :
  io_wrap text c s = Some (Ok a, s') → c s = Some (Ok a, s').
Proof. unfold io_wrap. destruct (c s) as [[[]]|]; naive_solver. Qed.

Lemma ReadFull_app p l fin n :
  n = len p → ReadFull n (Reader (p ++ l) fin) = Some (Ok p, Reader l fin).
Proof.
  intros ->. unfold ReadFull. simpl. rewrite len_app.
  rewrite (proj2 (Z.leb_le _ _)) by (pose proof (len_nonneg l); lia).
  unfold len. by rewrite Nat2Z.id, take_app_length, drop_app_length.
Qed.

Lemma ReadFull_inv n r p r' :
  0 <= n → ReadFull n r = Some (Ok p, r') →
  len p = n ∧ rd_in r = p ++ rd_in r' ∧ rd_fin r' = rd_fin r.
Proof.
  unfold ReadFull. intros Hn. destruct (Z.leb_spec n (len (rd_in r))).
  - intros [= <- <-]. simpl. rewrite len_take, take_drop. split_and!; [lia|done|done].
  - by destruct (rd_fin r).
Qed.

Lemma ReadFull_no_panic n r p r' : ReadFull n r ≠ Some (Panicked p, r').
Proof. unfold ReadFull. repeat case_match; congruence. Qed.

Lemma Write_ok p w :
  accepts w (len p) → Write p w = Some (Ok (), advance w p).
Proof.
  unfold accepts, Write, advance. destruct w as [o [k|] f]; simpl; [|done].
  intros H. by rewrite (proj2 (Z.leb_le _ _)).
Qed.

Lemma Write_ok_out p w w' : Write p w = Some (Ok (), w') → wr_out w' = wr_out w ++ p.
Proof. unfold Write. by repeat case_match; intros [= <-]. Qed.

Lemma Write_cases p w r w' :
  Write p w = Some (r, w') →
  (r = Ok () ∧ w' = advance w p ∧ accepts w (len p)) ∨
  (∃ e q, r = Err e ∧ ¬ accepts w (len p) ∧ wr_fin w = Some e ∧
          q `prefix_of` p ∧ wr_out w' = wr_out w ++ q ∧ wr_room w' = Some 0 ∧
          (p ≠ [] → len q < len p) ∧ (∀ k, wr_room w = Some k → len q <= Z.max 0 k)).
Proof.
  unfold Write, accepts, advance. destruct w as [o [k|] f]; simpl; [|naive_solver].
  destruct (Z.leb_spec (len p) k) as [Hk|Hk]; [naive_solver|].
  destruct f as [e|]; [|done]. intros [= <- <-]. right.
  exists e, (take (Z.to_nat k) p). split_and!; [done|lia|done| |done|done| |].
  - apply prefix_take.
  - intros Hp%len_pos. rewrite len_take. lia.
  - intros ? [= <-]. rewrite len_take. lia.
Qed.

Lemma accepts_le w n m : accepts w n → m <= n → accepts w m.
Proof. unfold accepts. destruct (wr_room w); lia. Qed.

Lemma accepts_advance w p n : accepts w (len p + n) → accepts (advance w p) n.
Proof. unfold accepts, advance. destruct (wr_room w); simpl; lia. Qed.

Lemma advance_accepts w p n : 0 <= n → accepts w (len p) → accepts (advance w p) n → accepts w (len p + n).
Proof. unfold accepts, advance. destruct (wr_room w); simpl; lia. Qed.

Lemma advance_app w p q : advance (advance w p) q = advance w (p ++ q).
Proof.
  unfold advance. destruct w as [o [k|] f]; simpl; rewrite <-app_assoc; [|done].
  rewrite len_app. do 2 f_equal. lia.
Qed.

Lemma advance_nil w : advance w [] = w.
Proof.
  unfold advance. destruct w as [o [k|] f]; simpl; rewrite app_nil_r; [|done].
  rewrite len_nil. do 2 f_equal. lia.
Qed.

#[export] Hint Resolve accepts_le accepts_advance Write_ok : goet.

(** ** [time.Timer]

    Times are nanoseconds.  A timer is running, with the time at which its
    channel becomes ready, or it is not.  The module requires Go 1.26, where
    a timer channel never holds a stale value: [Stop] and [Reset] discard a
    value that has not been received, and [Stop] then reports [true]. *)

Definition Millisecond : Z := 1000000.
Definition Second : Z := 1000 * Millisecond.

Record timer : Type := MkTimer { when : option Z }.

Definition NewTimer (now d : Z) : timer := MkTimer (Some (now + d)).
Definition timer_Stop (t : timer) : timer * bool :=
  (MkTimer None, match when t with Some _ => true | None => false end).
Definition timer_Reset (t : timer) (now d : Z) : timer := MkTimer (Some (now + d)).

(** [case <-t.C:] is ready at time [now]; receiving empties the channel. *)
Definition timer_ready (t : timer) (now : Z) : bool :=
  match when t with Some d => d <=? now | None => false end.
Definition timer_recv (t : timer) (now : Z) : option timer :=
  if timer_ready t now then Some (MkTimer None) else None.

(** ** Channels

    A buffered channel: the values in it, its capacity, and whether it has
    been closed. *)

Record chan (A : Type) : Type := Chan { ch_buf : list A; ch_cap : Z; ch_closed : bool }.
Arguments Chan {_} _ _ _.
Arguments ch_buf {_} _.
Arguments ch_cap {_} _.
Arguments ch_closed {_} _.

Definition make_chan (A : Type) (cap : Z) : chan A := Chan [] cap false.

(** [case ch <- v:] is ready when there is room. *)
Definition chan_can_send {A} (c : chan A) : bool := len (ch_buf c) <? ch_cap c.
Definition chan_send {A} (c : chan A) (v : A) : chan A :=
  Chan (ch_buf c ++ [v]) (ch_cap c) (ch_closed c).

(** [select { case ch <- v: default: }] *)
Definition chan_try_send {A} (c : chan A) (v : A) : chan A :=
  if chan_can_send c then chan_send c v else c.

(** [v, ok := <-ch]: [None] while it blocks. *)
Definition chan_recv {A} (c : chan A) : option (option A * chan A) :=
  match ch_buf c with
  | v :: vs => Some (Some v, Chan vs (ch_cap c) (ch_closed c))
  | [] => if ch_closed c then Some (None, c) else None
  end.

Definition chan_close {A} (c : chan A) : chan A := Chan (ch_buf c) (ch_cap c) true.

(** ** What calls leave alone

    [leaves R c]: whatever the result of [c], the states before and after it
    are related by the preorder [R].  The lemmas follow the structure of a
    computation; [solve_leaves] applies them. *)
Section leaves.
Context {S : Type} (R : S → S → Prop) `{!PreOrder R}.

Definition leaves {A} (c : io S A) : Prop := ∀ s r s', c s = Some (r, s') → R s s'.

Lemma leaves_ret {A} (a : A) : leaves (io_ret a).
Proof. by intros s r s' [= _ <-]. Qed.

Lemma leaves_lift {A} (r : res A) : leaves (io_lift r).
Proof. by intros s r0 s' [= _ <-]. Qed.

Lemma leaves_block {A} : leaves (io_block (A := A)).
Proof. by intros s r s'. Qed.

Lemma leaves_read {A} (f : S → A) : leaves (λ s, Some (Ok (f s), s)).
Proof. by intros s r s' [= _ <-]. Qed.

Lemma leaves_bind {A B} (c : io S A) (k : A → io S B) :
  leaves c → (∀ a, leaves (k a)) → leaves (io_bind c k).
Proof.
  intros Hc Hk s r s' (r1 & s1 & E%Hc & Hr)%io_bind_split. destruct r1 as [a|e|p]; [|by destruct Hr as [_ ->]..].
  etrans; [exact E|]. by eapply Hk.
Qed.

Lemma leaves_try {A} (c : io S A) : leaves c → leaves (io_try c).
Proof.
  intros Hc s r s'. unfold io_try. destruct (c s) as [[[] s1]|] eqn:E; [..|done]; intros [= _ <-]; by eapply Hc.
Qed.

Lemma leaves_wrap {A} text (c : io S A) : leaves c → leaves (io_wrap text c).
Proof. intros Hc s r s'. unfold io_wrap. destruct (c s) as [[r0 s1]|] eqn:E; [|done]. intros [= _ <-]. by eapply Hc. Qed.
End leaves.

(** A computation that returns no error. *)
Definition errless {S A} (c : io S A) : Prop := ∀ s r s', c s = Some (r, s') → ∀ e, r ≠ Err e.

Lemma errless_ret {S A} (a : A) : errless (io_ret (S := S) a).
Proof. by intros s r s' [= <- _]. Qed.

Lemma errless_panic {S A} p : errless (io_lift (S := S) (A := A) (Panicked p)).
Proof. by intros s r s' [= <- _]. Qed.

Lemma errless_try {S A} (c : io S A) : errless (io_try c).
Proof. intros s r s'. unfold io_try. destruct (c s) as [[[] s1]|]; [..|done]; by intros [= <- _]. Qed.

Lemma errless_bind {S A B} (c : io S A) (k : A → io S B) :
  errless c → (∀ a, errless (k a)) → errless (io_bind c k).
Proof.
  intros Hc Hk s r s' (r1 & s1 & E & Hr)%io_bind_split. destruct r1 as [a|e|p].
  - by eapply Hk.
  - by destruct (Hc _ _ _ E e).
  - by destruct Hr as [-> _].
Qed.

Lemma errless_zoom {S T A} (get : T → S) (put : S → T → T) (c : io S A) : errless c → errless (io_zoom get put c).
Proof. intros Hc t r t'. unfold io_zoom. destruct (c _) as [[r0 s]|] eqn:E; [|done]. intros [= <- _]. by eapply Hc. Qed.

(** A call on a part of the state, whose context is related. *)
Lemma leaves_zoom {S T A} (R : T → T → Prop) (get : T → S) (put : S → T → T) (c : io S A) :
  (∀ s t, R t (put s t)) → leaves R (io_zoom get put c).
Proof. intros HR t r t'. unfold io_zoom. destruct (c _) as [[r0 s]|]; [|done]. intros [= _ <-]. apply HR. Qed.

Ltac leaves_step :=
  match goal with
  | |- leaves _ (io_ret _) => apply leaves_ret
  | |- leaves _ (io_lift _) => apply leaves_lift
  | |- leaves _ io_block => apply leaves_block
  | |- leaves _ (io_bind _ _) => apply leaves_bind; [| |intros ?]
  | |- leaves _ (io_try _) => apply leaves_try
  | |- leaves _ (io_wrap _ _) => apply leaves_wrap
  | |- leaves _ (match _ with _ => _ end) => case_match
  | |- leaves _ (let '_ := _ in _) => case_match
  end.
Ltac solve_errless := repeat
  match goal with
  | |- errless (io_ret _) => apply errless_ret
  | |- errless (io_lift (Panicked _)) => apply errless_panic
  | |- errless (io_bind _ _) => apply errless_bind; [|intros ?]
  | |- errless (io_try _) => apply errless_try
  | |- errless (io_zoom _ _ _) => apply errless_zoom
  | |- errless (match _ with _ => _ end) => case_match
  end; auto with leaves.
Ltac solve_leaves := repeat (leaves_step; try apply _); auto with leaves.

Create HintDb leaves.

(** ** Calls that do not panic

    Of the state of a library only a part matters to the program, its [view]:
    what is listening, running or on the disk. *)
Class View (W X : Type) : Type := view : W → X.

(** A call does not panic, and [f] relates the view before and after. *)
Definition calm {W X A} `{View W X} (f : X → res A → X → Prop) (op : io W A) : Prop :=
  ∀ w r w', op w = Some (r, w') → panics r = false ∧ f (view w) r (view w').

Definition same {X A} (x : X) (r : res A) (x' : X) : Prop := x' = x.

(** A read of the state. *)
Lemma io_read_bind {W A B} (f : W → A) (k : A → io W B) w :
  io_bind (λ w, Some (Ok (f w), w)) k w = k (f w) w.
Proof. done. Qed.

Section calm.
Context {W X : Type} `{View W X}.

(** What a call does to the state, whatever its result. *)
Definition does {A} (g : X → X) (op : io W A) : Prop :=
  calm (λ x _ x', x' = g x) op.

Lemma calm_ret {A} (a : A) : calm same (io_ret (S := W) a).
Proof. by intros w r w' [= <- <-]. Qed.

Lemma calm_lift {A} (r : res A) : panics r = false → calm same (io_lift (S := W) r).
Proof. by intros Hr w r0 w' [= <- <-]. Qed.

Lemma calm_wrap {A} text (c : io W A) f :
  calm f c → (∀ x e x', f x (Err e) x' → f x (Err (ErrWrap text e)) x') → calm f (io_wrap text c).
Proof.
  intros Hc Hf w r w'. unfold io_wrap. destruct (c w) as [[r0 w0]|] eqn:E; [|done]. intros [= <- <-].
  destruct (Hc _ _ _ E) as [Hp Hx]. destruct r0; [done| |done]. split; [done|]. by apply Hf.
Qed.

Lemma calm_wrap_same {A} text (c : io W A) : calm same c → calm same (io_wrap text c).
Proof. intros Hc. by apply calm_wrap. Qed.

Lemma does_inspect {A} (c : io W A) g : does g c → does g (io_try c).
Proof.
  intros Hc w r w'. unfold io_try. destruct (c w) as [[r0 w0]|] eqn:E; [|done].
  destruct (Hc _ _ _ E) as [Hp Hx]. by destruct r0; intros [= <- <-].
Qed.

Lemma calm_try {A} (c : io W A) : calm same c → calm same (io_try c).
Proof. apply (does_inspect c (λ x, x)). Qed.

Lemma calm_fail {A} e f : (∀ x, f x (Err e) x) → calm f (io_lift (S := W) (A := A) (Err e)).
Proof. by intros Hf w r w' [= <- <-]. Qed.

Lemma calm_bind {A B} (c : io W A) (k : A → io W B) f :
  calm same c → (∀ a, calm f (k a)) → (∀ x e, f x (Err e) x) → calm f (io_bind c k).
Proof.
  intros Hc Hk Hf w r w' (r1 & w1 & E & Hr)%io_bind_split. destruct (Hc _ _ _ E) as [Hp Hx].
  unfold same in Hx. destruct r1 as [a|e|p]; [|by destruct Hr as [-> ->]; rewrite Hx|done].
  destruct (Hk _ _ _ _ Hr) as [Hp' Hx']. by rewrite Hx in Hx'.
Qed.

Lemma calm_bind_same {A B} (c : io W A) (k : A → io W B) :
  calm same c → (∀ a, calm same (k a)) → calm same (io_bind c k).
Proof. intros Hc Hk. by apply calm_bind. Qed.

(** Inversions that keep what a calm call did. *)
Lemma calm_bind_inv {A B} f (c : io W A) (k : A → io W B) w r w' :
  calm f c → io_bind c k w = Some (r, w') →
  ∃ r1 w1, f (view w) r1 (view w1) ∧
    match r1 with Ok a => k a w1 = Some (r, w') | Err e => r = Err e ∧ w' = w1 | Panicked _ => False end.
Proof.
  intros Hc (r1 & w1 & E & Hr)%io_bind_split. destruct (Hc _ _ _ E) as [Hp Hx]. exists r1, w1.
  split; [done|]. by destruct r1.
Qed.

Lemma calm_try_inv {A B} f (c : io W A) (k : res A → io W B) w r w' :
  calm f c → io_bind (io_try c) k w = Some (r, w') →
  ∃ r1 w1, panics r1 = false ∧ f (view w) r1 (view w1) ∧ k r1 w1 = Some (r, w').
Proof.
  unfold io_bind, io_try. intros Hc Hr. destruct (c w) as [[r1 w1]|] eqn:E; [|done].
  destruct (Hc _ _ _ E) as [Hp Hx]. exists r1, w1. by destruct r1.
Qed.

(** A call whose error is inspected does not cut the rest short. *)
Lemma does_try {A B} (c : io W A) (k : res A → io W B) f g :
  does f c → (∀ r, panics r = false → does g (k r)) → does (λ x, g (f x)) (io_bind (io_try c) k).
Proof.
  intros Hc Hk w r w' (r1 & w1 & Hp & Hx & Hr)%(calm_try_inv _ _ _ _ _ _ Hc).
  destruct (Hk _ Hp _ _ _ Hr) as [Hp' Hx']. by rewrite Hx in Hx'.
Qed.

Lemma does_bind_ret {A B} (c : io W A) (k : A → io W B) f :
  does f c → (∀ a, calm same (k a)) → does f (io_bind c k).
Proof.
  intros Hc Hk w r w' (r1 & w1 & E & Hr)%io_bind_split. destruct (Hc _ _ _ E) as [Hp Hx].
  destruct r1 as [a|e|p]; [|by destruct Hr as [-> ->]|done].
  destruct (Hk _ _ _ _ Hr) as [Hp' Hx']. unfold same in Hx'. by rewrite Hx'.
Qed.

End calm.
