(* ===== verification/GoStrings.v ===== *)
(** * Strings and numbers of Go's standard library

    What the program uses of [strings], [strconv], [unicode], [path/filepath],
    [encoding/hex] and [bufio]: prefixes and words, decimal and prefixed
    numbers with their range errors, hexadecimal, lines read from a stream.
    A Go string is its bytes; where the library decodes UTF-8, so does the
    model. *)

From S2P Require Import Prelude GoIO.
Open Scope go_scope.

Module gostrings.

(** ** Prefixes and paths *)

Definition HasPrefix (s prefix : string) : bool := String.prefix prefix s.

(** [strings.CutPrefix], when the prefix is known to be there. *)
Definition CutPrefix (s prefix : string) : string :=
  bytes_string (drop (List.length (string_bytes prefix)) (string_bytes s)).

(** [path/filepath.Base] on Unix. *)
Definition slash : byte := x2f.
Fixpoint trim_slashes (rev_path : bytes) : bytes :=
  match rev_path with
  | b :: l => if bool_decide (b = slash) then trim_slashes l else rev_path
  | [] => []
  end.
Fixpoint until_slash (rev_path : bytes) : bytes :=
  match rev_path with
  | b :: l => if bool_decide (b = slash) then [] else b :: until_slash l
  | [] => []
  end.
Definition filepath_Base (path : string) : string :=
  let p := string_bytes path in
  if bool_decide (p = []) then "."
  else let r := trim_slashes (reverse p) in
       if bool_decide (r = []) then "/" else bytes_string (reverse (until_slash r)).

(** ** Runes

    [for _, c := range s]: the runes of a string, each with the bytes that
    encode it.  An invalid encoding gives [utf8.RuneError] and consumes one
    byte. *)

Definition RuneError : Z := 65533.
Definition cont (b : byte) : bool := (128 <=? Zb b) && (Zb b <=? 191).
Definition cbits (b : byte) : Z := Z.land (Zb b) 63.

Definition decode_rune (l : bytes) : Z * nat :=
  match l with
  | [] => (RuneError, 0%nat)
  | b0 :: l =>
    let x := Zb b0 in
    if x <? 128 then (x, 1%nat) else
    match l with
    | b1 :: l1 =>
      if (194 <=? x) && (x <=? 223) && cont b1
      then (Z.lor (Z.shiftl (Z.land x 31) 6) (cbits b1), 2%nat) else
      match l1 with
      | b2 :: l2 =>
        let r3 := Z.lor (Z.shiftl (Z.land x 15) 12) (Z.lor (Z.shiftl (cbits b1) 6) (cbits b2)) in
        if (224 <=? x) && (x <=? 239) && cont b1 && cont b2 && (2048 <=? r3) &&
           negb ((55296 <=? r3) && (r3 <=? 57343))
        then (r3, 3%nat) else
        match l2 with
        | b3 :: _ =>
          let r4 := Z.lor (Z.shiftl (Z.land x 7) 18)
                      (Z.lor (Z.shiftl (cbits b1) 12) (Z.lor (Z.shiftl (cbits b2) 6) (cbits b3))) in
          if (240 <=? x) && (x <=? 244) && cont b1 && cont b2 && cont b3 &&
             (65536 <=? r4) && (r4 <=? 1114111)
          then (r4, 4%nat) else (RuneError, 1%nat)
        | [] => (RuneError, 1%nat)
        end
      | [] => (RuneError, 1%nat)
      end
    | [] => (RuneError, 1%nat)
    end
  end.

Abbreviation rune := (Z * bytes)%type.

Fixpoint runes_fuel (fuel : nat) (l : bytes) : list rune :=
  match fuel, l with
  | S f, _ :: _ => let '(r, w) := decode_rune l in (r, take w l) :: runes_fuel f (drop w l)
  | _, _ => []
  end.
(** Each rune consumes at least one byte, so the length is enough fuel. *)
Definition runes_of (l : bytes) : list rune := runes_fuel (List.length l) l.
Definition runes (s : string) : list Z := fst <$> runes_of (string_bytes s).

(** ** [strings.TrimSpace], [Fields], [Trim], [LastIndex] *)

Definition IsSpace (r : Z) : bool :=
  ((9 <=? r) && (r <=? 13)) || (r =? 32) || (r =? 133) || (r =? 160) || (r =? 5760) ||
  ((8192 <=? r) && (r <=? 8202)) || (r =? 8232) || (r =? 8233) || (r =? 8239) || (r =? 8287) || (r =? 12288).

Fixpoint drop_while {A} (f : A → bool) (l : list A) : list A :=
  match l with a :: l' => if f a then drop_while f l' else l | [] => [] end.
Definition trim {A} (f : A → bool) (l : list A) : list A :=
  reverse (drop_while f (reverse (drop_while f l))).

(** Trimming at the end decodes backwards; a valid encoding is found from
    either side, and only valid encodings are spaces. *)
Definition TrimSpace (l : bytes) : bytes := List.concat (snd <$> trim (λ c : rune, IsSpace c.1) (runes_of l)).

(** [strings.Trim(s, cutset)] for an ASCII cutset. *)
Definition Trim (l cutset : bytes) : bytes := trim (λ b, bool_decide (b ∈ cutset)) l.

Fixpoint fields (cs : list rune) (cur : bytes) : list bytes :=
  match cs with
  | [] => if bool_decide (cur = []) then [] else [cur]
  | (r, b) :: cs' =>
    if IsSpace r then (if bool_decide (cur = []) then fields cs' [] else cur :: fields cs' [])
    else fields cs' (cur ++ b)
  end.
Definition Fields (l : bytes) : list bytes := fields (runes_of l) [].

(** [strings.LastIndex(s, sep)] for a one-byte [sep]; -1 when absent. *)
Fixpoint LastIndex (l : bytes) (sep : byte) : Z :=
  match l with
  | [] => -1
  | b :: l' =>
    let i := LastIndex l' sep in
    if 0 <=? i then i + 1 else if bool_decide (b = sep) then 0 else -1
  end.

(** ** [strconv]

    [ParseInt(s, base, 64)] for [base] 10 ([Atoi]) and 0 (the [flag] package,
    where the base is in the prefix and underscores may separate digits).  A
    call gives a value also with an error: 0 for bad syntax, the nearest
    [int64] when out of range. *)

Definition ErrSyntax : error := ErrNew "invalid syntax".
Definition ErrRange : error := ErrNew "value out of range".

Definition is_digit (b : byte) : bool := (48 <=? Zb b) && (Zb b <=? 57).
(** [lower(c) = c | ('x' - 'X')] *)
Definition lower (b : byte) : Z := Z.lor (Zb b) 32.
Definition is_letter (b : byte) : bool := (97 <=? lower b) && (lower b <=? 122).
Definition underscore : byte := x5f.

Definition digit_value (b : byte) : option Z :=
  if is_digit b then Some (Zb b - 48)
  else if is_letter b then Some (lower b - 97 + 10) else None.

(** The loop of [ParseUint]: [n] so far; the overflow test is made digit by
    digit. *)
Fixpoint parse_digits (base0 : bool) (base : Z) (l : bytes) (n : Z) : res Z :=
  match l with
  | [] => Ok n
  | b :: l' =>
    if base0 && bool_decide (b = underscore) then parse_digits base0 base l' n else
    match digit_value b with
    | None => Err ErrSyntax
    | Some d =>
      if base <=? d then Err ErrSyntax
      else if 2 ^ 64 <=? n * base + d then Err ErrRange
      else parse_digits base0 base l' (n * base + d)
    end
  end.

(** [base == 0]: look at the prefix. *)
Definition base_prefix (l : bytes) : Z * bytes :=
  match l with
  | x30 :: l1 =>
    match l1 with
    | c :: _ :: _ =>
      if lower c =? 98 then (2, drop 1 l1) else if lower c =? 111 then (8, drop 1 l1)
      else if lower c =? 120 then (16, drop 1 l1) else (8, l1)
    | _ => (8, l1)
    end
  | _ => (10, l)
  end.

(** [underscoreOK], after the sign: the class of the previous character is
    ['^'] at the start, ['0'] for a digit or prefix, ['_'], or ['!']. *)
Inductive seen : Type := SeenStart | SeenDigit | SeenUnderscore | SeenOther.
#[export] Instance seen_eq_dec : EqDecision seen.
Proof. solve_decision. Defined.

Fixpoint underscores (hex : bool) (l : bytes) (i : seen) : bool :=
  match l with
  | [] => negb (bool_decide (i = SeenUnderscore))
  | b :: l' =>
    if is_digit b || (hex && (97 <=? lower b) && (lower b <=? 102)) then underscores hex l' SeenDigit
    else if bool_decide (b = underscore)
    then if bool_decide (i = SeenDigit) then underscores hex l' SeenUnderscore else false
    else if bool_decide (i = SeenUnderscore) then false else underscores hex l' SeenOther
  end.
Definition underscoreOK (l : bytes) : bool :=
  match l with
  | x30 :: c :: l' =>
    if (lower c =? 98) || (lower c =? 111) || (lower c =? 120)
    then underscores (lower c =? 120) l' SeenDigit else underscores false l SeenStart
  | _ => underscores false l SeenStart
  end.

Definition ParseUint (base0 : bool) (l : bytes) : res Z :=
  if bool_decide (l = []) then Err ErrSyntax else
  let '(base, l') := if base0 then base_prefix l else (10, l) in
  n ← parse_digits base0 base l' 0;
  if base0 && bool_decide (underscore ∈ l) && negb (underscoreOK l) then Err ErrSyntax else Ok n.

Definition split_sign (l : bytes) : bool * bytes :=
  match l with
  | x2d :: l' => (true, l')
  | x2b :: l' => (false, l')
  | _ => (false, l)
  end.

Definition ParseInt (base0 : bool) (s : string) : Z * option error :=
  let '(neg, l) := split_sign (string_bytes s) in
  match ParseUint base0 l with
  | Ok un =>
    if neg then (if 2 ^ 63 <? un then (- 2 ^ 63, Some ErrRange) else (- un, None))
    else if 2 ^ 63 <=? un then (2 ^ 63 - 1, Some ErrRange) else (un, None)
  | Err e =>
    if bool_decide (e = ErrRange) then (if neg then - 2 ^ 63 else 2 ^ 63 - 1, Some ErrRange) else (0, Some e)
  | Panicked _ => (0, Some ErrSyntax)
  end.

(** [strconv.Atoi]; its fast path for short strings computes the same. *)
Definition Atoi (s : string) : Z * option error := ParseInt false s.

(** [strconv.Itoa], and [fmt]'s [%d]: the digits from the last one. *)
Fixpoint digits (fuel : nat) (n : Z) (acc : bytes) : bytes :=
  match fuel with
  | O => acc
  | S f =>
    let acc := byteZ (48 + n mod 10) :: acc in
    if n <? 10 then acc else digits f (n / 10) acc
  end.
(** A number has at most as many decimal digits as binary ones. *)
Definition Utoa (n : Z) : bytes := digits (S (Z.to_nat (Z.log2 n))) n [].
Definition Itoa (z : Z) : string :=
  bytes_string (if z <? 0 then x2d :: Utoa (- z) else Utoa z).

(** ** [encoding/hex] *)

Definition hex_digit (n : Z) : byte := byteZ (if n <? 10 then 48 + n else 87 + n).
Definition hex_EncodeToString (l : bytes) : string :=
  bytes_string (List.concat ((λ b, [hex_digit (Zb b / 16); hex_digit (Zb b mod 16)]) <$> l)).

Definition hex_value (b : byte) : option Z :=
  if is_digit b then Some (Zb b - 48)
  else if (97 <=? Zb b) && (Zb b <=? 102) then Some (Zb b - 87)
  else if (65 <=? Zb b) && (Zb b <=? 70) then Some (Zb b - 55) else None.

Definition InvalidByteError : error := ErrNew "encoding/hex: invalid byte".
Definition ErrLength : error := ErrNew "encoding/hex: odd length hex string".

Fixpoint hex_decode (l : bytes) : res bytes :=
  match l with
  | [] => Ok []
  | [a] => if hex_value a is Some _ then Err ErrLength else Err InvalidByteError
  | a :: b :: l' =>
    match hex_value a, hex_value b with
    | Some x, Some y => k ← hex_decode l'; Ok (byteZ (16 * x + y) :: k)
    | _, _ => Err InvalidByteError
    end
  end.
Definition hex_DecodeString (s : string) : res bytes := hex_decode (string_bytes s).

(** ** [bufio] *)

Definition newline : byte := x0a.

Fixpoint index_byte (l : bytes) (b : byte) : option nat :=
  match l with
  | [] => None
  | a :: l' => if bool_decide (a = b) then Some O else S <$> index_byte l' b
  end.

(** [reader.ReadString('\n')]: the line with its end, or the error that ends
    the stream; blocked when the stream stays open without a newline. *)
Definition ReadString (b : byte) : io reader bytes := λ r,
  match index_byte (rd_in r) b with
  | Some i => Some (Ok (take (S i) (rd_in r)), Reader (drop (S i) (rd_in r)) (rd_fin r))
  | None => match rd_fin r with None => None | Some e => Some (Err e, Reader [] (rd_fin r)) end
  end.

(** The first [scanner.Scan()] with [ScanLines]: [Ok (Some line)] is a token,
    [Ok None] is [false] with no error from [Err()].  At any end of the stream
    what is left is the last token; a line longer than the buffer may grow is
    [ErrTooLong]. *)
Definition MaxScanTokenSize : Z := 64 * 1024.
Definition ErrTooLong : error := ErrNew "bufio.Scanner: token too long".
Definition dropCR (l : bytes) : bytes :=
  match reverse l with x0d :: r => reverse r | _ => l end.

Definition Scan (r : reader) : option (res (option bytes)) :=
  match index_byte (take (Z.to_nat MaxScanTokenSize) (rd_in r)) newline with
  | Some i => Some (Ok (Some (dropCR (take i (rd_in r)))))
  | None =>
    if MaxScanTokenSize <=? len (rd_in r) then Some (Err ErrTooLong)
    else match rd_fin r with
         | None => None
         | Some e =>
           if bool_decide (rd_in r = [])
           then Some (if bool_decide (e = EOF) then Ok None else Err e)
           else Some (Ok (Some (dropCR (rd_in r))))
         end
  end.

(** ** Lemmas: strings and bytes *)

Lemma string_bytes_app s t : string_bytes (s +:+ t) = string_bytes s ++ string_bytes t.
Proof.
  induction s as [|a s IH]; [done|].
  change (Ascii.byte_of_ascii a :: string_bytes (s +:+ t) = Ascii.byte_of_ascii a :: (string_bytes s ++ string_bytes t)).
  by rewrite IH.
Qed.

Lemma string_bytes_of l : string_bytes (bytes_string l) = l.
Proof. apply String.list_byte_of_string_of_list_byte. Qed.

Lemma bytes_string_of s : bytes_string (string_bytes s) = s.
Proof. apply String.string_of_list_byte_of_string. Qed.

Lemma string_bytes_inj s t : string_bytes s = string_bytes t → s = t.
Proof. intros H. by rewrite <-(bytes_string_of s), H, bytes_string_of. Qed.

(** ** Lemmas: numbers *)

Lemma digit_value_digit d : 0 <= d < 10 → digit_value (byteZ (48 + d)) = Some d ∧ byteZ (48 + d) ≠ underscore.
Proof.
  intros Hd. unfold digit_value, is_digit. rewrite Zb_byteZ, Z.mod_small by lia.
  rewrite (proj2 (Z.leb_le 48 _)), (proj2 (Z.leb_le _ 57)) by lia. split; [simpl; f_equal; lia|].
  intros H%(f_equal Zb). rewrite Zb_byteZ, Z.mod_small in H by lia. change (Zb underscore) with 95 in H. lia.
Qed.

Lemma parse_digits_cons base0 d l n :
  0 <= d < 10 → n * 10 + d < 2 ^ 64 →
  parse_digits base0 10 (byteZ (48 + d) :: l) n = parse_digits base0 10 l (n * 10 + d).
Proof.
  intros Hd Hn. destruct (digit_value_digit d Hd) as [Hv Hu]. cbn [parse_digits].
  rewrite bool_decide_eq_false_2, andb_false_r, Hv by done.
  by rewrite (proj2 (Z.leb_gt 10 d)), (proj2 (Z.leb_gt _ _)) by lia.
Qed.

Lemma parse_digits_digits base0 f n acc :
  0 <= n < 10 ^ Z.of_nat f → n < 2 ^ 64 →
  parse_digits base0 10 (digits f n acc) 0 = parse_digits base0 10 acc n.
Proof.
  revert n acc. induction f as [|f IH]; intros n acc Hn Hb.
  { change (10 ^ Z.of_nat 0) with 1 in Hn. by assert (n = 0) as -> by lia. }
  pose proof (Z.mod_pos_bound n 10 eq_refl). pose proof (Z.div_mod n 10 ltac:(done)) as Hdm.
  cbn [digits]. destruct (Z.ltb_spec n 10).
  - rewrite parse_digits_cons by (rewrite ?Z.mod_small; lia). f_equal. rewrite Z.mod_small; lia.
  - rewrite Nat2Z.inj_succ, Z.pow_succ_r in Hn by lia. rewrite IH.
    + rewrite parse_digits_cons by lia. f_equal. lia.
    + split; [apply Z.div_pos; lia|apply Z.div_lt_upper_bound; lia].
    + apply Z.div_lt_upper_bound; lia.
Qed.

Lemma Utoa_fuel n : 0 <= n → n < 10 ^ Z.of_nat (S (Z.to_nat (Z.log2 n))).
Proof.
  intros Hn. destruct (Z.eq_dec n 0) as [->|]; [done|].
  rewrite Nat2Z.inj_succ, Z2Nat.id by apply Z.log2_nonneg.
  eapply Z.lt_le_trans; [apply Z.log2_spec; lia|].
  apply Z.pow_le_mono_l. lia.
Qed.

(** The printed digits are digits, and the first one is 0 only for zero. *)
Lemma digits_are f n acc : Forall (λ b, is_digit b = true) acc → Forall (λ b, is_digit b = true) (digits f n acc).
Proof.
  revert n acc. induction f as [|f IH]; intros n acc Ha; [done|]. cbn [digits].
  assert (Forall (λ b, is_digit b = true) (byteZ (48 + n mod 10) :: acc)).
  { constructor; [|done]. unfold is_digit. pose proof (Z.mod_pos_bound n 10 eq_refl).
    rewrite Zb_byteZ, Z.mod_small by lia. by rewrite !(proj2 (Z.leb_le _ _)) by lia. }
  destruct (n <? 10); [done|]. by apply IH.
Qed.

Lemma digits_head f n acc :
  0 < n < 10 ^ Z.of_nat f → ∃ d l, 0 < d < 10 ∧ digits f n acc = byteZ (48 + d) :: l.
Proof.
  revert n acc. induction f as [|f IH]; intros n acc Hn.
  { change (10 ^ Z.of_nat 0) with 1 in Hn. lia. }
  cbn [digits]. destruct (Z.ltb_spec n 10).
  - exists n. eexists. split; [lia|]. by rewrite Z.mod_small by lia.
  - rewrite Nat2Z.inj_succ, Z.pow_succ_r in Hn by lia. apply IH.
    split; [apply Z.div_str_pos; lia|apply Z.div_lt_upper_bound; lia].
Qed.

Lemma Utoa_head n : 0 <= n → ∃ d l, 0 <= d < 10 ∧ Utoa n = byteZ (48 + d) :: l ∧ (n = 0 → d = 0 ∧ l = []) ∧ (0 < n → 0 < d).
Proof.
  intros Hn. destruct (Z.eq_dec n 0) as [->|Hne]; [by exists 0, []|].
  destruct (digits_head (S (Z.to_nat (Z.log2 n))) n []) as (d & l & Hd & Heq).
  { split; [lia|]. by apply Utoa_fuel. }
  exists d, l. split_and!; [lia|lia|done|lia|lia].
Qed.

(** A digit is no sign and no prefix. *)
Lemma split_sign_digit d l : 0 <= d < 10 → split_sign (byteZ (48 + d) :: l) = (false, byteZ (48 + d) :: l).
Proof.
  intros Hd. assert (d = 0 ∨ d = 1 ∨ d = 2 ∨ d = 3 ∨ d = 4 ∨ d = 5 ∨ d = 6 ∨ d = 7 ∨ d = 8 ∨ d = 9) as Hc by lia.
  destruct Hc as [->|[->|[->|[->|[->|[->|[->|[->|[->| ->]]]]]]]]]; reflexivity.
Qed.

Lemma base_prefix_digit d l : 0 < d < 10 → base_prefix (byteZ (48 + d) :: l) = (10, byteZ (48 + d) :: l).
Proof.
  intros Hd. assert (d = 1 ∨ d = 2 ∨ d = 3 ∨ d = 4 ∨ d = 5 ∨ d = 6 ∨ d = 7 ∨ d = 8 ∨ d = 9) as Hc by lia.
  destruct Hc as [->|[->|[->|[->|[->|[->|[->|[->| ->]]]]]]]]; reflexivity.
Qed.

Lemma ParseUint_Utoa base0 n : 0 <= n < 2 ^ 64 → ParseUint base0 (Utoa n) = Ok n.
Proof.
  intros Hn. destruct (Utoa_head n) as (d & l & Hd & Heq & Hz & Hp); [lia|].
  assert (underscore ∉ Utoa n) as Hu.
  { intros Hin. pose proof (digits_are (S (Z.to_nat (Z.log2 n))) n [] ltac:(constructor)) as Hf.
    by pose proof (proj1 (Forall_forall _ _) Hf _ Hin). }
  assert (parse_digits base0 10 (Utoa n) 0 = Ok n) as Hpd.
  { unfold Utoa. rewrite parse_digits_digits; [done| |lia]. split; [lia|apply Utoa_fuel; lia]. }
  unfold ParseUint. rewrite bool_decide_eq_false_2 by (by rewrite Heq).
  destruct (Z.eq_dec n 0) as [->|Hne]; [by destruct base0|].
  assert ((if base0 then base_prefix (Utoa n) else (10, Utoa n)) = (10, Utoa n)) as ->.
  { destruct base0; [|done]. rewrite Heq. apply base_prefix_digit. lia. }
  rewrite Hpd. cbn. by rewrite (bool_decide_eq_false_2 _ Hu), andb_false_r.
Qed.

(** What [Itoa] prints, [Atoi] and the [flag] package read back. *)
Lemma ParseInt_Itoa base0 z : 0 <= z < 2 ^ 63 → ParseInt base0 (Itoa z) = (z, None).
Proof.
  intros Hz. unfold ParseInt, Itoa. rewrite (proj2 (Z.ltb_ge z 0)), string_bytes_of by lia.
  destruct (Utoa_head z) as (d & l & Hd & Heq & _); [lia|]. rewrite Heq, split_sign_digit by lia.
  rewrite <-Heq, ParseUint_Utoa by lia. by rewrite (proj2 (Z.leb_gt _ _)) by lia.
Qed.

Lemma Atoi_Itoa_neg z : - 2 ^ 63 <= z < 0 → Atoi (Itoa z) = (z, None).
Proof.
  intros Hz. unfold Atoi, ParseInt, Itoa. rewrite (proj2 (Z.ltb_lt z 0)), string_bytes_of by lia.
  cbn [split_sign]. rewrite ParseUint_Utoa by lia. rewrite (proj2 (Z.ltb_ge _ _)) by lia. f_equal. lia.
Qed.

(** ** Lemmas: hexadecimal *)

Lemma hex_decode_encode l : hex_DecodeString (hex_EncodeToString l) = Ok l.
Proof.
  unfold hex_DecodeString, hex_EncodeToString. rewrite string_bytes_of.
  induction l as [|b l IH]; [done|]. rewrite fmap_cons. cbn [List.concat app hex_decode].
  destruct b; cbn -[hex_decode]; rewrite IH; reflexivity.
Qed.

Lemma hex_encode_length l : List.length (string_bytes (hex_EncodeToString l)) = (2 * List.length l)%nat.
Proof.
  unfold hex_EncodeToString. rewrite string_bytes_of. induction l as [|b l IH]; [done|].
  rewrite fmap_cons. cbn [List.concat app List.length]. rewrite IH. lia.
Qed.

Definition is_hex (b : byte) : bool := is_digit b || ((97 <=? Zb b) && (Zb b <=? 102)).

Lemma hex_encode_digits l : Forall (λ b, is_hex b = true) (string_bytes (hex_EncodeToString l)).
Proof.
  unfold hex_EncodeToString. rewrite string_bytes_of. induction l as [|b l IH]; [constructor|].
  rewrite fmap_cons. cbn [List.concat app]. constructor; [|constructor; [|done]]; by destruct b.
Qed.

Lemma hex_decode_length l k : hex_decode l = Ok k → List.length l = (2 * List.length k)%nat.
Proof.
  revert k. induction l as [l IH] using (induction_ltof1 _ (@List.length byte)). unfold ltof in IH.
  intros k. destruct l as [|a [|b l]]; cbn [hex_decode]; [by intros [= <-]|by destruct (hex_value a)|].
  destruct (hex_value a) as [x|]; [|done]. destruct (hex_value b) as [y|]; [|done].
  destruct (hex_decode l) as [k'|e|p] eqn:E; [|done..]. intros [= <-].
  apply IH in E; [|simpl; lia]. simpl. lia.
Qed.

(** ** Lemmas: words of printable ASCII characters *)

Definition graphic (b : byte) : bool := (33 <=? Zb b) && (Zb b <=? 126).
Definition word (l : bytes) : Prop := l ≠ [] ∧ Forall (λ b, graphic b = true) l.
Definition ascii (b : byte) : bool := Zb b <? 128.

Lemma runes_of_ascii l : Forall (λ b, ascii b = true) l → runes_of l = (λ b, (Zb b, [b])) <$> l.
Proof.
  intros Hl. unfold runes_of. enough (∀ n, (List.length l ≤ n)%nat → runes_fuel n l = (λ b, (Zb b, [b])) <$> l) as H
    by (by apply H). induction Hl as [|b l Hb Hl IH]; intros [|n] Hn; simpl in Hn; try done; [lia|].
  unfold ascii in Hb. cbn [runes_fuel]. unfold decode_rune. rewrite Hb. cbn. rewrite drop_0. f_equal. apply IH. lia.
Qed.

Lemma graphic_ascii b : graphic b = true → ascii b = true.
Proof. unfold graphic, ascii. rewrite andb_true_iff, !Z.leb_le, Z.ltb_lt. lia. Qed.

Lemma graphic_not_space b : graphic b = true → IsSpace (Zb b) = false.
Proof. intros H. destruct b; (discriminate H || reflexivity). Qed.
#[local] Hint Resolve graphic_ascii : core.

Lemma fields_word w cs cur :
  Forall (λ b, graphic b = true) w →
  fields (((λ b, (Zb b, [b])) <$> w) ++ cs) cur = fields cs (cur ++ w).
Proof.
  intros Hw. revert cur. induction Hw as [|b w Hb Hw IH]; intros cur; [by rewrite app_nil_r|].
  cbn. rewrite graphic_not_space by done. rewrite IH. by rewrite <-app_assoc.
Qed.

Fixpoint unwords (ws : list bytes) : bytes :=
  match ws with
  | [] => []
  | [w] => w
  | w :: ws' => w ++ x20 :: unwords ws'
  end.

Lemma word_ascii w : word w → Forall (λ b, ascii b = true) w.
Proof. intros [_ H]. eapply Forall_impl; [exact H|]. auto. Qed.

Lemma unwords_ascii ws : Forall word ws → Forall (λ b, ascii b = true) (unwords ws).
Proof.
  induction 1 as [|w ws Hw Hws IH]; [constructor|]. apply word_ascii in Hw. destruct ws as [|w' ws]; [done|].
  change (unwords (w :: w' :: ws)) with (w ++ x20 :: unwords (w' :: ws)). apply Forall_app. split; [done|]. by constructor.
Qed.

Lemma Fields_unwords ws : Forall word ws → Fields (unwords ws) = ws.
Proof.
  intros Hws. unfold Fields. rewrite runes_of_ascii by by apply unwords_ascii.
  induction Hws as [|w ws [Hne Hw] Hws IH]; [done|]. destruct ws as [|w' ws].
  - cbn [unwords]. rewrite <-(app_nil_r (fmap _ w)), fields_word by done. cbn. by rewrite bool_decide_eq_false_2.
  - change (unwords (w :: w' :: ws)) with (w ++ x20 :: unwords (w' :: ws)).
    rewrite fmap_app, fields_word by done. rewrite fmap_cons. cbn -[unwords fields].
    change (fields ((32, [x20]) :: ((λ b, (Zb b, [b])) <$> unwords (w' :: ws))) w =  w :: w' :: ws).
    cbn [fields]. change (IsSpace 32) with true. cbn iota. by rewrite bool_decide_eq_false_2, IH.
Qed.

(** ** Lemmas: trimming *)

Lemma drop_while_all {A} (f : A → bool) l k :
  Forall (λ a, f a = true) l → drop_while f (l ++ k) = drop_while f k.
Proof. induction 1 as [|a l Ha Hl IH]; [done|]. cbn. by rewrite Ha. Qed.

(** What is left of a middle part that starts and ends with characters to
    keep. *)
Definition kept {A} (f : A → bool) (w : list A) : Prop :=
  ∃ a, f a = false ∧ head w = Some a ∧ ∃ b, f b = false ∧ last w = Some b.

Lemma trim_kept {A} (f : A → bool) s1 w s2 :
  Forall (λ a, f a = true) s1 → Forall (λ a, f a = true) s2 → kept f w → trim f (s1 ++ w ++ s2) = w.
Proof.
  intros H1 H2 (a & Ha & Hw & b & Hb & Hl). unfold trim. rewrite drop_while_all by done.
  destruct w as [|a' w]; [done|]. injection Hw as ->.
  assert (drop_while f ((a :: w) ++ s2) = (a :: w) ++ s2) as -> by (cbn; by rewrite Ha).
  rewrite reverse_app, drop_while_all by by apply Forall_reverse.
  destruct (reverse (a :: w)) as [|b' r] eqn:E.
  { apply (f_equal reverse) in E. rewrite reverse_involutive in E. done. }
  assert (b' = b) as ->.
  { rewrite <-(reverse_involutive (a :: w)), E, reverse_cons, last_snoc in Hl. by injection Hl. }
  cbn. rewrite Hb, <-E. apply reverse_involutive.
Qed.

Lemma kept_word {A} (f : A → bool) w : w ≠ [] → Forall (λ a, f a = false) w → kept f w.
Proof.
  intros Hne Hf. destruct w as [|a w]; [done|]. exists a.
  split; [by inversion Hf|]. split; [done|]. destruct (last (a :: w)) as [b|] eqn:E; [|by apply last_None in E].
  exists b. split; [|done]. rewrite last_lookup in E.
  apply list_elem_of_lookup_2 in E. by eapply (proj1 (Forall_forall _ _) Hf).
Qed.

Lemma kept_fmap {A B} (g : A → B) (f : B → bool) w : kept (λ a, f (g a)) w → kept f (g <$> w).
Proof.
  intros (a & Ha & Hh & b & Hb & Hl). exists (g a). split; [done|]. split.
  { destruct w; [done|]. by injection Hh as ->. }
  exists (g b). split; [done|]. by rewrite fmap_last, Hl.
Qed.

Definition is_space (b : byte) : bool := IsSpace (Zb b).

(** White space around a piece of ASCII text. *)
Lemma TrimSpace_kept s1 w s2 :
  Forall (λ b, ascii b = true) (s1 ++ w ++ s2) →
  Forall (λ b, is_space b = true) s1 → Forall (λ b, is_space b = true) s2 → kept is_space w →
  TrimSpace (s1 ++ w ++ s2) = w.
Proof.
  intros Ha H1 H2 Hw. unfold TrimSpace. rewrite runes_of_ascii, !fmap_app by done.
  rewrite trim_kept.
  - clear. induction w as [|b w IH]; [done|]. rewrite !fmap_cons. cbn. by f_equal.
  - by apply Forall_fmap.
  - by apply Forall_fmap.
  - apply (kept_fmap (λ b, (Zb b, [b]))). exact Hw.
Qed.

Lemma TrimSpace_line w s2 :
  Forall (λ b, ascii b = true) (w ++ s2) → Forall (λ b, is_space b = true) s2 → kept is_space w →
  TrimSpace (w ++ s2) = w.
Proof. intros Ha H2 Hw. by apply (TrimSpace_kept [] w s2). Qed.

Lemma word_kept w : word w → kept is_space w.
Proof.
  intros [Hne Hw]. apply kept_word; [done|]. eapply Forall_impl; [exact Hw|]. intros b. apply graphic_not_space.
Qed.

Lemma unwords_snoc_last w ws b : last w = Some b → last (unwords (ws ++ [w])) = Some b.
Proof.
  intros Hl. induction ws as [|v ws IH]; [done|].
  destruct (ws ++ [w]) as [|v' vs] eqn:E; [by destruct ws|].
  cbn [app]. rewrite E. change (unwords (v :: v' :: vs)) with (v ++ x20 :: unwords (v' :: vs)).
  rewrite last_app. change (x20 :: unwords (v' :: vs)) with ([x20] ++ unwords (v' :: vs)).
  by rewrite (last_app [x20]), IH.
Qed.

Lemma unwords_kept ws : ws ≠ [] → Forall word ws → kept is_space (unwords ws).
Proof.
  intros Hne Hws. destruct ws as [|w ws]; [done|]. inversion Hws as [|? ? Hw _]; subst.
  destruct (word_kept _ Hw) as (a & Ha & Hh & _). exists a. split; [done|]. split.
  { destruct w; [done|]. injection Hh as ->. by destruct ws. }
  destruct (exists_last (l := w :: ws)) as (vs & v & Heq); [done|]. rewrite Heq in Hws |- *.
  apply Forall_app in Hws as [_ Hv]. inversion Hv as [|? ? Hv' _]; subst.
  destruct (word_kept _ Hv') as (_ & _ & _ & b & Hb & Hl). exists b. split; [done|].
  by apply unwords_snoc_last.
Qed.

Lemma digits_word l : l ≠ [] → Forall (λ b, is_digit b = true) l → word l.
Proof.
  intros Hne Hl. split; [done|]. eapply Forall_impl; [exact Hl|]. intros b Hb.
  destruct b; (discriminate Hb || reflexivity).
Qed.

Lemma Utoa_word n : 0 <= n → word (Utoa n).
Proof.
  intros Hn. apply digits_word; [|apply digits_are; constructor].
  destruct (Utoa_head n Hn) as (d & l & _ & -> & _). done.
Qed.

Lemma digits_length f n acc : (List.length (digits f n acc) ≤ f + List.length acc)%nat.
Proof.
  revert n acc. induction f as [|f IH]; intros n acc; cbn [digits]; [lia|].
  destruct (n <? 10); [simpl; lia|]. etrans; [apply IH|]. simpl. lia.
Qed.

Lemma Utoa_length n : 0 <= n < 2 ^ 63 → len (Utoa n) <= 64.
Proof.
  intros Hn. unfold len, Utoa. pose proof (digits_length (S (Z.to_nat (Z.log2 n))) n []) as H. rewrite length_nil in H.
  pose proof (Z.log2_nonneg n). enough (Z.log2 n < 63) by lia.
  destruct (Z.eq_dec n 0) as [->|]; [done|]. apply Z.log2_lt_pow2; lia.
Qed.

(** ** Lemmas: lines *)

Lemma index_byte_app l b k : b ∉ l → index_byte (l ++ b :: k) b = Some (List.length l).
Proof.
  induction l as [|a l IH]; intros Hn; cbn [app index_byte].
  - by rewrite bool_decide_eq_true_2.
  - rewrite not_elem_of_cons in Hn. destruct Hn as [Ha Hl].
    rewrite bool_decide_eq_false_2 by congruence. by rewrite IH.
Qed.

Lemma index_byte_None l b : index_byte l b = None → b ∉ l.
Proof.
  induction l as [|a l IH]; cbn [index_byte]; [by intros _ ?%not_elem_of_nil|].
  case_bool_decide; [done|]. destruct (index_byte l b); [done|]. intros _ [->|Hin]%elem_of_cons; [done|by apply IH].
Qed.

Lemma ReadString_line l b k fin : b ∉ l → ReadString b (Reader (l ++ b :: k) fin) = Some (Ok (l ++ [b]), Reader k fin).
Proof.
  intros Hn. unfold ReadString. cbn [rd_in rd_fin]. rewrite index_byte_app by done.
  replace (l ++ b :: k) with ((l ++ [b]) ++ k) by by rewrite <-app_assoc.
  rewrite take_app_length', drop_app_length' by (rewrite length_app; simpl; lia). done.
Qed.

Lemma Scan_line l k fin :
  newline ∉ l → x0d ∉ l → len l < MaxScanTokenSize → Scan (Reader (l ++ newline :: k) fin) = Some (Ok (Some l)).
Proof.
  intros Hn Hr Hl. unfold Scan. cbn [rd_in].
  assert (List.length l < Z.to_nat MaxScanTokenSize)%nat as Hlt.
  { apply Nat2Z.inj_lt. rewrite Z2Nat.id; [exact Hl|discriminate]. }
  revert Hlt. generalize (Z.to_nat MaxScanTokenSize). intros n Hlt.
  replace (take n (l ++ newline :: k)) with (l ++ newline :: take (n - S (List.length l)) k).
  2:{ rewrite take_app_ge by lia. f_equal. destruct (n - List.length l)%nat eqn:E; [lia|].
      cbn [firstn]. do 2 f_equal. lia. }
  rewrite index_byte_app, take_app_length by done. do 3 f_equal. unfold dropCR.
  destruct (reverse l) as [|b r] eqn:E; [done|]. destruct b; try done. exfalso. apply Hr.
  rewrite <-(reverse_involutive l), E, reverse_cons. apply elem_of_app. right. by left.
Qed.

Lemma Scan_no_panic r p : Scan r ≠ Some (Panicked p).
Proof. unfold Scan. repeat case_match; congruence. Qed.

(** ** Tests *)

Example test_fields : Fields (string_bytes "  goet 0.4.0	(abc1234) ") = [string_bytes "goet"; string_bytes "0.4.0"; string_bytes "(abc1234)"].
Proof. vm_compute. reflexivity. Qed.
Example test_trimspace : TrimSpace (byteZ 194 :: byteZ 160 :: string_bytes " a b  " ++ [newline]) = string_bytes "a b".
Proof. vm_compute. reflexivity. Qed.
Example test_atoi : (Atoi "-42", Atoi "+7", Atoi "9223372036854775808", Atoi "1_000", Atoi "0x10", Atoi "") =
  ((-42, None), (7, None), (2^63-1, Some ErrRange), (0, Some ErrSyntax), (0, Some ErrSyntax), (0, Some ErrSyntax)).
Proof. vm_compute. reflexivity. Qed.
Example test_parseint0 : (ParseInt true "0x1_F", ParseInt true "0", ParseInt true "010", ParseInt true "1__0", ParseInt true "0b101", ParseInt true "0x") =
  ((31, None), (0, None), (8, None), (0, Some ErrSyntax), (5, None), (0, Some ErrSyntax)).
Proof. vm_compute. reflexivity. Qed.
Example test_itoa : (Itoa 0, Itoa 65535, Itoa (-120), Itoa (-2^63)) = ("0", "65535", "-120", "-9223372036854775808")%string.
Proof. vm_compute. reflexivity. Qed.
Example test_hex : (hex_EncodeToString [byteZ 10; byteZ 255], hex_DecodeString "0aFf", hex_DecodeString "abc", hex_DecodeString "zz") =
  ("0aff"%string, Ok [byteZ 10; byteZ 255], Err ErrLength, Err InvalidByteError).
Proof. vm_compute. reflexivity. Qed.
End gostrings.
