(* ===== verification/Protocol.v ===== *)
(** * The wire protocol ([internal/protocol])

    Message types, their framing ([WriteMessage], [ReadMessage]) and the
    payload decoder ([DecodePayload]).  Messages are framed by a five-byte
    header: the payload length, big-endian, and the message type.  The proofs
    are about the framing round trip, the exact set of inputs that panic, and
    what a failing writer leaves on the wire. *)

From S2P Require Import Prelude GoIO.

(** ** Constants ([constants.go]) *)

Definition Version : Z := 1.
Definition HeaderSize : Z := 5.
Definition MaxPayloadSize : Z := 4 * 1024 * 1024.

Abbreviation MessageType := byte.
Definition MsgAuthRequest : MessageType := x01.
Definition MsgAuthResponse : MessageType := x02.
Definition MsgSequenceHdr : MessageType := x03.
Definition MsgHeartbeat : MessageType := x10.
Definition MsgResize : MessageType := x11.
Definition MsgShutdown : MessageType := x12.
Definition MsgTerminalInfo : MessageType := x13.
Definition MsgData : MessageType := x20.

Abbreviation AuthStatus := byte.
Definition AuthOK : AuthStatus := x00.
Definition AuthFailed : AuthStatus := x01.
Definition AuthSessionNotFound : AuthStatus := x02.

Definition AuthRequestSize : Z := 32.
Definition AuthResponseSize : Z := 1.
Definition SequenceHdrSize : Z := 8.
Definition HeartbeatSize : Z := 8.
Definition ResizeSize : Z := 4.
Definition ShutdownSize : Z := 0.
Definition DataHeaderSize : Z := 8.

(** ** Messages and errors ([messages.go]) *)

Definition ErrPayloadTooLarge : error := ErrNew "payload exceeds maximum size".
Definition ErrUnknownMessage : error := ErrNew "unknown message type".
Definition ErrShortPayload : error := ErrNew "payload too short for message type".

(** The message structs, in the order of the source. *)
Inductive message : Type :=
| AuthRequest (Token : bytes)
| AuthResponse (Status : AuthStatus)
| SequenceHeader (LastReceivedSeq : Z)
| Heartbeat (TimestampMs : Z)
| Resize (Rows Cols : Z)
| Shutdown
| TerminalInfo (Term : string)
| Data (Seq : Z) (Payload : bytes).

#[export] Instance message_eq_dec : EqDecision message.
Proof. solve_decision. Defined.

(** The dynamic type of a [msg any]: a pointer to a message struct, or some
    other type [T]. *)
Inductive any : Type :=
| Ptr (m : message)
| OtherType (T : string).

(** ** Encoding *)

(** The switch of [WriteMessage] for every message but [Data]. *)
Definition encodePayload (msg : any) : res (MessageType * bytes) :=
  match msg with
  | Ptr (AuthRequest tok) => Ok (MsgAuthRequest, tok)
  | Ptr (AuthResponse st) => Ok (MsgAuthResponse, [st])
  | Ptr (SequenceHeader s) => Ok (MsgSequenceHdr, be_put 8 s)
  | Ptr (Heartbeat ts) => Ok (MsgHeartbeat, be_put 8 (uint64 ts))
  | Ptr (Resize rows cols) => Ok (MsgResize, be_put 2 rows ++ be_put 2 cols)
  | Ptr Shutdown => Ok (MsgShutdown, [])
  | Ptr (TerminalInfo term) =>
    let termBytes := string_bytes term in
    if 65535 <? len termBytes
    then Err (ErrNew "terminal info term too long: %d bytes (max 65535)")
    else Ok (MsgTerminalInfo, be_put 2 (uint16 (len termBytes)) ++ termBytes)
  | Ptr (Data _ _) | OtherType _ => Err (ErrNew "unsupported message type: %T")
  end.

Definition writeDataMessage (seq : Z) (payload : bytes) : io writer () :=
  let payloadLen := DataHeaderSize + len payload in
  if MaxPayloadSize <? payloadLen then io_lift (Err ErrPayloadTooLarge) else
  let hdr := be_put 4 (uint32 payloadLen) ++ [MsgData] ++ be_put 8 seq in
  io_bind (Write hdr) (λ _,
  if 0 <? len payload then Write payload else io_ret ()).

Definition WriteMessage (msg : any) : io writer () :=
  match msg with
  | Ptr (Data seq payload) => writeDataMessage seq payload
  | _ =>
    io_bind (io_lift (encodePayload msg)) (λ '(msgType, payload),
    if MaxPayloadSize <? len payload then io_lift (Err ErrPayloadTooLarge) else
    let header := be_put 4 (uint32 (len payload)) ++ [msgType] in
    io_bind (Write header) (λ _,
    if 0 <? len payload then Write payload else io_ret ()))
  end.

(** ** Decoding *)

(** [DecodePayload]; note the type of [2 + termLen], which is that of
    [termLen], a [uint16]: the sum wraps around. *)
Definition DecodePayload (msgType : MessageType) (payload : bytes) : res message :=
  if bool_decide (msgType = MsgAuthRequest) then
    if len payload <? AuthRequestSize then Err ErrShortPayload else
    tok ← go_slice payload 0 32; Ok (AuthRequest tok)
  else if bool_decide (msgType = MsgAuthResponse) then
    if len payload <? AuthResponseSize then Err ErrShortPayload else
    st ← go_index payload 0; Ok (AuthResponse st)
  else if bool_decide (msgType = MsgSequenceHdr) then
    if len payload <? SequenceHdrSize then Err ErrShortPayload else
    s ← go_slice payload 0 8; Ok (SequenceHeader (be_get s))
  else if bool_decide (msgType = MsgHeartbeat) then
    if len payload <? HeartbeatSize then Err ErrShortPayload else
    s ← go_slice payload 0 8; Ok (Heartbeat (int64 (be_get s)))
  else if bool_decide (msgType = MsgResize) then
    if len payload <? ResizeSize then Err ErrShortPayload else
    rows ← go_slice payload 0 2;
    cols ← go_slice payload 2 4;
    Ok (Resize (be_get rows) (be_get cols))
  else if bool_decide (msgType = MsgShutdown) then Ok Shutdown
  else if bool_decide (msgType = MsgTerminalInfo) then
    if len payload <? 2 then Err ErrShortPayload else
    l ← go_slice payload 0 2;
    let termLen := be_get l in
    if len payload <? 2 + termLen then Err ErrShortPayload else
    term ← go_slice payload 2 (uint16 (2 + termLen));
    Ok (TerminalInfo (bytes_string term))
  else if bool_decide (msgType = MsgData) then
    if len payload <? DataHeaderSize then Err ErrShortPayload else
    s ← go_slice payload 0 8;
    rest ← go_slice payload 8 (len payload);
    Ok (Data (be_get s) rest)
  else Err (ErrWrap "%w: 0x%02x" ErrUnknownMessage).

Definition ReadMessage : io reader message :=
  io_bind (ReadFull HeaderSize) (λ header,
  io_bind (io_lift (go_slice header 0 4)) (λ l,
  io_bind (io_lift (go_index header 4)) (λ msgType,
  let payloadLen := be_get l in
  if MaxPayloadSize <? payloadLen then io_lift (Err ErrPayloadTooLarge) else
  io_bind (if 0 <? payloadLen then ReadFull payloadLen else io_ret []) (λ payload,
  io_lift (DecodePayload msgType payload))))).

(** Reading messages until the reader stops delivering them: the messages and
    what the read after them returned ([None]: it blocks). *)
Fixpoint ReadMessages (fuel : nat) (r : reader) : list message * option (res message * reader) :=
  match fuel with
  | O => ([], None)
  | S f =>
    match ReadMessage r with
    | Some (Ok m, r') => let '(ms, e) := ReadMessages f r' in (m :: ms, e)
    | e => ([], e)
    end
  end.

(** ** The wire format, as a specification *)

Definition type_of (m : message) : MessageType :=
  match m with
  | AuthRequest _ => x01 | AuthResponse _ => x02 | SequenceHeader _ => x03
  | Heartbeat _ => x10 | Resize _ _ => x11 | Shutdown => x12
  | TerminalInfo _ => x13 | Data _ _ => x20
  end.

Definition payload_of (m : message) : bytes :=
  match m with
  | AuthRequest tok => tok
  | AuthResponse st => [st]
  | SequenceHeader s => be_put 8 s
  | Heartbeat ts => be_put 8 (uint64 ts)
  | Resize rows cols => be_put 2 rows ++ be_put 2 cols
  | Shutdown => []
  | TerminalInfo t => be_put 2 (len (string_bytes t)) ++ string_bytes t
  | Data s p => be_put 8 s ++ p
  end.

Definition frame_bytes (t : MessageType) (payload : bytes) : bytes :=
  be_put 4 (len payload) ++ t :: payload.

Definition frame (m : message) : bytes := frame_bytes (type_of m) (payload_of m).

(** The values of the Go types: every message a program can hold. *)
Definition msg_wf (m : message) : Prop :=
  match m with
  | AuthRequest tok => len tok = 32
  | SequenceHeader s => is_uint 64 s
  | Heartbeat ts => is_int64 ts
  | Resize rows cols => is_uint 16 rows ∧ is_uint 16 cols
  | Data s _ => is_uint 64 s
  | _ => True
  end.

(** The messages [WriteMessage] agrees to write, and those whose frame is
    also decoded back. *)
Definition sendable (m : message) : bool :=
  match m with
  | TerminalInfo t => len (string_bytes t) <=? 65535
  | Data _ p => 8 + len p <=? MaxPayloadSize
  | _ => true
  end.

Definition readable (m : message) : bool :=
  match m with
  | TerminalInfo t => len (string_bytes t) <=? 65533
  | Data _ p => 8 + len p <=? MaxPayloadSize
  | _ => true
  end.

(** ** Lemmas *)

Lemma bytes_string_bytes s : bytes_string (string_bytes s) = s.
Proof. apply String.string_of_list_byte_of_string. Qed.

Lemma string_bytes_string l : string_bytes (bytes_string l) = l.
Proof. apply String.list_byte_of_string_of_list_byte. Qed.

#[export] Hint Rewrite bytes_string_bytes string_bytes_string : goet.

Lemma payload_of_len m :
  msg_wf m → sendable m = true → len (payload_of m) <= MaxPayloadSize.
Proof.
  unfold MaxPayloadSize. destruct m; simpl; intros Hwf Hs; autorewrite with goet;
    try apply Z.leb_le in Hs; unfold MaxPayloadSize in *; simpl in *; lia.
Qed.

Lemma readable_sendable m : readable m = true → sendable m = true.
Proof. destruct m; simpl; rewrite ?Z.leb_le; lia. Qed.

Definition is_data (m : message) : bool := match m with Data _ _ => true | _ => false end.

Lemma encodePayload_ok m :
  sendable m = true → is_data m = false →
  encodePayload (Ptr m) = Ok (type_of m, payload_of m).
Proof.
  destruct m; simpl; intros Hs Hd; try done.
  apply Z.leb_le in Hs. rewrite (proj2 (Z.ltb_ge _ _)) by lia.
  unfold uint16. rewrite Z.mod_small; [done|]. pose proof (len_nonneg (string_bytes Term)). lia.
Qed.

(** The two writes of a frame, header first. *)
Lemma write_frame hdr payload w r w' :
  io_bind (Write hdr) (λ _, if 0 <? len payload then Write payload else io_ret ()) w
    = Some (r, w') →
  (r = Ok () ∧ w' = advance w (hdr ++ payload) ∧ accepts w (len (hdr ++ payload))) ∨
  (∃ e q, r = Err e ∧ wr_fin w = Some e ∧ wr_out w' = wr_out w ++ q ∧
          q `prefix_of` hdr ++ payload ∧ ¬ accepts w (len (hdr ++ payload)) ∧ wr_room w' = Some 0 ∧
          (hdr ≠ [] → len q < len (hdr ++ payload)) ∧
          (∀ k, wr_room w = Some k → len q <= Z.max 0 k)).
Proof.
  pose proof (len_nonneg payload) as Hp0.
  unfold io_bind. destruct (Write hdr w) as [[r1 w1]|] eqn:E1; [|done].
  apply Write_cases in E1 as [(-> & -> & Hw)|(e & q & -> & Hw & Hf & Hq & Ho & Hro & Hlt & Hk)].
  - destruct (Z.ltb_spec 0 (len payload)) as [Hp|Hp].
    + intros E2. apply Write_cases in E2 as [(-> & -> & Hw2)|(e & q & -> & Hw2 & Hf & Hq & Ho & Hro & Hlt & Hk)].
      * left. rewrite advance_app, len_app. by auto using advance_accepts.
      * right. exists e, (hdr ++ q). split_and!; try done.
        -- by rewrite Ho, app_assoc.
        -- by apply prefix_app.
        -- intros Ha. apply Hw2. apply accepts_advance. by rewrite <-len_app.
        -- intros _. rewrite !len_app. pose proof (Hlt ltac:(intros ->; by destruct (Z.lt_irrefl 0))). lia.
        -- intros k Hwk. unfold accepts in Hw. rewrite Hwk in Hw.
           specialize (Hk (k - len hdr)). simpl in Hk. rewrite Hwk in Hk. specialize (Hk eq_refl).
           rewrite len_app. lia.
    + intros [= <- <-]. left. assert (payload = []) as -> by (apply len_zero; lia).
      by rewrite app_nil_r.
  - intros [= <- <-]. right. exists e, q. split_and!; try done.
    + by apply prefix_app_r.
    + intros Ha. apply Hw. eapply accepts_le; [exact Ha|]. rewrite len_app. lia.
    + intros Hh%Hlt. rewrite len_app. lia.
Qed.

Lemma write_frame_ok hdr payload w :
  accepts w (len (hdr ++ payload)) →
  io_bind (Write hdr) (λ _, if 0 <? len payload then Write payload else io_ret ()) w
    = Some (Ok (), advance w (hdr ++ payload)).
Proof.
  intros Ha. pose proof (len_nonneg payload). rewrite len_app in Ha.
  rewrite (io_bind_ok _ _ _ () (advance w hdr)) by eauto with goet lia.
  destruct (Z.ltb_spec 0 (len payload)).
  - rewrite Write_ok by eauto with goet. by rewrite advance_app.
  - assert (payload = []) as -> by (apply len_zero; lia). by rewrite app_nil_r.
Qed.

(** What [WriteMessage] does, reduced to one sequence of two writes. *)
Lemma WriteMessage_frame m w :
  msg_wf m → sendable m = true →
  ∃ hdr payload, frame m = hdr ++ payload ∧ hdr ≠ [] ∧
    WriteMessage (Ptr m) w =
    io_bind (Write hdr) (λ _, if 0 <? len payload then Write payload else io_ret ()) w.
Proof.
  intros Hwf Hs. pose proof (payload_of_len m Hwf Hs) as Hl.
  assert (uint32 (len (payload_of m)) = len (payload_of m)) as Hu.
  { apply Z.mod_small. pose proof (len_nonneg (payload_of m)). unfold MaxPayloadSize in Hl. lia. }
  destruct (is_data m) eqn:Hd.
  - destruct m as [| | | | | | |s p]; try done. exists (be_put 4 (8 + len p) ++ [x20] ++ be_put 8 s), p.
    cbn [payload_of] in Hl, Hu. rewrite len_app, len_be_put in Hl, Hu.
    split; [unfold frame, frame_bytes; cbn [payload_of type_of];
      rewrite len_app, len_be_put, <-!app_assoc; done|split; [done|]].
    simpl WriteMessage. unfold writeDataMessage.
    change (DataHeaderSize + len p) with (Z.of_nat 8 + len p). rewrite Hu.
    by rewrite (proj2 (Z.ltb_ge _ _)) by lia.
  - exists (be_put 4 (len (payload_of m)) ++ [type_of m]), (payload_of m).
    split; [unfold frame, frame_bytes; by rewrite <-app_assoc|split; [done|]].
    transitivity (io_bind (io_lift (encodePayload (Ptr m))) (λ '(msgType, payload),
      if MaxPayloadSize <? len payload then io_lift (Err ErrPayloadTooLarge) else
      let header := be_put 4 (uint32 (len payload)) ++ [msgType] in
      io_bind (Write header) (λ _,
      if 0 <? len payload then Write payload else io_ret ())) w); [by destruct m|].
    rewrite encodePayload_ok, io_bind_lift, Hu by done.
    by rewrite (proj2 (Z.ltb_ge _ _)) by lia.
Qed.

Lemma WriteMessage_unsendable msg w :
  match msg with Ptr m => sendable m = false | OtherType _ => True end →
  ∃ e, WriteMessage msg w = Some (Err e, w).
Proof.
  destruct msg as [m|T]; [|by eexists].
  destruct m; simpl; try done; intros Hs; apply Z.leb_gt in Hs.
  - rewrite (proj2 (Z.ltb_lt _ _)) by lia. by eexists.
  - unfold writeDataMessage, DataHeaderSize. rewrite (proj2 (Z.ltb_lt _ _)) by lia. by eexists.
Qed.

(** Every outcome of [WriteMessage]. *)
Lemma WriteMessage_cases m w r w' :
  msg_wf m → WriteMessage (Ptr m) w = Some (r, w') →
  (r = Ok () ∧ sendable m = true ∧ w' = advance w (frame m) ∧ accepts w (len (frame m))) ∨
  (∃ e, r = Err e ∧ sendable m = false ∧ w' = w) ∨
  (∃ e q, r = Err e ∧ wr_fin w = Some e ∧ sendable m = true ∧ wr_out w' = wr_out w ++ q ∧
          q `prefix_of` frame m ∧ ¬ accepts w (len (frame m)) ∧ wr_room w' = Some 0 ∧
          len q < len (frame m) ∧ (∀ k, wr_room w = Some k → len q <= Z.max 0 k)).
Proof.
  intros Hwf Hw. destruct (sendable m) eqn:Hs.
  - destruct (WriteMessage_frame m w Hwf Hs) as (h & p & Hf & Hne & Heq). rewrite Heq in Hw. rewrite Hf.
    apply write_frame in Hw as [(-> & -> & Ha)|(e & q & -> & He & Ho & Hq & Ha & Hro & Hlt & Hk)].
    + by left.
    + right; right. exists e, q. split_and!; auto.
  - destruct (WriteMessage_unsendable (Ptr m) w Hs) as [e He]. right; left. exists e. naive_solver.
Qed.

Lemma WriteMessage_ok m w :
  msg_wf m → sendable m = true → accepts w (len (frame m)) →
  WriteMessage (Ptr m) w = Some (Ok (), advance w (frame m)).
Proof.
  intros Hwf Hs Ha. destruct (WriteMessage_frame m w Hwf Hs) as (h & p & Hf & _ & ->).
  rewrite Hf in *. by apply write_frame_ok.
Qed.

Lemma frame_bytes_app t p :
  frame_bytes t p = (be_put 4 (len p) ++ [t]) ++ p.
Proof. unfold frame_bytes. by rewrite <-app_assoc. Qed.

(** Reading a whole frame leaves the reader after it. *)
Lemma ReadMessage_frame t p rest fin :
  len p <= MaxPayloadSize →
  ReadMessage (Reader (frame_bytes t p ++ rest) fin) = Some (DecodePayload t p, Reader rest fin).
Proof.
  intros Hp. pose proof (len_nonneg p) as Hp0. unfold MaxPayloadSize in Hp.
  assert (be_get (be_put 4 (len p)) = len p) as Hg
    by (apply be_get_put_fits; unfold is_uint; lia).
  rewrite frame_bytes_app, <-app_assoc. unfold ReadMessage.
  erewrite io_bind_ok by (apply ReadFull_app; by rewrite len_app, len_be_put).
  rewrite (go_slice_prefix (be_put 4 (len p)) [t]) by (by rewrite len_be_put).
  rewrite io_bind_lift, (go_index_ok _ _ t), io_bind_lift, Hg; [|lia|].
  2:{ rewrite lookup_app_r; rewrite be_put_length; done. }
  unfold MaxPayloadSize. rewrite (proj2 (Z.ltb_ge _ _)) by lia.
  destruct (Z.ltb_spec 0 (len p)).
  - by erewrite io_bind_ok by (by apply ReadFull_app).
  - assert (p = []) as -> by (apply len_zero; lia). done.
Qed.

(** ** Lemmas on the decoder *)

Ltac decode_case :=
  repeat match goal with
  | |- context [bool_decide (?a = ?b)] => rewrite (bool_decide_eq_true_2 (a = b)) by done
  | |- context [bool_decide (?a = ?b)] => rewrite (bool_decide_eq_false_2 (a = b)) by done
  end.

Lemma DecodePayload_roundtrip m :
  msg_wf m → readable m = true → DecodePayload (type_of m) (payload_of m) = Ok m.
Proof.
  intros Hwf Hr. unfold DecodePayload, is_uint in *.
  destruct m as [tok|st|s|ts|rows cols| |t|s p]; cbn [type_of payload_of msg_wf readable] in *; decode_case.
  - rewrite (proj2 (Z.ltb_ge _ _)) by (unfold AuthRequestSize; lia).
    rewrite <-(app_nil_r tok) at 1. by rewrite go_slice_prefix by lia.
  - done.
  - rewrite len_be_put, (proj2 (Z.ltb_ge _ _)) by (unfold SequenceHdrSize; lia).
    rewrite <-(app_nil_r (be_put 8 s)), go_slice_prefix by (by rewrite len_be_put).
    cbn [mbind res_bind]. by rewrite be_get_put_fits by done.
  - rewrite len_be_put, (proj2 (Z.ltb_ge _ _)) by (unfold HeartbeatSize; lia).
    rewrite <-(app_nil_r (be_put 8 _)), go_slice_prefix by (by rewrite len_be_put).
    cbn [mbind res_bind]. rewrite be_get_put_fits by apply uint64_range. by rewrite int64_uint64.
  - destruct Hwf. rewrite len_app, !len_be_put, (proj2 (Z.ltb_ge _ _)) by (unfold ResizeSize; lia).
    rewrite (go_slice_prefix (be_put 2 rows)) by (by rewrite len_be_put).
    rewrite (go_slice_suffix (be_put 2 rows) (be_put 2 cols)) by (by rewrite ?len_be_put).
    cbn [mbind res_bind]. by rewrite !be_get_put_fits by done.
  - done.
  - apply Z.leb_le in Hr. pose proof (len_nonneg (string_bytes t)).
    rewrite len_app, len_be_put.
    rewrite (proj2 (Z.ltb_ge _ _)) by lia.
    rewrite (go_slice_prefix (be_put 2 _)) by (by rewrite len_be_put).
    cbn [mbind res_bind]. rewrite be_get_put_fits by (unfold is_uint; simpl; lia).
    rewrite Z.ltb_irrefl.
    rewrite go_slice_suffix by (rewrite ?len_be_put; unfold uint16; try rewrite Z.mod_small; lia).
    cbn. by rewrite bytes_string_bytes.
  - rewrite len_app, len_be_put. pose proof (len_nonneg p).
    rewrite (proj2 (Z.ltb_ge _ _)) by (unfold DataHeaderSize; lia).
    rewrite (go_slice_prefix (be_put 8 s)), (go_slice_suffix (be_put 8 s) p)
      by (by rewrite ?len_be_put).
    cbn [mbind res_bind]. by rewrite be_get_put_fits by done.
Qed.

(** [DecodePayload] by the type byte: the branch it takes. *)
Lemma DecodePayload_terminal_info p :
  DecodePayload MsgTerminalInfo p =
    if len p <? 2 then Err ErrShortPayload else
    l ← go_slice p 0 2;
    if len p <? 2 + be_get l then Err ErrShortPayload else
    term ← go_slice p 2 (uint16 (2 + be_get l));
    Ok (TerminalInfo (bytes_string term)).
Proof. unfold DecodePayload. by decode_case. Qed.

(** Every slice expression of the other branches is in bounds. *)
Lemma DecodePayload_panics_only_terminal_info t p :
  panics (DecodePayload t p) = true → t = MsgTerminalInfo.
Proof.
  assert (∀ n (r : res message), panics (if len p <? n then Err ErrShortPayload else r) = true →
    n <= len p ∧ panics r = true) as Hshort.
  { intros n r. destruct (Z.ltb_spec (len p) n); [discriminate|]. by split; [lia|]. }
  unfold DecodePayload, AuthRequestSize, AuthResponseSize, SequenceHdrSize, HeartbeatSize,
    ResizeSize, DataHeaderSize.
  repeat (case_bool_decide; [subst t|]); try discriminate; try (intros _; reflexivity);
    intros [Hl Hp]%Hshort; revert Hp.
  - rewrite go_slice_head by lia. discriminate.
  - destruct (go_index_total p 0) as (b & -> & _); [lia|]. discriminate.
  - rewrite go_slice_head by lia. discriminate.
  - rewrite go_slice_head by lia. discriminate.
  - rewrite go_slice_head, go_slice_ok by lia. discriminate.
  - rewrite go_slice_head, go_slice_ok by lia. discriminate.
Qed.

(** The exact set of payloads that panic the decoder. *)
Definition panics_on (t : MessageType) (p : bytes) : bool :=
  bool_decide (t = MsgTerminalInfo) &&
  (65534 <=? be_get (take 2 p)) && (2 + be_get (take 2 p) <=? len p).

Lemma DecodePayload_panics_iff t p : panics (DecodePayload t p) = panics_on t p.
Proof.
  destruct (decide (t = MsgTerminalInfo)) as [->|Hne].
  2:{ unfold panics_on. rewrite bool_decide_eq_false_2 by done. simpl.
      destruct (panics _) eqn:E; [|done].
      by destruct Hne; eapply DecodePayload_panics_only_terminal_info. }
  unfold panics_on. rewrite bool_decide_eq_true_2, DecodePayload_terminal_info by done.
  pose proof (be_get_range (take 2 p)) as Hr. rewrite len_take in Hr.
  destruct (Z.ltb_spec (len p) 2) as [H2|H2].
  { cbn [panics andb]. symmetry. apply andb_false_iff. right. apply Z.leb_gt. lia. }
  rewrite Z.min_l in Hr by lia. simpl (8 * _) in Hr.
  rewrite go_slice_head by lia. cbn [mbind res_bind]. change (Z.to_nat 2) with 2%nat.
  set (k := be_get (take 2 p)) in *.
  destruct (Z.ltb_spec (len p) (2 + k)) as [Hl|Hl].
  { cbn [panics andb]. symmetry. apply andb_false_iff. right. apply Z.leb_gt. lia. }
  rewrite (proj2 (Z.leb_le (2 + k) _)), andb_true_r by lia. cbn [andb].
  destruct (Z.leb_spec 65534 k) as [Hk|Hk].
  - rewrite go_slice_inverted; [done|]. unfold uint16.
    rewrite <-(Z.mod_unique (2 + k) (2 ^ 16) 1 (2 + k - 2 ^ 16)) by lia. lia.
  - unfold uint16. rewrite Z.mod_small, go_slice_ok by lia. done.
Qed.

(** A decoded message holds values of the Go types, and re-encodes to a
    prefix of the payload it came from. *)
Definition decoded_from (p : bytes) (t : MessageType) (m : message) : Prop :=
  t = type_of m ∧ msg_wf m ∧ payload_of m `prefix_of` p ∧
  (len p <= MaxPayloadSize → readable m = true).

Lemma go_slice_prefix_of {A} (l k : list A) n : go_slice l 0 n = Ok k → k `prefix_of` l.
Proof.
  unfold go_slice. destruct (_ && _); [|done]. intros [= <-]. rewrite drop_0. apply prefix_take.
Qed.

Lemma go_slice_two {A} (l a b : list A) n hi :
  go_slice l 0 n = Ok a → go_slice l n hi = Ok b → a ++ b `prefix_of` l.
Proof.
  unfold go_slice. destruct (_ && _) eqn:E1 in |- *; [|done]. destruct (_ && _) eqn:E2 in |- *; [|done].
  intros [= <-] [= <-]. rewrite drop_0, Z.sub_0_r, take_take_drop. apply prefix_take.
Qed.

Lemma be_put_get_len n l : len l = Z.of_nat n → be_put n (be_get l) = l.
Proof. intros H. replace n with (List.length l) by (unfold len in H; lia). apply be_put_get. Qed.

Lemma be_get_uint n l : len l = n → is_uint (8 * n) (be_get l).
Proof. intros <-. apply be_get_range. Qed.

Lemma uint64_int64 z : is_uint 64 z → uint64 (int64 z) = z.
Proof.
  unfold is_uint, uint64, int64. intros H. destruct (Z.ltb_spec z (2 ^ 63)).
  - rewrite (Z.mod_small (z + 2 ^ 63)) by lia. rewrite Z.mod_small; lia.
  - rewrite <-(Z.mod_unique (z + 2 ^ 63) (2 ^ 64) 1 (z - 2 ^ 63)) by lia.
    symmetry. apply Z.mod_unique with (q := -1); lia.
Qed.

Lemma DecodePayload_fixed8 p s :
  go_slice p 0 8 = Ok s → be_put 8 (be_get s) = s ∧ is_uint 64 (be_get s) ∧ s `prefix_of` p.
Proof.
  intros Hs. pose proof (go_slice_length _ _ _ _ Hs) as Hl. split_and!.
  - apply be_put_get_len. lia.
  - by apply (be_get_uint 8).
  - by eapply go_slice_prefix_of.
Qed.

Lemma res_bind_inv {A B} (r : res A) (k : A → res B) b :
  (r ≫= k) = Ok b → ∃ a, r = Ok a ∧ k a = Ok b.
Proof. destruct r; naive_solver. Qed.

Lemma DecodePayload_sound t p m : DecodePayload t p = Ok m → decoded_from p t m.
Proof.
  assert (∀ n (r : res message), (if len p <? n then Err ErrShortPayload else r) = Ok m → r = Ok m)
    as Hshort. { intros n r. by destruct (len p <? n). }
  unfold DecodePayload, decoded_from.
  repeat (case_bool_decide; [subst t|]); try done.
  - intros (tok & Ht & [= <-])%Hshort%res_bind_inv. split_and!; try done.
    + by apply go_slice_length in Ht.
    + by eapply go_slice_prefix_of.
  - intros (st & Ht & [= <-])%Hshort%res_bind_inv. split_and!; try done.
    destruct p; [done|]. injection Ht as ->. apply prefix_cons, prefix_nil.
  - intros (s & (Hp & Hr & Hx)%DecodePayload_fixed8 & [= <-])%Hshort%res_bind_inv.
    cbn [payload_of msg_wf]. by rewrite Hp.
  - intros (s & (Hp & Hr & Hx)%DecodePayload_fixed8 & [= <-])%Hshort%res_bind_inv.
    cbn [payload_of msg_wf]. rewrite uint64_int64, Hp by done. split_and!; try done.
    apply int64_range.
  - intros (r1 & Ha & (r2 & Hb & [= <-])%res_bind_inv)%Hshort%res_bind_inv.
    cbn [payload_of msg_wf].
    pose proof (go_slice_length _ _ _ _ Ha). pose proof (go_slice_length _ _ _ _ Hb).
    rewrite !be_put_get_len by lia. split_and!; try done; try by apply (be_get_uint 2).
    by eapply go_slice_two.
  - intros [= <-]. split_and!; try done. apply prefix_nil.
  - intros (l & Hl & (term & Ht & [= <-])%Hshort%res_bind_inv)%Hshort%res_bind_inv.
    pose proof (go_slice_length _ _ _ _ Hl). pose proof (go_slice_length _ _ _ _ Ht) as Hlt.
    assert (len term = be_get l ∧ be_get l <= 65533) as [Hlen Hmax].
    { pose proof (be_get_uint 2 l) as Hr. unfold is_uint in Hr.
      pose proof (len_nonneg term). revert Hlt. unfold uint16.
      destruct (Z.leb_spec 65534 (be_get l)).
      - rewrite <-(Z.mod_unique (2 + be_get l) (2 ^ 16) 1 (2 + be_get l - 2 ^ 16)) by lia. lia.
      - rewrite Z.mod_small by lia. lia. }
    cbn [payload_of readable]. rewrite string_bytes_string, Hlen, be_put_get_len by lia.
    split_and!; try done; [by eapply go_slice_two|]. intros _. by apply Z.leb_le.
  - intros (s & Hs & (rest & Hrest & [= <-])%res_bind_inv)%Hshort%res_bind_inv.
    destruct (DecodePayload_fixed8 _ _ Hs) as (Hp & Hr & Hx).
    pose proof (go_slice_length _ _ _ _ Hrest).
    cbn [payload_of msg_wf readable]. rewrite Hp. split_and!; try done.
    + by eapply go_slice_two.
    + intros Hmax. apply Z.leb_le. lia.
Qed.

(** The messages a reader delivers: well-formed, bounded, and ones that can be
    written again. *)
Lemma ReadMessage_inv r m r' :
  ReadMessage r = Some (Ok m, r') →
  ∃ p, rd_in r = frame_bytes (type_of m) p ++ rd_in r' ∧ rd_fin r' = rd_fin r ∧
       len p <= MaxPayloadSize ∧ decoded_from p (type_of m) m.
Proof.
  unfold ReadMessage.
  intros (h & r1 & (Hh & Hr1 & Hf1)%ReadFull_inv & (l & ? & [= Hl <-] & (t & ? & [= Ht <-] & Hk)
    %io_bind_inv)%io_bind_inv)%io_bind_inv; [|unfold HeaderSize; lia].
  pose proof (be_get_range l).
  destruct (Z.ltb_spec MaxPayloadSize (be_get l)); [done|].
  apply io_bind_inv in Hk as (p & r2 & Hp & [= Hd <-]).
  assert (len p = be_get l ∧ rd_in r1 = p ++ rd_in r2 ∧ rd_fin r2 = rd_fin r1) as (Hlp & Hr2 & Hf2).
  { destruct (Z.ltb_spec 0 (be_get l)); [apply ReadFull_inv in Hp; [done|lia]|].
    injection Hp as <- <-. by split; [rewrite len_nil; lia|]. }
  pose proof (DecodePayload_sound _ _ _ Hd) as Hdf. pose proof Hdf as (Hty & _).
  exists p. split_and!; [|congruence|lia|by rewrite <-Hty].
  rewrite Hr1, Hr2, app_assoc. f_equal. rewrite frame_bytes_app. f_equal.
  unfold HeaderSize in Hh. rewrite <-Hty, Hlp.
  assert (take 4 h = l) as <-.
  { rewrite go_slice_head in Hl by lia. by injection Hl. }
  rewrite be_put_get_len by (rewrite len_take; lia).
  apply go_index_inv in Ht as [_ Ht]. rewrite <-(take_drop_middle h 4 t Ht) at 1.
  assert (drop 5 h = []) as -> by (apply len_zero; rewrite len_drop; lia). done.
Qed.

Lemma ReadMessage_shrinks r m r' :
  ReadMessage r = Some (Ok m, r') → len (rd_in r') + HeaderSize <= len (rd_in r).
Proof.
  intros (p & -> & _)%ReadMessage_inv. rewrite frame_bytes_app, !len_app, len_be_put, len_cons, len_nil.
  pose proof (len_nonneg p). unfold HeaderSize. lia.
Qed.

(** A read on a stream that ends always returns. *)
Lemma ReadFull_ends n r : is_Some (rd_fin r) → ∃ o r', ReadFull n r = Some (o, r') ∧ is_Some (rd_fin r').
Proof. unfold ReadFull. intros [e He]. rewrite He. destruct (_ <=? _); eexists _, _; split; try done; by eexists. Qed.

Lemma ReadMessage_ends r : is_Some (rd_fin r) → is_Some (ReadMessage r).
Proof.
  intros Hf. unfold ReadMessage, io_bind, io_lift.
  destruct (ReadFull_ends HeaderSize r Hf) as (o & r1 & -> & Hf1). destruct o as [h| |]; [|done..].
  destruct (go_slice h 0 4) as [l| |]; [|done..]. destruct (go_index h 4) as [t| |]; [|done..].
  destruct (_ <? be_get l); [done|]. destruct (0 <? be_get l); [|done].
  destruct (ReadFull_ends (be_get l) r1 Hf1) as (o & r2 & -> & _). by destruct o.
Qed.

(** A message read from a beginning of a stream is read from the stream. *)
Lemma ReadMessage_extends r m r' R :
  ReadMessage r = Some (Ok m, r') → rd_in r `prefix_of` rd_in R →
  ∃ R', ReadMessage R = Some (Ok m, R') ∧ rd_in r' `prefix_of` rd_in R'.
Proof.
  destruct r as [inp f], R as [inp' fin]. intros Hr [k Hk]. simpl in Hk. subst inp'.
  pose proof Hr as (p & Hin & _ & Hl & _)%ReadMessage_inv. cbn [rd_in] in Hin. subst inp.
  rewrite ReadMessage_frame in Hr by done. injection Hr as Hd _.
  exists (Reader (rd_in r' ++ k) fin). split; [|by eexists]. by rewrite <-app_assoc, ReadMessage_frame, Hd.
Qed.

(** ** Sequences of messages *)

(** The calls of a sender that writes its messages one after the other. *)
Fixpoint WriteMessages (ms : list message) : io writer () :=
  match ms with
  | [] => io_ret ()
  | m :: ms' => io_bind (WriteMessage (Ptr m)) (λ _, WriteMessages ms')
  end.

Definition frames (ms : list message) : bytes := List.concat (frame <$> ms).

Lemma frames_cons m ms : frames (m :: ms) = frame m ++ frames ms.
Proof. done. Qed.

Lemma frames_one m : frames [m] = frame m.
Proof. apply app_nil_r. Qed.

Lemma frames_app ms ns : frames (ms ++ ns) = frames ms ++ frames ns.
Proof. unfold frames. by rewrite fmap_app, concat_app. Qed.

Lemma WriteMessages_ok ms w :
  Forall msg_wf ms → Forall (λ m, sendable m = true) ms → accepts w (len (frames ms)) →
  WriteMessages ms w = Some (Ok (), advance w (frames ms)).
Proof.
  intros Hwf. revert w. induction Hwf as [|m ms Hm Hms IH]; intros w Hs Ha.
  - simpl. by rewrite advance_nil.
  - apply Forall_cons in Hs as [Hs1 Hs2]. change (frames (m :: ms)) with (frame m ++ frames ms) in *.
    rewrite len_app in Ha. pose proof (len_nonneg (frames ms)). simpl.
    erewrite io_bind_ok by (apply WriteMessage_ok; eauto with goet lia).
    rewrite IH by eauto with goet. by rewrite advance_app.
Qed.

Lemma ReadMessage_of_frame m rest fin :
  msg_wf m → readable m = true →
  ReadMessage (Reader (frame m ++ rest) fin) = Some (Ok m, Reader rest fin).
Proof.
  intros Hwf Hr. unfold frame. rewrite ReadMessage_frame
    by (apply payload_of_len; auto using readable_sendable).
  by rewrite DecodePayload_roundtrip.
Qed.

(** The read after the last message. *)
Lemma ReadMessage_end fin :
  ReadMessage (Reader [] fin) =
    match fin with None => None | Some e => Some (Err e, Reader [] fin) end.
Proof.
  unfold ReadMessage, io_bind, ReadFull. cbn. destruct fin; [|done].
  change (0 <? len (@nil byte)) with false. by rewrite andb_false_r.
Qed.

Lemma ReadMessages_frames ms rest fin n :
  Forall msg_wf ms → Forall (λ m, readable m = true) ms →
  ReadMessages (List.length ms + n) (Reader (frames ms ++ rest) fin) =
    (ms ++ (ReadMessages n (Reader rest fin)).1, (ReadMessages n (Reader rest fin)).2).
Proof.
  intros Hwf Hr. induction Hwf as [|m ms Hm Hms IH].
  - simpl. by destruct (ReadMessages n _).
  - apply Forall_cons in Hr as [Hr1 Hr2]. change (frames (m :: ms)) with (frame m ++ frames ms).
    cbn [List.length Nat.add ReadMessages]. rewrite <-app_assoc, ReadMessage_of_frame, IH by done.
    done.
Qed.

(** ** Cut streams

    What a reader gets when the connection breaks at an arbitrary byte. *)

Lemma frame_bytes_cut t p r t' p' r' :
  len p <= MaxPayloadSize → len p' <= MaxPayloadSize →
  frame_bytes t p ++ r = frame_bytes t' p' ++ r' → t = t' ∧ p = p' ∧ r = r'.
Proof.
  unfold frame_bytes, MaxPayloadSize. intros Hp Hp' H. rewrite <-!app_assoc in H.
  apply app_inj_1 in H as [Hl H]; [|by rewrite !be_put_length].
  assert (len p = len p') as Hlen.
  { rewrite <-(be_get_put_fits 4 (len p)), Hl, be_get_put_fits; [done|..];
      unfold is_uint; pose proof (len_nonneg p); pose proof (len_nonneg p'); lia. }
  simpl in H. injection H as <- H. apply app_inj_1 in H as [<- <-]; [done|].
  unfold len in Hlen. lia.
Qed.

(** A proper prefix of a frame is never read as a message. *)
Lemma ReadMessage_cut b m fin m' r' :
  msg_wf m → sendable m = true → b `prefix_of` frame m → b ≠ frame m →
  ReadMessage (Reader b fin) ≠ Some (Ok m', r').
Proof.
  intros Hwf Hs [k Hk] Hne (p & Hin & _ & Hp & _)%ReadMessage_inv. cbn [rd_in] in Hin.
  apply Hne. rewrite Hk. rewrite Hin in Hk. rewrite <-app_assoc in Hk.
  rewrite <-(app_nil_r (frame m)) in Hk. unfold frame in Hk.
  destruct (frame_bytes_cut _ _ _ _ _ _ (payload_of_len m Hwf Hs) Hp Hk) as (_ & _ & Hk').
  clear Hk. rename Hk' into Hk.
  symmetry in Hk. apply app_eq_nil in Hk as [_ ->]. by rewrite app_nil_r.
Qed.

(** [q] is what a failed write can leave behind whole frames. *)
Definition partial (q : bytes) : Prop :=
  q = [] ∨ ∃ m, msg_wf m ∧ sendable m = true ∧ q `prefix_of` frame m ∧ q ≠ frame m.

Lemma frame_not_nil m : frame m ≠ [].
Proof.
  intros H. apply (f_equal (@List.length byte)) in H. unfold frame, frame_bytes in H.
  rewrite length_app, be_put_length in H. simpl in H. lia.
Qed.

Lemma ReadMessages_cut ms q b fin n :
  Forall msg_wf ms → Forall (λ m, readable m = true) ms → partial q →
  b `prefix_of` frames ms ++ q →
  (ReadMessages n (Reader b fin)).1 `prefix_of` ms.
Proof.
  intros Hwf Hr Hq. revert b n. induction Hwf as [|m ms Hm Hms IH]; intros b n Hb.
  - assert (∀ m' r', ReadMessage (Reader b fin) ≠ Some (Ok m', r')) as Hno.
    { change (frames [] ++ q) with q in Hb. intros m' r'.
      destruct Hq as [->|(m & ? & ? & Hqm & Hne)].
      - apply prefix_nil_inv in Hb as ->. rewrite ReadMessage_end. by destruct fin.
      - apply (ReadMessage_cut b m); [done|done|by etrans|]. intros ->. apply Hne.
        apply prefix_length_eq; [done|by apply prefix_length]. }
    destruct n; [done|]. simpl. destruct (ReadMessage _) as [[[]]|]; try done. naive_solver.
  - apply Forall_cons in Hr as [Hr1 Hr2]. destruct n as [|n]; [apply prefix_nil|].
    change (frames (m :: ms)) with (frame m ++ frames ms) in Hb. rewrite <-app_assoc in Hb.
    destruct (decide (frame m `prefix_of` b)) as [[k ->]|Hno].
    + cbn [ReadMessages]. rewrite ReadMessage_of_frame by done. apply prefix_app_inv in Hb.
      destruct (ReadMessages n (Reader k fin)) as [ms' e] eqn:E. cbn [fst].
      apply prefix_cons. specialize (IH Hr2 k n Hb). by rewrite E in IH.
    + assert (b `prefix_of` frame m) as Hpre.
      { destruct (prefix_weak_total b (frame m) (frame m ++ frames ms ++ q)) as [|];
          [done|by apply prefix_app_r|done|done]. }
      cbn [ReadMessages]. destruct (ReadMessage _) as [[[m' | |] r']|] eqn:E; try apply prefix_nil.
      destruct (ReadMessage_cut b m fin m' r'); [done|by apply readable_sendable|done|by intros ->|done].
Qed.

(** ** What was written is determined by the bytes *)

Lemma payload_inj m m' :
  msg_wf m → sendable m = true → msg_wf m' → sendable m' = true →
  type_of m = type_of m' → payload_of m = payload_of m' → m = m'.
Proof.
  destruct m as [tok|st|sq|ts|rows cols| |term|sq pl], m' as [tok'|st'|sq'|ts'|rows' cols'| |term'|sq' pl'];
    try done; intros Hwf Hs Hwf' Hs' _ Hp; cbn [payload_of] in Hp.
  - congruence.
  - congruence.
  - f_equal. by apply (be_put_inj 8).
  - f_equal. rewrite <-(int64_uint64 ts), <-(int64_uint64 ts') by done. f_equal.
    by apply (be_put_inj 8); [apply uint64_range..|].
  - apply app_inj_1 in Hp as [Hr Hc]; [|by rewrite !be_put_length]. destruct Hwf, Hwf'.
    f_equal; by apply (be_put_inj 2).
  - apply app_inj_1 in Hp as [_ Hp]; [|by rewrite !be_put_length]. f_equal.
    by rewrite <-(bytes_string_bytes term), Hp, bytes_string_bytes.
  - apply app_inj_1 in Hp as [Hq Hp]; [|by rewrite !be_put_length]. f_equal; [|done].
    by apply (be_put_inj 8).
Qed.

Definition writable (m : message) : Prop := msg_wf m ∧ sendable m = true.

Lemma frame_cut m m' r r' :
  writable m → writable m' → frame m ++ r = frame m' ++ r' → m = m' ∧ r = r'.
Proof.
  intros [Hw Hs] [Hw' Hs'] Hf. unfold frame in Hf.
  destruct (frame_bytes_cut _ _ _ _ _ _ (payload_of_len m Hw Hs) (payload_of_len m' Hw' Hs') Hf) as (Ht & Hp & ->).
  split; [|done]. exact (payload_inj m m' Hw Hs Hw' Hs' Ht Hp).
Qed.

Lemma partial_not_frame q m r : partial q → writable m → q ≠ frame m ++ r.
Proof.
  intros [->|(m' & Hw' & Hs' & [k Hk] & Hne)] Hw Hq.
  - symmetry in Hq. apply app_eq_nil in Hq as [Hq _]. exact (frame_not_nil m Hq).
  - rewrite Hq, <-app_assoc in Hk. rewrite <-(app_nil_r (frame m')) in Hk.
    apply frame_cut in Hk as [-> Hk]; [|done..]. symmetry in Hk. apply app_eq_nil in Hk as [-> _].
    apply Hne. by rewrite Hq, app_nil_r.
Qed.

Lemma frames_det ms ms' q q' :
  Forall writable ms → Forall writable ms' → partial q → partial q' →
  frames ms ++ q = frames ms' ++ q' → ms = ms'.
Proof.
  intros Hms. revert ms'. induction Hms as [|m ms Hm Hms IH]; intros [|m' ms'] Hms' Hq Hq' He; [done|..].
  - apply Forall_cons in Hms' as [Hm' _]. rewrite frames_cons, <-app_assoc in He.
    by apply partial_not_frame in He.
  - symmetry in He. rewrite frames_cons, <-app_assoc in He. by apply partial_not_frame in He.
  - apply Forall_cons in Hms' as [Hm' Hms']. rewrite !frames_cons, <-!app_assoc in He.
    apply frame_cut in He as [-> He]; [|done..]. f_equal. by apply IH.
Qed.

Lemma ReadMessage_long_terminal_info term rest fin :
  65534 <= len (string_bytes term) <= 65535 →
  ∃ p, ReadMessage (Reader (frame (TerminalInfo term) ++ rest) fin) = Some (Panicked p, Reader rest fin).
Proof.
  intros Hl. assert (sendable (TerminalInfo term) = true) as Hs by (simpl; apply Z.leb_le; lia).
  unfold frame. rewrite ReadMessage_frame by (by apply payload_of_len).
  set (p := payload_of (TerminalInfo term)).
  assert (panics (DecodePayload (type_of (TerminalInfo term)) p) = true) as Hp.
  { rewrite DecodePayload_panics_iff. unfold panics_on, p. cbn [payload_of].
    rewrite take_app_length' by (by rewrite be_put_length).
    rewrite be_get_put_fits, len_app, len_be_put by (unfold is_uint; simpl; lia).
    rewrite bool_decide_eq_true_2 by done. rewrite !(proj2 (Z.leb_le _ _)) by lia. done. }
  destruct (DecodePayload _ p) as [| |q]; try done. by exists q.
Qed.

Lemma msg_wf_Data s p : is_uint 64 s → msg_wf (Data s p).
Proof. done. Qed.

#[export] Hint Resolve msg_wf_Data readable_sendable : goet.

(** ** Properties *)

(** Framing round trip.  For every message a program can hold, other than
    a terminal name of 65534 or more bytes or a payload beyond the 4 MB frame
    limit, [WriteMessage] appends one frame to the stream and [ReadMessage]
    gives the same message back from it, leaving the bytes that follow the
    frame unread. *)
Theorem message_roundtrip m w rest fin :
  msg_wf m → readable m = true → accepts w (len (frame m)) →
  ∃ w' enc, WriteMessage (Ptr m) w = Some (Ok (), w') ∧ wr_out w' = wr_out w ++ enc ∧
    ReadMessage (Reader (enc ++ rest) fin) = Some (Ok m, Reader rest fin).
Proof.
  intros Hwf Hr Ha. exists (advance w (frame m)), (frame m). split_and!.
  - by apply WriteMessage_ok; auto using readable_sendable.
  - done.
  - by apply ReadMessage_of_frame.
Qed.

Lemma message_roundtrip_witness :
  ∃ w' enc, WriteMessage (Ptr (Data 7 [x68; x69])) (Writer [] None None) = Some (Ok (), w') ∧
    wr_out w' = [] ++ enc ∧
    ReadMessage (Reader (enc ++ [x00]) None) = Some (Ok (Data 7 [x68; x69]), Reader [x00] None).
Proof. apply (message_roundtrip (Data 7 [x68; x69])); [done|done|done]. Defined.

(** C23: A stream of messages is delivered whole and in order.  Whatever
    sequence of (readable) messages is written to a stream, the reader gets
    exactly that sequence, and the read after it returns what the stream
    itself returns at its end. *)
Theorem stream_roundtrip ms fin :
  Forall msg_wf ms → Forall (λ m, readable m = true) ms →
  ∃ w', WriteMessages ms (Writer [] None None) = Some (Ok (), w') ∧
    ReadMessages (S (List.length ms)) (Reader (wr_out w') fin) =
      (ms, match fin with None => None | Some e => Some (Err e, Reader [] fin) end).
Proof.
  intros Hwf Hr. exists (advance (Writer [] None None) (frames ms)). split.
  - apply WriteMessages_ok; [done| |done]. eapply Forall_impl; [exact Hr|]. apply readable_sendable.
  - replace (S (List.length ms)) with (List.length ms + 1)%nat by lia.
    simpl wr_out. rewrite <-(app_nil_r (frames ms)), ReadMessages_frames by done.
    cbn [ReadMessages]. rewrite ReadMessage_end. destruct fin; by rewrite app_nil_r.
Qed.

Lemma stream_roundtrip_witness :
  ∃ w', WriteMessages [TerminalInfo "xterm"; Resize 24 80; Data 1 [x61]] (Writer [] None None)
      = Some (Ok (), w') ∧
    ReadMessages 4 (Reader (wr_out w') (Some EOF)) =
      ([TerminalInfo "xterm"; Resize 24 80; Data 1 [x61]], Some (Err EOF, Reader [] (Some EOF))).
Proof.
  apply (stream_roundtrip [TerminalInfo "xterm"; Resize 24 80; Data 1 [x61]] (Some EOF)).
  - by repeat constructor.
  - by repeat constructor.
Defined.

(** C25: The decoder panics on exactly one family of inputs: a [TerminalInfo]
    payload that announces 65534 or 65535 bytes of terminal name and is long
    enough to hold them.  The slice bound [2+termLen] is computed in [uint16]
    and wraps to 0 or 1; every other input, well-formed or not, returns a
    message or an error. *)
Theorem decode_panics_exactly t p :
  panics (DecodePayload t p) = true ↔
  t = MsgTerminalInfo ∧ 65534 <= be_get (take 2 p) ∧ 2 + be_get (take 2 p) <= len p.
Proof.
  rewrite DecodePayload_panics_iff. unfold panics_on.
  rewrite !andb_true_iff, bool_decide_eq_true, !Z.leb_le. tauto.
Qed.

(** The sender and the receiver disagree on those names: [WriteMessage]
    accepts every terminal name up to 65535 bytes, and the frame of a name of
    65534 or 65535 bytes makes [ReadMessage] panic at the receiver. *)
Theorem long_terminal_info_panics_reader term w rest fin :
  65534 <= len (string_bytes term) <= 65535 →
  accepts w (len (frame (TerminalInfo term))) →
  ∃ w' enc, WriteMessage (Ptr (TerminalInfo term)) w = Some (Ok (), w') ∧
    wr_out w' = wr_out w ++ enc ∧
    ∃ p, ReadMessage (Reader (enc ++ rest) fin) = Some (Panicked p, Reader rest fin).
Proof.
  intros Hl Ha. assert (sendable (TerminalInfo term) = true) as Hs by (simpl; apply Z.leb_le; lia).
  exists (advance w (frame (TerminalInfo term))), (frame (TerminalInfo term)). split_and!.
  - by apply WriteMessage_ok.
  - done.
  - by apply ReadMessage_long_terminal_info.
Qed.

Lemma long_terminal_info_panics_reader_witness :
  let term := bytes_string (replicate (Z.to_nat 65534) x78) in
  ∃ w' enc, WriteMessage (Ptr (TerminalInfo term)) (Writer [] None None) = Some (Ok (), w') ∧
    wr_out w' = [] ++ enc ∧
    ∃ p, ReadMessage (Reader (enc ++ []) None) = Some (Panicked p, Reader [] None).
Proof.
  intros term. apply (long_terminal_info_panics_reader term (Writer [] None None)); [|done].
  unfold term. rewrite string_bytes_string, len_replicate. lia.
Defined.

(** C24: What a reader delivers.  A message returned by [ReadMessage] is
    well-formed, can be sent and read again, was framed at the front of the
    input, and at most [HeaderSize + MaxPayloadSize] bytes were consumed for
    it; its own encoding is a prefix of the payload received (extra bytes of
    a fixed-size payload are ignored). *)
Theorem read_message_sound r m r' :
  ReadMessage r = Some (Ok m, r') →
  msg_wf m ∧ readable m = true ∧ rd_fin r' = rd_fin r ∧
  ∃ p, rd_in r = frame_bytes (type_of m) p ++ rd_in r' ∧ payload_of m `prefix_of` p ∧
       len (frame_bytes (type_of m) p) <= HeaderSize + MaxPayloadSize.
Proof.
  intros (p & Hin & Hfin & Hlen & _ & Hwf & Hpre & Hr)%ReadMessage_inv.
  split_and!; auto. exists p. split_and!; try done.
  rewrite frame_bytes_app, !len_app, len_be_put. unfold HeaderSize. rewrite len_cons, len_nil. lia.
Qed.

Lemma read_message_sound_witness :
  let r := Reader [x00; x00; x00; x04; x11; x00; x18; x00; x50; xff] None in
  msg_wf (Resize 24 80) ∧ readable (Resize 24 80) = true ∧ None = rd_fin r ∧
  ∃ p, rd_in r = frame_bytes MsgResize p ++ [xff] ∧ payload_of (Resize 24 80) `prefix_of` p ∧
       len (frame_bytes MsgResize p) <= HeaderSize + MaxPayloadSize.
Proof. intros r. apply (read_message_sound r (Resize 24 80) (Reader [xff] None)). reflexivity. Defined.

(** A broken connection never invents, reorders or repairs a message.
    Cut the bytes of any sequence of written messages, possibly followed by
    the remains of a failed write, at an arbitrary position: what the receiver
    reads from the cut stream is a prefix of the messages sent. *)
Theorem cut_stream_delivers_prefix ms q b fin n :
  Forall msg_wf ms → Forall (λ m, readable m = true) ms → partial q →
  b `prefix_of` frames ms ++ q →
  (ReadMessages n (Reader b fin)).1 `prefix_of` ms.
Proof. apply ReadMessages_cut. Qed.

Lemma cut_stream_delivers_prefix_witness :
  (ReadMessages 5 (Reader (take 20 (frames [Data 1 [x61]; Resize 24 80])) (Some EOF))).1
    `prefix_of` [Data 1 [x61]; Resize 24 80].
Proof.
  apply (cut_stream_delivers_prefix _ []); [by repeat constructor|by repeat constructor|by left|].
  rewrite app_nil_r. apply prefix_take.
Defined.

(** Every way [WriteMessage] can end.  It never panics; a success leaves
    exactly the frame of the message on the wire; a message that cannot be
    sent (a terminal name over 65535 bytes, a payload over the limit) is
    refused with nothing written; and when the writer fails, its own error is
    returned and a proper prefix of the frame is on the wire. *)
Theorem write_message_outcome m w r w' :
  msg_wf m → WriteMessage (Ptr m) w = Some (r, w') →
  (r = Ok () ∧ sendable m = true ∧ wr_out w' = wr_out w ++ frame m) ∨
  (∃ e, r = Err e ∧ sendable m = false ∧ w' = w) ∨
  (∃ e q, r = Err e ∧ wr_fin w = Some e ∧ sendable m = true ∧
          wr_out w' = wr_out w ++ q ∧ q `prefix_of` frame m ∧ ¬ accepts w (len (frame m))).
Proof.
  intros Hwf Hw. destruct (WriteMessage_cases m w r w' Hwf Hw)
    as [(-> & ? & -> & ?)|[?|(e & q & ? & ? & ? & ? & ? & ? & ? & ? & ?)]]; [by left|by right; left|].
  right; right. by exists e, q.
Qed.

Lemma write_message_outcome_witness :
  let w := Writer [] (Some 6) (Some EOF) in
  let w' := Writer (take 6 (frame (Resize 24 80))) (Some 0) (Some EOF) in
  (Err EOF = Ok () ∧ sendable (Resize 24 80) = true ∧ wr_out w' = wr_out w ++ frame (Resize 24 80)) ∨
  (∃ e, Err (A:=()) EOF = Err e ∧ sendable (Resize 24 80) = false ∧ w' = w) ∨
  (∃ e q, Err (A:=()) EOF = Err e ∧ wr_fin w = Some e ∧ sendable (Resize 24 80) = true ∧
          wr_out w' = wr_out w ++ q ∧ q `prefix_of` frame (Resize 24 80) ∧
          ¬ accepts w (len (frame (Resize 24 80)))).
Proof.
  intros w w'. apply (write_message_outcome (Resize 24 80) w (Err EOF) w'); [done|reflexivity].
Defined.
