(* ===== verification/Auth.v ===== *)
(** * Authentication tokens ([internal/auth])

    [HMAC-SHA256] from the standard library, executable, and the two
    functions of the package over it.  SHA-256 is written from its standard:
    its constants are computed as the leading fractional bits of the square
    and cube roots of primes, and test vectors pin the definition down. *)

From S2P Require Import Prelude GoIO.

(** ** SHA-256 ([crypto/sha256]) *)

Module sha256.

Definition mask (z : Z) : Z := Z.land z (Z.ones 32).
Definition add32 (a b : Z) : Z := mask (a + b).
Definition rotr (x n : Z) : Z := Z.lor (Z.shiftr x n) (mask (Z.shiftl x (32 - n))).

(** The first [n] primes, by trial division. *)
Definition is_prime (p : nat) : bool :=
  forallb (λ d, negb (Nat.eqb (Nat.modulo p d) 0)) (List.seq 2 (Nat.sqrt p - 1)).
Definition primes (n : nat) : list Z :=
  take n (Z.of_nat <$> List.filter is_prime (List.seq 2 320)).

(** The integer cube root, by bisection on [bits] bits. *)
Fixpoint cbrt_bits (bits : nat) (acc n : Z) : Z :=
  match bits with
  | O => acc
  | S b =>
    let c := acc + Z.shiftl 1 (Z.of_nat b) in
    cbrt_bits b (if c * c * c <=? n then c else acc) n
  end.

(** The first 32 fractional bits of the roots. *)
Definition H0 : list Z := Eval vm_compute in
  (λ p, mask (Z.sqrt (Z.shiftl p 64))) <$> primes 8.
Definition K : list Z := Eval vm_compute in
  (λ p, mask (cbrt_bits 36 0 (Z.shiftl p 96))) <$> primes 64.

(** One bit, zeros to 56 bytes modulo 64, and the bit length. *)
Definition pad (m : bytes) : bytes :=
  m ++ x80 :: replicate (Z.to_nat ((55 - len m) mod 64)) x00 ++ be_put 8 (8 * len m).

(** Big-endian words of a list of bytes. *)
Fixpoint words (n : nat) (l : bytes) : list Z :=
  match n with
  | O => []
  | S n' => be_get (take 4 l) :: words n' (drop 4 l)
  end.

(** The message schedule is kept in reverse: its head is the last word. *)
Fixpoint extend (n : nat) (rev_w : list Z) : list Z :=
  match n with
  | O => rev_w
  | S n' =>
    let w i := nth i rev_w 0 in
    let s0 x := Z.lxor (Z.lxor (rotr x 7) (rotr x 18)) (Z.shiftr x 3) in
    let s1 x := Z.lxor (Z.lxor (rotr x 17) (rotr x 19)) (Z.shiftr x 10) in
    let next := add32 (add32 (s1 (w 1%nat)) (w 6%nat)) (add32 (s0 (w 14%nat)) (w 15%nat)) in
    extend n' (next :: rev_w)
  end.

Definition round (s : list Z) (kw : Z * Z) : list Z :=
  match s with
  | [a; b; c; d; e; f; g; h] =>
    let S1 := Z.lxor (Z.lxor (rotr e 6) (rotr e 11)) (rotr e 25) in
    let choose := Z.lxor (Z.land e f) (Z.land (Z.lxor e (Z.ones 32)) g) in
    let t1 := add32 (add32 h S1) (add32 choose (add32 kw.1 kw.2)) in
    let S0 := Z.lxor (Z.lxor (rotr a 2) (rotr a 13)) (rotr a 22) in
    let majority := Z.lxor (Z.lxor (Z.land a b) (Z.land a c)) (Z.land b c) in
    [add32 t1 (add32 S0 majority); a; b; c; add32 d t1; e; f; g]
  | _ => s
  end.

Definition compress (s : list Z) (block : bytes) : list Z :=
  let w := rev (extend 48 (rev (words 16 block))) in
  zip_with add32 s (fold_left round (zip K w) s).

Fixpoint blocks (n : nat) (s : list Z) (l : bytes) : list Z :=
  match n with
  | O => s
  | S n' => blocks n' (compress s (take 64 l)) (drop 64 l)
  end.

(** [sha256.Sum256] *)
Definition Sum256 (m : bytes) : bytes :=
  let p := pad m in
  List.concat (be_put 4 <$> blocks (Z.to_nat (Z.div (len p) 64)) H0 p).

Lemma round_length s kw : List.length (round s kw) = List.length s.
Proof. unfold round. by repeat (case_match; simplify_eq/=; try done). Qed.

Lemma rounds_length kws s : List.length (fold_left round kws s) = List.length s.
Proof. revert s. induction kws as [|kw kws IH]; intros s; simpl; [done|]. by rewrite IH, round_length. Qed.

Lemma blocks_length n s l : List.length (blocks n s l) = List.length s.
Proof.
  revert s l. induction n as [|n IH]; intros s l; simpl; [done|].
  rewrite IH. unfold compress. rewrite length_zip_with, rounds_length. lia.
Qed.

Lemma concat_be4_length ws : List.length (List.concat (be_put 4 <$> ws)) = (4 * List.length ws)%nat.
Proof.
  induction ws as [|w ws IH]; [done|].
  change (List.concat (be_put 4 <$> w :: ws)) with (be_put 4 w ++ List.concat (be_put 4 <$> ws)).
  rewrite length_app, be_put_length, IH. simpl. lia.
Qed.

(** A digest is always 32 bytes. *)
Lemma Sum256_length m : len (Sum256 m) = 32.
Proof. unfold Sum256, len. rewrite concat_be4_length, blocks_length. done. Qed.

Example Sum256_abc :
  be_get (Sum256 (string_bytes "abc")) =
    0xba7816bf8f01cfea414140de5dae2223b00361a396177a9cb410ff61f20015ad.
Proof. vm_compute. reflexivity. Qed.

End sha256.

(** ** HMAC ([crypto/hmac] with SHA-256, whose block is 64 bytes) *)

Definition xor_pad (key : bytes) (v : Z) : bytes :=
  let key := if 64 <? len key then sha256.Sum256 key else key in
  (λ b, byteZ (Z.lxor (Zb b) v)) <$> (key ++ replicate (Z.to_nat (64 - len key)) x00).

Definition hmac_sha256 (key msg : bytes) : bytes :=
  sha256.Sum256 (xor_pad key 0x5c ++ sha256.Sum256 (xor_pad key 0x36 ++ msg)).

Example hmac_rfc4231_case2 :
  be_get (hmac_sha256 (string_bytes "Jefe") (string_bytes "what do ya want for nothing?")) =
    0x5bdcc146bf60754e6a042426089575c75a003f089d2739839dec58b964ec3843.
Proof. vm_compute. reflexivity. Qed.

(** [hmac.Equal]: the constant-time comparison, which ORs the differences. *)
Definition hmac_Equal (a b : bytes) : bool :=
  (len a =? len b) &&
  (foldr (λ p v, Z.lor (Z.lxor (Zb p.1) (Zb p.2)) v) 0 (zip a b) =? 0).

(** ** [auth.go] *)

Definition PasskeySize : Z := 32.

(** [GeneratePasskey], over what [rand.Read] fills the key with. *)
Definition GeneratePasskey (rand_Read : Z → res bytes) : res bytes :=
  key ← rand_Read PasskeySize; Ok key.

(** [var token [32]byte; copy(token[:], sum)] *)
Definition copy32 (sum : bytes) : bytes :=
  take 32 sum ++ replicate (32 - List.length sum) x00.

Definition ComputeAuthToken (passkey exporterMaterial : bytes) : bytes :=
  copy32 (hmac_sha256 passkey exporterMaterial).

Definition VerifyAuthToken (passkey exporterMaterial token : bytes) : bool :=
  let expected := ComputeAuthToken passkey exporterMaterial in
  hmac_Equal token expected.

(** ** Lemmas *)

Lemma ComputeAuthToken_hmac k m : ComputeAuthToken k m = hmac_sha256 k m.
Proof.
  unfold ComputeAuthToken, copy32, hmac_sha256.
  pose proof (sha256.Sum256_length (xor_pad k 0x5c ++ sha256.Sum256 (xor_pad k 0x36 ++ m))) as Hl.
  unfold len in Hl. rewrite take_ge by lia.
  replace (32 - _)%nat with 0%nat by lia. by rewrite app_nil_r.
Qed.

Lemma ComputeAuthToken_length k m : len (ComputeAuthToken k m) = 32.
Proof. rewrite ComputeAuthToken_hmac. apply sha256.Sum256_length. Qed.

Lemma hmac_Equal_eq a b : hmac_Equal a b = true ↔ a = b.
Proof.
  unfold hmac_Equal. rewrite andb_true_iff, !Z.eqb_eq. split.
  - intros [Hl Hd]. revert b Hl Hd. induction a as [|x a IH]; intros [|y b] Hl Hd;
      rewrite ?len_cons, ?len_nil in Hl; try (pose proof (len_nonneg a); lia);
      try (pose proof (len_nonneg b); lia); [done|].
    simpl in Hd. apply Z.lor_eq_0_iff in Hd as [Hx%Z.lxor_eq Hd].
    f_equal; [by apply Zb_inj|]. apply IH; [lia|done].
  - intros ->. split; [done|]. induction b as [|y b IH]; simpl; [done|].
    by rewrite IH, Z.lxor_nilpotent.
Qed.

Lemma VerifyAuthToken_eq k m t : VerifyAuthToken k m t = true ↔ t = ComputeAuthToken k m.
Proof. apply hmac_Equal_eq. Qed.

Lemma VerifyAuthToken_refl k m : VerifyAuthToken k m (ComputeAuthToken k m) = true.
Proof. by apply VerifyAuthToken_eq. Qed.

Arguments ComputeAuthToken : simpl never.
Arguments VerifyAuthToken : simpl never.
Arguments hmac_sha256 : simpl never.

#[export] Hint Resolve ComputeAuthToken_length VerifyAuthToken_refl : goet.

(** ** Properties *)

(** A token is accepted exactly when it is the 32-byte HMAC-SHA256 of the
    exporter material under the passkey: [VerifyAuthToken] never accepts
    another value, of whatever length, and always accepts what
    [ComputeAuthToken] returns. *)
Theorem verify_exact passkey material token :
  VerifyAuthToken passkey material token = true ↔
  token = hmac_sha256 passkey material ∧ len token = 32.
Proof.
  rewrite VerifyAuthToken_eq, ComputeAuthToken_hmac. split; [|by intros [? _]].
  intros ->. split; [done|]. apply sha256.Sum256_length.
Qed.
