(* ===== verification/Catchup.v ===== *)
(** * The catchup ring buffer ([internal/catchup])

    A ring of [(sequence, payload)] entries, bounded in bytes and in slots,
    from which a reconnecting peer is replayed what it missed.  The ring is
    modelled with its index arithmetic, [head], [count] and the array of
    slots; its specification is a queue ([qstore], [qreplay]) and the proofs
    show that the ring refines the queue, never goes out of the bounds of its
    array and terminates.

    A Go [int] is an unbounded [Z] here: the invariant bounds every quantity
    the code computes (see [store_arithmetic_in_range]), so that none of them
    can wrap.  The mutex makes each operation atomic; payloads are copied by
    [Store] and never written afterwards, so a slot holds a value. *)

From S2P Require Import Prelude.

Module catchup.

Definition DefaultBufferSize : Z := 4 * 1024.

(** [entry] and [Entry] have the same two fields. *)
Record entry : Type := Entry { seq : Z; payload : bytes }.

#[export] Instance entry_eq_dec : EqDecision entry.
Proof. solve_decision. Defined.

(** [entry{}] *)
Definition entry_zero : entry := Entry 0 [].

Record Buffer : Type := MkBuffer {
  entries : list entry;
  size : Z;
  maxSize : Z;
  head : Z;
  count : Z;
  capacity : Z;
}.

(** The number of slots [New] allocates. *)
Definition slots_for (maxBytes : Z) : Z :=
  Z.max 256 (Z.min (Z.quot maxBytes 1024) (Z.shiftl 1 20)).

Definition New (maxBytes : Z) : Buffer :=
  let maxBytes := if maxBytes <=? 0 then DefaultBufferSize else maxBytes in
  let slots := slots_for maxBytes in
  MkBuffer (replicate (Z.to_nat slots) entry_zero) 0 maxBytes 0 0 slots.

(** [tail] and [newest]: Go's [%] truncates. *)
Definition tail (b : Buffer) : Z := Z.rem (head b - count b + capacity b) (capacity b).
Definition newest (b : Buffer) : Z := Z.rem (head b - 1 + capacity b) (capacity b).

Definition evictOldest (b : Buffer) : res Buffer :=
  let t := tail b in
  e ← go_index (entries b) t;
  es ← go_store (entries b) t entry_zero;
  Ok (MkBuffer es (size b - len (payload e)) (maxSize b) (head b) (count b - 1) (capacity b)).

(** [for b.count > 0 && b.size+len(p) > b.maxSize { b.evictOldest() }]; one
    unit of fuel per iteration. *)
Fixpoint evict_loop (fuel : nat) (b : Buffer) (n : Z) : option (res Buffer) :=
  if (0 <? count b) && (maxSize b <? size b + n) then
    match fuel with
    | O => None
    | S f =>
      match evictOldest b with
      | Ok b' => evict_loop f b' n
      | r => Some r
      end
    end
  else Some (Ok b).

(** The part of [Store] after the loop: evict for a slot, then write. *)
Definition store_entry (b : Buffer) (e : entry) : res Buffer :=
  b ← (if capacity b <=? count b then evictOldest b else Ok b);
  es ← go_store (entries b) (head b) e;
  Ok (MkBuffer es (size b + len (payload e)) (maxSize b)
        (Z.rem (head b + 1) (capacity b)) (count b + 1) (capacity b)).

Definition Store (b : Buffer) (s : Z) (p : bytes) : option (res Buffer) :=
  match evict_loop (Z.to_nat (count b)) b (len p) with
  | None => None
  | Some (Ok b') => Some (store_entry b' (Entry s p))
  | Some r => Some r
  end.

(** The loop of [ReplaySince]: [k] slots from the [i]-th oldest one. *)
Fixpoint replay_loop (b : Buffer) (afterSeq t i : Z) (k : nat) : res (list entry) :=
  match k with
  | O => Ok []
  | S k' =>
    e ← go_index (entries b) (Z.rem (t + i) (capacity b));
    rest ← replay_loop b afterSeq t (i + 1) k';
    Ok (if afterSeq <? seq e then e :: rest else rest)
  end.

(** [nil] and an empty slice are both [[]]. *)
Definition ReplaySince (b : Buffer) (afterSeq : Z) : res (list entry) :=
  if count b =? 0 then Ok []
  else replay_loop b afterSeq (tail b) 0 (Z.to_nat (count b)).

Definition OldestSeq (b : Buffer) : res Z :=
  if count b =? 0 then Ok 0
  else e ← go_index (entries b) (tail b); Ok (seq e).

Definition NewestSeq (b : Buffer) : res Z :=
  if count b =? 0 then Ok 0
  else e ← go_index (entries b) (newest b); Ok (seq e).

(** ** The specification: a queue of entries *)

Definition total (q : list entry) : Z := foldr (λ e n, len (payload e) + n) 0 q.

(** Drop from the front while the new payload does not fit. *)
Fixpoint qevict (mx n : Z) (q : list entry) : list entry :=
  match q with
  | [] => []
  | _ :: q' => if mx <? total q + n then qevict mx n q' else q
  end.

Definition qstore (mx cap : Z) (q : list entry) (e : entry) : list entry :=
  let q := qevict mx (len (payload e)) q in
  (if cap <=? len q then drop 1 q else q) ++ [e].

Definition qreplay (q : list entry) (afterSeq : Z) : list entry :=
  base.filter (λ e, afterSeq < seq e) q.

(** ** The abstraction: the entries of the ring, oldest first *)

Definition slot (b : Buffer) (i : Z) : entry :=
  default entry_zero (entries b !! Z.to_nat ((tail b + i) mod capacity b)).

Definition contents (b : Buffer) : list entry :=
  (λ i, slot b (Z.of_nat i)) <$> List.seq 0 (Z.to_nat (count b)).

Record inv (b : Buffer) : Prop := {
  inv_cap : 0 < capacity b;
  inv_slots : len (entries b) = capacity b;
  inv_head : 0 <= head b < capacity b;
  inv_count : 0 <= count b <= capacity b;
  inv_size : size b = total (contents b);
  inv_max : 0 < maxSize b;
  inv_bytes : size b <= maxSize b ∨ count b = 1;
}.

(** ** Lemmas: ring arithmetic *)

Lemma mod_add_inj c a i j :
  0 < c → 0 <= i < c → 0 <= j < c → (a + i) mod c = (a + j) mod c → i = j.
Proof.
  intros Hc Hi Hj H.
  pose proof (Z.div_mod (a + i) c ltac:(lia)) as E1.
  pose proof (Z.div_mod (a + j) c ltac:(lia)) as E2. rewrite H in E1.
  revert E1 E2. generalize ((a + i) / c) ((a + j) / c) ((a + j) mod c). intros x y r E1 E2.
  clear H. destruct (Z.lt_trichotomy x y) as [Hxy|[->|Hxy]]; [|lia|].
  - pose proof (Z.mul_le_mono_nonneg_l (x + 1) y c). lia.
  - pose proof (Z.mul_le_mono_nonneg_l (y + 1) x c). lia.
Qed.

Section ring.
Context (b : Buffer) (Hcap : 0 < capacity b)
  (Hhead : 0 <= head b < capacity b) (Hcount : 0 <= count b <= capacity b).

Lemma tail_mod : tail b = (head b - count b) mod capacity b.
Proof using Hcap Hhead Hcount.
  unfold tail. rewrite Z.rem_mod_nonneg by lia.
  rewrite <-(Z.mod_add (head b - count b) 1) by lia. f_equal. lia.
Qed.

Lemma tail_range : 0 <= tail b < capacity b.
Proof using Hcap Hhead Hcount. rewrite tail_mod. apply Z.mod_pos_bound. lia. Qed.

Lemma ring_index i : (tail b + i) mod capacity b = (head b - count b + i) mod capacity b.
Proof using Hcap Hhead Hcount. by rewrite tail_mod, Zplus_mod_idemp_l. Qed.

Lemma newest_index : newest b = (tail b + (count b - 1)) mod capacity b.
Proof using Hcap Hhead Hcount.
  unfold newest. rewrite ring_index, Z.rem_mod_nonneg by lia.
  rewrite <-(Z.mod_add (head b - count b + (count b - 1)) 1) by lia. f_equal. lia.
Qed.

Lemma contents_length : List.length (contents b) = Z.to_nat (count b).
Proof. unfold contents. by rewrite length_fmap, length_seq. Qed.

Lemma contents_lookup i :
  (i < Z.to_nat (count b))%nat → contents b !! i = Some (slot b (Z.of_nat i)).
Proof.
  intros Hi. unfold contents. rewrite list_lookup_fmap, lookup_seq_lt by done. done.
Qed.

Lemma go_index_slot i :
  len (entries b) = capacity b → 0 <= i →
  go_index (entries b) ((tail b + i) mod capacity b) = Ok (slot b i).
Proof using Hcap.
  intros Hl Hi. pose proof (Z.mod_pos_bound (tail b + i) (capacity b) Hcap).
  destruct (go_index_total (entries b) ((tail b + i) mod capacity b)) as (e & -> & He); [lia|].
  unfold slot. by rewrite He.
Qed.
End ring.

Lemma len_contents b : inv b → len (contents b) = count b.
Proof. intros []. unfold len. rewrite contents_length. lia. Qed.

Lemma total_app q r : total (q ++ r) = total q + total r.
Proof. induction q as [|e q IH]; simpl; lia. Qed.

Lemma total_nonneg q : 0 <= total q.
Proof. induction q as [|e q IH]; simpl; [lia|]. pose proof (len_nonneg (payload e)). lia. Qed.

(** Two buffers whose rings agree slot by slot have the same contents. *)
Lemma contents_eq b q :
  len q = count b → 0 <= count b →
  (∀ i, 0 <= i < count b → slot b i = default entry_zero (q !! Z.to_nat i)) →
  contents b = q.
Proof.
  intros Hl Hc Hs. apply list_eq_same_length with (n := List.length q).
  - done.
  - rewrite contents_length. unfold len in Hl. lia.
  - intros i x y Hi. unfold len in Hl. rewrite contents_lookup by lia.
    intros [= <-] Hy. rewrite Hs by lia. by rewrite Nat2Z.id, Hy.
Qed.

Lemma lookup_contents b i :
  inv b → 0 <= i < count b → contents b !! Z.to_nat i = Some (slot b i).
Proof. intros [] Hi. rewrite contents_lookup by lia. by rewrite Z2Nat.id by lia. Qed.

Lemma contents_hd b : inv b → 0 < count b → contents b = slot b 0 :: drop 1 (contents b).
Proof.
  intros Hb Hc. pose proof (lookup_contents b 0 Hb ltac:(lia)) as H0.
  destruct (contents b); [done|]. injection H0 as ->. done.
Qed.

Lemma total_contents b :
  inv b → 0 < count b →
  total (contents b) = len (payload (slot b 0)) + total (drop 1 (contents b)).
Proof. intros Hb Hc. by rewrite (contents_hd b Hb Hc) at 1. Qed.

(** ** Lemmas: eviction *)

Lemma evictOldest_spec b :
  inv b → 0 < count b →
  ∃ b', evictOldest b = Ok b' ∧ inv b' ∧ contents b' = drop 1 (contents b) ∧
    count b' = count b - 1 ∧ head b' = head b ∧ capacity b' = capacity b ∧ maxSize b' = maxSize b.
Proof.
  intros Hb Hpos. pose proof Hb as [].
  pose proof (tail_range b inv_cap0 inv_head0 inv_count0) as Ht.
  unfold evictOldest.
  assert (go_index (entries b) (tail b) = Ok (slot b 0)) as ->.
  { rewrite <-go_index_slot by (auto; lia). rewrite Z.add_0_r, Z.mod_small by lia. done. }
  cbn [mbind res_bind]. rewrite go_store_ok by lia. cbn [mbind res_bind].
  eexists. split; [reflexivity|].
  match goal with |- inv ?x ∧ _ => set (b' := x) end.
  assert (∀ i, 0 <= i < count b - 1 → slot b' i = slot b (i + 1)) as Hslot.
  { intros i Hi. unfold slot.
    assert ((tail b' + i) mod capacity b' = (tail b + (i + 1)) mod capacity b) as ->.
    { rewrite !ring_index by (simpl; lia). simpl. f_equal. lia. }
    simpl. rewrite list_lookup_insert_ne; [done|].
    intros E. pose proof (Z.mod_pos_bound (tail b + (i + 1)) (capacity b) inv_cap0).
    assert (i + 1 = 0); [|lia]. apply (mod_add_inj (capacity b) (tail b)); try lia.
    rewrite Z.add_0_r, (Z.mod_small (tail b)) by lia. lia. }
  assert (contents b' = drop 1 (contents b)) as Hc.
  { apply contents_eq; simpl; [|lia|].
    - rewrite len_drop, len_contents by done. lia.
    - intros i Hi. rewrite Hslot by done. rewrite lookup_drop.
      replace (1 + Z.to_nat i)%nat with (Z.to_nat (i + 1)) by lia.
      by rewrite lookup_contents by (auto; lia). }
  assert (size b = len (payload (slot b 0)) + size b') as Hsz by (simpl; lia).
  split; [|by split_and!].
  split; simpl; try done; try lia.
  - by rewrite len_insert.
  - rewrite Hc, inv_size0, total_contents by done. lia.
  - pose proof (len_nonneg (payload (slot b 0))). destruct inv_bytes0 as [|H1]; [left; lia|].
    left. rewrite inv_size0, total_contents by done.
    assert (drop 1 (contents b) = []) as ->; [|simpl; lia].
    apply len_zero. rewrite len_drop, len_contents by done. lia.
Qed.

Lemma qevict_nonempty b mx n :
  inv b → 0 < count b →
  qevict mx n (contents b) =
    if mx <? size b + n then qevict mx n (drop 1 (contents b)) else contents b.
Proof.
  intros Hb Hc. rewrite (inv_size b Hb). pose proof (contents_hd b Hb Hc) as E.
  by destruct (contents b).
Qed.

Lemma evict_loop_spec fuel b n :
  inv b → (Z.to_nat (count b) ≤ fuel)%nat →
  ∃ b', evict_loop fuel b n = Some (Ok b') ∧ inv b' ∧
    contents b' = qevict (maxSize b) n (contents b) ∧
    capacity b' = capacity b ∧ maxSize b' = maxSize b ∧
    (count b' = 0 ∨ size b' + n <= maxSize b').
Proof.
  revert b. induction fuel as [|f IH]; intros b Hb Hf.
  - pose proof Hb as []. assert (count b = 0) as Hc by lia. simpl. rewrite Hc. simpl.
    exists b. split_and!; auto.
    assert (contents b = []) as -> by (apply len_zero; by rewrite len_contents). done.
  - simpl. destruct (Z.ltb_spec 0 (count b)) as [Hc|Hc]; simpl.
    + destruct (Z.ltb_spec (maxSize b) (size b + n)) as [Hn|Hn].
      * destruct (evictOldest_spec b Hb Hc) as (b1 & -> & Hb1 & Hc1 & Hcnt & _ & Hcap & Hmax).
        destruct (IH b1 Hb1 ltac:(lia)) as (b2 & -> & Hb2 & Hc2 & Hcap2 & Hmax2 & Hend).
        exists b2. split_and!; auto; try congruence.
        by rewrite Hc2, Hc1, Hmax, qevict_nonempty, (proj2 (Z.ltb_lt _ _)).
      * exists b. split_and!; auto.
        by rewrite qevict_nonempty, (proj2 (Z.ltb_ge _ _)).
    + pose proof Hb as []. exists b. split_and!; auto; [|left; lia].
      assert (contents b = []) as ->; [|done].
      apply len_zero. rewrite len_contents by done. lia.
Qed.

(** ** Lemmas: writing an entry *)

(** Writing at [head] with a free slot appends to the contents. *)
Lemma append_spec b e :
  inv b → count b < capacity b → (count b = 0 ∨ size b + len (payload e) <= maxSize b) →
  ∃ es, go_store (entries b) (head b) e = Ok es ∧
  let b' := MkBuffer es (size b + len (payload e)) (maxSize b)
        (Z.rem (head b + 1) (capacity b)) (count b + 1) (capacity b) in
  inv b' ∧ contents b' = contents b ++ [e].
Proof.
  intros Hb Hroom Hfit. pose proof Hb as [].
  pose proof (tail_range b inv_cap0 inv_head0 inv_count0) as Ht.
  rewrite go_store_ok by lia. eexists. split; [reflexivity|].
  intros b'. assert (0 <= head b' < capacity b') as Hh.
  { simpl. rewrite Z.rem_mod_nonneg by lia. apply Z.mod_pos_bound. lia. }
  assert (∀ i, (tail b' + i) mod capacity b' = (tail b + i) mod capacity b) as Htail.
  { intros i. rewrite !ring_index by (simpl in *; lia). simpl.
    rewrite Z.rem_mod_nonneg by lia.
    replace ((head b + 1) mod capacity b - (count b + 1) + i)
      with ((head b + 1) mod capacity b + (i - count b - 1)) by lia.
    rewrite Zplus_mod_idemp_l. f_equal. lia. }
  assert (head b = (tail b + count b) mod capacity b) as Hhead.
  { rewrite ring_index by lia. rewrite Z.sub_add, Z.mod_small; lia. }
  assert (∀ i, 0 <= i < count b → slot b' i = slot b i) as Hold.
  { intros i Hi. unfold slot. rewrite Htail. simpl.
    rewrite list_lookup_insert_ne; [done|]. intros E.
    pose proof (Z.mod_pos_bound (tail b + i) (capacity b) inv_cap0).
    assert (count b = i); [|lia]. apply (mod_add_inj (capacity b) (tail b)); lia. }
  assert (slot b' (count b) = e) as Hnew.
  { unfold slot. rewrite Htail, <-Hhead. simpl.
    rewrite list_lookup_insert_eq by (unfold len in *; lia). done. }
  assert (contents b' = contents b ++ [e]) as Hc.
  { apply contents_eq; simpl; [|lia|].
    - by rewrite len_app, len_contents.
    - intros i Hi. destruct (Z.eq_dec i (count b)) as [->|Hne].
      + rewrite Hnew, lookup_app_r by (rewrite contents_length; lia).
        by rewrite contents_length, Nat.sub_diag.
      + rewrite Hold by lia. rewrite lookup_app_l by (rewrite contents_length; lia).
        by rewrite lookup_contents by (auto; lia). }
  split; [|done]. split; simpl; try done; try lia.
  - by rewrite len_insert.
  - rewrite Hc, total_app. simpl. lia.
Qed.

Lemma store_entry_spec b e :
  inv b → (count b = 0 ∨ size b + len (payload e) <= maxSize b) →
  ∃ b', store_entry b e = Ok b' ∧ inv b' ∧
    contents b' = (if capacity b <=? len (contents b) then drop 1 (contents b) else contents b) ++ [e] ∧
    capacity b' = capacity b ∧ maxSize b' = maxSize b.
Proof.
  intros Hb Hfit. pose proof Hb as []. unfold store_entry. rewrite (len_contents b Hb).
  destruct (Z.leb_spec (capacity b) (count b)).
  - destruct (evictOldest_spec b Hb ltac:(lia)) as (b1 & -> & Hb1 & Hc1 & Hn & Hh & Hcap & Hmax).
    destruct (append_spec b1 e Hb1) as (es & Hes & Hinv & Hcs); [lia| |].
    { right. rewrite Hmax. rewrite (inv_size b1 Hb1), Hc1.
      rewrite inv_size0, total_contents in Hfit by (auto; lia).
      pose proof (len_nonneg (payload (slot b 0))). lia. }
    cbn [mbind res_bind]. rewrite Hes. cbn [mbind res_bind].
    eexists. split; [reflexivity|]. simpl in *. rewrite Hcs, Hc1. auto.
  - destruct (append_spec b e Hb) as (es & Hes & Hinv & Hcs); [lia|done|].
    cbn [mbind res_bind]. rewrite Hes. cbn [mbind res_bind].
    eexists. split; [reflexivity|]. simpl in *. rewrite Hcs. auto.
Qed.

(** [Store] terminates, does not panic, and refines [qstore]. *)
Lemma Store_spec b s p :
  inv b →
  ∃ b', Store b s p = Some (Ok b') ∧ inv b' ∧
    contents b' = qstore (maxSize b) (capacity b) (contents b) (Entry s p) ∧
    capacity b' = capacity b ∧ maxSize b' = maxSize b.
Proof.
  intros Hb. unfold Store.
  destruct (evict_loop_spec (Z.to_nat (count b)) b (len p) Hb ltac:(done))
    as (b1 & -> & Hb1 & Hc1 & Hcap1 & Hmax1 & Hfit).
  destruct (store_entry_spec b1 (Entry s p) Hb1 Hfit) as (b2 & -> & Hb2 & Hc2 & Hcap2 & Hmax2).
  exists b2. split_and!; auto; try congruence.
  rewrite Hc2, Hc1, Hcap1. done.
Qed.

(** ** Lemmas: reading *)

Lemma replay_loop_spec b n i k :
  inv b → 0 <= i → i + Z.of_nat k = count b →
  replay_loop b n (tail b) i k = Ok (qreplay (drop (Z.to_nat i) (contents b)) n).
Proof.
  intros Hb. revert i. pose proof Hb as [].
  pose proof (tail_range b inv_cap0 inv_head0 inv_count0) as Ht.
  induction k as [|k IH]; intros i Hi Hk; simpl.
  - rewrite drop_ge; [done|]. rewrite contents_length. lia.
  - rewrite Z.rem_mod_nonneg by lia. rewrite go_index_slot by lia.
    cbn [mbind res_bind]. rewrite IH by lia. cbn [mbind res_bind].
    rewrite (drop_S (contents b) (slot b i) (Z.to_nat i)) by (apply lookup_contents; [done|lia]).
    replace (S (Z.to_nat i)) with (Z.to_nat (i + 1)) by lia.
    unfold qreplay. rewrite filter_cons.
    destruct (Z.ltb_spec n (seq (slot b i))); case_decide; done || lia.
Qed.

Lemma ReplaySince_spec b n : inv b → ReplaySince b n = Ok (qreplay (contents b) n).
Proof.
  intros Hb. pose proof Hb as []. unfold ReplaySince.
  destruct (Z.eqb_spec (count b) 0) as [H0|H0].
  - assert (contents b = []) as ->; [|done]. apply len_zero. by rewrite len_contents.
  - rewrite replay_loop_spec by (auto; lia). by rewrite drop_0.
Qed.

Lemma OldestSeq_spec b : inv b → OldestSeq b = Ok (from_option seq 0 (list.head (contents b))).
Proof.
  intros Hb. pose proof Hb as []. unfold OldestSeq.
  destruct (Z.eqb_spec (count b) 0) as [H0|H0].
  - assert (contents b = []) as ->; [|done]. apply len_zero. by rewrite len_contents.
  - rewrite contents_hd by (auto; lia). simpl.
    pose proof (tail_range b inv_cap0 inv_head0 inv_count0).
    pose proof (go_index_slot b inv_cap0 0 inv_slots0 ltac:(lia)) as Hs.
    rewrite Z.add_0_r, Z.mod_small in Hs by lia. by rewrite Hs.
Qed.

Lemma NewestSeq_spec b : inv b → NewestSeq b = Ok (from_option seq 0 (last (contents b))).
Proof.
  intros Hb. pose proof Hb as []. unfold NewestSeq.
  destruct (Z.eqb_spec (count b) 0) as [H0|H0].
  - assert (contents b = []) as ->; [|done]. apply len_zero. by rewrite len_contents.
  - rewrite newest_index, go_index_slot by lia. cbn [mbind res_bind].
    rewrite last_lookup, contents_length.
    replace (pred (Z.to_nat (count b))) with (Z.to_nat (count b - 1)) by lia.
    by rewrite lookup_contents by (auto; lia).
Qed.

Lemma slots_for_range n : 256 <= slots_for n <= 2 ^ 20.
Proof. unfold slots_for. change (Z.shiftl 1 20) with (2 ^ 20). lia. Qed.

Lemma New_spec n :
  inv (New n) ∧ contents (New n) = [] ∧ capacity (New n) = slots_for (maxSize (New n)) ∧
  maxSize (New n) = (if n <=? 0 then DefaultBufferSize else n).
Proof.
  unfold New. set (m := if n <=? 0 then _ else _). pose proof (slots_for_range m) as Hs.
  split_and!; try done.
  split; simpl; try lia; try done.
  - rewrite len_replicate. lia.
  - unfold m, DefaultBufferSize. destruct (Z.leb_spec n 0); lia.
  - left. unfold m, DefaultBufferSize. destruct (Z.leb_spec n 0); lia.
Qed.

#[export] Hint Resolve Store_spec ReplaySince_spec : goet.

(** ** Sequences of stores *)

Fixpoint Stores (b : Buffer) (es : list entry) : option (res Buffer) :=
  match es with
  | [] => Some (Ok b)
  | Entry s p :: es' =>
    match Store b s p with
    | Some (Ok b') => Stores b' es'
    | r => r
    end
  end.

Definition qstores (mx cap : Z) (q : list entry) (es : list entry) : list entry :=
  fold_left (qstore mx cap) es q.

Lemma Stores_spec b es :
  inv b →
  ∃ b', Stores b es = Some (Ok b') ∧ inv b' ∧
    contents b' = qstores (maxSize b) (capacity b) (contents b) es ∧
    capacity b' = capacity b ∧ maxSize b' = maxSize b.
Proof.
  revert b. induction es as [|[s p] es IH]; intros b Hb; simpl; [by exists b|].
  destruct (Store_spec b s p Hb) as (b1 & -> & Hb1 & Hc1 & Hcap1 & Hmax1).
  destruct (IH b1 Hb1) as (b2 & -> & Hb2 & Hc2 & Hcap2 & Hmax2).
  exists b2. split_and!; auto; congruence.
Qed.

(** ** The queue as a suffix of its history *)

Lemma qevict_suffix mx n q : qevict mx n q `suffix_of` q.
Proof.
  induction q as [|e q IH]; simpl; [done|].
  destruct (_ <? _); [|done]. by apply suffix_cons_r.
Qed.

Lemma drop_suffix {A} k (l : list A) : drop k l `suffix_of` l.
Proof. exists (take k l). by rewrite take_drop. Qed.

Lemma qstore_suffix mx cap q h e :
  q `suffix_of` h → qstore mx cap q e `suffix_of` h ++ [e].
Proof.
  intros Hq. unfold qstore. apply suffix_app.
  transitivity (qevict mx (len (payload e)) q).
  - destruct (_ <=? _); [apply drop_suffix|done].
  - transitivity q; [apply qevict_suffix|done].
Qed.

(** A suffix that still fits beside the new payload is never evicted. *)
Lemma qevict_keeps mx n q r :
  r `suffix_of` q → total r + n <= mx → r `suffix_of` qevict mx n q.
Proof.
  intros [k ->] Hr. induction k as [|e k IH]; simpl.
  - destruct r as [|e r]; [done|]. simpl in *. by rewrite (proj2 (Z.ltb_ge _ _)) by lia.
  - destruct (_ <? _); [done|]. exists (e :: k). done.
Qed.

Lemma suffix_drop_1 {A} (r q : list A) :
  r `suffix_of` q → len r < len q → r `suffix_of` drop 1 q.
Proof. intros [[|a k] ->] Hl; [simpl in Hl; lia|]. exists k. done. Qed.

Lemma qstore_keeps mx cap q r e :
  r `suffix_of` q → total r + len (payload e) <= mx → len r + 1 <= cap →
  r ++ [e] `suffix_of` qstore mx cap q e.
Proof.
  intros Hr Ht Hl. unfold qstore. apply suffix_app.
  pose proof (qevict_keeps mx (len (payload e)) q r Hr Ht) as Hk.
  destruct (Z.leb_spec cap (len (qevict mx (len (payload e)) q))); [|done].
  apply suffix_drop_1; [done|lia].
Qed.

(** The suffixes of the history that are retained: those that fit both
    bounds, and the newest entry in any case. *)
Lemma qstores_retains mx cap h r :
  0 < cap → r `suffix_of` h → (total r <= mx ∧ len r <= cap) ∨ len r <= 1 →
  r `suffix_of` qstores mx cap [] h.
Proof.
  intros Hcap. revert r. induction h as [|e h IH] using rev_ind; intros r Hr Hb.
  - apply suffix_nil_inv in Hr as ->. done.
  - unfold qstores. rewrite fold_left_app. simpl. fold (qstores mx cap [] h).
    destruct r as [|e' r _] using rev_ind; [apply suffix_nil|].
    assert (r `suffix_of` h ∧ e' = e) as [Hr' ->].
    { destruct Hr as [k Hk]. rewrite app_assoc in Hk. apply app_inj_tail in Hk as [-> ->].
      split; [by exists k|done]. }
    rewrite total_app, len_app, len_cons, len_nil in Hb. simpl in Hb.
    pose proof (len_nonneg r). pose proof (len_nonneg (payload e)).
    destruct (decide (r = [])) as [->|Hne].
    { unfold qstore. apply suffix_app, suffix_nil. }
    pose proof (len_pos r Hne). apply qstore_keeps; [apply IH; [done|left]|..]; lia.
Qed.

Lemma qstores_suffix mx cap h : qstores mx cap [] h `suffix_of` h.
Proof.
  induction h as [|e h IH] using rev_ind; [done|].
  unfold qstores. rewrite fold_left_app. simpl. by apply qstore_suffix.
Qed.

Lemma suffix_eq_drop {A} (q h : list A) :
  q `suffix_of` h → q = drop (List.length h - List.length q) h.
Proof.
  intros [k ->]. rewrite length_app.
  replace (_ - _)%nat with (List.length k) by lia. by rewrite drop_app_length.
Qed.

(** ** Consecutive sequence numbers *)

(** The entries a sender stores: payload [i] has sequence number [s + i + 1]. *)
Fixpoint numbered (s : Z) (ps : list bytes) : list entry :=
  match ps with
  | [] => []
  | p :: ps' => Entry (s + 1) p :: numbered (s + 1) ps'
  end.

Lemma numbered_length s ps : List.length (numbered s ps) = List.length ps.
Proof. revert s. induction ps as [|p ps IH]; intros s; simpl; [done|]. by rewrite IH. Qed.

Lemma numbered_drop s ps k :
  drop k (numbered s ps) = numbered (s + Z.of_nat k) (drop k ps).
Proof.
  revert s ps. induction k as [|k IH]; intros s ps.
  - rewrite Z.add_0_r. done.
  - destruct ps as [|p ps]; [done|]. simpl. rewrite IH. f_equal. lia.
Qed.

Lemma numbered_app s ps qs :
  numbered s (ps ++ qs) = numbered s ps ++ numbered (s + len ps) qs.
Proof.
  revert s. induction ps as [|p ps IH]; intros s; simpl.
  - by rewrite len_nil, Z.add_0_r.
  - rewrite IH, len_cons. do 3 f_equal. lia.
Qed.

Lemma qreplay_numbered s ps n :
  qreplay (numbered s ps) n = numbered (Z.max s n) (drop (Z.to_nat (n - s)) ps).
Proof.
  unfold qreplay. revert s. induction ps as [|p ps IH]; intros s; [by rewrite drop_nil|].
  cbn [numbered]. rewrite filter_cons. simpl. rewrite IH. case_decide as Hd.
  - replace (Z.to_nat (n - s)) with 0%nat by lia.
    replace (Z.to_nat (n - (s + 1))) with 0%nat by lia. rewrite !drop_0. simpl.
    by rewrite !Z.max_l by lia.
  - replace (Z.to_nat (n - s)) with (S (Z.to_nat (n - (s + 1)))) by lia. simpl.
    f_equal. lia.
Qed.

(** What a sender that stores consecutive sequence numbers has in its buffer:
    the payloads from the [k]-th on. *)
Lemma Stores_numbered n ps :
  ∃ b k, Stores (New n) (numbered 0 ps) = Some (Ok b) ∧ inv b ∧
    contents b = numbered (Z.of_nat k) (drop k ps) ∧
    (k ≤ List.length ps)%nat ∧ maxSize b = maxSize (New n) ∧ capacity b = capacity (New n).
Proof.
  destruct (New_spec n) as (Hinv & Hnil & _).
  destruct (Stores_spec (New n) (numbered 0 ps) Hinv) as (b & Hb & Hi & Hc & Hcap & Hmax).
  rewrite Hnil in Hc. pose proof (qstores_suffix (maxSize (New n)) (capacity (New n)) (numbered 0 ps)) as Hs.
  rewrite <-Hc in Hs. pose proof (suffix_eq_drop _ _ Hs) as Hd. rewrite numbered_drop in Hd.
  exists b, (List.length (numbered 0 ps) - List.length (contents b))%nat.
  split_and!; auto. rewrite numbered_length. lia.
Qed.

Lemma qreplay_tail ps k a :
  qreplay (numbered (Z.of_nat k) (drop k ps)) a =
    numbered (Z.max (Z.of_nat k) a) (drop (Z.to_nat (Z.max (Z.of_nat k) a)) ps).
Proof. rewrite qreplay_numbered, drop_drop. f_equal. f_equal. lia. Qed.

(** ** Properties *)

(** C12: The ring implements a queue.  For every buffer size and every sequence
    of stores, [Store] terminates without a panic, and the three queries
    answer as the queue specification does: [ReplaySince] the entries with a
    larger sequence number, oldest first, [OldestSeq] and [NewestSeq] the
    sequence numbers at its ends (0 when it is empty). *)
Theorem buffer_refines_queue n es :
  ∃ b, Stores (New n) es = Some (Ok b) ∧
  let q := qstores (maxSize (New n)) (capacity (New n)) [] es in
  (∀ k, ReplaySince b k = Ok (qreplay q k)) ∧
  OldestSeq b = Ok (from_option seq 0 (list.head q)) ∧
  NewestSeq b = Ok (from_option seq 0 (last q)).
Proof.
  destruct (New_spec n) as (Hinv & Hnil & _).
  destruct (Stores_spec (New n) es Hinv) as (b & Hb & Hi & Hc & _).
  rewrite Hnil in Hc. exists b. rewrite <-Hc.
  split; [done|]. intros q. split_and!; [|by apply OldestSeq_spec|by apply NewestSeq_spec].
  intros k. by apply ReplaySince_spec.
Qed.

(** C13: Replay after consecutive stores.  When payloads are stored under the
    sequence numbers 1, 2, ... there is a horizon [k] such that [ReplaySince a]
    gives exactly the payloads numbered above both [a] and [k], in order and
    with their numbers: nothing is missing for a peer that has received at
    least [k].  The newest payload is always kept, and so is every suffix of
    the history that fits the byte and slot limits. *)
Theorem replay_after_stores n ps :
  ∃ b k, Stores (New n) (numbered 0 ps) = Some (Ok b) ∧
  (∀ a, ReplaySince b a =
    Ok (numbered (Z.max (Z.of_nat k) a) (drop (Z.to_nat (Z.max (Z.of_nat k) a)) ps))) ∧
  (k = 0%nat ∨ k < List.length ps)%nat ∧
  (∀ j, total (numbered (Z.of_nat j) (drop j ps)) <= maxSize (New n) →
        len (drop j ps) <= capacity (New n) → (k ≤ j)%nat ∨ (List.length ps ≤ j)%nat).
Proof.
  destruct (New_spec n) as (Hinv & Hnil & _).
  destruct (Stores_spec (New n) (numbered 0 ps) Hinv) as (b0 & Hb0 & Hi0 & Hc0 & Hcap0 & Hmax0).
  destruct (Stores_numbered n ps) as (b & k & Hb & Hi & Hc & Hk & Hmax & Hcap).
  assert (b0 = b) as -> by congruence. rewrite Hnil, Hc in Hc0.
  assert (∀ j, (j ≤ List.length ps)%nat →
    (total (numbered (Z.of_nat j) (drop j ps)) <= maxSize (New n) ∧
     len (numbered (Z.of_nat j) (drop j ps)) <= capacity (New n)) ∨
     len (numbered (Z.of_nat j) (drop j ps)) <= 1 → (k ≤ j)%nat) as Hkeep.
  { intros j Hj Hfit. destruct Hinv.
    assert (numbered (Z.of_nat j) (drop j ps) `suffix_of` numbered (Z.of_nat k) (drop k ps)) as Hsuf.
    { rewrite Hc0. apply qstores_retains; [done| |done].
      change (Z.of_nat j) with (0 + Z.of_nat j). rewrite <-numbered_drop. apply drop_suffix. }
    apply suffix_length in Hsuf. rewrite !numbered_length, !length_drop in Hsuf. lia. }
  exists b, k. split_and!; [done| | |].
  - intros a. by rewrite ReplaySince_spec, Hc, qreplay_tail.
  - destruct ps as [|p ps]; [left; simpl in Hk; lia|]. right.
    enough (k ≤ List.length ps)%nat by (simpl; lia).
    apply Hkeep; [simpl; lia|]. right. unfold len. rewrite numbered_length, length_drop. simpl. lia.
  - intros j Ht Hl. destruct (decide (j ≤ List.length ps)%nat); [|right; lia].
    left. apply Hkeep; [done|]. left. split; [done|]. unfold len in *. by rewrite numbered_length.
Qed.

(** Bounds.  After any stores the ring holds at most [capacity] entries
    (between 256 and 2^20), [size] is the number of payload bytes held, and it
    exceeds [maxSize] only when a single entry is held that is larger by
    itself.  With payloads and a limit below 2^62 bytes the sums computed by
    [Store] stay within a 64-bit [int]. *)
Theorem store_arithmetic_in_range n es :
  Forall (λ e, len (payload e) < 2 ^ 62) es → n < 2 ^ 62 →
  ∃ b, Stores (New n) es = Some (Ok b) ∧
  256 <= capacity b <= 2 ^ 20 ∧ 0 <= count b <= capacity b ∧ len (entries b) = capacity b ∧
  size b = total (contents b) ∧ (size b <= maxSize b ∨ count b = 1) ∧
  (∀ p : bytes, len p < 2 ^ 62 → is_int64 (size b + len p)) ∧
  is_int64 (head b + 1) ∧ is_int64 (head b - count b + capacity b).
Proof.
  intros Hes Hn. destruct (New_spec n) as (Hinv & Hnil & Hcapn & Hmaxn).
  destruct (Stores_spec (New n) es Hinv) as (b & Hb & Hi & Hc & Hcap & Hmax).
  exists b. pose proof (slots_for_range (maxSize (New n))). rewrite Hnil in Hc.
  assert (0 <= size b < 2 ^ 62) as Hsize.
  { split; [rewrite (inv_size b Hi); apply total_nonneg|].
    destruct (inv_bytes b Hi) as [Hle|H1].
    - rewrite Hmax, Hmaxn in Hle. unfold DefaultBufferSize in Hle.
      destruct (Z.leb_spec n 0); lia.
    - rewrite (inv_size b Hi).
      assert (Forall (λ e, len (payload e) < 2 ^ 62) (contents b)) as Hf.
      { pose proof (qstores_suffix (maxSize (New n)) (capacity (New n)) es) as [k Hk].
        rewrite <-Hc in Hk. rewrite Hk in Hes. by apply Forall_app in Hes as [_ ?]. }
      pose proof (len_contents b Hi) as Hl. rewrite H1 in Hl.
      destruct (contents b) as [|e [|e' q]]; [simpl; lia| |].
      + apply Forall_cons in Hf as [Hf _]. simpl. lia.
      + rewrite !len_cons in Hl. pose proof (len_nonneg q). lia. }
  pose proof Hi as []. unfold is_int64. split_and!; try done; try lia.
  intros p Hp. pose proof (len_nonneg p). lia.
Qed.

Lemma store_arithmetic_in_range_witness :
  let es := [Entry 1 [x61]; Entry 2 [x62; x63]] in
  ∃ b, Stores (New 4096) es = Some (Ok b) ∧
  256 <= capacity b <= 2 ^ 20 ∧ 0 <= count b <= capacity b ∧ len (entries b) = capacity b ∧
  size b = total (contents b) ∧ (size b <= maxSize b ∨ count b = 1) ∧
  (∀ p : bytes, len p < 2 ^ 62 → is_int64 (size b + len p)) ∧
  is_int64 (head b + 1) ∧ is_int64 (head b - count b + capacity b).
Proof.
  apply (store_arithmetic_in_range 4096 [Entry 1 [x61]; Entry 2 [x62; x63]]); [|done].
  by repeat constructor.
Defined.

End catchup.
