(* ===== verification/Coalesce.v ===== *)
(** * The write coalescer ([internal/coalesce])

    Accumulates the bytes of small writes and releases them as one batch: at
    a threshold, at a deadline counted from the first byte of the batch, or
    on demand.  The specification is a batch with the time of its first byte;
    the proofs show that the coalescer refines it, that no byte is lost or
    reordered, and that the batches of a caller that flushes when [Add] says
    so always fit a [Data] message. *)

From S2P Require Import Prelude GoIO Protocol.

Module coalesce.

Definition Delay : Z := 2 * Millisecond.
Definition Threshold : Z := 32 * 1024.

Record Coalescer : Type := MkCoalescer {
  buf : bytes;
  tm : timer;
  armed : bool;
}.

(** [New] at time [now]; [None] if it blocks on the drained channel. *)
Definition New (now : Z) : option Coalescer :=
  let '(t, stopped) := timer_Stop (NewTimer now 0) in
  if (stopped : bool) then Some (MkCoalescer [] t false)
  else (λ t, MkCoalescer [] t false) <$> timer_recv t now.

Definition Add (c : Coalescer) (now : Z) (data : bytes) : Coalescer * bool :=
  if len data =? 0 then (c, false)
  else
    let c := if (len (buf c) =? 0) && negb (armed c)
             then MkCoalescer (buf c) (timer_Reset (tm c) now Delay) true else c in
    let c := MkCoalescer (buf c ++ data) (tm c) (armed c) in
    (c, Threshold <=? len (buf c)).

(** [Flush]: [None] is the nil slice.  The inner [select] drains a channel
    that holds a value, if any. *)
Definition Flush (c : Coalescer) (now : Z) : Coalescer * option bytes :=
  if len (buf c) =? 0 then (c, None)
  else
    let c := if armed c then
               let '(t, stopped) := timer_Stop (tm c) in
               let t := if (stopped : bool) then t else default t (timer_recv t now) in
               MkCoalescer (buf c) t false
             else c in
    (MkCoalescer [] (tm c) (armed c), Some (buf c)).

(** [Timer]: the channel, or nil when no deadline is active. *)
Definition Timer (c : Coalescer) : option timer :=
  if armed c then Some (tm c) else None.

(** The [case <-c.Timer():] of a select, at time [now]: ready or not, and the
    coalescer after the receive. *)
Definition recv_Timer (c : Coalescer) (now : Z) : option Coalescer :=
  t ← Timer c; t' ← timer_recv t now; Some (MkCoalescer (buf c) t' (armed c)).

Definition Stop (c : Coalescer) : Coalescer :=
  let '(t, _) := timer_Stop (tm c) in MkCoalescer (buf c) t false.

(** ** Runs *)

(** What the select loops do with a coalescer: add a chunk, flush because
    [Add] said so or at a boundary, and flush when the timer case fires. *)
Inductive op : Type :=
| OpAdd (now : Z) (data : bytes)
| OpFlush (now : Z)
| OpTimer (now : Z).

Inductive event : Type :=
| Added (full : bool)
| Flushed (out : option bytes).

Definition exec (c : Coalescer) (o : op) : option (Coalescer * event) :=
  match o with
  | OpAdd now data => let '(c', full) := Add c now data in Some (c', Added full)
  | OpFlush now => let '(c', out) := Flush c now in Some (c', Flushed out)
  | OpTimer now =>
    c' ← recv_Timer c now; let '(c'', out) := Flush c' now in Some (c'', Flushed out)
  end.

Fixpoint execs {S} (step : S → op → option (S * event)) (s : S) (ops : list op) :
    option (S * list event) :=
  match ops with
  | [] => Some (s, [])
  | o :: ops' => '(s', e) ← step s o; '(s'', es) ← execs step s' ops'; Some (s'', e :: es)
  end.

(** ** The specification: a batch and the time of its first byte *)

Record batch : Type := MkBatch { bytes_of : bytes; first : Z }.

Definition batch_empty : batch := MkBatch [] 0.

Definition spec (b : batch) (o : op) : option (batch * event) :=
  match o with
  | OpAdd now data =>
    let b' := MkBatch (bytes_of b ++ data)
                (if bool_decide (bytes_of b = []) then now else first b) in
    if bool_decide (data = []) then Some (b, Added false)
    else Some (b', Added (Threshold <=? len (bytes_of b')))
  | OpFlush _ =>
    if bool_decide (bytes_of b = []) then Some (b, Flushed None)
    else Some (batch_empty, Flushed (Some (bytes_of b)))
  | OpTimer now =>
    if bool_decide (bytes_of b ≠ [] ∧ first b + Delay <= now)
    then Some (batch_empty, Flushed (Some (bytes_of b))) else None
  end.

(** The coalescer that represents a batch: armed exactly when it is not
    empty, with the deadline of its first byte. *)
Definition represents (c : Coalescer) (b : batch) : Prop :=
  buf c = bytes_of b ∧
  armed c = bool_decide (bytes_of b ≠ []) ∧
  when (tm c) = if bool_decide (bytes_of b = []) then None else Some (first b + Delay).

(** ** Lemmas *)

Lemma New_represents now : ∃ c, New now = Some c ∧ represents c batch_empty.
Proof. by eexists. Qed.

Lemma len_eqb_nil {A} `{EqDecision A} (l : list A) : (len l =? 0) = bool_decide (l = []).
Proof.
  destruct l as [|a l]; [done|]. rewrite bool_decide_eq_false_2 by done.
  apply Z.eqb_neq. rewrite len_cons. pose proof (len_nonneg l). lia.
Qed.

Lemma Flush_spec c b now :
  buf c = bytes_of b → armed c = bool_decide (bytes_of b ≠ []) →
  (bytes_of b = [] → when (tm c) = None) →
  ∃ c', Flush c now = (c', if bool_decide (bytes_of b = []) then None else Some (bytes_of b)) ∧
    represents c' batch_empty.
Proof.
  intros Hb Ha Hw. unfold Flush. rewrite len_eqb_nil, Hb, Ha.
  destruct (decide (bytes_of b = [])) as [E|E].
  - rewrite bool_decide_eq_true_2 by done. exists c. split; [done|].
    unfold represents. rewrite Hb, Ha, Hw, E by done. done.
  - rewrite bool_decide_eq_false_2, (bool_decide_eq_true_2 (_ ≠ _)) by done.
    simpl. destruct (tm c) as [[d|]]; by eexists.
Qed.

(** The refinement, one operation at a time: same event, related states, and
    the timer case is ready in the same situations. *)
Lemma exec_refines c b o :
  represents c b →
  match exec c o, spec b o with
  | Some (c', e), Some (b', e') => e = e' ∧ represents c' b'
  | None, None => True
  | _, _ => False
  end.
Proof.
  intros Hrep. destruct c as [cb ct ca], b as [bb bf].
  pose proof Hrep as (Hb & Ha & Hw). simpl in Hb, Ha, Hw. subst cb ca.
  destruct o as [now data|now|now]; cbn [exec spec bytes_of first].
  - unfold Add. rewrite !len_eqb_nil.
    destruct (decide (data = [])) as [Hd|Hd].
    { by rewrite !(bool_decide_eq_true_2 (data = [])). }
    rewrite !(bool_decide_eq_false_2 (data = [])) by done. cbn [buf tm armed].
    destruct (decide (bb = [])) as [->|E].
    + simpl. split; [done|]. unfold represents. simpl.
      by rewrite (bool_decide_eq_false_2 (data = [])), (bool_decide_eq_true_2 (data ≠ [])).
    + rewrite (bool_decide_eq_false_2 (bb = [])), (bool_decide_eq_true_2 (bb ≠ [])) in * by done.
      simpl. split; [done|]. unfold represents. simpl.
      assert (bb ++ data ≠ []) by (destruct bb; done).
      by rewrite bool_decide_eq_true_2, bool_decide_eq_false_2.
  - destruct (Flush_spec (MkCoalescer bb ct (bool_decide (bb ≠ []))) (MkBatch bb bf) now)
      as (c' & -> & Hr); [done|done|by simpl; intros ->|].
    simpl. destruct (decide (bb = [])) as [->|E].
    + simpl. split; [done|]. destruct Hr as (?&?&?). by split_and!.
    + by rewrite !bool_decide_eq_false_2.
  - unfold recv_Timer, Timer. cbn [armed tm buf]. destruct (decide (bb = [])) as [->|E].
    + done.
    + rewrite (bool_decide_eq_true_2 (bb ≠ [])) by done. cbn [mbind option_bind].
      unfold timer_recv, timer_ready. rewrite Hw, bool_decide_eq_false_2 by done.
      destruct (Z.leb_spec (bf + Delay) now).
      * rewrite bool_decide_eq_true_2 by done. cbn [mbind option_bind].
        destruct (Flush_spec (MkCoalescer bb (MkTimer None) true) (MkBatch bb bf) now)
          as (c' & -> & Hr); simpl; [done|by rewrite bool_decide_eq_true_2|done|].
        by rewrite bool_decide_eq_false_2.
      * simpl. by rewrite bool_decide_eq_false_2 by lia.
Qed.

Lemma execs_refines c b ops :
  represents c b →
  match execs exec c ops, execs spec b ops with
  | Some (c', es), Some (b', es') => es = es' ∧ represents c' b'
  | None, None => True
  | _, _ => False
  end.
Proof.
  revert c b. induction ops as [|o ops IH]; intros c b Hr; [done|].
  cbn [execs]. pose proof (exec_refines c b o Hr) as H1.
  destruct (exec c o) as [[c1 e1]|], (spec b o) as [[b1 e1']|]; try done.
  destruct H1 as [-> Hr1]. cbn [mbind option_bind]. specialize (IH c1 b1 Hr1).
  destruct (execs exec c1 ops) as [[c2 es]|], (execs spec b1 ops) as [[b2 es']|]; try done.
  by destruct IH as [-> ?].
Qed.

(** The bytes handed to [Add], and those handed out by [Flush]. *)
Definition added (ops : list op) : bytes :=
  List.concat ((λ o, match o with OpAdd _ d => d | _ => [] end) <$> ops).
Definition flushed (es : list event) : bytes :=
  List.concat ((λ e, match e with Flushed (Some d) => d | _ => [] end) <$> es).

Lemma added_app ops ops' : added (ops ++ ops') = added ops ++ added ops'.
Proof. unfold added. by rewrite fmap_app, concat_app. Qed.

Lemma flushed_app es es' : flushed (es ++ es') = flushed es ++ flushed es'.
Proof. unfold flushed. by rewrite fmap_app, concat_app. Qed.

Lemma added_one o : added [o] = match o with OpAdd _ d => d | _ => [] end.
Proof. unfold added. simpl. by rewrite app_nil_r. Qed.

Lemma flushed_one e : flushed [e] = match e with Flushed (Some d) => d | _ => [] end.
Proof. unfold flushed. simpl. by rewrite app_nil_r. Qed.

Lemma execs_snoc {S} (step : S → op → option (S * event)) s ops o s'' es :
  execs step s (ops ++ [o]) = Some (s'', es) →
  ∃ s' es' e, execs step s ops = Some (s', es') ∧ step s' o = Some (s'', e) ∧ es = es' ++ [e].
Proof.
  revert s es. induction ops as [|o' ops IH]; intros s es; simpl.
  - destruct (step s o) as [[s1 e]|] eqn:E; [|done]. intros [= <- <-]. by exists s, [], e.
  - destruct (step s o') as [[s1 e]|]; [|done]. simpl.
    destruct (execs step s1 (ops ++ [o])) as [[s2 es2]|] eqn:E; [|done]. intros [= <- <-].
    destruct (IH _ _ E) as (s' & es' & e' & -> & Hs & ->). by exists s', (e :: es'), e'.
Qed.

(** The bytes of the specification's batch, and the [Add] that started it. *)
Lemma spec_batch ops b es :
  execs spec batch_empty ops = Some (b, es) →
  flushed es ++ bytes_of b = added ops ∧
  (bytes_of b ≠ [] → ∃ pre t d post, ops = pre ++ OpAdd t d :: post ∧ d ≠ [] ∧
     first b = t ∧ bytes_of b = d ++ added post).
Proof.
  revert b es. induction ops as [|o ops IH] using rev_ind; intros b es Hx.
  { simpl in Hx. injection Hx as <- <-. done. }
  apply execs_snoc in Hx as (b1 & es1 & e & Hx & Hs & ->).
  destruct (IH _ _ Hx) as [Hcons Hfirst].
  rewrite flushed_app, added_app, <-Hcons, added_one, flushed_one.
  destruct o as [now data|now|now]; simpl in Hs.
  - case_bool_decide as Hd; injection Hs as <- <-; rewrite !app_nil_r.
    + subst data. rewrite app_nil_r. split; [done|].
      intros (pre & t & d & post & -> & ?)%Hfirst.
      exists pre, t, d, (post ++ [OpAdd now []]). rewrite <-app_assoc.
      by rewrite added_app, added_one, app_nil_r.
    + rewrite <-app_assoc. split; [done|]. intros _.
      destruct (decide (bytes_of b1 = [])) as [E|E]; simpl.
      * exists ops, now, data, []. rewrite E, app_nil_r. done.
      * destruct (Hfirst E) as (pre & t & d & post & -> & Hne & Ht & Hb).
        exists pre, t, d, (post ++ [OpAdd now data]). rewrite <-app_assoc.
        by rewrite bool_decide_eq_false_2, added_app, added_one, Hb, <-app_assoc by done.
  - case_bool_decide as Hd; injection Hs as <- <-; rewrite !app_nil_r; [|done].
    by rewrite Hd, !app_nil_r.
  - case_bool_decide as Hd; [|done]. injection Hs as <- <-. by rewrite !app_nil_r.
Qed.

(** ** The loops' discipline: flush when [Add] says so *)

(** [if coal.Add(data) { flush }], and the flushes; the batches released. *)
Definition use (c : Coalescer) (o : op) : option (Coalescer * list bytes) :=
  match o with
  | OpAdd now data =>
    let '(c1, full) := Add c now data in
    if (full : bool) then let '(c2, out) := Flush c1 now in Some (c2, option_list out)
    else Some (c1, [])
  | OpFlush now => let '(c', out) := Flush c now in Some (c', option_list out)
  | OpTimer now =>
    c' ← recv_Timer c now; let '(c'', out) := Flush c' now in Some (c'', option_list out)
  end.

Fixpoint uses (c : Coalescer) (ops : list op) : option (Coalescer * list bytes) :=
  match ops with
  | [] => Some (c, [])
  | o :: ops' => '(c', b) ← use c o; '(c'', bs) ← uses c' ops'; Some (c'', b ++ bs)
  end.

Lemma Flush_out c now c' out :
  Flush c now = (c', out) →
  buf c' = [] ∧ (out = None ∧ buf c = [] ∨ out = Some (buf c) ∧ 0 < len (buf c)).
Proof.
  unfold Flush. destruct (Z.eqb_spec (len (buf c)) 0) as [E|E]; intros [= <- <-].
  - apply len_zero in E. auto.
  - split; [done|]. right. split; [by destruct (armed c), (tm c) as [[]]|].
    pose proof (len_nonneg (buf c)). lia.
Qed.

Lemma Add_out c now data c' full :
  Add c now data = (c', full) →
  buf c' = buf c ++ data ∧ (full = false → len (buf c) < Threshold → len (buf c') < Threshold).
Proof.
  unfold Add. destruct (Z.eqb_spec (len data) 0) as [E|E].
  - intros [= <- <-]. apply len_zero in E as ->. by rewrite app_nil_r.
  - intros [= <- <-]. destruct (_ && _); simpl; (split; [done|]); intros Hf _;
      by apply Z.leb_gt in Hf.
Qed.

Lemma recv_Timer_buf c now c' : recv_Timer c now = Some c' → buf c' = buf c.
Proof.
  unfold recv_Timer, Timer. destruct (armed c); [|done]. cbn [mbind option_bind].
  destruct (timer_recv (tm c) now); [|done]. by intros [= <-].
Qed.

Lemma use_bounded c o c' bs m :
  len (buf c) < Threshold → 0 <= m →
  match o with OpAdd _ d => len d <= m | _ => True end →
  use c o = Some (c', bs) →
  len (buf c') < Threshold ∧ Forall (λ b, 0 < len b < Threshold + m) bs.
Proof.
  intros Hc Hm Ho. assert (0 < Threshold) by done.
  assert (∀ c1 now c2 out, len (buf c1) < Threshold + m → Flush c1 now = (c2, out) →
    len (buf c2) < Threshold ∧ Forall (λ b, 0 < len b < Threshold + m) (option_list out)) as HF.
  { intros c1 now c2 out Hl Hf. apply Flush_out in Hf as [-> [[-> _]|[-> Hp]]].
    - split; [done|constructor].
    - split; [done|]. repeat constructor; lia. }
  destruct o as [now data|now|now]; simpl.
  - destruct (Add c now data) as [c1 full] eqn:Ea. apply Add_out in Ea as [Hb Hnf].
    destruct full.
    + destruct (Flush c1 now) as [c2 out] eqn:Ef. intros [= <- <-].
      eapply HF; [|exact Ef]. rewrite Hb, len_app. lia.
    + intros [= <- <-]. split; [by apply Hnf|constructor].
  - destruct (Flush c now) as [c2 out] eqn:Ef. intros [= <- <-]. eapply HF; [|exact Ef]. lia.
  - destruct (recv_Timer c now) as [c1|] eqn:Er; [|done]. cbn [mbind option_bind].
    apply recv_Timer_buf in Er. destruct (Flush c1 now) as [c2 out] eqn:Ef. intros [= <- <-].
    eapply HF; [|exact Ef]. rewrite Er. lia.
Qed.

(** ** Properties *)

(** C30: The coalescer implements its contract.  Over every sequence of adds,
    flushes and timer events it answers as the batch specification does: the
    same [Add] results, the same flushed batches, and the timer case is ready
    exactly from 2 ms after the first byte of the batch, whatever was added
    later. *)
Theorem coalescer_refines now ops :
  ∃ c, New now = Some c ∧ snd <$> execs exec c ops = snd <$> execs spec batch_empty ops.
Proof.
  destruct (New_represents now) as (c & Hc & Hr). exists c. split; [done|].
  pose proof (execs_refines c batch_empty ops Hr).
  destruct (execs exec c ops) as [[]|], (execs spec batch_empty ops) as [[]|]; try done.
  simpl. by destruct H as [-> ?].
Qed.

(** Nothing is lost and nothing waits for ever.  In any run the batches
    handed out, followed by what is still buffered, are the bytes added, in
    order; and while bytes are buffered the timer is armed with the deadline
    of the [Add] that started the batch. *)
Theorem coalescer_conserves now ops c0 c es :
  New now = Some c0 → execs exec c0 ops = Some (c, es) →
  flushed es ++ buf c = added ops ∧
  (buf c = [] → Timer c = None) ∧
  (buf c ≠ [] → ∃ pre t d post, ops = pre ++ OpAdd t d :: post ∧ d ≠ [] ∧
     buf c = d ++ added post ∧ Timer c = Some (MkTimer (Some (t + Delay)))).
Proof.
  intros Hn Hx. destruct (New_represents now) as (c0' & Hc & Hr). assert (c0' = c0) as -> by congruence.
  pose proof (execs_refines c0 batch_empty ops Hr) as Href. rewrite Hx in Href.
  destruct (execs spec batch_empty ops) as [[b es']|] eqn:Eb; [|done].
  destruct Href as [<- (Hb & Ha & Hw)]. destruct (spec_batch _ _ _ Eb) as [Hcons Hfirst].
  unfold Timer. rewrite Hb, Ha. split_and!; [done| |].
  - intros ->. done.
  - intros Hne. destruct (Hfirst Hne) as (pre & t & d & post & -> & Hd & Ht & Hbs).
    exists pre, t, d, post. split_and!; try done.
    rewrite bool_decide_eq_true_2 by done. rewrite bool_decide_eq_false_2, Ht in Hw by done.
    destruct (tm c) as [w]. simpl in Hw. by subst w.
Qed.

Lemma coalescer_conserves_witness :
  let ops := [OpAdd 10 [x61]; OpAdd 20 [x62]; OpTimer 2000010; OpAdd 3000000 [x63]] in
  let c := MkCoalescer [x63] (MkTimer (Some 5000000)) true in
  let es := [Added false; Added false; Flushed (Some [x61; x62]); Added false] in
  flushed es ++ buf c = added ops ∧
  (buf c = [] → Timer c = None) ∧
  (buf c ≠ [] → ∃ pre t d post, ops = pre ++ OpAdd t d :: post ∧ d ≠ [] ∧
     buf c = d ++ added post ∧ Timer c = Some (MkTimer (Some (t + Delay)))).
Proof.
  intros ops c es.
  apply (coalescer_conserves 0 ops (MkCoalescer [] (MkTimer None) false) c es); reflexivity.
Defined.

(** Batches fit a [Data] message.  When the caller flushes each time
    [Add] returns true and adds chunks of at most [m] bytes, every batch
    released is non-empty and shorter than [Threshold + m]; with the 32 KB
    (and two) chunks of the program it can always be sent and read back as a
    [Data] message. *)
Theorem batches_fit_data_message now ops c0 c bs m s :
  New now = Some c0 → 0 <= m <= 32 * 1024 + 2 →
  Forall (λ o, match o with OpAdd _ d => len d <= m | _ => True end) ops →
  uses c0 ops = Some (c, bs) →
  Forall (λ b, 0 < len b < Threshold + m ∧ readable (Data s b) = true) bs.
Proof.
  intros Hn Hm Hops Hu. assert (len (buf c0) < Threshold) as Hc0 by (by injection Hn as <-).
  clear Hn. revert c0 c bs Hc0 Hu.
  induction Hops as [|o ops Ho Hops IH]; intros c0 c bs Hc0 Hu.
  { injection Hu as <- <-. constructor. }
  cbn [uses] in Hu. destruct (use c0 o) as [[c1 b1]|] eqn:E1; [|done]. cbn [mbind option_bind] in Hu.
  destruct (uses c1 ops) as [[c2 b2]|] eqn:E2; [|done]. injection Hu as <- <-.
  destruct (use_bounded c0 o c1 b1 m Hc0 ltac:(lia) Ho E1) as [Hc1 Hb1].
  apply Forall_app. split; [|by eapply IH].
  eapply Forall_impl; [exact Hb1|]. intros b Hb. split; [done|].
  cbn [readable]. apply Z.leb_le. unfold Threshold, MaxPayloadSize in *. lia.
Qed.

Lemma batches_fit_data_message_witness :
  Forall (λ b, 0 < len b < Threshold + 1 ∧ readable (Data 1 b) = true) [[x61; x62]].
Proof.
  apply (batches_fit_data_message 0 [OpAdd 0 [x61]; OpAdd 1 [x62]; OpFlush 2]
    (MkCoalescer [] (MkTimer None) false) (MkCoalescer [] (MkTimer None) false) _ 1 1);
    [done|lia|by repeat constructor|reflexivity].
Defined.

End coalesce.
