(* ===== verification/Escape.v ===== *)
(** * The [~.] escape detector ([internal/client/escape.go])

    A three-state machine over the terminal input that holds back a tilde at
    the start of a line.  [Process] writes to a caller-supplied buffer, with
    the bounds checks of the language; the proofs give the buffer size that
    is enough, characterise the machine's state by the last two input bytes,
    the input that disconnects and the bytes that are emitted, and show that
    splitting the input over several calls changes nothing. *)

From S2P Require Import Prelude.

Module escape.

Inductive EscapeState : Type := escNone | escAfterNewline | escAfterTilde.
Inductive EscapeAction : Type := EscSend | EscDisconnect.

#[export] Instance EscapeState_eq_dec : EqDecision EscapeState.
Proof. solve_decision. Defined.
#[export] Instance EscapeAction_eq_dec : EqDecision EscapeAction.
Proof. solve_decision. Defined.

Record EscapeProcessor : Type := MkEscape { state : EscapeState }.

Definition NewEscapeProcessor : EscapeProcessor := MkEscape escAfterNewline.

Definition Reset (e : EscapeProcessor) : EscapeProcessor := MkEscape escAfterNewline.

Definition CR : byte := x0d.
Definition LF : byte := x0a.
Definition tilde : byte := x7e.
Definition dot : byte := x2e.

Definition is_newline (b : byte) : bool := bool_decide (b = CR) || bool_decide (b = LF).

(** [dst[n] = v; n++] *)
Definition emit (dst : bytes) (n : Z) (v : byte) : res (bytes * Z) :=
  dst' ← go_store dst n v; Ok (dst', n + 1).

(** The body of the loop for one byte: the new state, destination and count,
    and whether [EscDisconnect] is returned. *)
Definition process_byte (st : EscapeState) (b : byte) (dst : bytes) (n : Z) :
    res (EscapeState * bytes * Z * bool) :=
  match st with
  | escNone =>
    let st' := if is_newline b then escAfterNewline else escNone in
    '(dst, n) ← emit dst n b;
    Ok (st', dst, n, false)
  | escAfterNewline =>
    if bool_decide (b = tilde) then Ok (escAfterTilde, dst, n, false)
    else if is_newline b then
      '(dst, n) ← emit dst n b;
      Ok (escAfterNewline, dst, n, false)
    else
      '(dst, n) ← emit dst n b;
      Ok (escNone, dst, n, false)
  | escAfterTilde =>
    if bool_decide (b = dot) then Ok (escAfterTilde, dst, n, true)
    else if bool_decide (b = tilde) then
      '(dst, n) ← emit dst n tilde;
      Ok (escNone, dst, n, false)
    else if is_newline b then
      '(dst, n) ← emit dst n tilde;
      '(dst, n) ← emit dst n b;
      Ok (escAfterNewline, dst, n, false)
    else
      '(dst, n) ← emit dst n tilde;
      '(dst, n) ← emit dst n b;
      Ok (escNone, dst, n, false)
  end.

Fixpoint process_loop (st : EscapeState) (input dst : bytes) (n : Z) :
    res (EscapeState * bytes * Z * EscapeAction) :=
  match input with
  | [] => Ok (st, dst, n, EscSend)
  | b :: input' =>
    '(st', dst', n', disconnect) ← process_byte st b dst n;
    if (disconnect : bool) then Ok (st', dst', n', EscDisconnect)
    else process_loop st' input' dst' n'
  end.

(** [Process]: the processor, the destination buffer, the count and the
    action after the call. *)
Definition Process (e : EscapeProcessor) (input dst : bytes) :
    res (EscapeProcessor * bytes * Z * EscapeAction) :=
  '(st, dst, n, a) ← process_loop (state e) input dst 0;
  Ok (MkEscape st, dst, n, a).

(** ** The machine without the buffer *)

(** Bytes emitted by one input byte, the next state, and whether the byte
    completes [~.]. *)
Definition step (st : EscapeState) (b : byte) : EscapeState * bytes * bool :=
  match st with
  | escNone => (if is_newline b then escAfterNewline else escNone, [b], false)
  | escAfterNewline =>
    if bool_decide (b = tilde) then (escAfterTilde, [], false)
    else (if is_newline b then escAfterNewline else escNone, [b], false)
  | escAfterTilde =>
    if bool_decide (b = dot) then (escAfterTilde, [], true)
    else if bool_decide (b = tilde) then (escNone, [tilde], false)
    else (if is_newline b then escAfterNewline else escNone, [tilde; b], false)
  end.

Fixpoint run (st : EscapeState) (input : bytes) : EscapeState * bytes * EscapeAction :=
  match input with
  | [] => (st, [], EscSend)
  | b :: input' =>
    let '(st', out, d) := step st b in
    if (d : bool) then (st', out, EscDisconnect)
    else let '(st'', out', a) := run st' input' in (st'', out ++ out', a)
  end.

(** ** The specification *)

(** [input] is at the start of a line after [pre]. *)
Definition at_line_start (pre : bytes) : bool :=
  match last pre with None => true | Some b => is_newline b end.

(** The input contains the escape sequence [~.] at the start of a line. *)
Definition has_escape (input : bytes) : Prop :=
  ∃ pre suf, input = pre ++ tilde :: dot :: suf ∧ at_line_start pre = true.

(** The bytes the user gets sent: a doubled tilde at the start of a line
    stands for one, and a tilde that starts the line being typed is held.
    [ls] tells whether [input] starts a line. *)
Fixpoint unescape (ls : bool) (input : bytes) : bytes :=
  match input with
  | [] => []
  | b :: rest =>
    if ls && bool_decide (b = tilde) then
      match rest with
      | [] => []
      | c :: rest' =>
        if bool_decide (c = tilde) then tilde :: unescape false rest'
        else tilde :: c :: unescape (is_newline c) rest'
      end
    else b :: unescape (is_newline b) rest
  end.

(** ** Lemmas: the buffer *)

(** Room needed in the destination. *)
Definition held (st : EscapeState) : Z := match st with escAfterTilde => 1 | _ => 0 end.

Lemma step_room st b st' out d :
  step st b = (st', out, d) → len out + held st' <= 1 + held st ∧ (d = true → out = []).
Proof.
  unfold step. destruct st; repeat case_bool_decide; try destruct (is_newline b);
    intros [= <- <- <-]; split; done || (rewrite ?len_cons, ?len_nil; simpl; lia).
Qed.

(** The destination after [out] has been written at position [n]. *)
Definition written (dst : bytes) (n : Z) (out : bytes) : bytes :=
  take (Z.to_nat n) dst ++ out ++ drop (Z.to_nat n + List.length out) dst.

Lemma emit_ok dst n v :
  0 <= n < len dst → emit dst n v = Ok (written dst n [v], n + 1).
Proof.
  intros Hn. unfold emit. rewrite go_store_ok by done. cbn [mbind res_bind].
  unfold written. rewrite insert_take_drop by (unfold len in Hn; lia).
  simpl. by rewrite Nat.add_1_r.
Qed.

Lemma written_nil dst n : written dst n [] = dst.
Proof. unfold written. simpl. by rewrite Nat.add_0_r, take_drop. Qed.

Lemma len_written dst n out : 0 <= n → n + len out <= len dst → len (written dst n out) = len dst.
Proof. intros ??. unfold written. rewrite !len_app, len_take, len_drop. unfold len in *. lia. Qed.

Lemma written_app dst n o1 o2 :
  0 <= n → n + len o1 <= len dst →
  written (written dst n o1) (n + len o1) o2 = written dst n (o1 ++ o2).
Proof.
  intros Hn Hl. unfold written, len in *.
  replace (Z.to_nat (n + Z.of_nat (List.length o1))) with (Z.to_nat n + List.length o1)%nat by lia.
  assert (List.length (take (Z.to_nat n) dst) = Z.to_nat n) as Ht by (rewrite length_take; lia).
  rewrite (app_assoc (take (Z.to_nat n) dst) o1 (drop _ dst)).
  rewrite take_app_length' by (rewrite length_app; lia).
  rewrite drop_app_ge by (rewrite length_app; lia).
  rewrite drop_drop, !length_app, <-!app_assoc. do 4 f_equal. lia.
Qed.

Lemma emit2_ok dst n v w :
  0 <= n → n + 2 <= len dst →
  ('(dst, n) ← emit dst n v; emit dst n w) = Ok (written dst n [v; w], n + 2).
Proof.
  intros Hn Hl. rewrite emit_ok by lia. cbn [mbind res_bind].
  rewrite emit_ok by (rewrite len_written; rewrite ?len_cons, ?len_nil; lia).
  change (n + 1) with (n + len [v]). rewrite written_app by (rewrite ?len_cons, ?len_nil; lia).
  do 2 f_equal. rewrite len_cons, len_nil. lia.
Qed.

Lemma process_byte_step st b dst n st' out d :
  0 <= n → step st b = (st', out, d) → n + len out <= len dst →
  process_byte st b dst n = Ok (st', written dst n out, n + len out, d).
Proof.
  intros Hn Hs Hl. unfold step in Hs. unfold process_byte.
  destruct st; repeat case_bool_decide; try destruct (is_newline b); injection Hs as <- <- <-;
    rewrite ?len_cons, ?len_nil in *;
    try (rewrite emit_ok by lia; reflexivity);
    try (rewrite written_nil, Z.add_0_r; reflexivity).
  all: pose proof (emit2_ok dst n tilde b Hn ltac:(lia)) as He;
    rewrite emit_ok in He by lia; cbn [mbind res_bind] in He;
    rewrite emit_ok by lia; cbn [mbind res_bind]; rewrite He; reflexivity.
Qed.

Lemma process_loop_run st input dst n st' out a :
  0 <= n → run st input = (st', out, a) → n + len input + held st <= len dst →
  process_loop st input dst n = Ok (st', written dst n out, n + len out, a) ∧
  len out + held st' <= len input + held st.
Proof.
  revert st dst n st' out a. induction input as [|b input IH]; intros st dst n st' out a Hn Hr Hl; simpl in Hr.
  - injection Hr as <- <- <-. simpl. rewrite written_nil, !len_nil, Z.add_0_r. split; [done|lia].
  - rewrite len_cons in *. destruct (step st b) as [[st1 o1] d] eqn:Es.
    destruct (step_room _ _ _ _ _ Es) as [Hroom Hd]. pose proof (len_nonneg input).
    pose proof (len_nonneg o1). assert (0 <= held st1) by (destruct st1; simpl; lia).
    cbn [process_loop]. rewrite (process_byte_step _ _ _ _ _ _ _ Hn Es) by lia.
    cbn [mbind res_bind]. destruct d.
    + injection Hr as <- <- <-. split; [done|lia].
    + destruct (run st1 input) as [[st2 o2] a2] eqn:Er. injection Hr as <- <- <-.
      destruct (IH st1 (written dst n o1) (n + len o1) st2 o2 a2) as [-> Hb];
        [lia|done|rewrite len_written; lia|].
      rewrite written_app by lia. rewrite len_app. split; [|lia].
      do 3 f_equal. lia.
Qed.

(** ** Lemmas: the state after some input *)

(** The state is a function of the last two bytes. *)
Definition state_after (pre : bytes) : EscapeState :=
  if at_line_start pre then escAfterNewline
  else if bool_decide (last pre = Some tilde) && at_line_start (removelast pre)
  then escAfterTilde else escNone.

Lemma state_after_snoc pre b :
  state_after (pre ++ [b]) =
    if is_newline b then escAfterNewline
    else if bool_decide (b = tilde) && at_line_start pre then escAfterTilde else escNone.
Proof.
  unfold state_after, at_line_start at 1. rewrite last_snoc, removelast_last.
  destruct (is_newline b); [done|].
  by rewrite (bool_decide_ext (Some b = Some tilde) (b = tilde)) by naive_solver.
Qed.

Lemma state_after_newline pre : state_after pre = escAfterNewline ↔ at_line_start pre = true.
Proof.
  unfold state_after. destruct (at_line_start pre); [done|]. by destruct (_ && _).
Qed.

(** No escape has been completed within [pre]. *)
Definition clean (pre : bytes) : Prop := ¬ has_escape pre.

Lemma has_escape_snoc pre b :
  has_escape (pre ++ [b]) ↔ has_escape pre ∨ (b = dot ∧ state_after pre = escAfterTilde).
Proof.
  split.
  - intros (p & s & E & Hp). destruct s as [|x s _] using rev_ind.
    + right. rewrite (app_assoc p [tilde] [dot] : p ++ [tilde; dot] = _) in E.
      apply app_inj_tail in E as [-> ->]. split; [done|].
      rewrite state_after_snoc. by rewrite Hp.
    + left. rewrite !app_comm_cons, app_assoc in E. apply app_inj_tail in E as [-> ->].
      by exists p, s.
  - intros [(p & s & -> & Hp)|[-> Hs]].
    + exists p, (s ++ [b]). by rewrite <-app_assoc.
    + destruct pre as [|c pre _] using rev_ind; [done|]. rewrite state_after_snoc in Hs.
      destruct (is_newline c); [done|]. destruct (bool_decide (c = tilde)) eqn:Hc; [|done].
      apply bool_decide_eq_true in Hc as ->. simpl in Hs.
      destruct (at_line_start pre) eqn:Hp; [|done].
      exists pre, []. by rewrite <-app_assoc.
Qed.

Lemma run_app st xs ys st1 o1 :
  run st xs = (st1, o1, EscSend) →
  run st (xs ++ ys) = let '(st2, o2, a) := run st1 ys in (st2, o1 ++ o2, a).
Proof.
  revert st st1 o1. induction xs as [|x xs IH]; intros st st1 o1 Hr; simpl in *.
  - injection Hr as <- <-. by destruct (run st ys) as [[]].
  - destruct (step st x) as [[s o] d]. destruct d; [by injection Hr|].
    destruct (run s xs) as [[s' o'] a'] eqn:E. injection Hr as <- <- ->.
    rewrite (IH _ _ _ E). destruct (run s' ys) as [[]]. by rewrite app_assoc.
Qed.

Lemma run_disconnected st xs ys st1 o1 :
  run st xs = (st1, o1, EscDisconnect) → run st (xs ++ ys) = (st1, o1, EscDisconnect).
Proof.
  revert st st1 o1. induction xs as [|x xs IH]; intros st st1 o1 Hr; simpl in *; [done|].
  destruct (step st x) as [[s o] d]. destruct d; [done|].
  destruct (run s xs) as [[s' o'] a'] eqn:E. injection Hr as <- <- ->.
  by rewrite (IH _ _ _ E).
Qed.

Lemma step_state_after pre b :
  ¬ (b = dot ∧ state_after pre = escAfterTilde) →
  ∃ o, step (state_after pre) b = (state_after (pre ++ [b]), o, false).
Proof.
  intros Hd. rewrite state_after_snoc. pose proof (state_after_newline pre) as Hn. unfold step.
  destruct (state_after pre) eqn:E.
  - rewrite (not_true_is_false (at_line_start pre)) by (intros H; apply Hn in H; done).
    rewrite andb_false_r. eauto.
  - rewrite (proj1 Hn eq_refl). case_bool_decide as Hb; [subst b; simpl; eauto|].
    simpl. destruct (is_newline b); eauto.
  - case_bool_decide; [by destruct Hd|].
    rewrite (not_true_is_false (at_line_start pre)) by (intros H'; apply Hn in H'; done).
    rewrite andb_false_r. case_bool_decide as Hb; [subst b; simpl; eauto|].
    destruct (is_newline b); eauto.
Qed.

(** The machine from the start: it disconnects exactly when an escape is
    completed, and otherwise is in the state of the last two bytes. *)
Lemma run_spec input :
  (clean input ∧ ∃ out, run escAfterNewline input = (state_after input, out, EscSend)) ∨
  (has_escape input ∧ ∃ st out, run escAfterNewline input = (st, out, EscDisconnect)).
Proof.
  induction input as [|b pre IH] using rev_ind.
  - left. split; [|by eexists]. intros ([] & ? & ? & ?); done.
  - destruct IH as [[Hc [out Hr]]|[He (st & out & Hr)]].
    + rewrite (run_app _ _ _ _ _ Hr). simpl.
      destruct (decide (b = dot ∧ state_after pre = escAfterTilde)) as [Hd|Hd].
      * right. split; [apply has_escape_snoc; by right|].
        destruct Hd as [-> ->]. simpl. eauto.
      * left. destruct (step_state_after pre b Hd) as [o ->]. simpl.
        split; [|by eauto]. unfold clean. rewrite has_escape_snoc. by intros [?|?].
    + right. rewrite (run_disconnected _ _ _ _ _ Hr). split; [|by eauto].
      apply has_escape_snoc. by left.
Qed.

(** What is emitted, started in a line or at the start of one. *)
Lemma run_unescape input (ls : bool) st out :
  run (if ls then escAfterNewline else escNone) input = (st, out, EscSend) →
  out = unescape ls input.
Proof.
  assert (∀ b, (if is_newline b then escAfterNewline else escNone) =
               (if (is_newline b : bool) then escAfterNewline else escNone)) as Hif by done.
  remember (List.length input) as k eqn:Hk. assert (List.length input ≤ k)%nat as Hle by lia. clear Hk.
  revert input ls st out Hle. induction k as [|k IH]; intros input ls st out Hle Hr.
  { destruct input; [|simpl in Hle; lia]. simpl in *. congruence. }
  destruct input as [|b rest]; [simpl in *; congruence|]. simpl in Hle, Hr. cbn [unescape].
  destruct ls; simpl in *.
  - case_bool_decide as Hb; simpl in *.
    + destruct rest as [|c rest]; [simpl in *; congruence|]. simpl in Hle, Hr.
      destruct (bool_decide (c = dot)); [done|].
      destruct (bool_decide (c = tilde)) eqn:Ht.
      * destruct (run escNone rest) as [[s o] a] eqn:Er. injection Hr as <- <- ->.
        simpl. f_equal. apply (IH rest false s); [lia|done].
      * destruct (run _ rest) as [[s o] a] eqn:Er in Hr. injection Hr as <- <- ->.
        simpl. do 2 f_equal. apply (IH rest (is_newline c) s); [lia|done].
    + destruct (run _ rest) as [[s o] a] eqn:Er in Hr. injection Hr as <- <- ->.
      simpl. f_equal. apply (IH rest (is_newline b) s); [lia|done].
  - destruct (run _ rest) as [[s o] a] eqn:Er in Hr. injection Hr as <- <- ->.
    simpl. f_equal. apply (IH rest (is_newline b) s); [lia|done].
Qed.

(** More input never takes back what was emitted. *)
Lemma unescape_prefix ls xs ys : unescape ls xs `prefix_of` unescape ls (xs ++ ys).
Proof.
  remember (List.length xs) as k eqn:Hk. assert (List.length xs ≤ k)%nat as Hle by lia. clear Hk.
  revert xs ls Hle. induction k as [|k IH]; intros [|b xs] ls Hle; try apply prefix_nil; [simpl in Hle; lia|].
  simpl in Hle. cbn [unescape app]. destruct (ls && bool_decide (b = tilde)).
  - destruct xs as [|c xs]; [apply prefix_nil|]. simpl in Hle. cbn [app].
    destruct (bool_decide (c = tilde)); repeat apply prefix_cons; apply IH; lia.
  - apply prefix_cons, IH. lia.
Qed.

(** ** [Process] calls *)

(** The bytes a call leaves in [dst[:n]]. *)
Definition ProcessOut (e : EscapeProcessor) (input dst : bytes) :
    res (EscapeProcessor * bytes * EscapeAction) :=
  '(e', dst', n, a) ← Process e input dst;
  out ← go_slice dst' 0 n;
  Ok (e', out, a).

Lemma Process_run e input dst st out a :
  len input + 1 <= len dst → run (state e) input = (st, out, a) →
  ∃ dst', Process e input dst = Ok (MkEscape st, dst', len out, a) ∧
    go_slice dst' 0 (len out) = Ok out ∧ len dst' = len dst.
Proof.
  intros Hl Er.
  assert (held (state e) <= 1) by (destruct (state e); simpl; lia).
  destruct (process_loop_run (state e) input dst 0 st out a) as [Hp Hb]; [lia|done|lia|].
  pose proof (len_nonneg out). assert (0 <= held st) by (destruct st; simpl; lia).
  exists (written dst 0 out). unfold Process. rewrite Hp. cbn [mbind res_bind].
  split; [done|]. split; [|by apply len_written; lia].
  rewrite go_slice_head by (rewrite len_written; lia). f_equal. unfold written. simpl.
  unfold len. by rewrite Nat2Z.id, take_app_length.
Qed.

Lemma ProcessOut_run e input dst :
  len input + 1 <= len dst →
  ProcessOut e input dst =
    let '(st, out, a) := run (state e) input in Ok (MkEscape st, out, a).
Proof.
  intros Hl. destruct (run (state e) input) as [[st out] a] eqn:Er.
  destruct (Process_run e input dst st out a Hl Er) as (dst' & Hp & Hs & _).
  unfold ProcessOut. rewrite Hp. cbn [mbind res_bind]. rewrite Hs. done.
Qed.

(** Successive calls on the chunks read from the terminal, all with a
    destination of [room] bytes, until one disconnects. *)
Fixpoint ProcessChunks (e : EscapeProcessor) (chunks : list bytes) (room : nat) :
    res (EscapeProcessor * bytes * EscapeAction) :=
  match chunks with
  | [] => Ok (e, [], EscSend)
  | c :: chunks' =>
    '(e', out, a) ← ProcessOut e c (replicate room x00);
    match a with
    | EscDisconnect => Ok (e', out, EscDisconnect)
    | EscSend =>
      '(e'', out', a') ← ProcessChunks e' chunks' room;
      Ok (e'', out ++ out', a')
    end
  end.

Lemma ProcessChunks_run e chunks room :
  Forall (λ c, len c + 1 <= Z.of_nat room) chunks →
  ProcessChunks e chunks room =
    let '(st, out, a) := run (state e) (List.concat chunks) in Ok (MkEscape st, out, a).
Proof.
  intros Hc. revert e. induction Hc as [|c chunks Hl Hc IH]; intros e; [by destruct e|].
  simpl. rewrite ProcessOut_run by (by rewrite len_replicate).
  destruct (run (state e) c) as [[st o] a] eqn:Er. cbn [mbind res_bind]. destruct a.
  - rewrite (run_app _ _ _ _ _ Er), IH. simpl.
    by destruct (run st (List.concat chunks)) as [[]].
  - by rewrite (run_disconnected _ _ _ _ _ Er).
Qed.

(** ** Properties *)

(** [Process] never writes out of bounds: one byte more than the input is
    room enough, in every state (the client passes two more), and at most one
    byte more than the input is ever written. *)
Theorem process_fits e input dst :
  len input + 1 <= len dst →
  ∃ e' dst' n a, Process e input dst = Ok (e', dst', n, a) ∧
    0 <= n <= len input + 1 ∧ len dst' = len dst ∧
    drop (Z.to_nat n) dst' = drop (Z.to_nat n) dst.
Proof.
  intros Hl. destruct (run (state e) input) as [[st out] a] eqn:Er.
  assert (held (state e) <= 1) by (destruct (state e); simpl; lia).
  assert (0 <= held st) by (destruct st; simpl; lia).
  destruct (process_loop_run (state e) input dst 0 st out a) as [Hp Hb]; [lia|done|lia|].
  unfold Process. rewrite Hp. cbn [mbind res_bind]. pose proof (len_nonneg out).
  do 4 eexists. split; [reflexivity|]. split_and!; [lia|lia|by rewrite len_written by lia|].
  unfold written, len. rewrite Z.add_0_l, Nat2Z.id. simpl. by rewrite drop_app_length.
Qed.

Lemma process_fits_witness :
  ∃ e' dst' n a, Process (MkEscape escAfterTilde) [x61] (replicate 2 x00) = Ok (e', dst', n, a) ∧
    0 <= n <= len [x61] + 1 ∧ len dst' = len (replicate 2 x00) ∧
    drop (Z.to_nat n) dst' = drop (Z.to_nat n) (replicate 2 x00).
Proof. apply (process_fits (MkEscape escAfterTilde) [x61] (replicate 2 x00)). done. Defined.

(** C28: Exactly the escape sequence disconnects.  However the terminal input
    is cut into chunks, the calls of [Process] from a fresh processor end in
    [EscDisconnect] if and only if the input so far contains [~.] at its
    start or right after a carriage return or a line feed; otherwise the
    bytes emitted are the input with a doubled tilde at the start of a line
    reduced to one and a final tilde that starts a line held back. *)
Theorem escape_detection chunks room :
  Forall (λ c, len c + 1 <= Z.of_nat room) chunks →
  ∃ e out a, ProcessChunks NewEscapeProcessor chunks room = Ok (e, out, a) ∧
    (a = EscDisconnect ↔ has_escape (List.concat chunks)) ∧
    (a = EscSend → out = unescape true (List.concat chunks) ∧
                   state e = state_after (List.concat chunks)).
Proof.
  intros Hc. rewrite ProcessChunks_run by done. simpl.
  destruct (run_spec (List.concat chunks)) as [[Hcl [out Hr]]|[He (st & out & Hr)]].
  - rewrite Hr. do 3 eexists. split; [reflexivity|]. split; [split; [done|by intros ?%Hcl]|].
    intros _. split; [|done]. by eapply (run_unescape _ true).
  - rewrite Hr. do 3 eexists. split; [reflexivity|]. split; [done|done].
Qed.

Lemma escape_detection_witness :
  let chunks := [[x61; x0d]; [x7e]; [x7e; x62]] in
  ∃ e out a, ProcessChunks NewEscapeProcessor chunks 4 = Ok (e, out, a) ∧
    (a = EscDisconnect ↔ has_escape (List.concat chunks)) ∧
    (a = EscSend → out = unescape true (List.concat chunks) ∧
                   state e = state_after (List.concat chunks)).
Proof. intros chunks. apply (escape_detection chunks 4). by repeat constructor. Defined.

(** C29: Chunking is irrelevant.  Two ways of cutting the same input into
    chunks give the same emitted bytes, the same action and the same state
    from any state of the processor. *)
Theorem escape_chunking_irrelevant e cs ds room :
  Forall (λ c, len c + 1 <= Z.of_nat room) cs →
  Forall (λ c, len c + 1 <= Z.of_nat room) ds →
  List.concat cs = List.concat ds →
  ProcessChunks e cs room = ProcessChunks e ds room.
Proof. intros Hc Hd E. by rewrite !ProcessChunks_run, E by done. Qed.

Lemma escape_chunking_irrelevant_witness :
  ProcessChunks NewEscapeProcessor [[x7e; x2e]] 4 = ProcessChunks NewEscapeProcessor [[x7e]; [x2e]] 4.
Proof.
  apply (escape_chunking_irrelevant NewEscapeProcessor [[x7e; x2e]] [[x7e]; [x2e]] 4);
    by repeat constructor.
Defined.

End escape.
