(* ===== verification/Transport.v ===== *)
(** * Transport connections ([internal/transport]: conn, streams, tcp)

    The [Conn] interface and its two implementations: QUIC, with a stream for
    control and a stream for data, and TCP+TLS, where both share one stream
    and a background goroutine routes the messages.  [Conn] is a class with
    the operations; [ConnLaws] states what the session and the client rely
    on, and both implementations are instances.  The demultiplexer of the TCP
    connection is a step function whose interleavings with the readers, the
    writers and [Close] are covered by a step relation.  Closing follows the
    libraries: [tls.Conn] goes on to deliver what it has already received
    ([w_held] bytes), a cancelled QUIC stream delivers nothing more. *)

From S2P Require Import Prelude GoIO Protocol.

(** ** Streams

    A [*quic.Stream] or a [*tls.Conn]: a reader and a writer, a read
    deadline, and whether it has been closed on this side.  [w_held] is for a
    TLS connection: how many of the coming bytes the library has already taken
    off the network, decrypted or not, when [Close] is called.  It hands them
    out before it reports that the connection is closed. *)

Definition ErrClosed : error := ErrNew "use of closed network connection".
Definition ErrTimeout : error := ErrNew "i/o timeout".

Record wire : Type := Wire {
  w_rd : reader;
  w_wr : writer;
  w_deadline : bool;
  w_closed : bool;
  w_held : Z;
}.

(** [protocol.ReadMessage(w)]; with a deadline set, a read that would block
    times out. *)
Definition wire_read : io wire message := λ w,
  match ReadMessage (w_rd w) with
  | Some (r, rd') => Some (r, Wire rd' (w_wr w) (w_deadline w) (w_closed w) (w_held w))
  | None => if w_deadline w then Some (Err ErrTimeout, w) else None
  end.

(** [protocol.WriteMessage(w, msg)] *)
Definition wire_write (msg : any) : io wire () := λ w,
  if w_closed w then Some (Err ErrClosed, w) else
  io_zoom w_wr (λ wr' w, Wire (w_rd w) wr' (w_deadline w) (w_closed w) (w_held w)) (WriteMessage msg) w.

Definition wire_set_deadline (on : bool) (w : wire) : wire :=
  Wire (w_rd w) (w_wr w) on (w_closed w) (w_held w).

(** What is left to read once a TLS connection is closed: the bytes it holds,
    then that it is closed (or the end of the stream, when it holds that too). *)
Definition held_reader (k : Z) (rd : reader) : reader :=
  Reader (take (Z.to_nat k) (rd_in rd))
    (Some (if len (rd_in rd) <? k then default ErrClosed (rd_fin rd) else ErrClosed)).

(** [Close] of a [*tls.Conn]. *)
Definition wire_close (w : wire) : wire :=
  Wire (held_reader (w_held w) (w_rd w)) (w_wr w) (w_deadline w) true (w_held w).

(** [CancelRead(0)] and [Close] of a [*quic.Stream]: what has arrived is
    discarded. *)
Definition wire_cancel (w : wire) : wire :=
  Wire (Reader [] (Some ErrClosed)) (w_wr w) (w_deadline w) true (w_held w).

(** ** The interface ([conn.go]) *)

Inductive DialMode : Type := DialQUIC | DialTCP | DialOther (n : Z).

Definition DialMode_String (m : DialMode) : string :=
  match m with DialQUIC => "QUIC" | DialTCP => "TCP" | DialOther _ => "unknown" end.

(** A deadline is modelled by whether one is set ([time.Time{}] clears it). *)
Class Conn (C : Type) : Type := {
  ReadControl : io C message;
  WriteControl : any → io C ();
  ReadData : io C message;
  WriteData : any → io C ();
  SetControlReadDeadline : bool → C → C;
  LastClientSeq : C → Z;
  StartDemux : C → C;
  Close : C → C;
}.

(** ** QUIC ([streams.go]) *)

(** [tr] is the client's UDP transport: whether it is there, and closed. *)
Record quicConn : Type := QuicConn {
  q_control : wire;
  q_data : wire;
  q_lastClientSeq : Z;
  q_conn_closed : bool;
  q_tr : option bool;
}.

Definition quic_on_control {A} (c : io wire A) : io quicConn A :=
  io_zoom q_control (λ w q, QuicConn w (q_data q) (q_lastClientSeq q) (q_conn_closed q) (q_tr q)) c.
Definition quic_on_data {A} (c : io wire A) : io quicConn A :=
  io_zoom q_data (λ w q, QuicConn (q_control q) w (q_lastClientSeq q) (q_conn_closed q) (q_tr q)) c.

Definition quic_Close (q : quicConn) : quicConn :=
  QuicConn (wire_cancel (q_control q)) (wire_cancel (q_data q)) (q_lastClientSeq q) true
    ((λ _, true) <$> q_tr q).

#[export] Instance quicConn_Conn : Conn quicConn := {|
  ReadControl := quic_on_control wire_read;
  WriteControl msg := quic_on_control (wire_write msg);
  ReadData := quic_on_data wire_read;
  WriteData msg := quic_on_data (wire_write msg);
  SetControlReadDeadline on q :=
    QuicConn (wire_set_deadline on (q_control q)) (q_data q) (q_lastClientSeq q)
      (q_conn_closed q) (q_tr q);
  LastClientSeq := q_lastClientSeq;
  StartDemux q := q;
  Close := quic_Close;
|}.

(** ** TCP+TLS ([tcp.go]) *)

(** [readResult{msg}] is [Ok], [readResult{err}] is [Err]. *)
Definition readResult : Type := res message.

(** Where the goroutine of [demuxLoop] is: not running, about to read, or in
    the select that forwards the message it has read. *)
Inductive demux_pc : Type := DemuxOff | DemuxReading | DemuxSending (m : message).

Record tcpConn : Type := TcpConn {
  t_conn : wire;
  t_controlCh : chan readResult;
  t_dataCh : chan readResult;
  t_lastClientSeq : Z;
  t_demuxStarted : bool;
  t_demux : demux_pc;
  t_done : bool;
}.

Definition newTCPConn (conn : wire) (lastClientSeq : Z) : tcpConn :=
  TcpConn conn (make_chan _ 16) (make_chan _ 16) lastClientSeq false DemuxOff false.

Definition tcp_set_conn (w : wire) (t : tcpConn) : tcpConn :=
  TcpConn w (t_controlCh t) (t_dataCh t) (t_lastClientSeq t) (t_demuxStarted t) (t_demux t) (t_done t).
Definition tcp_set_controlCh (c : chan readResult) (t : tcpConn) : tcpConn :=
  TcpConn (t_conn t) c (t_dataCh t) (t_lastClientSeq t) (t_demuxStarted t) (t_demux t) (t_done t).
Definition tcp_set_dataCh (c : chan readResult) (t : tcpConn) : tcpConn :=
  TcpConn (t_conn t) (t_controlCh t) c (t_lastClientSeq t) (t_demuxStarted t) (t_demux t) (t_done t).
Definition tcp_set_demux (d : demux_pc) (t : tcpConn) : tcpConn :=
  TcpConn (t_conn t) (t_controlCh t) (t_dataCh t) (t_lastClientSeq t) (t_demuxStarted t) d (t_done t).

Definition tcp_on_conn {A} (c : io wire A) : io tcpConn A := io_zoom t_conn tcp_set_conn c.

Definition tcp_ReadControl : io tcpConn message := λ t,
  if negb (t_demuxStarted t) then tcp_on_conn wire_read t else
  match chan_recv (t_controlCh t) with
  | None => None
  | Some (None, ch) => Some (Err (ErrNew "control channel closed"), tcp_set_controlCh ch t)
  | Some (Some r, ch) => Some (r, tcp_set_controlCh ch t)
  end.

Definition tcp_ReadData : io tcpConn message := λ t,
  if negb (t_demuxStarted t) then tcp_on_conn wire_read t else
  match chan_recv (t_dataCh t) with
  | None => None
  | Some (None, ch) => Some (Err (ErrNew "data channel closed"), tcp_set_dataCh ch t)
  | Some (Some r, ch) => Some (r, tcp_set_dataCh ch t)
  end.

Definition tcp_StartDemux (t : tcpConn) : tcpConn :=
  if t_demuxStarted t then t
  else TcpConn (wire_set_deadline false (t_conn t)) (t_controlCh t) (t_dataCh t)
         (t_lastClientSeq t) true DemuxReading (t_done t).

(** [closeOnce] makes a second call do nothing. *)
Definition tcp_Close (t : tcpConn) : tcpConn :=
  if t_done t then t
  else TcpConn (wire_close (t_conn t)) (t_controlCh t) (t_dataCh t) (t_lastClientSeq t)
         (t_demuxStarted t) (t_demux t) true.

#[export] Instance tcpConn_Conn : Conn tcpConn := {|
  ReadControl := tcp_ReadControl;
  WriteControl msg := tcp_on_conn (wire_write msg);
  ReadData := tcp_ReadData;
  WriteData msg := tcp_on_conn (wire_write msg);
  SetControlReadDeadline on t := tcp_set_conn (wire_set_deadline on (t_conn t)) t;
  LastClientSeq := t_lastClientSeq;
  StartDemux := tcp_StartDemux;
  Close := tcp_Close;
|}.

(** ** The demultiplexer *)

(** [return] from [demuxLoop]: the deferred closes of both channels run. *)
Definition demux_return (t : tcpConn) : tcpConn :=
  TcpConn (t_conn t) (chan_close (t_controlCh t)) (chan_close (t_dataCh t)) (t_lastClientSeq t)
    (t_demuxStarted t) DemuxOff (t_done t).

(** The two halves of the loop body: the read with its error path, and the
    select that forwards the message.  When the send and [<-c.done] are both
    ready the select may take either; [done_first] says which.  [None]: the
    goroutine is blocked. *)
Definition demux_iter (done_first : bool) (t : tcpConn) : option (res tcpConn) :=
  match t_demux t with
  | DemuxOff => None
  | DemuxReading =>
    match tcp_on_conn wire_read t with
    | None => None
    | Some (Panicked p, _) => Some (Panicked p)
    | Some (Err e, t) =>
      let t := tcp_set_controlCh (chan_try_send (t_controlCh t) (Err e)) t in
      let t := tcp_set_dataCh (chan_try_send (t_dataCh t) (Err e)) t in
      Some (Ok (demux_return t))
    | Some (Ok m, t) => Some (Ok (tcp_set_demux (DemuxSending m) t))
    end
  | DemuxSending m =>
    let ch := if is_data m then t_dataCh t else t_controlCh t in
    if chan_can_send ch && negb (t_done t && done_first)
    then let t := (if is_data m then tcp_set_dataCh else tcp_set_controlCh) (chan_send ch (Ok m)) t in
         Some (Ok (tcp_set_demux DemuxReading t))
    else if t_done t then Some (Ok (demux_return t)) else None
  end.

(** ** What a stream carries *)

(** The messages whose frames were written in full, and after them what a
    failed write may have left; such a stream takes no further byte. *)
Definition wire_sent (w : wire) (ms : list message) : Prop :=
  Forall (λ m, msg_wf m ∧ sendable m = true) ms ∧
  ∃ q, wr_out (w_wr w) = frames ms ++ q ∧ partial q ∧ (q ≠ [] → wr_room (w_wr w) = Some 0).

Abbreviation data_of := (List.filter is_data).
Abbreviation control_of := (List.filter (λ m, negb (is_data m))).

Lemma wire_read_wr w r w' : wire_read w = Some (r, w') →
  w_wr w' = w_wr w ∧ w_deadline w' = w_deadline w ∧ w_closed w' = w_closed w.
Proof. unfold wire_read. repeat case_match; naive_solver. Qed.

Lemma wire_read_wf w m w' : wire_read w = Some (Ok m, w') → msg_wf m.
Proof.
  unfold wire_read. destruct (ReadMessage (w_rd w)) as [[r rd']|] eqn:E; [|by destruct (w_deadline w)].
  intros [= -> <-]. apply ReadMessage_inv in E as (p & _ & _ & _ & Hd). apply Hd.
Qed.

Lemma wire_write_rd msg w r w' : wire_write msg w = Some (r, w') →
  w_rd w' = w_rd w ∧ w_deadline w' = w_deadline w ∧ w_closed w' = w_closed w.
Proof. unfold wire_write, io_zoom. repeat case_match; naive_solver. Qed.

Lemma wire_read_held w r w' : wire_read w = Some (r, w') → w_held w' = w_held w.
Proof. unfold wire_read. repeat case_match; naive_solver. Qed.

Lemma wire_write_held msg w r w' : wire_write msg w = Some (r, w') → w_held w' = w_held w.
Proof. unfold wire_write, io_zoom. repeat case_match; naive_solver. Qed.

Lemma wire_sent_wr w w' ms : w_wr w' = w_wr w → wire_sent w ms → wire_sent w' ms.
Proof. unfold wire_sent. by intros ->. Qed.

Lemma wire_sent_det w ms ms' : wire_sent w ms → wire_sent w ms' → ms = ms'.
Proof. intros (Hm & q & Hq & Hp & _) (Hm' & q' & Hq' & Hp' & _). apply (frames_det _ _ q q'); [done..|congruence]. Qed.

(** A write appends one whole message or fails with none added. *)
Lemma wire_write_sent m w ms r w' :
  wire_sent w ms → msg_wf m → wire_write (Ptr m) w = Some (r, w') →
  (∃ e, r = Err e ∧ wire_sent w' ms) ∨ (r = Ok () ∧ wire_sent w' (ms ++ [m])).
Proof.
  unfold wire_write, io_zoom. intros Hs Hwf.
  destruct (w_closed w); [intros [= <- <-]; eauto|].
  destruct (WriteMessage _ _) as [[r1 w1]|] eqn:E; [|done]. intros [= <- <-].
  pose proof Hs as (Hms & q & Hq & Hpq & Hroom).
  apply WriteMessage_cases in E as [(-> & Hm & -> & Ha)|[(e & -> & _ & ->)|
    (e & q' & -> & _ & Hm & Ho & Hq' & _ & Hr & Hlt & Hk)]]; [| | |done].
  - right. split; [done|]. split; [by apply Forall_app_2, Forall_singleton|].
    assert (q = []) as ->.
    { destruct (decide (q = [])) as [|Hne]; [done|]. unfold accepts in Ha. rewrite Hroom in Ha by done.
      pose proof (len_pos _ (frame_not_nil m)). lia. }
    exists []. split_and!; [|by left|done]. simpl w_wr. unfold advance. cbn [wr_out].
    rewrite Hq, frames_app, !app_nil_r. unfold frames at 3. simpl. by rewrite app_nil_r.
  - left. exists e. split; [done|]. by apply (wire_sent_wr w).
  - left. exists e. split; [done|]. split; [done|]. cbn [w_wr].
    destruct (decide (q = [])) as [->|Hne].
    + exists q'. rewrite Ho, Hq, app_nil_r. split_and!; [done| |done].
      right. exists m. split_and!; [done..|]. intros ->. lia.
    + specialize (Hk 0 (Hroom Hne)).
      assert (q' = []) as -> by (apply len_zero; pose proof (len_nonneg q'); lia).
      exists q. rewrite Ho, Hq, app_nil_r. done.
Qed.

(** ** What a connection promises

    [sent c cs ds]: the control and the data messages written to [c] so far.
    [fresh c]: [StartDemux] has not been called.  [closed c]: its streams
    were closed on this side.  [shut c]: [Close] was called. *)
Class ConnLaws (C : Type) `{Conn C} : Type := {
  sent : C → list message → list message → Prop;
  fresh : C → Prop;
  closed : C → Prop;
  shut : C → Prop;
  (** A step of the connection's own goroutine. *)
  background : C → C → Prop;
  (** Writes append one message or fail with none added. *)
  WriteControl_sent m c cs ds r c' :
    sent c cs ds → msg_wf m → is_data m = false → WriteControl (Ptr m) c = Some (r, c') →
    (∃ e, r = Err e ∧ sent c' cs ds) ∨ (r = Ok () ∧ sent c' (cs ++ [m]) ds);
  WriteData_sent m c cs ds r c' :
    sent c cs ds → msg_wf m → is_data m = true → WriteData (Ptr m) c = Some (r, c') →
    (∃ e, r = Err e ∧ sent c' cs ds) ∨ (r = Ok () ∧ sent c' cs (ds ++ [m]));
  (** Nothing else writes. *)
  ReadControl_sent c cs ds r c' : ReadControl c = Some (r, c') → sent c cs ds → sent c' cs ds;
  ReadData_sent c cs ds r c' : ReadData c = Some (r, c') → sent c cs ds → sent c' cs ds;
  SetDeadline_sent on c cs ds : sent c cs ds → sent (SetControlReadDeadline on c) cs ds;
  StartDemux_sent c cs ds : sent c cs ds → sent (StartDemux c) cs ds;
  Close_sent c cs ds : sent c cs ds → sent (Close c) cs ds;
  (** What was written is determined by the object. *)
  sent_det c cs ds cs' ds' : sent c cs ds → sent c cs' ds' → cs = cs' ∧ ds = ds';
  (** The sequence number of the handshake never changes. *)
  WriteControl_seq msg c r c' : WriteControl msg c = Some (r, c') → LastClientSeq c' = LastClientSeq c;
  WriteData_seq msg c r c' : WriteData msg c = Some (r, c') → LastClientSeq c' = LastClientSeq c;
  ReadData_seq c r c' : ReadData c = Some (r, c') → LastClientSeq c' = LastClientSeq c;
  ReadControl_seq c r c' : ReadControl c = Some (r, c') → LastClientSeq c' = LastClientSeq c;
  SetDeadline_seq on c : LastClientSeq (SetControlReadDeadline on c) = LastClientSeq c;
  StartDemux_seq c : LastClientSeq (StartDemux c) = LastClientSeq c;
  Close_seq c : LastClientSeq (Close c) = LastClientSeq c;
  (** Before [StartDemux] a read under a deadline returns. *)
  WriteControl_fresh msg c r c' : WriteControl msg c = Some (r, c') → fresh c → fresh c';
  ReadControl_wf c m c' : fresh c → ReadControl c = Some (Ok m, c') → msg_wf m;
  ReadControl_deadline c : fresh c → ReadControl (SetControlReadDeadline true c) ≠ None;
  (** A closed connection refuses writes and stays closed. *)
  Close_closed c cs ds : sent c cs ds → closed (Close c);
  closed_WriteControl msg c : closed c → WriteControl msg c = Some (Err ErrClosed, c);
  closed_WriteData msg c : closed c → WriteData msg c = Some (Err ErrClosed, c);
  Close_idempotent c : closed c → closed (Close c);
  background_sent c c' cs ds : background c c' → sent c cs ds → sent c' cs ds;
  background_seq c c' : background c c' → LastClientSeq c' = LastClientSeq c;
  (** That [Close] was called stays so. *)
  Close_shut c : shut (Close c);
  WriteControl_shut msg c r c' : WriteControl msg c = Some (r, c') → shut c → shut c';
  WriteData_shut msg c r c' : WriteData msg c = Some (r, c') → shut c → shut c';
  ReadControl_shut c r c' : ReadControl c = Some (r, c') → shut c → shut c';
  ReadData_shut c r c' : ReadData c = Some (r, c') → shut c → shut c';
  SetDeadline_shut on c : shut c → shut (SetControlReadDeadline on c);
  StartDemux_shut c : shut c → shut (StartDemux c);
  background_shut c c' : background c c' → shut c → shut c';
}.

(** What runs beside the event loops: the connection's own goroutine and the
    readers started on its two streams. *)
Section goroutines.
Context {C : Type} `{ConnLaws C}.

Definition goroutine_step (c c' : C) : Prop :=
  background c c' ∨ (∃ r, ReadControl c = Some (r, c')) ∨ (∃ r, ReadData c = Some (r, c')).

Lemma goroutine_frame c c' :
  goroutine_step c c' → LastClientSeq c' = LastClientSeq c ∧ ∀ cs ds, sent c cs ds → sent c' cs ds.
Proof.
  intros [Hb|[[r Hr]|[r Hr]]].
  - split; [by eapply background_seq|]. intros cs ds. by apply background_sent.
  - split; [by eapply ReadControl_seq|]. intros cs ds. by eapply ReadControl_sent.
  - split; [by eapply ReadData_seq|]. intros cs ds. by eapply ReadData_sent.
Qed.
End goroutines.

(** *** QUIC: one stream each *)

Definition quic_sent (q : quicConn) (cs ds : list message) : Prop :=
  wire_sent (q_control q) cs ∧ ∃ ms, wire_sent (q_data q) ms ∧ ds = data_of ms.

(** A connection on which exactly these messages were written in full. *)
Lemma quic_sent_frames q cs ds :
  Forall (λ m, msg_wf m ∧ sendable m = true) (cs ++ ds) → data_of ds = ds →
  wr_out (w_wr (q_control q)) = frames cs → wr_out (w_wr (q_data q)) = frames ds → quic_sent q cs ds.
Proof.
  intros [Hc Hd]%Forall_app Hf Hoc Hod.
  split; [|exists ds; split; [|done]]; (split; [done|]); exists []; rewrite app_nil_r; by split_and!; [|left|].
Qed.

Lemma zoom_inv {S T A} (get : T → S) put (c : io S A) t r t' :
  io_zoom get put c t = Some (r, t') → ∃ s', c (get t) = Some (r, s') ∧ t' = put s' t.
Proof. unfold io_zoom. destruct (c _) as [[]|]; naive_solver. Qed.

Ltac zoomed H := apply zoom_inv in H as (? & H & ->).

#[export, refine] Instance quicConn_laws : ConnLaws quicConn := {|
  sent := quic_sent;
  fresh _ := True;
  closed q := w_closed (q_control q) = true ∧ w_closed (q_data q) = true;
  shut q := q_conn_closed q = true;
  background _ _ := False;
|}.
Proof.
  - intros m q cs ds r q' [Hc Hd] Hwf Hm Hw. zoomed Hw.
    destruct (wire_write_sent _ _ _ _ _ Hc Hwf Hw) as [(e & -> & ?)|[-> ?]]; [left|right]; unfold quic_sent; eauto.
  - intros m q cs ds r q' (Hc & ms & Hd & ->) Hwf Hm Hw. zoomed Hw.
    destruct (wire_write_sent _ _ _ _ _ Hd Hwf Hw) as [(e & -> & ?)|[-> ?]]; [left|right]; unfold quic_sent; eauto 6.
    split; [done|]. split; [done|]. eexists. split; [done|]. rewrite List.filter_app. simpl. by rewrite Hm.
  - intros q cs ds r q' Hr [Hc Hd]. zoomed Hr. apply wire_read_wr in Hr as (Hr & _).
    split; [by eapply wire_sent_wr|done].
  - intros q cs ds r q' Hr (Hc & ms & Hd & ->). zoomed Hr. apply wire_read_wr in Hr as (Hr & _).
    split; [done|]. exists ms. split; [by eapply wire_sent_wr|done].
  - done.
  - done.
  - done.
  - intros q cs ds cs' ds' (Hc & ms & Hd & ->) (Hc' & ms' & Hd' & ->).
    split; [by eapply wire_sent_det|]. by rewrite (wire_sent_det _ _ _ Hd Hd').
  - intros msg c r c' Hw. by zoomed Hw.
  - intros msg c r c' Hw. by zoomed Hw.
  - intros c r c' Hw. by zoomed Hw.
  - intros c r c' Hw. by zoomed Hw.
  - done.
  - done.
  - done.
  - done.
  - intros c m c' _ Hr. zoomed Hr. by eapply wire_read_wf.
  - intros c _. simpl. unfold quic_on_control, io_zoom, wire_read. simpl. by repeat case_match.
  - done.
  - intros msg c [Hc Hd]. simpl. unfold quic_on_control, io_zoom, wire_write. rewrite Hc. by destruct c.
  - intros msg c [Hc Hd]. simpl. unfold quic_on_data, io_zoom, wire_write. rewrite Hd. by destruct c.
  - done.
  - done.
  - done.
  - done.
  - intros msg c r c' Hw. by zoomed Hw.
  - intros msg c r c' Hw. by zoomed Hw.
  - intros c r c' Hw. by zoomed Hw.
  - intros c r c' Hw. by zoomed Hw.
  - done.
  - done.
  - done.
Defined.

(** *** TCP: one stream for both *)

(** [done] is closed together with the stream. *)
Definition tcp_sent (t : tcpConn) (cs ds : list message) : Prop :=
  (t_done t = true → w_closed (t_conn t) = true) ∧
  ∃ ms, wire_sent (t_conn t) ms ∧ cs = control_of ms ∧ ds = data_of ms.

(** What reads, deadlines and [StartDemux] leave alone. *)
Definition tcp_same (t t' : tcpConn) : Prop :=
  w_wr (t_conn t') = w_wr (t_conn t) ∧ w_closed (t_conn t') = w_closed (t_conn t) ∧
  t_done t' = t_done t ∧ t_lastClientSeq t' = t_lastClientSeq t.

Lemma tcp_sent_same t t' cs ds : tcp_same t t' → tcp_sent t cs ds → tcp_sent t' cs ds.
Proof.
  intros (Hw & Hc & Hd & _) (Hdone & ms & Hs & Hcs & Hds). split; [by rewrite Hc, Hd|].
  exists ms. split; [by eapply wire_sent_wr|done].
Qed.

(** A read changes neither the write side nor the handshake's number. *)
Lemma tcp_read_frame (ch : tcpConn → chan readResult) set (t : tcpConn) err r t' :
  (∀ c t, t_conn (set c t) = t_conn t ∧ t_done (set c t) = t_done t ∧
          t_lastClientSeq (set c t) = t_lastClientSeq t) →
  (if negb (t_demuxStarted t) then tcp_on_conn wire_read t else
   match chan_recv (ch t) with
   | None => None
   | Some (None, c) => Some (Err err, set c t)
   | Some (Some r, c) => Some (r, set c t)
   end) = Some (r, t') →
  tcp_same t t'.
Proof.
  intros Hset. destruct (t_demuxStarted t); simpl.
  - destruct (chan_recv _) as [[[]]|]; [| |done]; intros [= <- <-]; unfold tcp_same;
      destruct (Hset c t) as (-> & -> & ->); done.
  - intros Hr. zoomed Hr. by apply wire_read_wr in Hr as (? & _ & ?).
Qed.

Lemma tcp_ReadControl_same t r t' : tcp_ReadControl t = Some (r, t') → tcp_same t t'.
Proof. by apply tcp_read_frame. Qed.

Lemma tcp_ReadData_same t r t' : tcp_ReadData t = Some (r, t') → tcp_same t t'.
Proof. by apply tcp_read_frame. Qed.

Lemma tcp_StartDemux_same t : tcp_same t (tcp_StartDemux t).
Proof. unfold tcp_StartDemux. by destruct (t_demuxStarted t). Qed.

Lemma tcp_write_sent m t cs ds r t' :
  tcp_sent t cs ds → msg_wf m → tcp_on_conn (wire_write (Ptr m)) t = Some (r, t') →
  (∃ e, r = Err e ∧ tcp_sent t' cs ds) ∨
  (r = Ok () ∧ tcp_sent t' (cs ++ control_of [m]) (ds ++ data_of [m])).
Proof.
  intros (Hd & ms & Hs & -> & ->) Hwf Hw. zoomed Hw.
  assert (t_done t = true → w_closed x = true) as Hd'.
  { apply wire_write_rd in Hw as (_ & _ & ->). done. }
  destruct (wire_write_sent _ _ _ _ _ Hs Hwf Hw) as [(e & -> & ?)|[-> ?]]; [left|right].
  - exists e. split; [done|]. split; [done|]. by exists ms.
  - split; [done|]. split; [done|]. exists (ms ++ [m]). by rewrite !List.filter_app.
Qed.

Lemma tcp_Close_sent t cs ds :
  tcp_sent t cs ds → tcp_sent (tcp_Close t) cs ds ∧ w_closed (t_conn (tcp_Close t)) = true.
Proof. unfold tcp_Close. intros Hs. pose proof Hs as [Hd Hm]. destruct (t_done t); [auto|]. by repeat split. Qed.

Lemma demux_iter_same b t t' : demux_iter b t = Some (Ok t') → tcp_same t t'.
Proof.
  unfold demux_iter. destruct (t_demux t) as [| |m]; [done| |].
  - destruct (tcp_on_conn wire_read t) as [[[m|e|p] t1]|] eqn:Er; [| |done|done];
      injection 1 as <-; zoomed Er; apply wire_read_wr in Er as (? & _ & ?); done.
  - destruct (_ && _); [intros [= <-]; by destruct (is_data m)|].
    destruct (t_done t) eqn:Hd; [|done]. intros [= <-]. unfold tcp_same. by rewrite Hd.
Qed.

#[export, refine] Instance tcpConn_laws : ConnLaws tcpConn := {|
  sent := tcp_sent;
  fresh t := t_demuxStarted t = false;
  closed t := w_closed (t_conn t) = true;
  shut t := t_done t = true;
  background t t' := ∃ b, demux_iter b t = Some (Ok t');
|}.
Proof.
  - intros m t cs ds r t' Hs Hwf Hm Hw. pose proof (tcp_write_sent m _ _ _ _ _ Hs Hwf Hw) as Hr.
    simpl in Hr. rewrite Hm, app_nil_r in Hr. done.
  - intros m t cs ds r t' Hs Hwf Hm Hw. pose proof (tcp_write_sent m _ _ _ _ _ Hs Hwf Hw) as Hr.
    simpl in Hr. rewrite Hm, app_nil_r in Hr. done.
  - intros t cs ds r t' Hr%tcp_ReadControl_same. by apply tcp_sent_same.
  - intros t cs ds r t' Hr%tcp_ReadData_same. by apply tcp_sent_same.
  - intros on t cs ds. by apply tcp_sent_same.
  - intros t cs ds. apply tcp_sent_same, tcp_StartDemux_same.
  - intros t cs ds Hs. by apply tcp_Close_sent.
  - intros t cs ds cs' ds' (_ & ms & Hs & -> & ->) (_ & ms' & Hs' & -> & ->).
    by rewrite (wire_sent_det _ _ _ Hs Hs').
  - intros msg c r c' Hw. by zoomed Hw.
  - intros msg c r c' Hw. by zoomed Hw.
  - by intros c r c' (_ & _ & _ & ?)%tcp_ReadData_same.
  - by intros c r c' (_ & _ & _ & ?)%tcp_ReadControl_same.
  - done.
  - intros t. apply (tcp_StartDemux_same t).
  - intros t. simpl. unfold tcp_Close. by destruct (t_done t).
  - intros msg t r t' Hw. by zoomed Hw.
  - intros t m t' Hf. simpl. unfold tcp_ReadControl. rewrite Hf. simpl. intros Hr. zoomed Hr. by eapply wire_read_wf.
  - intros t Hf. simpl. unfold tcp_ReadControl, tcp_on_conn, io_zoom, wire_read. simpl. rewrite Hf. simpl.
    by repeat case_match.
  - intros t cs ds Hs. by apply (tcp_Close_sent t cs ds).
  - intros msg t Hc. simpl. unfold tcp_on_conn, io_zoom, wire_write. rewrite Hc. by destruct t.
  - intros msg t Hc. simpl. unfold tcp_on_conn, io_zoom, wire_write. rewrite Hc. by destruct t.
  - intros t. simpl. unfold tcp_Close. by destruct (t_done t).
  - intros t t' cs ds [b Hb]. by eapply tcp_sent_same, demux_iter_same.
  - intros t t' [b Hb]. by apply demux_iter_same in Hb as (_ & _ & _ & ?).
  - intros t. simpl. unfold tcp_Close. by destruct (t_done t) eqn:Hd.
  - intros msg t r t' Hw. by zoomed Hw.
  - intros msg t r t' Hw. by zoomed Hw.
  - by intros t r t' (_ & _ & -> & _)%tcp_ReadControl_same.
  - by intros t r t' (_ & _ & -> & _)%tcp_ReadData_same.
  - done.
  - intros t Hd. simpl. by destruct (tcp_StartDemux_same t) as (_ & _ & -> & _).
  - by intros t t' [b (_ & _ & -> & _)%demux_iter_same].
Defined.

(** *** Either: a value of the interface *)

#[export] Instance sum_Conn {A B} `{Conn A, Conn B} : Conn (A + B) := {|
  ReadControl c := match c with
    | inl a => (λ '(r, a), (r, inl a)) <$> ReadControl a
    | inr b => (λ '(r, b), (r, inr b)) <$> ReadControl b end;
  WriteControl msg c := match c with
    | inl a => (λ '(r, a), (r, inl a)) <$> WriteControl msg a
    | inr b => (λ '(r, b), (r, inr b)) <$> WriteControl msg b end;
  ReadData c := match c with
    | inl a => (λ '(r, a), (r, inl a)) <$> ReadData a
    | inr b => (λ '(r, b), (r, inr b)) <$> ReadData b end;
  WriteData msg c := match c with
    | inl a => (λ '(r, a), (r, inl a)) <$> WriteData msg a
    | inr b => (λ '(r, b), (r, inr b)) <$> WriteData msg b end;
  SetControlReadDeadline on := sum_map (SetControlReadDeadline on) (SetControlReadDeadline on);
  LastClientSeq c := match c with inl a => LastClientSeq a | inr b => LastClientSeq b end;
  StartDemux := sum_map StartDemux StartDemux;
  Close := sum_map Close Close;
|}.

Definition on_either {A B} (f : A → Prop) (g : B → Prop) (c : A + B) : Prop :=
  match c with inl a => f a | inr b => g b end.

Ltac either_call := cbn [ReadControl ReadData WriteControl WriteData LastClientSeq on_either sum_Conn] in *;
  match goal with
  | |- context [?c <$> ?x] => destruct x as [[]|] eqn:?; simpl
  | Hc : context [?c <$> ?x] |- _ => destruct x as [[]|] eqn:?; simpl in Hc; [injection Hc as <- <-|done]
  end; cbn [LastClientSeq on_either].

#[export, refine] Instance sum_laws {A B} `{ConnLaws A, ConnLaws B} : ConnLaws (A + B) := {|
  sent c cs ds := on_either (λ a, sent a cs ds) (λ b, sent b cs ds) c;
  fresh := on_either fresh fresh;
  closed := on_either closed closed;
  shut := on_either shut shut;
  background c c' := match c, c' with
    | inl a, inl a' => background a a' | inr b, inr b' => background b b' | _, _ => False end;
|}.
Proof.
  - intros m [a|b] cs ds r c' ? ? ? Hw; either_call; by eapply WriteControl_sent.
  - intros m [a|b] cs ds r c' ? ? ? Hw; either_call; by eapply WriteData_sent.
  - intros [a|b] cs ds r c' Hw ?; either_call; by eapply ReadControl_sent.
  - intros [a|b] cs ds r c' Hw ?; either_call; by eapply ReadData_sent.
  - intros on [a|b] cs ds; apply SetDeadline_sent.
  - intros [a|b] cs ds; apply StartDemux_sent.
  - intros [a|b] cs ds; apply Close_sent.
  - intros [a|b] cs ds cs' ds'; apply sent_det.
  - intros msg [a|b] r c' Hw; either_call; by eapply WriteControl_seq.
  - intros msg [a|b] r c' Hw; either_call; by eapply WriteData_seq.
  - intros [a|b] r c' Hw; either_call; by eapply ReadData_seq.
  - intros [a|b] r c' Hw; either_call; by eapply ReadControl_seq.
  - intros on [a|b]; simpl; [apply (SetDeadline_seq on a)|apply (SetDeadline_seq on b)].
  - intros [a|b]; simpl; [apply (StartDemux_seq a)|apply (StartDemux_seq b)].
  - intros [a|b]; simpl; [apply (Close_seq a)|apply (Close_seq b)].
  - intros msg [a|b] r c' Hw ?; either_call; by eapply WriteControl_fresh.
  - intros [a|b] m c' Hf Hw; simpl in Hw.
    + destruct (ReadControl a) as [[r x]|] eqn:E; [|done]. injection Hw as -> <-.
      exact (ReadControl_wf a m x Hf E).
    + destruct (ReadControl b) as [[r x]|] eqn:E; [|done]. injection Hw as -> <-.
      exact (ReadControl_wf b m x Hf E).
  - intros [a|b] Hf; [pose proof (ReadControl_deadline a Hf)|pose proof (ReadControl_deadline b Hf)];
      simpl; by destruct (ReadControl _) as [[]|].
  - intros [a|b] cs ds; apply Close_closed.
  - intros msg [a|b] Hc; simpl; by rewrite closed_WriteControl.
  - intros msg [a|b] Hc; simpl; by rewrite closed_WriteData.
  - intros [a|b]; apply Close_idempotent.
  - intros [a|b] [a'|b'] cs ds; try done; apply background_sent.
  - intros [a|b] [a'|b']; try done; [apply (background_seq a a')|apply (background_seq b b')].
  - intros [a|b]; [apply (Close_shut a)|apply (Close_shut b)].
  - intros msg [a|b] r c' Hw; either_call; by eapply WriteControl_shut.
  - intros msg [a|b] r c' Hw; either_call; by eapply WriteData_shut.
  - intros [a|b] r c' Hw; either_call; by eapply ReadControl_shut.
  - intros [a|b] r c' Hw; either_call; by eapply ReadData_shut.
  - intros on [a|b]; apply SetDeadline_shut.
  - intros [a|b]; apply StartDemux_shut.
  - intros [a|b] [a'|b']; try done; [apply (background_shut a a')|apply (background_shut b b')].
Defined.

(** ** The demultiplexer and its readers, interleaved

    A configuration: the connection and what [ReadControl] and [ReadData]
    have returned so far. *)
Record demux_conf : Type := Conf {
  dc_conn : tcpConn;
  dc_control : list readResult;
  dc_data : list readResult;
}.

(** A call made on the connection by another goroutine. *)
Inductive caller_step : demux_conf → demux_conf → Prop :=
| step_control t t' r gc gd :
  tcp_ReadControl t = Some (r, t') → caller_step (Conf t gc gd) (Conf t' (gc ++ [r]) gd)
| step_data t t' r gc gd :
  tcp_ReadData t = Some (r, t') → caller_step (Conf t gc gd) (Conf t' gc (gd ++ [r]))
| step_write msg t t' r gc gd :
  tcp_on_conn (wire_write msg) t = Some (r, t') → caller_step (Conf t gc gd) (Conf t' gc gd)
| step_close t gc gd : caller_step (Conf t gc gd) (Conf (tcp_Close t) gc gd).

Inductive demux_step : demux_conf → demux_conf → Prop :=
| step_demux b t t' gc gd :
  demux_iter b t = Some (Ok t') → demux_step (Conf t gc gd) (Conf t' gc gd)
| step_caller c c' : caller_step c c' → demux_step c c'.

(** [demux_path n c c']: an interleaving that has [n] iterations of the
    demultiplexer in it. *)
Inductive demux_path : nat → demux_conf → demux_conf → Prop :=
| path_nil c : demux_path 0 c c
| path_iter b t t' gc gd n c' :
  demux_iter b t = Some (Ok t') → demux_path n (Conf t' gc gd) c' →
  demux_path (S n) (Conf t gc gd) c'
| path_caller c c1 n c' : caller_step c c1 → demux_path n c1 c' → demux_path n c c'.

(** The messages successive reads deliver from a stream. *)
Inductive delivers : reader → list message → reader → Prop :=
| delivers_nil r : delivers r [] r
| delivers_snoc r ms r' m r'' :
  delivers r ms r' → ReadMessage r' = Some (Ok m, r'') → delivers r (ms ++ [m]) r''.

(** A channel whose consumer has got [got]: together they hold the messages
    [ms] in order, then only errors. *)
Definition routed (ms : list message) (got : list readResult) (ch : chan readResult) : Prop :=
  len (ch_buf ch) <= ch_cap ch ∧
  ∃ errs, got ++ ch_buf ch = (Ok <$> ms) ++ errs ∧ Forall (λ r, is_ok r = false) errs ∧
          (errs ≠ [] → ch_closed ch = true).

(** Where the reads of an open connection have got is where its stream is; a
    closed one has only a beginning of that left, which ends. *)
Definition follows (r1 : reader) (t : tcpConn) : Prop :=
  let rd := w_rd (t_conn t) in
  if t_done t
  then rd_in rd `prefix_of` rd_in r1 ∧ is_Some (rd_fin rd) ∧ len (rd_in rd) <= Z.max 0 (w_held (t_conn t))
  else rd = r1.

Definition pending (t : tcpConn) : list message :=
  match t_demux t with DemuxSending m => [m] | _ => [] end.

(** [ms] has been forwarded, and [lost] has been read: it is in the hands of
    the demultiplexer, or it was dropped because of a [Close]. *)
Definition demux_inv (r0 : reader) (c : demux_conf) : Prop :=
  let t := dc_conn c in
  t_demuxStarted t = true ∧ (t_done t = true → w_closed (t_conn t) = true) ∧
  ch_cap (t_controlCh t) = 16 ∧ ch_cap (t_dataCh t) = 16 ∧
  (ch_closed (t_controlCh t) = true ↔ t_demux t = DemuxOff) ∧
  (ch_closed (t_dataCh t) = true ↔ t_demux t = DemuxOff) ∧
  ∃ ms lost r1, delivers r0 (ms ++ lost) r1 ∧
    (t_demux t ≠ DemuxOff → follows r1 t) ∧
    (lost = pending t ∨ t_demux t = DemuxOff ∧ t_done t = true) ∧
    routed (control_of ms) (dc_control c) (t_controlCh t) ∧
    routed (data_of ms) (dc_data c) (t_dataCh t).

Lemma routed_send ms got ch m :
  routed ms got ch → ch_closed ch = false → chan_can_send ch = true →
  routed (ms ++ [m]) got (chan_send ch (Ok m)).
Proof.
  intros (Hl & errs & Hg & He & Hc) Ho Hs%Z.ltb_lt. split.
  { simpl. rewrite len_app, len_cons, len_nil. lia. }
  assert (errs = []) as -> by (destruct errs; [done|]; by rewrite Hc in Ho).
  exists []. simpl. by rewrite app_assoc, Hg, !app_nil_r, fmap_app.
Qed.

Lemma routed_close ms got ch : routed ms got ch → routed ms got (chan_close ch).
Proof. intros (Hl & errs & Hg & He & Hc). split; [done|]. by exists errs. Qed.

Lemma routed_fail ms got ch e :
  routed ms got ch → routed ms got (chan_close (chan_try_send ch (Err e))).
Proof.
  unfold chan_try_send. intros Hr. destruct (chan_can_send ch) eqn:Hs; [|by apply routed_close].
  apply Z.ltb_lt in Hs. destruct Hr as (Hl & errs & Hg & He & _). split.
  { simpl. rewrite len_app, len_cons, len_nil. lia. }
  exists (errs ++ [Err e]). simpl. rewrite app_assoc, Hg, app_assoc. split_and!; [done| |done].
  by apply Forall_app_2, Forall_singleton.
Qed.

Lemma routed_recv ms got ch r ch' :
  routed ms got ch → chan_recv ch = Some (Some r, ch') → routed ms (got ++ [r]) ch' ∧
    ch_cap ch' = ch_cap ch ∧ ch_closed ch' = ch_closed ch.
Proof.
  intros (Hl & errs & Hg & He & Hc). unfold chan_recv. destruct (ch_buf ch) as [|v vs] eqn:Eb;
    [by destruct (ch_closed ch)|]. intros [= <- <-]. split; [|done]. rewrite len_cons in Hl. split.
  { simpl. lia. }
  exists errs. simpl. by rewrite <-app_assoc.
Qed.

Lemma routed_recv_closed ms got ch ch' e :
  routed ms got ch → chan_recv ch = Some (None, ch') → ch' = ch ∧ routed ms (got ++ [Err e]) ch.
Proof.
  intros (Hl & errs & Hg & He & Hc). unfold chan_recv. destruct (ch_buf ch) as [|v vs] eqn:Eb; [|done].
  destruct (ch_closed ch) eqn:Ecl; [|done]. intros [= <-]. split; [done|]. split; [by rewrite Eb|].
  exists (errs ++ [Err e]). rewrite Eb, app_nil_r in *. rewrite Hg, <-app_assoc. split_and!; [done| |done].
  by apply Forall_app_2, Forall_singleton.
Qed.

Lemma data_of_snoc ms m : data_of (ms ++ [m]) = data_of ms ++ data_of [m].
Proof. apply List.filter_app. Qed.
Lemma control_of_snoc ms m : control_of (ms ++ [m]) = control_of ms ++ control_of [m].
Proof. apply List.filter_app. Qed.

Lemma wire_read_ok w m w' : wire_read w = Some (Ok m, w') →
  ReadMessage (w_rd w) = Some (Ok m, w_rd w').
Proof. unfold wire_read. repeat case_match; naive_solver. Qed.

Lemma follows_read r1 t m t' :
  follows r1 t → tcp_on_conn wire_read t = Some (Ok m, t') →
  ∃ r2, ReadMessage r1 = Some (Ok m, r2) ∧ follows r2 t'.
Proof.
  intros Hf Hr. zoomed Hr. pose proof (wire_read_held _ _ _ Hr) as Hh. apply wire_read_ok in Hr.
  unfold follows in *. simpl. destruct (t_done t).
  - destruct Hf as (Hp & Hfin & Hl). destruct (ReadMessage_extends _ _ _ _ Hr Hp) as (r2 & ? & ?).
    exists r2. split_and!; [done|done| |].
    + by apply ReadMessage_inv in Hr as (_ & _ & -> & _).
    + apply ReadMessage_shrinks in Hr. rewrite Hh. unfold HeaderSize in Hr. lia.
  - rewrite Hf in Hr. by eexists.
Qed.

Lemma follows_close r1 t : follows r1 t → follows r1 (tcp_Close t).
Proof.
  unfold follows, tcp_Close. destruct (t_done t) eqn:Hd; [by rewrite Hd|]. simpl. intros <-.
  split_and!; [apply prefix_take|by eexists|]. rewrite len_take. lia.
Qed.

Lemma demux_iter_inv r0 b t t' gc gd :
  demux_iter b t = Some (Ok t') → demux_inv r0 (Conf t gc gd) → demux_inv r0 (Conf t' gc gd).
Proof.
  intros Hi (Hst & Hdc & Hcc & Hcd & Hc1 & Hc2 & ms & lost & r1 & Hdel & Hr1 & Hlost & Hrc & Hrd).
  cbn [dc_conn dc_control dc_data] in *. unfold demux_iter in Hi.
  destruct (t_demux t) as [| |m] eqn:Ed; [done| |].
  - destruct (tcp_on_conn wire_read t) as [[[m|e|p] t1]|] eqn:Er; [| |done|done];
      injection Hi as <-; zoomed Er.
    + pose proof (wire_read_wr _ _ _ Er) as (_ & _ & Ecl).
      destruct (follows_read r1 t m (tcp_set_conn x t)) as (r2 & Hm & Hf2); [by apply Hr1|unfold tcp_on_conn, io_zoom; by rewrite Er|].
      split_and!; simpl; try (by rewrite Ecl); try done; try (rewrite Ed; done).
      { rewrite Hc1. done. } { rewrite Hc2. done. }
      exists ms, [m], r2. split_and!; [|done|by left|done|done].
      destruct Hlost as [->|[? _]]; [|done]. unfold pending in Hdel. rewrite Ed, app_nil_r in Hdel.
      by eapply delivers_snoc.
    + pose proof (wire_read_wr _ _ _ Er) as (_ & _ & Ecl).
      split_and!; simpl; try (by rewrite Ecl); try done.
      { unfold chan_try_send. by destruct (chan_can_send _). }
      { unfold chan_try_send. by destruct (chan_can_send _). }
      exists ms, lost, r1. split_and!; [done|done| |by apply routed_fail|by apply routed_fail].
      left. destruct Hlost as [->|[? _]]; [|done]. unfold pending. by rewrite Ed.
  - destruct Hlost as [->|[? _]]; [|done]. unfold pending in Hdel. rewrite Ed in Hdel.
    assert (ch_closed (t_controlCh t) = false ∧ ch_closed (t_dataCh t) = false) as [Ho1 Ho2].
    { destruct Hc1, Hc2. split; apply not_true_is_false; intros ?; naive_solver. }
    destruct (chan_can_send _ && _) eqn:Es.
    + apply andb_true_iff in Es as [Es _]. injection Hi as <-.
      split_and!; try (destruct (is_data m); simpl; done).
      * destruct (is_data m); simpl; rewrite Ho1; done.
      * destruct (is_data m); simpl; rewrite Ho2; done.
      * exists (ms ++ [m]), [], r1. rewrite app_nil_r, data_of_snoc, control_of_snoc.
        split_and!; [done|by destruct (is_data m); intros _; apply Hr1|by left| |];
          simpl; destruct (is_data m); simpl; rewrite ?app_nil_r; try done; by apply routed_send.
    + destruct (t_done t) eqn:Edn; [|done]. injection Hi as <-.
      split_and!; simpl; try done; [by rewrite Edn|].
      exists ms, [m], r1. split_and!; [done|done|by right| |]; by apply routed_close.
Qed.

Lemma caller_step_inv r0 c c' : caller_step c c' → demux_inv r0 c → demux_inv r0 c'.
Proof.
  intros Hs Hinv. destruct Hs as [t t' r gc gd Hi|t t' r gc gd Hi|msg t t' r gc gd Hi|t gc gd].
  - destruct Hinv as (Hst & Hdc & Hcc & Hcd & Hc1 & Hc2 & ms & lost & r1 & Hdel & Hr1 & Hlost & Hrc & Hrd).
    simpl in *. unfold tcp_ReadControl in Hi. rewrite Hst in Hi. simpl in Hi.
    destruct (chan_recv _) as [[[v|] ch]|] eqn:Er; [| |done]; injection Hi as <- <-.
    + destruct (routed_recv _ _ _ _ _ Hrc Er) as (Hrc' & Ec & Eo).
      split_and!; simpl; try done; [congruence|by rewrite Eo|]. by exists ms, lost, r1.
    + destruct (routed_recv_closed _ _ _ _ (ErrNew "control channel closed") Hrc Er) as (-> & Hrc').
      split_and!; simpl; try done. by exists ms, lost, r1.
  - destruct Hinv as (Hst & Hdc & Hcc & Hcd & Hc1 & Hc2 & ms & lost & r1 & Hdel & Hr1 & Hlost & Hrc & Hrd).
    simpl in *. unfold tcp_ReadData in Hi. rewrite Hst in Hi. simpl in Hi.
    destruct (chan_recv _) as [[[v|] ch]|] eqn:Er; [| |done]; injection Hi as <- <-.
    + destruct (routed_recv _ _ _ _ _ Hrd Er) as (Hrd' & Ec & Eo).
      split_and!; simpl; try done; [congruence|by rewrite Eo|]. by exists ms, lost, r1.
    + destruct (routed_recv_closed _ _ _ _ (ErrNew "data channel closed") Hrd Er) as (-> & Hrd').
      split_and!; simpl; try done. by exists ms, lost, r1.
  - zoomed Hi. pose proof (wire_write_held _ _ _ _ Hi) as Hh. apply wire_write_rd in Hi as (Hrd & _ & Hcl). unfold demux_inv, follows in *. simpl in *.
    by rewrite Hrd, Hcl, Hh.
  - destruct Hinv as (Hst & Hdc & Hcc & Hcd & Hc1 & Hc2 & ms & lost & r1 & Hdel & Hr1 & Hlost & Hrc & Hrd).
    cbn [dc_conn dc_control dc_data] in *. unfold demux_inv. cbn [dc_conn dc_control dc_data].
    destruct (t_done t) eqn:Edn; [unfold tcp_Close; rewrite Edn; rewrite Edn; naive_solver|].
    assert (t_demux t ≠ DemuxOff → follows r1 (tcp_Close t)) as Hf by (intros ?; by apply follows_close, Hr1).
    revert Hf. unfold tcp_Close. rewrite Edn. simpl. intros Hf.
    split_and!; try done. exists ms, lost, r1. split_and!; try done. left. by destruct Hlost as [|[_ ?]].
Qed.

Lemma demux_step_inv r0 c c' : demux_step c c' → demux_inv r0 c → demux_inv r0 c'.
Proof. intros []; [by eapply demux_iter_inv|by apply caller_step_inv]. Qed.

Lemma demux_init_inv w s : demux_inv (w_rd w) (Conf (tcp_StartDemux (newTCPConn w s)) [] []).
Proof.
  split_and!; simpl; try done. exists [], [], (w_rd w).
  split_and!; [constructor|done|by left|..]; (split; [done|]); by exists [].
Qed.

Lemma demux_reachable_inv w s c :
  rtc demux_step (Conf (tcp_StartDemux (newTCPConn w s)) [] []) c → demux_inv (w_rd w) c.
Proof.
  intros Hr. assert (demux_inv (w_rd w) (Conf (tcp_StartDemux (newTCPConn w s)) [] [])) as Hi
    by apply demux_init_inv.
  revert Hi. induction Hr; eauto using demux_step_inv.
Qed.

(** ** After [Close] *)

Lemma demux_off_returns r0 c :
  demux_inv r0 c → t_demux (dc_conn c) = DemuxOff →
  is_Some (tcp_ReadControl (dc_conn c)) ∧ is_Some (tcp_ReadData (dc_conn c)).
Proof.
  intros (Hst & _ & _ & _ & Hc1 & Hc2 & _) Hoff. unfold tcp_ReadControl, tcp_ReadData, chan_recv. rewrite Hst. simpl.
  rewrite (proj2 Hc1 Hoff), (proj2 Hc2 Hoff).
  by split; [destruct (ch_buf (t_controlCh _))|destruct (ch_buf (t_dataCh _))].
Qed.

Lemma demux_iter_unblocked r0 c b :
  demux_inv r0 c → t_done (dc_conn c) = true → t_demux (dc_conn c) ≠ DemuxOff → is_Some (demux_iter b (dc_conn c)).
Proof.
  intros (_ & _ & _ & _ & _ & _ & ms & lost & r1 & _ & Hf & _) Hd Hon. specialize (Hf Hon).
  unfold follows in Hf. rewrite Hd in Hf. destruct Hf as (_ & Hfin & _). unfold demux_iter.
  destruct (t_demux _) as [| |m]; [done| |].
  - destruct (ReadMessage_ends _ Hfin) as [[r rd] Hr]. unfold tcp_on_conn, io_zoom, wire_read. rewrite Hr.
    by destruct r; eexists.
  - rewrite Hd. by destruct (_ && _); eexists.
Qed.

(** What the demultiplexer can still do: a message is read and forwarded. *)
Definition demux_left (t : tcpConn) : Z :=
  match t_demux t with
  | DemuxOff => 0
  | DemuxReading => 2 * (len (rd_in (w_rd (t_conn t))) / HeaderSize) + 1
  | DemuxSending _ => 2 * (len (rd_in (w_rd (t_conn t))) / HeaderSize) + 2
  end.

Lemma headers_nonneg l : 0 <= len (l : bytes) / HeaderSize.
Proof. pose proof (len_nonneg l). unfold HeaderSize. apply Z.div_pos; lia. Qed.

Lemma demux_left_nonneg t : 0 <= demux_left t.
Proof. unfold demux_left. pose proof (headers_nonneg (rd_in (w_rd (t_conn t)))). destruct (t_demux t); lia. Qed.

Lemma demux_left_held r0 c :
  demux_inv r0 c → t_done (dc_conn c) = true →
  demux_left (dc_conn c) <= 2 * (Z.max 0 (w_held (t_conn (dc_conn c))) / HeaderSize) + 2.
Proof.
  intros (_ & _ & _ & _ & _ & _ & ms & lost & r1 & _ & Hf & _) Hd. unfold follows in Hf. rewrite Hd in Hf.
  assert (0 <= Z.max 0 (w_held (t_conn (dc_conn c))) / HeaderSize) by (apply Z.div_pos; unfold HeaderSize; lia).
  unfold demux_left. destruct (t_demux _) eqn:Ed; [lia|..];
    (destruct Hf as (_ & _ & Hl); [done|]); apply (Z.div_le_mono _ _ HeaderSize) in Hl; unfold HeaderSize in *; lia.
Qed.

Lemma demux_left_iter b t t' : demux_iter b t = Some (Ok t') → demux_left t' + 1 <= demux_left t.
Proof.
  unfold demux_iter, demux_left. destruct (t_demux t) as [| |m]; [done| |].
  - pose proof (headers_nonneg (rd_in (w_rd (t_conn t)))).
    destruct (tcp_on_conn wire_read t) as [[[m|e|p] t1]|] eqn:Er; [| |done|done]; injection 1 as <-; [|simpl; lia].
    zoomed Er. apply wire_read_ok, ReadMessage_shrinks in Er. simpl.
    assert (len (rd_in (w_rd x)) + 1 * HeaderSize <= len (rd_in (w_rd (t_conn t)))) as Hl by lia.
    apply (Z.div_le_mono _ _ HeaderSize) in Hl; [|unfold HeaderSize; lia].
    rewrite Z.div_add in Hl by done. lia.
  - pose proof (headers_nonneg (rd_in (w_rd (t_conn t)))).
    destruct (_ && _); [intros [= <-]; destruct (is_data m); simpl; lia|].
    destruct (t_done t); [|done]. intros [= <-]. simpl. lia.
Qed.

(** The other goroutines give it nothing more to do. *)
Lemma demux_left_caller c c' :
  caller_step c c' → t_demuxStarted (dc_conn c) = true → t_done (dc_conn c) = true →
  t_done (dc_conn c') = true ∧ demux_left (dc_conn c') = demux_left (dc_conn c).
Proof.
  intros Hs Hst Hd. destruct Hs as [t t' r gc gd Hi|t t' r gc gd Hi|msg t t' r gc gd Hi|t gc gd]; simpl in *.
  - unfold tcp_ReadControl in Hi. rewrite Hst in Hi. simpl in Hi. by repeat case_match; simplify_eq.
  - unfold tcp_ReadData in Hi. rewrite Hst in Hi. simpl in Hi. by repeat case_match; simplify_eq.
  - zoomed Hi. apply wire_write_rd in Hi as (Hrd & _). split; [done|]. unfold demux_left. simpl. by rewrite Hrd.
  - unfold tcp_Close. by rewrite Hd.
Qed.

Lemma demux_path_left r0 n c c' :
  demux_path n c c' → demux_inv r0 c → t_done (dc_conn c) = true →
  Z.of_nat n + demux_left (dc_conn c') <= demux_left (dc_conn c).
Proof.
  induction 1 as [c|b t t' gc gd n c' Hi Hp IH|c c1 n c' Hs Hp IH]; intros Hinv Hd.
  - lia.
  - pose proof (demux_left_iter _ _ _ Hi). pose proof (demux_iter_same _ _ _ Hi) as (_ & _ & Hdone & _).
    apply (demux_iter_inv _ _ _ _ gc gd Hi) in Hinv. simpl in *. specialize (IH Hinv). rewrite Hdone in IH. specialize (IH Hd). lia.
  - destruct (demux_left_caller _ _ Hs (proj1 Hinv) Hd) as [Hd1 <-].
    apply (caller_step_inv _ _ _ Hs) in Hinv. auto.
Qed.

(** ** Lemmas on deliveries *)

Lemma delivers_app r a r1 b r2 : delivers r a r1 → delivers r1 b r2 → delivers r (a ++ b) r2.
Proof.
  intros Ha Hb. induction Hb as [|r1 ms r' m r'' Hb IH Hm]; [by rewrite app_nil_r|].
  rewrite app_assoc. by eapply delivers_snoc; [apply IH|].
Qed.

Lemma delivers_ReadMessages r ms r' n :
  delivers r ms r' → (ReadMessages (List.length ms + n) r).1 = ms ++ (ReadMessages n r').1.
Proof.
  intros Hd. revert n. induction Hd as [r|r ms r' m r'' Hd IH Hm]; intros n; [done|].
  rewrite length_app. simpl List.length. replace (_ + 1 + n)%nat with (List.length ms + S n)%nat by lia.
  rewrite IH. cbn [ReadMessages]. rewrite Hm. destruct (ReadMessages n r''). simpl. by rewrite <-app_assoc.
Qed.

Lemma delivers_cut ms q b fin ms' r' :
  Forall msg_wf ms → Forall (λ m, readable m = true) ms → partial q →
  b `prefix_of` frames ms ++ q → delivers (Reader b fin) ms' r' → ms' `prefix_of` ms.
Proof.
  intros Hwf Hr Hq Hb Hd. pose proof (ReadMessages_cut ms q b fin (List.length ms' + 0) Hwf Hr Hq Hb) as Hp.
  rewrite (delivers_ReadMessages _ _ _ 0 Hd) in Hp. etrans; [|exact Hp]. by apply prefix_app_r.
Qed.

(** The messages among results. *)
Definition oks (l : list readResult) : list message :=
  omap (λ r, match r with Ok m => Some m | _ => None end) l.

Lemma oks_app l k : oks (l ++ k) = oks l ++ oks k.
Proof. apply omap_app. Qed.

Lemma oks_ok ms : oks (Ok <$> ms) = ms.
Proof. induction ms as [|m ms IH]; [done|]. change (oks _) with (m :: oks (Ok <$> ms)). by rewrite IH. Qed.

Lemma oks_errs l : Forall (λ r, is_ok r = false) l → oks l = [].
Proof. induction 1 as [|[] l Hr Hl IH]; simpl; try done. Qed.

Lemma routed_oks ms got ch : routed ms got ch → oks got ++ oks (ch_buf ch) = ms.
Proof.
  intros (_ & errs & Hg & He & _). by rewrite <-oks_app, Hg, oks_app, oks_ok, (oks_errs errs), app_nil_r.
Qed.

Lemma filter_prefix {A} (f : A → bool) l k : l `prefix_of` k → List.filter f l `prefix_of` List.filter f k.
Proof. intros [r ->]. rewrite List.filter_app. by apply prefix_app_r. Qed.

Lemma data_control_readable ms :
  Forall (λ m, readable m = true) (control_of ms ++ data_of ms) → Forall (λ m, readable m = true) ms.
Proof.
  rewrite !Forall_forall. intros H m Hm. apply H. rewrite elem_of_app, !list_elem_of_In, !List.filter_In.
  apply list_elem_of_In in Hm. destruct (is_data m); auto.
Qed.

(** ** Properties *)

(** C14: The TCP demultiplexer routes every message to the reader of its kind.
    In every interleaving of the goroutine, the two readers, the writers and
    [Close], each reader has been handed, in order and without loss or
    duplication, the messages of its kind among those forwarded ([ms]), the
    rest waiting in its channel of at most 16, and errors only after the last
    message; at most the one message in transit is not forwarded, and it is
    dropped only if the connection was closed. *)
Theorem tcp_demux_routes w s c :
  rtc demux_step (Conf (tcp_StartDemux (newTCPConn w s)) [] []) c →
  ∃ ms lost r1, delivers (w_rd w) (ms ++ lost) r1 ∧
    (lost = pending (dc_conn c) ∨ t_done (dc_conn c) = true) ∧
    oks (dc_control c) ++ oks (ch_buf (t_controlCh (dc_conn c))) = control_of ms ∧
    oks (dc_data c) ++ oks (ch_buf (t_dataCh (dc_conn c))) = data_of ms ∧
    len (ch_buf (t_controlCh (dc_conn c))) <= 16 ∧ len (ch_buf (t_dataCh (dc_conn c))) <= 16.
Proof.
  intros (_ & _ & Hcc & Hcd & _ & _ & ms & lost & r1 & Hdel & _ & Hlost & Hrc & Hrd)%demux_reachable_inv.
  exists ms, lost, r1. split_and!; [done|tauto|by eapply routed_oks|by eapply routed_oks|..].
  - by destruct Hrc as [Hl _]; rewrite Hcc in Hl.
  - by destruct Hrd as [Hl _]; rewrite Hcd in Hl.
Qed.

(** A stream with two messages of each kind, of which a closed connection
    holds the first three. *)
Definition ex_in : bytes := frames [Data 1 [x61]; Resize 24 80; Data 2 [x62]; Shutdown].
Definition ex_wire : wire := Wire (Reader ex_in None) (Writer [] None None) false false 40.
Definition ex_demux : tcpConn := tcp_StartDemux (newTCPConn ex_wire 0).

Lemma tcp_demux_routes_witness :
  ∃ c, rtc demux_step (Conf ex_demux [] []) c ∧
    dc_control c = [Ok (Resize 24 80)] ∧ dc_data c = [Ok (Data 1 [x61])] ∧ t_demux (dc_conn c) = DemuxOff ∧
  ∃ ms lost r1, delivers (w_rd ex_wire) (ms ++ lost) r1 ∧
    (lost = pending (dc_conn c) ∨ t_done (dc_conn c) = true) ∧
    oks (dc_control c) ++ oks (ch_buf (t_controlCh (dc_conn c))) = control_of ms ∧
    oks (dc_data c) ++ oks (ch_buf (t_dataCh (dc_conn c))) = data_of ms ∧
    len (ch_buf (t_controlCh (dc_conn c))) <= 16 ∧ len (ch_buf (t_dataCh (dc_conn c))) <= 16.
Proof.
  eexists. match goal with |- ?R ∧ _ => assert R as Hr end.
  - do 2 (eapply rtc_l; [eapply (step_demux true); vm_compute; reflexivity|]).
    eapply rtc_l; [apply step_caller; eapply step_data; vm_compute; reflexivity|].
    do 2 (eapply rtc_l; [eapply (step_demux true); vm_compute; reflexivity|]).
    eapply rtc_l; [apply step_caller; eapply step_control; vm_compute; reflexivity|].
    eapply rtc_l; [apply step_caller; eapply step_close|].
    do 2 (eapply rtc_l; [eapply (step_demux true); vm_compute; reflexivity|]).
    apply rtc_refl.
  - split; [exact Hr|]. do 3 (split; [reflexivity|]). exact (tcp_demux_routes ex_wire 0 _ Hr).
Defined.

(** C15: What the sender wrote is what the peer reads, over one TCP stream cut
    at an arbitrary byte.  [cs] and [ds] are the control and data messages
    written; [hs] are the messages the peer read before it started its
    demultiplexer.  In every reachable configuration of the peer the control
    messages it was handed extend [hs] to a prefix of [cs], and the data
    messages to a prefix of [ds]. *)
Theorem tcp_link_in_order t cs ds b fin hs w s c :
  tcp_sent t cs ds → Forall (λ m, readable m = true) (cs ++ ds) →
  b `prefix_of` wr_out (w_wr (t_conn t)) → delivers (Reader b fin) hs (w_rd w) →
  rtc demux_step (Conf (tcp_StartDemux (newTCPConn w s)) [] []) c →
  control_of hs ++ oks (dc_control c) `prefix_of` cs ∧ data_of hs ++ oks (dc_data c) `prefix_of` ds.
Proof.
  intros (_ & all & (Hwf & q & Ho & Hq & _) & -> & ->) Hr Hb Hhs
    (_ & _ & _ & _ & _ & _ & ms & lost & r1 & Hdel & _ & _ & Hrc & Hrd)%demux_reachable_inv.
  rewrite Ho in Hb. assert (hs ++ ms `prefix_of` all) as Hpre.
  { etrans; [|eapply (delivers_cut all q b fin (hs ++ ms ++ lost) r1); eauto using delivers_app].
    - rewrite app_assoc. by apply prefix_app_r.
    - eapply Forall_impl; [exact Hwf|]. naive_solver.
    - by apply data_control_readable. }
  apply routed_oks in Hrc, Hrd. split.
  - etrans; [|by apply filter_prefix]. rewrite List.filter_app, <-Hrc. apply prefix_app. by apply prefix_app_r.
  - etrans; [|by apply filter_prefix]. rewrite List.filter_app, <-Hrd. apply prefix_app. by apply prefix_app_r.
Qed.

Lemma tcp_link_in_order_witness :
  let out := frames [AuthResponse AuthOK; Data 1 [x61]] in
  let t := newTCPConn (Wire (Reader [] None) (Writer out None None) false false 0) 0 in
  let w := Wire (Reader (frames [Data 1 [x61]]) (Some EOF)) (Writer [] None None) false false 0 in
  control_of [AuthResponse AuthOK] ++ [] `prefix_of` [AuthResponse AuthOK] ∧
  data_of [AuthResponse AuthOK] ++ [] `prefix_of` [Data 1 [x61]].
Proof.
  intros out t w.
  apply (tcp_link_in_order t [AuthResponse AuthOK] [Data 1 [x61]] out (Some EOF) [AuthResponse AuthOK] w 0
           (Conf (tcp_StartDemux (newTCPConn w 0)) [] [])).
  - split; [done|]. exists [AuthResponse AuthOK; Data 1 [x61]]. split_and!; [|done|done].
    split; [by repeat constructor|]. exists []. split_and!; [by rewrite app_nil_r|by left|done].
  - by repeat constructor.
  - done.
  - apply (delivers_snoc _ [] (Reader out (Some EOF))); [constructor|]. vm_compute. reflexivity.
  - apply rtc_refl.
Defined.

(** C16: No reader is left blocked.  Once the demultiplexer has returned, both
    reads return whatever the state of their channels.  After [Close] the
    demultiplexer never blocks again, and it gets no further than the bytes
    the library holds: in whatever interleaving with the readers, the writers
    and further calls of [Close], and whichever way its selects go, it makes at
    most two iterations for each header's worth of them and two more.  (A frame
    that panics the decoder ends the process; here the goroutine returns.) *)
Theorem tcp_readers_released w s c :
  rtc demux_step (Conf (tcp_StartDemux (newTCPConn w s)) [] []) c →
  let t := dc_conn c in
  (t_demux t = DemuxOff → is_Some (tcp_ReadControl t) ∧ is_Some (tcp_ReadData t)) ∧
  (t_done t = true →
     (t_demux t ≠ DemuxOff → ∀ b, is_Some (demux_iter b t)) ∧
     ∀ n c', demux_path n c c' → Z.of_nat n <= 2 * (Z.max 0 (w_held (t_conn t)) / HeaderSize) + 2).
Proof.
  intros Hinv%demux_reachable_inv t. split; [by eapply demux_off_returns|]. intros Hd. split.
  - intros Hon b. by eapply demux_iter_unblocked.
  - intros n c' Hp. subst t. assert (demux_left (dc_conn c) <= 2 * (Z.max 0 (w_held (t_conn (dc_conn c))) / HeaderSize) + 2) as Hl
      by by eapply demux_left_held.
    pose proof (demux_path_left _ _ _ _ Hp Hinv Hd). pose proof (demux_left_nonneg (dc_conn c')). lia.
Qed.

Lemma tcp_readers_released_witness :
  let t := tcp_Close ex_demux in
  (t_demux t = DemuxOff → is_Some (tcp_ReadControl t) ∧ is_Some (tcp_ReadData t)) ∧
  (t_done t = true →
     (t_demux t ≠ DemuxOff → ∀ b, is_Some (demux_iter b t)) ∧
     ∀ n c', demux_path n (Conf t [] []) c' → Z.of_nat n <= 2 * (Z.max 0 (w_held (t_conn t)) / HeaderSize) + 2).
Proof.
  intros t. apply (tcp_readers_released ex_wire 0 (Conf t [] [])).
  eapply rtc_l; [apply step_caller, step_close|apply rtc_refl].
Defined.
