(* ===== verification/Handshake.v ===== *)
(** * Authentication handshake and listeners ([internal/transport])

    The client side ([tcp_dialer.go], [client_dialer.go]), the session side
    ([tcp_listener.go], [session_listener.go]) and the listener that merges
    both transports ([dual_listener.go]).  The TLS and QUIC libraries are
    arguments: what dialling, opening and accepting streams return, and the
    exporter material of the TLS session ([ExportKeyingMaterial]).  The
    theorems are the soundness of the session side, the agreement of the two
    sides, which peers can block or crash the accept path, and the order in
    which the accept loops of the dual listener queue what they authenticate. *)

From S2P Require Import Prelude GoIO Protocol Auth Transport.

Definition ErrDeadline : error := ErrNew "context deadline exceeded".
Definition ErrCanceled : error := ErrNew "context canceled".

(** [SetReadDeadline(now + 5s)], a read, [SetReadDeadline(time.Time{})]. *)
Definition wire_read_within : io wire message := λ w,
  match wire_read (wire_set_deadline true w) with
  | None => None
  | Some (Panicked p, w') => Some (Panicked p, w')
  | Some (r, w') => Some (r, wire_set_deadline false w')
  end.

(** ** TCP+TLS *)

Definition performTCPAuth (material : res bytes) (passkey : bytes) (lastReceivedSeq : Z) :
    io wire tcpConn :=
  io_bind (io_wrap "export keying material: %w" (io_lift material)) (λ material,
  let token := ComputeAuthToken passkey material in
  io_bind (io_wrap "write auth request: %w" (wire_write (Ptr (AuthRequest token)))) (λ _,
  io_bind (io_wrap "read auth response: %w" wire_read) (λ msg,
  match msg with
  | AuthResponse status =>
    if negb (bool_decide (status = AuthOK))
    then io_lift (Err (ErrNew "authentication rejected: status %d")) else
    io_bind (io_wrap "write seq header: %w"
               (wire_write (Ptr (SequenceHeader lastReceivedSeq)))) (λ _,
    λ w, Some (Ok (newTCPConn w 0), w))
  | _ => io_lift (Err (ErrNew "expected AuthResponse, got %T"))
  end))).

(** [dial] is what [DialContext] returns.  The second component is the stream
    left behind, closed, when there is no connection. *)
Definition dialTCP (dial : res wire) (material : res bytes) (passkey : bytes) (lastReceivedSeq : Z) :
    option (res tcpConn * option wire) :=
  match dial with
  | Err e => Some (Err (ErrWrap "TCP+TLS dial: %w" e), None)
  | Panicked p => Some (Panicked p, None)
  | Ok tlsConn =>
    match performTCPAuth material passkey lastReceivedSeq tlsConn with
    | None => None
    | Some (Ok c, _) => Some (Ok c, None)
    | Some (Err e, w) => Some (Err e, Some (wire_close w))
    | Some (Panicked p, w) => Some (Panicked p, Some w)
    end
  end.

(** [(l *tcpListener) authenticate] *)
Definition tcp_authenticate (material : res bytes) (passkey : bytes) : io wire tcpConn :=
  io_bind (io_wrap "read auth request: %w" wire_read_within) (λ msg,
  match msg with
  | AuthRequest token =>
    io_bind (io_wrap "export keying material: %w" (io_lift material)) (λ material,
    if negb (VerifyAuthToken passkey material token)
    then io_bind (io_try (wire_write (Ptr (AuthResponse AuthFailed)))) (λ _,
         io_lift (Err (ErrNew "authentication failed: invalid passkey")))
    else
    io_bind (io_wrap "write auth response: %w" (wire_write (Ptr (AuthResponse AuthOK)))) (λ _,
    io_bind (io_wrap "read seq header: %w" wire_read_within) (λ msg,
    match msg with
    | SequenceHeader lastReceivedSeq => λ w, Some (Ok (newTCPConn w lastReceivedSeq), w)
    | _ => io_lift (Err (ErrNew "expected SequenceHeader, got %T"))
    end)))
  | _ => io_lift (Err (ErrNew "expected AuthRequest, got %T"))
  end).

(** [(l *tcpListener) Accept]: [accepted] is what [l.ln.Accept] returns
    ([None]: nothing yet), [done] whether the context is cancelled, and
    [done_first] which case the select takes when both are ready. *)
Definition tcp_Accept (accepted : option (res wire)) (done done_first : bool)
    (material : res bytes) (passkey : bytes) : option (res tcpConn * option wire) :=
  match accepted with
  | Some r =>
    if done && done_first
    then Some (Err ErrCanceled, match r with Ok w => Some (wire_close w) | _ => None end)
    else match r with
         | Err e => Some (Err (ErrWrap "accept TCP connection: %w" e), None)
         | Panicked p => Some (Panicked p, None)
         | Ok w =>
           match tcp_authenticate material passkey w with
           | None => None
           | Some (Ok c, _) => Some (Ok c, None)
           | Some (Err e, w') => Some (Err e, Some (wire_close w'))
           | Some (Panicked p, w') => Some (Panicked p, Some w')
           end
         end
  | None => if done then Some (Err ErrCanceled, None) else None
  end.

(** ** QUIC *)

(** A [*quic.Conn] during the handshake: what its next [OpenStreamSync] or
    [AcceptStream] calls return ([None]: they block), the two streams, and
    the code it was closed with. *)
Record quicLink : Type := QuicLink {
  ln_next : list (option (res wire));
  ln_control : option wire;
  ln_data : option wire;
  ln_code : option Z;
}.

(** [timed]: the context has a deadline. *)
Definition next_stream (timed : bool) : io quicLink wire := λ l,
  match ln_next l with
  | Some r :: rest => Some (r, QuicLink rest (ln_control l) (ln_data l) (ln_code l))
  | _ => if timed then Some (Err ErrDeadline, l) else None
  end.

Definition set_control (w : wire) : io quicLink () := λ l,
  Some (Ok (), QuicLink (ln_next l) (Some w) (ln_data l) (ln_code l)).
Definition set_data (w : wire) : io quicLink () := λ l,
  Some (Ok (), QuicLink (ln_next l) (ln_control l) (Some w) (ln_code l)).

Definition on_control {A} (c : io wire A) : io quicLink A := λ l,
  match ln_control l with
  | None => Some (Panicked NilDereference, l)
  | Some w => match c w with
              | None => None
              | Some (r, w') => Some (r, QuicLink (ln_next l) (Some w') (ln_data l) (ln_code l))
              end
  end.
Definition on_data {A} (c : io wire A) : io quicLink A := λ l,
  match ln_data l with
  | None => Some (Panicked NilDereference, l)
  | Some w => match c w with
              | None => None
              | Some (r, w') => Some (r, QuicLink (ln_next l) (ln_control l) (Some w') (ln_code l))
              end
  end.

(** [return &quicConn{...}, nil] *)
Definition quic_conn (lastClientSeq : Z) : io quicLink quicConn := λ l,
  match ln_control l, ln_data l with
  | Some c, Some d => Some (Ok (QuicConn c d lastClientSeq false None), l)
  | _, _ => Some (Panicked NilDereference, l)
  end.

Definition performQUICAuth (material : res bytes) (passkey : bytes) (lastReceivedSeq : Z) :
    io quicLink quicConn :=
  io_bind (io_wrap "open control stream: %w" (next_stream false)) (λ controlStream,
  io_bind (set_control controlStream) (λ _,
  io_bind (io_wrap "export keying material: %w" (io_lift material)) (λ material,
  let token := ComputeAuthToken passkey material in
  io_bind (io_wrap "write auth request: %w" (on_control (wire_write (Ptr (AuthRequest token))))) (λ _,
  io_bind (io_wrap "read auth response: %w" (on_control wire_read)) (λ msg,
  match msg with
  | AuthResponse status =>
    if negb (bool_decide (status = AuthOK))
    then io_lift (Err (ErrNew "authentication rejected: status %d")) else
    io_bind (io_wrap "open data stream: %w" (next_stream false)) (λ dataStream,
    io_bind (set_data dataStream) (λ _,
    io_bind (io_wrap "write data stream seq header: %w"
               (on_data (wire_write (Ptr (SequenceHeader lastReceivedSeq))))) (λ _,
    quic_conn 0)))
  | _ => io_lift (Err (ErrNew "expected AuthResponse, got %T"))
  end))))).

(** [resolved], [listened] and [dialled] are the results of
    [ResolveUDPAddr], [ListenUDP] and [tr.Dial]; the second component is the
    connection closed with code 1 after a failed handshake. *)
Definition dialQUIC (resolved listened : res ()) (dialled : res quicLink) (material : res bytes)
    (passkey : bytes) (lastReceivedSeq : Z) : option (res quicConn * option quicLink) :=
  match resolved, listened, dialled with
  | Panicked p, _, _ | Ok _, Panicked p, _ | Ok _, Ok _, Panicked p => Some (Panicked p, None)
  | Err e, _, _ => Some (Err (ErrWrap "resolve %s:%d: %w" e), None)
  | Ok _, Err e, _ => Some (Err (ErrWrap "listen UDP: %w" e), None)
  | Ok _, Ok _, Err e => Some (Err (ErrWrap "QUIC dial: %w" e), None)
  | Ok _, Ok _, Ok qconn =>
    match performQUICAuth material passkey lastReceivedSeq qconn with
    | None => None
    | Some (Ok q, _) =>
      Some (Ok (QuicConn (q_control q) (q_data q) (q_lastClientSeq q) (q_conn_closed q) (Some false)), None)
    | Some (Err e, l) => Some (Err e, Some (QuicLink (ln_next l) (ln_control l) (ln_data l) (Some 1)))
    | Some (Panicked p, l) => Some (Panicked p, Some l)
    end
  end.

(** [(l *quicListener) authenticate] *)
Definition quic_authenticate (material : res bytes) (passkey : bytes) : io quicLink quicConn :=
  io_bind (io_wrap "accept control stream: %w" (next_stream true)) (λ controlStream,
  io_bind (set_control controlStream) (λ _,
  io_bind (io_wrap "read auth request: %w" (on_control wire_read_within)) (λ msg,
  match msg with
  | AuthRequest token =>
    io_bind (io_wrap "export keying material: %w" (io_lift material)) (λ material,
    if negb (VerifyAuthToken passkey material token)
    then io_bind (io_try (on_control (wire_write (Ptr (AuthResponse AuthFailed))))) (λ _,
         io_lift (Err (ErrNew "authentication failed: invalid passkey")))
    else
    io_bind (io_wrap "write auth response: %w"
               (on_control (wire_write (Ptr (AuthResponse AuthOK))))) (λ _,
    io_bind (io_wrap "accept data stream: %w" (next_stream false)) (λ dataStream,
    io_bind (set_data dataStream) (λ _,
    io_bind (io_wrap "read data stream seq header: %w" (on_data wire_read_within)) (λ msg,
    match msg with
    | SequenceHeader lastReceivedSeq => quic_conn lastReceivedSeq
    | _ => io_lift (Err (ErrNew "expected SequenceHeader on data stream, got %T"))
    end)))))
  | _ => io_lift (Err (ErrNew "expected AuthRequest, got %T"))
  end))).

(** [(l *quicListener) Accept] *)
Definition quic_Accept (accepted : option (res quicLink)) (material : res bytes) (passkey : bytes) :
    option (res quicConn * option quicLink) :=
  match accepted with
  | None => None
  | Some (Err e) => Some (Err (ErrWrap "accept QUIC connection: %w" e), None)
  | Some (Panicked p) => Some (Panicked p, None)
  | Some (Ok qconn) =>
    match quic_authenticate material passkey qconn with
    | None => None
    | Some (Ok q, _) => Some (Ok q, None)
    | Some (Err e, l) => Some (Err e, Some (QuicLink (ln_next l) (ln_control l) (ln_data l) (Some 1)))
    | Some (Panicked p, l) => Some (Panicked p, Some l)
    end
  end.

(** ** Either transport ([Dial], [client_dialer.go]) *)

(** A [Conn] interface value: one of the two implementations. *)
Definition Dial (mode : DialMode) (quic : option (res quicConn * option quicLink))
    (tcp : option (res tcpConn * option wire)) : option (res (quicConn + tcpConn)) :=
  match mode with
  | DialQUIC => match quic with None => None | Some (r, _) => Some (inl <$> r) end
  | DialTCP => match tcp with None => None | Some (r, _) => Some (inr <$> r) end
  | DialOther _ => Some (Err (ErrNew "unknown dial mode: %d"))
  end.

(** ** The dual listener *)

Section dual.
Context {C : Type} `{Conn C}.

(** Where an accept loop is: inside [Accept], in the select that hands an
    authenticated connection over, or gone. *)
Inductive loop_pc : Type := Accepting | Offering (conn : C) | Exited.

(** The transports, each with a loop. *)
Inductive transport : Type := OnQUIC | OnTCP.
#[export] Instance transport_eq_dec : EqDecision transport.
Proof. solve_decision. Defined.

Record dualListener : Type := DualListener {
  dl_connCh : chan C;
  dl_cancelled : bool;
  dl_quic : loop_pc;
  dl_tcp : loop_pc;
}.

Definition loop_of (t : transport) (dl : dualListener) : loop_pc :=
  match t with OnQUIC => dl_quic dl | OnTCP => dl_tcp dl end.

Definition newDualListener : dualListener := DualListener (make_chan _ 4) false Accepting Accepting.

(** One step of [quicAcceptLoop] or [tcpAcceptLoop]: the position, the channel
    and the connections it closes.  [accepted] is the next result of
    [Accept], [done_first] the choice of the select. *)
Definition loop_step (cancelled done_first : bool) (accepted : res C) (pc : loop_pc) (connCh : chan C) :
    option (loop_pc * chan C * list C) :=
  match pc with
  | Accepting =>
    match accepted with
    | Ok conn => Some (Offering conn, connCh, [])
    | Err _ => Some (if cancelled then Exited else Accepting, connCh, [])
    | Panicked _ => None
    end
  | Offering conn =>
    if chan_can_send connCh && negb (cancelled && done_first)
    then Some (Accepting, chan_send connCh conn, [])
    else if cancelled then Some (Exited, connCh, [Close conn]) else None
  | Exited => None
  end.

(** [(dl *dualListener) Accept] *)
Definition dual_Accept (dl : dualListener) (done done_first : bool) : option (res C * dualListener) :=
  match chan_recv (dl_connCh dl) with
  | Some (Some conn, ch) =>
    if done && done_first then Some (Err ErrCanceled, dl)
    else Some (Ok conn, DualListener ch (dl_cancelled dl) (dl_quic dl) (dl_tcp dl))
  | _ => if done then Some (Err ErrCanceled, dl) else None
  end.

(** The drain of [Close]: the connections it closes. *)
Fixpoint dual_drain (queued : list C) : list C :=
  match queued with [] => [] | conn :: rest => Close conn :: dual_drain rest end.

(** [(dl *dualListener) Close]: the next state, the connections closed, and
    its result from those of the two listeners. *)
Definition dual_Close (dl : dualListener) (tcpErr quicErr : res ()) : dualListener * list C * res () :=
  (DualListener (Chan [] (ch_cap (dl_connCh dl)) (ch_closed (dl_connCh dl))) true (dl_quic dl) (dl_tcp dl),
   dual_drain (ch_buf (dl_connCh dl)),
   match quicErr with Err e => Err e | _ => tcpErr end).

(** The listener with what happened so far: the connections its loops
    authenticated, in order and each with its transport, those [Accept]
    returned and those it closed. *)
Record dual_conf : Type := DualConf {
  du_dl : dualListener;
  du_authenticated : list (transport * C);
  du_returned : list C;
  du_closed : list C;
}.

Definition newly (accepted : res C) (pc : loop_pc) : list C :=
  match pc, accepted with Accepting, Ok conn => [conn] | _, _ => [] end.

Inductive dual_step : dual_conf → dual_conf → Prop :=
| dual_step_quic b r ch cn q q' t ch' cl au re cs :
  loop_step cn b r q ch = Some (q', ch', cl) →
  dual_step (DualConf (DualListener ch cn q t) au re cs)
            (DualConf (DualListener ch' cn q' t) (au ++ ((OnQUIC,.) <$> newly r q)) re (cs ++ cl))
| dual_step_tcp b r ch cn q t t' ch' cl au re cs :
  loop_step cn b r t ch = Some (t', ch', cl) →
  dual_step (DualConf (DualListener ch cn q t) au re cs)
            (DualConf (DualListener ch' cn q t') (au ++ ((OnTCP,.) <$> newly r t)) re (cs ++ cl))
| dual_step_accept done b dl conn dl' au re cs :
  dual_Accept dl done b = Some (Ok conn, dl') →
  dual_step (DualConf dl au re cs) (DualConf dl' au (re ++ [conn]) cs)
| dual_step_close dl tcpErr quicErr dl' cl r au re cs :
  dual_Close dl tcpErr quicErr = (dl', cl, r) →
  dual_step (DualConf dl au re cs) (DualConf dl' au re (cs ++ cl)).

Definition offered (pc : loop_pc) : list C := match pc with Offering conn => [conn] | _ => [] end.

(** Every connection is in one place. *)
Definition dual_inv (d : dual_conf) : Prop :=
  let dl := du_dl d in
  ch_cap (dl_connCh dl) = 4 ∧ len (ch_buf (dl_connCh dl)) <= 4 ∧
  ∃ discarded, du_closed d = (Close <$> discarded) ∧
    (du_authenticated d).*2 ≡ₚ
      du_returned d ++ ch_buf (dl_connCh dl) ++ offered (dl_quic dl) ++ offered (dl_tcp dl) ++ discarded.

Lemma loop_step_inv cn b r pc ch pc' ch' cl :
  loop_step cn b r pc ch = Some (pc', ch', cl) → len (ch_buf ch) <= ch_cap ch →
  ch_cap ch' = ch_cap ch ∧ len (ch_buf ch') <= ch_cap ch ∧
  ∃ discarded, cl = (Close <$> discarded) ∧
    ch_buf ch ++ offered pc ++ newly r pc ≡ₚ ch_buf ch' ++ offered pc' ++ discarded.
Proof.
  unfold loop_step. intros Hs Hl. destruct pc as [|conn|]; [| |done].
  - destruct r as [conn|e|]; [| |done]; injection Hs as <- <- <-; (split_and!; [done|done|]); exists [];
      (split; [done|]).
    + done.
    + by destruct cn.
  - destruct (chan_can_send ch && _) eqn:E.
    + apply andb_true_iff in E as [E%Z.ltb_lt _]. injection Hs as <- <- <-. simpl.
      split_and!; [done|rewrite len_app, len_cons, len_nil; lia|]. exists []. split; [done|].
      by rewrite <-!app_assoc.
    + destruct cn; [|done]. injection Hs as <- <- <-. split_and!; [done|done|]. by exists [conn].
Qed.

Lemma tagged_snd (t : transport) (l : list C) : ((t,.) <$> l).*2 = l.
Proof. rewrite <-list_fmap_compose. apply list_fmap_id. Qed.

Lemma dual_step_inv d d' : dual_step d d' → dual_inv d → dual_inv d'.
Proof.
  intros Hs. destruct Hs as [b r ch cn q q' t ch' cl au re cs Hl|b r ch cn q t t' ch' cl au re cs Hl
    |done b dl conn dl' au re cs Ha|dl tcpErr quicErr dl' cl r au re cs Hc];
    intros (Hcap & Hlen & disc & Hcl & Hperm); unfold dual_inv in *; simpl in *.
  - destruct (loop_step_inv _ _ _ _ _ _ _ _ Hl) as (Hcap' & Hlen' & disc' & -> & Hp); [lia|].
    split_and!; [lia|lia|]. exists (disc ++ disc'). rewrite fmap_app, Hcl. split; [done|].
    rewrite fmap_app, tagged_snd, Hperm. transitivity (re ++ offered t ++ disc ++ (ch_buf ch ++ offered q ++ newly r q));
      [solve_Permutation|rewrite Hp; solve_Permutation].
  - destruct (loop_step_inv _ _ _ _ _ _ _ _ Hl) as (Hcap' & Hlen' & disc' & -> & Hp); [lia|].
    split_and!; [lia|lia|]. exists (disc ++ disc'). rewrite fmap_app, Hcl. split; [done|].
    rewrite fmap_app, tagged_snd, Hperm. transitivity (re ++ offered q ++ disc ++ (ch_buf ch ++ offered t ++ newly r t));
      [solve_Permutation|rewrite Hp; solve_Permutation].
  - unfold dual_Accept, chan_recv in Ha. destruct (ch_buf (dl_connCh dl)) as [|c vs] eqn:Eb.
    { by destruct (ch_closed _), done. }
    destruct (done && b); [done|]. injection Ha as <- <-. simpl. rewrite len_cons in Hlen.
    split_and!; [done|lia|]. exists disc. split; [done|]. rewrite Hperm. solve_Permutation.
  - unfold dual_Close in Hc. injection Hc as <- <- <-. simpl. split_and!; [done|done|].
    exists (disc ++ ch_buf (dl_connCh dl)). split.
    { rewrite fmap_app, Hcl. by f_equal. }
    rewrite Hperm. solve_Permutation.
Qed.

Lemma dual_reachable_inv d : rtc dual_step (DualConf newDualListener [] [] []) d → dual_inv d.
Proof.
  intros Hr. assert (dual_inv (DualConf newDualListener [] [] [])) as Hi by (split_and!; [done|done|by exists []]).
  revert Hi. induction Hr; eauto using dual_step_inv.
Qed.

(** *** The order *)

(** Those of one transport. *)
Definition on (t : transport) (l : list (transport * C)) : list C := (filter (λ x, x.1 = t) l).*2.

Lemma on_app t l k : on t (l ++ k) = on t l ++ on t k.
Proof. unfold on. by rewrite filter_app, fmap_app. Qed.

Lemma on_tagged t t' l : on t ((t',.) <$> l) = if decide (t' = t) then l else [].
Proof.
  unfold on. destruct (decide (t' = t)) as [->|Hne].
  - induction l as [|c l IH]; [done|]. rewrite fmap_cons, filter_cons_True by done. rewrite fmap_cons. by f_equal.
  - induction l as [|c l IH]; [done|]. by rewrite fmap_cons, filter_cons_False.
Qed.

(** While it is not closed, the channel is a queue, and each loop sends on it
    what it authenticates, in order. *)
Definition queues (d : dual_conf) (queued : list (transport * C)) : Prop :=
  queued.*2 = du_returned d ++ ch_buf (dl_connCh (du_dl d)) ∧
  ∀ t, on t (du_authenticated d) = on t queued ++ offered (loop_of t (du_dl d)).

Lemma loop_step_order b r pc ch pc' ch' cl :
  loop_step false b r pc ch = Some (pc', ch', cl) →
  ∃ k, ch_buf ch' = ch_buf ch ++ k ∧ offered pc ++ newly r pc = k ++ offered pc'.
Proof.
  unfold loop_step. destruct pc as [|conn|]; [destruct r as [conn|e|]| |done].
  - intros [= <- <- _]. exists []. by rewrite app_nil_r.
  - intros [= <- <- _]. exists []. by rewrite app_nil_r.
  - done.
  - destruct (_ && _); [|done]. intros [= <- <- _]. by exists [conn].
Qed.

Lemma queues_loop t dl dl' au re cs cs' b r ch' cl queued :
  queues (DualConf dl au re cs) queued →
  loop_step false b r (loop_of t dl) (dl_connCh dl) = Some (loop_of t dl', ch', cl) → dl_connCh dl' = ch' →
  (∀ t', t' ≠ t → loop_of t' dl' = loop_of t' dl) →
  ∃ queued', queues (DualConf dl' (au ++ ((t,.) <$> newly r (loop_of t dl))) re cs') queued'.
Proof.
  intros [Hq Hon] (k & Hk & Ho)%loop_step_order <- Hother. simpl in *. exists (queued ++ ((t,.) <$> k)). split; simpl.
  - by rewrite fmap_app, tagged_snd, Hq, Hk, <-app_assoc.
  - intros t'. rewrite !on_app, Hon, !on_tagged. case_decide as Ht.
    + subst t'. by rewrite <-!app_assoc, Ho.
    + by rewrite Hother, !app_nil_r.
Qed.

Lemma dual_step_order d d' queued :
  dual_step d d' → dl_cancelled (du_dl d) = false → dl_cancelled (du_dl d') = false → queues d queued →
  ∃ queued', queues d' queued'.
Proof.
  intros Hs Hd Hd' Hq. destruct Hs as [b r ch cn q q' t ch' cl au re cs Hl|b r ch cn q t t' ch' cl au re cs Hl
    |done b dl conn dl' au re cs Ha|dl tcpErr quicErr dl' cl r au re cs Hc]; simpl in *; subst.
  - by apply (queues_loop OnQUIC (DualListener ch false q t) (DualListener ch' false q' t) au re cs (cs ++ cl) b r ch' cl queued Hq Hl eq_refl); intros [].
  - by apply (queues_loop OnTCP (DualListener ch false q t) (DualListener ch' false q t') au re cs (cs ++ cl) b r ch' cl queued Hq Hl eq_refl); intros [].
  - exists queued. destruct Hq as [Hq Hon]. unfold dual_Accept, chan_recv in Ha. simpl in *.
    destruct (ch_buf (dl_connCh dl)) as [|c vs] eqn:Eb; [by destruct (ch_closed _), done|].
    destruct (done && b); [done|]. injection Ha as <- <-. split; simpl; [by rewrite Hq, <-app_assoc|].
    intros t. rewrite Hon. by destruct t.
  - by injection Hc as <- _ _.
Qed.
End dual.

(** ** Lemmas on the handshake *)

Lemma wire_read_within_ok w m w' : wire_read_within w = Some (Ok m, w') →
  ReadMessage (w_rd w) = Some (Ok m, w_rd w') ∧ w_wr w' = w_wr w ∧ w_closed w' = w_closed w.
Proof.
  unfold wire_read_within, wire_read. simpl.
  destruct (ReadMessage (w_rd w)) as [[[] ?]|]; try done. by intros [= <- <-].
Qed.

Lemma wire_read_within_eq w m rd' :
  ReadMessage (w_rd w) = Some (Ok m, rd') →
  wire_read_within w = Some (Ok m, Wire rd' (w_wr w) false (w_closed w) (w_held w)).
Proof. unfold wire_read_within, wire_read. simpl. intros ->. done. Qed.

Lemma wire_read_eq w m rd' :
  ReadMessage (w_rd w) = Some (Ok m, rd') →
  wire_read w = Some (Ok m, Wire rd' (w_wr w) (w_deadline w) (w_closed w) (w_held w)).
Proof. unfold wire_read. intros ->. done. Qed.

Lemma wire_write_eq m w :
  w_closed w = false → msg_wf m → sendable m = true → accepts (w_wr w) (len (frame m)) →
  wire_write (Ptr m) w = Some (Ok (), Wire (w_rd w) (advance (w_wr w) (frame m)) (w_deadline w) (w_closed w) (w_held w)).
Proof. unfold wire_write, io_zoom. intros -> Hwf Hs Ha. by rewrite WriteMessage_ok. Qed.


(** Streams that carry nothing yet and take everything. *)
Definition open_wire (rd : reader) : wire := Wire rd (Writer [] None None) false false 0.

(** What a write on a stream is, from its outcomes. *)
Lemma wire_write_out m w r w' :
  msg_wf m → wire_write (Ptr m) w = Some (r, w') →
  w_rd w' = w_rd w ∧ w_closed w' = w_closed w ∧
  ∃ q, wr_out (w_wr w') = wr_out (w_wr w) ++ q ∧ q `prefix_of` frame m.
Proof.
  intros Hwf Hw. pose proof (wire_write_rd _ _ _ _ Hw) as (? & _ & ?). split_and!; [done|done|].
  revert Hw. unfold wire_write, io_zoom. destruct (w_closed w).
  { intros [= <- <-]. exists []. rewrite app_nil_r. split; [done|apply prefix_nil]. }
  destruct (WriteMessage _ _) as [[r1 w1]|] eqn:E; [|done]. intros [= <- <-]. simpl.
  apply WriteMessage_cases in E as [(-> & _ & -> & _)|[(e & -> & _ & ->)|
    (e & q & -> & _ & _ & Ho & Hq & _)]]; [| | |done].
  - by exists (frame m).
  - exists []. rewrite app_nil_r. split; [done|apply prefix_nil].
  - by exists q.
Qed.

Lemma wire_write_no_panic m w r w' :
  msg_wf m → wire_write (Ptr m) w = Some (r, w') → panics r = false.
Proof.
  intros Hwf. unfold wire_write, io_zoom. destruct (w_closed w); [by intros [= <- <-]|].
  destruct (WriteMessage (Ptr m) _) as [[r2 w2]|] eqn:E2; [|done]. intros [= <- <-].
  by apply WriteMessage_cases in E2 as [(-> & _)|[(e & -> & _)|(e & q' & -> & _)]].
Qed.

Lemma msg_wf_AuthRequest k m : msg_wf (AuthRequest (ComputeAuthToken k m)).
Proof. apply ComputeAuthToken_length. Qed.
#[local] Hint Resolve msg_wf_AuthRequest : goet.

Lemma delivers_two r m1 r1 m2 r2 :
  ReadMessage r = Some (Ok m1, r1) → ReadMessage r1 = Some (Ok m2, r2) → delivers r [m1; m2] r2.
Proof.
  intros H1 H2. apply (delivers_snoc r [m1] r1); [|done]. apply (delivers_snoc r [] r); [constructor|done].
Qed.

(** The session side of a successful TCP handshake. *)
Lemma tcp_authenticate_inv material k w t w' :
  tcp_authenticate material k w = Some (Ok t, w') →
  ∃ mat s, material = Ok mat ∧
    delivers (w_rd w) [AuthRequest (ComputeAuthToken k mat); SequenceHeader s] (w_rd (t_conn t)) ∧
    t = newTCPConn (t_conn t) s ∧
    (wire_sent w [] → wire_sent (t_conn t) [AuthResponse AuthOK]).
Proof.
  unfold tcp_authenticate. intros (m1 & w1 & H1%io_wrap_inv & H)%io_bind_inv.
  destruct m1 as [token| | | | | | |]; try done.
  apply io_bind_inv in H as (mat & w2 & Hm%io_wrap_inv & H). injection Hm as -> <-.
  destruct (VerifyAuthToken k mat token) eqn:Hv; simpl in H.
  2:{ apply io_bind_inv in H as (? & ? & _ & H). done. }
  apply io_bind_inv in H as ([] & w2 & H2%io_wrap_inv & H).
  apply io_bind_inv in H as (m3 & w3 & H3%io_wrap_inv & H).
  destruct m3 as [| |s| | | | |]; try done. injection H as <- <-.
  apply VerifyAuthToken_eq in Hv as ->. exists mat, s.
  apply wire_read_within_ok in H1 as (R1 & W1 & C1), H3 as (R3 & W3 & C3).
  pose proof (wire_write_rd _ _ _ _ H2) as (R2 & _ & C2).
  split_and!; [done| |done|].
  - eapply delivers_two; [exact R1|]. simpl. by rewrite <-R2.
  - intros Hs. simpl. apply (wire_sent_wr w2); [done|].
    destruct (wire_write_sent (AuthResponse AuthOK) _ [] _ _ (wire_sent_wr _ _ _ W1 Hs) I H2) as [(? & ? & _)|[_ ?]]; done.
Qed.

Lemma on_control_inv {A} (c : io wire A) l a l' :
  on_control c l = Some (Ok a, l') →
  ∃ w w', ln_control l = Some w ∧ c w = Some (Ok a, w') ∧
    l' = QuicLink (ln_next l) (Some w') (ln_data l) (ln_code l).
Proof. unfold on_control. repeat case_match; naive_solver. Qed.

Lemma on_data_inv {A} (c : io wire A) l a l' :
  on_data c l = Some (Ok a, l') →
  ∃ w w', ln_data l = Some w ∧ c w = Some (Ok a, w') ∧
    l' = QuicLink (ln_next l) (ln_control l) (Some w') (ln_code l).
Proof. unfold on_data. repeat case_match; naive_solver. Qed.

Lemma next_stream_inv b l w l' :
  next_stream b l = Some (Ok w, l') →
  ∃ rest, ln_next l = Some (Ok w) :: rest ∧ l' = QuicLink rest (ln_control l) (ln_data l) (ln_code l).
Proof. unfold next_stream. repeat case_match; naive_solver. Qed.

(** The session side of a successful QUIC handshake. *)
Lemma quic_authenticate_inv material k l q l' :
  quic_authenticate material k l = Some (Ok q, l') →
  ∃ mat s wc wd rest, material = Ok mat ∧ ln_next l = Some (Ok wc) :: Some (Ok wd) :: rest ∧
    delivers (w_rd wc) [AuthRequest (ComputeAuthToken k mat)] (w_rd (q_control q)) ∧
    delivers (w_rd wd) [SequenceHeader s] (w_rd (q_data q)) ∧ q_lastClientSeq q = s ∧
    (wire_sent wc [] → wire_sent (q_control q) [AuthResponse AuthOK]) ∧
    w_wr (q_data q) = w_wr wd.
Proof.
  unfold quic_authenticate.
  intros (wc & l1 & (rest & Hn1 & ->)%io_wrap_inv%next_stream_inv & H)%io_bind_inv.
  apply io_bind_inv in H as ([] & l1 & [= <-] & H).
  apply io_bind_inv in H as (m1 & l1 & (w0 & w1 & [= <-] & H1 & ->)%io_wrap_inv%on_control_inv & H).
  destruct m1 as [token| | | | | | |]; try done.
  apply io_bind_inv in H as (mat & l2 & [= -> <-]%io_wrap_inv & H).
  destruct (VerifyAuthToken k mat token) eqn:Hv; simpl in H.
  2:{ apply io_bind_inv in H as (? & ? & _ & H). done. }
  apply io_bind_inv in H as ([] & l2 & (w0 & w2 & [= <-] & H2 & ->)%io_wrap_inv%on_control_inv & H).
  apply io_bind_inv in H as (wd & l2 & (rest' & Hn2 & ->)%io_wrap_inv%next_stream_inv & H).
  apply io_bind_inv in H as ([] & l2 & [= <-] & H).
  apply io_bind_inv in H as (m3 & l3 & (w0 & w3 & [= <-] & H3 & ->)%io_wrap_inv%on_data_inv & H).
  destruct m3 as [| |s| | | | |]; try done. injection H as <- <-. simpl in *. subst rest.
  apply VerifyAuthToken_eq in Hv as ->. exists mat, s, wc, wd, rest'.
  apply wire_read_within_ok in H1 as (R1 & W1 & C1), H3 as (R3 & W3 & C3).
  pose proof (wire_write_rd _ _ _ _ H2) as (R2 & _ & C2).
  split_and!; try done.
  - apply (delivers_snoc _ [] (w_rd wc)); [constructor|]. by rewrite R2.
  - apply (delivers_snoc _ [] (w_rd wd)); [constructor|done].
  - intros Hs.
    destruct (wire_write_sent (AuthResponse AuthOK) _ [] _ _ (wire_sent_wr _ _ _ W1 Hs) I H2)
      as [(? & ? & _)|[_ ?]]; done.
Qed.

(** The first message of the peer decides. *)
Lemma tcp_authenticate_first material k w m rd' :
  ReadMessage (w_rd w) = Some (Ok m, rd') →
  match m with AuthRequest _ => False | _ => True end →
  tcp_authenticate material k w =
    Some (Err (ErrNew "expected AuthRequest, got %T"), Wire rd' (w_wr w) false (w_closed w) (w_held w)).
Proof.
  intros Hr Hm. unfold tcp_authenticate.
  rewrite (io_bind_ok _ _ _ m _ (io_wrap_ok _ _ _ _ _ (wire_read_within_eq w m rd' Hr))).
  by destruct m.
Qed.

Lemma tcp_authenticate_request mat k w tok rd' :
  ReadMessage (w_rd w) = Some (Ok (AuthRequest tok), rd') →
  tcp_authenticate (Ok mat) k w =
    (if negb (VerifyAuthToken k mat tok)
     then io_bind (io_try (wire_write (Ptr (AuthResponse AuthFailed)))) (λ _,
          io_lift (Err (ErrNew "authentication failed: invalid passkey")))
     else
     io_bind (io_wrap "write auth response: %w" (wire_write (Ptr (AuthResponse AuthOK)))) (λ _,
     io_bind (io_wrap "read seq header: %w" wire_read_within) (λ msg,
     match msg with
     | SequenceHeader lastReceivedSeq => λ w, Some (Ok (newTCPConn w lastReceivedSeq), w)
     | _ => io_lift (Err (ErrNew "expected SequenceHeader, got %T"))
     end))) (Wire rd' (w_wr w) false (w_closed w) (w_held w)).
Proof.
  intros Hr. unfold tcp_authenticate.
  by rewrite (io_bind_ok _ _ _ _ _ (io_wrap_ok _ _ _ _ _ (wire_read_within_eq w _ rd' Hr))).
Qed.










(** ** Properties *)

(** C20: The session only accepts TCP clients that prove the passkey.  When
    [authenticate] returns a connection, the peer's first message was an
    [AuthRequest] with the HMAC of this TLS session's exporter material, the
    second a [SequenceHeader] whose number is the connection's
    [LastClientSeq]; exactly one message, [AuthOK], was sent, and nothing was
    read beyond the two. *)
Theorem tcp_auth_sound material k w t w' :
  tcp_authenticate material k w = Some (Ok t, w') → wire_sent w [] →
  ∃ mat s, material = Ok mat ∧
    delivers (w_rd w) [AuthRequest (ComputeAuthToken k mat); SequenceHeader s] (w_rd (t_conn t)) ∧
    LastClientSeq t = s ∧ sent t [AuthResponse AuthOK] [] ∧ fresh t.
Proof.
  intros (mat & s & Hm & Hd & Ht & Hs)%tcp_authenticate_inv Hw. exists mat, s.
  specialize (Hs Hw). split; [done|]. split; [done|]. rewrite Ht. split; [done|].
  split; [|done]. split; [done|]. by exists [AuthResponse AuthOK].
Qed.

Lemma tcp_auth_sound_witness :
  let k := [x01] in let mat := [x02] in
  let w := open_wire (Reader (frames [AuthRequest (ComputeAuthToken k mat); SequenceHeader 9]) None) in
  let t := newTCPConn (Wire (Reader [] None) (Writer (frame (AuthResponse AuthOK)) None None) false false 0) 9 in
  ∃ mat' s, Ok mat = Ok mat' ∧
    delivers (w_rd w) [AuthRequest (ComputeAuthToken k mat'); SequenceHeader s] (w_rd (t_conn t)) ∧
    LastClientSeq t = s ∧ sent t [AuthResponse AuthOK] [] ∧ fresh t.
Proof.
  intros k mat w t. apply (tcp_auth_sound (Ok mat) k w t (t_conn t)).
  - vm_compute. reflexivity.
  - split; [constructor|]. exists []. split_and!; [reflexivity|by left|done].
Defined.

(** C21: The same for QUIC: the [AuthRequest] on the control stream, the
    [SequenceHeader] on the data stream, and no data message sent yet. *)
Theorem quic_auth_sound material k l q l' :
  quic_authenticate material k l = Some (Ok q, l') →
  (∀ w, Some (Ok w) ∈ ln_next l → wire_sent w []) →
  ∃ mat s wc wd rest, material = Ok mat ∧ ln_next l = Some (Ok wc) :: Some (Ok wd) :: rest ∧
    delivers (w_rd wc) [AuthRequest (ComputeAuthToken k mat)] (w_rd (q_control q)) ∧
    delivers (w_rd wd) [SequenceHeader s] (w_rd (q_data q)) ∧
    LastClientSeq q = s ∧ sent q [AuthResponse AuthOK] [].
Proof.
  intros (mat & s & wc & wd & rest & Hm & Hn & Hc & Hd & Hs & Hsc & Hsd)%quic_authenticate_inv Hw.
  exists mat, s, wc, wd, rest. rewrite Hn in Hw. split_and!; try done. split.
  - apply Hsc, Hw. by left.
  - exists []. split; [|done]. apply (wire_sent_wr wd); [done|]. apply Hw. by right; left.
Qed.

Lemma quic_auth_sound_witness :
  let k := [x01] in let mat := [x02] in
  let wc := open_wire (Reader (frame (AuthRequest (ComputeAuthToken k mat))) None) in
  let wd := open_wire (Reader (frame (SequenceHeader 9)) None) in
  let l := QuicLink [Some (Ok wc); Some (Ok wd)] None None None in
  let q := QuicConn (Wire (Reader [] None) (Writer (frame (AuthResponse AuthOK)) None None) false false 0)
             (open_wire (Reader [] None)) 9 false None in
  ∃ mat' s wc' wd' rest, Ok mat = Ok mat' ∧ ln_next l = Some (Ok wc') :: Some (Ok wd') :: rest ∧
    delivers (w_rd wc') [AuthRequest (ComputeAuthToken k mat')] (w_rd (q_control q)) ∧
    delivers (w_rd wd') [SequenceHeader s] (w_rd (q_data q)) ∧
    LastClientSeq q = s ∧ sent q [AuthResponse AuthOK] [].
Proof.
  intros k mat wc wd l q.
  apply (quic_auth_sound (Ok mat) k l q (QuicLink [] (Some (q_control q)) (Some (q_data q)) None)).
  - vm_compute. reflexivity.
  - intros w Hw. change (Some (Ok w) ∈ [Some (Ok wc); Some (Ok wd)]) in Hw. rewrite !elem_of_cons, elem_of_nil in Hw. destruct Hw as [[= ->]|[[= ->]|[]]];
      (split; [constructor|]); exists []; (split_and!; [reflexivity|by left|done]).
Defined.

(** A peer whose first message is not the right [AuthRequest] gets no TCP
    connection: [Accept] returns an error with the stream closed, and all
    that was ever written to it is (a prefix of) the [AuthFailed] response. *)
Theorem tcp_auth_rejects mat k w m rd' d df r left :
  ReadMessage (w_rd w) = Some (Ok m, rd') → m ≠ AuthRequest (ComputeAuthToken k mat) →
  d && df = false →
  tcp_Accept (Some (Ok w)) d df (Ok mat) k = Some (r, left) →
  (∃ e, r = Err e) ∧
  ∃ w' q, left = Some w' ∧ w_closed w' = true ∧ wr_out (w_wr w') = wr_out (w_wr w) ++ q ∧
    q `prefix_of` frame (AuthResponse AuthFailed).
Proof.
  unfold tcp_Accept. intros Hr Hm ->. destruct m as [tok| | | | | | |];
    try (rewrite (tcp_authenticate_first _ _ _ _ _ Hr) by done; intros [= <- <-];
         (split; [by eexists|]); eexists _, []; split_and!; try done;
         [by rewrite app_nil_r|apply prefix_nil]).
  rewrite (tcp_authenticate_request _ _ _ _ _ Hr).
  destruct (VerifyAuthToken k mat tok) eqn:Hv; [by apply VerifyAuthToken_eq in Hv as ->|]. cbn [negb].
  unfold io_bind, io_try.
  destruct (wire_write _ _) as [[r1 w1]|] eqn:E; [|done].
  destruct (wire_write_out (AuthResponse AuthFailed) _ _ _ I E) as (_ & _ & q & Ho & Hq). simpl in Ho.
  pose proof (wire_write_no_panic (AuthResponse AuthFailed) _ _ _ I E).
  destruct r1; [| |done]; intros [= <- <-]; (split; [by eexists|]); eexists _, q; done.
Qed.

Lemma tcp_auth_rejects_witness :
  let w := open_wire (Reader (frame (AuthRequest (ComputeAuthToken [x01] [x02]))) None) in
  let w' := Wire (Reader [] (Some ErrClosed)) (Writer (frame (AuthResponse AuthFailed)) None None) false true 0 in
  (∃ e, Err (A:=tcpConn) (ErrNew "authentication failed: invalid passkey") = Err e) ∧
  ∃ w'' q, Some w' = Some w'' ∧ w_closed w'' = true ∧ wr_out (w_wr w'') = wr_out (w_wr w) ++ q ∧
    q `prefix_of` frame (AuthResponse AuthFailed).
Proof.
  intros w w'.
  apply (tcp_auth_rejects [x02] [x05] w (AuthRequest (ComputeAuthToken [x01] [x02])) (Reader [] None) false false).
  - vm_compute. reflexivity.
  - intros H. apply (f_equal (λ m, match m with AuthRequest t => t | _ => [] end)) in H.
    vm_compute in H. discriminate H.
  - done.
  - vm_compute. reflexivity.
Defined.

(** C19: The two sides agree (TCP).  Let each side read what the other wrote.
    With the same passkey both return a connection, the session's one carries
    the client's sequence number, and both streams are positioned after the
    handshake; when the tokens differ, both return an error. *)
Theorem tcp_handshake_agrees k k' mat s restc rests finc fins :
  is_uint 64 s →
  let tok := ComputeAuthToken k mat in
  (k = k' →
   ∃ tc ts wc ws,
     performTCPAuth (Ok mat) k s (open_wire (Reader (frames [AuthResponse AuthOK] ++ restc) finc))
       = Some (Ok tc, wc) ∧
     tcp_authenticate (Ok mat) k' (open_wire (Reader (frames [AuthRequest tok; SequenceHeader s] ++ rests) fins))
       = Some (Ok ts, ws) ∧
     wr_out (w_wr (t_conn tc)) = frames [AuthRequest tok; SequenceHeader s] ∧
     wr_out (w_wr (t_conn ts)) = frames [AuthResponse AuthOK] ∧
     LastClientSeq ts = s ∧ w_rd (t_conn tc) = Reader restc finc ∧ w_rd (t_conn ts) = Reader rests fins) ∧
  (tok ≠ ComputeAuthToken k' mat →
   ∃ e e' wc ws,
     performTCPAuth (Ok mat) k s (open_wire (Reader (frames [AuthResponse AuthFailed] ++ restc) finc))
       = Some (Err e, wc) ∧
     tcp_authenticate (Ok mat) k' (open_wire (Reader (frames [AuthRequest tok] ++ rests) fins))
       = Some (Err e', ws) ∧
     wr_out (w_wr wc) = frames [AuthRequest tok] ∧ wr_out (w_wr ws) = frames [AuthResponse AuthFailed]).
Proof.
  intros Hs tok. assert (msg_wf (AuthRequest tok)) as Hwf by apply msg_wf_AuthRequest. split.
  - intros <-. do 4 eexists. split; [|split].
    + unfold performTCPAuth, io_bind, io_wrap, io_lift, wrap_err.
      rewrite wire_write_eq by done.
      rewrite (wire_read_eq _ (AuthResponse AuthOK) (Reader restc finc)) by (done || by apply ReadMessage_of_frame).
      rewrite bool_decide_eq_true_2 by done. cbn [negb]. rewrite wire_write_eq by done. reflexivity.
    + rewrite (tcp_authenticate_request mat k _ tok (Reader (frame (SequenceHeader s) ++ rests) fins)).
      2:{ cbn [open_wire w_rd]. rewrite frames_cons, frames_one, <-app_assoc.
          by apply ReadMessage_of_frame. }
      rewrite VerifyAuthToken_refl. cbn [negb]. unfold io_bind, io_wrap, wrap_err.
      rewrite wire_write_eq by done.
      rewrite (wire_read_within_eq _ (SequenceHeader s) (Reader rests fins)) by (done || by apply ReadMessage_of_frame).
      reflexivity.
    + cbn [t_conn newTCPConn w_wr advance wr_out open_wire w_rd LastClientSeq]. rewrite frames_cons, !frames_one.
      by split_and!.
  - intros Hne. do 4 eexists. split; [|split].
    + unfold performTCPAuth, io_bind, io_wrap, io_lift, wrap_err.
      rewrite wire_write_eq by done.
      rewrite (wire_read_eq _ (AuthResponse AuthFailed) (Reader restc finc)) by (done || by apply ReadMessage_of_frame).
      rewrite bool_decide_eq_false_2 by done. reflexivity.
    + rewrite (tcp_authenticate_request mat k' _ tok (Reader rests fins)).
      2:{ cbn [open_wire w_rd]. rewrite frames_one. by apply ReadMessage_of_frame. }
      destruct (VerifyAuthToken k' mat tok) eqn:Hv; [by apply VerifyAuthToken_eq in Hv|].
      cbn [negb]. unfold io_bind, io_try. rewrite wire_write_eq by done. reflexivity.
    + cbn [t_conn newTCPConn w_wr advance wr_out open_wire w_rd]. by rewrite !frames_one.
Qed.

Lemma tcp_handshake_agrees_witness :
  let tok := ComputeAuthToken [x01] [x02] in
  ∃ tc ts wc ws,
    performTCPAuth (Ok [x02]) [x01] 7 (open_wire (Reader (frames [AuthResponse AuthOK] ++ []) None))
      = Some (Ok tc, wc) ∧
    tcp_authenticate (Ok [x02]) [x01] (open_wire (Reader (frames [AuthRequest tok; SequenceHeader 7] ++ []) None))
      = Some (Ok ts, ws) ∧
    wr_out (w_wr (t_conn tc)) = frames [AuthRequest tok; SequenceHeader 7] ∧
    wr_out (w_wr (t_conn ts)) = frames [AuthResponse AuthOK] ∧
    LastClientSeq ts = 7 ∧ w_rd (t_conn tc) = Reader [] None ∧ w_rd (t_conn ts) = Reader [] None.
Proof. intros tok. by apply (tcp_handshake_agrees [x01] [x01] [x02] 7 [] [] None None). Defined.



(** C32: The QUIC accept path has no such bound.  The context deadline covers
    the control stream only: a client that authenticates and then never opens
    its data stream blocks [Accept], and with it every later QUIC client. *)
Theorem quic_accept_unbounded mat k wc rd' ctl dat code :
  w_closed wc = false → accepts (w_wr wc) (len (frame (AuthResponse AuthOK))) →
  ReadMessage (w_rd wc) = Some (Ok (AuthRequest (ComputeAuthToken k mat)), rd') →
  quic_Accept (Some (Ok (QuicLink [Some (Ok wc)] ctl dat code))) (Ok mat) k = None.
Proof.
  intros Hc Ha Hr. unfold quic_Accept, quic_authenticate, io_bind, io_wrap, io_lift, next_stream,
    set_control, on_control, wrap_err. simpl.
  rewrite (wire_read_within_eq _ _ _ Hr), VerifyAuthToken_refl. simpl.
  by rewrite wire_write_eq.
Qed.

Lemma quic_accept_unbounded_witness :
  let wc := open_wire (Reader (frame (AuthRequest (ComputeAuthToken [x01] [x02]))) None) in
  quic_Accept (Some (Ok (QuicLink [Some (Ok wc)] None None None))) (Ok [x02]) [x01] = None.
Proof.
  intros wc. apply (quic_accept_unbounded [x02] [x01] wc (Reader [] None)); [done|done|].
  vm_compute. reflexivity.
Defined.

(** C31: A peer without the passkey can crash the session: on either transport
    a first message [TerminalInfo] with a name of 65534 or 65535 bytes panics
    in [authenticate], in the goroutine of the accept loop, which does not
    recover. *)
Theorem unauthenticated_peer_panics term rest fin w material k :
  65534 <= len (string_bytes term) <= 65535 →
  w_rd w = Reader (frame (TerminalInfo term) ++ rest) fin →
  (∃ p w', tcp_Accept (Some (Ok w)) false false material k = Some (Panicked p, Some w')) ∧
  (∃ p l', quic_Accept (Some (Ok (QuicLink [Some (Ok w)] None None None))) material k
     = Some (Panicked p, Some l')).
Proof.
  intros Hl Hrd.
  assert (∃ p, ReadMessage (w_rd w) = Some (Panicked p, Reader rest fin)) as [p Hp].
  { rewrite Hrd. by apply ReadMessage_long_terminal_info. }
  assert (∃ w', wire_read_within w = Some (Panicked p, w')) as [w' Hw].
  { unfold wire_read_within, wire_read. simpl. rewrite Hp. eauto. }
  split; eexists p, _.
  - unfold tcp_Accept, tcp_authenticate, io_bind, io_wrap, wrap_err. simpl. by rewrite Hw.
  - unfold quic_Accept, quic_authenticate, io_bind, io_wrap, next_stream, set_control, on_control,
      wrap_err. simpl. by rewrite Hw.
Qed.

Lemma unauthenticated_peer_panics_witness :
  let term := bytes_string (replicate (Z.to_nat 65534) x61) in
  let w := open_wire (Reader (frame (TerminalInfo term) ++ []) None) in
  (∃ p w', tcp_Accept (Some (Ok w)) false false (Ok [x02]) [x01] = Some (Panicked p, Some w')) ∧
  (∃ p l', quic_Accept (Some (Ok (QuicLink [Some (Ok w)] None None None))) (Ok [x02]) [x01]
     = Some (Panicked p, Some l')).
Proof.
  intros term w. apply (unauthenticated_peer_panics term [] None w); [|done].
  unfold term. rewrite string_bytes_string, len_replicate, Z2Nat.id; lia.
Defined.

(** The dual listener neither loses nor duplicates a connection.  In every
    interleaving of its two accept loops, [Accept] and [Close], each
    connection a loop authenticated is in exactly one place: returned by
    [Accept], in the queue of at most four, offered by a loop, or closed. *)
Theorem dual_listener_conserves {C} `{Conn C} (d : dual_conf) :
  rtc dual_step (DualConf newDualListener [] [] []) d →
  len (ch_buf (dl_connCh (du_dl d))) <= 4 ∧
  ∃ discarded, du_closed d = (Close <$> discarded) ∧
    (du_authenticated d).*2 ≡ₚ du_returned d ++ ch_buf (dl_connCh (du_dl d)) ++
      offered (dl_quic (du_dl d)) ++ offered (dl_tcp (du_dl d)) ++ discarded.
Proof. by intros (_ & Hl & Hd)%dual_reachable_inv. Qed.

Lemma dual_listener_conserves_witness :
  let t := newTCPConn (open_wire (Reader [] None)) 0 in
  let d := DualConf (DualListener (Chan [] 4 false) false (Accepting) (Accepting)) [(OnTCP, t)] [t] [] in
  len (ch_buf (dl_connCh (du_dl d))) <= 4 ∧
  ∃ discarded, du_closed d = (Close <$> discarded) ∧
    (du_authenticated d).*2 ≡ₚ du_returned d ++ ch_buf (dl_connCh (du_dl d)) ++
      offered (dl_quic (du_dl d)) ++ offered (dl_tcp (du_dl d)) ++ discarded.
Proof.
  intros t d. apply dual_listener_conserves.
  eapply rtc_l; [by apply (dual_step_tcp false (Ok t))|].
  eapply rtc_l; [by apply (dual_step_tcp false (Ok t))|].
  eapply rtc_l; [by apply (dual_step_accept false false)|]. apply rtc_refl.
Defined.
