(* ===== verification/Sender.v ===== *)
(** * Sequence-numbered sending, shared by the session and the client

    Both ends number the batches they send 1, 2, ..., keep them in a catchup
    buffer and, on a new connection, replay those above the number the peer
    reports.  [sender_ok] states what the pair of a counter and a buffer
    means: a history of batches.  The lemmas here carry the proofs of
    [Session], [Client] and [System]. *)

From S2P Require Import Prelude GoIO Protocol Catchup.
Import catchup.

(** The [Data] messages numbered from [m + 1] on. *)
Definition data_run (m : Z) (ps : list bytes) : list message :=
  (λ e, Data (seq e) (payload e)) <$> numbered m ps.

(** The batches of the history after the first [m]. *)
Definition run_from (m : Z) (hist : list bytes) : list message :=
  data_run m (drop (Z.to_nat m) hist).

(** [sendSeq] and [b] are what storing the batches [hist] gives, for a buffer
    created with size [n]. *)
Definition sender_ok (n sendSeq : Z) (b : Buffer) (hist : list bytes) : Prop :=
  sendSeq = len hist ∧ len hist < 2 ^ 64 ∧ inv b ∧
  maxSize b = maxSize (New n) ∧ capacity b = capacity (New n) ∧
  contents b = qstores (maxSize (New n)) (capacity (New n)) [] (numbered 0 hist).

(** How many of the first batches are no longer kept. *)
Definition horizon (n : Z) (hist : list bytes) : Z :=
  len hist - len (qstores (maxSize (New n)) (capacity (New n)) [] (numbered 0 hist)).

Lemma data_run_app m ps qs : data_run m (ps ++ qs) = data_run m ps ++ data_run (m + len ps) qs.
Proof. unfold data_run. by rewrite numbered_app, fmap_app. Qed.

Lemma data_run_length m ps : List.length (data_run m ps) = List.length ps.
Proof. unfold data_run. by rewrite length_fmap, numbered_length. Qed.

Lemma data_run_lookup m ps i :
  data_run m ps !! i = (λ p, Data (m + Z.of_nat i + 1) p) <$> ps !! i.
Proof.
  revert m i. induction ps as [|p ps IH]; intros m i; [done|].
  change (data_run m (p :: ps)) with (Data (m + 1) p :: data_run (m + 1) ps). destruct i as [|i].
  - cbn. by rewrite Z.add_0_r.
  - change (data_run (m + 1) ps !! i = (λ p, Data (m + Z.of_nat (S i) + 1) p) <$> ps !! i).
    rewrite (IH (m + 1) i). destruct (ps !! i); [|done]. cbn. do 2 f_equal. lia.
Qed.

Lemma data_run_is_data m ps : Forall (λ x, is_data x = true) (data_run m ps).
Proof. unfold data_run. apply Forall_fmap, Forall_true. done. Qed.

Lemma data_run_wf m ps : 0 <= m → m + len ps < 2 ^ 64 → Forall msg_wf (data_run m ps).
Proof.
  intros Hm Hl. apply Forall_lookup_2. intros i x. rewrite data_run_lookup.
  destruct (ps !! i) as [p|] eqn:E; [|done]. intros [= <-]. apply lookup_lt_Some in E.
  unfold msg_wf, is_uint, len in *. lia.
Qed.

Lemma run_from_snoc m hist p :
  0 <= m <= len hist → run_from m (hist ++ [p]) = run_from m hist ++ [Data (len hist + 1) p].
Proof.
  intros Hm. unfold run_from. rewrite drop_app_le by (unfold len in Hm; lia).
  rewrite data_run_app. f_equal. unfold data_run. simpl. repeat f_equal.
  rewrite len_drop. lia.
Qed.

Lemma run_from_end hist : run_from (len hist) hist = [].
Proof. unfold run_from, len. by rewrite Nat2Z.id, drop_all. Qed.

Lemma run_from_length m hist : 0 <= m <= len hist → len (run_from m hist) = len hist - m.
Proof.
  intros Hm. unfold run_from, len in *. rewrite data_run_length, length_drop. lia.
Qed.

Lemma run_from_lookup m hist i x :
  0 <= m → run_from m hist !! i = Some x →
  ∃ p, x = Data (m + Z.of_nat i + 1) p ∧ hist !! (Z.to_nat m + i)%nat = Some p.
Proof.
  unfold run_from. rewrite data_run_lookup, lookup_drop.
  intros Hm. destruct (hist !! _) as [p|] eqn:E; [|done]. intros [= <-]. by exists p.
Qed.

(** ** The sender *)

Lemma sender_new n : sender_ok n 0 (New n) [].
Proof.
  destruct (New_spec n) as (Hi & Hc & _). split_and!; try done.
Qed.

Lemma sender_store n s b hist p :
  sender_ok n s b hist → len hist + 1 < 2 ^ 64 →
  uint64 (s + 1) = len hist + 1 ∧
  ∃ b', Store b (uint64 (s + 1)) p = Some (Ok b') ∧ sender_ok n (uint64 (s + 1)) b' (hist ++ [p]).
Proof.
  intros (-> & Hl & Hi & Hm & Hc & Hq) Hb. pose proof (len_nonneg hist).
  assert (uint64 (len hist + 1) = len hist + 1) as Hu by (apply uint64_small; unfold is_uint; lia).
  rewrite Hu. split; [done|].
  destruct (Store_spec b (len hist + 1) p Hi) as (b' & Hs & Hi' & Hc' & Hcap & Hmax).
  exists b'. split; [done|]. unfold sender_ok. rewrite len_app, len_cons, len_nil.
  split_and!; try congruence; try done.
  rewrite Hc', Hm, Hc, Hq, numbered_app. unfold qstores. rewrite fold_left_app. done.
Qed.

(** What is kept is the end of the history. *)
Lemma sender_contents n s b hist :
  sender_ok n s b hist →
  0 <= horizon n hist <= len hist ∧
  contents b = numbered (horizon n hist) (drop (Z.to_nat (horizon n hist)) hist).
Proof.
  intros (-> & _ & Hi & _ & _ & Hq). unfold horizon.
  pose proof (qstores_suffix (maxSize (New n)) (capacity (New n)) (numbered 0 hist)) as Hs.
  pose proof (suffix_eq_drop _ _ Hs) as Hd. pose proof (suffix_length _ _ Hs) as Hle.
  rewrite numbered_length in *. rewrite <-Hq in *. set (q := contents b) in *.
  assert (Z.to_nat (len hist - len q) = List.length hist - List.length q)%nat as Hn by (unfold len; lia).
  split; [unfold len; lia|]. rewrite Hn. rewrite Hd at 1. rewrite numbered_drop. f_equal. unfold len. lia.
Qed.

Lemma sender_replay n s b hist a :
  sender_ok n s b hist → 0 <= a →
  ∃ es, ReplaySince b a = Ok es ∧
    (λ e, Data (seq e) (payload e)) <$> es = run_from (Z.max (horizon n hist) a) hist.
Proof.
  intros Hs Ha. destruct (sender_contents _ _ _ _ Hs) as [Hh Hc]. destruct Hs as (_ & _ & Hi & _).
  exists (qreplay (contents b) a). split; [by apply ReplaySince_spec|].
  rewrite Hc. set (k := horizon n hist) in *.
  rewrite <-(Z2Nat.id k) at 1 by lia. rewrite qreplay_tail, Z2Nat.id by lia. done.
Qed.

(** A suffix of the history that fits the limits is kept. *)
Lemma horizon_retains n hist j :
  0 <= j <= len hist →
  total (numbered j (drop (Z.to_nat j) hist)) <= maxSize (New n) →
  len hist - j <= capacity (New n) → horizon n hist <= j.
Proof.
  intros Hj Ht Hc. unfold horizon. destruct (New_spec n) as ([] & _).
  assert (numbered j (drop (Z.to_nat j) hist) `suffix_of`
    qstores (maxSize (New n)) (capacity (New n)) [] (numbered 0 hist)) as Hs.
  { apply qstores_retains; [done| |].
    - rewrite <-(Z2Nat.id j) at 1 by lia. change (Z.of_nat (Z.to_nat j)) with (0 + Z.of_nat (Z.to_nat j)).
      rewrite <-numbered_drop. apply drop_suffix.
    - left. split; [done|]. unfold len in *. rewrite numbered_length, length_drop. lia. }
  apply suffix_length in Hs. rewrite numbered_length, length_drop in Hs. unfold len in *. lia.
Qed.

Lemma horizon_range n hist : 0 <= horizon n hist <= len hist.
Proof.
  unfold horizon.
  pose proof (suffix_length _ _ (qstores_suffix (maxSize (New n)) (capacity (New n)) (numbered 0 hist))) as Hle.
  rewrite numbered_length in Hle. unfold len. lia.
Qed.

(** One step adds at most one batch. *)
Definition grown (hist hist' : list bytes) : Prop := hist' = hist ∨ ∃ p, hist' = hist ++ [p].

Lemma grown_refl hist : grown hist hist.
Proof. by left. Qed.

Lemma grown_snoc hist p : grown hist (hist ++ [p]).
Proof. right. by exists p. Qed.

Lemma grown_len hist hist' : grown hist hist' → len hist <= len hist' <= len hist + 1.
Proof. intros [->|[p ->]]; [lia|]. rewrite len_app, len_cons, len_nil. lia. Qed.

Lemma grown_prefix hist hist' : grown hist hist' → hist `prefix_of` hist'.
Proof. intros [->|[p ->]]; [done|]. by apply prefix_app_r. Qed.

Lemma run_from_prefix m hist hist' :
  0 <= m <= len hist → hist `prefix_of` hist' → run_from m hist `prefix_of` run_from m hist'.
Proof.
  intros Hm [k ->]. unfold run_from. rewrite drop_app_le by (unfold len in Hm; lia).
  rewrite data_run_app. by apply prefix_app_r.
Qed.

(** A connection that is set up when the batches are [hist], for a peer that
    reports [last], is sent the run that starts here: just above what the
    peer has, unless that has been evicted. *)
Definition start (n : Z) (hist : list bytes) (last : Z) : Z :=
  Z.min (len hist) (Z.max (horizon n hist) last).

Lemma start_range n hist last : 0 <= start n hist last <= len hist.
Proof. unfold start. pose proof (horizon_range n hist). pose proof (len_nonneg hist). lia. Qed.

(** What [ReplaySince] gives is that run. *)
Lemma run_from_start n hist last :
  run_from (Z.max (horizon n hist) last) hist = run_from (start n hist last) hist.
Proof.
  unfold start. pose proof (horizon_range n hist).
  destruct (Z.leb_spec last (len hist)); [by rewrite Z.min_r by lia|].
  rewrite Z.min_l, run_from_end by lia. unfold run_from. rewrite drop_ge; [done|]. unfold len in *. lia.
Qed.

(** A suffix of the history that fits the buffer is replayed whole. *)
Lemma start_exact n hist last :
  0 <= last <= len hist → total (numbered last (drop (Z.to_nat last) hist)) <= maxSize (New n) →
  len hist - last <= capacity (New n) → start n hist last = last.
Proof.
  intros Hl Ht Hc. unfold start. pose proof (horizon_retains n hist last Hl Ht Hc). lia.
Qed.

#[export] Hint Resolve sender_new horizon_range grown_refl grown_snoc grown_prefix : goet.
