(* ===== verification/Delivery.v ===== *)
(** * Sequence-numbered receiving, shared by both directions

    The other half of [Sender]: what a receiver has delivered of the batches
    [hist] of its peer, when it reads runs of them from one connection after
    another and reports its position when a new one is set up.  Batches
    arrive in order and none twice; a gap is a batch the peer's catchup buffer
    had evicted.  [System] uses it for the terminal, [Duplex] for the PTY. *)

From stdpp Require Import sorting.
From S2P Require Import Prelude GoIO Protocol Catchup Sender.

Module delivery.

(** The size of the peer's catchup buffer. *)
Section delivery.
Variable (n : Z).

(** The batches with the given indices. *)
Definition pick (hist : list bytes) (got : list nat) : bytes :=
  List.concat ((λ j, default [] (hist !! j)) <$> got).

(** The catchup buffer had dropped batch [b] at some time. *)
Definition evicted (hist : list bytes) (b : nat) : Prop :=
  ∃ k, (b < k ≤ List.length hist)%nat ∧ Z.of_nat b < horizon n (take k hist).

(** The receiver has displayed the batches [got], all below [q], and nothing
    below [q] is missing that was not evicted. *)
Definition displayed (hist : list bytes) (got : list nat) (q : Z) (out : bytes) : Prop :=
  0 <= q <= len hist ∧ out = pick hist got ∧ StronglySorted lt got ∧
  Forall (λ j, Z.of_nat j < q) got ∧ ∀ b, Z.of_nat b < q → b ∈ got ∨ evicted hist b.

(** The receiver's position is [q] after [k] messages of a connection that was
    set up for position [last]. *)
Definition position (last : Z) (ds : list message) (k : nat) (q : Z) : Prop :=
  match k with
  | O => last = q
  | S k' => ∃ p, ds !! k' = Some (Data q p)
  end.

(** ** Lemmas *)

Lemma pick_extend hist hist' got q :
  hist `prefix_of` hist' → q <= len hist → Forall (λ j, Z.of_nat j < q) got → pick hist' got = pick hist got.
Proof.
  intros [k ->] Hq Hg. unfold pick. f_equal. apply list_fmap_ext. intros i j Hj.
  apply (Forall_lookup_1 _ _ _ _ Hg) in Hj. rewrite lookup_app_l; [done|]. unfold len in Hq. lia.
Qed.

Lemma evicted_extend hist hist' b : hist `prefix_of` hist' → evicted hist b → evicted hist' b.
Proof.
  intros [l ->] (k & Hk & Hb). exists k. rewrite length_app. split; [lia|]. by rewrite take_app_le by lia.
Qed.

Lemma displayed_extend hist hist' got q out :
  hist `prefix_of` hist' → displayed hist got q out → displayed hist' got q out.
Proof.
  intros Hp (Hq & -> & Hs & Hg & Hm). split.
  { apply prefix_length in Hp. unfold len in *. lia. }
  split; [symmetry; eapply pick_extend; [done| |done]; lia|]. split; [done|]. split; [done|].
  intros b Hb. destruct (Hm b Hb); [by left|right]. by eapply evicted_extend.
Qed.

(** One more batch, number [m + 1], after a gap of evicted ones. *)
Lemma displayed_next hist got q out m p :
  displayed hist got q out → q <= Z.of_nat m → hist !! m = Some p →
  (∀ b, q <= Z.of_nat b → (b < m)%nat → evicted hist b) →
  displayed hist (got ++ [m]) (Z.of_nat m + 1) (out ++ p).
Proof.
  intros (Hq & -> & Hs & Hg & Hm) Hle Hp Hgap. apply lookup_lt_Some in Hp as Hlt.
  split; [unfold len; lia|]. split.
  { unfold pick. rewrite fmap_app, concat_app. simpl. by rewrite Hp, app_nil_r. }
  split.
  { clear -Hs Hg Hle. induction Hs as [|a l Hs IH Ha]; simpl; [by repeat constructor|].
    apply Forall_cons in Hg as [Hga Hg]. constructor; [by apply IH|].
    apply Forall_app_2; [done|]. apply Forall_singleton. lia. }
  split.
  { apply Forall_app_2; [|apply Forall_singleton; lia]. eapply Forall_impl; [done|]. simpl. lia. }
  intros b Hb. destruct (Z.ltb_spec (Z.of_nat b) q) as [Hlb|Hge].
  - destruct (Hm b Hlb); [left; set_solver|by right].
  - destruct (decide (b = m)) as [->|Hne]; [left; set_solver|]. right. apply Hgap; [done|lia].
Qed.

(** Where a connection's run starts, given what its client has. *)
Lemma start_evicted hist k last b :
  (k ≤ List.length hist)%nat → last <= Z.of_nat k → last <= Z.of_nat b → Z.of_nat b < start n (take k hist) last →
  evicted hist b.
Proof.
  intros Hk Hl Hb Hs. exists k. unfold start in Hs. rewrite len_take in Hs. split; lia.
Qed.

Lemma position_app last ds ds' k q : position last ds k q → position last (ds ++ ds') k q.
Proof. destruct k; [done|]. intros (p & Hp). exists p. by apply lookup_app_l_Some. Qed.

(** What was read of a run: up to the position nothing is missing but what
    was evicted. *)
Lemma position_read hist kk last ds k q :
  (kk ≤ List.length hist)%nat → last <= Z.of_nat kk → ds `prefix_of` run_from (start n (take kk hist) last) hist →
  position last ds k q →
  q <= start n (take kk hist) last + Z.of_nat k <= len hist ∧
  ∀ b, q <= Z.of_nat b → Z.of_nat b < start n (take kk hist) last + Z.of_nat k → evicted hist b.
Proof.
  intros Hkk Hh Hpre Hk. set (st := start n (take kk hist) last) in *.
  assert (0 <= st <= Z.of_nat kk) as Hst.
  { pose proof (start_range n (take kk hist) last) as Hr. rewrite len_take in Hr. unfold st. lia. }
  destruct k as [|k'].
  - simpl in Hk. subst q. rewrite Z.add_0_r. split.
    + unfold st, start in *. rewrite len_take in *. unfold len in *. lia.
    + intros b Hb1 Hb2. eapply (start_evicted hist kk last); [done|done|lia|done].
  - destruct Hk as (p & Hd).
    eapply (prefix_lookup_Some _ _ _ _ Hd) in Hpre. apply run_from_lookup in Hpre as (p' & [= Heq _] & Hp'); [|lia].
    apply lookup_lt_Some in Hp'. unfold len. split; [lia|]. intros b Hb1 Hb2. lia.
Qed.

(** The next message is delivered. *)
Lemma position_next hist got kk last ds k q out msg :
  displayed hist got q out →
  (kk ≤ List.length hist)%nat → last <= Z.of_nat kk → ds `prefix_of` run_from (start n (take kk hist) last) hist →
  position last ds k q → ds !! k = Some msg →
  ∃ q' p got', msg = Data q' p ∧ displayed hist got' q' (out ++ p) ∧ position last ds (S k) q'.
Proof.
  intros Hd Hkk Hh Hpre Hk Hm. destruct (position_read _ _ _ _ _ _ Hkk Hh Hpre Hk) as [Hq Hev].
  set (st := start n (take kk hist) last) in *.
  assert (0 <= st) by (by apply start_range).
  eapply (prefix_lookup_Some _ _ _ _ Hm) in Hpre. apply run_from_lookup in Hpre as (p & -> & Hp); [|done].
  exists (st + Z.of_nat k + 1), p, (got ++ [Z.to_nat st + k]%nat). split; [done|]. split; [|by exists p].
  replace (st + Z.of_nat k + 1) with (Z.of_nat (Z.to_nat st + k) + 1) by lia.
  eapply displayed_next; [done|lia|done|]. intros b Hb1 Hb2. apply Hev; [done|lia].
Qed.

(** ** A buffer that is large enough *)

Lemma total_numbered m ps : catchup.total (catchup.numbered m ps) = len (List.concat ps).
Proof.
  revert m. induction ps as [|p ps IH]; intros m; [done|]. cbn [catchup.numbered List.concat].
  rewrite len_app, <-(IH (m + 1)). done.
Qed.

Lemma not_evicted hist b :
  len (List.concat hist) <= catchup.maxSize (catchup.New n) → len hist <= catchup.capacity (catchup.New n) →
  ¬ evicted hist b.
Proof.
  intros Hsize Hcap (k & [_ Hk] & Hb).
  assert (horizon n (take k hist) <= 0); [|lia]. apply horizon_retains.
  - pose proof (len_nonneg (take k hist)). lia.
  - rewrite total_numbered. change (drop (Z.to_nat 0) (take k hist)) with (take k hist).
    rewrite <-(take_drop k hist), concat_app, len_app in Hsize. pose proof (len_nonneg (List.concat (drop k hist))). lia.
  - rewrite len_take. lia.
Qed.

Lemma sorted_seq got q :
  StronglySorted lt got → Forall (λ j, (j < q)%nat) got → (∀ b, (b < q)%nat → b ∈ got) → got = seq 0 q.
Proof.
  intros Hs Hg Hall. apply (StronglySorted_unique_strong lt); [lia|done| |].
  - clear. generalize 0%nat. induction q as [|q IH]; intros a; simpl; constructor; [done|].
    apply Forall_seq. lia.
  - apply NoDup_Permutation; [|apply NoDup_seq|].
    + clear -Hs. induction Hs as [|a l Hs IH Ha]; constructor; [|done].
      intros Hin. rewrite Forall_forall in Ha. specialize (Ha a Hin). lia.
    + intros b. rewrite elem_of_seq. split.
      * intros Hin. rewrite Forall_forall in Hg. specialize (Hg b Hin). lia.
      * intros [_ Hb]. by apply Hall.
Qed.

Lemma pick_seq hist q : (q ≤ List.length hist)%nat → pick hist (seq 0 q) = List.concat (take q hist).
Proof.
  intros Hq. unfold pick. f_equal. apply list_eq. intros i. rewrite list_lookup_fmap.
  destruct (decide (i < q)%nat) as [Hi|Hi].
  - rewrite lookup_seq_lt, lookup_take_lt by done. simpl.
    destruct (hist !! i) eqn:E; [done|]. apply lookup_ge_None in E. lia.
  - rewrite lookup_seq_ge, lookup_take_ge by lia. done.
Qed.
End delivery.
End delivery.
