(* ===== verification/Pty.v ===== *)
(** * The pseudo-terminal ([internal/session/pty.go])

    Starting the shell with its environment, validating the client's terminal
    name, and resizing.  The package [creack/pty] and the PTY device are an
    interface, [PtyLib]; [PtyLaws] states what the code relies on, and a
    concrete in-memory PTY shows that the laws can hold, and so does one whose
    writes fail when it is told to. *)

From S2P Require Import Prelude GoIO GoStrings.
Import gostrings.
Open Scope go_scope.

(** ** [sanitizeTerm] *)

Definition fallbackTerm : string := "xterm-256color".

Definition sanitizeTerm (term : string) : string :=
  if bool_decide (term = "") || (128 <? len (string_bytes term)) then fallbackTerm
  else if existsb (λ c, (c <? 32) || (c =? 61) || (126 <? c)) (runes term) then fallbackTerm
  else term.

(** ** [spawnPTY] *)

Record Winsize : Type := MkWinsize { Rows : Z; Cols : Z; PxX : Z; PxY : Z }.

(** The fields of [exec.Cmd] that are set: the command, [Args[0]], [Env]. *)
Record Cmd : Type := MkCmd { cmd_name : string; cmd_argv0 : string; cmd_Env : list string }.

Definition shell_cmd (SHELL : string) (environ : list string) (sessionID term : string) : Cmd :=
  let shell := if bool_decide (SHELL = "") then "/bin/sh" else SHELL in
  let shellBase := filepath_Base shell in
  let term := sanitizeTerm term in
  let env := List.filter (λ e, negb (HasPrefix e "TERM=")) environ in
  let env := env ++ ["TERM=" +:+ term] in
  MkCmd shell ("-" +:+ shellBase) (env ++ ["GOET_SESSION=" +:+ sessionID]).

(** ** The PTY library and device *)

Class PtyLib (P : Type) : Type := {
  pty_StartWithSize : Cmd → Winsize → res P;
  pty_Setsize : Winsize → io P ();
  pty_GetsizeFull : io P Winsize;
  pty_Write : bytes → io P ();
  pty_Close : P → P;
}.

Section pty.
Context {P : Type} `{PtyLib P}.

Definition spawnPTY (SHELL : string) (environ : list string) (sessionID term : string) : res P :=
  wrap_err "start PTY: %w"
    (pty_StartWithSize (shell_cmd SHELL environ sessionID term) (MkWinsize 24 80 0 0)).

Definition resizePTY (rows cols : Z) : io P () := pty_Setsize (MkWinsize rows cols 0 0).

Definition bouncePTYSize : io P () :=
  sz <- io_wrap "get PTY size: %w" pty_GetsizeFull ;;
  if Rows sz <=? 1 then io_ret ()
  else pty_Setsize (MkWinsize (uint16 (Rows sz - 1)) (Cols sz) (PxX sz) (PxY sz)).
End pty.

(** What the code relies on: a size that was set is the one that is read, and
    reading or writing does not change it. *)
Class PtyLaws (P : Type) `{PtyLib P} : Type := {
  Setsize_Getsize sz (p p' : P) : pty_Setsize sz p = Some (Ok (), p') →
    pty_GetsizeFull p' = Some (Ok sz, p');
  Getsize_same (p : P) r p' : pty_GetsizeFull p = Some (r, p') → p' = p;
}.

(** What was written to the shell's terminal. *)
Class PtyInput (P : Type) `{PtyLaws P} : Type := {
  pty_input : P → bytes;
  Start_input cmd sz p : pty_StartWithSize cmd sz = Ok p → pty_input p = [];
  Write_input b (p p' : P) : pty_Write b p = Some (Ok (), p') → pty_input p' = pty_input p ++ b;
  Setsize_input sz (p : P) r p' : pty_Setsize sz p = Some (r, p') → pty_input p' = pty_input p;
}.

(** A PTY in memory: its size, and what was written to it. *)
Record memPty : Type := MemPty { mp_size : Winsize; mp_in : writer; mp_closed : bool }.

#[export] Instance memPty_PtyLib : PtyLib memPty := {|
  pty_StartWithSize _ sz := Ok (MemPty sz (Writer [] None None) false);
  pty_Setsize sz p := Some (Ok (), MemPty sz (mp_in p) (mp_closed p));
  pty_GetsizeFull p := Some (Ok (mp_size p), p);
  pty_Write b := io_zoom mp_in (λ w p, MemPty (mp_size p) w (mp_closed p)) (Write b);
  pty_Close p := MemPty (mp_size p) (mp_in p) true;
|}.

#[export] Instance memPty_laws : PtyLaws memPty.
Proof. split; [by intros sz [] p' [= <-]|by intros [] r p' [= _ <-]]. Qed.

#[export, refine] Instance memPty_input : PtyInput memPty := {| pty_input p := wr_out (mp_in p) |}.
Proof.
  - by intros cmd sz p [= <-].
  - intros b p p' Hw. unfold pty_Write, memPty_PtyLib, io_zoom in Hw.
    destruct (Write b (mp_in p)) as [[[[]| |] w]|] eqn:E; [|done..]. injection Hw as <-. by apply Write_ok_out in E.
  - by intros sz p r p' [= _ <-].
Defined.

(** A PTY whose first write fails, and no later one. *)
Record flakyPty : Type := FlakyPty { fp_pty : memPty; fp_fails : bool }.

Definition on_flaky {A} (c : io memPty A) : io flakyPty A := io_zoom fp_pty (λ p f, FlakyPty p (fp_fails f)) c.

#[export] Instance flakyPty_PtyLib : PtyLib flakyPty := {|
  pty_StartWithSize _ sz := Ok (FlakyPty (MemPty sz (Writer [] None None) false) true);
  pty_Setsize sz := on_flaky (pty_Setsize sz);
  pty_GetsizeFull := on_flaky pty_GetsizeFull;
  pty_Write b f :=
    if fp_fails f then Some (Err (ErrNew "input/output error"), FlakyPty (fp_pty f) false) else on_flaky (pty_Write b) f;
  pty_Close f := FlakyPty (pty_Close (fp_pty f)) (fp_fails f);
|}.

#[export] Instance flakyPty_laws : PtyLaws flakyPty.
Proof. split; [by intros sz [] p' [= <-]|by intros [[]] r p' [= _ <-]]. Qed.

#[export, refine] Instance flakyPty_input : PtyInput flakyPty := {| pty_input f := pty_input (fp_pty f) |}.
Proof.
  - by intros cmd sz p [= <-].
  - intros b [p [|]] f' Hw; [done|].
    change (on_flaky (pty_Write b) (FlakyPty p false) = Some (Ok (), f')) in Hw. unfold on_flaky, io_zoom at 1 in Hw. cbn [fp_pty] in Hw.
    destruct (pty_Write b p) as [[[[]| |] p1]|] eqn:E; [|done..]. injection Hw as <-. by apply Write_input in E.
  - by intros sz [p f] r f' [= _ <-].
Defined.

(** ** Lemmas: runes *)

Lemma cbits_range b : 0 <= cbits b < 64.
Proof.
  unfold cbits. change 63 with (Z.ones 6). rewrite Z.land_ones by done.
  by apply Z.mod_pos_bound.
Qed.

Lemma two_byte_lead b : 194 <= Zb b → Zb b <= 223 → 2 <= Z.land (Zb b) 31.
Proof.
  intros H1 H2. change 31 with (Z.ones 5). rewrite Z.land_ones by done. change (2 ^ 5) with 32.
  rewrite <-(Z.mod_unique (Zb b) 32 6 (Zb b - 192)); lia.
Qed.

(** An ASCII byte is its own rune; any other first byte gives a larger one. *)
Lemma decode_rune_first b l :
  if Zb b <? 128 then decode_rune (b :: l) = (Zb b, 1%nat)
  else 128 <= (decode_rune (b :: l)).1.
Proof.
  unfold decode_rune. destruct (Zb b <? 128); [done|].
  destruct l as [|b1 l1]; [done|].
  destruct ((194 <=? Zb b) && _ && _) eqn:E.
  { rewrite !andb_true_iff, !Z.leb_le in E. destruct E as [[E1 E2] _]. cbn [fst].
    pose proof (cbits_range b1). pose proof (two_byte_lead b E1 E2). rewrite lor_shiftl_add; lia. }
  destruct l1 as [|b2 l2]; [done|]. cbn zeta.
  match goal with |- context [if ?c then _ else _] => destruct c eqn:E3 end.
  { cbn [fst]. rewrite !andb_true_iff in E3. destruct E3 as [[_ E3%Z.leb_le] _]. by etrans; [|exact E3]. }
  destruct l2 as [|b3 l3]; [done|].
  match goal with |- context [if ?c then _ else _] => destruct c eqn:E4 end; [|done].
  cbn [fst]. rewrite !andb_true_iff in E4. destruct E4 as [[_ E4%Z.leb_le] _]. by etrans; [|exact E4].
Qed.

Definition bad_rune (c : Z) : bool := (c <? 32) || (c =? 61) || (126 <? c).

Lemma runes_bad n l :
  (List.length l ≤ n)%nat → existsb bad_rune (fst <$> runes_fuel n l) = existsb (λ b, bad_rune (Zb b)) l.
Proof.
  revert l. induction n as [|n IH]; intros [|b l] Hl; simpl in Hl; try done; try lia.
  pose proof (decode_rune_first b l) as Hd. cbn [runes_fuel existsb].
  destruct (Z.ltb_spec (Zb b) 128) as [Hb|Hb].
  - rewrite Hd. rewrite fmap_cons. cbn [existsb fst]. change (drop 1 (b :: l)) with l. rewrite IH by lia. done.
  - destruct (decode_rune (b :: l)) as [r w]. cbn [fst] in Hd. rewrite fmap_cons. cbn [existsb fst].
    assert (bad_rune r = true ∧ bad_rune (Zb b) = true) as [-> ->]; [|done].
    unfold bad_rune. rewrite !(proj2 (Z.ltb_lt 126 _)), !orb_true_r by lia. done.
Qed.

(** ** Properties *)

(** The terminal names the session passes on: 1 to 128 printable ASCII
    characters other than [=]. *)
Definition term_ok (s : string) : bool :=
  (1 <=? len (string_bytes s)) && (len (string_bytes s) <=? 128) &&
  forallb (λ b, (32 <=? Zb b) && (Zb b <=? 126) && negb (Zb b =? 61)) (string_bytes s).

(** [sanitizeTerm] passes exactly the well-formed names, and its result,
    which goes into the shell's environment, is well-formed for every input a
    client can send, invalid UTF-8 included. *)
Theorem sanitizeTerm_exact term :
  sanitizeTerm term = (if term_ok term then term else fallbackTerm) ∧
  term_ok (sanitizeTerm term) = true.
Proof.
  assert (sanitizeTerm term = if term_ok term then term else fallbackTerm) as Heq.
  { unfold sanitizeTerm, term_ok, runes, runes_of. fold bad_rune. rewrite runes_bad by done.
    set (l := string_bytes term). assert (bool_decide (term = "") = (len l <? 1)) as ->.
    { unfold l. destruct term as [|a s]; [done|].
      change (string_bytes (String a s)) with (Ascii.byte_of_ascii a :: string_bytes s).
      rewrite len_cons, bool_decide_eq_false_2 by done. symmetry. apply Z.ltb_ge.
      pose proof (len_nonneg (string_bytes s)). lia. }
    rewrite (Z.leb_antisym (len l) 1), (Z.leb_antisym 128 (len l)).
    destruct (len l <? 1); [done|]. destruct (128 <? len l); [done|]. cbn [orb negb andb].
    assert (existsb (λ b, bad_rune (Zb b)) l =
      negb (forallb (λ b, (32 <=? Zb b) && (Zb b <=? 126) && negb (Zb b =? 61)) l)) as ->.
    { induction l as [|b l IH]; [done|]. cbn [existsb forallb]. rewrite IH, negb_andb. f_equal.
      unfold bad_rune. rewrite (Z.leb_antisym (Zb b) 32), (Z.leb_antisym 126 (Zb b)).
      by destruct (Zb b <? 32), (Zb b =? 61), (126 <? Zb b). }
    by destruct (forallb _ l). }
  split; [done|]. rewrite Heq. by destruct (term_ok term) eqn:E.
Qed.

(** The shell is a login shell whose environment has exactly one [TERM],
    the validated one, whatever the session inherited; every other inherited
    variable is passed on in order and [GOET_SESSION] is the last. *)
Theorem shell_environment SHELL environ sessionID term :
  let c := shell_cmd SHELL environ sessionID term in
  List.filter (λ e, HasPrefix e "TERM=") (cmd_Env c) = ["TERM=" +:+ sanitizeTerm term] ∧
  List.filter (λ e, negb (HasPrefix e "TERM=")) (cmd_Env c) =
    List.filter (λ e, negb (HasPrefix e "TERM=")) environ ++ ["GOET_SESSION=" +:+ sessionID] ∧
  cmd_argv0 c = "-" +:+ filepath_Base (cmd_name c).
Proof.
  cbn zeta. unfold shell_cmd. cbn [cmd_Env cmd_argv0 cmd_name].
  assert (∀ l, List.filter (λ e, HasPrefix e "TERM=") (List.filter (λ e, negb (HasPrefix e "TERM=")) l) = []) as H1.
  { induction l as [|e l IH]; [done|]. cbn [List.filter]. destruct (HasPrefix e _) eqn:E; simpl; [done|].
    by rewrite E. }
  assert (∀ l, List.filter (λ e, negb (HasPrefix e "TERM=")) (List.filter (λ e, negb (HasPrefix e "TERM=")) l)
    = List.filter (λ e, negb (HasPrefix e "TERM=")) l) as H2.
  { induction l as [|e l IH]; [done|]. cbn [List.filter]. destruct (HasPrefix e _) eqn:E; simpl; [done|].
    by rewrite E, IH. }
  assert (HasPrefix ("TERM=" +:+ sanitizeTerm term) "TERM=" = true) as E1 by (by destruct (sanitizeTerm term)).
  assert (HasPrefix ("GOET_SESSION=" +:+ sessionID) "TERM=" = false) as E2 by done.
  rewrite !List.filter_app, H1, H2. cbn [List.filter]. rewrite E1, E2. cbn [negb]. by rewrite !app_nil_r.
Qed.

Section bounce.
Context {P : Type} `{PtyLaws P}.

Lemma bounce_spec (p : P) sz p' :
  pty_GetsizeFull p = Some (Ok sz, p) → 1 <= Rows sz < 2 ^ 16 →
  bouncePTYSize p = Some (Ok (), p') →
  ∃ sz', pty_GetsizeFull p' = Some (Ok sz', p') ∧ Rows sz' = Z.max 1 (Rows sz - 1) ∧ Cols sz' = Cols sz.
Proof.
  intros Hg Hr. unfold bouncePTYSize.
  rewrite (io_bind_ok _ _ _ _ _ (io_wrap_ok "get PTY size: %w" _ _ _ _ Hg)).
  destruct (Z.leb_spec (Rows sz) 1).
  - intros [= <-]. exists sz. split_and!; [done|lia|done].
  - intros Hs%Setsize_Getsize. eexists. split; [done|]. simpl. unfold uint16. rewrite Z.mod_small by lia.
    split; [lia|done].
Qed.

(** Reconnections whose client sends no size: one bounce each. *)
Fixpoint bounces (n : nat) : io P () :=
  match n with
  | O => io_ret ()
  | S n' => bouncePTYSize ;; bounces n'
  end.
End bounce.

(** The bounce makes the client's next resize a genuine change: after it
    the PTY has one row less, so the size it had before, which the client
    sends next, differs from the current one; a one-row PTY is left alone.
    Bounces add up: [n] connections of a client that never sends a size (one
    whose standard input is not a terminal) take [n] rows away. *)
Theorem bounce_rows {P} `{PtyLaws P} n (p : P) sz p' :
  pty_GetsizeFull p = Some (Ok sz, p) → 1 <= Rows sz < 2 ^ 16 →
  bounces n p = Some (Ok (), p') →
  ∃ sz', pty_GetsizeFull p' = Some (Ok sz', p') ∧
    Rows sz' = Z.max 1 (Rows sz - Z.of_nat n) ∧ Cols sz' = Cols sz ∧
    (n ≠ 0%nat → 1 < Rows sz → sz' ≠ sz).
Proof.
  revert p sz. induction n as [|n IH]; intros p sz Hg Hr.
  - intros [= <-]. exists sz. split_and!; [done|lia|done|done].
  - cbn [bounces]. intros ([] & p1 & Hb & Hn)%io_bind_inv.
    destruct (bounce_spec p sz p1 Hg Hr Hb) as (sz1 & Hg1 & Hr1 & Hc1).
    destruct (IH p1 sz1 Hg1 ltac:(lia) Hn) as (sz2 & Hg2 & Hr2 & Hc2 & _).
    exists sz2. split_and!; [done|lia|congruence|]. intros _ Hlt ->. lia.
Qed.

Lemma bounce_rows_witness :
  let p := MemPty (MkWinsize 24 80 0 0) (Writer [] None None) false in
  let p' := MemPty (MkWinsize 22 80 0 0) (Writer [] None None) false in
  ∃ sz', pty_GetsizeFull p' = Some (Ok sz', p') ∧
    Rows sz' = Z.max 1 (24 - 2) ∧ Cols sz' = 80 ∧ (2%nat ≠ 0%nat → 1 < 24 → sz' ≠ MkWinsize 24 80 0 0).
Proof.
  intros p p'. apply (bounce_rows 2 p (MkWinsize 24 80 0 0) p'); [reflexivity|done|reflexivity].
Defined.
