(* ===== verification/Session.v ===== *)
(** * The session ([internal/session/session.go])

    The server half of the reconnectable terminal: its state, the handlers of
    its event loop and the goroutines that feed it.  Connections are objects
    in a heap, identified by a number, because the program compares them by
    identity and keeps stale ones in flight; the loop is a function of the
    select case that was taken.  Everything is proved against the interfaces
    [ConnLaws] and [PtyLib].  The main theorem is the stream invariant: what
    each connection has been sent is a gap-free run of the numbered history of
    the shell's output. *)

From S2P Require Import Prelude GoIO Protocol Catchup Coalesce Transport Sender Pty.
Open Scope go_scope.

Module session.

Definition ptyReadBufSize : Z := 32 * 1024.
Definition heartbeatInterval : Z := 5 * Second.
Definition recvTimeout : Z := 30 * Second.
Definition shellExitGrace : Z := 2 * Second.

(** The log's writer is left out. *)
Record Config : Type := MkConfig { SessionID : string; Port : Z; Passkey : bytes; ReplaySize : Z }.

(** [ev_msg]: the decoded message or the read error. *)
Record streamEvent : Type := StreamEvent {
  ev_conn : nat;
  ev_stream : string;
  ev_msg : res message;
}.

Section session.
Context {C : Type} `{ConnLaws C} {P : Type} `{PtyLib P}.
(** The process environment. *)
Variables (SHELL : string) (environ : list string).

(** [s_conn] is a reference into the heap [s_conns]; [s_ptyDataCh] and
    [s_shellDone] say whether those channels have been made; [s_readers] are
    the [readStream] goroutines running. *)
Record Session : Type := MkSession {
  s_cfg : Config;
  s_ptmx : option P;
  s_buf : catchup.Buffer;
  s_coal : coalesce.Coalescer;
  s_conn : option nat;
  s_sendSeq : Z;
  s_recvSeq : Z;
  s_ptyDataCh : bool;
  s_shellDone : bool;
  s_readers : list (nat * string);
  s_conns : gmap nat C;
}.

(** [New], and the [s.coal = coalesce.New()] of [Run] at time [now]. *)
Definition New (cfg : Config) (now : Z) : option Session :=
  coal ← coalesce.New now;
  Some (MkSession cfg None (catchup.New (ReplaySize cfg)) coal None 0 0 false false [] ∅).

Definition set_ptmx (p : option P) (s : Session) : Session :=
  MkSession (s_cfg s) p (s_buf s) (s_coal s) (s_conn s) (s_sendSeq s) (s_recvSeq s)
    (s_ptyDataCh s) (s_shellDone s) (s_readers s) (s_conns s).
Definition set_buf (b : catchup.Buffer) (s : Session) : Session :=
  MkSession (s_cfg s) (s_ptmx s) b (s_coal s) (s_conn s) (s_sendSeq s) (s_recvSeq s)
    (s_ptyDataCh s) (s_shellDone s) (s_readers s) (s_conns s).
Definition set_coal (c : coalesce.Coalescer) (s : Session) : Session :=
  MkSession (s_cfg s) (s_ptmx s) (s_buf s) c (s_conn s) (s_sendSeq s) (s_recvSeq s)
    (s_ptyDataCh s) (s_shellDone s) (s_readers s) (s_conns s).
Definition set_conn (c : option nat) (s : Session) : Session :=
  MkSession (s_cfg s) (s_ptmx s) (s_buf s) (s_coal s) c (s_sendSeq s) (s_recvSeq s)
    (s_ptyDataCh s) (s_shellDone s) (s_readers s) (s_conns s).
Definition set_sendSeq (n : Z) (s : Session) : Session :=
  MkSession (s_cfg s) (s_ptmx s) (s_buf s) (s_coal s) (s_conn s) n (s_recvSeq s)
    (s_ptyDataCh s) (s_shellDone s) (s_readers s) (s_conns s).
Definition set_recvSeq (n : Z) (s : Session) : Session :=
  MkSession (s_cfg s) (s_ptmx s) (s_buf s) (s_coal s) (s_conn s) (s_sendSeq s) n
    (s_ptyDataCh s) (s_shellDone s) (s_readers s) (s_conns s).
Definition set_channels (s : Session) : Session :=
  MkSession (s_cfg s) (s_ptmx s) (s_buf s) (s_coal s) (s_conn s) (s_sendSeq s) (s_recvSeq s)
    true true (s_readers s) (s_conns s).
Definition set_readers (l : list (nat * string)) (s : Session) : Session :=
  MkSession (s_cfg s) (s_ptmx s) (s_buf s) (s_coal s) (s_conn s) (s_sendSeq s) (s_recvSeq s)
    (s_ptyDataCh s) (s_shellDone s) l (s_conns s).
Definition set_conns (m : gmap nat C) (s : Session) : Session :=
  MkSession (s_cfg s) (s_ptmx s) (s_buf s) (s_coal s) (s_conn s) (s_sendSeq s) (s_recvSeq s)
    (s_ptyDataCh s) (s_shellDone s) (s_readers s) m.

(** ** Access to the parts of the state *)

Definition get {A} (f : Session → A) : io Session A := λ s, Some (Ok (f s), s).
Definition modify (f : Session → Session) : io Session () := λ s, Some (Ok (), f s).

(** A method call on the connection object [i]. *)
Definition call {A} (i : nat) (c : io C A) : io Session A := λ s,
  match s_conns s !! i with
  | None => Some (Panicked NilDereference, s)
  | Some x =>
    match c x with
    | None => None
    | Some (r, x') => Some (r, set_conns (<[i := x']> (s_conns s)) s)
    end
  end.

(** A method that only updates the object. *)
Definition method (f : C → C) : io C () := λ c, Some (Ok (), f c).

(** A call on [s.ptmx]. *)
Definition on_ptmx {A} (c : io P A) : io Session A := λ s,
  match s_ptmx s with
  | None => Some (Panicked NilDereference, s)
  | Some p =>
    match c p with
    | None => None
    | Some (r, p') => Some (r, set_ptmx (Some p') s)
    end
  end.

Definition coal_Flush (now : Z) : io Session (option bytes) := λ s,
  let '(c, data) := coalesce.Flush (s_coal s) now in Some (Ok data, set_coal c s).

Definition buf_Store (seq : Z) (data : bytes) : io Session () := λ s,
  match catchup.Store (s_buf s) seq data with
  | None => None
  | Some (Ok b) => Some (Ok (), set_buf b s)
  | Some (Err e) => Some (Err e, s)
  | Some (Panicked p) => Some (Panicked p, s)
  end.

(** ** Handlers *)

Definition closeConn : io Session () :=
  c <- get s_conn ;;
  match c with
  | Some i => call i (method Close) ;; modify (set_conn None)
  | None => io_ret ()
  end.

Definition flushCoalesced (now : Z) : io Session () :=
  data <- coal_Flush now ;;
  match data with
  | None => io_ret ()
  | Some data =>
    modify (λ s, set_sendSeq (uint64 (s_sendSeq s + 1)) s) ;;
    seq <- get s_sendSeq ;;
    buf_Store seq data ;;
    c <- get s_conn ;;
    match c with
    | None => io_ret ()
    | Some i =>
      r <- io_try (call i (WriteData (Ptr (Data seq data)))) ;;
      match r with Err _ => closeConn | _ => io_ret () end
    end
  end.

Definition handleStreamEvent (ev : streamEvent) : io Session () :=
  c <- get s_conn ;;
  if negb (bool_decide (Some (ev_conn ev) = c)) then io_ret () else
  match ev_msg ev with
  | Err _ => closeConn
  | Panicked p => io_lift (Panicked p)
  | Ok msg =>
    ptmx <- get s_ptmx ;;
    match msg, ptmx with
    | Resize rows cols, Some _ => io_try (on_ptmx (resizePTY rows cols)) ;; io_ret ()
    | Data seq payload, Some _ =>
      r <- io_try (on_ptmx (pty_Write payload)) ;;
      match r with
      | Err _ => io_ret ()
      | _ => modify (set_recvSeq seq)
      end
    | Data seq _, None => modify (set_recvSeq seq)
    | Shutdown, _ => io_lift (Err (ErrNew "client sent shutdown"))
    | _, _ => io_ret ()
    end
  end.

(** The branch [if s.ptmx == nil] of [handleNewConn]. *)
Definition spawn (term : string) : io Session () :=
  ptmx <- get s_ptmx ;;
  match ptmx with
  | Some _ => io_ret ()
  | None =>
    cfg <- get s_cfg ;;
    p <- io_lift (spawnPTY SHELL environ (SessionID cfg) term) ;;
    modify (λ s, set_channels (set_ptmx (Some p) s))
  end.

(** The replay loop: [false] when a write failed and the function returns. *)
Fixpoint replay (i : nat) (entries : list catchup.entry) : io Session bool :=
  match entries with
  | [] => io_ret true
  | e :: entries =>
    r <- io_try (call i (WriteData (Ptr (Data (catchup.seq e) (catchup.payload e))))) ;;
    match r with
    | Err _ => closeConn ;; io_ret false
    | _ => replay i entries
    end
  end.

(** [handleNewConn] from the replay on. *)
Definition catch_up (newConn : nat) : io Session () :=
  last <- call newConn (λ c, Some (Ok (LastClientSeq c), c)) ;;
  b <- get s_buf ;;
  entries <- io_lift (catchup.ReplaySince b last) ;;
  replayed <- replay newConn entries ;;
  if negb replayed then io_ret () else
  io_try (on_ptmx bouncePTYSize) ;;
  call newConn (method StartDemux) ;;
  modify (λ s, set_readers (s_readers s ++ [(newConn, "control"); (newConn, "data")]) s).

(** [handleNewConn] from the read of the terminal name on. *)
Definition await_terminal (newConn : nat) : io Session () :=
  call newConn (method (SetControlReadDeadline true)) ;;
  msg <- io_try (call newConn ReadControl) ;;
  call newConn (method (SetControlReadDeadline false)) ;;
  match msg with
  | Ok (TerminalInfo term) =>
    spawned <- io_try (spawn term) ;;
    match spawned with
    | Err e => closeConn ;; io_lift (Err (ErrWrap "spawn PTY: %w" e))
    | _ => catch_up newConn
    end
  | _ => closeConn
  end.

(** [handleNewConn] from the write of the sequence header on. *)
Definition handshake (newConn : nat) : io Session () :=
  recvSeq <- get s_recvSeq ;;
  r <- io_try (call newConn (WriteControl (Ptr (SequenceHeader recvSeq)))) ;;
  match r with
  | Err _ => closeConn
  | _ => await_terminal newConn
  end.

Definition handleNewConn (newConn : nat) (now : Z) : io Session () :=
  closeConn ;;
  flushCoalesced now ;;
  modify (set_conn (Some newConn)) ;;
  handshake newConn.

(** The 50 ms sleep has no effect on the state. *)
Definition gracefulShutdown (now : Z) : io Session () :=
  flushCoalesced now ;;
  c <- get s_conn ;;
  match c with
  | Some i => io_try (call i (WriteControl (Ptr Shutdown))) ;; io_ret ()
  | None => io_ret ()
  end.

(** ** The event loop *)

(** The locals of [Run]: whether the two channel variables are non-nil, and
    [lastRecv]. *)
Record locals : Type := Locals { l_ptyDataCh : bool; l_shellDone : bool; l_lastRecv : Z }.

(** The select case taken, with what was received. *)
Inductive event : Type :=
| EvPty (data : option bytes)
| EvCoalTimer
| EvStream (ev : streamEvent)
| EvAccept (conn : res nat) (ctx_err : option error)
| EvHeartbeat
| EvShellDone (shellErr : option error)
| EvCtxDone (ctx_err : error).

(** Whether the case can be taken at time [now]. *)
Definition enabled (l : locals) (s : Session) (now : Z) (e : event) : Prop :=
  match e with
  | EvPty data => l_ptyDataCh l = true ∧ match data with Some d => 0 < len d <= ptyReadBufSize | None => True end
  | EvCoalTimer => is_Some (coalesce.recv_Timer (s_coal s) now)
  | EvStream ev => match ev_msg ev with Ok m => msg_wf m | Err _ => True | Panicked _ => False end
  | EvAccept _ _ => True
  | EvHeartbeat => True
  | EvShellDone _ => l_shellDone l = true
  | EvCtxDone _ => True
  end.

(** One iteration: [inl] continues with the locals, [inr] returns. *)
Definition handle (l : locals) (now : Z) (e : event) : io Session (locals + option error) :=
  match e with
  | EvPty None =>
    flushCoalesced now ;; io_ret (inl (Locals false (l_shellDone l) (l_lastRecv l)))
  | EvPty (Some data) =>
    full <- (λ s, let '(c, full) := coalesce.Add (s_coal s) now data in Some (Ok full, set_coal c s)) ;;
    (if (full : bool) then flushCoalesced now else io_ret ()) ;; io_ret (inl l)
  | EvCoalTimer =>
    (λ s, match coalesce.recv_Timer (s_coal s) now with
          | Some c => Some (Ok (), set_coal c s) | None => None end) ;;
    flushCoalesced now ;; io_ret (inl l)
  | EvStream ev =>
    c <- get s_conn ;;
    let l := if bool_decide (Some (ev_conn ev) = c) && is_ok (ev_msg ev)
             then Locals (l_ptyDataCh l) (l_shellDone l) now else l in
    r <- io_try (handleStreamEvent ev) ;;
    match r with Err err => io_ret (inr (Some err)) | _ => io_ret (inl l) end
  | EvAccept (Err _) ctx_err =>
    match ctx_err with Some err => io_ret (inr (Some err)) | None => io_ret (inl l) end
  | EvAccept (Panicked p) _ => io_lift (Panicked p)
  | EvAccept (Ok conn) _ =>
    r <- io_try (handleNewConn conn now) ;;
    match r with
    | Err err => io_ret (inr (Some (ErrWrap "handle new conn: %w" err)))
    | _ =>
      made <- get s_ptyDataCh ;;
      io_ret (inl (if made && negb (l_ptyDataCh l)
                   then Locals true true now
                   else Locals (l_ptyDataCh l) (l_shellDone l) now))
    end
  | EvHeartbeat =>
    c <- get s_conn ;;
    match c with
    | None => io_ret (inl l)
    | Some i =>
      r <- io_try (call i (WriteControl (Ptr (Heartbeat (int64 (now / Millisecond)))))) ;;
      match r with
      | Err _ => closeConn ;; io_ret (inl l)
      | _ => (if recvTimeout <? now - l_lastRecv l then closeConn else io_ret ()) ;; io_ret (inl l)
      end
    end
  | EvShellDone shellErr =>
    gracefulShutdown now ;;
    io_ret (inr (match shellErr with Some err => Some (ErrWrap "shell exited: %w" err) | None => None end))
  | EvCtxDone ctx_err => gracefulShutdown now ;; io_ret (inr (Some ctx_err))
  end.

(** ** Goroutines and teardown *)

(** One iteration of [readStream]: the event it puts in [streamCh]; the
    goroutine exits after an error event. *)
Definition readStream_iter (i : nat) (stream : string) : io Session streamEvent :=
  r <- io_try (call i (if bool_decide (stream = "control") then ReadControl else ReadData)) ;;
  io_ret (StreamEvent i stream r).

(** One iteration of [readPTY], from what [ptmx.Read] returned: the chunk
    sent to [ptyDataCh] and whether the goroutine exits, closing it. *)
Definition readPTY_iter (data : bytes) (err : option error) : option bytes * bool :=
  (if 0 <? len data then Some data else None, match err with Some _ => true | None => false end).

(** [cleanupShell].  Its select: [closed] says that [shellDone] is closed when
    it is reached, [within] that it is before [shellExitGrace] is over; a nil
    channel is never ready.  The result says whether the shell is killed. *)
Definition cleanupShell (closed within : bool) : io Session bool :=
  ptmx <- get s_ptmx ;;
  match ptmx with
  | None => io_ret false
  | Some p =>
    modify (set_ptmx (Some (pty_Close p))) ;;
    shellDone <- get s_shellDone ;;
    io_ret (negb (shellDone && (closed || within)))
  end.

(** The [recover] of [Run]. *)
Definition recovered (r : res (locals + option error)) : res (locals + option error) :=
  match r with Panicked _ => Ok (inr (Some (ErrNew "panic: %v"))) | _ => r end.

(** ** What a connection has been sent

    [hist]: the batches flushed so far, all of them.  A connection that was
    set up when [k] batches existed is sent the run of them that starts at
    [start]: just above what the client has, unless that has been evicted. *)

(** [hon]: an assumption on the clients, that none reports a sequence number
    never sent. *)
Definition sent_run (hon : Prop) (hist : list bytes) (c : C) (k : nat) (n : Z) (ds : list message) : Prop :=
  (∃ cs, sent c cs ds) ∧ (k ≤ List.length hist)%nat ∧ is_uint 64 (LastClientSeq c) ∧
  (hon → LastClientSeq c <= Z.of_nat k) ∧
  ds `prefix_of` run_from (start n (take k hist) (LastClientSeq c)) hist.

Definition run_of (n : Z) (hist : list bytes) (c : C) (k : nat) : list message :=
  run_from (start n (take k hist) (LastClientSeq c)) hist.

Record base (hon : Prop) (n : Z) (out : bytes) (hist : list bytes) (s : Session) : Prop := {
  b_out : List.concat hist ++ coalesce.buf (s_coal s) = out;
  b_room : len (coalesce.buf (s_coal s)) < coalesce.Threshold + ptyReadBufSize;
  b_sizes : Forall (λ p, 0 < len p < coalesce.Threshold + ptyReadBufSize) hist;
  b_sender : sender_ok n (s_sendSeq s) (s_buf s) hist;
  b_recv : is_uint 64 (s_recvSeq s);
  b_ptr : ∀ i, s_conn s = Some i → is_Some (s_conns s !! i);
  b_conns : ∀ i c, s_conns s !! i = Some c → ∃ k ds, sent_run hon hist c k n ds;
}.

(** The current connection has been sent its whole run. *)
Definition current (hon : Prop) (n : Z) (hist : list bytes) (s : Session) : Prop :=
  ∀ i, s_conn s = Some i → ∃ c k, s_conns s !! i = Some c ∧ sent_run hon hist c k n (run_of n hist c k).

(** What closing a connection leaves alone. *)
Definition same (s s' : Session) : Prop :=
  s_cfg s' = s_cfg s ∧ s_ptmx s' = s_ptmx s ∧ s_buf s' = s_buf s ∧ s_coal s' = s_coal s ∧
  s_sendSeq s' = s_sendSeq s ∧ s_recvSeq s' = s_recvSeq s ∧ s_ptyDataCh s' = s_ptyDataCh s ∧
  s_shellDone s' = s_shellDone s ∧ s_readers s' = s_readers s.

Variables (hon : Prop) (n : Z).

Lemma start_take_range hist k last :
  (k ≤ List.length hist)%nat → 0 <= start n (take k hist) last <= len hist.
Proof.
  intros Hk. pose proof (start_range n (take k hist) last) as Hr. rewrite len_take in Hr. lia.
Qed.

Lemma same_refl s : same s s.
Proof. by repeat split. Qed.

Lemma same_trans s1 s2 s3 : same s1 s2 → same s2 s3 → same s1 s3.
Proof. unfold same. intros (?&?&?&?&?&?&?&?&?) (?&?&?&?&?&?&?&?&?). split_and!; congruence. Qed.

Lemma sent_run_grow hist c k ds p :
  sent_run hon hist c k n ds → sent_run hon (hist ++ [p]) c k n ds.
Proof.
  intros (Hs & Hk & Hu & Hh & Hp). split_and!; try done.
  - rewrite length_app. lia.
  - rewrite take_app_le by done. rewrite run_from_snoc by (by apply start_take_range).
    by apply prefix_app_r.
Qed.

Lemma run_of_grow hist c k p :
  (k ≤ List.length hist)%nat → run_of n (hist ++ [p]) c k = run_of n hist c k ++ [Data (len hist + 1) p].
Proof.
  intros Hk. unfold run_of. rewrite take_app_le by done. by rewrite run_from_snoc by (by apply start_take_range).
Qed.

(** Replacing one connection object. *)
Lemma base_update out hist s i c k ds :
  base hon n out hist s → sent_run hon hist c k n ds →
  base hon n out hist (set_conns (<[i := c]> (s_conns s)) s).
Proof.
  intros [] Hc. split; simpl; try done.
  - intros j Hj%b_ptr0. apply lookup_insert_is_Some'. by right.
  - intros j cj [[<- <-]|[_ Hj]]%lookup_insert_Some; [by exists k, ds|by eapply b_conns0].
Qed.

(** A call on a connection, inverted. *)
Lemma call_inv {A} i (c : io C A) s r s' :
  call i c s = Some (r, s') → is_Some (s_conns s !! i) →
  ∃ x x', s_conns s !! i = Some x ∧ c x = Some (r, x') ∧ s' = set_conns (<[i := x']> (s_conns s)) s.
Proof.
  unfold call. intros Hc [x Hx]. rewrite Hx in Hc. destruct (c x) as [[r' x']|] eqn:E; [|done].
  injection Hc as <- <-. by exists x, x'.
Qed.

(** Only the current connection is touched. *)
Definition others (s s' : Session) : Prop :=
  ∀ j, s_conn s ≠ Some j → s_conns s' !! j = s_conns s !! j.

Lemma closeConn_spec out hist s r s' :
  base hon n out hist s → closeConn s = Some (r, s') →
  r = Ok () ∧ base hon n out hist s' ∧ s_conn s' = None ∧ same s s' ∧ others s s'.
Proof.
  intros Hb. unfold closeConn, get, io_bind, modify, io_ret.
  destruct (s_conn s) as [i|] eqn:Ei; [|intros [= <- <-]; unfold others; split_and!; auto using same_refl].
  destruct (call i (method Close) s) as [[r1 s1]|] eqn:Ec; [|done].
  apply call_inv in Ec as (x & x' & Hx & [= <- <-] & ->); [|by eapply b_ptr].
  intros [= <- <-]. split_and!; try done.
  2:{ intros j Hj. simpl. apply lookup_insert_ne. congruence. }
  destruct (b_conns _ _ _ _ _ Hb i x Hx) as (k & ds & (cs & Hs) & Hk & Hu & Hh & Hp).
  pose proof (base_update out hist s i (Close x) k ds Hb) as [].
  { unfold sent_run. rewrite Close_seq. split_and!; try done. exists cs. by apply Close_sent. }
  by split.
Qed.

(** A [Data] write on connection [i] whose stream is [ds]: the connection
    carries the message too, or the stream is unchanged. *)
Lemma write_data_spec i c cs ds sq p s r s' :
  s_conns s !! i = Some c → sent c cs ds → is_uint 64 sq →
  call i (WriteData (Ptr (Data sq p))) s = Some (r, s') →
  ∃ c', s' = set_conns (<[i := c']> (s_conns s)) s ∧ LastClientSeq c' = LastClientSeq c ∧
    ((∃ e, r = Err e ∧ sent c' cs ds) ∨ (r = Ok () ∧ sent c' cs (ds ++ [Data sq p]))).
Proof.
  intros Hi Hs Hu Hc. apply call_inv in Hc as (x & c' & Hx & Hw & ->); [|by eexists].
  rewrite Hi in Hx. injection Hx as <-. exists c'. split; [done|].
  split; [by eapply WriteData_seq|]. by eapply WriteData_sent.
Qed.

(** The same for control messages. *)
Lemma write_control_spec i c cs ds m s r s' :
  s_conns s !! i = Some c → sent c cs ds → msg_wf m → is_data m = false →
  call i (WriteControl (Ptr m)) s = Some (r, s') →
  ∃ c', s' = set_conns (<[i := c']> (s_conns s)) s ∧ LastClientSeq c' = LastClientSeq c ∧
    panics r = false ∧ ∃ cs', sent c' cs' ds.
Proof.
  intros Hi Hs Hwf Hd Hc. apply call_inv in Hc as (x & c' & Hx & Hw & ->); [|by eexists].
  rewrite Hi in Hx. injection Hx as <-. exists c'. split; [done|].
  split; [by eapply WriteControl_seq|].
  destruct (WriteControl_sent _ _ _ _ _ _ Hs Hwf Hd Hw) as [(e & -> & ?)|[-> ?]]; eauto.
Qed.

(** The state of [flushCoalesced] after the batch is stored. *)
Lemma stored_base out hist s c' data b' :
  base hon n out hist s → len hist + 1 < 2 ^ 64 → coalesce.buf c' = [] →
  coalesce.buf (s_coal s) = data → 0 < len data →
  sender_ok n (len hist + 1) b' (hist ++ [data]) →
  base hon n out (hist ++ [data]) (set_buf b' (set_sendSeq (len hist + 1) (set_coal c' s))).
Proof.
  intros [] Hl Hc Hd Hp Hs. split; simpl; try done.
  - rewrite Hc, concat_app, !app_nil_r. simpl. rewrite app_nil_r. by rewrite <-Hd.
  - rewrite Hc. done.
  - apply Forall_app_2; [done|]. apply Forall_singleton. rewrite Hd in b_room0. lia.
  - intros i c Hi. destruct (b_conns0 i c Hi) as (k & ds & Hr). exists k, ds. by apply sent_run_grow.
Qed.

(** What a flush may change besides the connection. *)
Definition flushed (hist hist' : list bytes) (s s' : Session) : Prop :=
  (hist' = hist ∨ ∃ p, hist' = hist ++ [p]) ∧ coalesce.buf (s_coal s') = [] ∧
  (s_conn s' = s_conn s ∨ s_conn s' = None) ∧ s_ptmx s' = s_ptmx s ∧ s_cfg s' = s_cfg s ∧
  s_recvSeq s' = s_recvSeq s ∧ s_ptyDataCh s' = s_ptyDataCh s ∧ s_shellDone s' = s_shellDone s ∧
  others s s'.

Lemma flushCoalesced_spec out hist now s r s' :
  base hon n out hist s → current hon n hist s → len hist + 1 < 2 ^ 64 →
  flushCoalesced now s = Some (r, s') →
  r = Ok () ∧ ∃ hist', base hon n out hist' s' ∧ current hon n hist' s' ∧ flushed hist hist' s s'.
Proof.
  intros Hb Hcur Hl. unfold flushCoalesced, io_bind at 1, coal_Flush.
  destruct (coalesce.Flush (s_coal s) now) as [c' data] eqn:Ef.
  apply coalesce.Flush_out in Ef as [Hc' [[-> Hnil]|[-> Hp]]].
  { intros [= <- <-]. split; [done|]. exists hist. split; [|split; [done|unfold flushed, others; simpl; split_and!; auto]].
    destruct Hb. split; try done; simpl; rewrite Hc'; [by rewrite <-b_out0, Hnil|done]. }
  set (data := coalesce.buf (s_coal s)) in *.
  pose proof (b_sender _ _ _ _ _ Hb) as Hso.
  destruct (sender_store n _ _ hist data Hso Hl) as (Hu & b' & Hst & Hso').
  rewrite Hu in Hst, Hso'.
  set (s1 := set_buf b' (set_sendSeq (len hist + 1) (set_coal c' s))).
  assert (base hon n out (hist ++ [data]) s1) as Hb1 by (by apply stored_base).
  assert (buf_Store (len hist + 1) data (set_sendSeq (len hist + 1) (set_coal c' s)) = Some (Ok (), s1)) as Hbs.
  { unfold buf_Store. simpl. by rewrite Hst. }
  unfold io_bind, modify, get. simpl. rewrite Hu, Hbs. simpl.
  destruct (s_conn s) as [i|] eqn:Ei.
  2:{ intros [= <- <-]. split; [done|]. exists (hist ++ [data]). split; [done|].
      split; [intros j Hj; simpl in Hj; congruence|]. unfold flushed, others. simpl. rewrite Ei. split_and!; eauto. }
  destruct (Hcur i Ei) as (c & k & Hi & (cs & Hs) & Hk & Hlu & Hh & _).
  unfold io_try. destruct (call i _ s1) as [[r1 s2]|] eqn:Ecall; [|done].
  apply (write_data_spec i c cs (run_of n hist c k)) in Ecall as (x & -> & Hseq & Hr); [|done|done|].
  2:{ pose proof (len_nonneg hist). unfold is_uint. lia. }
  assert (∀ ds, (∃ cs, sent x cs ds) → ds `prefix_of` run_of n (hist ++ [data]) x k →
    sent_run hon (hist ++ [data]) x k n ds) as Hrun.
  { intros ds Hsx Hpre. split_and!; [done|rewrite length_app; lia|by rewrite Hseq|by rewrite Hseq|done]. }
  assert (run_of n (hist ++ [data]) x k = run_of n hist c k ++ [Data (len hist + 1) data]) as Hrx.
  { unfold run_of. rewrite Hseq. by apply run_of_grow. }
  destruct Hr as [(e & -> & Hsx)|[-> Hsx]].
  - intros Hclose. eapply closeConn_spec in Hclose as (-> & Hb2 & Hn & Hsame & Hoth).
    2:{ eapply (base_update _ _ s1 i x k); [done|]. apply Hrun; [by exists cs|]. rewrite Hrx. by apply prefix_app_r. }
    split; [done|]. exists (hist ++ [data]). split; [done|]. split; [intros j Hj; congruence|].
    destruct Hsame as (? & Hpx & ? & Hco & ? & Hrs & Hpd & Hsd & ?). unfold flushed.
    rewrite Hco, Hrs, Hpd, Hsd, Hpx. simpl. split_and!; eauto.
    intros j Hj. rewrite Hoth by (simpl; congruence). simpl. apply lookup_insert_ne. congruence.
  - intros [= <- <-]. split; [done|]. exists (hist ++ [data]). split; [|split].
    + apply (base_update _ _ s1 i x k (run_of n (hist ++ [data]) x k)); [done|].
      apply Hrun; [|done]. exists cs. by rewrite Hrx.
    + intros j Hj. simpl in Hj. assert (j = i) as -> by congruence. exists x, k.
      split; [simpl; by rewrite lookup_insert_eq|]. apply Hrun; [|done]. exists cs. by rewrite Hrx.
    + unfold flushed. simpl. split_and!; eauto.
      intros j Hj. simpl. apply lookup_insert_ne. congruence.
Qed.

(** ** Setting up a connection *)

(** The messages the new connection must carry. *)
Definition catchup_run (hist : list bytes) (last : Z) : list message := run_from (start n hist last) hist.

(** During the handshake: connection [i], whose client reported [last], is
    current and has been sent [ds]. *)
Definition handshaking (out : bytes) (hist : list bytes) (i : nat) (last : Z) (ds : list message)
    (s : Session) : Prop :=
  base hon n out hist s ∧ s_conn s = Some i ∧ coalesce.buf (s_coal s) = [] ∧
  is_uint 64 last ∧ (hon → last <= len hist) ∧ ds `prefix_of` catchup_run hist last ∧
  ∃ c cs, s_conns s !! i = Some c ∧ sent c cs ds ∧ LastClientSeq c = last.

Lemma sent_run_now hist c last ds cs :
  sent c cs ds → LastClientSeq c = last → is_uint 64 last → (hon → last <= len hist) →
  ds `prefix_of` catchup_run hist last → sent_run hon hist c (List.length hist) n ds.
Proof.
  intros Hs <- Hu Hh Hp. split_and!; [by exists cs|done|done|done|]. by rewrite firstn_all.
Qed.

Lemma handshaking_update out hist i last ds ds' s x cs :
  handshaking out hist i last ds s → sent x cs ds' → LastClientSeq x = last →
  ds' `prefix_of` catchup_run hist last →
  handshaking out hist i last ds' (set_conns (<[i := x]> (s_conns s)) s).
Proof.
  intros (Hb & Hi & Hco & Hu & Hh & Hp & _) Hx Hl Hp'. split; [|split_and!; try done].
  - by eapply base_update, sent_run_now.
  - exists x, cs. simpl. by rewrite lookup_insert_eq.
Qed.

(** A call that writes no data. *)
Lemma handshaking_call {A} out hist i last ds (op : io C A) s r s' :
  handshaking out hist i last ds s →
  (∀ c cs r c', sent c cs ds → op c = Some (r, c') → LastClientSeq c' = LastClientSeq c ∧ ∃ cs', sent c' cs' ds) →
  call i op s = Some (r, s') →
  handshaking out hist i last ds s' ∧ same s s' ∧ ∃ c c', LastClientSeq c = last ∧ op c = Some (r, c').
Proof.
  intros Hhs Hop Hc. pose proof Hhs as (Hb & Hi & Hco & Hu & Hh & Hp & c & cs & Hci & Hs & Hl).
  apply call_inv in Hc as (x & x' & Hx & Hr & ->); [|by eexists].
  rewrite Hci in Hx. injection Hx as <-.
  destruct (Hop _ _ _ _ Hs Hr) as (Hl' & cs' & Hs').
  split; [|split; [by repeat split|by exists c, x']].
  eapply handshaking_update; [done|done|congruence|done].
Qed.

(** The state of the replay: [same] and only [i] touched. *)
Lemma replay_spec out hist i last es ds s r s' :
  handshaking out hist i last ds s →
  ds ++ ((λ e, Data (catchup.seq e) (catchup.payload e)) <$> es) = catchup_run hist last →
  replay i es s = Some (r, s') →
  same s s' ∧
  ((r = Ok true ∧ handshaking out hist i last (catchup_run hist last) s') ∨
   (r = Ok false ∧ base hon n out hist s' ∧ s_conn s' = None)).
Proof.
  revert ds s. induction es as [|e es IH]; intros ds s Hhs Hds.
  - rewrite app_nil_r in Hds. intros [= <- <-]. rewrite <-Hds. split; [apply same_refl|by left].
  - cbn [replay]. unfold io_bind at 1, io_try. cbn [fmap list_fmap] in Hds.
    pose proof Hhs as (Hb & Hi & Hco & Hu & Hh & Hp & c & cs & Hci & Hs & Hl).
    assert (msg_wf (Data (catchup.seq e) (catchup.payload e))) as Hwf.
    { pose proof (data_run_wf (start n hist last) (drop (Z.to_nat (start n hist last)) hist)) as Hw.
      fold (run_from (start n hist last) hist) in Hw. change (run_from _ hist) with (catchup_run hist last) in Hw.
      rewrite <-Hds in Hw. pose proof (start_range n hist last).
      assert (len hist < 2 ^ 64) by apply (b_sender _ _ _ _ _ Hb).
      rewrite len_drop in Hw. ospecialize (Hw _ _); [lia|lia|].
      by apply Forall_app in Hw as [_ [Hw _]%Forall_cons]. }
    destruct (call i _ s) as [[r1 s1]|] eqn:Ec; [|done].
    apply (write_data_spec i c cs ds) in Ec as (x & -> & Hseq & Hr); [|done|done|done].
    destruct Hr as [(err & -> & Hsx)|[-> Hsx]].
    + unfold io_bind, io_ret.
      assert (handshaking out hist i last ds (set_conns (<[i := x]> (s_conns s)) s)) as Hhs1.
      { eapply handshaking_update; [done|done|congruence|done]. }
      destruct (closeConn _) as [[r2 s2]|] eqn:Ecl; [|done].
      eapply closeConn_spec in Ecl as (-> & Hb2 & Hn2 & Hsame2 & _); [|apply Hhs1].
      intros [= <- <-]. split; [|by right]. eapply same_trans; [|done]. by repeat split.
    + intros Hrest. apply (IH (ds ++ [Data (catchup.seq e) (catchup.payload e)])) in Hrest as [Hsame Hr].
      * split; [|done]. eapply same_trans; [|done]. by repeat split.
      * eapply handshaking_update; [done|done|congruence|].
        exists ((λ e, Data (catchup.seq e) (catchup.payload e)) <$> es). by rewrite <-Hds, <-app_assoc.
      * by rewrite <-app_assoc.
Qed.

Lemma handshaking_current out hist i last s :
  handshaking out hist i last (catchup_run hist last) s → current hon n hist s.
Proof.
  intros (Hb & Hi & Hco & Hu & Hh & Hp & c & cs & Hci & Hs & Hl) j Hj.
  assert (j = i) as -> by congruence. exists c, (List.length hist). split; [done|].
  assert (run_of n hist c (List.length hist) = catchup_run hist last) as ->.
  { unfold run_of, catchup_run. by rewrite firstn_all, Hl. }
  by eapply sent_run_now.
Qed.

Lemma bind_get {A B} (f : Session → A) (k : A → io Session B) s : io_bind (get f) k s = k (f s) s.
Proof. done. Qed.

Lemma bind_modify {B} f (k : () → io Session B) s : io_bind (modify f) k s = k () (f s).
Proof. done. Qed.

Lemma method_frame (f : C → C) :
  (∀ c cs ds, sent c cs ds → sent (f c) cs ds) → (∀ c, LastClientSeq (f c) = LastClientSeq c) →
  ∀ ds c cs r c', sent c cs ds → method f c = Some (r, c') →
  LastClientSeq c' = LastClientSeq c ∧ ∃ cs', sent c' cs' ds.
Proof. intros Hs Hl ds c cs r c' Hc [= <- <-]. eauto. Qed.

(** Changes that do not concern the connections. *)
Lemma handshaking_ptmx out hist i last ds p s :
  handshaking out hist i last ds s → handshaking out hist i last ds (set_ptmx p s).
Proof. intros ([] & H'). split; [by split|done]. Qed.

Lemma handshaking_channels out hist i last ds s :
  handshaking out hist i last ds s → handshaking out hist i last ds (set_channels s).
Proof. intros ([] & H'). split; [by split|done]. Qed.

Lemma on_ptmx_inv {A} (c : io P A) s r s' :
  on_ptmx c s = Some (r, s') → panics r = false → s_ptmx s ≠ None ∧ ∃ p, s' = set_ptmx (Some p) s.
Proof.
  unfold on_ptmx. destruct (s_ptmx s); [|by intros [= <- <-]].
  destruct (c p) as [[r1 p']|]; [|done]. intros [= <- <-]. eauto.
Qed.

Lemma spawn_spec out hist i last ds term s r s' :
  handshaking out hist i last ds s → spawn term s = Some (r, s') →
  handshaking out hist i last ds s' ∧ (r = Ok () → s_ptmx s' ≠ None).
Proof.
  intros Hhs. unfold spawn. rewrite bind_get. destruct (s_ptmx s) as [p|] eqn:Ep.
  { intros [= <- <-]. by rewrite Ep. }
  rewrite bind_get. intros (r1 & s1 & [= <- <-] & Hk)%io_bind_split.
  destruct (spawnPTY _ _ _ _) as [p| |].
  - injection Hk as <- <-. split; [|done]. by apply handshaking_channels, handshaking_ptmx.
  - by destruct Hk as [-> ->].
  - by destruct Hk as [-> ->].
Qed.

(** After a handler that set up connection [i], or gave up. *)
Definition connected (out : bytes) (hist : list bytes) (i : nat) (last : Z) (s : Session) : Prop :=
  base hon n out hist s ∧ current hon n hist s ∧ coalesce.buf (s_coal s) = [] ∧
  (s_conn s = None ∨
   s_conn s = Some i ∧ s_ptmx s ≠ None ∧
   ∃ c cs, s_conns s !! i = Some c ∧ sent c cs (catchup_run hist last) ∧ LastClientSeq c = last).

Lemma close_connected out hist i last s r s' :
  base hon n out hist s → coalesce.buf (s_coal s) = [] → closeConn s = Some (r, s') →
  r = Ok () ∧ connected out hist i last s'.
Proof.
  intros Hb Hco Hc. eapply closeConn_spec in Hc as (-> & Hb' & Hn & Hs & _); [|done].
  split; [done|]. split_and!; [done|intros j Hj; congruence| |by left].
  destruct Hs as (_ & _ & _ & -> & _). done.
Qed.

Lemma catch_up_spec out hist i last s r s' :
  handshaking out hist i last [] s → s_ptmx s ≠ None → panics r = false →
  catch_up i s = Some (r, s') → connected out hist i last s'.
Proof.
  intros Hhs Hpt Hnp. unfold catch_up. intros (r6 & s6 & Hc & Hk)%io_bind_split.
  eapply handshaking_call in Hc as (Hhs6 & Hsame6 & c6 & c6' & Hl6 & Hm); [|done|].
  2:{ intros c cs r0 c' Hs [= <- <-]. eauto. }
  injection Hm as <- <-. rewrite Hl6, bind_get in Hk.
  destruct (sender_replay n _ _ hist last (b_sender _ _ _ _ _ (proj1 Hhs6))) as (es & He & Hrun).
  { pose proof Hhs as (_ & _ & _ & Hu & _). apply Hu. }
  rewrite He in Hk. apply io_bind_split in Hk as (r7 & s7 & [= <- <-] & Hk).
  apply io_bind_split in Hk as (r8 & s8 & Hc & Hk).
  eapply replay_spec in Hc as (Hsame8 & Hr8); [|done|rewrite Hrun; apply run_from_start].
  assert (s_ptmx s8 ≠ None) as Hpt8.
  { destruct Hsame8 as (_ & -> & _), Hsame6 as (_ & -> & _). done. }
  destruct Hr8 as [[-> Hhs8]|(-> & Hb8 & Hn8)].
  2:{ injection Hk as <- <-. split_and!; [done|intros j Hj; congruence| |by left].
      destruct Hsame8 as (_ & _ & _ & -> & _). apply Hhs6. }
  cbn [negb] in Hk. apply io_try_split in Hk as (r9 & s9 & Hc & Hp9 & Hk); [|done].
  apply on_ptmx_inv in Hc as (_ & p' & ->); [|done].
  apply io_bind_split in Hk as (r10 & s10 & Hc & Hk).
  eapply handshaking_call in Hc as (Hhs10 & Hsame10 & c10 & c10' & _ & Hm);
    [|by apply handshaking_ptmx|].
  2:{ apply method_frame; [apply StartDemux_sent|apply StartDemux_seq]. }
  injection Hm as <- <-. injection Hk as <- <-.
  pose proof Hhs10 as (Hb10 & Hi10 & Hco10 & _ & _ & _ & Hc10).
  split_and!; [destruct Hb10; by split|by eapply handshaking_current in Hhs10|done|].
  right. split; [done|]. split; [simpl; destruct Hsame10 as (_ & -> & _); done|done].
Qed.

Lemma await_spec out hist i last s r s' :
  handshaking out hist i last [] s → panics r = false →
  await_terminal i s = Some (r, s') → connected out hist i last s'.
Proof.
  intros Hhs1 Hnp. unfold await_terminal. intros (r2 & s2 & Hc & Hk)%io_bind_split.
  eapply handshaking_call in Hc as (Hhs2 & _ & c2 & c2' & _ & Hm); [|done|].
  2:{ apply method_frame; [apply SetDeadline_sent|apply SetDeadline_seq]. }
  injection Hm as <- <-.
  apply io_try_split in Hk as (msg & s3 & Hc & Hp3 & Hk); [|done].
  eapply handshaking_call in Hc as (Hhs3 & _ & _); [|done|].
  2:{ intros c cs r0 c' Hs Hop. split; [by eapply ReadControl_seq|]. exists cs. by eapply ReadControl_sent. }
  apply io_bind_split in Hk as (r4 & s4 & Hc & Hk).
  eapply handshaking_call in Hc as (Hhs4 & _ & c4 & c4' & _ & Hm); [|done|].
  2:{ apply method_frame; [apply SetDeadline_sent|apply SetDeadline_seq]. }
  injection Hm as <- <-.
  assert (closeConn s4 = Some (r, s') → connected out hist i last s') as Hclose.
  { intros Hcl. by eapply close_connected in Hcl as [_ ?]; [|apply Hhs4|apply Hhs4]. }
  destruct msg as [[| | | | | |term|]|e|p]; try by apply Hclose.
  apply io_try_split in Hk as (r5 & s5 & Hc & Hp5 & Hk); [|done].
  eapply spawn_spec in Hc as [Hhs5 Hpt]; [|done].
  destruct r5 as [[]|e|p]; [| |done].
  - exact (catch_up_spec _ _ _ _ _ _ _ Hhs5 (Hpt eq_refl) Hnp Hk).
  - apply io_bind_split in Hk as (r6 & s6 & Hcl & Hk).
    eapply close_connected in Hcl as [-> ?]; [|apply Hhs5|apply Hhs5]. by injection Hk as <- <-.
Qed.

Lemma handshake_spec out hist i last s r s' :
  handshaking out hist i last [] s → panics r = false →
  handshake i s = Some (r, s') → connected out hist i last s'.
Proof.
  intros Hhs Hnp. unfold handshake. rewrite bind_get.
  assert (is_uint 64 (s_recvSeq s)) as Hrecv by apply Hhs.
  intros (r1 & s1 & Hw & Hp1 & Hk)%io_try_split; [|done].
  eapply handshaking_call in Hw as (Hhs1 & _ & _); [|done|].
  2:{ intros c cs r0 c' Hs Hc. split; [by eapply WriteControl_seq|].
      destruct (WriteControl_sent (SequenceHeader (s_recvSeq s)) _ _ _ _ _ Hs Hrecv eq_refl Hc) as [(e & -> & ?)|[-> ?]]; eauto. }
  destruct r1 as [[]|e|p]; [| |done].
  - exact (await_spec _ _ _ _ _ _ _ Hhs1 Hnp Hk).
  - by eapply close_connected in Hk as [_ ?]; [|apply Hhs1|apply Hhs1].
Qed.

(** ** Connections only grow

    Whatever a handler does, every connection stays in the heap, with the
    sequence number of its handshake, and is only sent more. *)

Definition extends (c c' : C) : Prop :=
  LastClientSeq c' = LastClientSeq c ∧
  ∀ cs ds, sent c cs ds → ∃ cs' ds', sent c' (cs ++ cs') (ds ++ ds').

Definition grow (s s' : Session) : Prop :=
  ∀ i c, s_conns s !! i = Some c → ∃ c', s_conns s' !! i = Some c' ∧ extends c c'.

Lemma extends_sent c c' :
  LastClientSeq c' = LastClientSeq c → (∀ cs ds, sent c cs ds → sent c' cs ds) → extends c c'.
Proof. intros Hl Hs. split; [done|]. intros cs ds Hc. exists [], []. rewrite !app_nil_r. by apply Hs. Qed.

Lemma extends_trans c1 c2 c3 : extends c1 c2 → extends c2 c3 → extends c1 c3.
Proof.
  intros [Hl1 He1] [Hl2 He2]. split; [congruence|]. intros cs ds Hc.
  destruct (He1 _ _ Hc) as (cs1 & ds1 & Hc1). destruct (He2 _ _ Hc1) as (cs2 & ds2 & Hc2).
  exists (cs1 ++ cs2), (ds1 ++ ds2). by rewrite !app_assoc.
Qed.

Lemma extends_WriteControl m c r c' :
  msg_wf m → is_data m = false → WriteControl (Ptr m) c = Some (r, c') → extends c c'.
Proof.
  intros Hm Hd Hw. split; [by eapply WriteControl_seq|]. intros cs ds Hc.
  destruct (WriteControl_sent _ _ _ _ _ _ Hc Hm Hd Hw) as [(e & _ & Hs)|[_ Hs]].
  - exists [], []. by rewrite !app_nil_r.
  - exists [m], []. by rewrite app_nil_r.
Qed.

Lemma extends_WriteData m c r c' :
  msg_wf m → is_data m = true → WriteData (Ptr m) c = Some (r, c') → extends c c'.
Proof.
  intros Hm Hd Hw. split; [by eapply WriteData_seq|]. intros cs ds Hc.
  destruct (WriteData_sent _ _ _ _ _ _ Hc Hm Hd Hw) as [(e & _ & Hs)|[_ Hs]].
  - exists [], []. by rewrite !app_nil_r.
  - exists [], [m]. by rewrite app_nil_r.
Qed.

Lemma extends_ReadControl c r c' : ReadControl c = Some (r, c') → extends c c'.
Proof. intros Hr. apply extends_sent; [by eapply ReadControl_seq|]. intros cs ds. by eapply ReadControl_sent. Qed.

Lemma extends_method (f : C → C) c r c' :
  (∀ c, LastClientSeq (f c) = LastClientSeq c) → (∀ c cs ds, sent c cs ds → sent (f c) cs ds) →
  method f c = Some (r, c') → extends c c'.
Proof. intros Hl Hs [= <- <-]. apply extends_sent; [done|]. intros. by apply Hs. Qed.

Lemma extends_goroutine c c' : goroutine_step c c' → extends c c'.
Proof. intros [Hl Hs]%goroutine_frame. by apply extends_sent. Qed.

Lemma extends_refl c : extends c c.
Proof. by apply extends_sent. Qed.

Lemma grow_conns s s' : s_conns s' = s_conns s → grow s s'.
Proof. intros Hc i c Hi. exists c. rewrite Hc. eauto using extends_refl. Qed.

Lemma grow_trans s1 s2 s3 : grow s1 s2 → grow s2 s3 → grow s1 s3.
Proof.
  intros Hg1 Hg2 i c Hi. destruct (Hg1 i c Hi) as (c2 & Hi2 & He). destruct (Hg2 i c2 Hi2) as (c3 & Hi3 & He').
  exists c3. eauto using extends_trans.
Qed.

Lemma grow_insert s i c c' : s_conns s !! i = Some c → extends c c' → grow s (set_conns (<[i := c']> (s_conns s)) s).
Proof.
  intros Hi He j cj Hj. simpl. destruct (decide (j = i)) as [->|Hne].
  - exists c'. rewrite lookup_insert_eq. split; [done|]. congruence.
  - exists cj. rewrite lookup_insert_ne by done. eauto using extends_refl.
Qed.

(** Operations that also leave the buffer and [recvSeq] alone. *)
Definition keeps (s s' : Session) : Prop :=
  grow s s' ∧ s_buf s' = s_buf s ∧ s_recvSeq s' = s_recvSeq s.

(** What the handshake may write is well-formed. *)
Definition writes_wf (s : Session) : Prop :=
  is_uint 64 (s_recvSeq s) ∧
  ∀ last es, catchup.ReplaySince (s_buf s) last = Ok es → Forall (λ e, is_uint 64 (catchup.seq e)) es.

Definition keeper {A} (c : io Session A) : Prop :=
  ∀ s r s', writes_wf s → c s = Some (r, s') → keeps s s'.

Lemma keeps_refl s : keeps s s.
Proof. split; [by apply grow_conns|done]. Qed.

Lemma keeps_trans s1 s2 s3 : keeps s1 s2 → keeps s2 s3 → keeps s1 s3.
Proof. intros (Hg & Hb & Hr) (Hg' & Hb' & Hr'). split; [by eapply grow_trans|]. split; congruence. Qed.

Lemma writes_wf_keeps s s' : keeps s s' → writes_wf s → writes_wf s'.
Proof. intros (_ & Hb & Hr). unfold writes_wf. by rewrite Hb, Hr. Qed.

Lemma keeper_ret {A} (a : A) : keeper (io_ret a).
Proof. intros s r s' _ [= _ <-]. apply keeps_refl. Qed.

Lemma keeper_lift {A} (a : res A) : keeper (io_lift a).
Proof. intros s r s' _ [= _ <-]. apply keeps_refl. Qed.

Lemma keeper_bind {A B} (c : io Session A) (k : A → io Session B) :
  keeper c → (∀ a, keeper (k a)) → keeper (io_bind c k).
Proof.
  intros Hc Hk s r s' Hw (r1 & s1 & Hk1%Hc & Hk2)%io_bind_split; [|done].
  destruct r1; [|by destruct Hk2 as [_ ->]..].
  eapply keeps_trans, Hk; [done| |done]. by eapply writes_wf_keeps.
Qed.

Lemma keeper_try {A} (c : io Session A) : keeper c → keeper (io_try c).
Proof.
  intros Hc s r s' Hw Ht. unfold io_try in Ht. destruct (c s) as [[[] s1]|] eqn:E; [..|done];
    injection Ht as _ <-; by eapply Hc.
Qed.

(** Reading the state, with what [writes_wf] says of it. *)
Lemma keeper_get {A B} (f : Session → A) (k : A → io Session B) (Q : A → Prop) :
  (∀ s, writes_wf s → Q (f s)) → (∀ a, Q a → keeper (k a)) → keeper (io_bind (get f) k).
Proof. intros Hf Hk s r s' Hw. rewrite bind_get. apply Hk; [by apply Hf|done]. Qed.

Lemma keeper_modify f :
  (∀ s, s_conns (f s) = s_conns s ∧ s_buf (f s) = s_buf s ∧ s_recvSeq (f s) = s_recvSeq s) → keeper (modify f).
Proof. intros Hf s r s' _ [= _ <-]. destruct (Hf s) as (Hc & Hb & Hr). split; [by apply grow_conns|done]. Qed.

Lemma keeper_call {A} i (op : io C A) : (∀ c r c', op c = Some (r, c') → extends c c') → keeper (call i op).
Proof.
  intros He s r s' _. unfold call. destruct (s_conns s !! i) as [c|] eqn:Hi; [|intros [= _ <-]; apply keeps_refl].
  destruct (op c) as [[r1 c']|] eqn:Hop; [|done]. intros [= _ <-]. split; [|done]. eapply grow_insert; eauto.
Qed.

Lemma keeper_on_ptmx {A} (op : io P A) : keeper (on_ptmx op).
Proof.
  intros s r s' _. unfold on_ptmx. destruct (s_ptmx s); [|intros [= _ <-]; apply keeps_refl].
  destruct (op p) as [[]|]; [|done]. intros [= _ <-]. split; [by apply grow_conns|done].
Qed.

Lemma keeper_closeConn : keeper closeConn.
Proof.
  unfold closeConn. apply (keeper_get _ _ (λ _, True)); [done|]. intros [i|] _; [|apply keeper_ret].
  apply keeper_bind; [|by intros; apply keeper_modify].
  apply keeper_call. intros c r c'. apply extends_method; [apply Close_seq|apply Close_sent].
Qed.

Lemma keeper_spawn term : keeper (spawn term).
Proof.
  unfold spawn. apply (keeper_get _ _ (λ _, True)); [done|]. intros [p|] _; [apply keeper_ret|].
  apply (keeper_get _ _ (λ _, True)); [done|]. intros cfg _. apply keeper_bind; [apply keeper_lift|].
  intros p. by apply keeper_modify.
Qed.

Lemma keeper_replay i es : Forall (λ e, is_uint 64 (catchup.seq e)) es → keeper (replay i es).
Proof.
  induction 1 as [|e es He Hes IH]; cbn [replay]; [apply keeper_ret|].
  apply keeper_bind; [apply keeper_try, keeper_call; intros c r c'; by apply extends_WriteData|].
  intros [|err|p]; [done| |done]. apply keeper_bind; [apply keeper_closeConn|]. intros _. apply keeper_ret.
Qed.

Lemma keeper_catch_up i : keeper (catch_up i).
Proof.
  unfold catch_up. apply keeper_bind; [apply keeper_call; intros c r c' [= _ <-]; apply extends_refl|]. intros last.
  intros s r s' Hw. rewrite bind_get. destruct (catchup.ReplaySince (s_buf s) last) as [es|e|p] eqn:He;
    [|by intros [= _ <-]; apply keeps_refl..].
  change (io_bind (io_lift (Ok es)) ?k s) with (k es s).
  pose proof (proj2 Hw last es He) as Hes. revert s r s' Hw He.
  enough (keeper (replayed <- replay i es ;; if negb replayed then io_ret () else
    io_try (on_ptmx bouncePTYSize) ;; call i (method StartDemux) ;;
    modify (λ s, set_readers (s_readers s ++ [(i, "control"); (i, "data")]) s))) as Hk.
  { intros s r s' Hw _. by apply Hk. }
  apply keeper_bind; [by apply keeper_replay|]. intros [|]; [|apply keeper_ret].
  apply keeper_bind; [apply keeper_try, keeper_on_ptmx|]. intros _.
  apply keeper_bind; [|by intros; apply keeper_modify].
  apply keeper_call. intros c r c'. apply extends_method; [apply StartDemux_seq|apply StartDemux_sent].
Qed.

Lemma keeper_deadline i on : keeper (call i (method (SetControlReadDeadline on))).
Proof. apply keeper_call. intros c r c'. apply extends_method; [apply SetDeadline_seq|apply SetDeadline_sent]. Qed.

Lemma keeper_await i : keeper (await_terminal i).
Proof.
  unfold await_terminal. apply keeper_bind; [apply keeper_deadline|]. intros _.
  apply keeper_bind; [apply keeper_try, keeper_call; intros c r c'; apply extends_ReadControl|]. intros msg.
  apply keeper_bind; [apply keeper_deadline|]. intros _.
  destruct msg as [[| | | | | |term|]| |]; try apply keeper_closeConn.
  apply keeper_bind; [apply keeper_try, keeper_spawn|]. intros [| |]; try apply keeper_catch_up.
  apply keeper_bind; [apply keeper_closeConn|intros _; apply keeper_lift].
Qed.

Lemma keeper_handshake i : keeper (handshake i).
Proof.
  unfold handshake. apply (keeper_get _ _ (is_uint 64)); [by intros s [? _]|]. intros q Hq.
  apply keeper_bind; [apply keeper_try, keeper_call; intros c r c'; by apply extends_WriteControl|].
  intros [| |]; [apply keeper_await|apply keeper_closeConn|apply keeper_await].
Qed.

Lemma grow_closeConn s r s' : closeConn s = Some (r, s') → grow s s'.
Proof.
  unfold closeConn. rewrite bind_get. destruct (s_conn s) as [i|]; [|intros [= _ <-]; by apply grow_conns].
  intros (r1 & s1 & Hc & Hk)%io_bind_split.
  assert (grow s s1) as Hg.
  { revert Hc. unfold call. destruct (s_conns s !! i) as [c|] eqn:Hi; [|intros [= _ <-]; by apply grow_conns].
    intros [= <- <-]. eapply grow_insert; [done|]. apply extends_sent; [apply Close_seq|apply Close_sent]. }
  destruct r1; [injection Hk as _ <-; exact Hg|by destruct Hk as [_ ->]..].
Qed.

Lemma grow_flush now s r s' : flushCoalesced now s = Some (r, s') → grow s s'.
Proof.
  unfold flushCoalesced, coal_Flush, io_bind at 1. destruct (coalesce.Flush (s_coal s) now) as [c [data|]].
  2:{ intros [= _ <-]. by apply grow_conns. }
  rewrite bind_modify, bind_get. set (s1 := set_sendSeq _ _).
  intros (r1 & s2 & Hst & Hk)%io_bind_split.
  assert (s_conns s2 = s_conns s) as Hc2.
  { unfold buf_Store in Hst. destruct (catchup.Store _ _ _) as [[]|]; [..|done]; by injection Hst as _ <-. }
  eapply (grow_trans s s2); [by apply grow_conns|].
  destruct r1; [|by destruct Hk as [_ ->]; apply grow_conns..].
  rewrite bind_get in Hk. destruct (s_conn s2) as [i|]; [|injection Hk as _ <-; by apply grow_conns].
  apply io_bind_split in Hk as (r3 & s3 & Ht & Hk). eapply (grow_trans s2 s3).
  { unfold io_try, call in Ht. destruct (s_conns s2 !! i) as [x|] eqn:Hi; [|injection Ht as _ <-; by apply grow_conns].
    destruct (WriteData _ x) as [[r4 x']|] eqn:Hw; [|done].
    assert (s3 = set_conns (<[i := x']> (s_conns s2)) s2) as -> by (by destruct r4; injection Ht as _ <-).
    eapply grow_insert; [done|]. eapply extends_WriteData; [| |done]; [apply msg_wf_Data, uint64_range|done]. }
  destruct r3 as [a0|e|p]; [|by destruct Hk as [_ ->]; apply grow_conns..].
  destruct a0; [injection Hk as _ <-; by apply grow_conns|by eapply grow_closeConn|injection Hk as _ <-; by apply grow_conns].
Qed.

Lemma grow_then {A B} (c : io Session A) (k : A → io Session B) s r s' :
  (∀ r s', c s = Some (r, s') → grow s s') → (∀ a s r s', k a s = Some (r, s') → grow s s') →
  io_bind c k s = Some (r, s') → grow s s'.
Proof.
  intros Hc Hk (r1 & s1 & Hg%Hc & Hr)%io_bind_split.
  destruct r1; [eapply grow_trans; [done|by eapply Hk]|by destruct Hr as [_ ->]..].
Qed.

Lemma grow_try {A} (c : io Session A) s r s' :
  (∀ r s', c s = Some (r, s') → grow s s') → io_try c s = Some (r, s') → grow s s'.
Proof.
  intros Hc Ht. unfold io_try in Ht. destruct (c s) as [[[] s1]|] eqn:E; [..|done]; injection Ht as _ <-; by eapply Hc.
Qed.

Lemma grow_ret {A} (a : A) s r s' : io_ret a s = Some (r, s') → grow s s'.
Proof. intros [= _ <-]. by apply grow_conns. Qed.

Lemma grow_on_ptmx {A} (op : io P A) s r s' : on_ptmx op s = Some (r, s') → grow s s'.
Proof.
  unfold on_ptmx. destruct (s_ptmx s); [|intros [= _ <-]; by apply grow_conns].
  destruct (op p) as [[]|]; [|done]. intros [= _ <-]. by apply grow_conns.
Qed.

Lemma grow_control i m s r s' :
  msg_wf m → is_data m = false → call i (WriteControl (Ptr m)) s = Some (r, s') → grow s s'.
Proof.
  intros Hm Hd. unfold call. destruct (s_conns s !! i) as [c|] eqn:Hi; [|intros [= _ <-]; by apply grow_conns].
  destruct (WriteControl _ c) as [[r1 c']|] eqn:Hop; [|done]. intros [= _ <-].
  eapply grow_insert; [done|]. by eapply extends_WriteControl.
Qed.

Lemma grow_handleStreamEvent ev s r s' : handleStreamEvent ev s = Some (r, s') → grow s s'.
Proof.
  unfold handleStreamEvent. rewrite bind_get. destruct (negb _); [apply grow_ret|].
  destruct (ev_msg ev) as [m|e|p]; [|apply grow_closeConn|intros [= _ <-]; by apply grow_conns].
  rewrite bind_get.
  destruct m as [| | | |rows cols| | |sq pl]; try apply grow_ret; try (intros [= _ <-]; by apply grow_conns);
    (destruct (s_ptmx s); [|intros [= _ <-]; by apply grow_conns]).
  - apply grow_then; [intros r1 s1; apply grow_try; intros r2 s2; apply grow_on_ptmx|].
    intros a s1 r1 s1'. apply grow_ret.
  - apply grow_then; [intros r1 s1; apply grow_try; intros r2 s2; apply grow_on_ptmx|].
    intros a s1 r1 s1'. destruct a; [|apply grow_ret|]; intros [= _ <-]; by apply grow_conns.
Qed.

Lemma grow_gracefulShutdown now s r s' : gracefulShutdown now s = Some (r, s') → grow s s'.
Proof.
  unfold gracefulShutdown. apply grow_then; [intros r1 s1; apply grow_flush|].
  intros [] s1 r1 s1'. rewrite bind_get. destruct (s_conn s1); [|apply grow_ret].
  apply grow_then; [intros r2 s2; apply grow_try; intros r3 s3; by apply grow_control|].
  intros a s2 r2 s2'. apply grow_ret.
Qed.

(** ** Every handler keeps the invariant *)

(** The invariant for the history [hist], whose length [N] bounds. *)
Definition inv_at (N : Z) (out : bytes) (hist : list bytes) (s : Session) : Prop :=
  base hon n out hist s ∧ current hon n hist s ∧
  len (coalesce.buf (s_coal s)) < coalesce.Threshold ∧ len hist <= N ∧
  (s_conn s ≠ None → s_ptmx s ≠ None).

(** The histories of later states extend those of earlier ones. *)
Variable (h0 : list bytes).

Definition inv (N : Z) (out : bytes) (s : Session) : Prop :=
  ∃ hist, h0 `prefix_of` hist ∧ inv_at N out hist s.

Lemma prefix_grow (hist hist' : list bytes) :
  h0 `prefix_of` hist → hist' = hist ∨ (∃ p, hist' = hist ++ [p]) → h0 `prefix_of` hist'.
Proof. intros Hp [->|[p ->]]; [done|]. by apply prefix_app_r. Qed.

Lemma handleNewConn_spec out hist i c cs now s r s' :
  base hon n out hist s → current hon n hist s → len hist + 1 < 2 ^ 64 →
  s_conn s ≠ Some i → s_conns s !! i = Some c → sent c cs [] →
  panics r = false → handleNewConn i now s = Some (r, s') →
  ∃ hist', (hist' = hist ∨ ∃ p, hist' = hist ++ [p]) ∧ connected out hist' i (LastClientSeq c) s'.
Proof.
  intros Hb Hcur Hl Hni Hi Hs Hnp. unfold handleNewConn.
  intros (r1 & s1 & Hc & Hk)%io_bind_split.
  eapply closeConn_spec in Hc as (-> & Hb1 & Hn1 & _ & Ho1); [|done].
  apply io_bind_split in Hk as (r2 & s2 & Hf & Hk).
  eapply flushCoalesced_spec in Hf as (-> & hist' & Hb2 & _ & Hh & Hco & Hcn & _ & _ & _ & _ & _ & Ho2);
    [|done|intros j Hj; congruence|done].
  rewrite bind_modify in Hk. exists hist'. split; [done|].
  assert (s_conns s2 !! i = Some c) as Hi2.
  { rewrite Ho2, Ho1; [done|done|congruence]. }
  destruct (b_conns _ _ _ _ _ Hb i c Hi) as (k & ds & _ & Hkl & Hu & Hhon & _).
  eapply (handshake_spec out hist' i (LastClientSeq c)); [|done|exact Hk].
  split; [destruct Hb2; split; try done|].
  { intros j Hj. simpl in *. injection Hj as <-. by eexists. }
  split_and!; [done|done|done| |apply prefix_nil|by exists c, cs].
  intros Hx. specialize (Hhon Hx). destruct Hh as [->|[p ->]]; unfold len in *; rewrite ?length_app; lia.
Qed.

Lemma inv_ptmx N out s p : inv N out s → inv N out (set_ptmx (Some p) s).
Proof. intros (hist & H0' & [] & Hc & Hl & HN & Hp). exists hist. split; [done|]. split; [by split|done]. Qed.

Lemma inv_recv N out s q : is_uint 64 q → inv N out s → inv N out (set_recvSeq q s).
Proof. intros Hq (hist & H0' & [] & Hc & Hl & HN & Hp). exists hist. split; [done|]. split; [by split|done]. Qed.

Lemma inv_le N N' out s : N <= N' → inv N out s → inv N' out s.
Proof. intros HN (hist & H0' & Hb & Hc & Hl & Hh & Hp). exists hist. split; [done|]. split_and!; try done. lia. Qed.

Lemma inv_close N out s r s' : inv N out s → closeConn s = Some (r, s') → r = Ok () ∧ inv N out s'.
Proof.
  intros (hist & H0' & Hb & Hcur & Hl & Hh & Hp) Hc.
  eapply closeConn_spec in Hc as (-> & Hb' & Hn & Hs & _); [|done]. split; [done|].
  exists hist. split; [done|]. split_and!; [done|intros j Hj; congruence| |done|done].
  destruct Hs as (_ & _ & _ & -> & _). done.
Qed.

(** A flush; the buffer may be over the threshold before it. *)
Lemma inv_flush N out hist now s r s' :
  h0 `prefix_of` hist → base hon n out hist s → current hon n hist s → len hist <= N → N + 1 < 2 ^ 64 →
  (s_conn s ≠ None → s_ptmx s ≠ None) →
  flushCoalesced now s = Some (r, s') → r = Ok () ∧ inv (N + 1) out s'.
Proof.
  intros H0' Hb Hcur Hh HN Hp Hf.
  eapply flushCoalesced_spec in Hf as (-> & hist' & Hb' & Hcur' & Hg & Hco & Hcn & Hpt & _); [|done|done|lia].
  split; [done|]. exists hist'. split; [by eapply prefix_grow|]. unfold inv_at. rewrite Hco.
  split_and!; [done|done|done| |].
  - destruct Hg as [->|[p ->]]; [lia|]. rewrite len_app, len_cons, len_nil. lia.
  - rewrite Hpt. destruct Hcn as [-> | ->]; done.
Qed.

Lemma handleStreamEvent_inv N out ev s r s' :
  inv N out s → match ev_msg ev with Ok m => msg_wf m | _ => True end → panics r = false →
  handleStreamEvent ev s = Some (r, s') → inv N out s'.
Proof.
  intros Hinv Hev Hnp. unfold handleStreamEvent. rewrite bind_get.
  destruct (negb _); [by intros [= _ <-]|].
  destruct (ev_msg ev) as [m|e|p]; [|by intros [_ ?]%(inv_close N out)|by intros [= <- _]].
  rewrite bind_get. destruct m as [| | | |rows cols| | |sq pl]; try by intros [= _ <-].
  - destruct (s_ptmx s); [|by intros [= _ <-]].
    intros (r1 & s1 & Hc & Hp1 & Hk)%io_try_split; [|done].
    apply on_ptmx_inv in Hc as (_ & p' & ->); [|done]. injection Hk as _ <-. by apply inv_ptmx.
  - destruct (s_ptmx s); [|intros [= _ <-]; by apply inv_recv].
    intros (r1 & s1 & Hc & Hp1 & Hk)%io_try_split; [|done].
    apply on_ptmx_inv in Hc as (_ & p' & ->); [|done].
    destruct r1; [| |done]; injection Hk as _ <-; [apply inv_recv; [done|]|]; by apply inv_ptmx.
Qed.

(** The output bytes an event brings. *)
Definition pty_bytes (e : event) : bytes := match e with EvPty (Some d) => d | _ => [] end.

Lemma base_coal out out' hist s c :
  base hon n out hist s → List.concat hist ++ coalesce.buf c = out' →
  len (coalesce.buf c) < coalesce.Threshold + ptyReadBufSize → base hon n out' hist (set_coal c s).
Proof. intros [] Ho Hr. by split. Qed.

Lemma gracefulShutdown_inv N out now s r s' :
  inv N out s → N + 1 < 2 ^ 64 → gracefulShutdown now s = Some (r, s') → r = Ok () ∧ inv (N + 1) out s'.
Proof.
  intros (hist & H0' & Hb & Hcur & Hl & Hh & Hp) HN. unfold gracefulShutdown.
  intros (r1 & s1 & Hf & Hk)%io_bind_split.
  eapply inv_flush in Hf as [-> (h1 & H1' & Hb1 & Hcur1 & Hl1 & Hh1 & Hp1)]; [|done..].
  rewrite bind_get in Hk. destruct (s_conn s1) as [i|] eqn:Ei.
  2:{ injection Hk as <- <-. split; [done|]. exists h1. unfold inv_at. by rewrite Ei. }
  destruct (Hcur1 i Ei) as (c & k & Hi & (cs & Hsent) & Hkl & Hu & Hx & Hpre).
  unfold io_bind, io_try in Hk. destruct (call i _ s1) as [[r2 s2]|] eqn:Ec; [|done].
  apply (write_control_spec i c cs _ _ _ _ _ Hi Hsent) in Ec as (x & -> & Hseq & Hpan & cs' & Hs'); [|done|done].
  assert (r = Ok () ∧ s' = set_conns (<[i := x]> (s_conns s1)) s1) as [-> ->].
  { destruct r2; [| |done]; by injection Hk as <- <-. }
  split; [done|].
  assert (sent_run hon h1 x k n (run_of n h1 x k)) as Hrun.
  { unfold run_of, sent_run. rewrite Hseq. split_and!; try done. by exists cs'. }
  exists h1. split; [done|]. split; [by eapply base_update|]. split.
  2:{ split; [done|]. split; [done|]. intros _. by apply Hp1. }
  intros j Hj. simpl in Hj. assert (j = i) as -> by congruence. exists x, k. simpl. by rewrite lookup_insert_eq.
Qed.

Lemma io_ret_inv {S A} (a : A) s r (s' : S) : io_ret a s = Some (r, s') → r = Ok a ∧ s' = s.
Proof. by intros [= <- <-]. Qed.

(** Closing or not, then continuing. *)
Lemma inv_then N out {A} (c : io Session ()) (a : A) s r s' :
  (∀ r s', c s = Some (r, s') → r = Ok () ∧ inv N out s') →
  (c ;; io_ret a) s = Some (r, s') → inv N out s'.
Proof.
  intros Hc (r1 & s1 & [-> Hi]%Hc & Hk)%io_bind_split. by apply io_ret_inv in Hk as [_ ->].
Qed.

Lemma handle_pty_inv N out l now data s r s' :
  inv N out s → N + 1 < 2 ^ 64 → enabled l s now (EvPty data) →
  handle l now (EvPty data) s = Some (r, s') → inv (N + 1) (out ++ pty_bytes (EvPty data)) s'.
Proof.
  intros (hist & H0' & Hb & Hcur & Hl & Hh & Hp) HN [_ He]. destruct data as [d|]; simpl.
  - intros (r1 & s1 & Ha & Hk)%io_bind_split.
    destruct (coalesce.Add (s_coal s) now d) as [c full] eqn:Ea. injection Ha as <- <-.
    apply coalesce.Add_out in Ea as [Hbuf Hfull].
    assert (base hon n (out ++ d) hist (set_coal c s)) as Hb1.
    { eapply base_coal; [exact Hb| |]; rewrite Hbuf.
      - rewrite app_assoc. by rewrite (b_out _ _ _ _ _ Hb).
      - rewrite len_app. unfold ptyReadBufSize in *. lia. }
    destruct full.
    + revert Hk. apply inv_then. intros r2 s2. by apply (inv_flush N (out ++ d) hist).
    + apply io_bind_split in Hk as (r2 & s2 & [-> ->]%io_ret_inv & [_ ->]%io_ret_inv).
      exists hist. split; [done|]. split; [done|]. split; [done|]. split; [|split; [lia|done]].
      by apply (Hfull eq_refl).
  - rewrite app_nil_r. apply inv_then. intros r2 s2. by apply (inv_flush N out hist).
Qed.

Lemma handle_inv N out l now e s r s' :
  inv N out s → N + 1 < 2 ^ 64 → enabled l s now e →
  match e with EvAccept (Ok _) _ => False | _ => True end →
  handle l now e s = Some (r, s') → panics r = false → inv (N + 1) (out ++ pty_bytes e) s'.
Proof.
  intros Hinv HN He Hne Hk Hnp. assert (inv (N + 1) out s) as Hinv' by (by apply (inv_le N); [lia|]).
  destruct e as [data| |ev|[conn|err|pn] ctx| |err|err]; try done;
    [by eapply handle_pty_inv|rewrite app_nil_r; simpl in Hk; revert Hk..].
  - intros (r1 & s1 & Ht & Hk)%io_bind_split.
    destruct (coalesce.recv_Timer _ _) as [c|] eqn:Er; [|done]. injection Ht as <- <-.
    apply coalesce.recv_Timer_buf in Er.
    destruct Hinv as (hist & H0' & Hb & Hcur & Hl & Hh & Hp). revert Hk. apply inv_then.
    intros r2 s2. apply (inv_flush N out hist); try done.
    eapply base_coal; [exact Hb|by rewrite Er; apply Hb|rewrite Er; unfold ptyReadBufSize; lia].
  - rewrite bind_get. intros (r1 & s1 & Hh & Hp1 & Hk)%io_try_split; [|done].
    eapply handleStreamEvent_inv in Hh; [|done| |done].
    2:{ simpl in He. by destruct (ev_msg ev). }
    destruct r1; [| |done]; by apply io_ret_inv in Hk as [_ ->].
  - destruct ctx; by intros [_ ->]%io_ret_inv.
  - by intros [= <- <-].
  - rewrite bind_get. destruct (s_conn s) as [i|] eqn:Ei; [|by intros [_ ->]%io_ret_inv].
    intros (r1 & s1 & Hc & Hp1 & Hk)%io_try_split; [|done].
    destruct Hinv' as (hist & H0' & Hb & Hcur & Hl & Hh & Hp).
    destruct (Hcur i Ei) as (c & k & Hi & (cs & Hsent) & Hkl & Hu & Hx & Hpre).
    apply (write_control_spec i c cs _ _ _ _ _ Hi Hsent) in Hc as (x & -> & Hseq & _ & cs' & Hs'); [|by apply int64_range|done].
    assert (inv (N + 1) out (set_conns (<[i := x]> (s_conns s)) s)) as Hi1.
    { assert (sent_run hon hist x k n (run_of n hist x k)) as Hrun.
      { unfold run_of, sent_run. rewrite Hseq. split_and!; try done. by exists cs'. }
      exists hist. split; [done|]. split; [by eapply base_update|]. split; [|done].
      intros j Hj. simpl in Hj. assert (j = i) as -> by congruence. exists x, k. simpl. by rewrite lookup_insert_eq. }
    destruct r1; [| |done]; revert Hk; apply inv_then; intros r2 s2.
    + destruct (_ <? _); [by apply inv_close|]. by intros [-> ->]%io_ret_inv.
    + by apply inv_close.
  - intros (r1 & s1 & Hg & Hk)%io_bind_split. eapply (gracefulShutdown_inv N out) in Hg as [-> ?]; [|done..].
    by apply io_ret_inv in Hk as [_ ->].
  - intros (r1 & s1 & Hg & Hk)%io_bind_split. eapply (gracefulShutdown_inv N out) in Hg as [-> ?]; [|done..].
    by apply io_ret_inv in Hk as [_ ->].
Qed.

(** A connection as the listener hands it over. *)
Definition accepted (s : Session) (c : C) : Prop :=
  (∃ cs, sent c cs []) ∧ is_uint 64 (LastClientSeq c) ∧ (hon → LastClientSeq c <= s_sendSeq s).

Lemma inv_accept N out s i c :
  inv N out s → s_conns s !! i = None → accepted s c →
  inv N out (set_conns (<[i := c]> (s_conns s)) s).
Proof.
  intros (hist & H0' & Hb & Hcur & Hl & Hh & Hp) Hi ((cs & Hs) & Hu & Hx).
  assert (s_sendSeq s = len hist) as Hseq by apply (b_sender _ _ _ _ _ Hb).
  exists hist. split; [done|]. split.
  { eapply (base_update _ _ _ _ _ (List.length hist) []); [done|]. split_and!; [by exists cs|done|done| |apply prefix_nil].
    intros Hy. specialize (Hx Hy). unfold len in Hseq. lia. }
  split; [|done]. intros j Hj. destruct (Hcur j Hj) as (cj & k & Hcj & Hr). exists cj, k.
  split; [|done]. simpl. rewrite lookup_insert_ne; [done|]. by intros ->; rewrite Hcj in Hi.
Qed.

Lemma handle_accept_inv N out l now i c ctx s r s' :
  inv N out s → N + 1 < 2 ^ 64 → s_conns s !! i = None → accepted s c →
  handle l now (EvAccept (Ok i) ctx) (set_conns (<[i := c]> (s_conns s)) s) = Some (r, s') →
  panics r = false → inv (N + 1) out s'.
Proof.
  intros Hinv HN Hi Hacc Hk Hnp. pose proof (inv_accept N out s i c Hinv Hi Hacc) as Hinv1.
  assert (s_conn s ≠ Some i) as Hni.
  { intros Hs. destruct Hinv as (hist & _ & Hb & _). apply (b_ptr _ _ _ _ _ Hb) in Hs. rewrite Hi in Hs. by destruct Hs. }
  set (s0 := set_conns _ s) in *. simpl in Hk.
  apply io_try_split in Hk as (r1 & s1 & Hh & Hp1 & Hk); [|done].
  destruct Hacc as ((cs & Hs) & _).
  destruct Hinv1 as (hist & H0' & Hb & Hcur & Hl & Hlen & Hp).
  eapply handleNewConn_spec in Hh as (hist' & Hg & Hb' & Hcur' & Hco & Hcn);
    [|done|done|lia|done|by apply lookup_insert_eq|done|done].
  assert (inv (N + 1) out s1) as Hi1.
  { exists hist'. split; [by eapply prefix_grow|]. split; [done|]. split; [done|]. rewrite Hco. split; [done|]. split.
    - destruct Hg as [->|[p ->]]; [lia|]. rewrite len_app, len_cons, len_nil. lia.
    - destruct Hcn as [-> | (-> & ? & _)]; done. }
  destruct r1; [| |done].
  - rewrite bind_get in Hk. by apply io_ret_inv in Hk as [_ ->].
  - by apply io_ret_inv in Hk as [_ ->].
Qed.

Definition is_accept (e : event) : bool := match e with EvAccept (Ok _) _ => true | _ => false end.

(** Handling an event keeps every connection. *)
Lemma grow_handle l now e s r s' : is_accept e = false → handle l now e s = Some (r, s') → grow s s'.
Proof.
  intros Ha. destruct e as [[d|]| |ev|[conn|err|p] ctx| |err|err]; try done; simpl.
  - apply grow_then; [intros r1 s1; destruct (coalesce.Add _ _ _); intros [= _ <-]; by apply grow_conns|].
    intros full s1 r1 s1'. apply grow_then; [|intros []; apply grow_ret].
    intros r2 s2. destruct full; [apply grow_flush|apply grow_ret].
  - apply grow_then; [apply grow_flush|intros []; apply grow_ret].
  - apply grow_then; [intros r1 s1; destruct (coalesce.recv_Timer _ _); [|done]; intros [= _ <-]; by apply grow_conns|].
    intros _ s1 r1 s1'. apply grow_then; [apply grow_flush|intros []; apply grow_ret].
  - rewrite bind_get. apply grow_then; [intros r1 s1; apply grow_try, grow_handleStreamEvent|].
    intros a s1 r1 s1'. destruct a; apply grow_ret.
  - destruct ctx; apply grow_ret.
  - intros [= _ <-]. by apply grow_conns.
  - rewrite bind_get. destruct (s_conn s) as [i|]; [|apply grow_ret].
    apply grow_then; [intros r1 s1; apply grow_try; intros r2 s2; apply grow_control; [apply int64_range|done]|].
    intros a s1 r1 s1'. destruct a; apply grow_then; try (intros []; apply grow_ret); intros r2 s2;
      try apply grow_closeConn; (destruct (_ <? _); [apply grow_closeConn|apply grow_ret]).
  - apply grow_then; [apply grow_gracefulShutdown|intros []; apply grow_ret].
  - apply grow_then; [apply grow_gracefulShutdown|intros []; apply grow_ret].
Qed.

Lemma base_writes_wf out hist s : base hon n out hist s → writes_wf s.
Proof.
  intros Hb. split; [apply Hb|]. intros last es He.
  pose proof (b_sender _ _ _ _ _ Hb) as Hs. destruct (sender_contents _ _ _ _ Hs) as [Hh Hc].
  destruct Hs as (_ & Hl & Hi & _). rewrite catchup.ReplaySince_spec in He by done. injection He as <-.
  assert (Forall msg_wf (data_run (horizon n hist) (drop (Z.to_nat (horizon n hist)) hist))) as Hw.
  { apply data_run_wf; [lia|]. rewrite len_drop. lia. }
  unfold data_run in Hw. rewrite <-Hc in Hw. apply Forall_forall. intros e [_ He]%list_elem_of_filter.
  exact (proj1 (Forall_forall _ _) Hw _ (list_elem_of_fmap_2 (λ e, Data (catchup.seq e) (catchup.payload e)) _ _ He)).
Qed.

Lemma grow_accept out hist l now i ctx s r s' :
  base hon n out hist s → len hist + 1 < 2 ^ 64 →
  handle l now (EvAccept (Ok i) ctx) s = Some (r, s') → grow s s'.
Proof.
  intros Hb Hl. simpl. apply grow_then.
  2:{ intros a s1 r1 s1'. destruct a; [rewrite bind_get|..]; apply grow_ret. }
  intros r1 s1. apply grow_try. intros r2 s2. unfold handleNewConn.
  intros (r3 & s3 & Hc & Hk)%io_bind_split. pose proof (grow_closeConn _ _ _ Hc) as Hg3.
  eapply closeConn_spec in Hc as (-> & Hb3 & Hn3 & _); [|done].
  apply io_bind_split in Hk as (r4 & s4 & Hf & Hk). pose proof (grow_flush _ _ _ _ Hf) as Hg4.
  eapply flushCoalesced_spec in Hf as (-> & hist' & Hb4 & _); [|done|intros j Hj; congruence|done].
  rewrite bind_modify in Hk. apply keeper_handshake in Hk as (Hg5 & _); [|by apply base_writes_wf in Hb4].
  eapply grow_trans; [exact Hg3|]. eapply grow_trans; [exact Hg4|]. exact Hg5.
Qed.

(** ** Reachable states

    [reach N out s l]: after [N] iterations of the loop, in which the shell
    produced [out], the session is [s] and the locals of [Run] are [l].
    Goroutines of the connections run in between. *)
Inductive reach (cfg : Config) : Z → bytes → Session → locals → Prop :=
| reach_new now s : New cfg now = Some s → reach cfg 0 [] s (Locals false false now)
| reach_event N out s l now e l' s' :
  reach cfg N out s l → enabled l s now e → is_accept e = false →
  handle l now e s = Some (Ok (inl l'), s') → reach cfg (N + 1) (out ++ pty_bytes e) s' l'
| reach_accept N out s l now i c ctx l' s' :
  reach cfg N out s l → s_conns s !! i = None → accepted s c →
  handle l now (EvAccept (Ok i) ctx) (set_conns (<[i := c]> (s_conns s)) s) = Some (Ok (inl l'), s') →
  reach cfg (N + 1) out s' l'
| reach_goroutine N out s l i c c' :
  reach cfg N out s l → s_conns s !! i = Some c → goroutine_step c c' →
  reach cfg N out (set_conns (<[i := c']> (s_conns s)) s) l.

Lemma sent_run_goroutine hist c c' k ds :
  goroutine_step c c' → sent_run hon hist c k n ds → sent_run hon hist c' k n ds.
Proof.
  intros [Hl Hs]%goroutine_frame ((cs & Hc) & Hk & Hu & Hh & Hp). unfold sent_run. rewrite Hl.
  split_and!; try done. exists cs. by apply Hs.
Qed.

Lemma inv_goroutine N out s i c c' :
  inv N out s → s_conns s !! i = Some c → goroutine_step c c' →
  inv N out (set_conns (<[i := c']> (s_conns s)) s).
Proof.
  intros (hist & H0' & Hb & Hcur & Hl & Hh & Hp) Hi Hg. exists hist. split; [done|].
  destruct (b_conns _ _ _ _ _ Hb i c Hi) as (k & ds & Hr).
  split; [by eapply base_update, sent_run_goroutine|]. split; [|done].
  intros j Hj. destruct (Hcur j Hj) as (cj & kj & Hcj & Hrj). destruct (decide (j = i)) as [->|Hne].
  - assert (cj = c) as -> by congruence. exists c', kj. simpl. rewrite lookup_insert_eq. split; [done|].
    replace (run_of n hist c' kj) with (run_of n hist c kj).
    + by eapply sent_run_goroutine.
    + unfold run_of. by destruct (goroutine_frame c c' Hg) as [-> _].
  - exists cj, kj. simpl. by rewrite lookup_insert_ne.
Qed.

Lemma reach_inv cfg N out s l :
  n = ReplaySize cfg → h0 = [] → reach cfg N out s l → N < 2 ^ 64 → 0 <= N ∧ inv N out s.
Proof.
  intros Hn Hh0 Hr. induction Hr as [now s Hnew|N out s l now e l' s' Hr IH He Ha Hh
    |N out s l now i c ctx l' s' Hr IH Hi Hacc Hh|N out s l i c c' Hr IH Hi Hg]; intros HN.
  - split; [done|]. destruct (coalesce.New_represents now) as (co & Hco & Hrep).
    unfold New in Hnew. rewrite Hco in Hnew. injection Hnew as <-.
    assert (coalesce.buf co = []) as Hnil by (by injection Hco as <-).
    exists []. split; [by rewrite Hh0|]. split; [|split; [done|split; [simpl; by rewrite Hnil|done]]].
    split; simpl; rewrite ?Hnil; try done. rewrite <-Hn. apply sender_new.
  - destruct IH as [H0' Hinv]; [lia|]. split; [lia|].
    eapply handle_inv; [done|lia|done| |exact Hh|done]. by destruct e as [| | |[]| | |].
  - destruct IH as [H0' Hinv]; [lia|]. split; [lia|]. by eapply handle_accept_inv.
  - destruct IH as [H0' Hinv]; [lia|]. split; [lia|]. by eapply inv_goroutine.
Qed.

End session.

(** ** Properties *)

Section properties.
Context {C : Type} `{ConnLaws C} {P : Type} `{PtyLib P}.
Variables (SHELL : string) (environ : list string).

(** C4: The stream invariant.  Whatever the events, their order, the failures
    of connections and the peers' sequence numbers: the bytes the shell
    printed are the flushed batches [hist] followed by what is being
    coalesced, the counter is the number of batches, the current connection
    has been sent exactly the numbered batches from its starting point to the
    last one, once each and in order, and every other connection ever
    accepted a prefix of such a run. *)
Theorem session_streams cfg N out (s : Session) l :
  reach (C := C) (P := P) SHELL environ False cfg N out s l → N < 2 ^ 64 →
  ∃ hist,
    List.concat hist ++ coalesce.buf (s_coal s) = out ∧ s_sendSeq s = len hist ∧
    Forall (λ p, 0 < len p < 65536) hist ∧
    (∀ i, s_conn s = Some i → s_ptmx s ≠ None ∧
      ∃ c cs k, s_conns s !! i = Some c ∧ (k ≤ List.length hist)%nat ∧
        sent c cs (run_from (start (ReplaySize cfg) (take k hist) (LastClientSeq c)) hist)) ∧
    (∀ i c, s_conns s !! i = Some c → ∃ cs ds k, sent c cs ds ∧ (k ≤ List.length hist)%nat ∧
      ds `prefix_of` run_from (start (ReplaySize cfg) (take k hist) (LastClientSeq c)) hist).
Proof.
  intros Hr HN. apply (reach_inv _ _ _ (ReplaySize cfg) []) in Hr as [_ (hist & _ & Hb & Hcur & _ & _ & Hp)]; [|done..].
  exists hist. split_and!.
  - apply Hb.
  - apply (b_sender _ _ _ _ _ Hb).
  - apply Hb.
  - intros i Hi. split; [apply Hp; by rewrite Hi|].
    destruct (Hcur i Hi) as (c & k & Hc & (cs & Hs) & Hk & _). by exists c, cs, k.
  - intros i c Hi. destruct (b_conns _ _ _ _ _ Hb i c Hi) as (k & ds & (cs & Hs) & Hk & _ & _ & Hpre).
    by exists cs, ds, k.
Qed.

(** C11: A reconnecting client resumes where it stopped.  When [handleNewConn]
    sets up a connection, the coalesced bytes have been flushed, and the
    connection has been sent all batches above the client's sequence number
    that are still kept; if the missing batches fit the byte and slot limits
    of the catchup buffer, that is all of them, from the very next one. *)
Theorem reconnect_resumes cfg N out (s : Session) l i c now s' :
  reach (C := C) (P := P) SHELL environ False cfg N out s l → N + 1 < 2 ^ 64 →
  s_conns s !! i = None → accepted False s c →
  handleNewConn SHELL environ i now (set_conns (<[i := c]> (s_conns s)) s) = Some (Ok (), s') →
  s_conn s' ≠ None →
  let last := LastClientSeq c in
  ∃ hist c' cs,
    List.concat hist = out ∧ s_sendSeq s' = len hist ∧ s_conn s' = Some i ∧ s_conns s' !! i = Some c' ∧
    sent c' cs (run_from (start (ReplaySize cfg) hist last) hist) ∧
    (last <= len hist →
     catchup.total (catchup.numbered last (drop (Z.to_nat last) hist)) <= catchup.maxSize (catchup.New (ReplaySize cfg)) →
     len hist - last <= catchup.capacity (catchup.New (ReplaySize cfg)) →
     start (ReplaySize cfg) hist last = last).
Proof.
  intros Hr HN Hi Hacc Hh Hne last.
  apply (reach_inv _ _ _ (ReplaySize cfg) []) in Hr as [_ Hinv]; [|done|done|lia].
  assert (s_conn s ≠ Some i) as Hni.
  { intros Hs. destruct Hinv as (h & _ & Hb & _). apply (b_ptr _ _ _ _ _ Hb) in Hs. rewrite Hi in Hs. by destruct Hs. }
  pose proof (inv_accept False (ReplaySize cfg) [] N out s i c Hinv Hi Hacc) as (hist & _ & Hb & Hcur & _ & HlN & _).
  destruct Hacc as ((cs & Hs) & Hu & _).
  eapply (handleNewConn_spec SHELL environ False (ReplaySize cfg)) in Hh
    as (hist' & _ & Hb' & _ & Hco & [Hn|(Hci & _ & c' & cs' & Hc' & Hs' & _)]);
    [done| |done|done|lia|done|by apply lookup_insert_eq|done|done].
  exists hist', c', cs'. split_and!; try done.
  - rewrite <-(b_out _ _ _ _ _ Hb'), Hco. by rewrite app_nil_r.
  - apply (b_sender _ _ _ _ _ Hb').
  - intros. apply start_exact; try done. unfold is_uint in Hu. fold last in Hu. lia.
Qed.

(** What an event from a stream does.  One from a connection that is no
    longer current changes nothing, whatever it is; of the current one, a read
    error closes the connection, [Data] is written to the PTY and only then
    acknowledged through [recvSeq], and a failed write leaves [recvSeq]
    alone; [Shutdown] ends the loop; the other messages change nothing. *)
Theorem stream_event_outcome ev (s : Session (C := C) (P := P)) p :
  (Some (ev_conn ev) ≠ s_conn s → handleStreamEvent ev s = Some (Ok (), s)) ∧
  (Some (ev_conn ev) = s_conn s → s_ptmx s = Some p →
    match ev_msg ev with
    | Err _ => handleStreamEvent ev s = closeConn s
    | Ok (Data sq payload) =>
      ∀ r p', pty_Write payload p = Some (r, p') →
        handleStreamEvent ev s =
          match r with
          | Ok _ => Some (Ok (), set_recvSeq sq (set_ptmx (Some p') s))
          | Err _ => Some (Ok (), set_ptmx (Some p') s)
          | Panicked q => Some (Panicked q, set_ptmx (Some p') s)
          end
    | Ok Shutdown => ∃ e, handleStreamEvent ev s = Some (Err e, s)
    | Ok (Resize rows cols) =>
      ∀ r p', pty_Setsize (MkWinsize rows cols 0 0) p = Some (r, p') → panics r = false →
        handleStreamEvent ev s = Some (Ok (), set_ptmx (Some p') s)
    | Ok _ => handleStreamEvent ev s = Some (Ok (), s)
    | Panicked _ => True
    end).
Proof.
  unfold handleStreamEvent. rewrite bind_get. split.
  - intros Hne. by rewrite bool_decide_eq_false_2.
  - intros Heq Hp. rewrite bool_decide_eq_true_2 by done. cbn [negb].
    destruct (ev_msg ev) as [m|e|q]; [|done|done]. rewrite bind_get, Hp.
    destruct m as [| | | |rows cols| | |sq pl]; try done.
    + intros r p' Hw Hr. unfold io_bind, io_try, on_ptmx, resizePTY. rewrite Hp, Hw. by destruct r.
    + by eexists.
    + intros r p' Hw. unfold io_bind, io_try, on_ptmx. rewrite Hp, Hw. by destruct r.
Qed.
End properties.

(** ** Instances of the properties

    A session over QUIC connections and an in-memory PTY: a client connects,
    the shell prints, and the coalescing timer fires. *)

Definition ex_cfg : Config := MkConfig "s1" 0 [] 0.
Definition ex_conn (last : Z) : quicConn :=
  QuicConn
    (Wire (Reader (frames [TerminalInfo "xterm"; Resize 24 80]) None) (Writer [] None None) false false 0)
    (Wire (Reader [] None) (Writer [] None None) false false 0) last false None.

Lemma ex_accepted (s : Session (C := quicConn) (P := memPty)) last :
  is_uint 64 last → accepted False s (ex_conn last).
Proof.
  intros Hl. split; [|split; [done|done]]. exists []. split.
  - split; [constructor|]. exists []. by split_and!; [|left|].
  - exists []. split; [|done]. split; [constructor|]. exists []. by split_and!; [|left|].
Qed.

Lemma ex_reach0 :
  ∃ s : Session (C := quicConn) (P := memPty),
    reach "" [] False ex_cfg 0 [] s (Locals false false 0) ∧ s_conns s = ∅ ∧ New ex_cfg 0 = Some s.
Proof. eexists. split; [by apply reach_new|done]. Qed.

Lemma ex_reach :
  ∃ (s : Session (C := quicConn) (P := memPty)) l,
    reach "" [] False ex_cfg 3 [x24; x20] s l ∧ s_conn s = Some 0%nat ∧ s_sendSeq s = 1.
Proof.
  do 2 eexists. split.
  - change 3 with (0 + 1 + 1 + 1). change [x24; x20] with (([] ++ [x24; x20]) ++ @nil byte).
    eapply (reach_event _ _ _ _ _ _ _ _ (5 * Millisecond) EvCoalTimer).
    + eapply (reach_event _ _ _ _ _ _ _ _ (2 * Millisecond) (EvPty (Some [x24; x20]))).
      * eapply (reach_accept _ _ _ _ _ _ _ _ Millisecond 0%nat (ex_conn 0) None);
          [by apply (reach_new _ _ _ _ 0)|done|by apply ex_accepted|vm_compute; reflexivity].
      * vm_compute. by split; [|split; [|intros ?]].
      * done.
      * vm_compute. reflexivity.
    + vm_compute. by eexists.
    + done.
    + vm_compute. reflexivity.
  - done.
Qed.

Lemma session_streams_witness :
  ∃ (s : Session (C := quicConn) (P := memPty)), s_conn s = Some 0%nat ∧ s_sendSeq s = 1 ∧
  ∃ hist,
    List.concat hist ++ coalesce.buf (s_coal s) = [x24; x20] ∧ s_sendSeq s = len hist ∧
    Forall (λ p, 0 < len p < 65536) hist ∧
    (∀ i, s_conn s = Some i → s_ptmx s ≠ None ∧
      ∃ c cs k, s_conns s !! i = Some c ∧ (k ≤ List.length hist)%nat ∧
        sent c cs (run_from (start (ReplaySize ex_cfg) (take k hist) (LastClientSeq c)) hist)) ∧
    (∀ i c, s_conns s !! i = Some c → ∃ cs ds k, sent c cs ds ∧ (k ≤ List.length hist)%nat ∧
      ds `prefix_of` run_from (start (ReplaySize ex_cfg) (take k hist) (LastClientSeq c)) hist).
Proof.
  destruct ex_reach as (s & l & Hr & Hc & Hs). exists s. split; [done|]. split; [done|].
  apply (session_streams "" [] ex_cfg 3 [x24; x20] s l Hr). lia.
Defined.

Lemma reconnect_resumes_witness :
  ∃ (s' : Session (C := quicConn) (P := memPty)) hist c' cs,
    List.concat hist = [] ∧ s_sendSeq s' = len hist ∧ s_conn s' = Some 0%nat ∧ s_conns s' !! 0%nat = Some c' ∧
    sent c' cs (run_from (start (ReplaySize ex_cfg) hist 0) hist) ∧
    (0 <= len hist →
     catchup.total (catchup.numbered 0 (drop (Z.to_nat 0) hist)) <= catchup.maxSize (catchup.New (ReplaySize ex_cfg)) →
     len hist - 0 <= catchup.capacity (catchup.New (ReplaySize ex_cfg)) →
     start (ReplaySize ex_cfg) hist 0 = 0).
Proof.
  destruct ex_reach0 as (s & Hr & He & Hn). injection Hn as <-. eexists.
  eapply (reconnect_resumes "" [] ex_cfg 0 [] _ _ 0%nat (ex_conn 0) Millisecond _ Hr).
  - lia.
  - done.
  - by apply ex_accepted.
  - vm_compute. reflexivity.
  - done.
Defined.

Definition ex_broken_pty : memPty := MemPty (MkWinsize 24 80 0 0) (Writer [] (Some 1) (Some EOF)) false.

Definition ex_session_with (p : memPty) : Session (C := quicConn) (P := memPty) :=
  MkSession ex_cfg (Some p) (catchup.New 0) (coalesce.MkCoalescer [] (MkTimer None) false) (Some 0%nat) 0 4
    true true [] {[0%nat := ex_conn 0]}.
End session.
