(* ===== verification/Listen.v ===== *)
(** * Opening and closing the listeners ([session_listener.go], [tcp_listener.go], [dual_listener.go], [tls.go])

    What a session does before it can accept: its ephemeral certificate, the
    settings of TLS and QUIC, a UDP socket with a QUIC listener, and a TCP
    listener on the same port.  The network libraries and crypto/x509 are an
    interface, [NetLib]; [NetLaws] states what the code relies on, and a
    simulated host shows that the laws can hold.  What the theorems show: a
    session that starts listens on one port on both transports, one that does
    not leaves nothing listening, and closing closes both. *)

From S2P Require Import Prelude GoIO GoStrings Transport Handshake Session.
Import gostrings.
Open Scope go_scope.

Module listen.

Definition alpnProtocol : string := "goet-v1".
Definition VersionTLS13 : Z := 0x0304.
Definition Minute : Z := 60 * Second.
Definition Hour : Z := 60 * Minute.

(** [x509.Certificate], the fields that are set; the key usages are sets of
    constants of the package. *)
Record x509Certificate : Type := X509 {
  SerialNumber : Z;
  NotBefore : Z;
  NotAfter : Z;
  KeyUsage : list string;
  ExtKeyUsage : list string;
}.

(** [quic.Config] *)
Record quicConfig : Type := QuicConfig {
  MaxIdleTimeout : Z;
  KeepAlivePeriod : Z;
  InitialPacketSize : Z;
}.

(** [Key] is a private key. *)
Section listen.
Context {Key : Type}.

Record tlsCertificate : Type := TlsCertificate { Certificate : list bytes; PrivateKey : Key }.

Record tlsConfig : Type := TlsConfig {
  Certificates : list tlsCertificate;
  InsecureSkipVerify : bool;
  NextProtos : list string;
  MinVersion : Z;
}.

(** [ServerTLSConfig] *)
Definition ServerTLSConfig (cert : tlsCertificate) : tlsConfig :=
  TlsConfig [cert] false [alpnProtocol] VersionTLS13.

(** [ClientTLSConfig] *)
Definition ClientTLSConfig : tlsConfig := TlsConfig [] true [alpnProtocol] VersionTLS13.

(** ** The libraries

    Sockets and listeners are named by numbers.  [rand_Int n] is below [n];
    [x509_CreateCertificate template parent key] is signed with [key]. *)
Class NetLib (W : Type) : Type := {
  time_Now : io W Z;
  ecdsa_GenerateKey : io W Key;
  rand_Int : Z → io W Z;
  x509_CreateCertificate : x509Certificate → x509Certificate → Key → io W bytes;
  net_ListenUDP : Z → io W nat;
  udp_LocalPort : nat → W → Z;
  udp_Close : nat → io W ();
  quic_Listen : nat → tlsConfig → quicConfig → io W nat;
  quicln_Close : nat → io W ();
  transport_Close : nat → io W ();
  tls_Listen : string → tlsConfig → io W nat;
  tcp_LocalPort : nat → W → Z;
  tcpln_Close : nat → io W ();
}.

Record quicListener : Type := QuicListener { ql_tr : nat; ql_ln : nat; ql_port : Z; ql_passkey : bytes }.
Record tcpListener : Type := TcpListener { tl_ln : nat; tl_port : Z; tl_passkey : bytes }.

(** [dualListener]: the two listeners and the port; the channel, the
    cancellation and the accept loops are [Handshake.dualListener]. *)
Record boundListener {C : Type} : Type := BoundListener {
  bl_quic : quicListener;
  bl_tcp : tcpListener;
  bl_port : Z;
  bl_loops : dualListener (C := C);
}.
#[global] Arguments boundListener : clear implicits.
#[global] Arguments BoundListener {_} _ _ _ _.

Context {W : Type} `{NetLib W} {C : Type} `{Conn C}.

(** ** Opening *)

(** The certificate is its own issuer. *)
Definition cert_template (serial before after : Z) : x509Certificate :=
  X509 serial (before - Minute) (after + 24 * Hour) ["DigitalSignature"%string] ["ServerAuth"%string].

Definition GenerateSelfSignedCert : io W tlsCertificate :=
  key <- ecdsa_GenerateKey ;;
  serial <- rand_Int (Z.shiftl 1 128) ;;
  before <- time_Now ;;
  after <- time_Now ;;
  let tmpl := cert_template serial before after in
  certDER <- x509_CreateCertificate tmpl tmpl key ;;
  io_ret (TlsCertificate [certDER] key).

Definition quicConf : quicConfig := QuicConfig (30 * Second) (10 * Second) 1200.

Definition listenQUIC (port : Z) (passkey : bytes) (cert : tlsCertificate) : io W quicListener :=
  udpConn <- io_wrap "listen UDP: %w" (net_ListenUDP port) ;;
  ln <- io_try (quic_Listen udpConn (ServerTLSConfig cert) quicConf) ;;
  match ln with
  | Err err => io_try (udp_Close udpConn) ;; io_lift (Err (ErrWrap "QUIC listen: %w" err))
  | Panicked p => io_lift (Panicked p)
  | Ok ln =>
    localPort <- (λ w, Some (Ok (udp_LocalPort udpConn w), w)) ;;
    io_ret (QuicListener udpConn ln localPort passkey)
  end.

(** [Listen]: QUIC alone. *)
Definition Listen (port : Z) (passkey : bytes) : io W quicListener :=
  cert <- io_wrap "generate TLS cert: %w" GenerateSelfSignedCert ;;
  listenQUIC port passkey cert.

Definition listenTCP (port : Z) (passkey : bytes) (cert : tlsCertificate) : io W tcpListener :=
  ln <- io_wrap "TCP+TLS listen: %w" (tls_Listen (":" +:+ Itoa port) (ServerTLSConfig cert)) ;;
  localPort <- (λ w, Some (Ok (tcp_LocalPort ln w), w)) ;;
  io_ret (TcpListener ln localPort passkey).

(** [(l *quicListener) Close]: the error of the first close is dropped. *)
Definition quic_listener_Close (l : quicListener) : io W () :=
  io_try (quicln_Close (ql_ln l)) ;; transport_Close (ql_tr l).

(** [(l *tcpListener) Close] *)
Definition tcp_listener_Close (l : tcpListener) : io W () := tcpln_Close (tl_ln l).

Definition ListenDual (port : Z) (passkey : bytes) : io W (boundListener C) :=
  cert <- io_wrap "generate TLS cert: %w" GenerateSelfSignedCert ;;
  ql <- io_wrap "QUIC listen: %w" (listenQUIC port passkey cert) ;;
  tl <- io_try (listenTCP (ql_port ql) passkey cert) ;;
  match tl with
  | Err err => io_try (quic_listener_Close ql) ;; io_lift (Err (ErrWrap "TCP listen on port %d: %w" err))
  | Panicked p => io_lift (Panicked p)
  | Ok tl => io_ret (BoundListener ql tl (ql_port ql) newDualListener)
  end.

(** [(dl *dualListener) Port] *)
Definition dual_Port (dl : boundListener C) : Z := bl_port dl.

(** [(dl *dualListener) Close], with the connections it closes and the state
    of the accept loops after it. *)
Definition dual_listener_Close (dl : boundListener C) : io W (boundListener C * list C * res ()) :=
  tcpErr <- io_try (tcp_listener_Close (bl_tcp dl)) ;;
  quicErr <- io_try (quic_listener_Close (bl_quic dl)) ;;
  let '(loops, closed, r) := dual_Close (bl_loops dl) tcpErr quicErr in
  io_ret (BoundListener (bl_quic dl) (bl_tcp dl) (bl_port dl) loops, closed, r).

(** The start of [Run]: the listener and the session's [Port]. *)
Definition run_listen (cfg : session.Config) : io W (boundListener C * Z) :=
  ln <- io_wrap "listen: %w" (ListenDual (session.Port cfg) (session.Passkey cfg)) ;;
  io_ret (ln, dual_Port ln).
End listen.

(** ** What the code relies on

    The view of a host: its listeners, and its UDP sockets with their ports.
    No call panics or blocks; a socket that is opened has the port that was
    asked for, if one was, and no listener yet; a listener that is closed is
    gone, with its transport every listener on that socket. *)

Inductive endpoint : Type := UDPOn (sock : nat) (port : Z) | TCPOn (port : Z).

Abbreviation host := (gmap nat endpoint * gmap nat Z)%type.

(** The call returns, without a panic, and [P] holds of the result and the
    view after it. *)
Definition settles {W X A} `{View W X} (op : io W A) (w : W) (P : res A → X → Prop) : Prop :=
  ∃ r w', op w = Some (r, w') ∧ panics r = false ∧ P r (view w').

Definition is_port (asked p : Z) : Prop := 0 < p < 65536 ∧ (asked ≠ 0 → p = asked).

Definition on_socket (s : nat) (e : endpoint) : bool :=
  match e with UDPOn s' _ => bool_decide (s' = s) | TCPOn _ => false end.

(** No listener on the socket. *)
Definition unused (s : nat) (x : host) : Prop := ∀ l e, x.1 !! l = Some e → on_socket s e = false.

Class NetLaws {Key} (W : Type) `{NetLib Key W, View W host} : Prop := {
  Now_settles w : settles time_Now w (λ _ x, x = view w);
  GenerateKey_settles w : settles ecdsa_GenerateKey w (λ _ x, x = view w);
  Int_settles n w : 0 < n → settles (rand_Int n) w (λ r x, x = view w ∧ ∀ z, r = Ok z → 0 <= z < n);
  CreateCertificate_settles t1 t2 key w : settles (x509_CreateCertificate t1 t2 key) w (λ _ x, x = view w);
  ListenUDP_settles port w : settles (net_ListenUDP port) w (λ r x,
    match r with
    | Ok s => (view w).2 !! s = None ∧ unused s (view w) ∧
              ∃ p, is_port port p ∧ x = ((view w).1, <[s := p]> (view w).2)
    | _ => x = view w end);
  udp_port s p w : (view w).2 !! s = Some p → udp_LocalPort s w = p;
  udp_Close_settles s w : unused s (view w) →
    settles (udp_Close s) w (λ _ x, x = ((view w).1, delete s (view w).2));
  quic_Listen_settles s p conf quic w : (view w).2 !! s = Some p → settles (quic_Listen s conf quic) w (λ r x,
    match r with
    | Ok l => (view w).1 !! l = None ∧ x = (<[l := UDPOn s p]> (view w).1, (view w).2)
    | _ => x = view w end);
  quicln_Close_settles l w : settles (quicln_Close l) w (λ _ x, x = (delete l (view w).1, (view w).2));
  transport_Close_settles s w : settles (transport_Close s) w (λ _ x,
    x.1 = filter (λ le, on_socket s le.2 = false) (view w).1 ∧ delete s x.2 = delete s (view w).2);
  tls_Listen_settles port conf w : 0 <= port < 65536 → settles (tls_Listen (":" +:+ Itoa port) conf) w (λ r x,
    match r with
    | Ok l => (view w).1 !! l = None ∧ ∃ p, is_port port p ∧ x = (<[l := TCPOn p]> (view w).1, (view w).2)
    | _ => x = view w end);
  tcp_port l p w : (view w).1 !! l = Some (TCPOn p) → tcp_LocalPort l w = p;
  tcpln_Close_settles l w : settles (tcpln_Close l) w (λ _ x, x = (delete l (view w).1, (view w).2));
}.

(** ** Rules for calls that settle *)

Section settles.
Context {W X : Type} `{View W X}.

Lemma settles_mono {A} (op : io W A) w P Q : settles op w P → (∀ r x, P r x → Q r x) → settles op w Q.
Proof. intros (r & w' & E & Hp & Hx) HPQ. exists r, w'. auto. Qed.

Lemma settles_lift {A} (r : res A) w (P : res A → X → Prop) : panics r = false → P r (view w) → settles (io_lift r) w P.
Proof. intros Hp Hx. by exists r, w. Qed.

Lemma settles_ret {A} (a : A) w (P : res A → X → Prop) : P (Ok a) (view w) → settles (io_ret a) w P.
Proof. by apply (settles_lift (Ok a)). Qed.

Lemma settles_bind {A B} (c : io W A) (k : A → io W B) w P Q :
  settles c w P → (∀ e x, P (Err e) x → Q (Err e) x) →
  (∀ a w1, P (Ok a) (view w1) → settles (k a) w1 Q) → settles (io_bind c k) w Q.
Proof.
  intros (r & w1 & E & Hp & Hx) He Hk. unfold settles, io_bind. rewrite E. destruct r as [a|e|p]; [|by eexists _, _; eauto|done].
  by apply Hk.
Qed.

(** A call whose error is inspected. *)
Lemma settles_try {A B} (c : io W A) (k : res A → io W B) w P Q :
  settles c w P → (∀ r w1, panics r = false → P r (view w1) → settles (k r) w1 Q) →
  settles (io_bind (io_try c) k) w Q.
Proof.
  intros (r & w1 & E & Hp & Hx) Hk. unfold settles, io_bind, io_try. rewrite E. destruct r as [a|e|p]; [| |done].
  - by apply (Hk (Ok a)).
  - by apply (Hk (Err e)).
Qed.

Lemma settles_bind_wrap {A B} text (c : io W A) (k : A → io W B) w P Q :
  settles c w P → (∀ e x, P (Err e) x → Q (Err (ErrWrap text e)) x) →
  (∀ a w1, P (Ok a) (view w1) → settles (k a) w1 Q) → settles (io_bind (io_wrap text c) k) w Q.
Proof.
  intros (r & w1 & E & Hp & Hx) He Hk. unfold settles, io_bind, io_wrap. rewrite E.
  destruct r as [a|e|p]; simpl; [by apply Hk|by eexists _, _; eauto|done].
Qed.

Lemma settles_read {A B} (f : W → A) (k : A → io W B) w (Q : res B → X → Prop) :
  settles (k (f w)) w Q → settles (io_bind (λ w, Some (Ok (f w), w)) k) w Q.
Proof. done. Qed.
End settles.

Section laws.
Context {Key W : Type} `{NetLaws Key W} {C : Type} `{Conn C}.

(** The certificate is valid from a minute ago for a day. *)
Lemma GenerateSelfSignedCert_settles w : settles GenerateSelfSignedCert w (λ _ x, x = view w).
Proof.
  unfold GenerateSelfSignedCert. eapply settles_bind; [apply GenerateKey_settles|done|]. intros key w1 Hx1.
  eapply settles_bind; [by apply Int_settles|by intros e x [-> _]|]. intros serial w2 [Hx2 Hs].
  eapply settles_bind; [apply Now_settles|intros; congruence|]. intros t1 w3 Hx3.
  eapply settles_bind; [apply Now_settles|intros; congruence|]. intros t2 w4 Hx4.
  eapply settles_bind; [apply CreateCertificate_settles|intros; congruence|]. intros der w5 Hx5.
  apply settles_ret. congruence.
Qed.

Lemma listenQUIC_settles port passkey cert w : settles (listenQUIC port passkey cert) w (λ r x,
  match r with
  | Ok l => ∃ s q p, l = QuicListener s q p passkey ∧ is_port port p ∧ (view w).1 !! q = None ∧
      unused s (view w) ∧ (view w).2 !! s = None ∧ x = (<[q := UDPOn s p]> (view w).1, <[s := p]> (view w).2)
  | _ => x = view w end).
Proof.
  unfold listenQUIC. eapply settles_bind_wrap; [apply ListenUDP_settles|intros e x Hx; exact Hx|].
  intros s w1 (Hs & Hu & p & Hp & Hx1). unfold unused in *.
  assert ((view w1).2 !! s = Some p) as Hs1 by (rewrite Hx1; simpl; by rewrite lookup_insert_eq).
  eapply settles_try; [by apply quic_Listen_settles|]. intros [q|e|pa] w2 Hpa Hx2; [| |done].
  - destruct Hx2 as [Hq Hx2]. rewrite Hx1 in Hq, Hx2. simpl in Hq, Hx2.
    apply settles_read, settles_ret. rewrite (udp_port s p) by (rewrite Hx2; simpl; by rewrite lookup_insert_eq).
    by exists s, q, p.
  - eapply settles_try; [apply udp_Close_settles|].
    { unfold unused. rewrite Hx2, Hx1. exact Hu. }
    intros r w3 _ Hx3. apply settles_lift; [done|]. rewrite Hx3, Hx2, Hx1. simpl. rewrite delete_insert_id by done.
    by destruct (view w).
Qed.

Lemma listenTCP_settles port passkey cert w : 0 <= port < 65536 → settles (listenTCP port passkey cert) w (λ r x,
  match r with
  | Ok l => ∃ t p, l = TcpListener t p passkey ∧ is_port port p ∧ (view w).1 !! t = None ∧
      x = (<[t := TCPOn p]> (view w).1, (view w).2)
  | _ => x = view w end).
Proof.
  intros Hrange. unfold listenTCP. eapply settles_bind_wrap; [by apply tls_Listen_settles|intros e x Hx; exact Hx|].
  intros t w1 (Ht & p & Hp & Hx). apply settles_read, settles_ret.
  rewrite (tcp_port t p) by (rewrite Hx; simpl; by rewrite lookup_insert_eq). by exists t, p.
Qed.

(** Closing it closes every listener of its transport. *)
Lemma quic_listener_Close_settles l w : settles (quic_listener_Close l) w (λ _ x,
  x.1 = filter (λ le, on_socket (ql_tr l) le.2 = false) (delete (ql_ln l) (view w).1)).
Proof.
  unfold quic_listener_Close. eapply settles_try; [apply quicln_Close_settles|]. intros r w1 _ Hx1.
  eapply settles_mono; [apply transport_Close_settles|]. intros r2 x [-> _]. by rewrite Hx1.
Qed.

Lemma filter_unused s (x : host) : unused s x → filter (λ le : nat * endpoint, on_socket s le.2 = false) x.1 = x.1.
Proof. intros Hu. apply map_filter_id. exact Hu. Qed.

(** Closing both listeners of [x0] with a listener added on each transport. *)
Lemma dual_listener_Close_settles (x0 : host) s q t p passkey loops (w : W) :
  unused s x0 → x0.1 !! q = None → x0.1 !! t = None → q ≠ t →
  (view w).1 = <[t := TCPOn p]> (<[q := UDPOn s p]> x0.1) →
  settles (dual_listener_Close (C := C) (BoundListener (QuicListener s q p passkey) (TcpListener t p passkey) p loops)) w
    (λ r x, x.1 = x0.1 ∧ ∃ l err,
       r = Ok (l, dual_drain (ch_buf (dl_connCh loops)), err) ∧ dl_cancelled (bl_loops l) = true).
Proof.
  intros Hu Hq Ht Hne Hw. unfold dual_listener_Close. eapply settles_try; [apply tcpln_Close_settles|]. intros r1 w1 _ Hx1.
  eapply settles_try; [apply quic_listener_Close_settles|]. intros r2 w2 _ Hx2.
  apply settles_ret. split; [|by eexists _, _].
  rewrite Hx2, Hx1. simpl. rewrite Hw, delete_insert_id by (by rewrite lookup_insert_ne).
  rewrite delete_insert_id by done. by apply filter_unused.
Qed.
End laws.

(** ** Properties *)

Section properties.
Context {Key W : Type} `{NetLaws Key W} {C : Type} `{Conn C}.

(** What [ListenDual] leaves, of a host that was [x0]. *)
Definition opened (port : Z) (passkey : bytes) (x0 : host) (r : res (boundListener C)) (x : host) : Prop :=
  match r with
  | Ok l =>
    ∃ s q t p,
      is_port port p ∧ dual_Port l = p ∧
      l = BoundListener (QuicListener s q p passkey) (TcpListener t p passkey) p newDualListener ∧
      x0.1 !! q = None ∧ x0.1 !! t = None ∧ q ≠ t ∧ x.1 = <[t := TCPOn p]> (<[q := UDPOn s p]> x0.1) ∧
      ∀ loops w1, (view w1).1 = x.1 →
        settles (dual_listener_Close (BoundListener (bl_quic l) (bl_tcp l) p loops)) w1 (λ r' (x' : host),
          x'.1 = x0.1 ∧ ∃ l' err,
            r' = Ok (l', dual_drain (ch_buf (dl_connCh loops)), err) ∧ dl_cancelled (bl_loops l') = true)
  | Err e => x.1 = x0.1 ∧ (x.2 = x0.2 ∨ ∃ e', e = ErrWrap "TCP listen on port %d: %w" e')
  | Panicked _ => False
  end.

(** Opening the listeners.  [ListenDual] returns.  If it succeeds, a QUIC
    and a TCP listener have been added on one and the same port, the requested
    one if one was requested; that port is the listener's [Port], both carry the
    passkey, and both accept loops start with an empty queue.  Closing it later,
    in any state of the loops, removes exactly these two and closes every
    connection still queued.  If it fails, nothing listens that did not before, and
    the UDP socket is closed too unless it was the TCP port that could not be bound. *)
Theorem listen_dual_one_port port passkey (w : W) :
  settles (ListenDual (C := C) port passkey) w (opened port passkey (view w)).
Proof.
  unfold ListenDual, opened. eapply settles_bind_wrap; [apply GenerateSelfSignedCert_settles|by intros e x ->; auto|].
  intros cert w1 Hx1. eapply settles_bind_wrap; [apply listenQUIC_settles| |].
  { intros e x ->. rewrite Hx1. auto. }
  intros ql w2 (s & q & p & -> & Hp & Hq & Hu & Hs & Hx2). rewrite Hx1 in *. simpl.
  eapply settles_try; [apply listenTCP_settles; destruct Hp; lia|]. intros [tl|e|pa] w3 Hpa Hx3; [| |done].
  - destruct Hx3 as (t & p' & -> & Hp' & Ht & Hx3). rewrite Hx2 in Ht, Hx3. simpl in Ht, Hx3.
    apply lookup_insert_None in Ht as [Ht Hne]. assert (p' = p) as -> by (apply Hp'; destruct Hp; lia).
    apply settles_ret. rewrite Hx3. exists s, q, t, p. simpl. split_and!; try done.
    intros loops w4 Hw4. by apply dual_listener_Close_settles.
  - eapply settles_try; [apply quic_listener_Close_settles|]. intros r w4 _ Hx4.
    apply settles_lift; [done|]. split; [|right; by exists e]. rewrite Hx4, Hx3, Hx2. simpl.
    rewrite delete_insert_id by done. by apply filter_unused.
Qed.
End properties.

(** ** A simulated host

    The TCP ports that are taken, the port that is given when none is asked
    for, and the name of the next socket or listener. *)

Record simHost : Type := SimHost {
  sh_taken : list Z;
  sh_any : Z;
  sh_next : nat;
  sh_host : host;
}.

#[export] Instance simHost_view : View simHost host := sh_host.

Definition sim_set (x : host) (w : simHost) : simHost := SimHost (sh_taken w) (sh_any w) (S (sh_next w)) x.

(** The port that is given, if it is one. *)
Definition sim_port (asked : Z) (w : simHost) : option Z :=
  let p := if asked =? 0 then sh_any w else asked in
  if (0 <? p) && (p <? 65536) then Some p else None.

Definition in_use : error := ErrNew "address already in use".

#[export] Instance sim_unused_dec s x : Decision (unused s x).
Proof. refine (map_Forall_dec (λ (_ : nat) e, on_socket s e = false) x.1). intros i e. apply _. Defined.

Definition sim_ListenUDP (port : Z) : io simHost nat := λ w,
  let s := sh_next w in
  match sim_port port w with
  | Some p => if bool_decide ((sh_host w).2 !! s = None ∧ unused s (sh_host w))
              then Some (Ok s, sim_set ((sh_host w).1, <[s := p]> (sh_host w).2) w) else Some (Err in_use, w)
  | None => Some (Err in_use, w)
  end.

Definition sim_add (e : endpoint) : io simHost nat := λ w,
  let l := sh_next w in
  if bool_decide ((sh_host w).1 !! l = None)
  then Some (Ok l, sim_set (<[l := e]> (sh_host w).1, (sh_host w).2) w) else Some (Err in_use, w).

Definition sim_tls_Listen (addr : string) : io simHost nat := λ w,
  match Atoi (bytes_string (drop 1 (string_bytes addr))) with
  | (port, None) =>
    match sim_port port w with
    | Some p => if bool_decide (p ∈ sh_taken w) then Some (Err in_use, w) else sim_add (TCPOn p) w
    | None => Some (Err in_use, w)
    end
  | (_, Some e) => Some (Err e, w)
  end.

#[export] Instance simHost_lib : NetLib (Key := ()) simHost := {|
  time_Now := io_ret 0;
  ecdsa_GenerateKey := io_ret ();
  rand_Int n := io_ret (n - 1);
  x509_CreateCertificate _ _ _ := io_ret [];
  net_ListenUDP := sim_ListenUDP;
  udp_LocalPort s w := default 0 ((sh_host w).2 !! s);
  udp_Close s := λ w, Some (Ok (), sim_set ((sh_host w).1, delete s (sh_host w).2) w);
  quic_Listen s _ _ := λ w,
    match (sh_host w).2 !! s with Some p => sim_add (UDPOn s p) w | None => Some (Err in_use, w) end;
  quicln_Close l := λ w, Some (Ok (), sim_set (delete l (sh_host w).1, (sh_host w).2) w);
  transport_Close s := λ w,
    Some (Ok (), sim_set (filter (λ le, on_socket s le.2 = false) (sh_host w).1, delete s (sh_host w).2) w);
  tls_Listen addr _ := sim_tls_Listen addr;
  tcp_LocalPort l w := match (sh_host w).1 !! l with Some (TCPOn p) => p | _ => 0 end;
  tcpln_Close l := λ w, Some (Ok (), sim_set (delete l (sh_host w).1, (sh_host w).2) w);
|}.

Lemma sim_port_is port w p : sim_port port w = Some p → is_port port p.
Proof.
  unfold sim_port, is_port. destruct (Z.eqb_spec port 0), (_ && _) eqn:E; try done; intros [= <-];
    apply andb_prop in E as [?%Z.ltb_lt ?%Z.ltb_lt]; lia.
Qed.

(** A call that has just been evaluated. *)
Ltac settled := eexists _, _; split; [reflexivity|]; split; [reflexivity|].

Lemma sim_add_settles e w : settles (sim_add e) w (λ r (x : host),
  match r with
  | Ok l => (view w).1 !! l = None ∧ x = (<[l := e]> (view w).1, (view w).2)
  | _ => x = view w end).
Proof. unfold settles, sim_add. case_bool_decide; by settled. Qed.

#[export] Instance simHost_laws : NetLaws (Key := ()) simHost.
Proof.
  split.
  - intros w. by settled.
  - intros w. by settled.
  - intros n w Hn. settled. split; [done|]. intros z [= <-]. lia.
  - intros t1 t2 key w. by settled.
  - intros port w. unfold settles. simpl. unfold sim_ListenUDP. destruct (sim_port port w) as [p|] eqn:Ep; [|by settled].
    case_bool_decide as Hb; settled; [|done]. destruct Hb as [Hs Hu]. split; [done|]. split; [done|].
    exists p. split; [by eapply sim_port_is|done].
  - intros s p w Hs. simpl. unfold view, simHost_view in Hs. by rewrite Hs.
  - intros s w _. by settled.
  - intros s p conf quic w Hs. simpl. unfold view, simHost_view in Hs. unfold settles. rewrite Hs.
    apply (sim_add_settles (UDPOn s p)).
  - intros l w. by settled.
  - intros s w. settled. split; [done|]. simpl. by rewrite delete_delete_eq.
  - intros port conf w Hp. unfold settles. simpl. unfold sim_tls_Listen. rewrite string_bytes_app.
    change (drop 1 (string_bytes ":" ++ string_bytes (Itoa port))) with (string_bytes (Itoa port)).
    rewrite bytes_string_of. unfold Atoi. rewrite ParseInt_Itoa by lia.
    destruct (sim_port port w) as [p|] eqn:Ep; [|by settled]. case_bool_decide; [by settled|].
    destruct (sim_add_settles (TCPOn p) w) as (r & w' & E & Hr & Hx). exists r, w'. split; [done|]. split; [done|].
    destruct r as [l| |]; [|done..]. destruct Hx as [Hl Hx]. split; [done|]. exists p. split; [by eapply sim_port_is|done].
  - intros l p w Hl. simpl. unfold view, simHost_view in Hl. by rewrite Hl.
  - intros l w. by settled.
Qed.

(** Nothing is taken but TCP port 22: any port can be had, and 22 cannot. *)
Definition ex_host : simHost := SimHost [22] 40000 0 (∅, ∅).
Definition ex_key : bytes := replicate 32 x2a.

Lemma listen_dual_one_port_witness :
  (∃ l w', ListenDual (C := quicConn) 0 ex_key ex_host = Some (Ok l, w') ∧ dual_Port l = 40000) ∧
  settles (ListenDual (C := quicConn) 0 ex_key) ex_host (opened 0 ex_key (∅, ∅)).
Proof.
  split.
  - do 2 eexists. split; [vm_compute; reflexivity|reflexivity].
  - exact (listen_dual_one_port (C := quicConn) 0 ex_key ex_host).
Defined.

(** Port 22 is taken on TCP: nothing is left listening. *)
Example ex_taken :
  (λ x : res (boundListener quicConn) * simHost, (is_ok x.1, sh_host x.2)) <$> ListenDual 22 ex_key ex_host =
  Some (false, (∅, ∅)).
Proof. vm_compute. reflexivity. Qed.
End listen.
