(* ===== verification/SessionRun.v ===== *)
(** * The session's main function and its goroutines ([Run] in [internal/session/session.go])

    [Session] models the handlers of the event loop, which may be given any
    event; here is where the events come from.  [Run] opens the listener and
    starts [acceptLoop]; a new connection starts two readers, the first one
    also [readPTY] and [waitShell]; each goroutine hands what it has to the
    loop over a channel of its capacity, and the select takes from a channel
    that is ready.  Any goroutine may move next.  What the theorems show: every
    run is one of [Session.session.reach]; nothing is lost, repeated or
    reordered between the goroutines and the loop, connections included.  How
    [Run] ends is modelled here and proved in [SessionEnd]: its deferred calls,
    with the grace period in which the shell may exit before it is killed. *)

From S2P Require Import Prelude GoIO Protocol Catchup Coalesce Transport Handshake Sender Pty Session Listen.
Open Scope go_scope.

Module sessionrun.
Import session listen.

Section run.
Context {Key W : Type} `{NetLib Key W} {C : Type} `{ConnLaws C} {P : Type} `{PtyLib P}.
Variables (SHELL : string) (environ : list string).
#[local] Abbreviation Session := (session.Session (C := C) (P := P)).

(** ** The state *)

(** Where [readPTY] is: in [Read], sending a chunk with [Read]'s error, or
    gone. *)
Inductive pty_pc : Type := PtyReading | PtySending (out : bytes) (last : bool) | PtyExited.

(** The network, the listener and the session's port; the session; the
    [acceptLoop] goroutines, each inside [Accept] or sending its result, and
    [acceptCh]; the readers with the event each is sending, and [streamCh];
    [readPTY] and [ptyDataCh]; [waitShell]: not started, waiting, or with
    [shellErr] set and [shellDone] closed. *)
Record srv : Type := Srv {
  v_net : W;
  v_ln : boundListener C;
  v_Port : Z;
  v_session : Session;
  v_acceptors : list (option (res C));
  v_acceptCh : chan (res C);
  v_readers : list ((nat * string) * option streamEvent);
  v_streamCh : chan streamEvent;
  v_pty : option pty_pc;
  v_ptyDataCh : chan bytes;
  v_shell : option (option (option error));
}.

Definition set_net (w : W) (v : srv) : srv :=
  Srv w (v_ln v) (v_Port v) (v_session v) (v_acceptors v) (v_acceptCh v) (v_readers v) (v_streamCh v) (v_pty v) (v_ptyDataCh v) (v_shell v).
Definition set_ln (ln : boundListener C) (v : srv) : srv :=
  Srv (v_net v) ln (v_Port v) (v_session v) (v_acceptors v) (v_acceptCh v) (v_readers v) (v_streamCh v) (v_pty v) (v_ptyDataCh v) (v_shell v).
Definition set_session (s : Session) (v : srv) : srv :=
  Srv (v_net v) (v_ln v) (v_Port v) s (v_acceptors v) (v_acceptCh v) (v_readers v) (v_streamCh v) (v_pty v) (v_ptyDataCh v) (v_shell v).
Definition set_accept (l : list (option (res C))) (ch : chan (res C)) (v : srv) : srv :=
  Srv (v_net v) (v_ln v) (v_Port v) (v_session v) l ch (v_readers v) (v_streamCh v) (v_pty v) (v_ptyDataCh v) (v_shell v).
Definition set_stream (l : list ((nat * string) * option streamEvent)) (ch : chan streamEvent) (v : srv) : srv :=
  Srv (v_net v) (v_ln v) (v_Port v) (v_session v) (v_acceptors v) (v_acceptCh v) l ch (v_pty v) (v_ptyDataCh v) (v_shell v).
Definition set_pty (p : option pty_pc) (ch : chan bytes) (v : srv) : srv :=
  Srv (v_net v) (v_ln v) (v_Port v) (v_session v) (v_acceptors v) (v_acceptCh v) (v_readers v) (v_streamCh v) p ch (v_shell v).
Definition set_shell (x : option (option (option error))) (v : srv) : srv :=
  Srv (v_net v) (v_ln v) (v_Port v) (v_session v) (v_acceptors v) (v_acceptCh v) (v_readers v) (v_streamCh v) (v_pty v) (v_ptyDataCh v) x.

(** ** The start of [Run], up to the loop *)

Definition start (cfg : Config) (now : Z) : io W srv :=
  ln <- run_listen cfg ;;
  (λ w, match New cfg now with
        | None => None
        | Some s => Some (Ok (Srv w ln.1 ln.2 s [None] (make_chan _ 1) [] (make_chan _ 8) None (make_chan _ 4) None), w)
        end).

(** ** The select

    The case that is taken; a connection that is received is given the unused
    name [i]. *)
Inductive choice : Type :=
| ChPty
| ChTimer
| ChStream
| ChAccept (i : nat) (ctx_err : option error)
| ChHeartbeat
| ChShellDone
| ChCtxDone (ctx_err : error).

(** What the case receives; [None] while it is not ready. *)
Definition receive (c : choice) (l : locals) (v : srv) : option (event * srv) :=
  match c with
  | ChPty =>
    if l_ptyDataCh l then
      '(d, ch) ← chan_recv (v_ptyDataCh v); Some (EvPty d, set_pty (v_pty v) ch v)
    else None
  | ChTimer => Some (EvCoalTimer, v)
  | ChStream =>
    match chan_recv (v_streamCh v) with
    | Some (Some ev, ch) => Some (EvStream ev, set_stream (v_readers v) ch v)
    | _ => None
    end
  | ChAccept i ctx_err =>
    match chan_recv (v_acceptCh v) with
    | Some (Some (Ok conn), ch) =>
      match s_conns (v_session v) !! i with
      | Some _ => None
      | None =>
        Some (EvAccept (Ok i) ctx_err,
              set_session (set_conns (<[i := conn]> (s_conns (v_session v))) (v_session v)) (set_accept (v_acceptors v) ch v))
      end
    | Some (Some (Err e), ch) => Some (EvAccept (Err e) ctx_err, set_accept (v_acceptors v) ch v)
    | _ => None
    end
  | ChHeartbeat => Some (EvHeartbeat, v)
  | ChShellDone =>
    if l_shellDone l then match v_shell v with Some (Some err) => Some (EvShellDone err, v) | _ => None end else None
  | ChCtxDone e => Some (EvCtxDone e, v)
  end.

(** What the [go] statements of an iteration start. *)
Definition new_readers (s s' : Session) : list ((nat * string) * option streamEvent) :=
  (λ r, (r, None)) <$> drop (List.length (s_readers s)) (s_readers s').

Definition spawned (s s' : Session) : bool := s_ptyDataCh s' && negb (s_ptyDataCh s).

Definition rearmed (c : choice) (r : res (locals + option error)) : list (option (res C)) :=
  match c, r with ChAccept _ _, Ok (inl _) => [None] | _, _ => [] end.

(** The state after the body of the case left the session [s']. *)
Definition resume (c : choice) (r : res (locals + option error)) (s' : Session) (v : srv) : srv :=
  let go := spawned (v_session v) s' in
  Srv (v_net v) (v_ln v) (v_Port v) s' (v_acceptors v ++ rearmed c r) (v_acceptCh v)
    (v_readers v ++ new_readers (v_session v) s') (v_streamCh v)
    (if go then Some PtyReading else v_pty v) (if go then make_chan _ 4 else v_ptyDataCh v)
    (if go then Some None else v_shell v).

(** One iteration. *)
Definition turn (c : choice) (now : Z) (l : locals) (v : srv) : option (res (locals + option error) * srv) :=
  match receive c l v with
  | None => None
  | Some (e, v) =>
    match handle SHELL environ l now e (v_session v) with
    | None => None
    | Some (r, s') => Some (r, resume c r s' v)
    end
  end.

(** ** The end of [Run]: its deferred calls *)

(** [waitShell], when [cmd.Wait] returns [err]. *)
Definition waitShell (err : option error) (v : srv) : option srv :=
  match v_shell v with Some None => Some (set_shell (Some (Some err)) v) | _ => None end.

Definition on_session {A} (c : io Session A) : io srv A := io_zoom v_session set_session c.
Definition on_net {A} (c : io W A) : io srv A := io_zoom v_net set_net c.

(** [s.ln.Close()], with the queued connections it closes. *)
Definition close_listener : io srv (list C) :=
  ln <- (λ v, Some (Ok (v_ln v), v)) ;;
  x <- on_net (dual_listener_Close ln) ;;
  (λ v, Some (Ok x.1.2, set_ln x.1.1 v)).

(** [shellDone] is closed. *)
Definition shell_closed (v : srv) : bool := match v_shell v with Some (Some _) => true | _ => false end.

(** [s.cleanupShell()]; [wait]: what [cmd.Wait] returns to [waitShell] within
    [shellExitGrace], if it does. *)
Definition cleanup (wait : option (option error)) : io srv bool := λ v,
  let v' := match wait with Some err => default v (waitShell err v) | None => v end in
  on_session (cleanupShell (shell_closed v) (shell_closed v')) v'.

(** The result says whether the shell is killed, and which queued connections
    were closed. *)
Definition deferred (wait : option (option error)) : io srv (bool * list C) :=
  on_session (modify (λ s, set_coal (coalesce.Stop (s_coal s)) s)) ;;
  on_session closeConn ;;
  queued <- close_listener ;;
  killed <- cleanup wait ;;
  io_ret (killed, queued).

(** A panic, of the loop or of a deferred call, becomes the error of [Run]. *)
Definition finish (wait : option (option error)) (r : res (locals + option error)) (v : srv) :
    option (res (locals + option error) * option (bool * list C) * srv) :=
  match deferred wait v with
  | None => None
  | Some (Ok x, v') => Some (recovered r, Some x, v')
  | Some (Err _, v') => Some (recovered r, None, v')
  | Some (Panicked p, v') => Some (recovered (Panicked p), None, v')
  end.

(** ** The goroutines *)

(** A step of reader [k]: it reads an event, or sends the one it has; after an
    error it is gone. *)
Definition reader_read (k : nat) (v : srv) : option (res streamEvent * srv) :=
  match v_readers v !! k with
  | Some ((i, stream), None) =>
    match on_session (readStream_iter i stream) v with
    | Some (Ok ev, v') => Some (Ok ev, set_stream (<[k := ((i, stream), Some ev)]> (v_readers v')) (v_streamCh v') v')
    | x => x
    end
  | _ => None
  end.

Definition reader_send (k : nat) (v : srv) : option srv :=
  match v_readers v !! k with
  | Some (key, Some ev) =>
    if chan_can_send (v_streamCh v)
    then Some (set_stream (if is_ok (ev_msg ev) then <[k := (key, None)]> (v_readers v) else delete k (v_readers v))
                 (chan_send (v_streamCh v) ev) v)
    else None
  | _ => None
  end.

(** A step of the [acceptLoop] goroutine [k]. *)
Definition acceptor_accept (k : nat) (done done_first : bool) (v : srv) : option (res C * srv) :=
  match v_acceptors v !! k with
  | Some None =>
    match dual_Accept (bl_loops (v_ln v)) done done_first with
    | Some (r, loops) =>
      Some (r, set_ln (BoundListener (bl_quic (v_ln v)) (bl_tcp (v_ln v)) (bl_port (v_ln v)) loops)
                 (set_accept (<[k := Some r]> (v_acceptors v)) (v_acceptCh v) v))
    | None => None
    end
  | _ => None
  end.

Definition acceptor_send (k : nat) (v : srv) : option srv :=
  match v_acceptors v !! k with
  | Some (Some r) =>
    if chan_can_send (v_acceptCh v) then Some (set_accept (delete k (v_acceptors v)) (chan_send (v_acceptCh v) r) v) else None
  | _ => None
  end.

(** A step of [readPTY], whose [Read] returns [data] and [err]. *)
Definition pty_exit (last : bool) (ch : chan bytes) : option pty_pc * chan bytes :=
  if last then (Some PtyExited, chan_close ch) else (Some PtyReading, ch).

Definition pty_read (data : bytes) (err : option error) (v : srv) : option srv :=
  match v_pty v with
  | Some PtyReading =>
    Some (match readPTY_iter data err with
          | (Some out, last) => set_pty (Some (PtySending out last)) (v_ptyDataCh v) v
          | (None, last) => let '(pc, ch) := pty_exit last (v_ptyDataCh v) in set_pty pc ch v
          end)
  | _ => None
  end.

Definition pty_send (v : srv) : option srv :=
  match v_pty v with
  | Some (PtySending out last) =>
    if chan_can_send (v_ptyDataCh v)
    then Some (let '(pc, ch) := pty_exit last (chan_send (v_ptyDataCh v) out) in set_pty pc ch v) else None
  | _ => None
  end.

(** ** Runs *)

(** [Run] in its loop, with what happened so far: the iterations, the bytes
    the loop received from the shell and those [readPTY] read, the events the
    readers read and those the loop received, the listener's own history, and
    the connections the loop received. *)
Record conf : Type := Conf {
  c_srv : srv;
  c_locals : locals;
  c_turns : Z;
  c_out : bytes;
  c_printed : bytes;
  c_read : list streamEvent;
  c_handled : list streamEvent;
  c_dual : dual_conf (C := C);
  c_taken : list C;
}.

Definition set_srv (v : srv) (x : conf) : conf :=
  Conf v (c_locals x) (c_turns x) (c_out x) (c_printed x) (c_read x) (c_handled x) (c_dual x) (c_taken x).
Definition set_dual (v : srv) (d : dual_conf) (x : conf) : conf :=
  Conf v (c_locals x) (c_turns x) (c_out x) (c_printed x) (c_read x) (c_handled x) d (c_taken x).

(** What the case takes out of the channels. *)
Definition event_taken (e : event) : list streamEvent := match e with EvStream ev => [ev] | _ => [] end.
Definition conn_taken (c : choice) (v : srv) : list C :=
  match c with
  | ChAccept _ _ => match chan_recv (v_acceptCh v) with Some (Some (Ok conn), _) => [conn] | _ => [] end
  | _ => []
  end.
Definition oks (l : list (res C)) : list C := omap (λ r, match r with Ok c => Some c | _ => None end) l.

(** A connection that the listener authenticated: nothing but its handshake
    has happened on it. *)
Definition new_conn (c : C) : Prop := (∃ cs, sent c cs []) ∧ is_uint 64 (LastClientSeq c).

Inductive reach (cfg : Config) (w0 : W) : conf → Prop :=
| r_start now v w :
  start cfg now w0 = Some (Ok v, w) →
  reach cfg w0 (Conf v (Locals false false now) 0 [] [] [] [] (DualConf (bl_loops (v_ln v)) [] [] []) [])
| r_turn x c now e v l v' :
  reach cfg w0 x → receive c (c_locals x) (c_srv x) = Some (e, v) →
  (c = ChTimer → is_Some (coalesce.recv_Timer (s_coal (v_session (c_srv x))) now)) →
  turn c now (c_locals x) (c_srv x) = Some (Ok (inl l), v') →
  reach cfg w0 (Conf v' l (c_turns x + 1) (c_out x ++ pty_bytes e) (c_printed x) (c_read x)
    (c_handled x ++ event_taken e) (c_dual x) (c_taken x ++ conn_taken c (c_srv x)))
| r_reader_read x k ev v :
  reach cfg w0 x → reader_read k (c_srv x) = Some (Ok ev, v) →
  match ev_msg ev with Ok m => msg_wf m | _ => True end →
  reach cfg w0 (Conf v (c_locals x) (c_turns x) (c_out x) (c_printed x) (c_read x ++ [ev]) (c_handled x) (c_dual x) (c_taken x))
| r_reader_send x k v : reach cfg w0 x → reader_send k (c_srv x) = Some v → reach cfg w0 (set_srv v x)
| r_accept x k done done_first r v :
  reach cfg w0 x → acceptor_accept k done done_first (c_srv x) = Some (r, v) →
  reach cfg w0 (set_dual v (DualConf (bl_loops (v_ln v)) (du_authenticated (c_dual x))
    (du_returned (c_dual x) ++ oks [r]) (du_closed (c_dual x))) x)
| r_accept_send x k v : reach cfg w0 x → acceptor_send k (c_srv x) = Some v → reach cfg w0 (set_srv v x)
| r_listener x d :
  reach cfg w0 x → dual_step (c_dual x) d → du_returned d = du_returned (c_dual x) → dl_cancelled (du_dl d) = false →
  (∀ c, c ∈ (du_authenticated d).*2 → c ∈ (du_authenticated (c_dual x)).*2 ∨ new_conn c) →
  reach cfg w0 (set_dual (set_ln (BoundListener (bl_quic (v_ln (c_srv x))) (bl_tcp (v_ln (c_srv x))) (bl_port (v_ln (c_srv x)))
    (du_dl d)) (c_srv x)) d x)
| r_pty_read x data err v :
  reach cfg w0 x → len data <= ptyReadBufSize → pty_read data err (c_srv x) = Some v →
  reach cfg w0 (Conf v (c_locals x) (c_turns x) (c_out x) (c_printed x ++ data) (c_read x) (c_handled x) (c_dual x) (c_taken x))
| r_pty_send x v : reach cfg w0 x → pty_send (c_srv x) = Some v → reach cfg w0 (set_srv v x)
| r_shell x err v : reach cfg w0 x → waitShell err (c_srv x) = Some v → reach cfg w0 (set_srv v x)
| r_conn x i c c' :
  reach cfg w0 x → s_conns (v_session (c_srv x)) !! i = Some c → background c c' →
  reach cfg w0 (set_srv (set_session (set_conns (<[i := c']> (s_conns (v_session (c_srv x)))) (v_session (c_srv x))) (c_srv x)) x).
End run.

(** ** What the session's operations leave alone *)

Section steady.
Context {C : Type} `{ConnLaws C} {P : Type} `{PtyLib P}.
Variables (SHELL : string) (environ : list string).
#[local] Abbreviation Session := (session.Session (C := C) (P := P)).

(** The current connection is an object, and a PTY comes with its channels. *)
Definition wired (s : Session) : Prop :=
  (∀ i, s_conn s = Some i → is_Some (s_conns s !! i)) ∧
  (is_Some (s_ptmx s) → s_ptyDataCh s = true ∧ s_shellDone s = true).

(** The objects are the same, and the channels stay once they are made. *)
Definition lasting (s s' : Session) : Prop :=
  (∀ i, is_Some (s_conns s !! i) ↔ is_Some (s_conns s' !! i)) ∧
  (s_ptyDataCh s = true → s_ptyDataCh s' = true) ∧ (wired s → wired s').

(** No reader is started. *)
Definition steady (s s' : Session) : Prop := s_readers s' = s_readers s ∧ lasting s s'.

#[export] Instance lasting_preorder : PreOrder lasting.
Proof. split; [by intros s|]. intros s1 s2 s3 (Ha & Hb & Hc) (Hd & He & Hf). split; [|split; eauto]. intros i. by rewrite Ha. Qed.

#[export] Instance steady_preorder : PreOrder steady.
Proof. split; [by intros s|]. intros s1 s2 s3 [Ha ?] [Hb ?]. split; [congruence|]. by etrans. Qed.

(** A change of the other parts of the state. *)
Lemma steady_same (s s' : Session) :
  s_readers s' = s_readers s → s_conns s' = s_conns s → s_ptyDataCh s' = s_ptyDataCh s →
  s_shellDone s' = s_shellDone s → (is_Some (s_ptmx s') → is_Some (s_ptmx s)) →
  (s_conn s' = s_conn s ∨ s_conn s' = None) → steady s s'.
Proof.
  intros Hr Hc Hp Hd Ht Hn. split; [done|]. split; [by rewrite Hc|]. split; [by rewrite Hp|].
  intros [Hv Hw]. split; [|rewrite Hp, Hd; auto]. intros i. rewrite Hc. destruct Hn as [-> | ->]; [apply Hv|done].
Qed.

Lemma steady_get {A} (f : Session → A) : leaves steady (get f).
Proof. apply leaves_read, _. Qed.

Lemma steady_fun {A} (f : Session → option (res A * Session)) :
  (∀ s r s', f s = Some (r, s') → steady s s') → leaves steady f.
Proof. done. Qed.

Lemma steady_modify (f : Session → Session) : (∀ s, steady s (f s)) → leaves steady (modify f).
Proof. by intros Hf s r s' [= _ <-]. Qed.

Lemma steady_update (s : Session) i x : is_Some (s_conns s !! i) → steady s (set_conns (<[i := x]> (s_conns s)) s).
Proof.
  intros Hi. assert (∀ j, is_Some (s_conns s !! j) ↔ is_Some (<[i := x]> (s_conns s) !! j)) as Hj.
  { intros j. rewrite lookup_insert_is_Some'. naive_solver. }
  split; [done|]. split; [done|]. split; [done|]. intros [Hv Hw]. split; [|exact Hw]. intros j Hc. by apply Hj, Hv.
Qed.

Lemma steady_call {A} i (c : io C A) : leaves steady (call (P := P) i c).
Proof.
  apply steady_fun. intros s r s'. unfold call. destruct (s_conns s !! i) as [x|] eqn:E; [|by intros [= _ <-]].
  destruct (c x) as [[r' x']|]; [|done]. intros [= _ <-]. apply steady_update. by rewrite E.
Qed.

Lemma steady_on_ptmx {A} (c : io P A) : leaves steady (on_ptmx (C := C) c).
Proof.
  apply steady_fun. intros s r s'. unfold on_ptmx. destruct (s_ptmx s) eqn:E; [|by intros [= _ <-]].
  destruct (c _) as [[r' p']|]; [|done]. intros [= _ <-]. apply steady_same; rewrite ?E; auto.
Qed.

#[local] Hint Resolve steady_get steady_call steady_on_ptmx : leaves.
#[local] Hint Extern 2 (leaves steady (modify _)) => by (apply steady_modify; intros; apply steady_same; auto) : leaves.

Lemma steady_closeConn : leaves steady (closeConn (C := C) (P := P)).
Proof. unfold closeConn. solve_leaves. Qed.

#[local] Hint Resolve steady_closeConn : leaves.

Lemma steady_flush now : leaves steady (flushCoalesced (C := C) (P := P) now).
Proof.
  unfold flushCoalesced, coal_Flush, buf_Store. solve_leaves.
  - apply steady_fun. intros s r s'. destruct (coalesce.Flush _ _). intros [= _ <-]. apply steady_same; auto.
  - apply steady_fun. intros s r s'. destruct (catchup.Store _ _ _) as [[]|]; [..|done]; intros [= _ <-]; apply steady_same; auto.
Qed.

#[local] Hint Resolve steady_flush : leaves.

Lemma steady_event ev : leaves steady (handleStreamEvent (C := C) (P := P) ev).
Proof. unfold handleStreamEvent. solve_leaves. Qed.

Lemma steady_spawn term : leaves steady (spawn (C := C) SHELL environ term).
Proof.
  unfold spawn. solve_leaves. apply steady_modify. intros s. split; [done|]. split; [done|]. split; [done|]. by intros [Hv _].
Qed.

Lemma steady_replay i es : leaves steady (replay (C := C) (P := P) i es).
Proof. induction es as [|e es IH]; cbn [replay]; solve_leaves. Qed.

#[local] Hint Resolve steady_event steady_spawn steady_replay : leaves.

Lemma steady_shutdown now : leaves steady (gracefulShutdown (C := C) (P := P) now).
Proof. unfold gracefulShutdown. solve_leaves. Qed.

Lemma steady_readStream i st : leaves steady (readStream_iter (C := C) (P := P) i st).
Proof. unfold readStream_iter. solve_leaves. Qed.

#[local] Hint Resolve steady_shutdown : leaves.

(** Any event but a new connection. *)
Lemma steady_handle l now e : is_accept e = false → leaves steady (handle (C := C) SHELL environ l now e).
Proof.
  destruct e as [[d|]| |ev|[conn|err|p] ctx| |err|err]; try done; intros _; unfold handle; solve_leaves.
  - apply steady_fun. intros s r s'. destruct (coalesce.Add _ _ _). intros [= _ <-]. apply steady_same; auto.
  - apply steady_fun. intros s r s'. destruct (coalesce.recv_Timer _ _); [|done]. intros [= _ <-]. apply steady_same; auto.
Qed.

(** A new connection starts its two readers, or none. *)
Definition readers_of (i : nat) (s s' : Session) : Prop :=
  s_readers s' = s_readers s ∨ s_readers s' = s_readers s ++ [(i, "control"); (i, "data")]%string.

Definition attends {A} (i : nat) (c : io Session A) : Prop :=
  ∀ s r s', is_Some (s_conns s !! i) → c s = Some (r, s') → lasting s s' ∧ readers_of i s s'.

Lemma attends_steady {A} i (c : io Session A) : leaves steady c → attends i c.
Proof. intros Hc s r s' _ [Hr Hl]%Hc. split; [done|by left]. Qed.

Lemma attends_bind {A B} i (c : io Session A) (k : A → io Session B) :
  leaves steady c → (∀ a, attends i (k a)) → attends i (io_bind c k).
Proof.
  intros Hc Hk s r s' Hi (r1 & s1 & [Hr Hl]%Hc & Hb)%io_bind_split.
  destruct r1 as [a|e|p]; [|destruct Hb as [_ ->]; split; [exact Hl|left; exact Hr]..].
  apply Hk in Hb as [Hl2 Hr2]; [|by apply (proj1 Hl)]. split; [by etrans|]. unfold readers_of in *. by rewrite Hr in Hr2.
Qed.

Lemma attends_then {A B} i (c : io Session A) (k : A → io Session B) :
  attends i c → (∀ a, leaves steady (k a)) → attends i (io_bind c k).
Proof.
  intros Hc Hk s r s' Hi (r1 & s1 & E & Hb)%io_bind_split. destruct (Hc _ _ _ Hi E) as [Hl Hr].
  destruct r1 as [a|e|p]; [|by destruct Hb as [_ ->]..].
  apply Hk in Hb as [Hr2 Hl2]. split; [by etrans|]. unfold readers_of in *. by rewrite Hr2.
Qed.

Lemma attends_try {A} i (c : io Session A) : attends i c → attends i (io_try c).
Proof.
  intros Hc s r s' Hi. unfold io_try. destruct (c s) as [[[] s1]|] eqn:E; [..|done]; intros [= _ <-]; by eapply Hc.
Qed.

Lemma attends_catch_up i : attends i (catch_up (C := C) (P := P) i).
Proof.
  unfold catch_up. do 3 (apply attends_bind; [solve_leaves|intros ?]). apply attends_bind; [solve_leaves|intros ok].
  destruct (negb ok); [apply attends_steady; solve_leaves|]. do 2 (apply attends_bind; [solve_leaves|intros _]).
  intros s r s' _ [= _ <-]. split; [by split|by right].
Qed.

Lemma attends_new_conn i now : attends i (handleNewConn (C := C) SHELL environ i now).
Proof.
  unfold handleNewConn, handshake, await_terminal. do 2 (apply attends_bind; [solve_leaves|intros _]).
  intros s r s' Hi. rewrite bind_modify. set (s0 := set_conn _ s). intros Hk.
  assert (lasting s s0) as Hl0 by (split; [done|split; [done|]]; intros [_ Hw]; split; [by intros j [= <-]|exact Hw]).
  assert (attends i (handshake (C := C) SHELL environ i)) as Ha.
  { unfold handshake, await_terminal. apply attends_bind; [solve_leaves|intros q]. apply attends_bind; [solve_leaves|intros r1].
    assert (attends i (closeConn (C := C) (P := P))) as Hc by (apply attends_steady; solve_leaves).
    assert (attends i (await_terminal (C := C) SHELL environ i)) as Hw.
    { unfold await_terminal. do 3 (apply attends_bind; [solve_leaves|intros ?]).
      repeat (case_match; try exact Hc). apply attends_bind; [solve_leaves|intros r2].
      destruct r2; [apply attends_catch_up|apply attends_steady; solve_leaves|apply attends_catch_up]. }
    destruct r1; [exact Hw|exact Hc|exact Hw]. }
  apply Ha in Hk as [Hl Hr]; [|done]. split; [by etrans|exact Hr].
Qed.

Lemma attends_handle l now i ctx : attends i (handle (C := C) SHELL environ l now (EvAccept (Ok i) ctx)).
Proof.
  simpl. apply attends_then; [apply attends_try, attends_new_conn|]. intros r1. destruct r1; solve_leaves.
Qed.
End steady.

(** ** The invariant *)

Section invariant.
Context {Key W : Type} `{NetLib Key W} {C : Type} `{ConnLaws C} {P : Type} `{PtyLib P}.
Variables (SHELL : string) (environ : list string) (cfg : Config).
#[local] Abbreviation srv := (srv (W := W) (C := C) (P := P)).
#[local] Abbreviation conf := (conf (W := W) (C := C) (P := P)).

Definition key_of (ev : streamEvent) : nat * string := (ev_conn ev, ev_stream ev).

(** The events of one stream. *)
Definition sel (key : nat * string) (l : list streamEvent) : list streamEvent := filter (λ ev, key_of ev = key) l.

(** What is held by the goroutines. *)
Definition held_events (l : list ((nat * string) * option streamEvent)) : list streamEvent := omap snd l.
Definition held_conns (l : list (option (res C))) : list C := oks (omap id l).
Definition held_bytes (p : option pty_pc) : bytes := match p with Some (PtySending out _) => out | _ => [] end.

Definition event_wf (ev : streamEvent) : Prop :=
  match ev_msg ev with Ok m => msg_wf m | Err _ => True | Panicked _ => False end.
Definition chunk_ok (d : bytes) : Prop := 0 < len d <= ptyReadBufSize.

(** One accept at a time. *)
Definition one_accept (v : srv) : Prop :=
  (List.length (v_acceptors v) + List.length (ch_buf (v_acceptCh v)) = 1)%nat ∧
  ch_cap (v_acceptCh v) = 1 ∧ ch_closed (v_acceptCh v) = false.

Lemma lone_acceptor v k a :
  one_accept v → v_acceptors v !! k = Some a → v_acceptors v = [a] ∧ k = 0%nat ∧ ch_buf (v_acceptCh v) = [].
Proof.
  intros [Hone _] Hk. destruct (v_acceptors v) as [|a' [|a2 l]]; simpl in Hone; [done| |lia].
  destruct k; [|done]. injection Hk as ->. destruct (ch_buf _); [done|simpl in Hone; lia].
Qed.

(** Each stream has at most one reader, which holds an event of it. *)
Record readers_ok (v : srv) : Prop := {
  rd_keys : NoDup (v_readers v).*1;
  rd_conns : ∀ key o, (key, o) ∈ v_readers v → is_Some (s_conns (v_session v) !! key.1);
  rd_held : ∀ key ev, (key, Some ev) ∈ v_readers v → key_of ev = key ∧ event_wf ev;
  rd_wf : Forall event_wf (ch_buf (v_streamCh v));
  rd_closed : ch_closed (v_streamCh v) = false;
}.

(** The channels of the PTY exist when the session says so. *)
Record pty_ok (l : locals) (v : srv) : Prop := {
  p_chunks : Forall chunk_ok (ch_buf (v_ptyDataCh v));
  p_held : ∀ out last, v_pty v = Some (PtySending out last) → chunk_ok out;
  p_none : s_ptyDataCh (v_session v) = false → v_pty v = None ∧ ch_buf (v_ptyDataCh v) = [] ∧ v_shell v = None;
  p_shell : s_ptyDataCh (v_session v) = true → v_shell v ≠ None;
  p_local : l_ptyDataCh l = true → s_ptyDataCh (v_session v) = true;
}.

(** The listener has not been closed, and has closed no connection. *)
Definition dual_open (d : dual_conf (C := C)) : Prop := dl_cancelled (du_dl d) = false ∧ du_closed d = [].

Lemma loop_step_open b (r : res C) pc ch pc' ch' cl : loop_step false b r pc ch = Some (pc', ch', cl) → cl = [].
Proof. unfold loop_step. destruct pc; [destruct r|destruct (_ && _)|]; naive_solver. Qed.

Lemma dual_step_open d d' : dual_step d d' → dual_open d → dl_cancelled (du_dl d') = false → dual_open d'.
Proof.
  intros Hs [Ho Hc] Hn. split; [done|]. destruct Hs as [b r ch cn q q' t ch' cl au re cs Hl|b r ch cn q t t' ch' cl au re cs Hl
    |done b dl conn dl' au re cs Ha|dl tcpErr quicErr dl' cl r au re cs Hcl]; simpl in *.
  - subst. by apply loop_step_open in Hl as ->.
  - subst. by apply loop_step_open in Hl as ->.
  - done.
  - by injection Hcl as <- _ _.
Qed.

(** What is on its way between the goroutines and the loop. *)
Record flows (x : conf) : Prop := {
  i_readers : readers_ok (c_srv x);
  i_streams : ∀ key, sel key (c_read x) =
    sel key (c_handled x ++ ch_buf (v_streamCh (c_srv x)) ++ held_events (v_readers (c_srv x)));
  i_pty : pty_ok (c_locals x) (c_srv x);
  i_printed : c_printed x = c_out x ++ List.concat (ch_buf (v_ptyDataCh (c_srv x))) ++ held_bytes (v_pty (c_srv x));
  i_dual : dual_inv (c_dual x) ∧ du_dl (c_dual x) = bl_loops (v_ln (c_srv x));
  i_order : ∃ queued, queues (c_dual x) queued;
  i_new : ∀ c, c ∈ (du_authenticated (c_dual x)).*2 → new_conn c;
  i_conns : du_returned (c_dual x) =
    c_taken x ++ oks (ch_buf (v_acceptCh (c_srv x))) ++ held_conns (v_acceptors (c_srv x));
  i_open : dual_open (c_dual x);
}.

Definition inv (x : conf) : Prop :=
  session.reach SHELL environ False cfg (c_turns x) (c_out x) (v_session (c_srv x)) (c_locals x) ∧
  one_accept (c_srv x) ∧ flows x.

(** An element of a list, and the list with another or none in its place. *)
Lemma list_at {A} (l : list A) k x :
  l !! k = Some x →
  ∃ l1 l2, l = l1 ++ x :: l2 ∧ (∀ y, <[k := y]> l = l1 ++ y :: l2) ∧ delete k l = l1 ++ l2.
Proof.
  intros Hk. exists (take k l), (drop (S k) l). split; [by rewrite take_drop_middle|].
  split; [|by rewrite delete_take_drop]. intros y. apply insert_take_drop. by eapply lookup_lt_Some.
Qed.

Lemma sel_app key l1 l2 : sel key (l1 ++ l2) = sel key l1 ++ sel key l2.
Proof. apply filter_app. Qed.

Lemma held_app l1 l2 : held_events (l1 ++ l2) = held_events l1 ++ held_events l2.
Proof. apply omap_app. Qed.

Lemma held_fresh (l : list (nat * string)) : held_events ((λ r, (r, None)) <$> l) = [].
Proof. induction l as [|r l IH]; [done|exact IH]. Qed.

(** No event of a stream without a reader is held. *)
Lemma sel_held key (l : list ((nat * string) * option streamEvent)) :
  key ∉ l.*1 → (∀ key ev, (key, Some ev) ∈ l → key_of ev = key) → sel key (held_events l) = [].
Proof.
  unfold sel. intros Hk Hl. induction l as [|[k o] l IH]; [done|].
  rewrite fmap_cons, not_elem_of_cons in Hk. destruct Hk as [Hne Hk].
  assert (sel key (held_events l) = []) as IH' by (apply IH; [done|]; intros; apply Hl; by right).
  destruct o as [ev|]; [|exact IH']. change (filter (λ ev, key_of ev = key) (ev :: held_events l) = []).
  rewrite filter_cons_False; [exact IH'|]. intros <-. apply Hne, Hl. by left.
Qed.

(** An event moves past the held ones. *)
Lemma sel_move key l1 l2 k ev :
  NoDup (l1 ++ (k, Some ev) :: l2).*1 →
  (∀ key ev', (key, Some ev') ∈ l1 ++ (k, Some ev) :: l2 → key_of ev' = key) →
  sel key (held_events (l1 ++ (k, Some ev) :: l2)) = sel key [ev] ++ sel key (held_events (l1 ++ l2)) ∧
  (sel key (held_events (l1 ++ (k, Some ev) :: l2)) = sel key (held_events (l1 ++ l2)) ++ sel key [ev]).
Proof.
  intros Hnd Hl. assert (key_of ev = k) as Hk by (apply Hl, elem_of_app; right; by left).
  change (held_events (l1 ++ (k, Some ev) :: l2)) with (held_events (l1 ++ ([(k, Some ev)] ++ l2))).
  rewrite !held_app, !sel_app. change (held_events [(k, Some ev)]) with [ev].
  rewrite fmap_app, fmap_cons in Hnd. apply NoDup_app in Hnd as (_ & Hd & Hnd). apply NoDup_cons in Hnd as [Hn2 _].
  destruct (decide (key = k)) as [->|Hne].
  - rewrite (sel_held k l1), (sel_held k l2), !app_nil_r; [done|done| | |].
    + intros key ev' Hin. apply Hl. apply elem_of_app. right. by right.
    + intros Hin. apply (Hd _ Hin). by left.
    + intros key ev' Hin. apply Hl. apply elem_of_app. by left.
  - assert (sel key [ev] = []) as -> by (unfold sel; rewrite filter_cons_False; [done|congruence]). by rewrite !app_nil_r.
Qed.

Lemma oks_append (l1 l2 : list (res C)) : oks (l1 ++ l2) = oks l1 ++ oks l2.
Proof. apply omap_app. Qed.
Lemma held_conns_app l1 l2 : held_conns (l1 ++ l2) = held_conns l1 ++ held_conns l2.
Proof. unfold held_conns. by rewrite omap_app, oks_append. Qed.

(** *** The select *)

(** After the case has been taken, before its body runs. *)
Definition taking (c : choice) (e : event) (v1 : srv) (x : conf) : conf :=
  Conf v1 (c_locals x) (c_turns x) (c_out x ++ pty_bytes e) (c_printed x) (c_read x)
    (c_handled x ++ event_taken e) (c_dual x) (c_taken x ++ conn_taken c (c_srv x)).

Lemma flows_same x v c e :
  flows x → v_readers v = v_readers (c_srv x) → v_streamCh v = v_streamCh (c_srv x) → v_pty v = v_pty (c_srv x) →
  v_ptyDataCh v = v_ptyDataCh (c_srv x) → v_shell v = v_shell (c_srv x) → v_ln v = v_ln (c_srv x) →
  s_ptyDataCh (v_session v) = s_ptyDataCh (v_session (c_srv x)) →
  (∀ i, is_Some (s_conns (v_session (c_srv x)) !! i) → is_Some (s_conns (v_session v) !! i)) →
  pty_bytes e = [] → event_taken e = [] →
  c_taken x ++ oks (ch_buf (v_acceptCh (c_srv x))) ++ held_conns (v_acceptors (c_srv x)) =
    (c_taken x ++ conn_taken c (c_srv x)) ++ oks (ch_buf (v_acceptCh v)) ++ held_conns (v_acceptors v) →
  flows (taking c e v x).
Proof.
  intros [[Hk Hcn Hh Hw Hc] Hst [Hch Hhd Hn Hsl Hlo] Hpr Hd Hor Hnw Hcs] Hr Hs Hp Hpd Hsh Hln Hdc Hconns Hb He Hperm.
  split; simpl; rewrite ?Hr, ?Hs, ?Hp, ?Hpd, ?Hln, ?Hb, ?He, ?app_nil_r; try done.
  - split; rewrite ?Hr, ?Hs; try done. intros key o Hin. by eapply Hconns, Hcn.
  - split; rewrite ?Hp, ?Hpd, ?Hsh, ?Hdc; done.
  - by rewrite Hcs.
Qed.

Lemma receive_flows x c e v1 :
  inv x → receive c (c_locals x) (c_srv x) = Some (e, v1) → flows (taking c e v1 x).
Proof.
  intros (_ & (Hone & Hcap & Hcl) & Hf). pose proof Hf as [[Hk Hcn Hh Hw Hc] Hst [Hch Hhd Hn Hsl Hlo] Hpr Hd Hor Hnw Hcs].
  destruct c as [| | |i ctx| | |err]; simpl.
  - destruct (l_ptyDataCh (c_locals x)) eqn:El; [|done]. unfold chan_recv.
    destruct (ch_buf (v_ptyDataCh (c_srv x))) as [|d ds] eqn:Eb; [destruct (ch_closed (v_ptyDataCh _)); [|done]|]; simpl; intros [= <- <-];
      split; simpl; rewrite ?app_nil_r, ?Eb; try done.
    + split; simpl; by rewrite ?Eb, ?El.
    + split; simpl; [by apply Forall_cons in Hch as [_ ?]|exact Hhd| |exact Hsl|by intros _; apply Hlo].
      intros Hnone. by apply Hn in Hnone as (_ & ? & _).
    + rewrite Hpr. simpl. by rewrite <-!app_assoc.
  - intros [= <- <-]. apply flows_same; try done. by rewrite app_nil_r.
  - unfold chan_recv. destruct (ch_buf (v_streamCh (c_srv x))) as [|ev evs] eqn:Eb; [by rewrite Hc|].
    intros [= <- <-]. apply Forall_cons in Hw as [Hev Hw]. split; simpl; rewrite ?app_nil_r; try done.
    intros key. by rewrite Hst, <-app_assoc.
  - unfold chan_recv. destruct (ch_buf (v_acceptCh (c_srv x))) as [|[conn|err|p] rs] eqn:Eb; [by rewrite Hcl| | |done].
    + destruct (s_conns _ !! i) eqn:Ei; [done|]. intros [= <- <-]. apply flows_same; try done.
      * intros j Hj. apply lookup_insert_is_Some'. by right.
      * simpl. unfold chan_recv. rewrite Eb. by rewrite <-!app_assoc.
    + intros [= <- <-]. apply flows_same; try done. simpl. unfold chan_recv. rewrite Eb. by rewrite app_nil_r.
  - intros [= <- <-]. apply flows_same; try done. by rewrite app_nil_r.
  - destruct (l_shellDone _); [|done]. destruct (v_shell (c_srv x)) as [[err|]|]; [|done..].
    intros [= <- <-]. apply flows_same; try done. by rewrite app_nil_r.
  - intros [= <- <-]. apply flows_same; try done. by rewrite app_nil_r.
Qed.

(** *** The body of the case *)

Lemma handle_locals l now e (s : session.Session (C := C) (P := P)) l' s' :
  handle SHELL environ l now e s = Some (Ok (inl l'), s') →
  l_ptyDataCh l' = true → l_ptyDataCh l = true ∨ s_ptyDataCh s' = true.
Proof.
  destruct e as [[d|]| |ev|[conn|err|p] ctx| |err|err]; unfold handle.
  - intros (full & s1 & _ & Hk)%io_bind_inv. apply io_bind_inv in Hk as ([] & s2 & _ & [= <- _]). by left.
  - intros ([] & s1 & _ & [= <- _])%io_bind_inv. done.
  - intros ([] & s1 & _ & Hk)%io_bind_inv. apply io_bind_inv in Hk as ([] & s2 & _ & [= <- _]). by left.
  - rewrite bind_get. intros (r & s1 & _ & Hk)%io_bind_inv. destruct r; [injection Hk as <- _|done|injection Hk as <- _];
      destruct (_ && _); by left.
  - intros (r & s1 & _ & Hk)%io_bind_inv. destruct r; [|done|]; rewrite bind_get in Hk; injection Hk as <- <-;
      (destruct (s_ptyDataCh s1); [by right|by left]).
  - destruct ctx; [done|]. intros [= <- _]. by left.
  - done.
  - rewrite bind_get. destruct (s_conn s); [|intros [= <- _]; by left].
    intros (r & s1 & _ & Hk)%io_bind_inv.
    destruct r; apply io_bind_inv in Hk as ([] & s2 & _ & [= <- _]); by left.
  - by intros ([] & s1 & _ & ?)%io_bind_inv.
  - by intros ([] & s1 & _ & ?)%io_bind_inv.
Qed.

(** A body that has kept what it should, and started readers on [i] or none. *)
Lemma new_readers_of i (s s' : session.Session (C := C) (P := P)) :
  readers_of i s s' → new_readers s s' = [] ∨ new_readers s s' = [((i, "control"), None); ((i, "data"), None)]%string.
Proof.
  unfold new_readers. intros [->| ->]; [left; by rewrite drop_all|right]. by rewrite drop_app_length.
Qed.

Lemma readers_resume c r s' v i :
  readers_ok v → lasting (v_session v) s' → readers_of i (v_session v) s' → is_Some (s_conns (v_session v) !! i) →
  (new_readers (v_session v) s' ≠ [] → ∀ key o, (key, o) ∈ v_readers v → key.1 ≠ i) → readers_ok (resume c r s' v).
Proof.
  intros [Hk Hcn Hh Hw Hc] (Hl & _) Hnr Hi Hfr. split; simpl; [| | |done|done].
  - destruct (new_readers_of _ _ _ Hnr) as [Hn|Hn]; rewrite Hn in *; [by rewrite app_nil_r|].
    rewrite fmap_app. apply NoDup_app. split; [done|]. split.
    + intros key ([key' o] & -> & Hin)%list_elem_of_fmap Hin2. simpl in Hin2.
      apply (Hfr ltac:(done)) in Hin. apply Hin. simpl. set_solver.
    + apply NoDup_cons. split; [set_solver|]. apply NoDup_singleton.
  - intros key o [Hin|Hin]%elem_of_app; [by eapply Hl, Hcn|].
    destruct (new_readers_of _ _ _ Hnr) as [Hn|Hn]; rewrite Hn in Hin; [set_solver|].
    assert (key.1 = i) as -> by set_solver. by apply Hl.
  - intros key ev [Hin|Hin]%elem_of_app; [by apply Hh|].
    destruct (new_readers_of _ _ _ Hnr) as [Hn|Hn]; rewrite Hn in Hin; set_solver.
Qed.

Lemma flows_resume y c r s' l' N' i :
  flows y → lasting (v_session (c_srv y)) s' → readers_of i (v_session (c_srv y)) s' →
  is_Some (s_conns (v_session (c_srv y)) !! i) ∨ new_readers (v_session (c_srv y)) s' = [] →
  (new_readers (v_session (c_srv y)) s' ≠ [] → ∀ key o, (key, o) ∈ v_readers (c_srv y) → key.1 ≠ i) →
  (l_ptyDataCh l' = true → l_ptyDataCh (c_locals y) = true ∨ s_ptyDataCh s' = true) →
  flows (Conf (resume c r s' (c_srv y)) l' N' (c_out y) (c_printed y) (c_read y) (c_handled y) (c_dual y) (c_taken y)).
Proof.
  intros [Hr Hst [Hch Hhd Hn Hsl Hlo] Hpr Hd Hor Hnw Hcs] Hlast Hnr Hi Hfr Hloc. pose proof Hlast as (_ & Hpd & _). split; simpl; try done.
  - destruct Hi as [Hi|Hnil]; [by eapply readers_resume|]. destruct Hr as [Hk Hcn Hh Hw Hc]. split; simpl; rewrite ?Hnil, ?app_nil_r; try done.
    intros key o Hin. by eapply (proj1 Hlast), Hcn.
  - intros key. unfold new_readers. rewrite held_app, held_fresh, app_nil_r. apply Hst.
  - unfold resume, spawned. destruct (s_ptyDataCh s') eqn:E', (s_ptyDataCh (v_session (c_srv y))) eqn:E; simpl.
    + by split; simpl; rewrite ?E'.
    + by split; simpl; rewrite ?E'.
    + by specialize (Hpd eq_refl).
    + split; simpl; [done|done|by intros _; apply Hn|by rewrite E'|]. rewrite E'. by intros [?%Hlo|?]%Hloc.
  - unfold resume, spawned. destruct (s_ptyDataCh s') eqn:E', (s_ptyDataCh (v_session (c_srv y))) eqn:E; simpl; try exact Hpr.
    destruct (Hn eq_refl) as (Hp & Hb & _). by rewrite Hpr, Hp, Hb.
  - rewrite held_conns_app. rewrite Hcs. assert (held_conns (rearmed c r) = []) as -> by (by destruct c, r as [[]| |]).
    by rewrite app_nil_r.
Qed.

(** *** An iteration *)

(** A connection that was returned was authenticated. *)
Lemma returned_new x c : flows x → c ∈ du_returned (c_dual x) → new_conn c.
Proof.
  intros Hf Hc. apply (i_new _ Hf). destruct (i_dual _ Hf) as [(_ & _ & disc & _ & Hp) _].
  rewrite Hp. set_solver.
Qed.

Lemma turn_inv c now l (v v' : srv) r :
  turn SHELL environ c now l v = Some (r, v') →
  ∃ e v1 s', receive c l v = Some (e, v1) ∧ handle SHELL environ l now e (v_session v1) = Some (r, s') ∧ v' = resume c r s' v1.
Proof.
  unfold turn. destruct (receive c l v) as [[e v1]|]; [|done]. destruct (handle _ _ _ _ _ _) as [[r1 s1]|] eqn:E; [|done].
  intros [= <- <-]. by exists e, v1, s1.
Qed.

(** The cases other than a connection leave the session to the body. *)
Lemma receive_session c l (v v1 : srv) e :
  receive c l v = Some (e, v1) → is_accept e = false →
  v_session v1 = v_session v ∧ v_acceptors v1 = v_acceptors v ∧
  (ch_buf (v_acceptCh v1) = ch_buf (v_acceptCh v) ∧ (∀ r, rearmed (C := C) c r = []) ∨
   ∃ err, ch_buf (v_acceptCh v) = Err err :: ch_buf (v_acceptCh v1) ∧ ∃ i ctx, c = ChAccept i ctx) ∧
  ch_cap (v_acceptCh v1) = ch_cap (v_acceptCh v) ∧ ch_closed (v_acceptCh v1) = ch_closed (v_acceptCh v) ∧
  v_shell v1 = v_shell v.
Proof.
  destruct c as [| | |i ctx| | |err]; simpl.
  - destruct (l_ptyDataCh l); [|done]. destruct (chan_recv _) as [[d ch]|]; [|done]. intros [= <- <-] _. split_and!; try done. left. by split.
  - intros [= <- <-] _. split_and!; try done. left. by split.
  - destruct (chan_recv _) as [[[ev|] ch]|]; [|done..]. intros [= <- <-] _. split_and!; try done. left. by split.
  - unfold chan_recv. destruct (ch_buf (v_acceptCh v)) as [|[conn|err|p] rs] eqn:Eb; [by destruct (ch_closed _)| | |done].
    + destruct (s_conns _ !! i); [done|]. by intros [= <- <-].
    + intros [= <- <-] _. simpl. split_and!; try done. right. exists err. split; [done|]. by exists i, ctx.
  - intros [= <- <-] _. split_and!; try done. left. by split.
  - destruct (l_shellDone _); [|done]. destruct (v_shell v) as [[err|]|] eqn:Es; [|done..]. intros [= <- <-] _. rewrite Es. split_and!; try done. left. by split.
  - intros [= <- <-] _. split_and!; try done. left. by split.
Qed.

(** The other case. *)
Lemma receive_accept c l (v v1 : srv) i ctx :
  receive c l v = Some (EvAccept (Ok i) ctx, v1) →
  ∃ conn, c = ChAccept i ctx ∧ ch_buf (v_acceptCh v) = Ok conn :: ch_buf (v_acceptCh v1) ∧
    s_conns (v_session v) !! i = None ∧ v_session v1 = set_conns (<[i := conn]> (s_conns (v_session v))) (v_session v) ∧
    v_acceptors v1 = v_acceptors v ∧ v_readers v1 = v_readers v ∧
    ch_cap (v_acceptCh v1) = ch_cap (v_acceptCh v) ∧ ch_closed (v_acceptCh v1) = ch_closed (v_acceptCh v) ∧
    v_shell v1 = v_shell v.
Proof.
  destruct c as [| | |j ctx'| | |err]; simpl; try done.
  - destruct (l_ptyDataCh l); [|done]. by destruct (chan_recv _) as [[d ch]|].
  - by destruct (chan_recv _) as [[[ev|] ch]|].
  - unfold chan_recv. destruct (ch_buf (v_acceptCh v)) as [|[conn|err|p] rs] eqn:Eb; [by destruct (ch_closed _)| |done..].
    destruct (s_conns _ !! j) eqn:Ei; [done|]. intros [= <- <- <-]. by exists conn.
  - destruct (l_shellDone _); [|done]. by destruct (v_shell v) as [[err|]|].
Qed.

Lemma receive_enabled x c now e v1 :
  inv x → receive c (c_locals x) (c_srv x) = Some (e, v1) →
  (c = ChTimer → is_Some (coalesce.recv_Timer (s_coal (v_session (c_srv x))) now)) →
  enabled (c_locals x) (v_session (c_srv x)) now e.
Proof.
  intros (_ & _ & [[_ _ _ Hw _] _ [Hch _ _ _ _] _ _ _ _ _]) Hr Ht. destruct c as [| | |i ctx| | |err]; simpl in Hr.
  - destruct (l_ptyDataCh _) eqn:El; [|done]. unfold chan_recv in Hr.
    destruct (ch_buf (v_ptyDataCh (c_srv x))) as [|d ds] eqn:Eb; [destruct (ch_closed (v_ptyDataCh _)); [|done]|];
      injection Hr as <- <-; split; try done. by apply Forall_cons in Hch as [? _].
  - injection Hr as <- <-. by apply Ht.
  - unfold chan_recv in Hr. destruct (ch_buf (v_streamCh (c_srv x))) as [|ev evs]; [by destruct (ch_closed _)|].
    injection Hr as <- <-. by apply Forall_cons in Hw as [? _].
  - destruct (chan_recv _) as [[[[conn|err|p]|] ch]|]; [|by injection Hr as <- <-|done..].
    destruct (s_conns _ !! i); [done|]. by injection Hr as <- <-.
  - by injection Hr as <- <-.
  - destruct (l_shellDone _) eqn:El; [|done]. destruct (v_shell _) as [[err|]|]; [|done..]. by injection Hr as <- <-.
  - by injection Hr as <- <-.
Qed.

Lemma steady_readers i (s s' : session.Session (C := C) (P := P)) :
  steady s s' → lasting s s' ∧ readers_of i s s' ∧ new_readers s s' = [].
Proof. intros [Hr Hl]. split; [done|]. split; [by left|]. unfold new_readers. by rewrite Hr, drop_all. Qed.

Lemma inv_turn x c now e v1 l v' :
  inv x → receive c (c_locals x) (c_srv x) = Some (e, v1) →
  (c = ChTimer → is_Some (coalesce.recv_Timer (s_coal (v_session (c_srv x))) now)) →
  turn SHELL environ c now (c_locals x) (c_srv x) = Some (Ok (inl l), v') →
  inv (Conf v' l (c_turns x + 1) (c_out x ++ pty_bytes e) (c_printed x) (c_read x) (c_handled x ++ event_taken e)
    (c_dual x) (c_taken x ++ conn_taken c (c_srv x))).
Proof.
  intros Hinv Hr Ht (e' & v1' & s' & Hr' & Hh & ->)%turn_inv. rewrite Hr in Hr'. injection Hr' as <- <-.
  pose proof (receive_flows _ _ _ _ Hinv Hr) as Hf1. pose proof (receive_enabled _ _ _ _ _ Hinv Hr Ht) as Hen.
  pose proof Hinv as (Hreach & (Hone & Hcap & Hcl) & Hf). pose proof (handle_locals _ _ _ _ _ _ Hh) as Hloc.
  destruct (is_accept e) eqn:Ea.
  - destruct e as [| | |[i| |] ctx| | |]; try done.
    destruct (receive_accept _ _ _ _ _ _ Hr) as (conn & -> & Hb & Hi & Hs & Hac & Hrd & Hcap' & Hcl' & _). rewrite Hb in Hone.
    assert (is_Some (s_conns (v_session v1) !! i)) as Hi1 by (rewrite Hs; simpl; by rewrite lookup_insert_eq).
    destruct (attends_handle SHELL environ _ _ _ _ _ _ _ Hi1 Hh) as [Hlast Hnr]. split; [|split].
    + simpl. rewrite app_nil_r. eapply session.reach_accept; [exact Hreach|exact Hi| |by rewrite <-Hs].
      assert (new_conn conn) as [Hc Hu]; [|by split].
      apply (returned_new x); [done|]. rewrite (i_conns _ Hf), Hb. set_solver.
    + split; [|split]; simpl; [|congruence..]. rewrite Hac, length_app. simpl in *. lia.
    + eapply (flows_resume (taking (ChAccept i ctx) (EvAccept (Ok i) ctx) v1 x) _ _ s' l _ i Hf1 Hlast Hnr); [by left| |exact Hloc].
      intros _ key o Hin Heq. simpl in Hin. rewrite Hrd in Hin. apply (rd_conns _ (i_readers _ Hf)) in Hin. rewrite Heq, Hi in Hin. by destruct Hin.
  - destruct (receive_session _ _ _ _ _ Hr Ea) as (Hs & Hac & Hbuf & Hcap' & Hcl' & _).
    pose proof (steady_handle SHELL environ _ _ _ Ea _ _ _ Hh) as (Hlast & Hnr & Hnew)%(steady_readers 0). split; [|split].
    + simpl. rewrite Hs in Hh. by eapply session.reach_event.
    + split; [|split]; simpl; [|congruence..]. rewrite Hac, length_app. destruct Hbuf as [[-> ->]|(err & Hb & i & ctx & ->)].
      * simpl. lia.
      * rewrite Hb in Hone. simpl in *. lia.
    + eapply (flows_resume (taking c e v1 x) _ _ s' l _ 0 Hf1 Hlast Hnr); [by right|by intros|exact Hloc].
Qed.

(** *** The goroutines *)

Lemma inv_started now v w w0 :
  start cfg now w0 = Some (Ok v, w) →
  inv (Conf v (Locals false false now) 0 [] [] [] [] (DualConf (bl_loops (v_ln v)) [] [] []) []).
Proof.
  unfold start. intros ([ln port] & w1 & Hl & Hk)%io_bind_inv. destruct (New cfg now) as [s|] eqn:En; [|done]. injection Hk as <- <-.
  assert (bl_loops ln = newDualListener) as Hloops.
  { unfold run_listen in Hl. apply io_bind_inv in Hl as (ln' & w2 & Hl%io_wrap_inv & [= <- _ _]).
    unfold ListenDual in Hl. apply io_bind_inv in Hl as (cert & w3 & _ & Hl). apply io_bind_inv in Hl as (ql & w4 & _ & Hl).
    apply io_bind_inv in Hl as (tl & w5 & _ & Hl). destruct tl; [|by apply io_bind_inv in Hl as (? & ? & _ & ?)|done].
    by injection Hl as <- _. }
  simpl in *. assert (s_ptyDataCh s = false) as Hp by (unfold New in En; destruct (coalesce.New now); [by injection En as <-|done]).
  split; [by apply session.reach_new|]. split; [done|]. split; simpl; try done.
  - split; simpl; try done; [apply NoDup_nil; done|intros; set_solver..].
  - split; simpl; try done. by rewrite Hp.
  - split; [|done]. rewrite Hloops. by apply dual_reachable_inv.
  - exists []. split; simpl; rewrite Hloops; [done|]. by intros [].
  - intros c. set_solver.
  - by rewrite Hloops.
Qed.

Lemma readStream_inv i st (s s' : session.Session (C := C) (P := P)) ev :
  readStream_iter i st s = Some (Ok ev, s') →
  key_of ev = (i, st) ∧ panics (ev_msg ev) = false ∧
  ∃ x x', s_conns s !! i = Some x ∧ goroutine_step x x' ∧ s' = set_conns (<[i := x']> (s_conns s)) s.
Proof.
  unfold readStream_iter. intros (r & s1 & Hc & [= <- <-])%io_bind_inv. unfold io_try in Hc.
  destruct (call i _ s) as [[r1 s2]|] eqn:E; [|done]. unfold call in E. destruct (s_conns s !! i) as [x|] eqn:Ex.
  2:{ injection E as <- <-. done. }
  assert (∃ x', goroutine_step x x' ∧ s2 = set_conns (<[i := x']> (s_conns s)) s) as (x' & Hg & ->).
  { destruct (bool_decide _); [destruct (ReadControl x) as [[r2 x']|] eqn:E2|destruct (ReadData x) as [[r2 x']|] eqn:E2]; try done;
      injection E as <- <-; exists x'; (split; [|done]); unfold goroutine_step; eauto. }
  destruct r1; [..|done]; injection Hc as <- <-; (split; [done|split; [done|]]); by exists x, x'.
Qed.

(** A connection object is replaced. *)
Lemma inv_conn x i c c' :
  inv x → s_conns (v_session (c_srv x)) !! i = Some c → goroutine_step c c' →
  inv (set_srv (set_session (set_conns (<[i := c']> (s_conns (v_session (c_srv x)))) (v_session (c_srv x))) (c_srv x)) x).
Proof.
  intros (Hreach & Hone & [[Hk Hcn Hh Hw Hc] Hst [Hch Hhd Hn Hsl Hlo] Hpr Hd Hor Hnw Hcs]) Hi Hg.
  split; [by eapply session.reach_goroutine|]. split; [done|]. split; try done; split; try done.
  intros key o Hin. simpl. apply lookup_insert_is_Some'. right. by eapply Hcn.
Qed.

Lemma inv_reader_read x k ev v :
  inv x → reader_read k (c_srv x) = Some (Ok ev, v) → match ev_msg ev with Ok m => msg_wf m | _ => True end →
  inv (Conf v (c_locals x) (c_turns x) (c_out x) (c_printed x) (c_read x ++ [ev]) (c_handled x) (c_dual x) (c_taken x)).
Proof.
  intros Hinv. unfold reader_read. destruct (v_readers (c_srv x) !! k) as [[[i st] [?|]]|] eqn:Ek; [done| |done].
  destruct (on_session _ _) as [[[ev'|e|p] v1]|] eqn:E; [|done..]. intros [= -> <-] Hwf.
  apply zoom_inv in E as (s1 & (Hkey & Hp & y & y' & Hy & Hg & ->)%readStream_inv & ->).
  assert (event_wf ev) as Hev by (unfold event_wf; by destruct (ev_msg ev)).
  pose proof (inv_conn x i y y' Hinv Hy Hg) as (Hreach & Hone & [[Hk Hcn Hh Hw Hc] Hst Hpty Hpr Hd Hor Hnw Hcs]).
  destruct (list_at _ _ _ Ek) as (l1 & l2 & Hl & Hins & _). simpl in *. rewrite Hl in *.
  assert (NoDup (l1 ++ ((i, st), Some ev) :: l2).*1) as Hk' by (rewrite fmap_app, fmap_cons in *; done).
  assert (∀ key ev', (key, Some ev') ∈ l1 ++ ((i, st), Some ev) :: l2 → key_of ev' = key ∧ event_wf ev') as Hh'.
  { intros key ev' Hin. rewrite elem_of_app, elem_of_cons in Hin. destruct Hin as [Hin|[[= -> ->]|Hin]]; [|done|];
      apply Hh; rewrite elem_of_app, elem_of_cons; auto. }
  split; [exact Hreach|]. split; [exact Hone|]. split; simpl; rewrite ?Hins; try done.
  - split; simpl; rewrite ?Hins; try done. intros key o Hin. rewrite elem_of_app, elem_of_cons in Hin.
    destruct Hin as [Hin|[[= -> _]|Hin]]; [|apply (Hcn (i, st) None)|]; try (eapply Hcn); rewrite elem_of_app, elem_of_cons; eauto.
  - intros key. destruct (sel_move key l1 l2 (i, st) ev Hk') as [_ Hmv]; [intros; by apply Hh'|].
    assert (held_events (l1 ++ ((i, st), None) :: l2) = held_events (l1 ++ l2)) as Hnone.
    { change (l1 ++ (i, st, None) :: l2) with (l1 ++ [(i, st, None)] ++ l2). by rewrite !held_app. }
    by rewrite (sel_app key _ [ev]), Hst, !sel_app, Hmv, Hnone, <-!app_assoc.
  - destruct Hpty as [Hch Hhd Hn Hsl Hlo]. by split.
Qed.

Lemma inv_reader_send x k v : inv x → reader_send k (c_srv x) = Some v → inv (set_srv v x).
Proof.
  intros (Hreach & Hone & [[Hk Hcn Hh Hw Hc] Hst Hpty Hpr Hd Hor Hnw Hcs]). unfold reader_send.
  destruct (v_readers (c_srv x) !! k) as [[key [ev|]]|] eqn:Ek; [|done..]. destruct (chan_can_send _); [|done]. intros [= <-].
  destruct (list_at _ _ _ Ek) as (l1 & l2 & Hl & Hins & Hdel). rewrite Hl in *.
  set (l' := if is_ok (ev_msg ev) then l1 ++ (key, None) :: l2 else l1 ++ l2).
  assert ((if is_ok (ev_msg ev) then <[k:=(key, None)]> (l1 ++ (key, Some ev) :: l2) else delete k (l1 ++ (key, Some ev) :: l2)) = l') as Hl'
    by (unfold l'; by destruct (is_ok _)).
  assert (∀ p, p ∈ l' → p = (key, None) ∧ is_ok (ev_msg ev) = true ∨ p ∈ l1 ++ (key, Some ev) :: l2) as Hin'.
  { intros p. unfold l'. destruct (is_ok _); rewrite !elem_of_app, ?elem_of_cons; naive_solver. }
  split; [exact Hreach|]. split; [exact Hone|]. split; simpl; rewrite ?Hl'; try done.
  - split; simpl; rewrite ?Hl'; try done.
    + unfold l'. destruct (is_ok _); rewrite fmap_app, ?fmap_cons in *; [done|].
      apply NoDup_app in Hk as (Hk1 & Hk2 & [_ Hk3]%NoDup_cons). apply NoDup_app. split; [done|]. split; [|done].
      intros q Hq Hq2. eapply Hk2; [exact Hq|by right].
    + intros key' o [[[= -> ->] _]|Hin]%Hin'; [|by eapply Hcn]. eapply Hcn. rewrite elem_of_app, elem_of_cons. eauto.
    + intros key' ev' [[? _]|Hin]%Hin'; [done|]. by apply Hh.
    + apply Forall_app. split; [done|]. constructor; [|done]. eapply Hh. rewrite elem_of_app, elem_of_cons. eauto.
  - intros key'. rewrite Hst. destruct (sel_move key' l1 l2 key ev Hk) as [Hmv _]; [intros; by apply Hh|].
    assert (held_events l' = held_events (l1 ++ l2)) as ->.
    { unfold l'. destruct (is_ok _); [|done]. change (l1 ++ (key, None) :: l2) with (l1 ++ [(key, None)] ++ l2). by rewrite !held_app. }
    by rewrite <-!app_assoc, !sel_app, Hmv.
  - destruct Hpty as [Hch Hhd Hn Hsl Hlo]. by split.
Qed.
Lemma dual_Accept_inv (dl : dualListener (C := C)) done b r dl' :
  dual_Accept dl done b = Some (r, dl') →
  (∃ conn, r = Ok conn ∧ dl_cancelled dl' = dl_cancelled dl) ∨ (∃ e, r = Err e ∧ dl' = dl).
Proof.
  unfold dual_Accept. destruct (chan_recv _) as [[[conn|] ch]|]; [destruct (_ && _)|destruct done|destruct done]; intros [= <- <-]; eauto.
Qed.

Lemma inv_acceptor x k done done_first r v :
  inv x → acceptor_accept k done done_first (c_srv x) = Some (r, v) →
  inv (set_dual v (DualConf (bl_loops (v_ln v)) (du_authenticated (c_dual x))
    (du_returned (c_dual x) ++ oks [r]) (du_closed (c_dual x))) x).
Proof.
  intros (Hreach & (Hone & Hcap & Hcl) & [[Hk Hcn Hh Hw Hc] Hst [Hch Hhd Hn Hsl Hlo] Hpr [Hd Hdl] Hor Hnw Hcs Hop]). unfold acceptor_accept.
  destruct (v_acceptors (c_srv x) !! k) as [[?|]|] eqn:Ek; [done| |done].
  destruct (dual_Accept _ _ _) as [[r' loops]|] eqn:Ea; [|done]. intros [= -> <-].
  destruct (lone_acceptor _ _ _ (conj Hone (conj Hcap Hcl)) Ek) as (Hac & -> & Hbuf).
  split; [exact Hreach|]. split; [split; simpl; [by rewrite length_insert|done]|].
  split; simpl; try done; [| |by rewrite Hcs, Hbuf, Hac, !app_nil_r|].
  - split; [|done]. destruct (c_dual x) as [dl au re cs]. simpl in *. subst dl.
    apply dual_Accept_inv in Ea as Hr. destruct Hr as [(conn & -> & _)|(e & -> & ->)]; [|by rewrite app_nil_r].
    eapply dual_step_inv; [by eapply dual_step_accept|done].
  - destruct Hor as [queued Hq]. destruct (c_dual x) as [dl au re cs]. destruct Hop as [Hop _]. simpl in *. subst dl.
    apply dual_Accept_inv in Ea as Hr. destruct Hr as [(conn & -> & Hcn')|(e & -> & ->)]; [|rewrite app_nil_r; by exists queued].
    eapply dual_step_order; [by eapply dual_step_accept|exact Hop|simpl; congruence|exact Hq].
  - unfold dual_open in *. simpl. split; [|by apply Hop]. destruct Hop as [Hop _]. rewrite Hdl in Hop.
    by apply dual_Accept_inv in Ea as [(conn & _ & ->)|(e & _ & ->)].
Qed.

Lemma inv_accept_send x k v : inv x → acceptor_send k (c_srv x) = Some v → inv (set_srv v x).
Proof.
  intros (Hreach & (Hone & Hcap & Hcl) & [[Hk Hcn Hh Hw Hc] Hst [Hch Hhd Hn Hsl Hlo] Hpr Hd Hor Hnw Hcs]). unfold acceptor_send.
  destruct (v_acceptors (c_srv x) !! k) as [[r|]|] eqn:Ek; [|done..]. destruct (chan_can_send _); [|done]. intros [= <-].
  destruct (lone_acceptor _ _ _ (conj Hone (conj Hcap Hcl)) Ek) as (Hac & -> & Hbuf).
  split; [exact Hreach|]. split; [split; simpl; [|done]|].
  - by rewrite Hac, Hbuf.
  - split; simpl; try done. by rewrite Hcs, Hac, Hbuf, !app_nil_r.
Qed.

Lemma inv_listener x d :
  inv x → dual_step (c_dual x) d → du_returned d = du_returned (c_dual x) → dl_cancelled (du_dl d) = false →
  (∀ c, c ∈ (du_authenticated d).*2 → c ∈ (du_authenticated (c_dual x)).*2 ∨ new_conn c) →
  inv (set_dual (set_ln (BoundListener (bl_quic (v_ln (c_srv x))) (bl_tcp (v_ln (c_srv x))) (bl_port (v_ln (c_srv x)))
    (du_dl d)) (c_srv x)) d x).
Proof.
  intros (Hreach & Hone & [[Hk Hcn Hh Hw Hc] Hst [Hch Hhd Hn Hsl Hlo] Hpr [Hd Hdl] Hor Hnw Hcs Hop']) Hs Hr Hop Ha.
  split; [exact Hreach|]. split; [done|]. split; simpl; try done.
  - split; [by eapply dual_step_inv|done].
  - destruct Hor as [queued Hq]. by eapply dual_step_order; [exact Hs|apply Hop'|done|].
  - by intros c [?%Hnw|?]%Ha.
  - by rewrite Hr.
  - by eapply dual_step_open.
Qed.

(** What [readPTY] does at the end of an iteration keeps the channel. *)
Lemma pty_exit_inv last ch pc ch' :
  pty_exit last ch = (pc, ch') → ch_buf ch' = ch_buf ch ∧ held_bytes pc = [] ∧ pc ≠ None ∧ ∀ out b, pc ≠ Some (PtySending out b).
Proof. unfold pty_exit. destruct last; by intros [= <- <-]. Qed.

Lemma pty_running x l : pty_ok l x → v_pty x ≠ None → s_ptyDataCh (v_session (P := P) x) = true.
Proof. intros [_ _ Hn _ _] Hp. destruct (s_ptyDataCh _); [done|]. by destruct (Hn eq_refl) as [? _]. Qed.

(** [readPTY] and its channel have changed. *)
Lemma inv_pty x pc ch data :
  inv x → s_ptyDataCh (v_session (c_srv x)) = true → Forall chunk_ok (ch_buf ch) →
  (∀ out last, pc = Some (PtySending out last) → chunk_ok out) →
  List.concat (ch_buf ch) ++ held_bytes pc = List.concat (ch_buf (v_ptyDataCh (c_srv x))) ++ held_bytes (v_pty (c_srv x)) ++ data →
  inv (Conf (set_pty pc ch (c_srv x)) (c_locals x) (c_turns x) (c_out x) (c_printed x ++ data) (c_read x) (c_handled x) (c_dual x) (c_taken x)).
Proof.
  intros (Hreach & Hone & [[Hk Hcn Hh Hw Hc] Hst [Hch Hhd Hn Hsl Hlo] Hpr Hd Hor Hnw Hcs]) Hs Hc1 Hc2 Hcat.
  split; [exact Hreach|]. split; [done|]. split; simpl; try done.
  - split; simpl; try done. by rewrite Hs.
  - by rewrite Hpr, Hcat, <-!app_assoc.
Qed.

Lemma inv_pty_read x data err v :
  inv x → len data <= ptyReadBufSize → pty_read data err (c_srv x) = Some v →
  inv (Conf v (c_locals x) (c_turns x) (c_out x) (c_printed x ++ data) (c_read x) (c_handled x) (c_dual x) (c_taken x)).
Proof.
  intros Hinv Hlen. pose proof Hinv as (_ & _ & [_ _ Hpty _ _ _ _ _]). unfold pty_read.
  destruct (v_pty (c_srv x)) as [[|out l|]|] eqn:Ep; [|done..]. intros [= <-].
  assert (s_ptyDataCh (v_session (c_srv x)) = true) as Hs by (eapply pty_running; [done|by rewrite Ep]).
  unfold readPTY_iter. destruct (Z.ltb_spec 0 (len data)) as [Hpos|Hz].
  - apply inv_pty; [done|done|apply Hpty|by intros out last [= <- _]|by rewrite Ep].
  - assert (data = []) as -> by (destruct data; [done|]; rewrite len_cons in Hz; pose proof (len_nonneg data); lia).
    destruct (pty_exit _ _) as [pc ch] eqn:Ee. apply pty_exit_inv in Ee as (Hb & Hp & _ & Hns).
    apply inv_pty; [done|done|rewrite Hb; apply Hpty|by intros out last ?%Hns|by rewrite Hb, Hp, Ep].
Qed.

Lemma inv_pty_send x v : inv x → pty_send (c_srv x) = Some v → inv (set_srv v x).
Proof.
  intros Hinv. pose proof Hinv as (_ & _ & [_ _ Hpty _ _ _ _ _]). unfold pty_send.
  destruct (v_pty (c_srv x)) as [[|out l|]|] eqn:Ep; [done| |done..]. destruct (chan_can_send _); [|done]. intros [= <-].
  assert (s_ptyDataCh (v_session (c_srv x)) = true) as Hs by (eapply pty_running; [done|by rewrite Ep]).
  destruct (pty_exit _ _) as [pc ch] eqn:Ee. apply pty_exit_inv in Ee as (Hb & Hp & _ & Hns).
  assert (inv (Conf (set_pty pc ch (c_srv x)) (c_locals x) (c_turns x) (c_out x) (c_printed x ++ []) (c_read x) (c_handled x) (c_dual x) (c_taken x)))
    as Hi; [|by rewrite app_nil_r in Hi].
  apply inv_pty; [done|done|..].
  - rewrite Hb. apply Forall_app. split; [apply Hpty|]. constructor; [|done]. by eapply Hpty.
  - by intros out' last ?%Hns.
  - rewrite Hb, Hp, Ep. simpl. rewrite List.concat_app. simpl. by rewrite !app_nil_r.
Qed.

Lemma inv_shell x err v : inv x → waitShell err (c_srv x) = Some v → inv (set_srv v x).
Proof.
  intros (Hreach & Hone & [[Hk Hcn Hh Hw Hc] Hst [Hch Hhd Hn Hsl Hlo] Hpr Hd Hor Hnw Hcs]). unfold waitShell.
  destruct (v_shell (c_srv x)) as [[?|]|] eqn:Es; [done| |done]. intros [= <-].
  split; [exact Hreach|]. split; [done|]. split; simpl; try done. split; simpl; try done.
  intros Hp. by apply Hn in Hp as (_ & _ & ?).
Qed.

Lemma channels_inv w0 x : reach SHELL environ cfg w0 x → inv x.
Proof.
  induction 1; [by eapply inv_started|by eapply inv_turn|by eapply inv_reader_read|by eapply inv_reader_send|
    by eapply inv_acceptor|by eapply inv_accept_send|by eapply inv_listener|by eapply inv_pty_read|by eapply inv_pty_send|
    by eapply inv_shell|].
  eapply inv_conn; [done|done|by left].
Qed.
End invariant.

(** ** Properties *)

Section properties.
Context {Key W : Type} `{NetLib Key W} {C : Type} `{ConnLaws C} {P : Type} `{PtyLib P}.
Variables (SHELL : string) (environ : list string) (cfg : Config).

(** C6: Between the goroutines and the loop.  In whatever order the goroutines
    and the loop move: the loop's state is one of [session.reach]; exactly one
    [acceptLoop] is running or has its result in [acceptCh]; no stream has two
    readers; of each stream, the events the loop received, those in
    [streamCh] and the one its reader is sending are, in this order, the
    events that were read; of the shell's output, likewise for [ptyDataCh]
    and [readPTY]; no connection has been closed; the connections the loop
    received, the one in [acceptCh], the one an [acceptLoop] holds and those in
    the listener's queue are, in this order, those that its two accept loops
    queued ([queued]); and the connections each of the two authenticated are,
    in this order, those it queued and the one it is offering. *)
Theorem run_channels w0 x :
  reach (W := W) (C := C) (P := P) SHELL environ cfg w0 x →
  let v := c_srv x in
  session.reach SHELL environ False cfg (c_turns x) (c_out x) (v_session v) (c_locals x) ∧
  (List.length (v_acceptors v) + List.length (ch_buf (v_acceptCh v)) = 1)%nat ∧
  NoDup (v_readers v).*1 ∧
  (∀ key, sel key (c_read x) = sel key (c_handled x ++ ch_buf (v_streamCh v) ++ held_events (v_readers v))) ∧
  c_printed x = c_out x ++ List.concat (ch_buf (v_ptyDataCh v)) ++ held_bytes (v_pty v) ∧
  du_closed (c_dual x) = [] ∧
  ∃ queued,
    c_taken x ++ oks (ch_buf (v_acceptCh v)) ++ held_conns (v_acceptors v) ++ ch_buf (dl_connCh (bl_loops (v_ln v))) = queued.*2 ∧
    ∀ t, on t (du_authenticated (c_dual x)) = on t queued ++ offered (loop_of t (bl_loops (v_ln v))).
Proof.
  intros (Hreach & (Hone & _ & _) & [[Hk _ _ _ _] Hst _ Hpr [_ Hdl] (queued & Hq & Hon) _ Hcs [_ Hno]])%channels_inv v.
  rewrite Hdl in *. split_and!; try done. exists queued. split; [|exact Hon]. by rewrite Hq, Hcs, <-!app_assoc.
Qed.
End properties.

(** ** A run

    On the simulated host, with QUIC connections and an in-memory PTY: a client
    connects and starts the shell, which prints and exits. *)

Definition ex_srv : srv (W := simHost) (C := quicConn) (P := memPty) := Eval vm_compute in
  match start (P := memPty) ex_cfg 0 ex_host with
  | Some (Ok v, _) => v
  | _ => Srv ex_host (BoundListener (QuicListener 0 0 0 []) (TcpListener 0 0 []) 0 newDualListener) 0
           (ex_session_with (MemPty (MkWinsize 0 0 0 0) (Writer [] None None) false)) [] (make_chan _ 0) [] (make_chan _ 0) None (make_chan _ 0) None
  end.

#[local] Abbreviation ex_conf := (conf (W := simHost) (C := quicConn) (P := memPty)).
#[local] Abbreviation ex_reach := (reach (Key := ()) (W := simHost) (C := quicConn) (P := memPty) "" [] ex_cfg ex_host).

Lemma ex_started : ∃ w, start (P := memPty) ex_cfg 0 ex_host = Some (Ok ex_srv, w).
Proof. eexists. vm_compute. reflexivity. Qed.

Lemma ex_new_conn : new_conn (ex_conn 0).
Proof. split; [|done]. by destruct (ex_accepted (ex_session_with ex_broken_pty) 0) as (? & _). Qed.

(** The listener authenticates a connection and queues it. *)
Definition ex_dual (connCh : chan quicConn) (pc : loop_pc) : dual_conf :=
  DualConf (DualListener connCh false pc Accepting) [(OnQUIC, ex_conn 0)] [] [].

Lemma ex_authenticates :
  dual_step (DualConf newDualListener [] [] []) (ex_dual (make_chan _ 4) (Offering (ex_conn 0))).
Proof. by apply (dual_step_quic false (Ok (ex_conn 0)) (make_chan _ 4) false Accepting _ Accepting _ [] [] [] []). Qed.

Lemma ex_queues :
  dual_step (ex_dual (make_chan _ 4) (Offering (ex_conn 0))) (ex_dual (chan_send (make_chan _ 4) (ex_conn 0)) Accepting).
Proof. by apply (dual_step_quic false (Err EOF) (make_chan _ 4) false (Offering (ex_conn 0)) _ Accepting _ [] [(OnQUIC, ex_conn 0)] [] []). Qed.

Lemma ex_listening :
  ∃ x : ex_conf, ex_reach x ∧ c_dual x = ex_dual (chan_send (make_chan _ 4) (ex_conn 0)) Accepting ∧
    c_srv x = set_ln (BoundListener (bl_quic (v_ln ex_srv)) (bl_tcp (v_ln ex_srv)) (bl_port (v_ln ex_srv)) (du_dl (c_dual x))) ex_srv ∧
    c_locals x = Locals false false 0 ∧ c_turns x = 0 ∧ c_printed x = [].
Proof.
  destruct ex_started as [w Hs]. eexists. split.
  - eapply (r_listener _ _ _ _ _ (ex_dual (chan_send (make_chan _ 4) (ex_conn 0)) Accepting)).
    + eapply (r_listener _ _ _ _ _ (ex_dual (make_chan _ 4) (Offering (ex_conn 0)))).
      * by eapply r_start.
      * apply ex_authenticates.
      * done.
      * done.
      * intros c ->%list_elem_of_singleton. right. apply ex_new_conn.
    + apply ex_queues.
    + done.
    + done.
    + by left.
  - done.
Qed.

(** The steps after it: the client is accepted and attached, its size is read,
    the shell prints and exits. *)
Definition ex_get (o : option (srv (W := simHost) (C := quicConn) (P := memPty))) : srv := default ex_srv o.
Definition ex_v1 : srv := Eval vm_compute in
  set_ln (BoundListener (bl_quic (v_ln ex_srv)) (bl_tcp (v_ln ex_srv)) (bl_port (v_ln ex_srv))
            (du_dl (ex_dual (chan_send (make_chan _ 4) (ex_conn 0)) Accepting))) ex_srv.
Definition ex_v2 : srv := Eval vm_compute in ex_get (snd <$> acceptor_accept 0 false false ex_v1).
Definition ex_v3 : srv := Eval vm_compute in ex_get (acceptor_send 0 ex_v2).
Definition ex_l0 : locals := Locals false false 0.
Definition ex_l : locals := Locals true true Millisecond.
Definition ex_v4 : srv := Eval vm_compute in ex_get (snd <$> turn "" [] (ChAccept 0 None) Millisecond ex_l0 ex_v3).
Definition ex_v5 : srv := Eval vm_compute in ex_get (snd <$> reader_read 0 ex_v4).
Definition ex_v6 : srv := Eval vm_compute in ex_get (reader_send 0 ex_v5).
Definition ex_v7 : srv := Eval vm_compute in ex_get (pty_read [x24; x20] None ex_v6).
Definition ex_v8 : srv := Eval vm_compute in ex_get (pty_send ex_v7).
Definition ex_v9 : srv := Eval vm_compute in ex_get (waitShell None ex_v8).

Ltac evaluated := vm_compute; reflexivity.

(** The client has connected, the shell has printed, and its output is in the
    channel; the client's size is in [streamCh]. *)
Lemma ex_running :
  ∃ x : ex_conf, ex_reach x ∧ c_turns x = 1 ∧ c_printed x = [x24; x20] ∧ c_srv x = ex_v8 ∧ c_locals x = ex_l.
Proof.
  destruct ex_listening as (x & Hx & Hd & Hv & Hl & Ht & Hp). rewrite Hd in Hv. eexists. split; [|].
  - eapply (r_pty_send _ _ _ _ _ ex_v8).
    + eapply (r_pty_read _ _ _ _ _ [x24; x20] None ex_v7).
      * eapply (r_reader_send _ _ _ _ _ 0 ex_v6).
        -- eapply (r_reader_read _ _ _ _ _ 0 _ ex_v5).
           ++ eapply (r_turn _ _ _ _ _ (ChAccept 0 None) Millisecond _ _ ex_l ex_v4).
              ** eapply (r_accept_send _ _ _ _ _ 0 ex_v3).
                 --- eapply (r_accept _ _ _ _ _ 0 false false _ ex_v2); [exact Hx|]. rewrite Hv. evaluated.
                 --- evaluated.
              ** evaluated.
              ** done.
              ** simpl. rewrite Hl. evaluated.
           ++ evaluated.
           ++ done.
        -- evaluated.
      * done.
      * evaluated.
    + evaluated.
  - simpl. by rewrite Ht, Hp.
Qed.

(** Then it exits. *)
Lemma ex_exited :
  ∃ x : ex_conf, ex_reach x ∧ c_turns x = 1 ∧ c_printed x = [x24; x20] ∧ c_srv x = ex_v9 ∧ c_locals x = ex_l.
Proof.
  destruct ex_running as (x & Hx & Ht & Hp & Hv & Hl). eexists. split.
  - eapply (r_shell _ _ _ _ _ None ex_v9); [exact Hx|]. rewrite Hv. evaluated.
  - done.
Qed.

Lemma run_channels_witness :
  ∃ x : ex_conf, c_printed x = [x24; x20] ∧
  let v := c_srv x in
  session.reach "" [] False ex_cfg (c_turns x) (c_out x) (v_session v) (c_locals x) ∧
  (List.length (v_acceptors v) + List.length (ch_buf (v_acceptCh v)) = 1)%nat ∧
  NoDup (v_readers v).*1 ∧
  (∀ key, sel key (c_read x) = sel key (c_handled x ++ ch_buf (v_streamCh v) ++ held_events (v_readers v))) ∧
  c_printed x = c_out x ++ List.concat (ch_buf (v_ptyDataCh v)) ++ held_bytes (v_pty v) ∧
  du_closed (c_dual x) = [] ∧
  ∃ queued,
    c_taken x ++ oks (ch_buf (v_acceptCh v)) ++ held_conns (v_acceptors v) ++ ch_buf (dl_connCh (bl_loops (v_ln v))) = queued.*2 ∧
    ∀ t, on t (du_authenticated (c_dual x)) = on t queued ++ offered (loop_of t (bl_loops (v_ln v))).
Proof.
  destruct ex_exited as (x & Hx & _ & Hp & _). exists x. split; [exact Hp|].
  exact (run_channels "" [] ex_cfg ex_host x Hx).
Defined.
End sessionrun.
