(* ===== verification/SessionEnd.v ===== *)
(** * How the session ends: the deferred calls of [Run] ([internal/session/session.go])

    [SessionRun] models the loop with its goroutines; here is what is left when
    it returns or panics.  Three invariants of the loop carry it: an object
    that is not the current connection has been closed, the loop has an object
    for every connection it received, and the listener's sockets are those it
    opened. *)

From S2P Require Import Prelude GoIO Protocol Catchup Coalesce Transport Handshake Sender Pty Session Listen SessionRun.
Open Scope go_scope.

Module sessionend.
Import session listen sessionrun.

(** ** Connections that are not current *)

Section tidy.
Context {C : Type} `{ConnLaws C} {P : Type} `{PtyLib P}.
Variables (SHELL : string) (environ : list string).
#[local] Abbreviation Session := (session.Session (C := C) (P := P)).

(** Every object but the current connection, and [o], has been closed. *)
Definition tidy (o : option nat) (s : Session) : Prop :=
  ∀ j c, s_conns s !! j = Some c → o = Some j ∨ s_conn s = Some j ∨ shut c.

Definition tidier (s s' : Session) : Prop := ∀ o, tidy o s → tidy o s'.

#[export] Instance tidier_preorder : PreOrder tidier.
Proof. split; [by intros s o|]. intros s1 s2 s3 Ha Hb o ?. by apply Hb, Ha. Qed.

(** Nothing reopens a connection. *)
Definition keeps_shut {A} (c : io C A) : Prop := leaves (λ x x', shut x → shut x') c.

Lemma keeps_method f : (∀ c : C, shut c → shut (f c)) → keeps_shut (method f).
Proof. intros Hf x r x' [= _ <-]. apply Hf. Qed.

Lemma keeps_read {A} (f : C → A) : keeps_shut (λ c, Some (Ok (f c), c)).
Proof. by intros x r x' [= _ <-]. Qed.

Lemma keeps_WriteControl msg : keeps_shut (WriteControl msg).
Proof. intros x r x'. apply WriteControl_shut. Qed.
Lemma keeps_WriteData msg : keeps_shut (WriteData msg).
Proof. intros x r x'. apply WriteData_shut. Qed.
Lemma keeps_ReadControl : keeps_shut ReadControl.
Proof. intros x r x'. apply ReadControl_shut. Qed.

Lemma goroutine_shut (c c' : C) : goroutine_step c c' → shut c → shut c'.
Proof. intros [Hb|[[r Hr]|[r Hr]]]; [by apply background_shut|by eapply ReadControl_shut|by eapply ReadData_shut]. Qed.

Lemma tidy_update o (s : Session) i x x' :
  s_conns s !! i = Some x → (shut x → shut x') → tidy o s → tidy o (set_conns (<[i := x']> (s_conns s)) s).
Proof.
  intros Hi Hs Ht j c. simpl. destruct (decide (i = j)) as [<-|Hne].
  - rewrite lookup_insert_eq. intros [= <-]. destruct (Ht i x Hi) as [?|[?|?]]; auto.
  - rewrite lookup_insert_ne by done. apply Ht.
Qed.

Lemma tidier_same (s s' : Session) : s_conns s' = s_conns s → s_conn s' = s_conn s → tidier s s'.
Proof. intros Hc Hn o Ht j c. rewrite Hc, Hn. apply Ht. Qed.

Lemma tidier_call {A} i (c : io C A) : keeps_shut c → leaves tidier (call (P := P) i c).
Proof.
  intros Hc s r s'. unfold call. destruct (s_conns s !! i) as [x|] eqn:E; [|by intros [= _ <-]].
  destruct (c x) as [[r' x']|] eqn:Ec; [|done]. intros [= _ <-] o. eapply tidy_update; [done|]. by eapply Hc.
Qed.

Lemma tidier_get {A} (f : Session → A) : leaves tidier (get f).
Proof. apply leaves_read, _. Qed.

Lemma tidier_modify (f : Session → Session) : (∀ s, tidier s (f s)) → leaves tidier (modify f).
Proof. by intros Hf s r s' [= _ <-]. Qed.

Lemma tidier_on_ptmx {A} (c : io P A) : leaves tidier (on_ptmx (C := C) c).
Proof.
  intros s r s'. unfold on_ptmx. destruct (s_ptmx s); [|by intros [= _ <-]].
  destruct (c _) as [[r' p']|]; [|done]. intros [= _ <-]. by apply tidier_same.
Qed.

(** Closing the current connection: none is current then. *)
Lemma tidier_closeConn : leaves tidier (closeConn (C := C) (P := P)).
Proof.
  unfold closeConn. intros s r s'. rewrite bind_get. destruct (s_conn s) as [i|] eqn:Ei; [|by intros [= _ <-]].
  unfold io_bind, call. destruct (s_conns s !! i) as [x|] eqn:Ex; [|by intros [= _ <-]].
  intros [= _ <-] o Ht j c. simpl. destruct (decide (i = j)) as [<-|Hne].
  - rewrite lookup_insert_eq. intros [= <-]. right; right. apply Close_shut.
  - rewrite lookup_insert_ne by done. intros [?|[?|?]]%Ht; [by left|congruence|auto].
Qed.

(** It does so, if the pointer is one. *)
Lemma closeConn_wired (s : Session) :
  wired s → ∃ s', closeConn s = Some (Ok (), s') ∧ s_conn s' = None ∧ s_ptmx s' = s_ptmx s ∧ s_shellDone s' = s_shellDone s.
Proof.
  intros [Hp _]. unfold closeConn. rewrite bind_get. destruct (s_conn s) as [i|] eqn:Ei; [|by eexists]. specialize (Hp i eq_refl).
  destruct Hp as [x Hx]. unfold io_bind, call. rewrite Hx. by eexists.
Qed.

#[local] Hint Resolve keeps_read keeps_WriteControl keeps_WriteData keeps_ReadControl SetDeadline_shut StartDemux_shut : leaves.
#[local] Hint Extern 1 (keeps_shut (method _)) => apply keeps_method : leaves.
#[local] Hint Resolve tidier_get tidier_call tidier_on_ptmx tidier_closeConn : leaves.
#[local] Hint Extern 2 (leaves tidier (modify _)) => by (apply tidier_modify; intros; apply tidier_same) : leaves.

Lemma tidier_flush now : leaves tidier (flushCoalesced (C := C) (P := P) now).
Proof.
  unfold flushCoalesced, coal_Flush, buf_Store. solve_leaves.
  - intros s r s'. destruct (coalesce.Flush _ _). intros [= _ <-]. by apply tidier_same.
  - intros s r s'. destruct (catchup.Store _ _ _) as [[]|]; [..|done]; intros [= _ <-]; by apply tidier_same.
Qed.

#[local] Hint Resolve tidier_flush : leaves.

Lemma tidier_event ev : leaves tidier (handleStreamEvent (C := C) (P := P) ev).
Proof. unfold handleStreamEvent. solve_leaves. Qed.

Lemma tidier_replay i es : leaves tidier (replay (C := C) (P := P) i es).
Proof. induction es as [|e es IH]; cbn [replay]; solve_leaves. Qed.

#[local] Hint Resolve tidier_event tidier_replay : leaves.

Lemma tidier_handshake i : leaves tidier (handshake (C := C) (P := P) SHELL environ i).
Proof. unfold handshake, await_terminal, spawn, catch_up. solve_leaves. Qed.

Lemma tidier_shutdown now : leaves tidier (gracefulShutdown (C := C) (P := P) now).
Proof. unfold gracefulShutdown. solve_leaves. Qed.

#[local] Hint Resolve tidier_shutdown tidier_handshake : leaves.

(** Any event but a new connection. *)
Lemma tidier_handle l now e : is_accept e = false → leaves tidier (handle (C := C) (P := P) SHELL environ l now e).
Proof.
  destruct e as [[d|]| |ev|[conn|err|p] ctx| |err|err]; try done; intros _; unfold handle; solve_leaves.
  - intros s r s'. destruct (coalesce.Add _ _ _). intros [= _ <-]. by apply tidier_same.
  - intros s r s'. destruct (coalesce.recv_Timer _ _); [|done]. intros [= _ <-]. by apply tidier_same.
Qed.
(** A new connection: the old one is closed before the new one is current. *)
Lemma tidy_accept cfg N out (s : Session) l i c ctx now r s' :
  session.reach SHELL environ False cfg N out s l → N + 1 < 2 ^ 64 → s_conns s !! i = None → accepted False s c → tidy None s →
  handle SHELL environ l now (EvAccept (Ok i) ctx) (set_conns (<[i := c]> (s_conns s)) s) = Some (r, s') → tidy None s'.
Proof.
  intros Hr HN Hi Hacc Ht Hh.
  apply (session.reach_inv _ _ _ (ReplaySize cfg) []) in Hr as [_ Hinv]; [|done|done|lia].
  pose proof (session.inv_accept False (ReplaySize cfg) [] N out s i c Hinv Hi Hacc) as (hist & _ & Hb & Hcur & _ & HlN & _).
  set (s0 := set_conns _ s) in *. simpl in Hh. apply io_bind_split in Hh as (r1 & s1 & Ht1 & Hk).
  assert (tidy None s1) as Ht1'.
  { unfold io_try in Ht1. destruct (handleNewConn _ _ _ _ _) as [[r2 s2]|] eqn:En; [|done].
    assert (s1 = s2) as -> by (by destruct r2; injection Ht1 as _ <-). clear Ht1 Hk.
    unfold handleNewConn in En. apply io_bind_split in En as (r3 & s3 & Hc & Hk).
    assert (tidy (Some i) s0) as Ht0.
    { intros j x. simpl. destruct (decide (i = j)) as [<-|Hne]; [by left|]. rewrite lookup_insert_ne by done.
      intros [?|?]%Ht; [done|by right]. }
    pose proof (tidier_closeConn _ _ _ Hc _ Ht0) as Ht3.
    eapply closeConn_spec in Hc as (-> & Hb3 & Hn3 & _); [|done].
    apply io_bind_split in Hk as (r4 & s4 & Hf & Hk). pose proof (tidier_flush _ _ _ _ Hf _ Ht3) as Ht4.
    eapply flushCoalesced_spec in Hf as (-> & hist' & _ & _ & _ & _ & Hn4 & _); [|done|intros j Hj; congruence|lia].
    rewrite bind_modify in Hk. eapply tidier_handshake; [exact Hk|]. intros j x Hj. simpl in *.
    destruct (Ht4 j x Hj) as [?|[?|?]]; [by right; left|destruct Hn4; congruence|auto]. }
  destruct r1 as [r1|e|p]; [|by destruct Hk as [_ ->]..].
  assert (leaves tidier (match r1 with Err err => io_ret (inr (Some (ErrWrap "handle new conn: %w" err)))
    | _ => made <- get s_ptyDataCh ;; io_ret (inl (if made && negb (l_ptyDataCh l) then Locals true true now
                   else Locals (l_ptyDataCh l) (l_shellDone l) now)) end : io Session (locals + option error))) as Hl by solve_leaves.
  by eapply Hl.
Qed.
End tidy.

(** ** Along a run *)

Section along.
Context {Key W : Type} `{NetLib Key W} {C : Type} `{ConnLaws C} {P : Type} `{PtyLib P}.
Variables (SHELL : string) (environ : list string) (cfg : Config).
#[local] Abbreviation srv := (srv (W := W) (C := C) (P := P)).
#[local] Abbreviation conf := (conf (W := W) (C := C) (P := P)).
#[local] Abbreviation reach := (reach (W := W) (C := C) (P := P) SHELL environ cfg).

(** The sockets are the same; and the session is. *)
Definition bound (v v' : srv) : Prop :=
  v_net v' = v_net v ∧ bl_quic (v_ln v') = bl_quic (v_ln v) ∧ bl_tcp (v_ln v') = bl_tcp (v_ln v) ∧
  bl_port (v_ln v') = bl_port (v_ln v).
Definition quiet (v v' : srv) : Prop := v_session v' = v_session v ∧ bound v v'.

Lemma reader_send_quiet k v v' : reader_send k v = Some v' → quiet v v'.
Proof.
  unfold reader_send. destruct (v_readers v !! k) as [[key [ev|]]|]; [|done..]. destruct (chan_can_send _); [|done]. by intros [= <-].
Qed.

Lemma acceptor_accept_quiet k d df r v v' : acceptor_accept k d df v = Some (r, v') → quiet v v'.
Proof.
  unfold acceptor_accept. destruct (v_acceptors v !! k) as [[?|]|]; [done| |done].
  destruct (dual_Accept _ _ _) as [[r' loops]|]; [|done]. by intros [= _ <-].
Qed.

Lemma acceptor_send_quiet k v v' : acceptor_send k v = Some v' → quiet v v'.
Proof.
  unfold acceptor_send. destruct (v_acceptors v !! k) as [[r|]|]; [|done..]. destruct (chan_can_send _); [|done]. by intros [= <-].
Qed.

Lemma pty_exit_quiet last ch (v : srv) : quiet v (let '(pc, ch) := pty_exit last ch in set_pty pc ch v).
Proof. destruct last; by repeat split. Qed.

Lemma pty_read_quiet data err v v' : pty_read data err v = Some v' → quiet v v'.
Proof.
  unfold pty_read. destruct (v_pty v) as [[|out l|]|]; [|done..]. intros [= <-].
  unfold readPTY_iter. destruct (0 <? len data); [by repeat split|apply pty_exit_quiet].
Qed.

Lemma pty_send_quiet v v' : pty_send v = Some v' → quiet v v'.
Proof.
  unfold pty_send. destruct (v_pty v) as [[|out l|]|]; [done| |done..]. destruct (chan_can_send _); [|done]. intros [= <-].
  apply pty_exit_quiet.
Qed.

Lemma waitShell_quiet err v v' : waitShell err v = Some v' → quiet v v'.
Proof. unfold waitShell. destruct (v_shell v) as [[?|]|]; [done| |done]. by intros [= <-]. Qed.

(** A reader's step is one of its connection. *)
Lemma reader_read_goroutine k ev v v' :
  reader_read k v = Some (Ok ev, v') →
  bound v v' ∧ ∃ i y y', s_conns (v_session v) !! i = Some y ∧ goroutine_step y y' ∧
    v_session v' = set_conns (<[i := y']> (s_conns (v_session v))) (v_session v).
Proof.
  unfold reader_read. destruct (v_readers v !! k) as [[[i st] [?|]]|]; [done| |done].
  destruct (on_session _ _) as [[[ev'|e|p] v1]|] eqn:E; [|done..]. intros [= -> <-].
  apply zoom_inv in E as (s1 & (_ & _ & y & y' & Hy & Hg & ->)%readStream_inv & ->). split; [done|]. by exists i, y, y'.
Qed.

Lemma turn_bound c now l v r v' : turn SHELL environ c now l v = Some (r, v') → bound v v'.
Proof.
  intros (e & v1 & s' & Hr & _ & ->)%turn_inv. assert (bound v v1) as Hb; [|done]. clear -Hr.
  destruct c as [| | |i ctx| | |err]; simpl in Hr.
  - destruct (l_ptyDataCh l); [|done]. destruct (chan_recv _) as [[d ch]|]; [|done]. by injection Hr as _ <-.
  - by injection Hr as _ <-.
  - destruct (chan_recv _) as [[[ev|] ch]|]; [|done..]. by injection Hr as _ <-.
  - destruct (chan_recv _) as [[[[conn|err|p]|] ch]|]; [destruct (s_conns _ !! i)| | | |]; try done; by injection Hr as _ <-.
  - by injection Hr as _ <-.
  - destruct (l_shellDone l); [|done]. destruct (v_shell v) as [[err|]|]; [|done..]. by injection Hr as _ <-.
  - by injection Hr as _ <-.
Qed.

(** A turn of the loop keeps the connections tidy, whatever its result. *)
Lemma turn_tidy w0 x c now r v :
  reach w0 x → c_turns x + 1 < 2 ^ 64 → tidy None (v_session (c_srv x)) →
  turn SHELL environ c now (c_locals x) (c_srv x) = Some (r, v) → tidy None (v_session v).
Proof.
  intros (Hreach & _ & Hf)%channels_inv HN Ht (e & v1 & s' & Hr & Hh & ->)%turn_inv. simpl.
  destruct (is_accept e) eqn:Ea.
  - destruct e as [| | |[i| |] ctx| | |]; try done.
    destruct (receive_accept _ _ _ _ _ _ Hr) as (conn & _ & Hb & Hi & Hs & _). rewrite Hs in Hh.
    eapply tidy_accept; [exact Hreach|done|exact Hi| |done|exact Hh].
    assert (new_conn conn) as [Hc Hu]; [|by split].
    apply (returned_new x); [done|]. rewrite (i_conns _ Hf), Hb. set_solver.
  - destruct (receive_session _ _ _ _ _ Hr Ea) as (Hs & _). rewrite Hs in Hh. by eapply (tidier_handle _ _ _ _ _ Ea).
Qed.

(** ... and has an object for each connection received. *)
Lemma size_lasting (s s' : session.Session (C := C) (P := P)) : lasting s s' → size (s_conns s') = size (s_conns s).
Proof. intros (Hi & _). rewrite <-!size_dom. f_equal. apply set_eq. intros i. by rewrite !elem_of_dom, Hi. Qed.

Lemma turn_lasting c now l (v v' : srv) r :
  turn SHELL environ c now l v = Some (r, v') →
  (wired (v_session v) → wired (v_session v')) ∧
  size (s_conns (v_session v')) = (size (s_conns (v_session v)) + List.length (conn_taken c v))%nat.
Proof.
  intros (e & v1 & s' & Hr & Hh & ->)%turn_inv. simpl. destruct (is_accept e) eqn:Ea.
  - destruct e as [| | |[i| |] ctx| | |]; try done.
    destruct (receive_accept _ _ _ _ _ _ Hr) as (conn & -> & Hb & Hi & Hs & _).
    assert (is_Some (s_conns (v_session v1) !! i)) as Hi1 by (rewrite Hs; simpl; by rewrite lookup_insert_eq).
    destruct (attends_handle SHELL environ _ _ _ _ _ _ _ Hi1 Hh) as [Hlast _]. split.
    + intros [Hp Hw]. apply Hlast. rewrite Hs. split; [|exact Hw]. intros j Hj. simpl in *. apply lookup_insert_is_Some'. right. by apply Hp.
    + rewrite (size_lasting _ _ Hlast), Hs. simpl. rewrite map_size_insert_None by done.
      unfold chan_recv. rewrite Hb. simpl. lia.
  - destruct (receive_session _ _ _ _ _ Hr Ea) as (Hs & _).
    destruct (steady_handle SHELL environ _ _ _ Ea _ _ _ Hh) as [_ Hlast]. rewrite Hs in Hlast. split; [apply Hlast|].
    rewrite (size_lasting _ _ Hlast). assert (conn_taken c v = []) as ->; [|simpl; lia].
    destruct c as [| | |i ctx| | |]; try done. simpl in *. destruct (chan_recv _) as [[[[conn|err|p]|] ch]|]; try done.
    destruct (s_conns _ !! i); [done|]. by injection Hr as <- <-.
Qed.

(** The session is kept in order. *)
Definition in_order (x : conf) : Prop :=
  tidy None (v_session (c_srv x)) ∧ wired (v_session (c_srv x)) ∧
  size (s_conns (v_session (c_srv x))) = List.length (c_taken x).

Lemma in_order_update (s : session.Session (C := C) (P := P)) i y y' :
  s_conns s !! i = Some y → goroutine_step y y' → let s' := set_conns (<[i := y']> (s_conns s)) s in
  (tidy None s → tidy None s') ∧ (wired s → wired s') ∧ size (s_conns s') = size (s_conns s).
Proof.
  intros Hi Hg s'. assert (steady s s') as [_ Hl] by (apply steady_update; by rewrite Hi).
  split; [|split; [apply Hl|by apply size_lasting]]. by eapply tidy_update, goroutine_shut.
Qed.

Lemma reach_in_order w0 x : reach w0 x → c_turns x < 2 ^ 64 → in_order x.
Proof.
  unfold in_order. induction 1 as [now v w Hs|x c now e v l v' Hx IH Hr _ Ht|x k ev v Hx IH Hr _|x k v Hx IH Hr|x k d df r v Hx IH Hr|x k v Hx IH Hr
    |x d Hx IH|x data err v Hx IH _ Hr|x v Hx IH Hr|x err v Hx IH Hr|x i c c' Hx IH Hi Hb]; simpl; intros HN.
  - assert (s_conns (v_session v) = ∅ ∧ s_conn (v_session v) = None ∧ s_ptmx (v_session v) = None) as (Hc & Hn & Hp).
    { unfold start in Hs. apply io_bind_inv in Hs as (ln & w1 & _ & Hk). unfold New in Hk.
      destruct (coalesce.New now); [|done]. by injection Hk as <- _. }
    split_and!; [intros j y; by rewrite Hc|split; [intros j; by rewrite Hn|rewrite Hp; by intros []]|by rewrite Hc].
  - assert (0 <= c_turns x) as Hpos.
    { apply channels_inv in Hx as [Hx _]. by apply (session.reach_inv _ _ _ (ReplaySize cfg) []) in Hx as [? _]; [..|lia]. }
    destruct IH as (Hti & Hp & Hsz); [lia|]. destruct (turn_lasting _ _ _ _ _ _ Ht) as [Hp' Hsz'].
    split_and!; [by eapply turn_tidy|by apply Hp'|rewrite length_app; lia].
  - apply reader_read_goroutine in Hr as (_ & i & y & y' & Hy & Hg & ->).
    destruct (in_order_update _ _ _ _ Hy Hg) as (Ha & Hb & Hc). destruct (IH HN) as (? & ? & <-). by split; [apply Ha|split; [apply Hb|]].
  - apply reader_send_quiet in Hr as [-> _]. by apply IH.
  - apply acceptor_accept_quiet in Hr as [-> _]. by apply IH.
  - apply acceptor_send_quiet in Hr as [-> _]. by apply IH.
  - by apply IH.
  - apply pty_read_quiet in Hr as [-> _]. by apply IH.
  - apply pty_send_quiet in Hr as [-> _]. by apply IH.
  - apply waitShell_quiet in Hr as [-> _]. by apply IH.
  - destruct (in_order_update _ _ _ c' Hi (or_introl Hb)) as (Ha & Hb' & Hc). destruct (IH HN) as (? & ? & <-).
    by split; [apply Ha|split; [apply Hb'|]].
Qed.

(** A session whose PTY channels exist has a [waitShell]. *)
Lemma turn_shell w0 x c now r v :
  reach w0 x → turn SHELL environ c now (c_locals x) (c_srv x) = Some (r, v) → s_ptyDataCh (v_session v) = true →
  v_shell v ≠ None.
Proof.
  intros (_ & _ & Hf)%channels_inv (e & v1 & s' & Hr & _ & ->)%turn_inv. simpl. unfold spawned. intros ->. simpl.
  assert (s_ptyDataCh (v_session v1) = s_ptyDataCh (v_session (c_srv x)) ∧ v_shell v1 = v_shell (c_srv x)) as [-> ->].
  { destruct (is_accept e) eqn:Ea.
    - destruct e as [| | |[i| |] ctx| | |]; try done. by apply receive_accept in Hr as (conn & _ & _ & _ & -> & _ & _ & _ & _ & ->).
    - destruct (receive_session _ _ _ _ _ Hr Ea) as (-> & _ & _ & _ & _ & ->). done. }
  destruct (s_ptyDataCh _) eqn:E; [|done]. by apply (p_shell _ _ (i_pty _ Hf)).
Qed.

(** The sockets are those that were opened. *)
Lemma reach_bound w0 x : reach w0 x → ∃ now v0 w, start cfg now w0 = Some (Ok v0, w) ∧ bound v0 (c_srv x).
Proof.
  assert (∀ v0 v v' : srv, bound v0 v → bound v v' → bound v0 v') as Htrans.
  { intros v0 v v' (? & ? & ? & ?) (? & ? & ? & ?). split_and!; congruence. }
  induction 1 as [now v w Hs|x c now e v l v' Hx IH Hr _ Ht|x k ev v Hx IH Hr _|x k v Hx IH Hr|x k d df r v Hx IH Hr|x k v Hx IH Hr
    |x d Hx IH|x data err v Hx IH _ Hr|x v Hx IH Hr|x err v Hx IH Hr|x i c c' Hx IH Hi Hb];
    [by exists now, v, w|destruct IH as (now' & v0 & w & Hs & Hbd); exists now', v0, w; split; [done|]; eapply Htrans; [exact Hbd|]..]; simpl.
  - by eapply turn_bound.
  - by apply reader_read_goroutine in Hr as [? _].
  - by apply reader_send_quiet in Hr as [_ ?].
  - by apply acceptor_accept_quiet in Hr as [_ ?].
  - by apply acceptor_send_quiet in Hr as [_ ?].
  - done.
  - by apply pty_read_quiet in Hr as [_ ?].
  - by apply pty_send_quiet in Hr as [_ ?].
  - by apply waitShell_quiet in Hr as [_ ?].
  - done.
Qed.
End along.

(** ** The deferred calls *)

Section ends.
Context {Key W : Type} `{NetLaws Key W} {C : Type} `{ConnLaws C} {P : Type} `{PtyLib P}.
Variables (SHELL : string) (environ : list string) (cfg : Config).
#[local] Abbreviation srv := (srv (W := W) (C := C) (P := P)).
#[local] Abbreviation conf := (conf (W := W) (C := C) (P := P)).
#[local] Abbreviation reach := (reach (W := W) (C := C) (P := P) SHELL environ cfg).

(** The loop's body returns no error of its own. *)
Lemma evict_errless b e : catchup.evictOldest b ≠ Err e.
Proof. unfold catchup.evictOldest, go_index, go_store. simpl. by repeat case_match; simplify_eq. Qed.

Lemma Store_errless b q p e : catchup.Store b q p ≠ Some (Err e).
Proof.
  unfold catchup.Store. destruct (catchup.evict_loop _ b _) as [[b'|e'|p']|] eqn:E; [|exfalso|done..].
  - unfold catchup.store_entry, go_store. pose proof (evict_errless b') as Hb. simpl.
    destruct (catchup.capacity b' <=? catchup.count b'); [destruct (catchup.evictOldest b') as [b1|e1|p1]; [|by destruct (Hb e1)|done]|];
      simpl; by repeat case_match; simplify_eq.
  - revert E. generalize (Z.to_nat (catchup.count b)). intros n. revert b. induction n as [|n IH]; intros b; simpl; destruct (_ && _); try done.
    destruct (catchup.evictOldest b) as [b1|e1|p1] eqn:Eo; [apply IH| |done]. by destruct (evict_errless b e1).
Qed.

Lemma errless_sget {A} (f : session.Session (C := C) (P := P) → A) : errless (session.get f).
Proof. by intros s r s' [= <- _]. Qed.
Lemma errless_smodify (f : session.Session (C := C) (P := P) → session.Session) : errless (session.modify f).
Proof. by intros s r s' [= <- _]. Qed.
Lemma errless_smethod i f : errless (session.call (P := P) i (method (C := C) f)).
Proof. intros s r s'. unfold session.call. destruct (s_conns s !! i); simpl; by intros [= <- _]. Qed.
#[local] Hint Resolve errless_sget errless_smodify errless_smethod : leaves.

Lemma errless_closeConn : errless (closeConn (C := C) (P := P)).
Proof. unfold closeConn. solve_errless. Qed.
#[local] Hint Resolve errless_closeConn : leaves.

Lemma errless_flush now : errless (flushCoalesced (C := C) (P := P) now).
Proof.
  unfold flushCoalesced. solve_errless.
  - intros s r s'. unfold coal_Flush. destruct (coalesce.Flush _ _). by intros [= <- _].
  - intros s r s'. unfold buf_Store. pose proof (Store_errless (s_buf s)) as Hs.
    destruct (catchup.Store _ _ _) as [[]|] eqn:E; intros [= <- _]; try done. by apply Hs in E.
Qed.
#[local] Hint Resolve errless_flush : leaves.

Lemma errless_handle l now e : match e with EvAccept (Panicked _) _ => False | _ => True end →
  errless (handle (C := C) (P := P) SHELL environ l now e).
Proof.
  destruct e as [[d|]| |ev|[conn|err|p] ctx| |err|err]; intros He; try done; unfold handle, gracefulShutdown; solve_errless.
  - intros s r s'. destruct (coalesce.Add _ _ _). by intros [= <- _].
  - intros s r s'. destruct (coalesce.recv_Timer _ _); [|done]. by intros [= <- _].
Qed.

(** A turn of the loop continues, returns or panics. *)
Lemma turn_errless c now l (v v' : srv) e : turn SHELL environ c now l v ≠ Some (Err e, v').
Proof.
  intros (ev & v1 & s' & Hr & Hh & _)%turn_inv. eapply errless_handle; [|exact Hh|done].
  by destruct ev as [| | |[i|err|p] ctx| | |].
Qed.

Lemma start_listens now w0 (v0 : srv) w :
  start cfg now w0 = Some (Ok v0, w) →
  ListenDual (Port cfg) (Passkey cfg) w0 = Some (Ok (v_ln v0), v_net v0).
Proof.
  unfold start, run_listen. intros ([ln port] & w1 & Hl & Hk)%io_bind_inv.
  apply io_bind_inv in Hl as (ln' & w2 & Hl%io_wrap_inv & [= <- _ <-]).
  destruct (New cfg now); [|done]. by injection Hk as <- _.
Qed.

(** Closing the listener leaves what there was before [Run]. *)
Lemma close_settles w0 x (v : srv) :
  reach w0 x → bound (c_srv x) v →
  settles (dual_listener_Close (v_ln v)) (v_net v) (λ r (x' : host), x'.1 = (view w0).1 ∧
    ∃ l' err, r = Ok (l', dual_drain (ch_buf (dl_connCh (bl_loops (v_ln v)))), err) ∧ dl_cancelled (bl_loops l') = true).
Proof.
  intros (now & v0 & w & Hs%start_listens & (Hn & Hq & Ht & Hp))%reach_bound (Hn' & Hq' & Ht' & Hp').
  destruct (listen_dual_one_port (C := C) (Port cfg) (Passkey cfg) w0) as (r & w1 & E & _ & Ho).
  rewrite Hs in E. injection E as <- <-. destruct Ho as (s & q & t & p & _ & _ & Hl & _ & _ & _ & _ & Hc).
  rewrite Hl in *. simpl in *. rewrite Hn' , Hn.
  assert (v_ln v = BoundListener (QuicListener s q p (Passkey cfg)) (TcpListener t p (Passkey cfg)) p (bl_loops (v_ln v))) as ->.
  { destruct (v_ln v); simpl in *. congruence. }
  by apply Hc.
Qed.

(** The shell after the wait of [cleanupShell], and whether it is still running. *)
Definition shell_after (wait : option (option error)) (v : srv) : option (option (option error)) :=
  match v_shell v, wait with Some None, Some err => Some (Some err) | x, _ => x end.
Definition still_runs (wait : option (option error)) (v : srv) : bool :=
  match shell_after wait v with Some None => true | _ => false end.

(** The deferred calls all return. *)
Lemma deferred_runs wait (v : srv) (x0 : host) queued :
  wired (v_session v) → (is_Some (s_ptmx (v_session v)) → v_shell v ≠ None) →
  settles (dual_listener_Close (v_ln v)) (v_net v) (λ r (x' : host),
    x'.1 = x0.1 ∧ ∃ l' err, r = Ok (l', queued, err) ∧ dl_cancelled (bl_loops l') = true) →
  let s1 := set_coal (coalesce.Stop (s_coal (v_session v))) (v_session v) in
  ∃ s2 v', closeConn s1 = Some (Ok (), s2) ∧
    deferred wait v = Some (Ok (bool_decide (is_Some (s_ptmx (v_session v))) && still_runs wait v, queued), v') ∧
    s_conns (v_session v') = s_conns s2 ∧ s_conn (v_session v') = None ∧ s_ptmx (v_session v') = pty_Close <$> s_ptmx (v_session v) ∧
    (view (v_net v')).1 = x0.1 ∧ dl_cancelled (bl_loops (v_ln v')) = true ∧
    v_acceptCh v' = v_acceptCh v ∧ v_acceptors v' = v_acceptors v ∧ v_shell v' = shell_after wait v.
Proof.
  intros Hp Hsh (r & w' & Hc & _ & Hx & l' & err & -> & Hd) s1.
  destruct (closeConn_wired s1) as (s2 & Hs2 & Hn2 & Hp2 & Hd2); [exact Hp|].
  change (s_ptmx s1) with (s_ptmx (v_session v)) in Hp2. change (s_shellDone s1) with (s_shellDone (v_session v)) in Hd2.
  unfold deferred, on_session, on_net, close_listener, io_zoom, io_bind, session.modify. simpl. fold s1. rewrite Hs2. simpl.
  unfold on_net, io_zoom. simpl. rewrite Hc. simpl. unfold cleanup, on_session, io_zoom, still_runs, shell_after, shell_closed, waitShell.
  destruct Hp as [_ Hp]. destruct (s_ptmx (v_session v)) as [p|] eqn:Ep.
  - destruct (Hp ltac:(done)) as [_ Hdone]. simpl.
    destruct (v_shell v) as [[e|]|] eqn:Es; [| |by destruct (Hsh ltac:(done))]; destruct wait as [err'|]; simpl; unfold cleanupShell;
      rewrite bind_get; simpl; rewrite Hp2, bind_modify, bind_get; simpl; rewrite Hd2, Hdone, ?Es; eexists s2, _;
      (split; [reflexivity|]); (split; [reflexivity|by split_and!]).
  - simpl. destruct (v_shell v) as [[e|]|] eqn:Es; destruct wait as [err'|]; simpl; unfold cleanupShell;
      rewrite bind_get; simpl; rewrite Hp2, ?Es; eexists s2, _; (split; [reflexivity|]); (split; [reflexivity|by split_and!]).
Qed.

Lemma start_fails now w0 e w :
  start (C := C) (P := P) cfg now w0 = Some (Err e, w) → (view w).1 = (view w0).1.
Proof.
  unfold start, run_listen. destruct (listen_dual_one_port (C := C) (Port cfg) (Passkey cfg) w0) as (r & w1 & E & _ & Ho).
  unfold io_bind, io_wrap. rewrite E. destruct r as [l|e'|p]; simpl; [by repeat case_match| |done].
  intros [= _ <-]. by destruct Ho.
Qed.

(** ** Properties *)

(** [Close] has been called on every connection object. *)
Definition all_shut (s : session.Session (C := C) (P := P)) : Prop := ∀ i c, s_conns s !! i = Some c → shut c.

(** C7: What [Run] leaves behind.  If it cannot listen, nothing listens that
    did not before.  From any state of the loop that the goroutines can bring
    about: once an iteration returns or panics, the deferred calls all run and
    [Run] returns, a panic as an error.  Then every connection the loop ever
    received, one object for each, has been closed; so have those still queued
    in the listener; nothing listens that did not before; the PTY is closed, and
    the shell has exited or is killed: killed exactly if there is one, it had
    not exited, and does not within [shellExitGrace].  What is still on its way in [acceptCh] stays there, and open. *)
Theorem run_leaves_nothing w0 :
  (∀ now e w, start (C := C) (P := P) cfg now w0 = Some (Err e, w) → (view w).1 = (view w0).1) ∧
  ∀ x ch now r v wait,
    reach w0 x → c_turns x + 1 < 2 ^ 64 →
    turn SHELL environ ch now (c_locals x) (c_srv x) = Some (r, v) → (∀ l, r ≠ Ok (inl l)) →
    ∃ err killed v',
      finish wait r v = Some (Ok (inr err), Some (killed, Close <$> ch_buf (dl_connCh (bl_loops (v_ln v)))), v') ∧
      (panics r = true → err ≠ None) ∧
      s_conn (v_session v') = None ∧ all_shut (v_session v') ∧
      size (s_conns (v_session v')) = List.length (c_taken x ++ conn_taken ch (c_srv x)) ∧
      (view (v_net v')).1 = (view w0).1 ∧ dl_cancelled (bl_loops (v_ln v')) = true ∧
      s_ptmx (v_session v') = pty_Close <$> s_ptmx (v_session v) ∧
      (killed = true ↔ is_Some (s_ptmx (v_session v)) ∧ v_shell v = Some None ∧ wait = None) ∧
      (is_Some (s_ptmx (v_session v)) → killed = false → ∃ e, v_shell v' = Some (Some e)) ∧
      v_acceptCh v' = v_acceptCh v ∧ v_acceptors v' = v_acceptors v.
Proof.
  split; [intros now e w; apply start_fails|]. intros x ch now r v wait Hx HN Ht Hend.
  destruct (reach_in_order SHELL environ cfg w0 x Hx ltac:(lia)) as (Hti & Hp & Hsz).
  pose proof (turn_tidy _ _ _ _ _ _ _ _ _ Hx HN Hti Ht) as Hti'.
  destruct (turn_lasting _ _ _ _ _ _ _ _ Ht) as [Hp' Hsz'].
  pose proof (close_settles w0 x v Hx (turn_bound _ _ _ _ _ _ _ _ Ht)) as Hc.
  assert (is_Some (s_ptmx (v_session v)) → v_shell v ≠ None) as Hsh.
  { intros Hpt. eapply turn_shell; [exact Hx|exact Ht|]. by apply (proj2 (Hp' Hp)). }
  destruct (deferred_runs wait v (view w0) _ (Hp' Hp) Hsh Hc) as (s2 & v' & Hs2 & Hd & Hcs & Hn & Hpt & Hw & Hcan & Hac1 & Hac2 & Hsh').
  assert (∃ err, recovered r = Ok (inr err) ∧ (panics r = true → err ≠ None)) as (err & Hr & Herr).
  { destruct r as [[l|err]|e|p]; [by destruct (Hend l)|by exists err|by destruct (turn_errless _ _ _ _ _ _ Ht)|by eexists]. }
  exists err, (bool_decide (is_Some (s_ptmx (v_session v))) && still_runs wait v), v'. unfold finish. rewrite Hd, Hr.
  assert (tidy None s2) as Ht2 by (eapply tidier_closeConn; [exact Hs2|]; by apply Hti').
  assert (s_conn s2 = None) as Hn2.
  { destruct (closeConn_wired (set_coal (coalesce.Stop (s_coal (v_session v))) (v_session v))) as (s3 & Hs3 & Hn3 & _); [by apply Hp'|].
    congruence. }
  assert (lasting (v_session v) s2) as Hlast.
  { eapply steady_closeConn in Hs2 as [_ Hl]. etrans; [|exact Hl]. by split. }
  split_and!; try done.
  - intros i c. rewrite Hcs. intros [?|[?|?]]%Ht2; [done|congruence|done].
  - rewrite Hcs, (size_lasting _ _ Hlast), Hsz', Hsz, length_app. done.
  - rewrite andb_true_iff, bool_decide_eq_true. unfold still_runs, shell_after.
    destruct (v_shell v) as [[e|]|], wait; split; naive_solver.
  - intros His Hk. rewrite bool_decide_eq_true_2 in Hk by done. specialize (Hsh His). rewrite Hsh'. revert Hk.
    unfold still_runs. destruct (shell_after wait v) as [[e|]|] eqn:Ea; [by eexists|done|].
    unfold shell_after in Ea. by destruct (v_shell v) as [[e|]|], wait.
Qed.
End ends.

(** ** The shell's last output *)

Section last_output.
Context {Key W : Type} `{NetLib Key W} {C : Type} `{ConnLaws C} {P : Type} `{PtyLib P}.
Variables (SHELL : string) (environ : list string) (cfg : Config).

(** After the flush nothing is added. *)
Lemma shutdown_flushes hon n out hist now (s : session.Session (C := C) (P := P)) r s' :
  base hon n out hist s → current hon n hist s → len hist + 1 < 2 ^ 64 →
  gracefulShutdown now s = Some (r, s') → coalesce.buf (s_coal s') = [].
Proof.
  intros Hb Hc Hl. unfold gracefulShutdown. intros (r1 & s1 & Hf & Hk)%io_bind_split.
  eapply flushCoalesced_spec in Hf as (-> & hist' & _ & _ & _ & He & _); [|done..]. rewrite bind_get in Hk.
  destruct (s_conn s1) as [i|]; [|by injection Hk as _ <-].
  apply io_bind_split in Hk as (r2 & s2 & Ht & Hk). assert (s_coal s2 = s_coal s1) as He2.
  { unfold io_try, session.call in Ht. destruct (s_conns s1 !! i); [|by injection Ht as _ <-].
    destruct (WriteControl _ _) as [[[]]|]; [..|done]; by injection Ht as _ <-. }
  rewrite <-He, <-He2. destruct r2; [by injection Hk as _ <-|by destruct Hk as [_ ->]..].
Qed.

(** What the shell printed and the loop has not received. *)
Definition undelivered (v : srv (W := W) (C := C) (P := P)) : bytes :=
  List.concat (ch_buf (v_ptyDataCh v)) ++ held_bytes (v_pty v).

(** C35: The shell's last output can be lost.  When [shellDone] is closed the
    select may take it whatever is still in [ptyDataCh]: [Run] returns, the
    batches flushed by then are all that any connection is ever sent, and of
    what the shell printed the part that [ptyDataCh] and [readPTY] hold is in
    none of them. *)
Theorem shell_exit_loses_output w0 x now err r v :
  reach (W := W) (C := C) (P := P) SHELL environ cfg w0 x → c_turns x + 1 < 2 ^ 64 →
  v_shell (c_srv x) = Some (Some err) →
  turn SHELL environ ChShellDone now (c_locals x) (c_srv x) = Some (r, v) →
  r = Ok (inr (match err with Some e => Some (ErrWrap "shell exited: %w" e) | None => None end)) ∧
  ∃ hist,
    c_printed x = List.concat hist ++ undelivered v ∧ s_sendSeq (v_session v) = len hist ∧
    ∀ i c, s_conns (v_session v) !! i = Some c → ∃ cs ds k, sent c cs ds ∧
      ds `prefix_of` run_from (Sender.start (ReplaySize cfg) (take k hist) (LastClientSeq c)) hist.
Proof.
  intros (Hreach & _ & [_ _ Hpty Hpr _ _ _ _ _])%channels_inv HN Hsh (e & v1 & s' & Hr & Hh & ->)%turn_inv.
  simpl in Hr. destruct (l_shellDone _) eqn:El; [|done]. rewrite Hsh in Hr. injection Hr as <- <-.
  apply (session.reach_inv _ _ _ (ReplaySize cfg) []) in Hreach as [_ Hinv]; [|done|done|lia].
  unfold handle in Hh. apply io_bind_split in Hh as (r1 & s1 & Hg & Hk).
  pose proof Hg as Hg2. eapply (gracefulShutdown_inv False) in Hg as [-> (hist & _ & Hb & _)]; [|exact Hinv|done].
  injection Hk as <- <-. destruct Hinv as (h0 & _ & Hb0 & Hcur0 & _ & Hl0 & _).
  eapply shutdown_flushes in Hg2; [|exact Hb0|exact Hcur0|lia].
  split; [done|]. exists hist.
  assert (spawned (v_session (c_srv x)) s1 = false) as Hsp.
  { unfold spawned. assert (s_ptyDataCh (v_session (c_srv x)) = true) as ->; [|apply andb_false_r].
    destruct (s_ptyDataCh _) eqn:E; [done|]. destruct (p_none _ _ Hpty E) as (_ & _ & Hs). congruence. }
  unfold undelivered, resume. rewrite Hsp. simpl. split_and!.
  - rewrite Hpr. rewrite <-(b_out _ _ _ _ _ Hb), Hg2, app_nil_r. done.
  - apply (b_sender _ _ _ _ _ Hb).
  - intros i c Hi. destruct (b_conns _ _ _ _ _ Hb i c Hi) as (k & ds & (cs & Hs) & _ & _ & _ & Hpre). by exists cs, ds, k.
Qed.
End last_output.

(** ** The ends of the runs of [ex_exited] and [ex_running] in [SessionRun] *)

Definition ex_stopped : srv (W := simHost) (C := quicConn) (P := memPty) := Eval vm_compute in
  ex_get (snd <$> turn "" [] ChShellDone Millisecond ex_l ex_v9).

Lemma ex_ends : turn "" [] ChShellDone Millisecond ex_l ex_v9 = Some (Ok (inr None), ex_stopped).
Proof. evaluated. Qed.

(** While the shell runs the context is cancelled. *)
Definition ex_cancelled : srv (W := simHost) (C := quicConn) (P := memPty) := Eval vm_compute in
  ex_get (snd <$> turn "" [] (ChCtxDone ErrCanceled) Millisecond ex_l ex_v8).

Lemma ex_cancels : turn "" [] (ChCtxDone ErrCanceled) Millisecond ex_l ex_v8 = Some (Ok (inr (Some ErrCanceled)), ex_cancelled).
Proof. evaluated. Qed.

Lemma run_leaves_nothing_witness :
  ∃ (x : conf (W := simHost) (C := quicConn) (P := memPty)) killed v',
    s_conn (v_session (c_srv x)) = Some 0%nat ∧ v_shell (c_srv x) = Some None ∧
    finish None (Ok (inr (Some ErrCanceled))) ex_cancelled = Some (Ok (inr (Some ErrCanceled)), Some (killed, []), v') ∧
    s_conn (v_session v') = None ∧ all_shut (v_session v') ∧
    sh_host (v_net ex_cancelled) ≠ (∅, ∅) ∧ (view (v_net v')).1 = ∅ ∧ killed = true.
Proof.
  destruct ex_running as (x & Hx & Ht & _ & Hv & Hl).
  destruct (proj2 (run_leaves_nothing (W := simHost) (C := quicConn) (P := memPty) "" [] ex_cfg ex_host)
    x (ChCtxDone ErrCanceled) Millisecond (Ok (inr (Some ErrCanceled))) ex_cancelled None Hx) as (err & killed & v' & Hf & _ & Hn & Hs & _ & Hw & _ & _ & Hk & _).
  - rewrite Ht. reflexivity.
  - rewrite Hv, Hl. exact ex_cancels.
  - intros l. discriminate.
  - exists x, killed, v'. rewrite Hv. split; [reflexivity|]. split; [reflexivity|]. split.
    { rewrite Hf. f_equal. f_equal. f_equal. revert Hf. unfold finish. destruct (deferred _ _) as [[[]]|]; [|discriminate..].
      intros Hq. injection Hq as Hq _. by rewrite <-Hq. }
    split; [exact Hn|]. split; [exact Hs|]. split; [discriminate|]. split; [exact Hw|].
    apply Hk. split; [by eexists|]. split; reflexivity.
Defined.

Lemma shell_exit_loses_output_witness :
  ∃ (x : conf (W := simHost) (C := quicConn) (P := memPty)) hist,
    c_printed x = [x24; x20] ∧ undelivered ex_stopped = [x24; x20] ∧ c_printed x = List.concat hist ++ undelivered ex_stopped ∧
    s_conn (v_session ex_stopped) = Some 0%nat ∧ s_sendSeq (v_session ex_stopped) = len hist ∧
    ∀ i c, s_conns (v_session ex_stopped) !! i = Some c → ∃ cs ds k, sent c cs ds ∧
      ds `prefix_of` run_from (Sender.start (ReplaySize ex_cfg) (take k hist) (LastClientSeq c)) hist.
Proof.
  destruct ex_exited as (x & Hx & Ht & Hp & Hv & Hl).
  destruct (shell_exit_loses_output (W := simHost) (C := quicConn) (P := memPty) "" [] ex_cfg ex_host x Millisecond None
    (Ok (inr None)) ex_stopped Hx) as (_ & hist & Hpr & Hseq & Hs).
  - rewrite Ht. reflexivity.
  - by rewrite Hv.
  - rewrite Hv, Hl. exact ex_ends.
  - exists x, hist. split; [exact Hp|]. split; [reflexivity|]. split; [exact Hpr|]. split; [reflexivity|]. by split.
Defined.
End sessionend.
