(* ===== verification/Client.v ===== *)
(** * The client ([internal/client/client.go])

    The terminal-facing half: the per-connection event loop [ioLoop], the
    connection set-up, and the outer loop of [Run] that reconnects.  Like the
    session it is proved against the interface [ConnLaws] only.  What the
    theorems show: the data a connection carries is a gap-free run of the
    client's batches, of what the escape processor made of the typed bytes;
    received data is written out before it is acknowledged; and in which case
    the loop drops input. *)

From S2P Require Import Prelude GoIO Protocol Catchup Coalesce Escape Transport Sender.
Open Scope go_scope.

Module client.

Definition stdinBufSize : Z := 32 * 1024.
Definition heartbeatInterval : Z := 5 * Second.
Definition recvTimeout : Z := 15 * Second.
Definition reconnectDelay : Z := 1 * Second.

Record Config : Type := MkConfig {
  cfg_Host : string;
  cfg_Port : Z;
  cfg_Passkey : bytes;
  cfg_Profile : bool;
  cfg_DialMode : DialMode;
  cfg_ReplaySize : Z;
}.

Inductive exitReason : Type :=
| exitNetwork | exitEscape | exitShutdown | exitStdinEOF | exitCancelled.

(** [streamResult]: a message or a read error. *)
Definition streamResult : Type := res message.

(** [cl_started]: [profileStart] is set, that is, a dial has succeeded. *)
Record Client : Type := MkClient {
  cl_cfg : Config;
  cl_buf : catchup.Buffer;
  cl_escape : escape.EscapeProcessor;
  cl_sendSeq : Z;
  cl_recvSeq : Z;
  cl_stdout : writer;
  cl_stdinFd : Z;
  cl_started : bool;
}.

Definition New (cfg : Config) (stdout : writer) (stdinFd : Z) : Client :=
  MkClient cfg (catchup.New (cfg_ReplaySize cfg)) escape.NewEscapeProcessor 0 0 stdout stdinFd false.

Section client.
Context {C : Type} `{ConnLaws C}.

(** The client with the locals of [Run] and [ioLoop]: the connection, the
    coalescer and the escape buffer. *)
Record st : Type := St { cl : Client; conn : C; coal : coalesce.Coalescer; escapeBuf : bytes }.

Definition set_cl (c : Client) (s : st) : st := St c (conn s) (coal s) (escapeBuf s).
Definition set_buf (b : catchup.Buffer) (c : Client) : Client :=
  MkClient (cl_cfg c) b (cl_escape c) (cl_sendSeq c) (cl_recvSeq c) (cl_stdout c) (cl_stdinFd c) (cl_started c).
Definition set_escape (e : escape.EscapeProcessor) (c : Client) : Client :=
  MkClient (cl_cfg c) (cl_buf c) e (cl_sendSeq c) (cl_recvSeq c) (cl_stdout c) (cl_stdinFd c) (cl_started c).
Definition set_sendSeq (n : Z) (c : Client) : Client :=
  MkClient (cl_cfg c) (cl_buf c) (cl_escape c) n (cl_recvSeq c) (cl_stdout c) (cl_stdinFd c) (cl_started c).
Definition set_recvSeq (n : Z) (c : Client) : Client :=
  MkClient (cl_cfg c) (cl_buf c) (cl_escape c) (cl_sendSeq c) n (cl_stdout c) (cl_stdinFd c) (cl_started c).
Definition set_stdout (w : writer) (c : Client) : Client :=
  MkClient (cl_cfg c) (cl_buf c) (cl_escape c) (cl_sendSeq c) (cl_recvSeq c) w (cl_stdinFd c) (cl_started c).

Definition get {A} (f : st → A) : io st A := λ s, Some (Ok (f s), s).
Definition modify (f : Client → Client) : io st () := λ s, Some (Ok (), set_cl (f (cl s)) s).
Definition call {A} (c : io C A) : io st A :=
  io_zoom conn (λ x s, St (cl s) x (coal s) (escapeBuf s)) c.
Definition stdout_Write (p : bytes) : io st () :=
  io_zoom (λ s, cl_stdout (cl s)) (λ w s, set_cl (set_stdout w (cl s)) s) (Write p).

(** ** Setting up a connection *)

(** The resend loop of [handleSequenceExchange]. *)
Fixpoint resend (entries : list catchup.entry) : io st () :=
  match entries with
  | [] => io_ret ()
  | e :: entries =>
    io_wrap "catchup resend: %w" (call (WriteData (Ptr (Data (catchup.seq e) (catchup.payload e))))) ;;
    resend entries
  end.

Definition handleSequenceExchange : io st () :=
  msg <- io_wrap "read seq header: %w" (call ReadControl) ;;
  match msg with
  | SequenceHeader lastReceivedSeq =>
    b <- get (λ s, cl_buf (cl s)) ;;
    entries <- io_lift (catchup.ReplaySince b lastReceivedSeq) ;;
    resend entries
  | _ => io_lift (Err (ErrNew "expected SequenceHeader, got %T"))
  end.

Definition sendTerminalInfo (TERM : string) : io st () :=
  call (WriteControl (Ptr (TerminalInfo TERM))).

(** [size]: columns and rows from [term.GetSize], or its error. *)
Definition sendResize (size : res (Z * Z)) : io st () :=
  fd <- get (λ s, cl_stdinFd (cl s)) ;;
  if fd <? 0 then io_ret () else
  match size with
  | Ok (cols, rows) => io_try (call (WriteControl (Ptr (Resize (uint16 rows) (uint16 cols))))) ;; io_ret ()
  | Err _ => io_ret ()
  | Panicked p => io_lift (Panicked p)
  end.

Definition flushStdinCoalesced (now : Z) : io st () :=
  data <- (λ s, let '(c, data) := coalesce.Flush (coal s) now in
                Some (Ok data, St (cl s) (conn s) c (escapeBuf s))) ;;
  match data with
  | None => io_ret ()
  | Some data =>
    modify (λ c, set_sendSeq (uint64 (cl_sendSeq c + 1)) c) ;;
    seq <- get (λ s, cl_sendSeq (cl s)) ;;
    (λ s, match catchup.Store (cl_buf (cl s)) seq data with
          | None => None
          | Some (Ok b) => Some (Ok (), set_cl (set_buf b (cl s)) s)
          | Some (Err e) => Some (Err e, s)
          | Some (Panicked p) => Some (Panicked p, s)
          end) ;;
    call (WriteData (Ptr (Data seq data)))
  end.

(** ** Receiving *)

(** [if d, ok := res.msg.( *protocol.Data); ok { ... }]: write out, then
    acknowledge. *)
Definition deliver (msg : message) : io st () :=
  match msg with
  | Data seq payload => stdout_Write payload ;; modify (set_recvSeq seq)
  | _ => io_ret ()
  end.

(** [drainRemainingData], on what arrives within its 100 ms. *)
Fixpoint drainRemainingData (arriving : list streamResult) : io st () :=
  match arriving with
  | [] => io_ret ()
  | Ok msg :: rest =>
    r <- io_try (deliver msg) ;;
    match r with Err _ => io_ret () | _ => drainRemainingData rest end
  | Err _ :: _ => io_ret ()
  | Panicked p :: _ => io_lift (Panicked p)
  end.

(** [drainForShutdown], on the first result that arrives within its 100 ms,
    if any. *)
Definition drainForShutdown (arriving : option streamResult) : bool :=
  match arriving with Some (Ok Shutdown) => true | _ => false end.

(** One iteration of [readStreamLoop] on the stream that [read] reads: what
    is sent to the channel, and whether the goroutine goes on. *)
Definition readStreamLoop_iter (read : io C message) : io st (streamResult * bool) :=
  r <- io_try (call read) ;;
  io_ret (r, match r with Ok _ => true | _ => false end).

(** One iteration of [readStdin], after [Read] returned [data] and [err]:
    the chunk sent to the channel, if any, and whether it goes on. *)
Definition readStdin_iter (data : bytes) (err : option error) : option bytes * bool :=
  (if 0 <? len data then Some data else None, match err with None => true | Some _ => false end).

(** ** [ioLoop] *)

Inductive event : Type :=
| EvStdin (data : option bytes)
| EvCoalTimer
| EvControl (r : streamResult) (drained : list streamResult)
| EvData (r : streamResult) (control : option streamResult)
| EvSigwinch (size : res (Z * Z))
| EvHeartbeat
| EvCtxDone.

(** [make([]byte, stdinBufSize+2)]. *)
Definition new_escapeBuf : bytes := replicate (Z.to_nat (stdinBufSize + 2)) x00.

Lemma new_escapeBuf_len : len new_escapeBuf = stdinBufSize + 2.
Proof. unfold new_escapeBuf. etrans; [apply len_replicate|]. by rewrite Z2Nat.id. Qed.
#[local] Opaque new_escapeBuf.

(** Start of the loop: a new coalescer and the escape buffer. *)
Definition enter_loop (now : Z) : io st () := λ s,
  match coalesce.New now with
  | None => None
  | Some c => Some (Ok (), St (cl s) (conn s) c new_escapeBuf)
  end.

(** One iteration with [lastRecv]: [inl] the next [lastRecv], [inr] the
    reason it returns. *)
Definition ioLoop (lastRecv now : Z) (e : event) : io st (Z + exitReason) :=
  let stale := recvTimeout <? now - lastRecv in
  match e with
  | EvStdin None => io_try (flushStdinCoalesced now) ;; io_ret (inr exitStdinEOF)
  | EvStdin (Some data) =>
    if stale then io_ret (inr exitNetwork) else
    out <- (λ s, match escape.Process (cl_escape (cl s)) data (escapeBuf s) with
                 | Ok (e', dst, n, action) =>
                   Some ((λ p, (p, action)) <$> go_slice dst 0 n,
                         St (set_escape e' (cl s)) (conn s) (coal s) dst)
                 | Err err => Some (Err err, s)
                 | Panicked p => Some (Panicked p, s)
                 end) ;;
    match out with
    | (_, escape.EscDisconnect) => io_ret (inr exitEscape)
    | (p, escape.EscSend) =>
      if 0 <? len p then
        full <- (λ s, let '(c, full) := coalesce.Add (coal s) now p in
                      Some (Ok full, St (cl s) (conn s) c (escapeBuf s))) ;;
        if (full : bool) then
          r <- io_try (flushStdinCoalesced now) ;;
          io_ret (match r with Err _ => inr exitNetwork | _ => inl lastRecv end)
        else io_ret (inl lastRecv)
      else io_ret (inl lastRecv)
    end
  | EvCoalTimer =>
    (λ s, match coalesce.recv_Timer (coal s) now with
          | Some c => Some (Ok (), St (cl s) (conn s) c (escapeBuf s)) | None => None end) ;;
    if stale then io_ret (inr exitNetwork) else
    r <- io_try (flushStdinCoalesced now) ;;
    io_ret (match r with Err _ => inr exitNetwork | _ => inl lastRecv end)
  | EvControl (Err _) _ => io_ret (inr exitNetwork)
  | EvControl (Panicked p) _ => io_lift (Panicked p)
  | EvControl (Ok msg) drained =>
    match msg with
    | Shutdown => drainRemainingData drained ;; io_ret (inr exitShutdown)
    | _ => io_ret (inl now)
    end
  | EvData (Err _) control =>
    io_ret (inr (if drainForShutdown control then exitShutdown else exitNetwork))
  | EvData (Panicked p) _ => io_lift (Panicked p)
  | EvData (Ok msg) _ =>
    r <- io_try (deliver msg) ;;
    io_ret (match r with Err _ => inr exitStdinEOF | _ => inl now end)
  | EvSigwinch size => sendResize size ;; io_ret (inl lastRecv)
  | EvHeartbeat =>
    if stale then io_ret (inr exitNetwork) else
    r <- io_try (call (WriteControl (Ptr (Heartbeat (int64 (now / Millisecond)))))) ;;
    io_ret (match r with Err _ => inr exitNetwork | _ => inl lastRecv end)
  | EvCtxDone => io_ret (inr exitCancelled)
  end.

(** ** [Run] *)

(** What the outer loop does next: wait [reconnectDelay] and dial again, run
    [ioLoop], or return. *)
Inductive next : Type := Retry | Enter | Return (err : option error).

(** From a successful dial to the start of [ioLoop]. *)
Definition set_up (TERM : string) (makeRaw : res ()) (size : res (Z * Z)) (now : Z) : io st next :=
  modify (λ c, MkClient (cl_cfg c) (cl_buf c) (cl_escape c) (cl_sendSeq c) (cl_recvSeq c) (cl_stdout c)
                 (cl_stdinFd c) true) ;;
  r <- io_try handleSequenceExchange ;;
  match r with
  | Err _ => call (λ c, Some (Ok (), Close c)) ;; io_ret Retry
  | _ =>
    r <- io_try (sendTerminalInfo TERM) ;;
    match r with
    | Err _ => call (λ c, Some (Ok (), Close c)) ;; io_ret Retry
    | _ =>
      fd <- get (λ s, cl_stdinFd (cl s)) ;;
      match (if 0 <=? fd then makeRaw else Ok ()) with
      | Panicked p => io_lift (Panicked p)
      | Err e => call (λ c, Some (Ok (), Close c)) ;; io_ret (Return (Some (ErrWrap "make raw: %w" e)))
      | Ok _ =>
        sendResize size ;;
        modify (λ c, set_escape (escape.Reset (cl_escape c)) c) ;;
        call (λ c, Some (Ok (), StartDemux c)) ;;
        enter_loop now ;;
        io_ret Enter
      end
    end
  end.

(** After [ioLoop]; [ctx_err] is [ctx.Err()]. *)
Definition after_loop (reason : exitReason) (ctx_err : option error) : io st next :=
  match reason with
  | exitNetwork => call (λ c, Some (Ok (), Close c)) ;; io_ret Retry
  | exitShutdown => call (λ c, Some (Ok (), Close c)) ;; io_ret (Return None)
  | _ =>
    io_try (call (WriteControl (Ptr Shutdown))) ;;
    call (λ c, Some (Ok (), Close c)) ;;
    io_ret (Return (match reason with exitCancelled => ctx_err | _ => None end))
  end.

(** After a failed dial: the hint is printed once, before the first success,
    and the loop retries unless the context is done. *)
Definition after_failed_dial (c : Client) (dialHinted : bool) (ctx_err : option error) :
    next * bool * list string :=
  match ctx_err with
  | Some e => (Return (Some e), dialHinted, [])
  | None =>
    if negb (cl_started c) && negb dialHinted
    then (Retry, true,
          "connect failed, retrying: %v" ::
          match cfg_DialMode (cl_cfg c) with DialTCP => [] | _ => ["  hint: if UDP is blocked, try --tcp"] end)
    else (Retry, dialHinted, [])
  end.

(** ** What a connection carries *)

Variable (n : Z).

(** The batches stored so far are [hist], and the connection has been sent
    the data messages [ds]. *)
Definition carrying (hist : list bytes) (ds : list message) (s : st) : Prop :=
  sender_ok n (cl_sendSeq (cl s)) (cl_buf (cl s)) hist ∧ ∃ cs, sent (conn s) cs ds.

(** What set-up, heartbeats and reads leave alone. *)
Definition same_sender (s s' : st) : Prop :=
  cl_sendSeq (cl s') = cl_sendSeq (cl s) ∧ cl_buf (cl s') = cl_buf (cl s) ∧ coal s' = coal s ∧
  escapeBuf s' = escapeBuf s ∧ cl_cfg (cl s') = cl_cfg (cl s).

Lemma get_bind {A B} (f : st → A) (k : A → io st B) s : io_bind (get f) k s = k (f s) s.
Proof. done. Qed.
Lemma modify_bind {B} f (k : () → io st B) s : io_bind (modify f) k s = k () (set_cl (f (cl s)) s).
Proof. done. Qed.

Lemma call_conn {A} (c : io C A) s r s' :
  call c s = Some (r, s') → ∃ x, c (conn s) = Some (r, x) ∧ s' = St (cl s) x (coal s) (escapeBuf s).
Proof. apply zoom_inv. Qed.

Lemma call_data hist ds sq p s r s' :
  carrying hist ds s → is_uint 64 sq → call (WriteData (Ptr (Data sq p))) s = Some (r, s') →
  same_sender s s' ∧ panics r = false ∧ cl s' = cl s ∧
  carrying hist (match r with Ok _ => ds ++ [Data sq p] | _ => ds end) s'.
Proof.
  intros [Hs (cs & Hc)] Hu (x & Hw & ->)%call_conn. split; [done|].
  destruct (WriteData_sent _ _ _ _ _ _ Hc (msg_wf_Data sq p Hu) eq_refl Hw) as [(e & -> & ?)|[-> ?]];
    (split; [done|]; split; [done|]; split; [done|by eexists]).
Qed.

(** Control writes and reads. *)
Lemma call_control hist ds m s r s' :
  carrying hist ds s → msg_wf m → is_data m = false → call (WriteControl (Ptr m)) s = Some (r, s') →
  same_sender s s' ∧ panics r = false ∧ cl s' = cl s ∧ carrying hist ds s'.
Proof.
  intros [Hs (cs & Hc)] Hu Hd (x & Hw & ->)%call_conn. split; [done|].
  destruct (WriteControl_sent _ _ _ _ _ _ Hc Hu Hd Hw) as [(e & -> & ?)|[-> ?]];
    (split; [done|]; split; [done|]; split; [done|by eexists]).
Qed.

Lemma io_wrap_split {S A} text (c : io S A) s r s' :
  io_wrap text c s = Some (r, s') → ∃ r0, c s = Some (r0, s') ∧ r = wrap_err text r0.
Proof. unfold io_wrap. destruct (c s) as [[r0 s0]|]; [|done]. intros [= <- <-]. by exists r0. Qed.

Lemma resend_sent cs ds es s s' :
  sent (conn s) cs ds →
  Forall msg_wf ((λ e, Data (catchup.seq e) (catchup.payload e)) <$> es) →
  resend es s = Some (Ok (), s') →
  same_sender s s' ∧ cl s' = cl s ∧
  sent (conn s') cs (ds ++ ((λ e, Data (catchup.seq e) (catchup.payload e)) <$> es)).
Proof.
  revert ds s. induction es as [|e es IH]; intros ds s Hc Hwf; cbn [resend].
  - intros [= <-]. rewrite app_nil_r. done.
  - cbn [fmap list_fmap] in Hwf. apply Forall_cons in Hwf as [Hw Hwf].
    intros ([] & s1 & Hw1%io_wrap_inv & Hk)%io_bind_inv. apply call_conn in Hw1 as (x & Hw1 & ->).
    destruct (WriteData_sent _ _ _ _ _ _ Hc Hw eq_refl Hw1) as [(e' & ? & _)|[_ Hc1]]; [done|].
    apply (IH _ (St (cl s) x (coal s) (escapeBuf s)) Hc1 Hwf) in Hk as (Hsame & Hcl & Hc').
    rewrite <-app_assoc in Hc'. split; [|split; [exact Hcl|done]]. exact Hsame.
Qed.

Lemma resend_spec hist ds es s s' :
  carrying hist ds s →
  Forall msg_wf ((λ e, Data (catchup.seq e) (catchup.payload e)) <$> es) →
  resend es s = Some (Ok (), s') →
  same_sender s s' ∧ cl s' = cl s ∧ carrying hist (ds ++ ((λ e, Data (catchup.seq e) (catchup.payload e)) <$> es)) s'.
Proof.
  intros [Hs (cs & Hc)] Hwf Hr. destruct (resend_sent _ _ _ _ _ Hc Hwf Hr) as (Hsame & Hcl & Hc').
  split; [done|]. split; [done|]. split; [by rewrite Hcl|by exists cs].
Qed.

Lemma handleSequenceExchange_sent hist cs s s' :
  sender_ok n (cl_sendSeq (cl s)) (cl_buf (cl s)) hist → sent (conn s) cs [] → fresh (conn s) →
  handleSequenceExchange s = Some (Ok (), s') →
  same_sender s s' ∧ cl s' = cl s ∧
  ∃ last x, ReadControl (conn s) = Some (Ok (SequenceHeader last), x) ∧ is_uint 64 last ∧
    sent (conn s') cs (run_from (start n hist last) hist).
Proof.
  intros Hs Hc Hf (msg & s1 & Hr%io_wrap_inv & Hk)%io_bind_inv.
  apply call_conn in Hr as (x & Hr & ->). destruct msg as [| |last| | | | |]; try done.
  rewrite get_bind in Hk. apply io_bind_inv in Hk as (es & s2 & [= He <-] & Hk).
  assert (is_uint 64 last) as Hu by (apply (ReadControl_wf _ _ _ Hf Hr)).
  destruct (sender_replay n _ _ hist last Hs) as (es' & He' & Hrun); [apply Hu|].
  assert (es' = es) as -> by (simpl in He; congruence). rewrite run_from_start in Hrun.
  apply (ReadControl_sent _ _ _ _ _ Hr) in Hc.
  eapply (resend_sent cs []) in Hk as (Hsame & Hcl & Hc2); [|exact Hc|].
  - split; [done|]. split; [done|]. exists last, x. split; [done|]. split; [done|]. by rewrite <-Hrun.
  - rewrite Hrun. pose proof (start_range n hist last) as Hst. apply data_run_wf; [lia|].
    rewrite len_drop. assert (len hist < 2 ^ 64) by apply Hs. lia.
Qed.

Lemma handleSequenceExchange_spec hist s s' :
  carrying hist [] s → fresh (conn s) → handleSequenceExchange s = Some (Ok (), s') →
  same_sender s s' ∧ cl s' = cl s ∧
  ∃ last x, ReadControl (conn s) = Some (Ok (SequenceHeader last), x) ∧ is_uint 64 last ∧
    carrying hist (run_from (start n hist last) hist) s'.
Proof.
  intros [Hs (cs & Hc)] Hf Hx.
  destruct (handleSequenceExchange_sent hist cs s s' Hs Hc Hf Hx) as (Hsame & Hcl & last & x & Hr & Hu & Hc').
  split; [done|]. split; [done|]. exists last, x. split; [done|]. split; [done|]. split; [by rewrite Hcl|by exists cs].
Qed.

Lemma same_sender_refl s : same_sender s s.
Proof. by repeat split. Qed.

(** A method of the connection that writes nothing. *)
Lemma call_method hist ds (f : C → C) s r s' :
  (∀ c cs ds, sent c cs ds → sent (f c) cs ds) → carrying hist ds s →
  call (λ c, Some (Ok (), f c)) s = Some (r, s') → r = Ok () ∧ same_sender s s' ∧ cl s' = cl s ∧ carrying hist ds s'.
Proof.
  intros Hf [Hs (cs & Hc)] (x & [= <- <-] & ->)%call_conn. split; [done|]. split; [done|]. split; [done|].
  split; [done|]. exists cs. by apply Hf.
Qed.

Lemma sendResize_spec hist ds size s r s' :
  carrying hist ds s → sendResize size s = Some (r, s') → panics r = false →
  r = Ok () ∧ same_sender s s' ∧ cl s' = cl s ∧ carrying hist ds s'.
Proof.
  intros Hc. unfold sendResize. rewrite get_bind. destruct (_ <? 0).
  { intros [= <- <-] _. by auto using same_sender_refl. }
  destruct size as [[cols rows]|e|p]; [| |by intros [= <- <-]].
  - intros Hk Hp. apply io_try_split in Hk as (r1 & s1 & Hw & Hp1 & Hk); [|done].
    eapply call_control in Hw as (Hs & _ & Hcl & Hc1); [|done|by split; apply uint16_range|done].
    by injection Hk as <- <-.
  - intros [= <- <-] _. by auto using same_sender_refl.
Qed.

(** A successful set-up: the session's sequence number was read, the batches
    above it were resent, and the loop starts with nothing coalesced. *)
Lemma set_up_spec hist TERM makeRaw size now s s' :
  carrying hist [] s → fresh (conn s) → set_up TERM makeRaw size now s = Some (Ok Enter, s') →
  (∃ last x, ReadControl (conn s) = Some (Ok (SequenceHeader last), x) ∧ is_uint 64 last ∧
    carrying hist (run_from (start n hist last) hist) s') ∧
  coalesce.buf (coal s') = [] ∧ len (escapeBuf s') = stdinBufSize + 2 ∧
  ∃ started, cl s' = MkClient (cl_cfg (cl s)) (cl_buf (cl s)) escape.NewEscapeProcessor (cl_sendSeq (cl s))
    (cl_recvSeq (cl s)) (cl_stdout (cl s)) (cl_stdinFd (cl s)) started.
Proof.
  intros Hc Hf. unfold set_up. rewrite modify_bind. set (s0 := set_cl _ s).
  assert (carrying hist [] s0) as Hc0 by done.
  intros Hk. apply io_try_split in Hk as (r1 & s1 & He & Hp1 & Hk); [|done].
  destruct r1 as [[]|e|p]; [| |done].
  2:{ by apply io_bind_inv in Hk as (? & ? & _ & ?). }
  apply (handleSequenceExchange_spec hist) in He as (Hs1 & Hcl1 & last & x & Hr & Hu & Hc1); [|done|done].
  apply io_try_split in Hk as (r2 & s2 & He & Hp2 & Hk); [|done].
  destruct r2 as [[]|e|p]; [| |done].
  2:{ by apply io_bind_inv in Hk as (? & ? & _ & ?). }
  eapply call_control in He as (Hs2 & _ & Hcl2 & Hc2); [|done|done|done].
  rewrite get_bind in Hk.
  destruct (if 0 <=? _ then makeRaw else Ok ()) as [[]|e|p]; [|by apply io_bind_inv in Hk as (? & ? & _ & ?)|done].
  apply io_bind_inv in Hk as ([] & s3 & Hw & Hk).
  eapply sendResize_spec in Hw as (_ & Hs3 & Hcl3 & Hc3); [|done|done].
  rewrite modify_bind in Hk. apply io_bind_inv in Hk as ([] & s4 & Hw & Hk).
  eapply (call_method hist _ StartDemux) in Hw as (_ & Hs4 & Hcl4 & Hc4); [|apply StartDemux_sent|exact Hc3].
  apply io_bind_inv in Hk as ([] & s5 & Hw & [= <-]). unfold enter_loop in Hw.
  destruct (coalesce.New now) as [c|] eqn:En; [|done]. injection Hw as <-.
  split; [exists last, x; split; [done|]; split; [done|]; exact Hc4|].
  split; [by injection En as <-|]. split; [apply new_escapeBuf_len|].
  exists true. simpl. rewrite Hcl4. simpl. by rewrite Hcl3, Hcl2, Hcl1.
Qed.

(** Stored, whether or not the connection still works. *)
Definition stored (hist : list bytes) (s : st) : Prop := sender_ok n (cl_sendSeq (cl s)) (cl_buf (cl s)) hist.

(** The receiving side of the client. *)
Definition same_receiver (s s' : st) : Prop :=
  cl_recvSeq (cl s') = cl_recvSeq (cl s) ∧ cl_stdout (cl s') = cl_stdout (cl s).

(** The connection carries a part of the run from batch [m] on. *)
Definition partly (m : Z) (hist : list bytes) (s : st) : Prop :=
  ∃ cs ds, sent (conn s) cs ds ∧ ds `prefix_of` run_from m hist.

Lemma carrying_partly m hist s : carrying hist (run_from m hist) s → partly m hist s.
Proof. intros (_ & cs & Hc). by exists cs, (run_from m hist). Qed.

(** A flush during the loop: what was coalesced is stored, even when writing
    it fails. *)
Lemma flushStdinCoalesced_spec hist m now s r s' :
  carrying hist (run_from m hist) s → 0 <= m <= len hist → len hist + 1 < 2 ^ 64 →
  flushStdinCoalesced now s = Some (r, s') →
  panics r = false ∧ same_receiver s s' ∧ ∃ hist',
    stored hist' s' ∧ grown hist hist' ∧ partly m hist' s' ∧
    List.concat hist' = List.concat hist ++ coalesce.buf (coal s) ∧ coalesce.buf (coal s') = [] ∧
    escapeBuf s' = escapeBuf s ∧ cl_escape (cl s') = cl_escape (cl s) ∧
    (r = Ok () → carrying hist' (run_from m hist') s').
Proof.
  intros Hc Hm Hl. unfold flushStdinCoalesced, io_bind at 1.
  destruct (coalesce.Flush (coal s) now) as [c' data] eqn:Ef.
  apply coalesce.Flush_out in Ef as [Hc' [[-> Hnil]|[-> Hp]]].
  { intros [= <- <-]. split; [done|]. split; [done|]. exists hist. rewrite Hnil, app_nil_r.
    split; [apply Hc|]. split; [by left|]. split; [by apply carrying_partly|]. by split_and!. }
  destruct Hc as [Hso (cs & Hcs)].
  destruct (sender_store n _ _ hist (coalesce.buf (coal s)) Hso Hl) as (Hu & b' & Hst & Hso').
  rewrite modify_bind, get_bind. simpl. rewrite Hu in *.
  unfold io_bind at 1. simpl. rewrite Hst. intros Hw.
  apply (call_data (hist ++ [coalesce.buf (coal s)]) (run_from m hist)) in Hw as (Hsame & Hp' & Hcl & Hc2).
  - split; [done|]. split; [unfold same_receiver; by rewrite Hcl|].
    exists (hist ++ [coalesce.buf (coal s)]). destruct Hsame as (_ & _ & -> & -> & _).
    split; [unfold stored; by rewrite Hcl|]. split; [apply grown_snoc|]. split.
    { destruct Hc2 as (_ & cs' & Hcs'). eexists cs', _. split; [done|]. rewrite run_from_snoc by done.
      destruct r; [done|by apply prefix_app_r..]. }
    rewrite Hcl, concat_app. simpl. rewrite app_nil_r. split_and!; try done. intros ->. by rewrite run_from_snoc.
  - split; [done|]. by exists cs.
  - pose proof (len_nonneg hist). unfold is_uint. lia.
Qed.

(** ** Every step keeps the stream *)

(** During [ioLoop]: the batches [hist] have been stored, the connection
    carries those after the first [m]; what earlier loops stored is [pre], of
    the input [cur] of this one the processor emitted [out ++ pending], and
    [pending] is being coalesced. *)
Definition looping (m : Z) (hist : list bytes) (pre cur : bytes) (s : st) : Prop :=
  carrying hist (run_from m hist) s ∧ 0 <= m <= len hist ∧ len (escapeBuf s) = stdinBufSize + 2 ∧
  ∃ out, List.concat hist = pre ++ out ∧
    escape.run escape.escAfterNewline cur =
      (escape.state (cl_escape (cl s)), out ++ coalesce.buf (coal s), escape.EscSend).

(** After it: of the input [cur] a prefix of what the processor emits. *)
Definition left_loop (m : Z) (hist : list bytes) (pre cur : bytes) (s : st) : Prop :=
  stored hist s ∧ partly m hist s ∧ ∃ out, List.concat hist = pre ++ out ∧ out `prefix_of` escape.unescape true cur.

Definition stdin_bytes (e : event) : bytes := match e with EvStdin (Some d) => d | _ => [] end.

Lemma looping_left m hist pre cur more s s' :
  looping m hist pre cur s → stored hist s' → partly m hist s' → left_loop m hist pre (cur ++ more) s'.
Proof.
  intros (_ & _ & _ & out & Hh & Hr) Hs Hp. split; [done|]. split; [done|]. exists out. split; [done|].
  etrans; [|apply escape.unescape_prefix]. rewrite <-(escape.run_unescape cur true _ _ Hr).
  by apply prefix_app_r.
Qed.

(** A flush at the end of an iteration. *)
Lemma flush_step hist m pre cur now s r s' :
  looping m hist pre cur s → len hist + 1 < 2 ^ 64 → flushStdinCoalesced now s = Some (r, s') →
  panics r = false ∧ same_receiver s s' ∧ ∃ hist', grown hist hist' ∧
    left_loop m hist' pre cur s' ∧ List.concat hist' = pre ++ escape.unescape true cur ∧
    (r = Ok () → looping m hist' pre cur s' ∧ coalesce.buf (coal s') = []).
Proof.
  intros (Hc & Hm & He & out & Hh & Hr) Hl Hf.
  apply (flushStdinCoalesced_spec hist m) in Hf as (Hp & Hrc & hist' & Hs & Hlen & Hpart & Hcat & Hnil & Hbuf & Hesc & Hok); [|done..].
  rewrite Hh, <-app_assoc in Hcat. pose proof (escape.run_unescape cur true _ _ Hr) as Hu. rewrite Hu in Hcat.
  split; [done|]. split; [done|]. exists hist'. split; [done|]. split; [|split; [done|]].
  - split; [done|]. split; [done|]. exists (escape.unescape true cur). done.
  - intros ->. split; [|done]. split; [by apply Hok|]. apply grown_len in Hlen. split; [lia|]. rewrite Hbuf, Hnil, Hesc. split; [done|].
    exists (escape.unescape true cur). split; [done|]. rewrite app_nil_r. congruence.
Qed.

(** Receiving changes neither the sender nor the connection. *)
Definition receives (s s' : st) : Prop :=
  same_sender s s' ∧ cl_escape (cl s') = cl_escape (cl s) ∧ conn s' = conn s.

Lemma deliver_receives msg s r s' : deliver msg s = Some (r, s') → receives s s'.
Proof.
  destruct msg; simpl; try by intros [= <- <-].
  intros (r1 & s1 & (w & _ & ->)%zoom_inv & Hk)%io_bind_split. destruct r1; [by injection Hk as <- <-|by destruct Hk as [-> ->]..].
Qed.

Lemma drain_receives arriving s r s' : drainRemainingData arriving s = Some (r, s') → receives s s'.
Proof.
  revert s. induction arriving as [|[msg|e|p] rest IH]; intros s; simpl; try by intros [= <- <-].
  unfold io_bind, io_try. destruct (deliver msg s) as [[[] s1]|] eqn:Hd; [..|done];
    apply deliver_receives in Hd as (Hs & He & Hc).
  - intros (Hs' & He' & Hc')%IH. split; [|split; congruence]. unfold same_sender in *. naive_solver congruence.
  - by intros [= <- <-].
  - by intros [= <- <-].
Qed.

Lemma receives_stored hist s s' : receives s s' → stored hist s → stored hist s'.
Proof. intros ((Hs & Hb & _) & _) H'. unfold stored. by rewrite Hs, Hb. Qed.

Lemma receives_looping m hist pre cur s s' :
  receives s s' → looping m hist pre cur s → looping m hist pre cur s'.
Proof.
  intros ((Hs & Hb & Hco & He & _) & Hesc & Hcn) ((Hst & Hcs) & Hm & Hl & Hout).
  unfold looping, carrying. rewrite Hs, Hb, Hco, He, Hesc, Hcn. done.
Qed.

(** A write of a control message. *)
Lemma control_looping m hist pre cur msg s r s' :
  looping m hist pre cur s → msg_wf msg → is_data msg = false → call (WriteControl (Ptr msg)) s = Some (r, s') →
  panics r = false ∧ cl s' = cl s ∧ coal s' = coal s ∧ looping m hist pre cur s'.
Proof.
  intros (Hc & Hm & Hl & Hout) Hw Hd Hk. eapply call_control in Hk as ((_ & _ & Hco & He & _) & Hp & Hcl & Hc'); [|done..].
  split; [done|]. split; [done|]. split; [done|]. split; [done|]. by rewrite Hcl, Hco, He.
Qed.

Lemma resize_looping m hist pre cur size s r s' :
  looping m hist pre cur s → sendResize size s = Some (r, s') → panics r = false →
  r = Ok () ∧ cl s' = cl s ∧ coal s' = coal s ∧ looping m hist pre cur s'.
Proof.
  intros (Hc & Hm & Hl & Hout) Hk Hp. eapply sendResize_spec in Hk as (-> & (_ & _ & Hco & He & _) & Hcl & Hc'); [|done..].
  split; [done|]. split; [done|]. split; [done|]. split; [done|]. by rewrite Hcl, Hco, He.
Qed.

(** What one iteration establishes. *)
Definition stepped (m : Z) (hist : list bytes) (pre cur : bytes) (r : Z + exitReason) (s' : st) : Prop :=
  ∃ hist', grown hist hist' ∧
  match r with
  | inl _ => looping m hist' pre cur s' ∧ len (coalesce.buf (coal s')) < coalesce.Threshold
  | inr _ => left_loop m hist' pre cur s'
  end.

Lemma stepped_flush m hist pre cur now lastRecv reason s r s' :
  looping m hist pre cur s → len hist + 1 < 2 ^ 64 →
  (r <- io_try (flushStdinCoalesced now) ;;
   io_ret (match r with Err _ => inr reason | _ => inl lastRecv end)) s = Some (Ok r, s') →
  stepped m hist pre cur r s'.
Proof.
  intros Hl Hb Hk. apply io_try_split in Hk as (r1 & s1 & Hf & Hp & Hk); [|done].
  eapply flush_step in Hf as (_ & _ & hist' & Hlen & Hleft & _ & Hok); [|done..].
  exists hist'. split; [done|]. destruct r1 as [[]| |]; [|by injection Hk as <- <-|done].
  injection Hk as <- <-. destruct (Hok eq_refl) as [? ->]. by split.
Qed.

(** Typed input. *)
Lemma stepped_stdin m hist pre cur lastRecv now data s r s' :
  looping m hist pre cur s → len (coalesce.buf (coal s)) < coalesce.Threshold →
  len hist + 1 < 2 ^ 64 → len data <= stdinBufSize →
  ioLoop lastRecv now (EvStdin (Some data)) s = Some (Ok r, s') →
  stepped m hist pre (cur ++ data) r s'.
Proof.
  intros Hl Hsm Hb Hd. unfold ioLoop. pose proof Hl as Hl0.
  destruct Hl as (Hc & Hm & He & out & Hh & Hr).
  destruct (_ <? _).
  { intros [= <- <-]. exists hist. split; [by left|]. eapply looping_left; [done|apply Hc|by apply carrying_partly]. }
  destruct (escape.run (escape.state (cl_escape (cl s))) data) as [[st2 o] a] eqn:Er.
  destruct (escape.Process_run (cl_escape (cl s)) data (escapeBuf s) st2 o a) as (dst & Hp & Hs & Hdl); [lia|done|].
  unfold io_bind at 1. rewrite Hp, Hs. cbn [fmap res_fmap].
  pose proof (escape.run_app _ _ data _ _ Hr) as Hr2. rewrite Er in Hr2. destruct a.
  2:{ intros [= <- <-]. exists hist. split; [by left|]. eapply looping_left; [done|apply Hc|by apply carrying_partly]. }
  rewrite <-app_assoc in Hr2. case_match eqn:E0.
  - unfold io_bind at 1. simpl. destruct (coalesce.Add (coal s) now o) as [c' full] eqn:Ea.
    apply coalesce.Add_out in Ea as [Hbuf Hfull].
    assert (looping m hist pre (cur ++ data) (St (set_escape (escape.MkEscape st2) (cl s)) (conn s) c' dst)) as Hl'.
    { split; [exact Hc|]. split; [done|]. split; [simpl; lia|]. exists out. split; [done|]. simpl. by rewrite Hbuf. }
    destruct full.
    + by apply stepped_flush.
    + intros [= <- <-]. exists hist. split; [by left|]. split; [done|]. by apply Hfull.
  - intros [= <- <-]. exists hist. split; [by left|]. split; [|done].
    split; [exact Hc|]. split; [done|]. split; [simpl; lia|]. exists out. split; [done|]. simpl.
    assert (o = []) as -> by (apply len_zero; pose proof (len_nonneg o); lia). by rewrite app_nil_r in Hr2.
Qed.

Lemma stepped_stay m hist pre cur s s' l :
  looping m hist pre cur s' → coal s' = coal s → len (coalesce.buf (coal s)) < coalesce.Threshold →
  stepped m hist pre (cur ++ []) (inl l) s'.
Proof. intros Hl Hc Hs. exists hist. rewrite app_nil_r, Hc. split; [by left|]. by split. Qed.

Lemma stepped_leave m hist pre cur s s' e :
  looping m hist pre cur s → stored hist s' → partly m hist s' → stepped m hist pre (cur ++ []) (inr e) s'.
Proof. intros Hl Hs Hp. exists hist. split; [by left|]. by eapply looping_left. Qed.

Lemma receives_partly m hist s s' : receives s s' → partly m hist s → partly m hist s'.
Proof. intros (_ & _ & Hc). unfold partly. by rewrite Hc. Qed.

Lemma receives_same_coal s s' : receives s s' → coal s' = coal s.
Proof. by intros ((_ & _ & ? & _) & _). Qed.

(** Every iteration. *)
Lemma ioLoop_stepped m hist pre cur lastRecv now e s r s' :
  looping m hist pre cur s → len (coalesce.buf (coal s)) < coalesce.Threshold →
  len hist + 1 < 2 ^ 64 → len (stdin_bytes e) <= stdinBufSize →
  ioLoop lastRecv now e s = Some (Ok r, s') → stepped m hist pre (cur ++ stdin_bytes e) r s'.
Proof.
  intros Hl Hsm Hb Hd. pose proof (proj1 (proj1 Hl)) as Hst. pose proof (carrying_partly _ _ _ (proj1 Hl)) as Hpt. destruct e as [[data|]| |[msg|err|p] dr|[msg|err|p] ctl|size| |].
  - by apply stepped_stdin.
  - intros Hk. apply io_try_split in Hk as (r1 & s1 & Hf & _ & [= <- <-]); [|done].
    eapply flush_step in Hf as (_ & _ & hist' & Hlen & Hleft & _); [|done..].
    exists hist'. simpl. by rewrite app_nil_r.
  - unfold ioLoop, io_bind at 1. destruct (coalesce.recv_Timer (coal s) now) as [c|] eqn:Et; [|done].
    assert (looping m hist pre cur (St (cl s) (conn s) c (escapeBuf s))) as Hl'.
    { unfold coalesce.recv_Timer in Et. destruct (coalesce.Timer _) as [t|]; [|done]. simpl in Et.
      destruct (timer_recv t now) as [t'|]; [|done]. injection Et as <-. exact Hl. }
    simpl. rewrite app_nil_r. destruct (_ <? _).
    + intros [= <- <-]. rewrite <-(app_nil_r cur). by eapply stepped_leave.
    + by apply stepped_flush.
  - destruct msg; try (intros [= <- <-]; by eapply stepped_stay).
    unfold ioLoop. intros ([] & s1 & Hdr%drain_receives & [= <- <-])%io_bind_inv.
    eapply stepped_leave; [done|by eapply receives_stored|by eapply receives_partly].
  - intros [= <- <-]. by eapply stepped_leave.
  - done.
  - intros Hk. apply io_try_split in Hk as (r1 & s1 & Hdl%deliver_receives & _ & Hk); [|done].
    injection Hk as <- <-. destruct r1.
    + eapply stepped_stay; [by eapply receives_looping|by apply receives_same_coal|done].
    + eapply stepped_leave; [done|by eapply receives_stored|by eapply receives_partly].
    + eapply stepped_stay; [by eapply receives_looping|by apply receives_same_coal|done].
  - intros [= <- <-]. by eapply stepped_leave.
  - done.
  - intros ([] & s1 & Hr & [= <- <-])%io_bind_inv.
    eapply resize_looping in Hr as (_ & _ & Hco & Hl'); [|done|done]. by eapply stepped_stay.
  - unfold ioLoop. destruct (_ <? _); [intros [= <- <-]; by eapply stepped_leave|].
    intros Hk. apply io_try_split in Hk as (r1 & s1 & Hw & _ & Hk); [|done].
    eapply control_looping in Hw as (_ & Hcl & Hco & Hl'); [|done| |done].
    + injection Hk as <- <-. destruct r1; [by eapply stepped_stay| |by eapply stepped_stay].
      eapply stepped_leave; [done|apply (proj1 Hl')|apply carrying_partly, (proj1 Hl')].
    + apply int64_range.
  - intros [= <- <-]. by eapply stepped_leave.
Qed.

(** What the set-up keeps: the sender and the receiver. *)
Definition kept (s s' : st) : Prop :=
  cl_sendSeq (cl s') = cl_sendSeq (cl s) ∧ cl_buf (cl s') = cl_buf (cl s) ∧ same_receiver s s'.

Lemma kept_cl s s' : cl s' = cl s → kept s s'.
Proof. unfold kept, same_receiver. by intros ->. Qed.

Lemma kept_trans s1 s2 s3 : kept s1 s2 → kept s2 s3 → kept s1 s3.
Proof. unfold kept, same_receiver. intros. naive_solver congruence. Qed.

Lemma call_kept {A} (c : io C A) s r s' : call c s = Some (r, s') → kept s s'.
Proof. intros (x & _ & ->)%call_conn. by apply kept_cl. Qed.

Lemma resend_kept es s r s' : resend es s = Some (r, s') → kept s s'.
Proof.
  revert s. induction es as [|e es IH]; intros s; cbn [resend].
  - intros [= <- <-]. by apply kept_cl.
  - intros (r1 & s1 & (r0 & Hw%call_kept & ->)%io_wrap_split & Hk)%io_bind_split.
    destruct r0; simpl in Hk; [by eapply kept_trans, IH|by destruct Hk as [_ ->]..].
Qed.

Lemma handleSequenceExchange_kept s r s' : handleSequenceExchange s = Some (r, s') → kept s s'.
Proof.
  intros (r1 & s1 & (r0 & Hr%call_kept & ->)%io_wrap_split & Hk)%io_bind_split.
  destruct r0 as [msg| |]; simpl in Hk; [|by destruct Hk as [_ ->]..].
  destruct msg as [| |last| | | | |]; try by injection Hk as _ <-.
  rewrite get_bind in Hk. apply io_bind_split in Hk as (r2 & s2 & [= _ <-] & Hk).
  destruct r2; [|by destruct Hk as [_ ->]..]. by eapply kept_trans, resend_kept.
Qed.

Lemma sendResize_kept size s r s' : sendResize size s = Some (r, s') → kept s s'.
Proof.
  unfold sendResize. rewrite get_bind. destruct (_ <? _); [intros [= _ <-]; by apply kept_cl|].
  destruct size as [[cols rows]|e|p]; try (intros [= _ <-]; by apply kept_cl).
  unfold io_bind, io_try. destruct (call _ s) as [[[] s1]|] eqn:Hc; [..|done];
    intros [= _ <-]; by eapply call_kept.
Qed.

(** Closing the connection and then giving up. *)
Lemma close_kept (a : next) s r s' :
  (call (λ c, Some (Ok (), Close c)) ;; io_ret a) s = Some (r, s') → kept s s'.
Proof. intros (r1 & s1 & Hc%call_kept & Hk)%io_bind_split. destruct r1; [by injection Hk as _ <-|by destruct Hk as [_ ->]..]. Qed.

Lemma enter_kept now (a : next) s r s' : (enter_loop now ;; io_ret a) s = Some (r, s') → kept s s'.
Proof.
  unfold io_bind, enter_loop. destruct (coalesce.New now); [|done]. intros Hk. injection Hk as _ <-. by apply kept_cl.
Qed.

Lemma set_up_kept TERM makeRaw size now s r s' :
  set_up TERM makeRaw size now s = Some (Ok r, s') → kept s s'.
Proof.
  unfold set_up. rewrite modify_bind. set (s0 := set_cl _ s).
  assert (kept s s0) as H0' by done. intros Hk. apply (kept_trans _ _ _ H0').
  apply io_try_split in Hk as (r1 & s1 & Hs1%handleSequenceExchange_kept & Hp1 & Hk); [|done].
  apply (kept_trans _ _ _ Hs1). destruct r1 as [[]|e|p]; [|by eapply close_kept|done].
  apply io_try_split in Hk as (r2 & s2 & Hs2%call_kept & Hp2 & Hk); [|done].
  apply (kept_trans _ _ _ Hs2). destruct r2 as [[]|e|p]; [|by eapply close_kept|done].
  rewrite get_bind in Hk.
  destruct (if 0 <=? _ then makeRaw else Ok ()) as [[]|e|p]; [|by eapply close_kept|done].
  apply io_bind_inv in Hk as ([] & s3 & Hs3%sendResize_kept & Hk). apply (kept_trans _ _ _ Hs3).
  rewrite modify_bind in Hk. set (s4 := set_cl _ s3) in Hk.
  assert (kept s3 s4) as Hs4 by done. apply (kept_trans _ _ _ Hs4).
  apply io_bind_inv in Hk as ([] & s5 & Hs5%call_kept & Hk). apply (kept_trans _ _ _ Hs5).
  by eapply enter_kept.
Qed.

(** ** What an iteration does to the receiver *)

Lemma receiver_trans s1 s2 s3 : same_receiver s1 s2 → same_receiver s2 s3 → same_receiver s1 s3.
Proof. unfold same_receiver. intros [] []. split; congruence. Qed.

Lemma flush_receiver now s r s' : flushStdinCoalesced now s = Some (r, s') → same_receiver s s'.
Proof.
  unfold flushStdinCoalesced, io_bind at 1. destruct (coalesce.Flush (coal s) now) as [c [data|]]; [|by intros [= _ <-]].
  rewrite modify_bind, get_bind. intros (r1 & s1 & Hst & Hk)%io_bind_split.
  assert (same_receiver s s1) as Hs1.
  { simpl in Hst. destruct (catchup.Store _ _ _) as [[]|]; [..|done]; by injection Hst as _ <-. }
  destruct r1; [|by destruct Hk as [_ ->]..]. apply call_kept in Hk as (_ & _ & Hs2). by eapply receiver_trans.
Qed.

(** The end of an iteration that flushes. *)
Lemma flush_end_receiver now (f : res () → Z + exitReason) s r s' :
  (r <- io_try (flushStdinCoalesced now) ;; io_ret (f r)) s = Some (r, s') → same_receiver s s'.
Proof.
  unfold io_bind, io_try. destruct (flushStdinCoalesced now s) as [[[] s1]|] eqn:Hf; [..|done];
    intros Hk; injection Hk as _ <-; by eapply flush_receiver.
Qed.

(** Only a [Data] message touches the receiver of a loop that goes on or is
    lost: its payload is written to the terminal, and then it is acknowledged. *)
Lemma ioLoop_receiver lastRecv now e s r s' :
  ioLoop lastRecv now e s = Some (Ok r, s') →
  match e with
  | EvData (Ok (Data seq p)) _ =>
    r = inr exitStdinEOF ∨
    (r = inl now ∧ cl_recvSeq (cl s') = seq ∧ Write p (cl_stdout (cl s)) = Some (Ok (), cl_stdout (cl s')))
  | EvControl (Ok Shutdown) _ => r = inr exitShutdown
  | _ => same_receiver s s'
  end.
Proof.
  destruct e as [[data|]| |[msg|err|p] dr|[msg|err|p] ctl|size| |]; unfold ioLoop; try done; try by intros [= _ <-].
  - destruct (_ <? _); [by intros [= _ <-]|]. unfold io_bind at 1.
    destruct (escape.Process _ _ _) as [[[[e' dst] n'] action]|err|p]; [|done..].
    destruct (go_slice dst 0 n') as [out|err|p]; [|done..]. simpl. destruct action; [|by intros [= _ <-]].
    destruct (0 <? len out); [|by intros [= _ <-]]. unfold io_bind at 1.
    destruct (coalesce.Add _ _ _) as [c full]. destruct full; [|by intros [= _ <-]].
    intros Hk%flush_end_receiver. exact Hk.
  - intros Hk%(flush_end_receiver now (λ _, inr exitStdinEOF)). exact Hk.
  - unfold io_bind at 1. destruct (coalesce.recv_Timer _ _); [|done].
    destruct (_ <? _); [by intros [= _ <-]|]. intros Hk%flush_end_receiver. exact Hk.
  - destruct msg; try by intros [= _ <-]. by intros ([] & s1 & _ & [= <- _])%io_bind_inv.
  - destruct msg as [| | | | | | |sq pl]; try by intros [= _ <-].
    unfold io_bind at 1, io_try. cbn [deliver]. unfold io_bind at 1, stdout_Write, io_zoom.
    destruct (Write pl _) as [[[[]|e|p] w]|] eqn:Hw; [..|done].
    + intros [= <- <-]. right. done.
    + intros [= <- <-]. by left.
    + done.
  - intros ([] & s1 & (_ & _ & Hs)%sendResize_kept & [= _ <-])%io_bind_inv. done.
  - destruct (_ <? _); [by intros [= _ <-]|].
    unfold io_bind, io_try. destruct (call _ s) as [[[] s1]|] eqn:Hc; [..|done];
      intros [= _ <-]; by apply call_kept in Hc as (_ & _ & Hc).
Qed.

(** ** Runs of the client *)

(** [reach N segs cur s p]: after [N] iterations of [ioLoop] over all
    connections the client is [s], in the loop when [p] is [Some lastRecv];
    [segs] are the bytes read from the terminal in the loops that ended in
    [exitNetwork], and [cur] those of this loop.  A connection's goroutines
    run in between. *)
Inductive reach (cfg : Config) (stdout : writer) (fd : Z) :
    Z → list bytes → bytes → st → option Z → Prop :=
| reach_start s : cl s = New cfg stdout fd → reach cfg stdout fd 0 [] [] s None
| reach_dial N segs s c cs TERM makeRaw size now s' :
  reach cfg stdout fd N segs [] s None → fresh c → sent c cs [] →
  set_up TERM makeRaw size now (St (cl s) c (coal s) (escapeBuf s)) = Some (Ok Enter, s') →
  reach cfg stdout fd N segs [] s' (Some now)
| reach_dial_failed N segs s c TERM makeRaw size now s' :
  reach cfg stdout fd N segs [] s None →
  set_up TERM makeRaw size now (St (cl s) c (coal s) (escapeBuf s)) = Some (Ok Retry, s') →
  reach cfg stdout fd N segs [] s' None
| reach_event N segs cur s l now e l' s' :
  reach cfg stdout fd N segs cur s (Some l) → len (stdin_bytes e) <= stdinBufSize →
  ioLoop l now e s = Some (Ok (inl l'), s') →
  reach cfg stdout fd (N + 1) segs (cur ++ stdin_bytes e) s' (Some l')
| reach_lost N segs cur s l now e s' ctx s'' :
  reach cfg stdout fd N segs cur s (Some l) → len (stdin_bytes e) <= stdinBufSize →
  ioLoop l now e s = Some (Ok (inr exitNetwork), s') →
  after_loop exitNetwork ctx s' = Some (Ok Retry, s'') →
  reach cfg stdout fd (N + 1) (segs ++ [cur ++ stdin_bytes e]) [] s'' None
| reach_goroutine N segs cur s p c :
  reach cfg stdout fd N segs cur s p → goroutine_step (conn s) c →
  reach cfg stdout fd N segs cur (St (cl s) c (coal s) (escapeBuf s)) p.

(** What holds there. *)
Definition inv (N : Z) (segs : list bytes) (cur : bytes) (s : st) (p : option Z) : Prop :=
  ∃ hist sent_segs, len hist <= N ∧
    Forall2 (λ seg out, out `prefix_of` escape.unescape true seg) segs sent_segs ∧
    match p with
    | None => stored hist s ∧ cur = [] ∧ List.concat hist = List.concat sent_segs
    | Some _ => ∃ m, looping m hist (List.concat sent_segs) cur s ∧
                     len (coalesce.buf (coal s)) < coalesce.Threshold
    end.

Lemma goroutine_looping m hist pre cur s c :
  goroutine_step (conn s) c → looping m hist pre cur s → looping m hist pre cur (St (cl s) c (coal s) (escapeBuf s)).
Proof.
  intros Hg ((Hs & cs & Hc) & Hrest). split; [|exact Hrest]. split; [done|]. exists cs.
  by apply (proj2 (goroutine_frame _ _ Hg)).
Qed.

Lemma stored_kept hist s s' : kept s s' → stored hist s → stored hist s'.
Proof. intros (Hs & Hb & _) H'. unfold stored. by rewrite Hs, Hb. Qed.

Lemma run_inv cfg stdout fd N segs cur s p :
  n = cfg_ReplaySize cfg → reach cfg stdout fd N segs cur s p → N < 2 ^ 64 → 0 <= N ∧ inv N segs cur s p.
Proof.
  intros Hn Hr. induction Hr as [s Hs|N segs s c cs TERM raw size now s' Hr IH Hf Hc Hs
    |N segs s c TERM raw size now s' Hr IH Hs|N segs cur s l now e l' s' Hr IH Hd Hs
    |N segs cur s l now e s' ctx s'' Hr IH Hd Hs Ha|N segs cur s p c Hr IH Hg]; intros HN.
  - split; [done|]. exists [], []. split; [done|]. split; [constructor|]. split; [|done].
    unfold stored. rewrite Hs. simpl. rewrite <-Hn. apply sender_new.
  - destruct IH as [H0' (hist & outs & Hl & Ho & Hst & _ & Hcat)]; [done|]. split; [done|].
    exists hist, outs. split; [done|]. split; [done|].
    eapply (set_up_spec hist) in Hs as ((last & x & _ & _ & Hcar) & Hnil & Hbuf & started & Hcl); [|split; [done|by exists cs]|done].
    exists (start n hist last). rewrite Hnil. split; [|done]. split; [done|]. split; [apply start_range|].
    split; [done|]. exists []. rewrite app_nil_r. split; [done|]. by rewrite Hnil, Hcl.
  - destruct IH as [H0' (hist & outs & Hl & Ho & Hst & Hcur & Hcat)]; [done|]. split; [done|].
    exists hist, outs. apply set_up_kept in Hs. split; [done|]. split; [done|]. split; [|done].
    by eapply stored_kept.
  - destruct IH as [H0' (hist & outs & Hl & Ho & m & Hloop & Hsm)]; [lia|]. split; [lia|].
    eapply ioLoop_stepped in Hs as (hist' & Hlen%grown_len & Hloop' & Hsm'); [|done|done|lia|done].
    exists hist', outs. split; [lia|]. split; [done|]. by exists m.
  - destruct IH as [H0' (hist & outs & Hl & Ho & m & Hloop & Hsm)]; [lia|]. split; [lia|].
    eapply ioLoop_stepped in Hs as (hist' & Hlen%grown_len & Hst & _ & out & Hcat & Hpre); [|done|done|lia|done].
    simpl in Ha. apply io_bind_inv in Ha as ([] & s2 & Hk%call_kept & [= <-]).
    exists hist', (outs ++ [out]). split; [lia|]. split; [by apply Forall2_app; [|constructor]|].
    split; [by eapply stored_kept|]. split; [done|]. rewrite concat_app. simpl. by rewrite app_nil_r.
  - destruct IH as [H0' (hist & outs & Hl & Ho & Hp)]; [done|]. split; [done|]. exists hist, outs.
    split; [done|]. split; [done|]. destruct p; [|done]. destruct Hp as (m & Hloop & Hsm). exists m.
    split; [by apply goroutine_looping|done].
Qed.
End client.

(** ** Properties *)

Section properties.
Context {C : Type} `{ConnLaws C}.

(** C5: The typed stream.  Whatever the connections do, over any number of
    reconnects: the batches stored for sending are, loop after loop, a prefix
    of what the escape processor makes of the terminal input of that loop; in
    the current loop it is all of it but the fewer than [Threshold] bytes
    being coalesced; the counter is the number of batches, and the connection
    has been sent exactly the numbered batches from some point to the last
    one, once each and in order. *)
Theorem typed_stream cfg stdout fd N segs cur (s : st (C := C)) p :
  reach cfg stdout fd N segs cur s p → N < 2 ^ 64 →
  ∃ hist outs,
    cl_sendSeq (cl s) = len hist ∧
    Forall2 (λ seg out, out `prefix_of` escape.unescape true seg) segs outs ∧
    match p with
    | None => List.concat hist = List.concat outs
    | Some _ =>
      List.concat hist ++ coalesce.buf (coal s) = List.concat outs ++ escape.unescape true cur ∧
      len (coalesce.buf (coal s)) < coalesce.Threshold ∧
      ∃ m cs, 0 <= m <= len hist ∧ sent (conn s) cs (run_from m hist)
    end.
Proof.
  intros Hr HN. apply (run_inv (cfg_ReplaySize cfg)) in Hr as [_ (hist & outs & _ & Ho & Hp)]; [|done|done].
  exists hist, outs. destruct p as [l|].
  - destruct Hp as (m & (((Hs & _) & cs & Hc) & Hm & _ & out & Hcat & Hrun) & Hsm).
    split; [done|]. split; [done|]. split; [|split; [done|by exists m, cs]].
    rewrite Hcat, <-app_assoc. f_equal. by apply (escape.run_unescape cur true) in Hrun.
  - destruct Hp as ((Hs & _) & _ & Hcat). done.
Qed.

(** C34: What a lost connection loses.  When input arrives after the peer has
    been silent for [recvTimeout], the loop gives the connection up and drops
    that input together with what is being coalesced: neither is stored, and
    after the next set-up the coalescer and the escape processor are empty
    and the sender is as it was. *)
Theorem stale_input_discarded lastRecv now data (s : st (C := C)) ctx c cs TERM makeRaw size now' s1 s' hist :
  recvTimeout < now - lastRecv →
  after_loop exitNetwork ctx s = Some (Ok Retry, s1) →
  sender_ok (cfg_ReplaySize (cl_cfg (cl s))) (cl_sendSeq (cl s)) (cl_buf (cl s)) hist →
  fresh c → sent c cs [] →
  set_up TERM makeRaw size now' (St (cl s1) c (coal s1) (escapeBuf s1)) = Some (Ok Enter, s') →
  ioLoop lastRecv now (EvStdin (Some data)) s = Some (Ok (inr exitNetwork), s) ∧
  cl_sendSeq (cl s') = cl_sendSeq (cl s) ∧ cl_buf (cl s') = cl_buf (cl s) ∧
  coalesce.buf (coal s') = [] ∧ cl_escape (cl s') = escape.NewEscapeProcessor.
Proof.
  intros Ht Ha Hs Hf Hc Hu. split.
  { unfold ioLoop. rewrite (proj2 (Z.ltb_lt _ _)) by done. done. }
  simpl in Ha. apply io_bind_inv in Ha as ([] & s2 & Hk%call_kept & [= <-]). destruct Hk as (Hks & Hkb & _).
  eapply (set_up_spec _ hist) in Hu as (_ & Hnil & _ & started & Hcl); [| |done].
  - rewrite Hcl. simpl. by rewrite Hks, Hkb.
  - split; [|by exists cs]. simpl. by rewrite Hks, Hkb.
Qed.
End properties.

(** ** Instances of the properties

    A client over QUIC with piped input: it connects to a new session, two
    chunks are typed, the coalescing timer fires, a third chunk arrives after
    the peer fell silent, and the client connects again. *)

Definition ex_cfg : Config := MkConfig "host" 1 [] false DialQUIC 0.
Definition ex_conn (last : Z) : quicConn :=
  QuicConn
    (Wire (Reader (frames [SequenceHeader last]) None) (Writer [] None None) false false 0)
    (Wire (Reader [] None) (Writer [] None None) false false 0) 0 false None.

Lemma ex_sent last : sent (ex_conn last) [] [].
Proof.
  split; [split; [constructor|]; exists []; by split_and!; [|left|]|].
  exists []. split; [|done]. split; [constructor|]. exists []. by split_and!; [|left|].
Qed.

Definition ex_start : st (C := quicConn) :=
  St (New ex_cfg (Writer [] None None) (-1)) (ex_conn 0) (coalesce.MkCoalescer [] (MkTimer None) false) [].
Definition ex_set_up (last now : Z) (s : st (C := quicConn)) :=
  set_up "xterm" (Ok ()) (Err EOF) now (St (cl s) (ex_conn last) (coal s) (escapeBuf s)).

(** The state after, and which way an operation went. *)
Definition after {A} (x : option (res A * st (C := quicConn))) : st := from_option snd ex_start x.
Definition entered (x : option (res next * st (C := quicConn))) : bool :=
  match x with Some (Ok Enter, _) => true | _ => false end.
Definition went_on (l : Z) (x : option (res (Z + exitReason) * st (C := quicConn))) : bool :=
  match x with Some (Ok (inl l'), _) => l' =? l | _ => false end.

Definition lost (x : option (res (Z + exitReason) * st (C := quicConn))) : bool :=
  match x with Some (Ok (inr exitNetwork), _) => true | _ => false end.
Definition retried (x : option (res next * st (C := quicConn))) : bool :=
  match x with Some (Ok Retry, _) => true | _ => false end.

Lemma entered_eq x : entered x = true → x = Some (Ok Enter, after x).
Proof. by destruct x as [[[[]| |] s]|]. Qed.
Lemma went_on_eq l x : went_on l x = true → x = Some (Ok (inl l), after x).
Proof. by destruct x as [[[[l'|]| |] s]|]; simpl; [intros ->%Z.eqb_eq|..]. Qed.
Lemma lost_eq x : lost x = true → x = Some (Ok (inr exitNetwork), after x).
Proof. by destruct x as [[[[|[]]| |] s]|]. Qed.
Lemma retried_eq x : retried x = true → x = Some (Ok Retry, after x).
Proof. by destruct x as [[[[]| |] s]|]. Qed.

Definition ex_chunk1 : bytes := [x61; x0d; x7e].
Definition ex_chunk2 : bytes := [x62].
Definition ex_s1 : st := after (ex_set_up 0 0 ex_start).
Definition ex_s2 : st := after (ioLoop 0 Millisecond (EvStdin (Some ex_chunk1)) ex_s1).
Definition ex_s3 : st := after (ioLoop 0 (2 * Millisecond) (EvStdin (Some ex_chunk2)) ex_s2).
Definition ex_s4 : st := after (ioLoop 0 (5 * Millisecond) EvCoalTimer ex_s3).
Definition ex_s5 : st := after (ioLoop 0 (16 * Second) (EvStdin (Some [x63])) ex_s4).
Definition ex_s6 : st := after (after_loop exitNetwork None ex_s5).

Lemma ex_runs : reach ex_cfg (Writer [] None None) (-1) 4 [ex_chunk1 ++ ex_chunk2 ++ [x63]] [] ex_s6 None.
Proof.
  assert (reach ex_cfg (Writer [] None None) (-1) 0 [] [] ex_s1 (Some 0)) as H1.
  { eapply (reach_dial _ _ _ 0 [] ex_start (ex_conn 0) [] "xterm" (Ok ()) (Err EOF) 0);
      [by apply reach_start|done|apply ex_sent|]. apply entered_eq. vm_compute. reflexivity. }
  assert (reach ex_cfg (Writer [] None None) (-1) 1 [] ex_chunk1 ex_s2 (Some 0)) as H2.
  { apply (reach_event _ _ _ 0 [] [] ex_s1 0 Millisecond (EvStdin (Some ex_chunk1)) 0 ex_s2 H1); [done|].
    apply went_on_eq. vm_compute. reflexivity. }
  assert (reach ex_cfg (Writer [] None None) (-1) 2 [] (ex_chunk1 ++ ex_chunk2) ex_s3 (Some 0)) as H3.
  { apply (reach_event _ _ _ 1 [] ex_chunk1 ex_s2 0 (2 * Millisecond) (EvStdin (Some ex_chunk2)) 0 ex_s3 H2); [done|].
    apply went_on_eq. vm_compute. reflexivity. }
  assert (reach ex_cfg (Writer [] None None) (-1) 3 [] (ex_chunk1 ++ ex_chunk2) ex_s4 (Some 0)) as H4.
  { apply (reach_event _ _ _ 2 [] (ex_chunk1 ++ ex_chunk2) ex_s3 0 (5 * Millisecond) EvCoalTimer 0 ex_s4 H3); [done|].
    apply went_on_eq. vm_compute. reflexivity. }
  eapply (reach_lost _ _ _ _ _ _ _ _ _ (EvStdin (Some [x63])) ex_s5 None ex_s6) in H4 as H5.
  - exact H5.
  - done.
  - apply lost_eq. vm_compute. reflexivity.
  - apply retried_eq. vm_compute. reflexivity.
Qed.

Lemma typed_stream_witness :
  cl_sendSeq (cl ex_s6) = 1 ∧
  ∃ hist outs,
    cl_sendSeq (cl ex_s6) = len hist ∧
    Forall2 (λ seg out, out `prefix_of` escape.unescape true seg) [ex_chunk1 ++ ex_chunk2 ++ [x63]] outs ∧
    List.concat hist = List.concat outs.
Proof.
  split; [vm_compute; reflexivity|].
  apply (typed_stream ex_cfg (Writer [] None None) (-1) 4 _ [] ex_s6 None ex_runs). lia.
Defined.

(** The second chunk is still being coalesced when the third arrives. *)
Definition ex_s7 : st := after (after_loop exitNetwork None ex_s3).
Definition ex_s8 : st := after (ex_set_up 0 (17 * Second) ex_s7).

Lemma stale_input_discarded_witness :
  coalesce.buf (coal ex_s3) = [x61; x0d; x7e; x62] ∧
  ioLoop 0 (16 * Second) (EvStdin (Some [x63])) ex_s3 = Some (Ok (inr exitNetwork), ex_s3) ∧
  cl_sendSeq (cl ex_s8) = cl_sendSeq (cl ex_s3) ∧ cl_buf (cl ex_s8) = cl_buf (cl ex_s3) ∧
  coalesce.buf (coal ex_s8) = [] ∧ cl_escape (cl ex_s8) = escape.NewEscapeProcessor.
Proof.
  split; [vm_compute; reflexivity|].
  apply (stale_input_discarded 0 (16 * Second) [x63] ex_s3 None (ex_conn 0) [] "xterm" (Ok ()) (Err EOF)
    (17 * Second) ex_s7 ex_s8 []).
  - done.
  - apply retried_eq. vm_compute. reflexivity.
  - assert (cl_sendSeq (cl ex_s3) = 0) as -> by (vm_compute; reflexivity).
    assert (cl_buf (cl ex_s3) = catchup.New 0) as -> by (vm_compute; reflexivity).
    assert (cfg_ReplaySize (cl_cfg (cl ex_s3)) = 0) as -> by (vm_compute; reflexivity).
    apply sender_new.
  - done.
  - apply ex_sent.
  - apply entered_eq. vm_compute. reflexivity.
Defined.
End client.
