(* ===== verification/System.v ===== *)
(** * The whole system: a session and its client

    The event loops of [Session] and [Client] run side by side, joined by
    connections that come and go.  The network is the step relation [reach]:
    a connection hands the client the data messages the session wrote to it,
    in order, any number of them, and may be lost at any point.  What the
    theorems show: the terminal displays the shell's output in order, no batch
    twice, and no batch is missing but those the catchup buffer had evicted
    when the client came back. *)

From stdpp Require Import sorting.
From S2P Require Import Prelude GoIO Protocol Catchup Coalesce Transport Sender Delivery Pty Session Client.

Module system.
Import delivery.

Section system.
Context {C : Type} `{ConnLaws C} {D : Type} `{ConnLaws D} {P : Type} `{PtyLib P}.
Variables (SHELL : string) (environ : list string) (scfg : session.Config) (ccfg : client.Config) (fd : Z).

(** The output of the shell, the session with the locals of its loop, the
    client with [lastRecv] when it is in [ioLoop], the session's name for the
    client's connection, and how many data messages were read from it. *)
Record sys : Type := Sys {
  y_out : bytes;
  y_session : session.Session (C := C) (P := P);
  y_locals : session.locals;
  y_client : client.st (C := D);
  y_loop : option Z;
  y_link : nat;
  y_read : nat;
}.

Definition recvSeq (c : client.st (C := D)) : Z := client.cl_recvSeq (client.cl c).
Definition screen (c : client.st (C := D)) : bytes := wr_out (client.cl_stdout (client.cl c)).

(** [reach N y]: [y] is reached after [N] iterations of the session's loop. *)
Inductive reach : Z → sys → Prop :=
| sys_start now s c room err i k :
  session.New scfg now = Some s → client.cl c = client.New ccfg (Writer [] room err) fd →
  reach 0 (Sys [] s (session.Locals false false now) c None i k)
| sys_session N out s l c p i k now e l' s' :
  reach N (Sys out s l c p i k) → session.enabled l s now e → session.is_accept e = false →
  session.handle SHELL environ l now e s = Some (Ok (inl l'), s') →
  reach (N + 1) (Sys (out ++ session.pty_bytes e) s' l' c p i k)
(** A connection the client has dialled, now or in an earlier attempt. *)
| sys_accept N out s l c p i k now j x cs ctx l' s' :
  reach N (Sys out s l c p i k) → session.s_conns s !! j = None →
  sent x cs [] → is_uint 64 (LastClientSeq x) → LastClientSeq x <= recvSeq c →
  session.handle SHELL environ l now (session.EvAccept (Ok j) ctx)
    (session.set_conns (<[j := x]> (session.s_conns s)) s) = Some (Ok (inl l'), s') →
  reach (N + 1) (Sys out s' l' c p i k)
| sys_session_goroutine N out s l c p i k j x x' :
  reach N (Sys out s l c p i k) → session.s_conns s !! j = Some x → goroutine_step x x' →
  reach N (Sys out (session.set_conns (<[j := x']> (session.s_conns s)) s) l c p i k)
(** The dial carried the client's [recvSeq]. *)
| sys_connect N out s l c i k j x d TERM raw size now c' :
  reach N (Sys out s l c None i k) → session.s_conns s !! j = Some x → LastClientSeq x = recvSeq c →
  client.set_up TERM raw size now
    (client.St (client.cl c) d (client.coal c) (client.escapeBuf c)) = Some (Ok client.Enter, c') →
  reach N (Sys out s l c' (Some now) j 0)
| sys_connect_failed N out s l c i k d TERM raw size now c' :
  reach N (Sys out s l c None i k) →
  client.set_up TERM raw size now
    (client.St (client.cl c) d (client.coal c) (client.escapeBuf c)) = Some (Ok client.Retry, c') →
  reach N (Sys out s l c' None i k)
(** The next data message of the connection. *)
| sys_receive N out s l c lr i k x cs ds msg now ctl lr' c' :
  reach N (Sys out s l c (Some lr) i k) → session.s_conns s !! i = Some x → sent x cs ds → ds !! k = Some msg →
  client.ioLoop lr now (client.EvData (Ok msg) ctl) c = Some (Ok (inl lr'), c') →
  reach N (Sys out s l c' (Some lr') i (S k))
| sys_client N out s l c lr i k now e lr' c' :
  reach N (Sys out s l c (Some lr) i k) → (∀ msg ctl, e ≠ client.EvData (Ok msg) ctl) →
  client.ioLoop lr now e c = Some (Ok (inl lr'), c') →
  reach N (Sys out s l c' (Some lr') i k)
| sys_lost N out s l c lr i k now e c' ctx c'' :
  reach N (Sys out s l c (Some lr) i k) →
  client.ioLoop lr now e c = Some (Ok (inr client.exitNetwork), c') →
  client.after_loop client.exitNetwork ctx c' = Some (Ok client.Retry, c'') →
  reach N (Sys out s l c'' None i k)
| sys_client_goroutine N out s l c p i k d :
  reach N (Sys out s l c p i k) → goroutine_step (client.conn c) d →
  reach N (Sys out s l (client.St (client.cl c) d (client.coal c) (client.escapeBuf c)) p i k).

(** ** What the terminal shows *)

#[local] Abbreviation n := (session.ReplaySize scfg).

(** What the connection the client reads from will deliver next. *)
Definition linked (s : session.Session (C := C) (P := P)) (c : client.st (C := D)) (i k : nat) : Prop :=
  ∃ x, session.s_conns s !! i = Some x ∧
    ∃ cs ds, sent x cs ds ∧ position (LastClientSeq x) ds k (recvSeq c).

Definition consistent (hist : list bytes) (got : list nat) (y : sys) : Prop :=
  displayed n hist got (recvSeq (y_client y)) (screen (y_client y)) ∧
  (y_loop y ≠ None → linked (y_session y) (y_client y) (y_link y) (y_read y)).

(** ** Lemmas *)

Lemma linked_grow s s' c i k : session.grow s s' → linked s c i k → linked s' c i k.
Proof.
  intros Hg (x & Hx & cs & ds & Hs & Hk). destruct (Hg i x Hx) as (x' & Hx' & Hl & He). exists x'. split; [done|].
  destruct (He _ _ Hs) as (cs' & ds' & Hs'). exists (cs ++ cs'), (ds ++ ds'). split; [done|]. rewrite Hl.
  by apply position_app.
Qed.

Lemma linked_client s c c' i k : recvSeq c' = recvSeq c → linked s c i k → linked s c' i k.
Proof. intros Hq. unfold linked. by rewrite Hq. Qed.

Lemma consistent_client hist got out s l c p i k c' p' :
  client.same_receiver c c' → (p' ≠ None → p ≠ None) →
  consistent hist got (Sys out s l c p i k) → consistent hist got (Sys out s l c' p' i k).
Proof.
  intros [Hq Ho] Hp [Hd Hl]. unfold consistent in *. simpl in *. unfold screen, recvSeq in *.
  rewrite Hq, Ho. split; [done|]. intros Hp'%Hp. eapply linked_client; [|by apply Hl]. exact Hq.
Qed.

Lemma consistent_session hist hist' got out out' s l s' l' c p i k :
  hist `prefix_of` hist' → session.grow s s' →
  consistent hist got (Sys out s l c p i k) → consistent hist' got (Sys out' s' l' c p i k).
Proof.
  intros Hp Hg [Hd Hl]. split; [by eapply displayed_extend|]. simpl in *. intros Hn. eapply linked_grow; [done|]. by apply Hl.
Qed.

(** Reading one more message. *)
Lemma consistent_receive hist got N out s l c lr i k x cs ds msg now ctl r c' :
  session.inv_at True n N out hist s → consistent hist got (Sys out s l c (Some lr) i k) →
  session.s_conns s !! i = Some x → sent x cs ds → ds !! k = Some msg →
  client.ioLoop lr now (client.EvData (Ok msg) ctl) c = Some (Ok (inl r), c') →
  ∃ got', consistent hist got' (Sys out s l c' (Some r) i (S k)).
Proof.
  intros [Hb _] [Hd Hl] Hx Hs Hk Hio. simpl in Hd, Hl. destruct (Hl ltac:(done)) as (x' & Hx' & cs1 & ds1 & Hs1 & Hread).
  assert (x' = x) as -> by congruence. destruct (sent_det _ _ _ _ _ Hs1 Hs) as [-> ->].
  destruct (session.b_conns _ _ _ _ _ Hb i x Hx) as (kk & ds' & (cs' & Hs') & Hkk & _ & Hh & Hpre).
  destruct (sent_det _ _ _ _ _ Hs Hs') as [<- <-].
  destruct (position_next _ _ _ _ _ _ _ _ _ _ Hd Hkk (Hh I) Hpre Hread Hk) as (q' & p & got' & -> & Hd' & Hread').
  apply client.ioLoop_receiver in Hio as [?|(_ & Hq & Hw)]; [done|].
  apply Write_ok_out in Hw. exists got'. split.
  - simpl. unfold screen, recvSeq in *. by rewrite Hw, Hq.
  - intros _. simpl. exists x. split; [done|]. exists cs, ds. split; [done|]. unfold recvSeq. by rewrite Hq.
Qed.

(** The invariant of the system. *)
Definition sys_inv (N : Z) (y : sys) : Prop :=
  ∃ hist got, session.inv_at True n N (y_out y) hist (y_session y) ∧ consistent hist got y.

Lemma sys_inv_session N out s l c p i k out' s' l' :
  sys_inv N (Sys out s l c p i k) →
  (∀ hist, session.inv_at True n N out hist s → session.inv True n hist (N + 1) out' s') → session.grow s s' →
  sys_inv (N + 1) (Sys out' s' l' c p i k).
Proof.
  intros (hist & got & Hs & Hc) Hstep Hg. destruct (Hstep hist Hs) as (hist' & Hp & Hs').
  exists hist', got. split; [done|]. by eapply consistent_session.
Qed.

Lemma grow_new s j x : session.s_conns s !! j = None →
  session.grow s (session.set_conns (<[j := x]> (session.s_conns s)) s : session.Session (C := C) (P := P)).
Proof.
  intros Hj i c Hi. exists c. split; [|apply session.extends_refl]. simpl. apply lookup_insert_Some.
  right. split; [by intros ->; rewrite Hi in Hj|done].
Qed.

Lemma start_inv now s c room err i k :
  session.New scfg now = Some s → client.cl c = client.New ccfg (Writer [] room err) fd →
  sys_inv 0 (Sys [] s (session.Locals false false now) c None i k).
Proof.
  intros Hs Hc. destruct (session.reach_inv SHELL environ True n [] scfg 0 [] s (session.Locals false false now))
    as (_ & hist & _ & Hinv); [done|done|by apply session.reach_new|done|].
  exists hist, []. split; [done|]. split; [|done]. simpl. unfold displayed, screen, recvSeq. rewrite Hc. simpl.
  split; [split; [done|apply len_nonneg]|]. split; [done|]. split; [constructor|]. split; [constructor|]. lia.
Qed.

Lemma reach_sys_inv N y : reach N y → N < 2 ^ 64 → 0 <= N ∧ sys_inv N y.
Proof.
  induction 1 as [now s c room err i k Hs Hc
    |N out s l c p i k now e l' s' Hr IH He Ha Hh
    |N out s l c p i k now j x cs ctx l' s' Hr IH Hj Hx Hu Hq Hh
    |N out s l c p i k j x x' Hr IH Hj Hg
    |N out s l c i k j x d TERM raw size now c' Hr IH Hj Hq Hc
    |N out s l c i k d TERM raw size now c' Hr IH Hc
    |N out s l c lr i k x cs ds msg now ctl lr' c' Hr IH Hx Hs Hk Hc
    |N out s l c lr i k now e lr' c' Hr IH He Hc
    |N out s l c lr i k now e c' ctx c'' Hr IH Hc Ha
    |N out s l c p i k d Hr IH Hg]; intros HN.
  - split; [done|]. by eapply start_inv.
  - destruct IH as [HN0 IH]; [lia|]. split; [lia|]. eapply sys_inv_session; [done| |by eapply session.grow_handle].
    intros hist Hi. eapply session.handle_inv; [by exists hist|lia|done| |done|done]. by destruct e as [| | |[]| | |].
  - destruct IH as [HN0 IH]; [lia|]. split; [lia|]. pose proof IH as (hist & got & Hi & (Hd & _) & _).
    assert (∀ hist, session.inv_at True n N out hist s → session.accepted True s x) as Hacc.
    { intros hist0 Hi0. split; [by exists cs|]. split; [done|]. intros _. simpl in Hd, Hi. unfold recvSeq in *.
      destruct (session.b_sender _ _ _ _ _ (proj1 Hi)) as (-> & _). lia. }
    eapply sys_inv_session; [done| |].
    + intros hist0 Hi0. eapply session.handle_accept_inv; [by exists hist0|lia|done|by eapply Hacc|done|done].
    + eapply session.grow_trans; [by apply grow_new|].
      destruct (session.inv_accept True n hist N out s j x) as (hist1 & _ & Hb1 & _ & _ & HN1 & _);
        [by exists hist|done|by eapply Hacc|]. eapply session.grow_accept; [exact Hb1|lia|done].
  - destruct IH as [HN0 (hist & got & Hi & Hcon)]; [done|]. split; [done|].
    destruct (session.inv_goroutine True n hist N out s j x x') as (hist' & Hp & Hi'); [by exists hist|done|done|].
    exists hist', got. split; [done|]. eapply consistent_session; [done| |done].
    eapply session.grow_insert; [done|]. by apply session.extends_goroutine.
  - destruct IH as [HN0 (hist & got & Hi & Hd & _)]; [done|]. split; [done|]. exists hist, got. split; [done|].
    apply client.set_up_kept in Hc as (_ & _ & Hrq & Ho). simpl in *. unfold consistent, screen, recvSeq in *. simpl.
    rewrite Hrq, Ho. split; [done|]. intros _. exists x. simpl. split; [done|]. unfold recvSeq. rewrite Hrq.
    destruct (session.b_conns _ _ _ _ _ (proj1 Hi) j x Hj) as (kk & ds & (cs & Hs) & _). by exists cs, ds.
  - destruct IH as [HN0 (hist & got & Hi & Hcon)]; [done|]. split; [done|]. exists hist, got. split; [done|].
    eapply consistent_client; [|done|exact Hcon]. by apply client.set_up_kept in Hc as (_ & _ & Hrc).
  - destruct IH as [HN0 (hist & got & Hi & Hcon)]; [done|]. split; [done|].
    destruct (consistent_receive hist got N out s l c lr i k x cs ds msg now ctl lr' c') as (got' & Hcon'); [done..|].
    by exists hist, got'.
  - destruct IH as [HN0 (hist & got & Hi & Hcon)]; [done|]. split; [done|]. exists hist, got. split; [done|].
    apply (consistent_client hist got out s l c (Some lr) i k); [|done|done]. apply client.ioLoop_receiver in Hc.
    destruct e as [| |[[]| |]|[msg| |] ctl| | |]; try done. by destruct (He msg ctl).
  - destruct IH as [HN0 (hist & got & Hi & Hcon)]; [done|]. split; [done|]. exists hist, got. split; [done|].
    apply (consistent_client hist got out s l c (Some lr) i k); [|done|done]. simpl in Ha.
    apply io_bind_inv in Ha as ([] & s2 & Hk%client.call_kept & [= <-]). destruct Hk as (_ & _ & Hk).
    eapply client.receiver_trans; [|exact Hk]. apply client.ioLoop_receiver in Hc.
    destruct e as [| |[[]| |]|[[]| |] ctl| | |]; try done. by destruct Hc as [?|(? & _)].
  - destruct IH as [HN0 (hist & got & Hi & Hcon)]; [done|]. split; [done|]. exists hist, got. split; [done|].
    by eapply consistent_client.
Qed.

(** Everything the session wrote to the current connection has been read. *)
Definition caught_up (y : sys) : Prop :=
  y_loop y ≠ None ∧ session.s_conn (y_session y) = Some (y_link y) ∧
  ∃ x cs ds, session.s_conns (y_session y) !! y_link y = Some x ∧ sent x cs ds ∧ y_read y = List.length ds.

Lemma caught_up_displayed N y hist got b :
  session.inv_at True n N (y_out y) hist (y_session y) → consistent hist got y → caught_up y →
  Z.of_nat b < len hist → b ∈ got ∨ evicted n hist b.
Proof.
  intros (Hb & Hcur & _) [Hd Hl] (Hp & Hcn & x & cs & ds & Hx & Hs & Hk) Hlt.
  destruct (Hl Hp) as (x' & Hx' & cs' & ds' & Hs' & Hread). assert (x' = x) as -> by congruence.
  destruct (sent_det _ _ _ _ _ Hs' Hs) as [-> ->].
  destruct (Hcur _ Hcn) as (x2 & kk & Hx2 & ((cs2 & Hs2) & Hkk & _ & Hh & Hpre)). assert (x2 = x) as -> by congruence.
  destruct (sent_det _ _ _ _ _ Hs Hs2) as [<- ->].
  destruct (position_read _ _ _ _ _ _ _ Hkk (Hh I) Hpre Hread) as (_ & Hev).
  destruct (Z.ltb_spec (Z.of_nat b) (recvSeq (y_client y))) as [Hlb|Hge]; [by apply Hd|]. right.
  apply Hev; [done|]. rewrite Hk. unfold session.run_of.
  pose proof (session.start_take_range n hist kk (LastClientSeq x) Hkk) as Hr.
  pose proof (run_from_length _ _ Hr) as Hlen. unfold len in *. lia.
Qed.
End system.

(** ** Properties *)

Section properties.
Context {C : Type} `{ConnLaws C} {D : Type} `{ConnLaws D} {P : Type} `{PtyLib P}.
Variables (SHELL : string) (environ : list string) (scfg : session.Config) (ccfg : client.Config) (fd : Z).

(** C1: End-to-end delivery of the output.  However connections are made,
    lost and replaced, and however the two event loops, the network and the
    connections' goroutines interleave: the terminal shows the payloads of a
    strictly increasing sequence [got] of the shell's batches, so in order
    and none twice; the client's sequence number bounds them, and each batch
    below it that is not shown had been evicted from the session's catchup
    buffer; once the client has read all that was sent on the current
    connection, the same holds of all the shell's batches. *)
Theorem output_end_to_end N (y : sys (C := C) (D := D) (P := P)) :
  reach SHELL environ scfg ccfg fd N y → N < 2 ^ 64 →
  ∃ hist got,
    List.concat hist ++ coalesce.buf (session.s_coal (y_session y)) = y_out y ∧
    session.s_sendSeq (y_session y) = len hist ∧
    screen (y_client y) = pick hist got ∧ StronglySorted lt got ∧
    recvSeq (y_client y) <= len hist ∧ Forall (λ j, Z.of_nat j < recvSeq (y_client y)) got ∧
    (∀ b, Z.of_nat b < recvSeq (y_client y) → b ∈ got ∨ evicted (session.ReplaySize scfg) hist b) ∧
    (caught_up y → ∀ b, Z.of_nat b < len hist → b ∈ got ∨ evicted (session.ReplaySize scfg) hist b).
Proof.
  intros Hr HN. apply reach_sys_inv in Hr as [_ (hist & got & Hi & Hc)]; [|done]. exists hist, got.
  pose proof Hi as (Hb & _). pose proof Hc as [(Hq & Ho & Hs & Hg & Hm) _]. split_and!; try done.
  - apply Hb.
  - apply (session.b_sender _ _ _ _ _ Hb).
  - apply Hq.
  - intros Hup b. exact (caught_up_displayed scfg N y hist got b Hi Hc Hup).
Qed.

(** C3: No output is lost or repeated while it fits the catchup buffer: then
    the terminal shows a prefix of what the shell printed, whatever happens
    to the connections, and once the client has caught up, all of it but the
    bytes still being coalesced. *)
Theorem small_output_exact N (y : sys (C := C) (D := D) (P := P)) :
  reach SHELL environ scfg ccfg fd N y → N < 2 ^ 64 →
  len (y_out y) <= catchup.maxSize (catchup.New (session.ReplaySize scfg)) →
  session.s_sendSeq (y_session y) <= catchup.capacity (catchup.New (session.ReplaySize scfg)) →
  screen (y_client y) `prefix_of` y_out y ∧
  (caught_up y → screen (y_client y) ++ coalesce.buf (session.s_coal (y_session y)) = y_out y).
Proof.
  intros Hr HN Hsize Hcap. apply reach_sys_inv in Hr as [_ (hist & got & Hi & Hc)]; [|done].
  pose proof Hi as (Hb & _). pose proof Hc as [(Hq & Ho & Hs & Hg & Hm) _].
  pose proof (session.b_out _ _ _ _ _ Hb) as Hout.
  assert (∀ b, ¬ evicted (session.ReplaySize scfg) hist b) as Hne.
  { intros b. apply not_evicted; [|by destruct (session.b_sender _ _ _ _ _ Hb) as (<- & _)].
    rewrite <-Hout, len_app in Hsize. pose proof (len_nonneg (coalesce.buf (session.s_coal (y_session y)))). lia. }
  set (q := Z.to_nat (recvSeq (y_client y))).
  assert (got = seq 0 q) as ->.
  { apply sorted_seq; [done| |].
    - eapply Forall_impl; [done|]. simpl. lia.
    - intros b Hlt. destruct (Hm b) as [|He]; [lia|done|by apply Hne in He]. }
  rewrite Ho, pick_seq by (unfold len in Hq; lia). rewrite <-Hout. split.
  - rewrite <-(take_drop q hist) at 2. rewrite concat_app, <-app_assoc. by apply prefix_app_r.
  - intros Hup. assert (List.length hist ≤ q)%nat as Hge.
    { destruct (Nat.leb_spec (List.length hist) q); [done|].
      destruct (caught_up_displayed scfg N y hist (seq 0 q) q Hi Hc Hup) as [Hin|He]; [unfold len; lia| |by apply Hne in He].
      rewrite elem_of_seq in Hin. lia. }
    by rewrite take_ge.
Qed.
End properties.

(** ** Instances of the properties

    Over QUIC: the client connects, the shell prints a prompt, the coalescing
    timer fires, and the client reads the message. *)

Definition ex_session : Type := session.Session (C := quicConn) (P := memPty).
Definition ex_outcome : Type := option (res (session.locals + option error) * ex_session).

Definition s_after (x : ex_outcome) : ex_session :=
  match x with
  | Some (_, s) => s
  | None => session.MkSession session.ex_cfg None (catchup.New 0) (coalesce.MkCoalescer [] (MkTimer None) false)
              None 0 0 false false [] ∅
  end.
Definition l_after (x : ex_outcome) : session.locals :=
  match x with Some (Ok (inl l), _) => l | _ => session.Locals false false 0 end.
Definition went_on (x : ex_outcome) : bool := match x with Some (Ok (inl _), _) => true | _ => false end.

Lemma went_on_after x : went_on x = true → x = Some (Ok (inl (l_after x)), s_after x).
Proof. by destruct x as [[[[]| |] s]|]. Qed.

Definition ex_s0 : ex_session :=
  default (s_after None) (session.New session.ex_cfg 0).
Definition ex_o1 : ex_outcome :=
  session.handle "" [] (session.Locals false false 0) Millisecond (session.EvAccept (Ok 0%nat) None)
    (session.set_conns (<[0%nat := session.ex_conn 0]> (session.s_conns ex_s0)) ex_s0).
Definition ex_prompt : bytes := [x24; x20].
Definition ex_o2 : ex_outcome :=
  session.handle "" [] (l_after ex_o1) (2 * Millisecond) (session.EvPty (Some ex_prompt)) (s_after ex_o1).
Definition ex_o3 : ex_outcome :=
  session.handle "" [] (l_after ex_o2) (5 * Millisecond) session.EvCoalTimer (s_after ex_o2).

(** The session's end of the connection, and the client. *)
Definition ex_x : quicConn := default (session.ex_conn 0) (session.s_conns (s_after ex_o3) !! 0%nat).
Definition ex_c1 : client.st := client.ex_s1.
Definition ex_event : client.event := client.EvData (Ok (Data 1 ex_prompt)) None.
Definition ex_c2 : client.st := client.after (client.ioLoop 0 (6 * Millisecond) ex_event ex_c1).

Lemma ex_link_sent : sent ex_x [SequenceHeader 0] [Data 1 ex_prompt].
Proof.
  split; [|exists [Data 1 ex_prompt]; split; [|done]]; (split; [by repeat constructor|]); exists [];
    (split; [vm_compute; reflexivity|split; [by left|done]]).
Qed.

Definition ex_y : sys := Sys ex_prompt (s_after ex_o3) (l_after ex_o3) ex_c2 (Some (6 * Millisecond)) 0 1.

Lemma ex_system_runs : reach "" [] session.ex_cfg client.ex_cfg (-1) 3 ex_y.
Proof.
  assert (reach "" [] session.ex_cfg client.ex_cfg (-1) 0
    (Sys [] ex_s0 (session.Locals false false 0) client.ex_start None 0 0)) as Hr0.
  { apply (sys_start _ _ _ _ _ 0 ex_s0 client.ex_start None None); reflexivity. }
  assert (reach "" [] session.ex_cfg client.ex_cfg (-1) 1
    (Sys [] (s_after ex_o1) (l_after ex_o1) client.ex_start None 0 0)) as Hr1.
  { eapply (sys_accept _ _ _ _ _ 0 _ _ _ _ _ _ _ Millisecond 0%nat (session.ex_conn 0) [] None); [exact Hr0|done| |done|done|].
    - split; [split; [constructor|]; exists []; by split_and!; [|left|]|].
      exists []. split; [|done]. split; [constructor|]. exists []. by split_and!; [|left|].
    - apply went_on_after. vm_compute. reflexivity. }
  assert (reach "" [] session.ex_cfg client.ex_cfg (-1) 1
    (Sys [] (s_after ex_o1) (l_after ex_o1) ex_c1 (Some 0) 0 0)) as Hr2.
  { eapply (sys_connect _ _ _ _ _ 1 _ _ _ _ _ _ 0%nat (default (session.ex_conn 0) (session.s_conns (s_after ex_o1) !! 0%nat))
      (client.ex_conn 0) "xterm" (Ok ()) (Err EOF) 0); [exact Hr1|vm_compute; reflexivity|vm_compute; reflexivity|].
    apply client.entered_eq. vm_compute. reflexivity. }
  assert (reach "" [] session.ex_cfg client.ex_cfg (-1) 2
    (Sys ex_prompt (s_after ex_o2) (l_after ex_o2) ex_c1 (Some 0) 0 0)) as Hr3.
  { eapply (sys_session _ _ _ _ _ 1 [] _ _ _ _ _ _ (2 * Millisecond) (session.EvPty (Some ex_prompt)));
      [exact Hr2| |done|apply went_on_after; vm_compute; reflexivity].
    split; [vm_compute; reflexivity|done]. }
  assert (reach "" [] session.ex_cfg client.ex_cfg (-1) 3
    (Sys ex_prompt (s_after ex_o3) (l_after ex_o3) ex_c1 (Some 0) 0 0)) as Hr4.
  { eapply (sys_session _ _ _ _ _ 2 ex_prompt _ _ _ _ _ _ (5 * Millisecond) session.EvCoalTimer);
      [exact Hr3| |done|apply went_on_after; vm_compute; reflexivity].
    vm_compute. by eexists. }
  eapply (sys_receive _ _ _ _ _ 3 _ _ _ _ _ _ _ ex_x _ _ (Data 1 ex_prompt) (6 * Millisecond) None);
    [exact Hr4|vm_compute; reflexivity|apply ex_link_sent|done|].
  apply client.went_on_eq. vm_compute. reflexivity.
Qed.

Lemma ex_caught_up : caught_up ex_y.
Proof.
  split; [done|]. split; [vm_compute; reflexivity|]. exists ex_x, [SequenceHeader 0], [Data 1 ex_prompt].
  split; [vm_compute; reflexivity|]. split; [apply ex_link_sent|done].
Qed.

Lemma output_end_to_end_witness :
  caught_up ex_y ∧
  ∃ hist got,
    List.concat hist ++ coalesce.buf (session.s_coal (y_session ex_y)) = ex_prompt ∧
    session.s_sendSeq (y_session ex_y) = len hist ∧
    screen (y_client ex_y) = pick hist got ∧ StronglySorted lt got ∧
    recvSeq (y_client ex_y) <= len hist ∧ Forall (λ j, Z.of_nat j < recvSeq (y_client ex_y)) got ∧
    (∀ b, Z.of_nat b < recvSeq (y_client ex_y) → b ∈ got ∨ evicted (session.ReplaySize session.ex_cfg) hist b) ∧
    (caught_up ex_y → ∀ b, Z.of_nat b < len hist → b ∈ got ∨ evicted (session.ReplaySize session.ex_cfg) hist b).
Proof.
  split; [apply ex_caught_up|].
  apply (output_end_to_end "" [] session.ex_cfg client.ex_cfg (-1) 3 ex_y ex_system_runs). lia.
Defined.

Lemma small_output_exact_witness :
  caught_up ex_y ∧
  screen (y_client ex_y) `prefix_of` ex_prompt ∧
  (caught_up ex_y → screen (y_client ex_y) ++ coalesce.buf (session.s_coal (y_session ex_y)) = ex_prompt).
Proof.
  split; [apply ex_caught_up|].
  apply (small_output_exact "" [] session.ex_cfg client.ex_cfg (-1) 3 ex_y ex_system_runs);
    [lia|vm_compute; intros; discriminate..].
Defined.
End system.
