(* ===== verification/Input.v ===== *)
(** * The input side, one event at a time

    The frame lemmas of [Duplex].  Of the session: which events leave the
    position in the client's stream and what was written to the PTY as they are,
    and what accepting a connection writes to it first.  Of the client: that
    the loop only adds to what is written to its connection, and what a set-up
    that is given up has written.  The property here puts the two ends together
    for the case [Duplex] leaves out, a PTY that refuses a write. *)

From S2P Require Import Prelude GoIO Protocol Catchup Coalesce Escape Transport Sender Pty Session Client.
Open Scope go_scope.

Module typing.

(** ** The session: what is given to the PTY *)

Section session_side.
Context {C : Type} `{ConnLaws C} {P : Type} `{PtyInput P}.
Variables (SHELL : string) (environ : list string).
#[local] Abbreviation Session := (session.Session (C := C) (P := P)).

Definition input (s : Session) : bytes :=
  match session.s_ptmx s with Some p => pty_input p | None => [] end.

(** Nothing received, and only the current connection used. *)
Definition idle (s s' : Session) : Prop :=
  (∀ j, session.s_conn s ≠ Some j → session.s_conns s' !! j = session.s_conns s !! j) ∧
  (session.s_conn s' = session.s_conn s ∨ session.s_conn s' = None) ∧
  session.s_recvSeq s' = session.s_recvSeq s ∧ input s' = input s ∧
  (is_Some (session.s_ptmx s) → is_Some (session.s_ptmx s')).

Definition idler {A} (c : io Session A) : Prop := ∀ s r s', c s = Some (r, s') → idle s s'.

Lemma idle_refl s : idle s s.
Proof. by repeat split; auto. Qed.

Lemma idle_trans s1 s2 s3 : idle s1 s2 → idle s2 s3 → idle s1 s3.
Proof.
  intros (Hc1 & Hn1 & Hq1 & Hi1 & Hp1) (Hc2 & Hn2 & Hq2 & Hi2 & Hp2). split.
  { intros j Hj. rewrite Hc2; [by apply Hc1|]. destruct Hn1 as [-> | ->]; [done|discriminate]. }
  split; [destruct Hn2 as [-> | ->]; [done|by right]|]. split; [congruence|]. split; [congruence|auto].
Qed.

Lemma idler_ret {A} (a : A) : idler (io_ret a).
Proof. intros s r s' [= _ <-]. apply idle_refl. Qed.

Lemma idler_lift {A} (a : res A) : idler (io_lift a).
Proof. intros s r s' [= _ <-]. apply idle_refl. Qed.

Lemma idler_bind {A B} (c : io Session A) (k : A → io Session B) :
  idler c → (∀ a, idler (k a)) → idler (io_bind c k).
Proof.
  intros Hc Hk s r s' (r1 & s1 & Hs1%Hc & Hr)%io_bind_split.
  destruct r1; [eapply idle_trans; [done|by eapply Hk]|by destruct Hr as [_ ->]..].
Qed.

Lemma idler_try {A} (c : io Session A) : idler c → idler (io_try c).
Proof.
  intros Hc s r s' Ht. unfold io_try in Ht. destruct (c s) as [[[] s1]|] eqn:E; [..|done];
    injection Ht as _ <-; by eapply Hc.
Qed.

Lemma idler_get {A B} (f : Session → A) (k : A → io Session B) :
  (∀ a, idler (k a)) → idler (io_bind (session.get f) k).
Proof. intros Hk s r s'. rewrite session.bind_get. apply Hk. Qed.

(** An update of other parts of the state. *)
Lemma idle_fields s s' :
  session.s_conns s' = session.s_conns s → session.s_conn s' = session.s_conn s →
  session.s_recvSeq s' = session.s_recvSeq s → session.s_ptmx s' = session.s_ptmx s → idle s s'.
Proof. intros Hcs Hc Hq Hp. unfold idle, input. rewrite Hcs, Hc, Hq, Hp. auto. Qed.

(** A call on the current connection. *)
Lemma idle_call {A} i (op : io C A) s r s' :
  session.s_conn s = Some i → session.call i op s = Some (r, s') → idle s s' ∧ session.s_conn s' = Some i.
Proof.
  intros Hi. unfold session.call. destruct (session.s_conns s !! i) as [x|]; [|intros [= _ <-]; by split; [apply idle_refl|]].
  destruct (op x) as [[r1 x']|]; [|done]. intros [= _ <-]. split; [|done]. split; [|by auto].
  intros j Hj. simpl. rewrite lookup_insert_ne; [done|congruence].
Qed.

Lemma idle_try_call {A} i (op : io C A) s r s' :
  session.s_conn s = Some i → io_try (session.call i op) s = Some (r, s') → idle s s' ∧ session.s_conn s' = Some i.
Proof.
  intros Hi Ht. unfold io_try in Ht. destruct (session.call i op s) as [[[] s1]|] eqn:E; [..|done];
    injection Ht as _ <-; by eapply idle_call.
Qed.

(** A call, then operations that do not need the connection. *)
Lemma idle_then {A B} (c : io Session A) (k : A → io Session B) i s r s' :
  session.s_conn s = Some i →
  (∀ r s', c s = Some (r, s') → idle s s' ∧ session.s_conn s' = Some i) → (∀ a, idler (k a)) →
  io_bind c k s = Some (r, s') → idle s s'.
Proof.
  intros Hi Hc Hk (r1 & s1 & [Hs1 _]%Hc & Hr)%io_bind_split.
  destruct r1; [eapply idle_trans; [done|by eapply Hk]|by destruct Hr as [_ ->]..].
Qed.

Lemma idler_closeConn : idler session.closeConn.
Proof.
  intros s r s'. unfold session.closeConn. rewrite session.bind_get.
  destruct (session.s_conn s) as [i|] eqn:Hi; [|intros [= _ <-]; apply idle_refl].
  apply (idle_then _ _ i); [done|intros r1 s1; by apply idle_call|].
  intros _ s1 r1 s1' [= _ <-]. split; [done|]. split; [by right|]. by auto.
Qed.

Lemma idler_flush now : idler (session.flushCoalesced now).
Proof.
  intros s r s'. unfold session.flushCoalesced, session.coal_Flush, io_bind at 1.
  destruct (coalesce.Flush (session.s_coal s) now) as [co [data|]]; [|intros [= _ <-]; by apply idle_fields].
  rewrite session.bind_modify, session.bind_get. set (s1 := session.set_sendSeq _ _). intros (r2 & s2 & Hst & Hk)%io_bind_split.
  assert (idle s s2) as Hs2.
  { eapply (idle_trans s s1); [by apply idle_fields|]. unfold session.buf_Store in Hst.
    destruct (catchup.Store _ _ _) as [[]|]; [..|done]; injection Hst as _ <-; by apply idle_fields. }
  eapply (idle_trans s s2); [done|]. destruct r2; [|by destruct Hk as [_ ->]; apply idle_refl..].
  rewrite session.bind_get in Hk. destruct (session.s_conn s2) as [i|] eqn:Hi; [|injection Hk as _ <-; apply idle_refl].
  eapply (idle_then _ _ i); [done| | |exact Hk].
  - intros r1 s3. by apply idle_try_call.
  - intros [| |]; [apply idler_ret|apply idler_closeConn|apply idler_ret].
Qed.

Lemma idler_control (m : message) (k : res () → io Session ()) :
  (∀ a, idler (k a)) →
  idler (c <- session.get session.s_conn ;;
         match c with Some i => r <- io_try (session.call i (WriteControl (Ptr m))) ;; k r | None => io_ret () end).
Proof.
  intros Hk s r s'. rewrite session.bind_get. destruct (session.s_conn s) as [i|] eqn:Hi; [|apply idler_ret].
  apply (idle_then _ _ i); [done|intros r1 s3; by apply idle_try_call|done].
Qed.

Lemma idler_gracefulShutdown now : idler (session.gracefulShutdown now).
Proof.
  apply idler_bind; [apply idler_flush|]. intros _. apply idler_control. intros _. apply idler_ret.
Qed.

(** A call on the PTY that writes nothing to it. *)
Lemma idler_on_ptmx {A} (op : io P A) :
  (∀ p r p', op p = Some (r, p') → pty_input p' = pty_input p) → idler (session.on_ptmx op).
Proof.
  intros Hop s r s'. unfold session.on_ptmx. destruct (session.s_ptmx s) as [p|] eqn:Hp; [|intros [= _ <-]; apply idle_refl].
  destruct (op p) as [[r1 p']|] eqn:E; [|done]. intros [= _ <-].
  split; [done|]. split; [by left|]. split; [done|]. split; [|done]. unfold input. rewrite Hp. by eapply Hop.
Qed.

Lemma bounce_input (p : P) r p' : bouncePTYSize p = Some (r, p') → pty_input p' = pty_input p.
Proof.
  unfold bouncePTYSize. intros (r1 & p1 & Hg & Hk)%io_bind_split. unfold io_wrap in Hg.
  destruct (pty_GetsizeFull p) as [[r0 p0]|] eqn:E; [|done]. injection Hg as <- <-.
  apply Getsize_same in E as ->. destruct r0 as [sz|e|q]; cbn [wrap_err] in Hk.
  - destruct (_ <=? _); [by injection Hk as _ <-|]. by eapply Setsize_input.
  - by destruct Hk as [_ ->].
  - by destruct Hk as [_ ->].
Qed.

(** ** One event of the session's loop *)

Definition is_input (e : session.event) : bool :=
  match e with session.EvStream ev => match session.ev_msg ev with Ok (Data _ _) => true | _ => false end | _ => false end.

Lemma idler_stream ev :
  is_input (session.EvStream ev) = false → idler (session.handleStreamEvent ev).
Proof.
  intros Hd. unfold session.handleStreamEvent. apply idler_get. intros c. destruct (negb _); [apply idler_ret|].
  destruct ev as [i st [m|e|p]]; simpl in *; [|apply idler_closeConn|apply idler_lift].
  apply idler_get. intros pt. destruct m as [| | | |rows cols| | |sq pl]; try apply idler_ret; try apply idler_lift; [|done].
  destruct pt; [|apply idler_ret]. apply idler_bind; [|intros; apply idler_ret].
  apply idler_try, idler_on_ptmx. intros p0 r0 p1. apply Setsize_input.
Qed.

Lemma idle_coal (f : coalesce.Coalescer → coalesce.Coalescer) s : idle s (session.set_coal (f (session.s_coal s)) s).
Proof. by apply idle_fields. Qed.

(** Every event but an accepted connection and typed input. *)
Lemma idle_handle l now e : session.is_accept e = false → is_input e = false →
  idler (session.handle SHELL environ l now e).
Proof.
  intros Ha Hi. destruct e as [[d|]| |ev|[conn|err|p] ctx| |err|err]; try done; simpl.
  - apply idler_bind; [|intros full; apply idler_bind; [destruct full; [apply idler_flush|apply idler_ret]|intros; apply idler_ret]].
    intros s r s'. destruct (coalesce.Add (session.s_coal s) now d) as [c f]. intros [= _ <-]. by apply idle_fields.
  - apply idler_bind; [apply idler_flush|intros; apply idler_ret].
  - apply idler_bind; [|intros _; apply idler_bind; [apply idler_flush|intros; apply idler_ret]].
    intros s r s'. destruct (coalesce.recv_Timer (session.s_coal s) now); [|done]. intros [= _ <-]. by apply idle_fields.
  - apply idler_get. intros c. apply idler_bind; [by apply idler_try, idler_stream|].
    intros [| |]; apply idler_ret.
  - destruct ctx; apply idler_ret.
  - apply idler_lift.
  - intros s r s'. rewrite session.bind_get. destruct (session.s_conn s) as [i|] eqn:Hc; [|apply idler_ret].
    intros Hk. eapply (idle_then _ _ i); [done| | |exact Hk].
    + intros r1 s3. by apply idle_try_call.
    + intros [| |]; apply idler_bind; try (intros; apply idler_ret); try apply idler_closeConn;
        (destruct (_ <? _); [apply idler_closeConn|apply idler_ret]).
  - apply idler_bind; [apply idler_gracefulShutdown|intros; apply idler_ret].
  - apply idler_bind; [apply idler_gracefulShutdown|intros; apply idler_ret].
Qed.

(** Typed input: of another connection it is dropped, of the current one it
    goes to the PTY and moves the position. *)
Lemma handle_input l now j st q b s r s' :
  session.handle SHELL environ l now (session.EvStream (session.StreamEvent j st (Ok (Data q b)))) s = Some (r, s') →
  session.s_conn s ≠ Some j → s' = s.
Proof.
  intros Hh Hj. cbn [session.handle] in Hh. rewrite session.bind_get in Hh.
  unfold session.handleStreamEvent, io_bind, io_try in Hh. unfold session.get in Hh. cbn in Hh.
  rewrite (bool_decide_eq_false_2 (Some j = session.s_conn s)) in Hh by congruence. by injection Hh as _ <-.
Qed.

Lemma handle_input_current l now j st q b s r s' p p' :
  session.handle SHELL environ l now (session.EvStream (session.StreamEvent j st (Ok (Data q b)))) s = Some (r, s') →
  session.s_conn s = Some j → session.s_ptmx s = Some p → pty_Write b p = Some (Ok (), p') →
  s' = session.set_recvSeq q (session.set_ptmx (Some p') s).
Proof.
  intros Hh Hj Hp Hw. cbn [session.handle] in Hh. rewrite session.bind_get in Hh.
  unfold session.handleStreamEvent, io_bind, io_try, session.get in Hh. cbn in Hh.
  rewrite (bool_decide_eq_true_2 (Some j = session.s_conn s)) in Hh by done. cbn in Hh. rewrite Hp in Hh.
  unfold session.on_ptmx in Hh. rewrite Hp, Hw in Hh. by injection Hh as _ <-.
Qed.

(** ** Accepting a connection *)

Lemma spawn_idle term s r s' :
  session.spawn SHELL environ term s = Some (r, s') → idle s s' ∧ (is_ok r = true → is_Some (session.s_ptmx s')).
Proof.
  unfold session.spawn. rewrite session.bind_get. destruct (session.s_ptmx s) as [p|] eqn:Hp.
  { intros [= <- <-]. split; [apply idle_refl|]. intros _. by exists p. }
  rewrite session.bind_get. unfold spawnPTY, io_bind, io_lift.
  destruct (pty_StartWithSize _ _) as [p|e|q] eqn:E; cbn [wrap_err];
    [|intros [= <- <-]; by split; [apply idle_refl|]..].
  intros [= <- <-]. split; [|by intros _; exists p]. split; [done|]. split; [by left|]. split; [done|].
  split; [|by intros _; exists p]. unfold input. rewrite Hp. simpl. by eapply Start_input.
Qed.

Lemma replay_idle i es s r s' :
  session.s_conn s = Some i → session.replay i es s = Some (r, s') →
  idle s s' ∧ (r = Ok true → session.s_conn s' = Some i).
Proof.
  revert s. induction es as [|e es IH]; intros s Hi; cbn [session.replay].
  { intros [= <- <-]. by split; [apply idle_refl|]. }
  intros (r1 & s1 & Hc & Hk)%io_bind_split. apply (idle_try_call i) in Hc as [Hs1 Hi1]; [|done].
  destruct r1 as [[[]|err|q]|err|q]; [| | |by destruct Hk as [-> ->]..].
  - apply IH in Hk as [Hs Hr]; [|done]. split; [by eapply idle_trans|done].
  - apply io_bind_split in Hk as (r2 & s2 & Hc & Hk). apply idler_closeConn in Hc.
    destruct r2; [injection Hk as <- <-|by destruct Hk as [-> ->]; split; [by eapply idle_trans|]..].
    by split; [eapply idle_trans|].
  - apply IH in Hk as [Hs Hr]; [|done]. split; [by eapply idle_trans|done].
Qed.

Lemma catch_up_idle i s r s' :
  session.s_conn s = Some i → session.catch_up i s = Some (r, s') → idle s s'.
Proof.
  intros Hi (r1 & s1 & Hc & Hk)%io_bind_split. apply (idle_call i) in Hc as [Hs1 Hi1]; [|done].
  eapply idle_trans; [exact Hs1|]. destruct r1 as [last|e|q]; [|by destruct Hk as [_ ->]; apply idle_refl..].
  rewrite session.bind_get in Hk. destruct (catchup.ReplaySince _ last) as [es|e|q]; [|by injection Hk as _ <-; apply idle_refl..].
  change (io_bind (io_lift (Ok es)) ?k s1) with (k es s1) in Hk.
  apply io_bind_split in Hk as (r2 & s2 & Hr & Hk). apply (replay_idle i) in Hr as [Hs2 Hr2]; [|done].
  eapply idle_trans; [exact Hs2|]. destruct r2 as [[|]|e|q]; [|by injection Hk as _ <-; apply idle_refl|by destruct Hk as [_ ->]; apply idle_refl..].
  cbn [negb] in Hk. apply io_bind_split in Hk as (r3 & s3 & Hb & Hk).
  assert (session.s_conn s3 = Some i) as Hi3.
  { rewrite <-(Hr2 eq_refl). unfold io_try, session.on_ptmx in Hb.
    destruct (session.s_ptmx s2) as [p|]; [|by injection Hb as _ <-].
    destruct (bouncePTYSize p) as [[[] p']|]; [..|done]; by injection Hb as _ <-. }
  apply (idler_try _ (idler_on_ptmx _ bounce_input)) in Hb. eapply idle_trans; [exact Hb|].
  destruct r3; [|by destruct Hk as [_ ->]; apply idle_refl..].
  eapply (idle_then _ _ i); [done| | |exact Hk].
  - intros r4 s4. by apply idle_call.
  - intros _ s4 r4 s4' [= _ <-]. by apply idle_fields.
Qed.

Lemma closeConn_idle s r s' :
  session.closeConn s = Some (r, s') → panics r = false → idle s s' ∧ session.s_conn s' = None.
Proof.
  intros Hc Hp. split; [by eapply idler_closeConn|]. revert Hc.
  unfold session.closeConn. rewrite session.bind_get. destruct (session.s_conn s) as [j|] eqn:Hj; [|by intros [= _ <-]].
  unfold io_bind, session.call. destruct (session.s_conns s !! j); [by intros [= _ <-]|by intros [= <- _]].
Qed.

Lemma await_idle i s r s' :
  session.s_conn s = Some i → session.await_terminal SHELL environ i s = Some (r, s') → panics r = false →
  idle s s' ∧ (session.s_conn s' = Some i → is_Some (session.s_ptmx s')).
Proof.
  intros Hi Hk Hp. unfold session.await_terminal in Hk.
  assert (∀ s0, session.closeConn s0 = Some (r, s') → idle s0 s' ∧ (session.s_conn s' = Some i → is_Some (session.s_ptmx s'))) as Hclose.
  { intros s0 [Hs0 Hn]%closeConn_idle; [|done]. split; [done|]. by rewrite Hn. }
  assert (∀ (f : C → C) s0 r0 s1, session.s_conn s0 = Some i → session.call i (session.method f) s0 = Some (r0, s1) →
    idle s0 s1 ∧ session.s_conn s1 = Some i ∧ (panics r0 = false → r0 = Ok ())) as Hmeth.
  { intros f s0 r0 s1 Hi0 Hc. destruct (idle_call i _ _ _ _ Hi0 Hc) as [? ?]. split; [done|]. split; [done|].
    unfold session.call in Hc. destruct (session.s_conns s0 !! i); injection Hc as <- _; done. }
  apply io_bind_split in Hk as (r1 & s1 & Hc & Hk). apply Hmeth in Hc as (Hs1 & Hi1 & Hr1); [|done].
  destruct r1 as [[]|e|q]; [|by specialize (Hr1 eq_refl)|by destruct Hk as [-> _]].
  apply io_bind_split in Hk as (r2 & s2 & Hc & Hk). pose proof Hc as Hc'. apply (idle_try_call i) in Hc as [Hs2 Hi2]; [|done].
  assert (∀ e, r2 ≠ Err e) as Hne by (intros e ->; unfold io_try in Hc'; by destruct (session.call _ _ s1) as [[[]]|]).
  destruct r2 as [msg|e|q]; [|by destruct (Hne e)|by destruct Hk as [-> _]].
  apply io_bind_split in Hk as (r3 & s3 & Hc & Hk). apply Hmeth in Hc as (Hs3 & Hi3 & Hr3); [|done].
  destruct r3 as [[]|e|q]; [|by specialize (Hr3 eq_refl)|by destruct Hk as [-> _]].
  assert (idle s s3) as Hs by (eapply idle_trans; [exact Hs1|]; by eapply idle_trans).
  enough (idle s3 s' ∧ (session.s_conn s' = Some i → is_Some (session.s_ptmx s'))) as [? ?] by (split; [by eapply idle_trans|done]).
  destruct msg as [[| | | | | |term|]| |]; try by apply Hclose.
  apply io_try_split in Hk as (r4 & s4 & Hsp & Hp4 & Hk); [|done].
  assert (session.s_conn s4 = Some i) as Hi4.
  { revert Hsp. unfold session.spawn. rewrite session.bind_get. destruct (session.s_ptmx s3); [by intros [= _ <-]|].
    rewrite session.bind_get. unfold io_bind, io_lift. destruct (spawnPTY _ _ _ _); by intros [= _ <-]. }
  apply spawn_idle in Hsp as [Hs4 Hok]. destruct r4 as [[]|e|q]; [| |done].
  - pose proof (catch_up_idle i _ _ _ Hi4 Hk) as Hs5. split; [by eapply idle_trans|]. intros _. apply Hs5, Hok. done.
  - apply io_bind_split in Hk as (r5 & s5 & Hc & Hk).
    assert (panics r5 = false) as Hp5 by (by destruct r5; [| |destruct Hk as [-> _]]).
    apply closeConn_idle in Hc as [Hs5 Hn5]; [|done].
    assert (s' = s5) as -> by (destruct r5; [by injection Hk as _ <-|by destruct Hk..]).
    split; [by eapply idle_trans|]. by rewrite Hn5.
Qed.

(** What accepting connection [i] leaves: the position and the PTY's input as
    they were; if the connection is kept there is a PTY, and the header with
    the position is the first control message written to it. *)
Lemma handshake_idle i x cs s r s' :
  session.writes_wf s → session.s_conn s = Some i → session.s_conns s !! i = Some x → sent x cs [] →
  session.handshake SHELL environ i s = Some (r, s') → panics r = false →
  idle s s' ∧ (session.s_conn s' = Some i → is_Some (session.s_ptmx s')) ∧
  ∃ x' cs' ds', session.s_conns s' !! i = Some x' ∧ sent x' cs' ds' ∧
    (cs' !! List.length cs = Some (SequenceHeader (session.s_recvSeq s)) ∨
     (cs' !! List.length cs = None ∧ session.s_conn s' = None)).
Proof.
  intros Hw Hi Hx Hsent Hk Hp. unfold session.handshake in Hk. rewrite session.bind_get in Hk.
  apply io_try_split in Hk as (r1 & s1 & Hc & Hp1 & Hk); [|done]. pose proof Hc as Hc'.
  apply (session.call_inv i) in Hc' as (x0 & x1 & Hx0 & Hwr & ->); [|by eexists]. assert (x0 = x) as -> by congruence.
  apply (idle_call i) in Hc as [Hs1 Hi1]; [|done]. set (s1 := session.set_conns _ s) in *.
  assert (session.s_conns s1 !! i = Some x1) as Hx1 by (simpl; by rewrite lookup_insert_eq).
  destruct (WriteControl_sent (SequenceHeader (session.s_recvSeq s)) x cs [] r1 x1 Hsent) as [(e & -> & Hsx)|[-> Hsx]];
    [by apply Hw|done|done| |].
  - pose proof Hk as Hcl. apply closeConn_idle in Hcl as [Hs2 Hn2]; [|done]. split; [by eapply idle_trans|].
    split; [congruence|]. revert Hk. unfold session.closeConn. rewrite session.bind_get, Hi1. unfold io_bind, session.call.
    rewrite Hx1. intros [= _ <-]. exists (Close x1), cs, []. simpl. rewrite lookup_insert_eq.
    split; [done|]. split; [by apply Close_sent|]. right. split; [|done]. by apply lookup_ge_None.
  - pose proof Hk as Hg. apply session.keeper_await in Hg as [Hg _]; [|exact Hw].
    apply (await_idle i) in Hk as [Hs2 Hpt]; [|done..]. split; [by eapply idle_trans|]. split; [done|].
    destruct (Hg i x1 Hx1) as (x' & Hx' & _ & He). destruct (He _ _ Hsx) as (cs' & ds' & Hs').
    eexists x', _, _. split; [done|]. split; [done|]. left. rewrite <-app_assoc. cbn [app]. by rewrite list_lookup_middle.
Qed.

Record accepted (s : Session) (i skip : nat) (s' : Session) : Prop := {
  a_recv : session.s_recvSeq s' = session.s_recvSeq s;
  a_input : input s' = input s;
  a_ptmx : session.s_conn s' ≠ None → is_Some (session.s_ptmx s');
  a_conn : session.s_conn s' = Some i ∨ session.s_conn s' = None;
  a_others : ∀ j, j ≠ i → session.s_conn s ≠ Some j → session.s_conns s' !! j = session.s_conns s !! j;
  a_new : ∃ x cs ds, session.s_conns s' !! i = Some x ∧ sent x cs ds ∧
    (cs !! skip = Some (SequenceHeader (session.s_recvSeq s)) ∨ (cs !! skip = None ∧ session.s_conn s' = None));
}.

Lemma handle_accepted hon n out hist l now i x cs ctx s l' s' :
  let s0 := session.set_conns (<[i := x]> (session.s_conns s)) s in
  session.base hon n out hist s0 → len hist + 1 < 2 ^ 64 → session.s_conn s ≠ Some i → sent x cs [] →
  session.handle SHELL environ l now (session.EvAccept (Ok i) ctx) s0 = Some (Ok (inl l'), s') →
  accepted s i (List.length cs) s'.
Proof.
  intros s0 Hb Hl Hne Hs Hh. cbn [session.handle] in Hh.
  apply io_try_split in Hh as (r & s1 & Hn & Hp & Hk); [|done].
  assert (s' = s1) as ->.
  { destruct r; [rewrite session.bind_get in Hk|..]; by injection Hk as _ <-. }
  unfold session.handleNewConn in Hn. apply io_bind_split in Hn as (r2 & s2 & Hc & Hn). pose proof Hc as Hc'.
  apply idler_closeConn in Hc' as Hs2. eapply session.closeConn_spec in Hc as (-> & Hb2 & Hn2 & _); [|done].
  apply io_bind_split in Hn as (r3 & s3 & Hf & Hn). pose proof Hf as Hf'. apply idler_flush in Hf' as Hs3.
  eapply session.flushCoalesced_spec in Hf as (-> & hist' & Hb3 & _); [|done|intros j Hj; congruence|done].
  rewrite session.bind_modify in Hn. set (s4 := session.set_conn (Some i) s3) in *.
  assert (idle s0 s3) as (Hcs & Hcn & Hq & Hin & Hpt) by by eapply idle_trans.
  assert (session.s_conns s4 !! i = Some x) as Hx.
  { simpl. rewrite Hcs by done. simpl. by rewrite lookup_insert_eq. }
  apply (handshake_idle i x cs) in Hn as (Hs5 & Hpt5 & Hnew);
    [|apply session.base_writes_wf in Hb3; exact Hb3|done..].
  destruct Hs5 as (Hcs5 & Hcn5 & Hq5 & Hin5 & _). simpl in Hcn5, Hq5. split.
  - by rewrite Hq5, Hq.
  - rewrite Hin5. exact Hin.
  - intros Hnn. apply Hpt5. by destruct Hcn5.
  - done.
  - intros j Hj Hjc. rewrite Hcs5 by (simpl; congruence). simpl. rewrite Hcs by done. simpl. by rewrite lookup_insert_ne.
  - destruct Hnew as (x' & cs' & ds' & Hx' & Hs' & Hhdr). exists x', cs', ds'. split; [done|]. split; [done|].
    simpl in Hhdr. by rewrite Hq in Hhdr.
Qed.
End session_side.

(** ** The client: what is written to its connection *)

Section client_side.
Context {D : Type} `{ConnLaws D}.
#[local] Abbreviation st := (client.st (C := D)).

(** Connections are only written more. *)
Definition writes (s s' : st) : Prop := session.extends (client.conn s) (client.conn s').
Definition writer_of {A} (c : io st A) : Prop := ∀ s r s', c s = Some (r, s') → writes s s'.

Lemma writes_refl s : writes s s.
Proof. apply session.extends_refl. Qed.

Lemma writer_ret {A} (a : A) : writer_of (io_ret a).
Proof. intros s r s' [= _ <-]. apply writes_refl. Qed.

Lemma writer_bind {A B} (c : io st A) (k : A → io st B) :
  writer_of c → (∀ a, writer_of (k a)) → writer_of (io_bind c k).
Proof.
  intros Hc Hk s r s' (r1 & s1 & Hs1%Hc & Hr)%io_bind_split.
  destruct r1; [eapply session.extends_trans; [exact Hs1|by eapply Hk]|by destruct Hr as [_ ->]..].
Qed.

Lemma writer_try {A} (c : io st A) : writer_of c → writer_of (io_try c).
Proof.
  intros Hc s r s' Ht. unfold io_try in Ht. destruct (c s) as [[[] s1]|] eqn:E; [..|done];
    injection Ht as _ <-; by eapply Hc.
Qed.

Lemma writer_wrap {A} text (c : io st A) : writer_of c → writer_of (io_wrap text c).
Proof.
  intros Hc s r s' Ht. unfold io_wrap in Ht. destruct (c s) as [[r1 s1]|] eqn:E; [|done].
  injection Ht as _ <-. by eapply Hc.
Qed.

(** An operation that does not touch the connection. *)
Lemma writer_state {A} (c : io st A) :
  (∀ s r s', c s = Some (r, s') → client.conn s' = client.conn s) → writer_of c.
Proof. intros Hc s r s' Hs. unfold writes. rewrite (Hc _ _ _ Hs). apply session.extends_refl. Qed.

Lemma writer_call {A} (c : io D A) :
  (∀ x r x', c x = Some (r, x') → session.extends x x') → writer_of (client.call c).
Proof. intros Hc s r s' (x & Hx & ->)%client.call_conn. by eapply Hc. Qed.

Lemma writer_get {A B} (f : st → A) (k : A → io st B) : (∀ a, writer_of (k a)) → writer_of (io_bind (client.get f) k).
Proof. intros Hk s r s'. rewrite client.get_bind. apply Hk. Qed.

Lemma writer_control m : msg_wf m → is_data m = false → writer_of (client.call (WriteControl (Ptr m))).
Proof. intros Hm Hd. apply writer_call. intros x r x'. by apply session.extends_WriteControl. Qed.

Lemma writer_flush now : writer_of (client.flushStdinCoalesced now).
Proof.
  apply writer_bind.
  { apply writer_state. intros s r s'. destruct (coalesce.Flush _ _). by intros [= _ <-]. }
  intros [data|]; [|apply writer_ret].
  assert (∀ sq, is_uint 64 sq → writer_of (
    (λ s : st, match catchup.Store (client.cl_buf (client.cl s)) sq data with
          | None => None
          | Some (Ok b) => Some (Ok (), client.set_cl (client.set_buf b (client.cl s)) s)
          | Some (Err e) => Some (Err e, s)
          | Some (Panicked p) => Some (Panicked p, s)
          end) ;; client.call (WriteData (Ptr (Data sq data))))) as Hk.
  { intros sq Hsq. apply writer_bind.
    - apply writer_state. intros s0 r s'. destruct (catchup.Store _ _ _) as [[]|]; by intros [= _ <-].
    - intros _. apply writer_call. intros x r x'. by apply session.extends_WriteData. }
  intros s r s'. rewrite client.modify_bind, client.get_bind. intros Hs. exact (Hk _ (uint64_range _) _ _ _ Hs).
Qed.

Lemma writer_resize size : writer_of (client.sendResize size).
Proof.
  unfold client.sendResize. apply writer_get. intros fd. destruct (fd <? 0); [apply writer_ret|].
  destruct size as [[cols rows]| |]; [|apply writer_ret|apply writer_state; by intros s r s' [= _ <-]].
  apply writer_bind; [|intros; apply writer_ret]. apply writer_try, writer_control; [|done]. by split; apply uint16_range.
Qed.

(** Delivering output writes nothing. *)
Lemma receives_writes s s' : client.receives s s' → writes s s'.
Proof. intros (_ & _ & Hc). unfold writes. rewrite Hc. apply session.extends_refl. Qed.

Lemma ioLoop_writes lastRecv now e : writer_of (client.ioLoop lastRecv now e).
Proof.
  assert (∀ (f : res () → Z + client.exitReason), writer_of (r <- io_try (client.flushStdinCoalesced now) ;; io_ret (f r))) as Hfl.
  { intros f. apply writer_bind; [apply writer_try, writer_flush|]. intros; apply writer_ret. }
  destruct e as [[data|]| |[msg|err|p] dr|[msg|err|p] ctl|size| |]; cbn [client.ioLoop].
  - destruct (_ <? _); [apply writer_ret|]. apply writer_bind.
    { apply writer_state. intros s r s'. destruct (escape.Process _ _ _) as [[[[e' dst] n] a]|e|p]; by intros [= _ <-]. }
    intros [p []]; [|apply writer_ret]. destruct (0 <? len p); [|apply writer_ret]. apply writer_bind.
    { apply writer_state. intros s r s'. destruct (coalesce.Add _ _ _). by intros [= _ <-]. }
    intros [|]; [apply (Hfl (λ r, match r with Err _ => inr client.exitNetwork | _ => inl lastRecv end))|apply writer_ret].
  - apply (Hfl (λ _, inr client.exitStdinEOF)).
  - apply writer_bind.
    { apply writer_state. intros s r s'. destruct (coalesce.recv_Timer _ _); [|done]. by intros [= _ <-]. }
    intros _. destruct (_ <? _); [apply writer_ret|].
    apply (Hfl (λ r, match r with Err _ => inr client.exitNetwork | _ => inl lastRecv end)).
  - destruct msg; try apply writer_ret. apply writer_bind; [|intros; apply writer_ret].
    intros s r s' Hd%client.drain_receives. by apply receives_writes.
  - apply writer_ret.
  - apply writer_state. by intros s r s' [= _ <-].
  - apply writer_bind; [|intros; apply writer_ret]. apply writer_try.
    intros s r s' Hd%client.deliver_receives. by apply receives_writes.
  - apply writer_ret.
  - apply writer_state. by intros s r s' [= _ <-].
  - apply writer_bind; [apply writer_resize|intros; apply writer_ret].
  - destruct (_ <? _); [apply writer_ret|]. apply writer_bind; [|intros; apply writer_ret].
    apply writer_try, writer_control; [apply int64_range|done].
  - apply writer_ret.
Qed.

Lemma after_network_writes ctx : writer_of (client.after_loop client.exitNetwork ctx).
Proof.
  apply writer_bind; [|intros; apply writer_ret]. apply writer_call. intros x r x' [= _ <-].
  apply session.extends_sent; [apply Close_seq|apply Close_sent].
Qed.

(** A set-up that is given up has written a part of the run. *)
Definition part_of_run (n : Z) (hist : list bytes) (d : D) (ds : list message) : Prop :=
  ds = [] ∨ ∃ last x, ReadControl d = Some (Ok (SequenceHeader last), x) ∧ is_uint 64 last ∧
    ds `prefix_of` run_from (start n hist last) hist.

Lemma resend_partly cs ds es (s : st) r s' :
  sent (client.conn s) cs ds →
  Forall msg_wf ((λ e, Data (catchup.seq e) (catchup.payload e)) <$> es) →
  client.resend es s = Some (r, s') →
  ∃ ds', sent (client.conn s') cs (ds ++ ds') ∧ ds' `prefix_of` ((λ e, Data (catchup.seq e) (catchup.payload e)) <$> es).
Proof.
  revert ds s. induction es as [|e es IH]; intros ds s Hc Hwf; cbn [client.resend].
  - intros [= _ <-]. exists []. by rewrite app_nil_r.
  - cbn [fmap list_fmap] in *. apply Forall_cons in Hwf as [Hw Hwf].
    intros (r1 & s1 & (r0 & Hw1 & ->)%client.io_wrap_split & Hk)%io_bind_split. apply client.call_conn in Hw1 as (x & Hw1 & ->).
    destruct (WriteData_sent _ _ _ _ _ _ Hc Hw eq_refl Hw1) as [(e' & -> & Hc1)|[-> Hc1]]; cbn [wrap_err] in Hk.
    + destruct Hk as [_ ->]. exists []. rewrite app_nil_r. split; [done|apply prefix_nil].
    + eapply IH in Hk as (ds' & Hs' & Hp); [|exact Hc1|exact Hwf]. eexists (_ :: ds').
      rewrite <-app_assoc in Hs'. split; [exact Hs'|]. by apply prefix_cons.
Qed.

Lemma exchange_partly n hist cs (s : st) r s' :
  sender_ok n (client.cl_sendSeq (client.cl s)) (client.cl_buf (client.cl s)) hist →
  sent (client.conn s) cs [] → fresh (client.conn s) →
  client.handleSequenceExchange s = Some (r, s') →
  ∃ ds, sent (client.conn s') cs ds ∧ part_of_run n hist (client.conn s) ds.
Proof.
  intros Hs Hc Hf (r1 & s1 & (r0 & Hr & ->)%client.io_wrap_split & Hk)%io_bind_split.
  apply client.call_conn in Hr as (x & Hr & ->). pose proof (ReadControl_sent _ _ _ _ _ Hr Hc) as Hc1.
  assert (client.conn s' = x → ∃ ds, sent (client.conn s') cs ds ∧ part_of_run n hist (client.conn s) ds) as Hnone.
  { intros ->. exists []. split; [done|by left]. }
  destruct r0 as [msg|e|p]; cbn [wrap_err] in Hk; [|by destruct Hk as [_ ->]; apply Hnone..].
  destruct msg as [| |last| | | | |]; try (injection Hk as _ <-; by apply Hnone).
  rewrite client.get_bind in Hk. cbn in Hk.
  assert (is_uint 64 last) as Hu by (apply (ReadControl_wf _ _ _ Hf Hr)).
  destruct (sender_replay n _ _ hist last Hs) as (es & He & Hrun); [apply Hu|]. rewrite run_from_start in Hrun.
  rewrite He in Hk. change (io_bind (io_lift (Ok es)) ?k ?s0) with (k es s0) in Hk.
  eapply (resend_partly cs []) in Hk as (ds & Hds & Hp); [|exact Hc1|].
  - exists ds. split; [done|]. right. exists last, x. split; [done|]. split; [done|]. by rewrite <-Hrun.
  - rewrite Hrun. pose proof (start_range n hist last) as Hst. apply data_run_wf; [lia|].
    rewrite len_drop. assert (len hist < 2 ^ 64) by apply Hs. lia.
Qed.

Lemma set_up_retry n hist TERM raw size now cs (s s' : st) :
  sender_ok n (client.cl_sendSeq (client.cl s)) (client.cl_buf (client.cl s)) hist →
  sent (client.conn s) cs [] → fresh (client.conn s) →
  client.set_up TERM raw size now s = Some (Ok client.Retry, s') →
  ∃ cs' ds, sent (client.conn s') cs' ds ∧ part_of_run n hist (client.conn s) ds.
Proof.
  intros Hs Hc Hf. unfold client.set_up. rewrite client.modify_bind. set (s0 := client.set_cl _ s).
  intros Hk. apply io_try_split in Hk as (r1 & s1 & He & Hp1 & Hk); [|done].
  apply (exchange_partly n hist cs s0) in He as (ds & Hds & Hpart); [|exact Hs|exact Hc|exact Hf]. change (client.conn s0) with (client.conn s) in Hpart.
  assert (∀ cs1 (s2 : st), sent (client.conn s2) cs1 ds →
    (client.call (λ c, Some (Ok (), Close c)) ;; io_ret client.Retry) s2 = Some (Ok client.Retry, s') →
    ∃ cs' ds, sent (client.conn s') cs' ds ∧ part_of_run n hist (client.conn s) ds) as Hclose.
  { intros cs1 s2 Hs2 ([] & s3 & (x & [= <-] & ->)%client.call_conn & [= <-])%io_bind_inv.
    exists cs1, ds. split; [by apply Close_sent|done]. }
  destruct r1 as [[]|e|p]; [|by eapply Hclose|done].
  apply io_try_split in Hk as (r2 & s2 & Hw & Hp2 & Hk); [|done].
  apply client.call_conn in Hw as (x & Hw & ->).
  destruct (WriteControl_sent (TerminalInfo TERM) _ _ _ _ _ Hds I eq_refl Hw) as [(e & -> & Hsx)|[-> Hsx]].
  { exact (Hclose cs (client.St (client.cl s1) x (client.coal s1) (client.escapeBuf s1)) Hsx Hk). }
  exfalso. rewrite client.get_bind in Hk. destruct (if 0 <=? _ then raw else Ok ()) as [[]|e|p];
    [|by apply io_bind_inv in Hk as (? & ? & _ & ?)|done].
  apply io_bind_inv in Hk as (? & ? & _ & Hk). rewrite client.modify_bind in Hk.
  apply io_bind_inv in Hk as (? & ? & _ & Hk). by apply io_bind_inv in Hk as (? & ? & _ & Hk).
Qed.
End client_side.

(** ** A failed write to the PTY *)

Section lost.
Context {C : Type} `{ConnLaws C} {D : Type} `{ConnLaws D} {P : Type} `{PtyInput P}.
Variables (SHELL : string) (environ : list string).
#[local] Abbreviation Session := (session.Session (C := C) (P := P)).

(** The batch that fails and the one after it. *)
Lemma two_writes i q a b e stream (s : Session) (p p1 p2 : P) :
  session.s_conn s = Some i → session.s_ptmx s = Some p → session.s_recvSeq s = q →
  pty_Write a p = Some (Err e, p1) → pty_Write b p1 = Some (Ok (), p2) →
  let s1 := session.set_ptmx (Some p1) s in
  session.handleStreamEvent (session.StreamEvent i stream (Ok (Data (q + 1) a))) s = Some (Ok (), s1) ∧
  session.handleStreamEvent (session.StreamEvent i stream (Ok (Data (q + 2) b))) s1 =
    Some (Ok (), session.set_recvSeq (q + 2) (session.set_ptmx (Some p2) s1)).
Proof.
  intros Hi Hp Hq Ha Hb s1.
  unfold session.handleStreamEvent. rewrite !session.bind_get. simpl. rewrite Hi, bool_decide_eq_true_2 by done. cbn [negb].
  rewrite !session.bind_get. simpl. rewrite Hp. unfold io_bind, io_try, session.on_ptmx. rewrite Hp, Ha. simpl. by rewrite Hb.
Qed.

(** What a client resends lies above the number it was told. *)
Lemma resent_above n hist q m :
  0 <= q → m ∈ run_from (start n hist q) hist → ∃ sq pl, m = Data sq pl ∧ q < sq.
Proof.
  intros Hq (k & Hm)%list_elem_of_lookup. pose proof (start_range n hist q) as Hr.
  apply run_from_lookup in Hm as (pl & -> & Hl); [|lia].
  eexists _, _. split; [done|]. apply lookup_lt_Some in Hl. unfold start, len in *. lia.
Qed.

(** C33: A failed PTY write loses the client's input for good, although the
    comment says the client will resend it.  The session keeps the connection,
    the next batch moves [recvSeq] past the lost one, and when a connection is
    accepted after that, the number it is told (the only control message it can
    be told first) is the later one; a client whose exchange reads what it was
    told resends only batches with greater numbers, so not the lost one. *)
Theorem failed_pty_write_skipped cfg N out (s : Session) l i q a b e p p1 p2 stream :
  session.reach (C := C) (P := P) SHELL environ False cfg N out s l → N + 1 < 2 ^ 64 →
  session.s_conn s = Some i → session.s_ptmx s = Some p → session.s_recvSeq s = q → q + 2 < 2 ^ 64 →
  pty_Write a p = Some (Err e, p1) → pty_Write b p1 = Some (Ok (), p2) →
  ∃ s1 s2,
    session.handleStreamEvent (session.StreamEvent i stream (Ok (Data (q + 1) a))) s = Some (Ok (), s1) ∧
    session.s_conn s1 = Some i ∧ session.s_recvSeq s1 = q ∧
    session.handleStreamEvent (session.StreamEvent i stream (Ok (Data (q + 2) b))) s1 = Some (Ok (), s2) ∧
    session.s_conn s2 = Some i ∧ session.s_ptmx s2 = Some p2 ∧
    ∀ j x cs l now ctx l' s3,
      session.s_conns s2 !! j = None → session.accepted False s2 x → sent x cs [] →
      session.handle SHELL environ l now (session.EvAccept (Ok j) ctx)
        (session.set_conns (<[j := x]> (session.s_conns s2)) s2) = Some (Ok (inl l'), s3) →
      ∃ x' cs' ds', session.s_conns s3 !! j = Some x' ∧ sent x' cs' ds' ∧
        (session.s_conn s3 = Some j → cs' !! List.length cs = Some (SequenceHeader (q + 2))) ∧
        ∀ told, cs' !! List.length cs = Some told →
        ∀ n hist (c c' : client.st (C := D)) ccs y,
          sender_ok n (client.cl_sendSeq (client.cl c)) (client.cl_buf (client.cl c)) hist →
          sent (client.conn c) ccs [] → fresh (client.conn c) → ReadControl (client.conn c) = Some (Ok told, y) →
          client.handleSequenceExchange c = Some (Ok (), c') →
          ∃ resent, sent (client.conn c') ccs resent ∧ ∀ m, m ∈ resent → ∃ sq pl, m = Data sq pl ∧ q + 2 < sq.
Proof.
  intros Hreach HN Hi Hp Hq Hlt Ha Hb.
  destruct (two_writes i q a b e stream s p p1 p2 Hi Hp Hq Ha Hb) as [Hw1 Hw2].
  apply (session.reach_inv _ _ _ (session.ReplaySize cfg) []) in Hreach as [_ Hinv]; [|done|done|lia].
  assert (is_uint 64 q) as Huq by (destruct Hinv as (h & _ & Hbase & _); rewrite <-Hq; apply Hbase).
  assert (is_uint 64 (q + 2)) as Hu by (unfold is_uint in *; lia).
  eexists _, _. split; [exact Hw1|]. split; [exact Hi|]. split; [exact Hq|]. split; [exact Hw2|]. split; [exact Hi|]. split; [done|].
  set (s2 := session.set_recvSeq _ _). intros j x cs l1 now ctx l' s3 Hj Hacc Hs Hh.
  assert (session.inv False (session.ReplaySize cfg) [] N out s2) as Hinv2
    by by apply session.inv_recv, session.inv_ptmx, session.inv_ptmx.
  pose proof (session.inv_accept False _ [] N out s2 j x Hinv2 Hj Hacc) as (h & _ & Hbase & _ & _ & HlN & _).
  assert (session.s_conn s2 ≠ Some j) as Hnj.
  { intros Hc. destruct Hinv2 as (h2 & _ & Hb2 & _). apply (session.b_ptr _ _ _ _ _ Hb2) in Hc. rewrite Hj in Hc. by destruct Hc. }
  eapply handle_accepted in Hh; [|exact Hbase|lia|done|done].
  destruct (a_new _ _ _ _ Hh) as (x' & cs' & ds' & Hx' & Hs' & Hhdr). exists x', cs', ds'.
  split; [done|]. split; [done|]. split.
  { intros Hc. destruct Hhdr as [Hhdr|[_ Hn]]; [exact Hhdr|congruence]. }
  intros told Ht. assert (told = SequenceHeader (q + 2)) as ->.
  { destruct Hhdr as [Hhdr|[Hn _]]; [rewrite Ht in Hhdr; by injection Hhdr|congruence]. }
  intros n hist c c' ccs y Hso Hc Hf Hr Hx.
  eapply client.handleSequenceExchange_sent in Hx as (_ & _ & last & y' & Hr' & _ & Hsent); [|done..].
  rewrite Hr in Hr'. injection Hr' as <- _. eexists. split; [exact Hsent|].
  intros m Hm. apply resent_above in Hm; [done|]. unfold is_uint in Hu. lia.
Qed.
End lost.

(** A client connects to a session whose PTY fails its first write. *)
Definition ex_pty (fails : bool) (written : bytes) : flakyPty :=
  FlakyPty (MemPty (MkWinsize 23 80 0 0) (Writer written None None) false) fails.

Lemma ex_flaky :
  ∃ (s : session.Session (C := quicConn) (P := flakyPty)) l,
    session.reach "" [] False session.ex_cfg 1 [] s l ∧ session.s_conn s = Some 0%nat ∧
    session.s_ptmx s = Some (ex_pty true []) ∧ session.s_recvSeq s = 0.
Proof.
  do 2 eexists. split.
  - change 1 with (0 + 1). eapply (session.reach_accept _ _ _ _ _ _ _ _ Millisecond 0%nat (session.ex_conn 0) None);
      [by apply (session.reach_new _ _ _ _ 0)|done| |vm_compute; reflexivity].
    split; [|split; [done|done]]. exists []. by apply quic_sent_frames.
  - by vm_compute.
Qed.

Lemma failed_pty_write_skipped_witness :
  ∃ s s1 s2 : session.Session (C := quicConn) (P := flakyPty),
    session.s_conn s = Some 0%nat ∧ session.s_ptmx s = Some (ex_pty true []) ∧
    session.handleStreamEvent (session.StreamEvent 0 "data" (Ok (Data (0 + 1) [x61]))) s = Some (Ok (), s1) ∧
    session.s_conn s1 = Some 0%nat ∧ session.s_recvSeq s1 = 0 ∧
    session.handleStreamEvent (session.StreamEvent 0 "data" (Ok (Data (0 + 2) [x62]))) s1 = Some (Ok (), s2) ∧
    session.s_conn s2 = Some 0%nat ∧ session.s_ptmx s2 = Some (ex_pty false [x62]) ∧
    ∀ j x cs l now ctx l' s3,
      session.s_conns s2 !! j = None → session.accepted False s2 x → sent x cs [] →
      session.handle "" [] l now (session.EvAccept (Ok j) ctx)
        (session.set_conns (<[j := x]> (session.s_conns s2)) s2) = Some (Ok (inl l'), s3) →
      ∃ x' cs' ds', session.s_conns s3 !! j = Some x' ∧ sent x' cs' ds' ∧
        (session.s_conn s3 = Some j → cs' !! List.length cs = Some (SequenceHeader (0 + 2))) ∧
        ∀ told, cs' !! List.length cs = Some told →
        ∀ n hist (c c' : client.st (C := quicConn)) ccs y,
          sender_ok n (client.cl_sendSeq (client.cl c)) (client.cl_buf (client.cl c)) hist →
          sent (client.conn c) ccs [] → fresh (client.conn c) → ReadControl (client.conn c) = Some (Ok told, y) →
          client.handleSequenceExchange c = Some (Ok (), c') →
          ∃ resent, sent (client.conn c') ccs resent ∧ ∀ m, m ∈ resent → ∃ sq pl, m = Data sq pl ∧ 0 + 2 < sq.
Proof.
  destruct ex_flaky as (s & l & Hr & Hi & Hp & Hq). exists s.
  destruct (failed_pty_write_skipped (D := quicConn) "" [] session.ex_cfg 1 [] s l 0%nat 0 [x61] [x62]
    (ErrNew "input/output error") (ex_pty true []) (ex_pty false []) (ex_pty false [x62]) "data" Hr)
    as (s1 & s2 & Hrest); [done..|]. by exists s1, s2.
Defined.
End typing.
