(* ===== verification/Duplex.v ===== *)
(** * Both directions of the system

    [System] lets the session receive anything; here the input side is joined
    up too: what the session's loop reads from a connection is what the
    client wrote to it, in order, any part of it, and what the client reads
    first is the session's sequence header.  What the theorems show: the
    shell's terminal is given the typed input in order, no batch twice, and
    no batch is missing but those the client's catchup buffer had evicted when
    the session came back.  A write to the PTY that fails is left to
    [Input].  Every run of this relation is one of [System], so its theorems
    on the output hold of the same runs. *)

From stdpp Require Import sorting.
From S2P Require Import Prelude GoIO Protocol Catchup Coalesce Escape Transport Sender Delivery Pty Session Client Input System.
Open Scope go_scope.

Module duplex.
Import delivery typing.

(** ** The system with both directions *)

(** What joins the two ends of a connection the session accepted: how many
    control messages had been written to it by the listener, the session's
    position when it was accepted, how many batches the client had stored
    when it connected (nothing until then), the data messages the client has
    written, and how many of them the session's loop has read. *)
Record link : Type := Link {
  l_skip : nat;
  l_hdr : Z;
  l_start : option nat;
  l_sent : list message;
  l_read : nat;
}.

Definition set_sent (ds : list message) (lk : link) : link :=
  Link (l_skip lk) (l_hdr lk) (l_start lk) ds (l_read lk).
Definition set_start (k : nat) (lk : link) : link :=
  Link (l_skip lk) (l_hdr lk) (Some k) (l_sent lk) (l_read lk).
Definition read_one (lk : link) : link :=
  Link (l_skip lk) (l_hdr lk) (l_start lk) (l_sent lk) (S (l_read lk)).

Section duplex.
Context {C : Type} `{ConnLaws C} {D : Type} `{ConnLaws D} {P : Type} `{PtyInput P}.
Variables (SHELL : string) (environ : list string) (scfg : session.Config) (ccfg : client.Config) (fd : Z).
#[local] Abbreviation Session := (session.Session (C := C) (P := P)).
#[local] Abbreviation st := (client.st (C := D)).
#[local] Abbreviation sys := (system.sys (C := C) (D := D) (P := P)).
#[local] Abbreviation Sys := system.Sys.

(** The system, its connections, and the terminal input the client has read:
    in the loops that ended in [exitNetwork], and in the current one. *)
Record duplex : Type := Duplex {
  d_sys : sys;
  d_links : gmap nat link;
  d_segs : list bytes;
  d_cur : bytes;
}.

(** The first control message the client reads is the first one the session
    wrote to its end [x]. *)
Definition greets (x : C) (lk : link) (d : D) : Prop :=
  ∀ m d', ReadControl d = Some (Ok m, d') → ∃ cs ds, sent x cs ds ∧ cs !! l_skip lk = Some m.

(** The PTY takes what the session's loop writes to it. *)
Definition takes (s : Session) (j : nat) (msg : message) : Prop :=
  ∀ p q b, session.s_conn s = Some j → session.s_ptmx s = Some p → msg = Data q b →
    ∃ p', pty_Write b p = Some (Ok (), p').

(** [reach N M y]: [y] is reached after [N] iterations of the session's loop
    and [M] of the client's. *)
Inductive reach : Z → Z → duplex → Prop :=
| dx_start now s c room err i k :
  session.New scfg now = Some s → client.cl c = client.New ccfg (Writer [] room err) fd →
  reach 0 0 (Duplex (Sys [] s (session.Locals false false now) c None i k) ∅ [] [])
| dx_session N M out s l c p i k L segs cur now e l' s' :
  reach N M (Duplex (Sys out s l c p i k) L segs cur) →
  session.enabled l s now e → session.is_accept e = false → is_input e = false →
  session.handle SHELL environ l now e s = Some (Ok (inl l'), s') →
  reach (N + 1) M (Duplex (Sys (out ++ session.pty_bytes e) s' l' c p i k) L segs cur)
(** The next data message of connection [j]. *)
| dx_input N M out s l c p i k L segs cur now j lk msg l' s' :
  reach N M (Duplex (Sys out s l c p i k) L segs cur) →
  L !! j = Some lk → l_sent lk !! l_read lk = Some msg → takes s j msg → msg_wf msg →
  session.handle SHELL environ l now (session.EvStream (session.StreamEvent j "data" (Ok msg))) s = Some (Ok (inl l'), s') →
  reach (N + 1) M (Duplex (Sys out s' l' c p i k) (<[j := read_one lk]> L) segs cur)
| dx_accept N M out s l c p i k L segs cur now j x cs ctx l' s' :
  reach N M (Duplex (Sys out s l c p i k) L segs cur) → session.s_conns s !! j = None →
  sent x cs [] → is_uint 64 (LastClientSeq x) → LastClientSeq x <= system.recvSeq c →
  session.handle SHELL environ l now (session.EvAccept (Ok j) ctx)
    (session.set_conns (<[j := x]> (session.s_conns s)) s) = Some (Ok (inl l'), s') →
  reach (N + 1) M (Duplex (Sys out s' l' c p i k)
    (<[j := Link (List.length cs) (session.s_recvSeq s) None [] 0]> L) segs cur)
| dx_session_goroutine N M out s l c p i k L segs cur j x x' :
  reach N M (Duplex (Sys out s l c p i k) L segs cur) → session.s_conns s !! j = Some x → goroutine_step x x' →
  reach N M (Duplex (Sys out (session.set_conns (<[j := x']> (session.s_conns s)) s) l c p i k) L segs cur)
(** The client takes up connection [j]. *)
| dx_connect N M out s l c i k L segs cur j x lk d cs0 TERM raw size now c' cs ds :
  reach N M (Duplex (Sys out s l c None i k) L segs cur) →
  session.s_conns s !! j = Some x → LastClientSeq x = system.recvSeq c →
  L !! j = Some lk → l_start lk = None → fresh d → sent d cs0 [] → greets x lk d →
  client.set_up TERM raw size now (client.St (client.cl c) d (client.coal c) (client.escapeBuf c)) =
    Some (Ok client.Enter, c') →
  sent (client.conn c') cs ds →
  reach N M (Duplex (Sys out s l c' (Some now) j 0)
    (<[j := set_sent ds (set_start (Z.to_nat (client.cl_sendSeq (client.cl c))) lk)]> L) segs cur)
(** It gives one up while setting it up. *)
| dx_connect_broken N M out s l c i k L segs cur j x lk d cs0 TERM raw size now c' cs ds :
  reach N M (Duplex (Sys out s l c None i k) L segs cur) →
  session.s_conns s !! j = Some x →
  L !! j = Some lk → l_start lk = None → fresh d → sent d cs0 [] → greets x lk d →
  client.set_up TERM raw size now (client.St (client.cl c) d (client.coal c) (client.escapeBuf c)) =
    Some (Ok client.Retry, c') →
  sent (client.conn c') cs ds →
  reach N M (Duplex (Sys out s l c' None i k)
    (<[j := set_sent ds (set_start (Z.to_nat (client.cl_sendSeq (client.cl c))) lk)]> L) segs cur)
(** One the session never accepted. *)
| dx_connect_failed N M out s l c i k L segs cur d TERM raw size now c' :
  reach N M (Duplex (Sys out s l c None i k) L segs cur) →
  client.set_up TERM raw size now (client.St (client.cl c) d (client.coal c) (client.escapeBuf c)) =
    Some (Ok client.Retry, c') →
  reach N M (Duplex (Sys out s l c' None i k) L segs cur)
| dx_receive N M out s l c lr i k L segs cur x cs ds msg now ctl lr' c' cs' ds' :
  reach N M (Duplex (Sys out s l c (Some lr) i k) L segs cur) →
  session.s_conns s !! i = Some x → sent x cs ds → ds !! k = Some msg →
  client.ioLoop lr now (client.EvData (Ok msg) ctl) c = Some (Ok (inl lr'), c') →
  sent (client.conn c') cs' ds' →
  reach N (M + 1) (Duplex (Sys out s l c' (Some lr') i (S k)) (alter (set_sent ds') i L) segs cur)
| dx_client N M out s l c lr i k L segs cur now e lr' c' cs' ds' :
  reach N M (Duplex (Sys out s l c (Some lr) i k) L segs cur) →
  (∀ msg ctl, e ≠ client.EvData (Ok msg) ctl) → len (client.stdin_bytes e) <= client.stdinBufSize →
  client.ioLoop lr now e c = Some (Ok (inl lr'), c') →
  sent (client.conn c') cs' ds' →
  reach N (M + 1) (Duplex (Sys out s l c' (Some lr') i k) (alter (set_sent ds') i L) segs (cur ++ client.stdin_bytes e))
| dx_lost N M out s l c lr i k L segs cur now e c' ctx c'' cs' ds' :
  reach N M (Duplex (Sys out s l c (Some lr) i k) L segs cur) → len (client.stdin_bytes e) <= client.stdinBufSize →
  client.ioLoop lr now e c = Some (Ok (inr client.exitNetwork), c') →
  client.after_loop client.exitNetwork ctx c' = Some (Ok client.Retry, c'') →
  sent (client.conn c'') cs' ds' →
  reach N (M + 1) (Duplex (Sys out s l c'' None i k) (alter (set_sent ds') i L) (segs ++ [cur ++ client.stdin_bytes e]) [])
| dx_client_goroutine N M out s l c p i k L segs cur d :
  reach N M (Duplex (Sys out s l c p i k) L segs cur) → goroutine_step (client.conn c) d →
  reach N M (Duplex (Sys out s l (client.St (client.cl c) d (client.coal c) (client.escapeBuf c)) p i k) L segs cur).

(** Every run is one of [System]. *)
Lemma reach_system N M y : reach N M y → system.reach SHELL environ scfg ccfg fd N (d_sys y).
Proof.
  induction 1; simpl in *.
  - by eapply system.sys_start.
  - by eapply system.sys_session.
  - rewrite <-(app_nil_r out).
    eapply (system.sys_session SHELL environ scfg ccfg fd N out s l c p i k now (session.EvStream (session.StreamEvent j "data" (Ok msg))));
      [exact IHreach|done|done|done].
  - by eapply system.sys_accept.
  - by eapply system.sys_session_goroutine.
  - by eapply system.sys_connect.
  - by eapply system.sys_connect_failed.
  - by eapply system.sys_connect_failed.
  - by eapply system.sys_receive.
  - by eapply system.sys_client.
  - by eapply system.sys_lost.
  - by eapply system.sys_client_goroutine.
  Unshelve. all: exact None.
Qed.

(** ** The invariant *)

#[local] Abbreviation nc := (client.cfg_ReplaySize ccfg).

(** What the client's connections have told it, and what is on them. *)
Definition greeted (s : Session) (j : nat) (lk : link) : Prop :=
  ∃ x cs ds, session.s_conns s !! j = Some x ∧ sent x cs ds ∧
    (cs !! l_skip lk = Some (SequenceHeader (l_hdr lk)) ∨ (cs !! l_skip lk = None ∧ session.s_conn s ≠ Some j)).

(** The run that is written to a connection. *)
Definition run_on (hist : list bytes) (lk : link) (kk : nat) : list message :=
  run_from (start nc (take kk hist) (l_hdr lk)) hist.

Definition carried (hist : list bytes) (lk : link) : Prop :=
  match l_start lk with
  | None => l_sent lk = [] ∧ l_read lk = 0%nat
  | Some kk => (kk ≤ List.length hist)%nat ∧ l_hdr lk <= Z.of_nat kk ∧ l_sent lk `prefix_of` run_on hist lk kk
  end.

Definition link_ok (hist : list bytes) (s : Session) (j : nat) (lk : link) : Prop :=
  greeted s j lk ∧ 0 <= l_hdr lk <= len hist ∧ carried hist lk ∧
  (session.s_conn s = Some j → position (l_hdr lk) (l_sent lk) (l_read lk) (session.s_recvSeq s)).

Definition links_ok (hist : list bytes) (s : Session) (L : gmap nat link) : Prop :=
  ∀ j lk, L !! j = Some lk → link_ok hist s j lk.

(** The client in its loop on connection [i]. *)
Definition on_link (hist : list bytes) (outs : list bytes) (cur : bytes) (c : st) (L : gmap nat link) (i : nat) : Prop :=
  ∃ lk kk, L !! i = Some lk ∧ l_start lk = Some kk ∧ (kk ≤ List.length hist)%nat ∧ l_sent lk = run_on hist lk kk ∧
    client.looping nc (start nc (take kk hist) (l_hdr lk)) hist (List.concat outs) cur c ∧
    len (coalesce.buf (client.coal c)) < coalesce.Threshold.

(** The receiving end. *)
Record receiving (hist : list bytes) (got : list nat) (s : Session) (L : gmap nat link) : Prop := {
  r_displayed : displayed nc hist got (session.s_recvSeq s) (input s);
  r_ptmx : session.s_conn s ≠ None → is_Some (session.s_ptmx s);
  r_links : links_ok hist s L;
}.

Definition sending (hist : list bytes) (outs : list bytes) (y : duplex) : Prop :=
  match system.y_loop (d_sys y) with
  | None => client.stored nc hist (system.y_client (d_sys y)) ∧ d_cur y = [] ∧ List.concat hist = List.concat outs
  | Some _ => on_link hist outs (d_cur y) (system.y_client (d_sys y)) (d_links y) (system.y_link (d_sys y))
  end.

Definition inv (M : Z) (y : duplex) : Prop :=
  ∃ hist outs got, len hist <= M ∧
    Forall2 (λ seg out, out `prefix_of` escape.unescape true seg) (d_segs y) outs ∧
    receiving hist got (system.y_session (d_sys y)) (d_links y) ∧ sending hist outs y.

Lemma run_on_prefix hist hist' lk kk :
  (kk ≤ List.length hist)%nat → hist `prefix_of` hist' → run_on hist lk kk `prefix_of` run_on hist' lk kk.
Proof.
  intros Hk Hp. unfold run_on. assert (take kk hist' = take kk hist) as ->.
  { destruct Hp as [l ->]. by rewrite take_app_le. }
  apply run_from_prefix; [|done]. pose proof (start_range nc (take kk hist) (l_hdr lk)) as Hr.
  rewrite len_take in Hr. unfold len in *. lia.
Qed.

Lemma carried_prefix hist hist' lk : hist `prefix_of` hist' → carried hist lk → carried hist' lk.
Proof.
  intros Hp. unfold carried. destruct (l_start lk) as [kk|]; [|done]. intros (Hk & Hh & Hpre).
  pose proof (prefix_length _ _ Hp). split; [lia|]. split; [done|]. etrans; [done|]. by apply run_on_prefix.
Qed.

(** The session moves on: what was written to connections stays, and those
    that are not current are left alone. *)
Lemma greeted_moved s s' j lk :
  session.grow s s' →
  (session.s_conn s ≠ Some j → session.s_conns s' !! j = session.s_conns s !! j ∧ session.s_conn s' ≠ Some j) →
  greeted s j lk → greeted s' j lk.
Proof.
  intros Hg Hn (x & cs & ds & Hx & Hs & [Hh|[Hh Hj]]).
  - destruct (Hg j x Hx) as (x' & Hx' & _ & He). destruct (He _ _ Hs) as (cs' & ds' & Hs').
    eexists x', _, _. split; [done|]. split; [done|]. left. by apply lookup_app_l_Some.
  - destruct (Hn Hj) as [Hc Hj']. exists x, cs, ds. split; [congruence|]. split; [done|]. by right.
Qed.

Lemma link_moved hist hist' s s' j lk :
  hist `prefix_of` hist' → session.grow s s' →
  (session.s_conn s ≠ Some j → session.s_conns s' !! j = session.s_conns s !! j ∧ session.s_conn s' ≠ Some j) →
  session.s_recvSeq s' = session.s_recvSeq s → link_ok hist s j lk → link_ok hist' s' j lk.
Proof.
  intros Hp Hg Hn Hq (Hgr & Hh & Hc & Hpos). split; [by eapply greeted_moved|].
  split; [apply prefix_length in Hp; unfold len in *; lia|]. split; [by eapply carried_prefix|].
  intros Hj. rewrite Hq. apply Hpos. destruct (decide (session.s_conn s = Some j)); [done|]. by destruct Hn.
Qed.

Lemma link_hist hist hist' s j lk : hist `prefix_of` hist' → link_ok hist s j lk → link_ok hist' s j lk.
Proof. intros Hp. apply link_moved; [done|apply session.grow_conns| |]; done. Qed.

Lemma receiving_idle hist got s s' L :
  idle s s' → session.grow s s' → receiving hist got s L → receiving hist got s' L.
Proof.
  intros (Hcs & Hc & Hq & Hi & Hp) Hg [Hd Hpt Hl]. split.
  - by rewrite Hq, Hi.
  - intros Hn. apply Hp, Hpt. by destruct Hc as [<-| ?].
  - intros j lk Hj. eapply link_moved; [done|done| |done|by apply Hl]. intros Hn. split; [by apply Hcs|].
    by destruct Hc as [-> | ->].
Qed.

Lemma receiving_hist hist hist' got s L : hist `prefix_of` hist' → receiving hist got s L → receiving hist' got s L.
Proof.
  intros Hp [Hd Hpt Hl]. split; [by eapply displayed_extend|done|]. intros j lk Hj. eapply link_hist; [done|]. by apply Hl.
Qed.

(** A connection's goroutine. *)
Lemma receiving_goroutine hist got s L j x x' :
  session.s_conns s !! j = Some x → goroutine_step x x' → receiving hist got s L →
  receiving hist got (session.set_conns (<[j := x']> (session.s_conns s)) s) L.
Proof.
  intros Hx Hgo [Hd Hpt Hl]. destruct (goroutine_frame _ _ Hgo) as [_ Hs]. split; [done|done|].
  intros i lk Hi. destruct (Hl i lk Hi) as ((y & cs & ds & Hy & Hsy & Hh) & Hrest). split; [|done].
  destruct (decide (i = j)) as [->|Hne].
  - assert (y = x) as -> by congruence. exists x', cs, ds. split; [simpl; by rewrite lookup_insert_eq|]. by auto.
  - exists y, cs, ds. split; [simpl; by rewrite lookup_insert_ne|]. by auto.
Qed.

Lemma receiving_insert hist got s L i lk :
  receiving hist got s L → link_ok hist s i lk → receiving hist got s (<[i := lk]> L).
Proof.
  intros [Hd Hpt Hl] Hk. split; [done|done|]. intros j lk' [[<- <-]|[_ Hj]]%lookup_insert_Some; [done|by apply Hl].
Qed.

(** The next message of a connection. *)
Lemma receiving_input hist got s L l now j st0 lk msg r s' :
  receiving hist got s L → L !! j = Some lk → l_sent lk !! l_read lk = Some msg → takes s j msg →
  session.handle SHELL environ l now (session.EvStream (session.StreamEvent j st0 (Ok msg))) s = Some (r, s') →
  ∃ got', receiving hist got' s' (<[j := read_one lk]> L).
Proof.
  intros Hrc Hj Hm Ht Hh. pose proof Hrc as [Hd Hpt Hl]. destruct (Hl j lk Hj) as (Hgr & Hhd & Hcd & Hpos).
  assert (∃ kk, l_start lk = Some kk) as [kk Hk].
  { unfold carried in Hcd. destruct (l_start lk); [by eexists|]. destruct Hcd as [Hnil _]. by rewrite Hnil in Hm. }
  unfold carried in Hcd. rewrite Hk in Hcd. destruct Hcd as (Hkk & Hhk & Hpre).
  assert (∃ q b, msg = Data q b) as (q & b & ->).
  { pose proof (prefix_lookup_Some _ _ _ _ Hm Hpre) as Hr. apply run_from_lookup in Hr as (b & -> & _); [|apply start_range].
    by eexists _, b. }
  assert (carried hist (read_one lk)) as Hcd' by (unfold carried; simpl; by rewrite Hk).
  destruct (decide (session.s_conn s = Some j)) as [Hc|Hc].
  - destruct (Hpt ltac:(congruence)) as [p Hp]. destruct (Ht p q b Hc Hp eq_refl) as [p' Hw].
    pose proof (handle_input_current SHELL environ l now j st0 q b s r s' p p' Hh Hc Hp Hw) as ->.
    destruct (position_next nc hist got kk (l_hdr lk) (l_sent lk) (l_read lk) (session.s_recvSeq s) (input s) (Data q b))
      as (q' & b' & got' & [= <- <-] & Hd' & Hpos'); [done|done|done|exact Hpre|by apply Hpos|done|].
    exists got'. split.
    + unfold input in *. simpl. rewrite Hp in Hd'. by rewrite (Write_input _ _ _ Hw).
    + intros _. simpl. by exists p'.
    + intros i lk' [[<- <-]|[Hne Hi]]%lookup_insert_Some;
        [split; [exact Hgr|]; split; [done|]; split; [exact Hcd'|]; intros _; exact Hpos'|].
      destruct (Hl i lk' Hi) as (Hgr' & Hh' & Hcd2 & _). split; [exact Hgr'|]. split; [done|]. split; [done|].
      simpl. congruence.
  - apply (handle_input SHELL environ) in Hh as ->; [|done]. exists got. apply receiving_insert; [done|].
    split; [exact Hgr|]. split; [done|]. split; [exact Hcd'|]. intros Hj'. by destruct Hc.
Qed.

Lemma receiving_accepted hist got s L j skip s' :
  receiving hist got s L → session.s_conns s !! j = None → session.grow s s' → accepted s j skip s' →
  receiving hist got s' (<[j := Link skip (session.s_recvSeq s) None [] 0]> L).
Proof.
  intros [Hd Hpt Hl] Hj Hg [Hq Hi Hp Hc Ho Hn]. split.
  - by rewrite Hq, Hi.
  - done.
  - intros i lk [[<- <-]|[Hne Hk]]%lookup_insert_Some.
    + split; [|split; [|split; [done|]]]; simpl; [|destruct Hd as (Hr & _); lia|by rewrite Hq].
      destruct Hn as (x & cs & ds & Hx & Hs & Hh). exists x, cs, ds. split; [done|]. split; [done|].
      destruct Hh as [Hh|[Hh Hnone]]; [by left|right]. split; [done|]. by rewrite Hnone.
    + eapply link_moved; [done|done| |done|by apply Hl]. intros Hcn. split; [by apply Ho|].
      destruct Hc as [-> | ->]; congruence.
Qed.

(** More is written to a connection. *)
Lemma link_sent hist s i lk kk ds :
  link_ok hist s i lk → l_start lk = Some kk → l_sent lk `prefix_of` ds → ds `prefix_of` run_on hist lk kk →
  link_ok hist s i (set_sent ds lk).
Proof.
  intros (Hgr & Hh & Hc & Hpos) Hk [ds' ->] Hpre. unfold carried in Hc. rewrite Hk in Hc. destruct Hc as (Hkk & Hhk & _).
  split; [exact Hgr|]. split; [done|]. split; [unfold carried; simpl; by rewrite Hk|].
  intros Hj. apply position_app. by apply Hpos.
Qed.

(** The client takes it up. *)
Lemma link_start hist s i lk ds :
  link_ok hist s i lk → l_start lk = None → ds `prefix_of` run_on hist lk (List.length hist) →
  link_ok hist s i (set_sent ds (set_start (List.length hist) lk)).
Proof.
  intros (Hgr & Hh & Hc & Hpos) Hk Hpre. unfold carried in Hc. rewrite Hk in Hc. destruct Hc as [Hnil Hz].
  split; [exact Hgr|]. split; [done|]. split; [unfold carried; simpl; unfold len in Hh; by split_and!; [|lia|]|].
  simpl. rewrite Hnil, Hz in Hpos. by rewrite Hz.
Qed.

Lemma greets_hdr hist s j x lk d last d' :
  link_ok hist s j lk → session.s_conns s !! j = Some x → greets x lk d →
  ReadControl d = Some (Ok (SequenceHeader last), d') → last = l_hdr lk.
Proof.
  intros ((y & cs & ds & Hy & Hs & Hh) & _) Hx Hg Hr. assert (y = x) as -> by congruence.
  destruct (Hg _ _ Hr) as (cs' & ds' & Hs' & Hm). destruct (sent_det _ _ _ _ _ Hs Hs') as [-> _].
  destruct Hh as [Hh|[Hh _]]; congruence.
Qed.

Lemma alter_known (f : link → link) i (L : gmap nat link) lk : L !! i = Some lk → alter f i L = <[i := f lk]> L.
Proof.
  intros Hi. apply map_eq. intros j. destruct (decide (j = i)) as [->|Hne].
  - by rewrite lookup_alter_eq, lookup_insert_eq, Hi.
  - by rewrite lookup_alter_ne, lookup_insert_ne by done.
Qed.

(** An iteration of the client's loop. *)
Lemma on_link_step hist outs cur c L i lr now e r c' cs' ds' :
  on_link hist outs cur c L i → len hist + 1 < 2 ^ 64 → len (client.stdin_bytes e) <= client.stdinBufSize →
  client.ioLoop lr now e c = Some (Ok r, c') →
  sent (client.conn c') cs' ds' →
  ∃ hist' lk kk, grown hist hist' ∧ L !! i = Some lk ∧ l_start lk = Some kk ∧ (kk ≤ List.length hist)%nat ∧
    l_sent lk `prefix_of` ds' ∧ ds' `prefix_of` run_on hist' lk kk ∧
    match r with
    | inl _ => on_link hist' outs (cur ++ client.stdin_bytes e) c' (alter (set_sent ds') i L) i
    | inr _ => client.left_loop nc (start nc (take kk hist') (l_hdr lk)) hist' (List.concat outs) (cur ++ client.stdin_bytes e) c'
    end.
Proof.
  intros (lk & kk & Hi & Hk & Hkk & Hsent & Hloop & Hsm) Hlen Hd Hio Hs'.
  pose proof (ioLoop_writes _ _ _ _ _ _ Hio) as [_ Hw]. destruct Hloop as [[Hst (cs & Hs)] Hrest].
  destruct (Hw _ _ Hs) as (cs1 & ds1 & Hs1). destruct (sent_det _ _ _ _ _ Hs1 Hs') as [<- <-].
  pose proof (client.ioLoop_stepped nc (start nc (take kk hist) (l_hdr lk)) hist (List.concat outs) cur lr now e c r c') as Hstep.
  destruct Hstep as (hist' & Hgr & Hstep); [split; [split; [done|by exists cs]|done]|done..|].
  assert (take kk hist' = take kk hist) as Htk.
  { destruct (grown_prefix _ _ Hgr) as [l ->]. by rewrite take_app_le. }
  exists hist', lk, kk. split; [done|]. split; [done|]. split; [done|]. split; [done|].
  unfold run_on in *. rewrite Htk, <-Hsent in *. split; [by eexists|]. destruct r as [l'|e'].
  - destruct Hstep as [Hl' Hsm']. pose proof Hl' as [[_ (cs2 & Hs2)] _]. destruct (sent_det _ _ _ _ _ Hs2 Hs1) as [_ <-].
    split; [done|]. exists (set_sent (run_from (start nc (take kk hist) (l_hdr lk)) hist') lk), kk.
    rewrite lookup_alter_eq, Hi. unfold run_on. simpl. rewrite Htk. split; [done|]. split; [done|].
    split; [apply grown_prefix, prefix_length in Hgr; lia|]. done.
  - pose proof Hstep as (_ & (cs2 & ds2 & Hs2 & Hp2) & _). destruct (sent_det _ _ _ _ _ Hs2 Hs1) as [_ ->]. done.
Qed.

(** What the first exchange on connection [j] is told. *)
Lemma part_of_run_on hist got s L j x lk d ds :
  receiving hist got s L → L !! j = Some lk → session.s_conns s !! j = Some x → greets x lk d →
  part_of_run nc hist d ds → ds `prefix_of` run_on hist lk (List.length hist).
Proof.
  intros [_ _ Hl] Hj Hx Hg [->|(last & y & Hr & _ & Hp)]; [apply prefix_nil|].
  unfold run_on. rewrite take_ge by done. by rewrite <-(greets_hdr _ _ _ _ _ _ _ _ (Hl j lk Hj) Hx Hg Hr).
Qed.

Lemma stored_count hist (c : st) :
  client.stored nc hist c → Z.to_nat (client.cl_sendSeq (client.cl c)) = List.length hist.
Proof. intros (-> & _). unfold len. lia. Qed.

Lemma inv_start s c room err i k l now :
  session.New scfg now = Some s → client.cl c = client.New ccfg (Writer [] room err) fd →
  inv 0 (Duplex (Sys [] s l c None i k) ∅ [] []).
Proof.
  intros Hs Hc. exists [], [], []. split; [done|]. split; [constructor|]. split.
  - unfold session.New in Hs. destruct (coalesce.New now); [|done]. injection Hs as <-.
    split; [|done|by intros j lk]. unfold displayed. simpl. split; [split; [done|apply len_nonneg]|].
    split; [done|]. split; [constructor|]. split; [constructor|]. lia.
  - split; [|done]. unfold client.stored. simpl. rewrite Hc. simpl. apply sender_new.
Qed.

(** The client takes up a connection. *)
Lemma inv_connect M out s l c i k L segs cur j x lk d cs0 TERM raw size now c' cs ds :
  inv M (Duplex (Sys out s l c None i k) L segs cur) →
  session.s_conns s !! j = Some x → L !! j = Some lk → l_start lk = None → fresh d → sent d cs0 [] → greets x lk d →
  client.set_up TERM raw size now (client.St (client.cl c) d (client.coal c) (client.escapeBuf c)) =
    Some (Ok client.Enter, c') →
  sent (client.conn c') cs ds →
  inv M (Duplex (Sys out s l c' (Some now) j 0)
    (<[j := set_sent ds (set_start (Z.to_nat (client.cl_sendSeq (client.cl c))) lk)]> L) segs cur).
Proof.
  intros (hist & outs & got & Hl & Hsegs & Hrc & Hst & Hcur & Hcat) Hx Hj Hk Hf Hd0 Hg Hup Hs.
  simpl in *. rewrite (stored_count _ _ Hst).
  eapply (client.set_up_spec nc hist) in Hup as ((last & y & Hr & Hu & [Hst' (cs1 & Hs1)]) & Hnil & Hbuf & started & Hcl);
    [|split; [exact Hst|by exists cs0]|done].
  destruct (sent_det _ _ _ _ _ Hs Hs1) as [<- ->]. simpl in Hr.
  assert (run_from (start nc hist last) hist = run_on hist lk (List.length hist)) as Hrun.
  { unfold run_on. rewrite take_ge by done. destruct Hrc as [_ _ Hlk].
    by rewrite <-(greets_hdr _ _ _ _ _ _ _ _ (Hlk j lk Hj) Hx Hg Hr). }
  exists hist, outs, got. split; [done|]. split; [done|]. split.
  - apply receiving_insert; [done|]. apply link_start; [by apply Hrc|done|]. by rewrite Hrun.
  - unfold sending, on_link. simpl. exists (set_sent (run_from (start nc hist last) hist) (set_start (List.length hist) lk)), (List.length hist).
    rewrite lookup_insert_eq. split; [done|]. split; [done|]. split; [done|]. split; [done|].
    rewrite Hnil. split; [|done]. simpl. replace (start nc (take (List.length hist) hist) (l_hdr lk)) with (start nc hist last).
    2:{ rewrite take_ge by done. destruct Hrc as [_ _ Hlk].
        by rewrite <-(greets_hdr _ _ _ _ _ _ _ _ (Hlk j lk Hj) Hx Hg Hr). }
    split; [split; [done|by exists cs]|]. split; [apply start_range|]. split; [done|]. exists []. rewrite app_nil_r.
    split; [done|]. by rewrite Hcur, Hnil, Hcl.
Qed.

(** It gives one up. *)
Lemma inv_connect_broken M out s l c i k L segs cur j x lk d cs0 TERM raw size now c' cs ds :
  inv M (Duplex (Sys out s l c None i k) L segs cur) →
  session.s_conns s !! j = Some x → L !! j = Some lk → l_start lk = None → fresh d → sent d cs0 [] → greets x lk d →
  client.set_up TERM raw size now (client.St (client.cl c) d (client.coal c) (client.escapeBuf c)) =
    Some (Ok client.Retry, c') →
  sent (client.conn c') cs ds →
  inv M (Duplex (Sys out s l c' None i k)
    (<[j := set_sent ds (set_start (Z.to_nat (client.cl_sendSeq (client.cl c))) lk)]> L) segs cur).
Proof.
  intros (hist & outs & got & Hl & Hsegs & Hrc & Hst & Hcur & Hcat) Hx Hj Hk Hf Hd0 Hg Hup Hs.
  simpl in *. rewrite (stored_count _ _ Hst). pose proof (client.set_up_kept _ _ _ _ _ _ _ Hup) as Hkept.
  eapply (set_up_retry nc hist _ _ _ _ cs0) in Hup as (cs1 & ds1 & Hs1 & Hpart); [|exact Hst|exact Hd0|exact Hf].
  destruct (sent_det _ _ _ _ _ Hs Hs1) as [_ <-].
  exists hist, outs, got. split; [done|]. split; [done|]. split.
  - apply receiving_insert; [done|]. apply link_start; [by apply Hrc|done|]. by eapply part_of_run_on.
  - split; [|done]. eapply client.stored_kept; [exact Hkept|done].
Qed.

(** An iteration of its loop, and the end of it. *)
Lemma inv_loop M out s l c lr i k k' L segs cur now e lr' c' cs' ds' :
  inv M (Duplex (Sys out s l c (Some lr) i k) L segs cur) → M + 1 < 2 ^ 64 →
  len (client.stdin_bytes e) <= client.stdinBufSize →
  client.ioLoop lr now e c = Some (Ok (inl lr'), c') → sent (client.conn c') cs' ds' →
  inv (M + 1) (Duplex (Sys out s l c' (Some lr') i k') (alter (set_sent ds') i L) segs (cur ++ client.stdin_bytes e)).
Proof.
  intros (hist & outs & got & Hl & Hsegs & Hrc & Hon) HM Hd Hio Hs. simpl in *.
  eapply on_link_step in Hio as (hist' & lk & kk & Hgr & Hi & Hk & Hkk & Hpre & Hrun & Hon'); [|exact Hon|lia|done|exact Hs].
  pose proof (grown_len _ _ Hgr) as Hlen. apply grown_prefix in Hgr.
  exists hist', outs, got. split; [lia|]. split; [done|]. split; [|exact Hon'].
  rewrite (alter_known _ _ _ _ Hi). apply (receiving_hist _ _ _ _ _ Hgr) in Hrc. apply receiving_insert; [done|].
  eapply link_sent; [by apply Hrc|done..].
Qed.

Lemma inv_lost M out s l c lr i k L segs cur now e c' ctx c'' cs' ds' :
  inv M (Duplex (Sys out s l c (Some lr) i k) L segs cur) → M + 1 < 2 ^ 64 →
  len (client.stdin_bytes e) <= client.stdinBufSize →
  client.ioLoop lr now e c = Some (Ok (inr client.exitNetwork), c') →
  client.after_loop client.exitNetwork ctx c' = Some (Ok client.Retry, c'') → sent (client.conn c'') cs' ds' →
  inv (M + 1) (Duplex (Sys out s l c'' None i k) (alter (set_sent ds') i L) (segs ++ [cur ++ client.stdin_bytes e]) []).
Proof.
  intros (hist & outs & got & Hl & Hsegs & Hrc & Hon) HM Hd Hio Ha Hs. simpl in *.
  apply io_bind_inv in Ha as ([] & s2 & Hcall & [= <-]). pose proof (client.call_kept _ _ _ _ Hcall) as Hkept.
  apply client.call_conn in Hcall as (x & [= <-] & ->). simpl in Hs.
  assert (sent (client.conn c') cs' ds') as Hs'.
  { destruct Hon as (lk & kk & _ & _ & _ & _ & ((_ & cs & Hc) & _) & _). pose proof (ioLoop_writes _ _ _ _ _ _ Hio) as [_ Hw].
    destruct (Hw _ _ Hc) as (cs1 & ds1 & Hs1). pose proof (Close_sent _ _ _ Hs1) as Hs2.
    by destruct (sent_det _ _ _ _ _ Hs Hs2) as [-> ->]. }
  eapply on_link_step in Hio as (hist' & lk & kk & Hgr & Hi & Hk & Hkk & Hpre & Hrun & Hst & _ & o & Hcat & Ho);
    [|exact Hon|lia|done|exact Hs'].
  pose proof (grown_len _ _ Hgr) as Hlen. apply grown_prefix in Hgr.
  exists hist', (outs ++ [o]), got. split; [lia|]. split; [by apply Forall2_app; [|constructor]|]. split.
  - simpl. rewrite (alter_known _ _ _ _ Hi). apply (receiving_hist _ _ _ _ _ Hgr) in Hrc. apply receiving_insert; [done|].
    eapply link_sent; [by apply Hrc|done..].
  - split; [by eapply client.stored_kept|]. split; [done|]. rewrite concat_app. simpl. by rewrite app_nil_r.
Qed.

(** Accepting a connection in a reachable state. *)
Lemma accept_frame N M out s l c p i k L segs cur now j x cs ctx l' s' :
  reach N M (Duplex (Sys out s l c p i k) L segs cur) → session.s_conns s !! j = None →
  sent x cs [] → is_uint 64 (LastClientSeq x) → LastClientSeq x <= system.recvSeq c →
  session.handle SHELL environ l now (session.EvAccept (Ok j) ctx)
    (session.set_conns (<[j := x]> (session.s_conns s)) s) = Some (Ok (inl l'), s') →
  N + 1 < 2 ^ 64 → session.grow s s' ∧ accepted s j (List.length cs) s'.
Proof.
  intros Hr Hj Hx Hu Hq Hh HN.
  destruct (system.reach_sys_inv SHELL environ scfg ccfg fd N _ (reach_system _ _ _ Hr)) as (HN0 & hist & got & Hsi & (Hdi & _) & _); [lia|].
  simpl in Hdi, Hsi.
  destruct (session.inv_accept True (session.ReplaySize scfg) hist N out s j x) as (hist1 & _ & Hb1 & _ & _ & HN1 & _).
  { by exists hist. }
  { done. }
  { split; [by exists cs|]. split; [done|]. intros _. unfold system.recvSeq in *.
    destruct (session.b_sender _ _ _ _ _ (proj1 Hsi)) as (-> & _). lia. }
  split.
  - eapply session.grow_trans; [by apply system.grow_new|]. eapply session.grow_accept; [exact Hb1|lia|exact Hh].
  - eapply handle_accepted in Hh; [exact Hh|exact Hb1|lia| |done].
    intros Hcn. destruct Hsi as (_ & Hcur & _). destruct (Hcur j Hcn) as (x2 & _ & Hx2 & _). congruence.
Qed.

Lemma reach_duplex_inv N M y : reach N M y → N < 2 ^ 64 → M < 2 ^ 64 → 0 <= M ∧ inv M y.
Proof.
  induction 1 as [now s c room err i k Hs Hc
    |N M out s l c p i k L segs cur now e l' s' Hr IH He Ha Hi Hh
    |N M out s l c p i k L segs cur now j lk msg l' s' Hr IH Hj Hm Ht Hw Hh
    |N M out s l c p i k L segs cur now j x cs ctx l' s' Hr IH Hj Hx Hu Hq Hh
    |N M out s l c p i k L segs cur j x x' Hr IH Hj Hg
    |N M out s l c i k L segs cur j x lk d cs0 TERM raw size now c' cs ds Hr IH Hx Hq Hj Hk Hf Hd Hg Hc Hs
    |N M out s l c i k L segs cur j x lk d cs0 TERM raw size now c' cs ds Hr IH Hx Hj Hk Hf Hd Hg Hc Hs
    |N M out s l c i k L segs cur d TERM raw size now c' Hr IH Hc
    |N M out s l c lr i k L segs cur x cs ds msg now ctl lr' c' cs' ds' Hr IH Hx Hs Hk Hc Hs'
    |N M out s l c lr i k L segs cur now e lr' c' cs' ds' Hr IH He Hd Hc Hs
    |N M out s l c lr i k L segs cur now e c' ctx c'' cs' ds' Hr IH Hd Hc Ha Hs
    |N M out s l c p i k L segs cur d Hr IH Hg]; intros HN HM.
  - split; [done|]. by eapply inv_start.
  - destruct IH as [H0M (hist & outs & got & Hl & Hsegs & Hrc & Hse)]; [lia..|]. split; [done|].
    exists hist, outs, got. split; [done|]. split; [done|]. split; [|done].
    eapply receiving_idle; [by eapply idle_handle|by eapply session.grow_handle|exact Hrc].
  - destruct IH as [H0M (hist & outs & got & Hl & Hsegs & Hrc & Hse)]; [lia..|]. split; [done|].
    eapply receiving_input in Hh as (got' & Hrc'); [|exact Hrc|done..].
    exists hist, outs, got'. split; [done|]. split; [done|]. split; [exact Hrc'|].
    unfold sending in *. simpl in *. destruct p; [|done]. destruct Hse as (lk' & kk & Hi & Hrest).
    destruct (decide (i = j)) as [->|Hne].
    + assert (lk' = lk) as -> by congruence. exists (read_one lk), kk. by rewrite lookup_insert_eq.
    + exists lk', kk. by rewrite lookup_insert_ne.
  - destruct IH as [H0M (hist & outs & got & Hl & Hsegs & Hrc & Hse)]; [lia..|]. split; [done|].
    destruct (accept_frame N M out s l c p i k L segs cur now j x cs ctx l' s') as [Hgrow Hacc]; [done..|lia|].
    exists hist, outs, got. split; [done|]. split; [done|]. split; [by eapply receiving_accepted|].
    unfold sending in *. simpl in *. destruct p; [|done]. destruct Hse as (lk' & kk & Hi & Hrest).
    exists lk', kk. rewrite lookup_insert_ne; [done|]. intros ->.
    destruct (r_links _ _ _ _ Hrc i lk' Hi) as ((y & ? & ? & Hy & _) & _). simpl in Hy. congruence.
  - destruct IH as [H0M (hist & outs & got & Hl & Hsegs & Hrc & Hse)]; [lia..|]. split; [done|].
    exists hist, outs, got. split; [done|]. split; [done|]. split; [|done]. by eapply receiving_goroutine.
  - destruct IH as [H0M IH]; [lia..|]. split; [done|]. by eapply inv_connect.
  - destruct IH as [H0M IH]; [lia..|]. split; [done|]. by eapply inv_connect_broken.
  - destruct IH as [H0M (hist & outs & got & Hl & Hsegs & Hrc & Hse)]; [lia..|]. split; [done|].
    exists hist, outs, got. split; [done|]. split; [done|]. split; [done|]. destruct Hse as [Hst Hrest].
    split; [|done]. eapply client.stored_kept; [by eapply client.set_up_kept|done].
  - destruct IH as [H0M IH]; [lia..|]. split; [lia|]. rewrite <-(app_nil_r cur).
    by eapply (inv_loop _ _ _ _ _ _ _ _ _ _ _ _ _ (client.EvData (Ok msg) ctl)).
  - destruct IH as [H0M IH]; [lia..|]. split; [lia|]. by eapply inv_loop.
  - destruct IH as [H0M IH]; [lia..|]. split; [lia|]. by eapply inv_lost.
  - destruct IH as [H0M (hist & outs & got & Hl & Hsegs & Hrc & Hse)]; [lia..|]. split; [done|].
    exists hist, outs, got. split; [done|]. split; [done|]. split; [done|].
    unfold sending, on_link in *. simpl in *. destruct p; [|done]. destruct Hse as (lk & kk & Hi & Hk & Hkk & Hs & Hlo & Hsm).
    exists lk, kk. split_and!; try done. by apply client.goroutine_looping.
Qed.


(** Everything the client wrote to the current connection has been read. *)
Definition delivered (y : duplex) : Prop :=
  system.y_loop (d_sys y) ≠ None ∧ session.s_conn (system.y_session (d_sys y)) = Some (system.y_link (d_sys y)) ∧
  ∃ lk, d_links y !! system.y_link (d_sys y) = Some lk ∧ l_read lk = List.length (l_sent lk).

Lemma delivered_displayed hist outs got y b :
  receiving hist got (system.y_session (d_sys y)) (d_links y) → sending hist outs y → delivered y →
  Z.of_nat b < len hist → b ∈ got ∨ evicted nc hist b.
Proof.
  intros [Hd _ Hl] Hse (Hp & Hcn & lk & Hi & Hk) Hlt. unfold sending in Hse.
  destruct (system.y_loop (d_sys y)); [|done]. destruct Hse as (lk' & kk & Hi' & Hst & Hkk & Hs & _).
  assert (lk' = lk) as -> by congruence. destruct (Hl _ _ Hi) as (_ & _ & Hc & Hpos). unfold carried in Hc. rewrite Hst in Hc.
  destruct Hc as (_ & Hh & Hpre).
  destruct (position_read nc hist kk (l_hdr lk) (l_sent lk) (l_read lk) _ Hkk Hh Hpre (Hpos Hcn)) as (_ & Hev).
  destruct (Z.ltb_spec (Z.of_nat b) (session.s_recvSeq (system.y_session (d_sys y)))) as [Hlb|Hge]; [by apply Hd|]. right.
  apply Hev; [done|]. rewrite Hk, Hs. unfold run_on.
  pose proof (start_range nc (take kk hist) (l_hdr lk)) as Hr. rewrite len_take in Hr.
  pose proof (run_from_length (start nc (take kk hist) (l_hdr lk)) hist) as Hlen. unfold len in *. lia.
Qed.
End duplex.

(** ** Properties *)

Section properties.
Context {C : Type} `{ConnLaws C} {D : Type} `{ConnLaws D} {P : Type} `{PtyInput P}.
Variables (SHELL : string) (environ : list string) (scfg : session.Config) (ccfg : client.Config) (fd : Z).

(** C2: End-to-end delivery of the input.  While the PTY takes what is written
    to it: however connections are made, refused, lost and replaced, and
    however the event loops, the network and the connections' goroutines
    interleave, the batches the client numbers are, loop after loop, a prefix
    of what the escape processor makes of the bytes read from its terminal, and
    in the current loop all of it but what is being coalesced; the shell's
    terminal is given the payloads of a strictly increasing sequence [got] of
    them, so in order and none twice; the session's sequence number bounds
    them, each batch below it that was not given had been evicted from the
    client's catchup buffer, and once the session has read all that was sent
    on the current connection that is so of every batch. *)
Theorem input_end_to_end N M (y : duplex (C := C) (D := D) (P := P)) :
  reach SHELL environ scfg ccfg fd N M y → N < 2 ^ 64 → M < 2 ^ 64 →
  let s := system.y_session (d_sys y) in
  let c := system.y_client (d_sys y) in
  ∃ hist outs got,
    Forall2 (λ seg out, out `prefix_of` escape.unescape true seg) (d_segs y) outs ∧
    match system.y_loop (d_sys y) with
    | None => List.concat hist = List.concat outs
    | Some _ => List.concat hist ++ coalesce.buf (client.coal c) = List.concat outs ++ escape.unescape true (d_cur y)
    end ∧
    client.cl_sendSeq (client.cl c) = len hist ∧
    input s = pick hist got ∧ StronglySorted lt got ∧
    session.s_recvSeq s <= len hist ∧ Forall (λ j, Z.of_nat j < session.s_recvSeq s) got ∧
    (∀ b, Z.of_nat b < session.s_recvSeq s → b ∈ got ∨ evicted (client.cfg_ReplaySize ccfg) hist b) ∧
    (delivered y → ∀ b, Z.of_nat b < len hist → b ∈ got ∨ evicted (client.cfg_ReplaySize ccfg) hist b).
Proof.
  intros Hr HN HM s c. destruct (reach_duplex_inv SHELL environ scfg ccfg fd N M y Hr HN HM) as (_ & hist & outs & got & _ & Hsegs & Hrc & Hse).
  exists hist, outs, got. split; [done|].
  pose proof (λ b Hd, delivered_displayed ccfg hist outs got y b Hrc Hse Hd) as Hdel.
  assert (client.cl_sendSeq (client.cl c) = len hist) as Hseq.
  { unfold sending in Hse. destruct (system.y_loop (d_sys y)); [|apply Hse].
    destruct Hse as (lk & kk & _ & _ & _ & _ & ((Hst & _) & _) & _). apply Hst. }
  split.
  { unfold sending in Hse. destruct (system.y_loop (d_sys y)); [|apply Hse].
    destruct Hse as (lk & kk & _ & _ & _ & _ & (_ & _ & _ & out & Hcat & Hrun) & _).
    rewrite Hcat, <-app_assoc. f_equal. by apply (escape.run_unescape (d_cur y) true) in Hrun. }
  split; [done|]. destruct (r_displayed _ _ _ _ _ Hrc) as ((_ & Hq) & Hin & Hs & Hg & Hm).
  split; [done|]. split; [done|]. split; [done|]. split; [done|]. split; [done|]. intros Hd b. by apply Hdel.
Qed.
End properties.

(** ** An instance of the property

    Over QUIC: the session accepts, the client connects, two chunks are typed,
    the coalescing timer fires, and the session reads the message. *)

Definition ex_typed : bytes := client.ex_chunk1 ++ client.ex_chunk2.
Definition ex_z1 : system.ex_session := system.s_after system.ex_o1.
Definition ex_l1 : session.locals := system.l_after system.ex_o1.
Definition ex_z2 : system.ex_outcome :=
  session.handle "" [] ex_l1 (6 * Millisecond) (session.EvStream (session.StreamEvent 0 "data" (Ok (Data 1 ex_typed)))) ex_z1.
Definition ex_lk (ds : list message) : link := Link 0 0 (Some 0%nat) ds 0.
Definition ex_duplex (s : system.ex_session) (l : session.locals) (c : client.st (C := quicConn)) (lk : link) (cur : bytes) :
    duplex (C := quicConn) (D := quicConn) (P := memPty) :=
  Duplex (system.Sys [] s l c (Some 0) 0 0) {[0%nat := lk]} [] cur.

(** The client's end. *)
Definition ex_client_sent (c : client.st (C := quicConn)) (ds : list message) : Prop :=
  sent (client.conn c) [TerminalInfo "xterm"] ds.

Lemma ex_duplex_sent :
  ex_client_sent client.ex_s1 [] ∧ ex_client_sent client.ex_s2 [] ∧ ex_client_sent client.ex_s3 [] ∧
  ex_client_sent client.ex_s4 [Data 1 ex_typed].
Proof. split_and!; (apply quic_sent_frames; [by repeat constructor|done|vm_compute; reflexivity..]). Qed.

(** The session accepts and the client connects. *)
Lemma ex_connected :
  reach "" [] session.ex_cfg client.ex_cfg (-1) 1 0 (ex_duplex ex_z1 ex_l1 client.ex_s1 (ex_lk []) []).
Proof.
  assert (reach "" [] session.ex_cfg client.ex_cfg (-1) 0 0
    (Duplex (system.Sys [] system.ex_s0 (session.Locals false false 0) client.ex_start None 0 0) ∅ [] [])) as Hr0.
  { apply (dx_start _ _ _ _ _ 0 system.ex_s0 client.ex_start None None); reflexivity. }
  assert (reach "" [] session.ex_cfg client.ex_cfg (-1) 1 0
    (Duplex (system.Sys [] ex_z1 ex_l1 client.ex_start None 0 0) {[0%nat := Link 0 0 None [] 0]} [] [])) as Hr1.
  { assert (session.s_recvSeq system.ex_s0 = 0) as Hq by (vm_compute; reflexivity).
    pose proof (dx_accept "" [] session.ex_cfg client.ex_cfg (-1) 0 0 [] system.ex_s0 (session.Locals false false 0)
      client.ex_start None 0 0 ∅ [] [] Millisecond 0%nat (session.ex_conn 0) [] None ex_l1 ex_z1 Hr0) as Hr1.
    rewrite Hq in Hr1. apply Hr1; [done| |done|done|].
    - apply quic_sent_frames; [constructor|done..].
    - apply system.went_on_after. vm_compute. reflexivity. }
  eapply (dx_connect _ _ _ _ _ 1 0 _ _ _ _ _ _ {[0%nat := Link 0 0 None [] 0]} _ _ 0%nat
      (default (session.ex_conn 0) (session.s_conns ex_z1 !! 0%nat)) (Link 0 0 None [] 0)
      (client.ex_conn 0) [] "xterm" (Ok ()) (Err EOF) 0) in Hr1;
    [exact Hr1|vm_compute; reflexivity|vm_compute; reflexivity|reflexivity|reflexivity|done|apply client.ex_sent| | |apply ex_duplex_sent].
  - intros m d' Hm. exists [SequenceHeader 0], []. split.
    + apply quic_sent_frames; [by repeat constructor|done|vm_compute; reflexivity..].
    + assert (option_map fst (ReadControl (client.ex_conn 0)) = Some (Ok (SequenceHeader 0))) as He by (vm_compute; reflexivity).
      rewrite Hm in He. simpl in He. by injection He as ->.
  - apply client.entered_eq. vm_compute. reflexivity.
Qed.

Definition ex_end : duplex (C := quicConn) (D := quicConn) (P := memPty) :=
  ex_duplex (system.s_after ex_z2) (system.l_after ex_z2) client.ex_s4 (read_one (ex_lk [Data 1 ex_typed])) ex_typed.

Lemma ex_duplex_runs : reach "" [] session.ex_cfg client.ex_cfg (-1) 2 3 ex_end.
Proof.
  pose proof (dx_client _ _ _ _ _ 1 0 _ _ _ _ _ _ _ _ _ _ Millisecond (client.EvStdin (Some client.ex_chunk1)) 0
    client.ex_s2 [TerminalInfo "xterm"] [] ex_connected ltac:(done) ltac:(done)
    ltac:(apply client.went_on_eq; vm_compute; reflexivity) ltac:(apply ex_duplex_sent)) as Hr2.
  pose proof (dx_client _ _ _ _ _ 1 _ _ _ _ _ _ _ _ _ _ _ (2 * Millisecond) (client.EvStdin (Some client.ex_chunk2)) 0
    client.ex_s3 [TerminalInfo "xterm"] [] Hr2 ltac:(done) ltac:(done)
    ltac:(apply client.went_on_eq; vm_compute; reflexivity) ltac:(apply ex_duplex_sent)) as Hr3.
  pose proof (dx_client _ _ _ _ _ 1 _ _ _ _ _ _ _ _ _ _ _ (5 * Millisecond) client.EvCoalTimer 0
    client.ex_s4 [TerminalInfo "xterm"] [Data 1 ex_typed] Hr3 ltac:(done) ltac:(done)
    ltac:(apply client.went_on_eq; vm_compute; reflexivity) ltac:(apply ex_duplex_sent)) as Hr4.
  eapply (dx_input _ _ _ _ _ 1 3 _ _ _ _ _ _ _ _ _ _ (6 * Millisecond) 0%nat (ex_lk [Data 1 ex_typed]) (Data 1 ex_typed)) in Hr4;
    [exact Hr4|reflexivity|reflexivity| |by split|apply system.went_on_after; vm_compute; reflexivity].
  intros p q b Hc Hp [= <- <-]. exists (MemPty (mp_size p) (Writer ex_typed None None) false).
  vm_compute in Hp. injection Hp as <-. vm_compute. reflexivity.
Qed.

Lemma ex_delivered : delivered ex_end.
Proof. split; [done|]. split; [vm_compute; reflexivity|]. exists (read_one (ex_lk [Data 1 ex_typed])). split; reflexivity. Qed.

Lemma input_end_to_end_witness :
  delivered ex_end ∧ input (system.s_after ex_z2) = ex_typed ∧
  let s := system.y_session (d_sys ex_end) in
  let c := system.y_client (d_sys ex_end) in
  ∃ hist outs got,
    Forall2 (λ seg out, out `prefix_of` escape.unescape true seg) [] outs ∧
    List.concat hist ++ coalesce.buf (client.coal c) = List.concat outs ++ escape.unescape true ex_typed ∧
    client.cl_sendSeq (client.cl c) = len hist ∧
    input s = pick hist got ∧ StronglySorted lt got ∧
    session.s_recvSeq s <= len hist ∧ Forall (λ j, Z.of_nat j < session.s_recvSeq s) got ∧
    (∀ b, Z.of_nat b < session.s_recvSeq s → b ∈ got ∨ evicted (client.cfg_ReplaySize client.ex_cfg) hist b) ∧
    (delivered ex_end → ∀ b, Z.of_nat b < len hist → b ∈ got ∨ evicted (client.cfg_ReplaySize client.ex_cfg) hist b).
Proof.
  split; [apply ex_delivered|]. split; [vm_compute; reflexivity|].
  apply (input_end_to_end "" [] session.ex_cfg client.ex_cfg (-1) 2 3 ex_end ex_duplex_runs); lia.
Defined.
End duplex.
