(* ===== verification/Reconnect.v ===== *)
(** * Reconnecting over TCP

    Over TCP both streams share one, and the session reads the terminal name
    from it before it starts the demultiplexer.  A client that has input to
    resend writes it before the terminal name: the session takes the first
    resent message for the missing name and closes the connection.  Nothing
    is acknowledged by that, so the next attempt goes the same way. *)

From S2P Require Import Prelude GoIO Protocol Catchup Coalesce Escape Transport Sender Pty Session Client.
Open Scope go_scope.

Module reconnect.

(** ** The client's side: the stream only grows *)

Definition wire_grows (t t' : tcpConn) : Prop :=
  ∀ ms, wire_sent (t_conn t) ms → ∃ ms', wire_sent (t_conn t') (ms ++ ms').

Lemma grows_trans t1 t2 t3 : wire_grows t1 t2 → wire_grows t2 t3 → wire_grows t1 t3.
Proof.
  intros Hg1 Hg2 ms Hm. destruct (Hg1 ms Hm) as (m1 & Hm1). destruct (Hg2 _ Hm1) as (m2 & Hm2).
  exists (m1 ++ m2). by rewrite app_assoc.
Qed.

Lemma grows_same t t' : tcp_same t t' → wire_grows t t'.
Proof. intros (Hw & _) ms Hm. exists []. rewrite app_nil_r. by eapply wire_sent_wr. Qed.

Lemma grows_write m t r t' : msg_wf m → tcp_on_conn (wire_write (Ptr m)) t = Some (r, t') → wire_grows t t'.
Proof.
  intros Hm Hw ms Hs. zoomed Hw. destruct (wire_write_sent _ _ _ _ _ Hs Hm Hw) as [(e & _ & Hs')|[_ Hs']].
  - exists []. by rewrite app_nil_r.
  - by exists [m].
Qed.

Section client_side.
Variable (n : Z).
#[local] Abbreviation st := (client.st (C := tcpConn)).

Definition conn_grows (s s' : st) : Prop := wire_grows (client.conn s) (client.conn s').

Lemma call_grows {A} (op : io tcpConn A) s r s' :
  (∀ t r t', op t = Some (r, t') → wire_grows t t') → client.call op s = Some (r, s') → conn_grows s s'.
Proof. intros Hop (x & Hx & ->)%client.call_conn. by eapply Hop. Qed.

Lemma resend_grows es s s' :
  Forall msg_wf ((λ e, Data (catchup.seq e) (catchup.payload e)) <$> es) →
  client.resend es s = Some (Ok (), s') → conn_grows s s'.
Proof.
  revert s. induction es as [|e es IH]; intros s Hwf; cbn [client.resend].
  - intros [= <-] ms Hm. exists []. by rewrite app_nil_r.
  - cbn [fmap list_fmap] in Hwf. apply Forall_cons in Hwf as [Hw Hwf].
    intros ([] & s1 & Hw1%io_wrap_inv & Hk)%io_bind_inv.
    eapply grows_trans; [|by eapply IH]. eapply call_grows; [|exact Hw1].
    intros t r t'. by apply (grows_write (Data (catchup.seq e) (catchup.payload e))).
Qed.

Lemma exchange_grows hist s s' :
  sender_ok n (client.cl_sendSeq (client.cl s)) (client.cl_buf (client.cl s)) hist → fresh (client.conn s) →
  client.handleSequenceExchange s = Some (Ok (), s') → conn_grows s s'.
Proof.
  intros Hs Hf (msg & s1 & Hr%io_wrap_inv & Hk)%io_bind_inv.
  apply client.call_conn in Hr as (x & Hr & ->). destruct msg as [| |last| | | | |]; try done.
  rewrite client.get_bind in Hk. apply io_bind_inv in Hk as (es & s2 & [= He <-] & Hk).
  assert (is_uint 64 last) as Hu by (apply (ReadControl_wf _ _ _ Hf Hr)).
  destruct (sender_replay n _ _ hist last Hs) as (es' & He' & Hrun); [apply Hu|].
  assert (es' = es) as -> by (simpl in He; congruence). rewrite run_from_start in Hrun.
  eapply (grows_trans _ x); [by apply grows_same; eapply tcp_ReadControl_same|].
  apply (resend_grows _ (client.St (client.cl s) x (client.coal s) (client.escapeBuf s))) in Hk; [exact Hk|].
  rewrite Hrun. pose proof (start_range n hist last) as Hst. apply data_run_wf; [lia|].
  rewrite len_drop. assert (len hist < 2 ^ 64) by apply Hs. lia.
Qed.

(** After the exchange the stream only grows. *)
Lemma set_up_grows TERM raw size now s s' :
  client.set_up TERM raw size now s = Some (Ok client.Enter, s') →
  ∃ s0 s1, client.conn s0 = client.conn s ∧ client.cl_sendSeq (client.cl s0) = client.cl_sendSeq (client.cl s) ∧
    client.cl_buf (client.cl s0) = client.cl_buf (client.cl s) ∧
    client.handleSequenceExchange s0 = Some (Ok (), s1) ∧ conn_grows s1 s'.
Proof.
  unfold client.set_up. rewrite client.modify_bind. set (s0 := client.set_cl _ s). intros Hk.
  apply io_try_split in Hk as (r1 & s1 & He & Hp1 & Hk); [|done].
  destruct r1 as [[]|e|p]; [|by apply io_bind_inv in Hk as (? & ? & _ & ?)|done].
  exists s0, s1. split; [done|]. split; [done|]. split; [done|]. split; [done|].
  apply io_try_split in Hk as (r2 & s2 & Hw & Hp2 & Hk); [|done].
  assert (conn_grows s1 s2) as Hg2.
  { eapply call_grows; [|exact Hw]. intros t r t'. by apply (grows_write (TerminalInfo TERM)). }
  destruct r2 as [[]|e|p]; [|by apply io_bind_inv in Hk as (? & ? & _ & ?)|done].
  rewrite client.get_bind in Hk.
  destruct (if 0 <=? _ then raw else Ok ()) as [[]|e|p]; [|by apply io_bind_inv in Hk as (? & ? & _ & ?)|done].
  apply io_bind_inv in Hk as ([] & s3 & Hw3 & Hk).
  assert (conn_grows s2 s3) as Hg3.
  { unfold client.sendResize in Hw3. rewrite client.get_bind in Hw3.
    assert (conn_grows s2 s2) as Hrefl by (apply grows_same; done).
    destruct (_ <? 0); [by injection Hw3 as <-|]. destruct size as [[cols rows]|e|p]; [|by injection Hw3 as <-|done].
    apply io_try_split in Hw3 as (r & s4 & Hw4 & _ & [= <-]); [|done].
    eapply call_grows; [|exact Hw4]. intros t r0 t'.
    apply (grows_write (Resize (uint16 rows) (uint16 cols))). by split; apply uint16_range. }
  rewrite client.modify_bind in Hk. apply io_bind_inv in Hk as ([] & s5 & Hw5 & Hk).
  apply client.call_conn in Hw5 as (x & [= <-] & ->).
  apply io_bind_inv in Hk as ([] & s6 & Hw6 & [= <-]). unfold client.enter_loop in Hw6.
  destruct (coalesce.New now); [|done]. injection Hw6 as <-.
  eapply grows_trans; [exact Hg2|]. eapply grows_trans; [exact Hg3|]. apply grows_same, tcp_StartDemux_same.
Qed.

(** With a batch to resend, it is what follows the handshake on the stream. *)
Lemma set_up_data_first hist ms0 TERM raw size now s s' :
  sender_ok n (client.cl_sendSeq (client.cl s)) (client.cl_buf (client.cl s)) hist →
  fresh (client.conn s) → wire_sent (t_conn (client.conn s)) ms0 → t_done (client.conn s) = false →
  Forall (λ m, is_data m = false) ms0 →
  client.set_up TERM raw size now s = Some (Ok client.Enter, s') →
  ∃ last x, ReadControl (client.conn s) = Some (Ok (SequenceHeader last), x) ∧
    (start n hist last < len hist →
     ∃ q p ms, wire_sent (t_conn (client.conn s')) (ms0 ++ Data q p :: ms)).
Proof.
  intros Hs Hf Hw Hdone Hms0 Hu. apply set_up_grows in Hu as (s0 & s1 & Hcn & Hsq & Hbf & Hx & Hg).
  assert (data_of ms0 = [] ∧ control_of ms0 = ms0) as [Hd0 Hc0].
  { clear -Hms0. induction Hms0 as [|m ms Hm _ [IH1 IH2]]; [done|]. simpl. rewrite Hm. simpl. by rewrite IH1, IH2. }
  rewrite <-Hcn, <-?Hsq, <-?Hbf in *.
  assert (sent (client.conn s0) ms0 []) as Hsent.
  { split; [by rewrite Hdone|]. exists ms0. by rewrite Hd0, Hc0. }
  destruct (client.handleSequenceExchange_sent n hist ms0 s0 s1 Hs Hsent Hf Hx)
    as (_ & _ & last & x & Hr & _ & (_ & ms & Hms & Hcs & Hds)).
  exists last, x. split; [done|]. intros Hlt.
  destruct (exchange_grows hist s0 s1 Hs Hf Hx ms0 Hw) as (ms1 & Hms1).
  assert (ms = ms0 ++ ms1) as -> by (by eapply wire_sent_det).
  rewrite List.filter_app, Hd0 in Hds. rewrite List.filter_app, Hc0 in Hcs. simpl in Hds.
  assert (control_of ms1 = []) as Hc1.
  { apply (f_equal (@List.length message)) in Hcs. rewrite length_app in Hcs.
    destruct (control_of ms1); [done|]. simpl in Hcs. lia. }
  destruct ms1 as [|m ms1].
  { pose proof (run_from_length (start n hist last) hist (start_range n hist last)) as Hl. rewrite Hds in Hl. unfold len in *. simpl in Hl. lia. }
  simpl in Hc1. destruct m as [| | | | | | |q p]; try done.
  destruct (Hg _ Hms) as (ms2 & Hms2). exists q, p, (ms1 ++ ms2). by rewrite <-app_assoc in Hms2.
Qed.
End client_side.

(** ** The session's side *)

Section session_side.
Context {P : Type} `{PtyLib P}.
Variables (SHELL : string) (environ : list string).
#[local] Abbreviation Session := (session.Session (C := tcpConn) (P := P)).

(** A connection whose demultiplexer is off and that reads [b] next. *)
Definition reads_next (b : bytes) (t : tcpConn) : Prop := t_demuxStarted t = false ∧ rd_in (w_rd (t_conn t)) = b.

(** The handshake of connection [i] goes on, with [recvSeq] and the PTY of
    [s0]; the connection satisfies [Q]. *)
Definition pending (s0 : Session) (i : nat) (Q : tcpConn → Prop) (s : Session) : Prop :=
  session.s_conn s = Some i ∧ (∃ t, session.s_conns s !! i = Some t ∧ Q t) ∧
  session.s_recvSeq s = session.s_recvSeq s0 ∧ session.s_ptmx s = session.s_ptmx s0.

Lemma pending_call {A} s0 i (Q Q' : tcpConn → Prop) (R : res A → Prop) (op : io tcpConn A) s r s' :
  pending s0 i Q s → (∀ t r t', Q t → op t = Some (r, t') → Q' t' ∧ R r) →
  session.call i op s = Some (r, s') → pending s0 i Q' s' ∧ R r.
Proof.
  intros (Hi & (t & Ht & Hb) & Hq & Hp) Hop (t0 & t' & Ht0 & Ho & ->)%session.call_inv; [|by eexists].
  assert (t0 = t) as -> by congruence. destruct (Hop _ _ _ Hb Ho) as [HQ HR]. split; [|done].
  split; [done|]. split; [|done]. exists t'. split; [apply lookup_insert_eq|done].
Qed.

(** What the session is left with when it gives the connection up. *)
Definition given_up (s0 s : Session) : Prop :=
  session.s_conn s = None ∧ session.s_recvSeq s = session.s_recvSeq s0 ∧ session.s_ptmx s = session.s_ptmx s0.

Lemma pending_close s0 i Q s r s' : pending s0 i Q s → session.closeConn s = Some (r, s') → given_up s0 s'.
Proof.
  intros (Hi & (t & Ht & _) & Hq & Hp). unfold session.closeConn. rewrite session.bind_get, Hi.
  unfold io_bind, session.call. rewrite Ht. by intros [= <- <-].
Qed.

Lemma reads_write b m t r t' : reads_next b t → tcp_on_conn (wire_write m) t = Some (r, t') → reads_next b t' ∧ True.
Proof. intros [Hd Hb] Hw. zoomed Hw. apply wire_write_rd in Hw as (Hr & _). split; [|done]. split; [done|]. simpl. by rewrite Hr. Qed.

(** The read that expects the terminal name. *)
Lemma reads_data q p rest t r t' :
  msg_wf (Data q p) → readable (Data q p) = true →
  reads_next (frame (Data q p) ++ rest) t → ReadControl t = Some (r, t') → True ∧ ∀ term, r ≠ Ok (TerminalInfo term).
Proof.
  intros Hwf Hr [Hd Hb] Ho. split; [done|]. simpl in Ho. unfold tcp_ReadControl in Ho. rewrite Hd in Ho. simpl in Ho.
  zoomed Ho. unfold wire_read in Ho.
  destruct (w_rd (t_conn t)) as [rd fin]. cbn [rd_in] in Hb. rewrite Hb, ReadMessage_of_frame in Ho by done.
  by injection Ho as <- _.
Qed.

(** When the next message is [Data] the connection is closed. *)
Lemma handshake_data_first s i q p rest r s' :
  pending s i (reads_next (frame (Data q p) ++ rest)) s → msg_wf (Data q p) → readable (Data q p) = true →
  panics r = false → session.handshake SHELL environ i s = Some (r, s') → given_up s s'.
Proof.
  intros Hp Hwf Hrd Hnp. set (Q := reads_next (frame (Data q p) ++ rest)) in *.
  unfold session.handshake, session.await_terminal. rewrite session.bind_get.
  intros (r1 & s1 & Hw & Hp1 & Hk)%io_try_split; [|done].
  eapply (pending_call s i Q Q (λ _, True)) in Hw as [Hs1 _]; [|exact Hp|intros t r0 t'; apply reads_write].
  destruct r1 as [[]|e|pn]; [|by eapply pending_close|done].
  apply io_bind_split in Hk as (r2 & s2 & Hw & Hk).
  eapply (pending_call s i Q Q (λ r, r = Ok ())) in Hw as (Hs2 & ->); [|exact Hs1|by intros t r0 t' Hb [= <- <-]]. apply io_try_split in Hk as (msg & s3 & Hw & Hp3 & Hk); [|done].
  eapply (pending_call s i Q (λ _, True) (λ r, ∀ term, r ≠ Ok (TerminalInfo term))) in Hw as (Hs3 & Hmsg);
    [|exact Hs2|intros t r0 t'; by apply reads_data].
  apply io_bind_split in Hk as (r4 & s4 & Hw & Hk).
  eapply (pending_call s i (λ _, True) (λ _, True) (λ r, r = Ok ())) in Hw as (Hs4 & ->); [|exact Hs3|by intros t r0 t' _ [= <- _]].
  destruct msg as [[| | | | | |term|]| |]; try by eapply pending_close. by destruct (Hmsg term).
Qed.

(** The same for the whole of [handleNewConn]. *)
Lemma new_conn_data_first hon n N out hist s i x q p rest now r s' :
  session.inv_at hon n N out hist s → len hist + 1 < 2 ^ 64 →
  session.s_conn s ≠ Some i → session.s_conns s !! i = Some x →
  reads_next (frame (Data q p) ++ rest) x → msg_wf (Data q p) → readable (Data q p) = true → panics r = false →
  session.handleNewConn SHELL environ i now s = Some (r, s') → given_up s s'.
Proof.
  intros (Hb & _) Hl Hni Hi Hx Hwf Hrd Hnp. unfold session.handleNewConn.
  intros (r1 & s1 & Hc & Hk)%io_bind_split.
  eapply session.closeConn_spec in Hc as (-> & Hb1 & Hn1 & Hsame & Ho1); [|done].
  apply io_bind_split in Hk as (r2 & s2 & Hf & Hk).
  eapply session.flushCoalesced_spec in Hf as (-> & hist' & _ & _ & _ & _ & _ & Hp2 & _ & Hq2 & _ & _ & Ho2);
    [|done|intros j Hj; congruence|done].
  rewrite session.bind_modify in Hk. set (s3 := session.set_conn (Some i) s2) in Hk.
  destruct Hsame as (_ & Hp1 & _ & _ & _ & Hq1 & _).
  eapply (handshake_data_first s3) in Hk; [|split; [done|]; split; [|done]|done..].
  - unfold given_up in *. simpl in Hk. by rewrite Hq2, Hq1, Hp2, Hp1 in Hk.
  - exists x. split; [|done]. simpl. rewrite Ho2, Ho1; [done|done|congruence].
Qed.
End session_side.

(** ** Properties *)

Section properties.
Context {P : Type} `{PtyLib P}.
Variables (SHELL : string) (environ : list string).

(** C18: A client with unacknowledged input never reconnects over TCP.  Let the
    client have stored the batches [hist], of which the session reports fewer
    received, and let its set-up on a TCP connection succeed; the session
    then reads, after the handshake's messages, the first resent [Data] where
    it expects the terminal name: it closes the connection, and neither its
    sequence number, nor the PTY, nor what the client has stored changes.
    The next attempt finds the same situation. *)
Theorem tcp_reconnect_livelock n hist (s s' : client.st (C := tcpConn)) ms0 x TERM raw size now
    cfg N out (S S' : session.Session (C := tcpConn) (P := P)) l i y now' r :
  sender_ok n (client.cl_sendSeq (client.cl s)) (client.cl_buf (client.cl s)) hist →
  fresh (client.conn s) → wire_sent (t_conn (client.conn s)) ms0 → t_done (client.conn s) = false →
  Forall (λ m, is_data m = false) ms0 →
  ReadControl (client.conn s) = Some (Ok (SequenceHeader (session.s_recvSeq S)), x) →
  start n hist (session.s_recvSeq S) < len hist →
  client.set_up TERM raw size now s = Some (Ok client.Enter, s') →
  session.reach (C := tcpConn) (P := P) SHELL environ False cfg N out S l → N + 1 < 2 ^ 64 →
  session.s_conns S !! i = None → session.accepted False S y →
  t_demuxStarted y = false → frames ms0 ++ rd_in (w_rd (t_conn y)) = wr_out (w_wr (t_conn (client.conn s'))) →
  session.handleNewConn SHELL environ i now'
    (session.set_conns (<[i := y]> (session.s_conns S)) S) = Some (r, S') → panics r = false →
  given_up S S' ∧ client.kept s s' ∧ start n hist (session.s_recvSeq S') < len hist.
Proof.
  intros Hs Hf Hw Hdone Hms0 Hr Hlt Hu Hreach HN Hi Hacc Hy Hin Hh Hnp.
  pose proof (client.set_up_kept _ _ _ _ _ _ _ Hu) as Hkept.
  destruct (set_up_data_first n hist ms0 TERM raw size now s s' Hs Hf Hw Hdone Hms0 Hu) as (last & x' & Hr' & Hfirst).
  assert (last = session.s_recvSeq S) as -> by congruence.
  destruct (Hfirst Hlt) as (q & p & ms & Hms & b & Hb & _).
  rewrite frames_app, frames_cons, <-!app_assoc in Hb. rewrite Hb in Hin. apply app_inv_head in Hin.
  apply Forall_app in Hms as [_ [[Hwf Hsend] _]%Forall_cons].
  apply (session.reach_inv _ _ _ (session.ReplaySize cfg) []) in Hreach as [_ Hinv]; [|done|done|lia].
  assert (session.s_conn S ≠ Some i) as Hni.
  { intros Hc. destruct Hinv as (h & _ & Hbase & _). apply (session.b_ptr _ _ _ _ _ Hbase) in Hc. rewrite Hi in Hc. by destruct Hc. }
  pose proof (session.inv_accept False _ [] N out S i y Hinv Hi Hacc) as (hist' & _ & Hinv').
  assert (given_up (session.set_conns (<[i := y]> (session.s_conns S)) S) S') as Hg.
  { eapply (new_conn_data_first _ _ _ _ _ _ _ _ i y q p (frames ms ++ b)); [exact Hinv'| |done| |by split|done|exact Hsend|exact Hnp|exact Hh].
    - destruct Hinv' as (_ & _ & _ & HlN & _). lia.
    - apply lookup_insert_eq. }
  split; [exact Hg|]. split; [done|]. destruct Hg as (_ & -> & _). done.
Qed.
End properties.

(** ** An instance

    A client that has sent one batch, which the session does not have,
    connects again; the shell has been started by the first connection. *)

Definition ex_buf : catchup.Buffer :=
  match catchup.Store (catchup.New 0) (uint64 (0 + 1)) [x61] with Some (Ok b) => b | _ => catchup.New 0 end.

Lemma ex_stored : sender_ok 0 1 ex_buf [[x61]].
Proof.
  destruct (sender_store 0 0 (catchup.New 0) [] [x61] (sender_new 0)) as (Hu & b & Hst & Hs); [done|].
  rewrite Hu in Hs. unfold ex_buf. rewrite Hst. exact Hs.
Qed.

Definition ex_tcp (inp out : bytes) : tcpConn := newTCPConn (Wire (Reader inp None) (Writer out None None) false false 0) 0.

Definition ex_client : client.st (C := tcpConn) :=
  client.St
    (client.MkClient client.ex_cfg ex_buf escape.NewEscapeProcessor 1 0 (Writer [] None None) (-1) true)
    (ex_tcp (frames [SequenceHeader 0]) []) (coalesce.MkCoalescer [] (MkTimer None) false) [].
Definition ex_client' : client.st (C := tcpConn) :=
  from_option snd ex_client (client.set_up "xterm" (Ok ()) (Err EOF) 0 ex_client).

Definition ex_session : session.Session (C := tcpConn) (P := memPty) :=
  from_option id
    (session.MkSession session.ex_cfg None (catchup.New 0) (coalesce.MkCoalescer [] (MkTimer None) false)
       None 0 0 false false [] ∅) (session.New session.ex_cfg 0).
Definition ex_accepted : tcpConn := ex_tcp (wr_out (w_wr (t_conn (client.conn ex_client')))) [].
Definition ex_session' : session.Session (C := tcpConn) (P := memPty) :=
  from_option snd ex_session
    (session.handleNewConn "" [] 0 0 (session.set_conns (<[0%nat := ex_accepted]> (session.s_conns ex_session)) ex_session)).

Lemma set_up_entered d (x : option (res client.next * client.st (C := tcpConn))) :
  match x with Some (Ok client.Enter, _) => true | _ => false end = true →
  x = Some (Ok client.Enter, from_option snd d x).
Proof. by destruct x as [[[[]| |] s]|]. Qed.

Lemma new_conn_returned d (x : option (res () * session.Session (C := tcpConn) (P := memPty))) :
  match x with Some (Ok _, _) => true | _ => false end = true → x = Some (Ok (), from_option snd d x).
Proof. by destruct x as [[[[]| |] s]|]. Qed.

Lemma tcp_reconnect_livelock_witness :
  given_up ex_session ex_session' ∧ client.kept ex_client ex_client' ∧
  start 0 [[x61]] (session.s_recvSeq ex_session') < len [[x61]].
Proof.
  assert (wire_sent (t_conn (ex_tcp [] [])) []) as Hw by (split; [constructor|]; exists []; by split_and!; [|left|]).
  apply (tcp_reconnect_livelock "" [] 0 [[x61]] ex_client ex_client' [] (ex_tcp [] []) "xterm" (Ok ()) (Err EOF) 0
    session.ex_cfg 0 [] ex_session ex_session' (session.Locals false false 0) 0%nat ex_accepted 0 (Ok ())).
  - apply ex_stored.
  - done.
  - done.
  - done.
  - constructor.
  - vm_compute. reflexivity.
  - vm_compute. reflexivity.
  - apply (set_up_entered ex_client). vm_compute. reflexivity.
  - apply session.reach_new. reflexivity.
  - done.
  - done.
  - split; [|split; [done|done]]. exists []. split; [done|]. exists []. split; [|done]. split; [constructor|].
    exists (wr_out (w_wr (t_conn ex_accepted))). split; [vm_compute; reflexivity|]. split; [by left|done].
  - done.
  - vm_compute. reflexivity.
  - apply (new_conn_returned ex_session). vm_compute. reflexivity.
  - done.
Defined.
End reconnect.
