(* ===== verification/Progress.v ===== *)
(** * Reconnecting over QUIC

    The counterpart of [Reconnect]: over QUIC the control messages have a
    stream of their own, so the order in which the client resends its input
    and names its terminal does not matter to what is read.  Each end is run on
    exactly what the other has written so far: the session writes its number
    before it reads anything, that is enough for the client to finish, and what
    the client has written then is enough for the session.  What can still stop
    a reconnect is flow control: the session does not read the data stream
    until it has the terminal name, so a backlog that exceeds the window of
    that stream leaves the client writing until the session gives up. *)

From S2P Require Import Prelude GoIO Protocol Catchup Coalesce Escape Transport Sender Pty Session Client Reconnect.
Open Scope go_scope.

Module progress.

(** ** A connection that works *)

(** Nothing is closed; [ci] is what the control stream will deliver, [co] and
    [d] are what was written to the two streams, and they take at least [nc]
    and [nd] more bytes (the window the peer has granted). *)
Record live (last : Z) (ci co d : bytes) (nc nd : Z) (q : quicConn) : Prop := {
  lv_control : w_closed (q_control q) = false ∧ accepts (w_wr (q_control q)) nc;
  lv_data : w_closed (q_data q) = false ∧ accepts (w_wr (q_data q)) nd;
  lv_in : rd_in (w_rd (q_control q)) = ci;
  lv_out : wr_out (w_wr (q_control q)) = co ∧ wr_out (w_wr (q_data q)) = d;
  lv_last : q_lastClientSeq q = last;
}.

(** More bytes arrive on the control stream. *)
Definition feed (b : bytes) (q : quicConn) : quicConn :=
  let w := q_control q in
  QuicConn (Wire (Reader (rd_in (w_rd w) ++ b) (rd_fin (w_rd w))) (w_wr w) (w_deadline w) (w_closed w) (w_held w))
    (q_data q) (q_lastClientSeq q) (q_conn_closed q) (q_tr q).

Lemma live_feed last ci co d nc nd b q : live last ci co d nc nd q → live last (ci ++ b) co d nc nd (feed b q).
Proof. intros [Hc Hd <- Ho Hl]. by split. Qed.

(** The window of the data stream, when it is known. *)
Lemma live_room last ci co d nc nd nd' q :
  live last ci co d nc nd q → accepts (w_wr (q_data q)) nd' → live last ci co d nc nd' q.
Proof. intros [Hc [Hd _] Hi Ho Hl] Ha. by split. Qed.

Lemma wire_write_live m w n :
  w_closed w = false → accepts (w_wr w) n → msg_wf m → sendable m = true → len (frame m) <= n →
  ∃ w', wire_write (Ptr m) w = Some (Ok (), w') ∧ w_closed w' = false ∧ accepts (w_wr w') (n - len (frame m)) ∧
    wr_out (w_wr w') = wr_out (w_wr w) ++ frame m ∧ w_rd w' = w_rd w.
Proof.
  intros Hc Hr Hwf Hs Hn. unfold wire_write. rewrite Hc. unfold io_zoom. unfold accepts in Hr.
  rewrite WriteMessage_ok; [|done|done|unfold accepts; destruct (wr_room _); [lia|done]].
  eexists. split; [done|]. split; [done|]. split; [|done]. unfold accepts. simpl. destruct (wr_room _); simpl; [lia|done].
Qed.

Lemma live_WriteControl last m ci co d nc nd q :
  live last ci co d nc nd q → msg_wf m → sendable m = true → len (frame m) <= nc →
  ∃ q', WriteControl (Ptr m) q = Some (Ok (), q') ∧ live last ci (co ++ frame m) d (nc - len (frame m)) nd q'.
Proof.
  intros [[Hc Hr] Hd Hi [Ho Hod] Hl] Hwf Hs Hn.
  destruct (wire_write_live m (q_control q) nc) as (w & Hw & Hc' & Hr' & Ho' & Hrd); [done..|].
  simpl. unfold quic_on_control, io_zoom. rewrite Hw. eexists. split; [done|]. split; simpl; [by split|done|by rewrite Hrd|by rewrite Ho', Ho|done].
Qed.

Lemma live_WriteData last m ci co d nc nd q :
  live last ci co d nc nd q → msg_wf m → sendable m = true → len (frame m) <= nd →
  ∃ q', WriteData (Ptr m) q = Some (Ok (), q') ∧ live last ci co (d ++ frame m) nc (nd - len (frame m)) q'.
Proof.
  intros [Hc [Hd Hr] Hi [Ho Hod] Hl] Hwf Hs Hn.
  destruct (wire_write_live m (q_data q) nd) as (w & Hw & Hc' & Hr' & Ho' & Hrd); [done..|].
  simpl. unfold quic_on_data, io_zoom. rewrite Hw. eexists. split; [done|]. split; simpl; [done|by split|done|by rewrite Ho', Hod|done].
Qed.

Lemma live_ReadControl last m rest co d nc nd q :
  live last (frame m ++ rest) co d nc nd q → msg_wf m → readable m = true →
  ∃ q', ReadControl q = Some (Ok m, q') ∧ live last rest co d nc nd q'.
Proof.
  destruct q as [[[inp fin] wr dl cl h] dt lc cc tr]. intros [[Hc Hr] Hd Hi [Ho Hod] Hl] Hwf Hm. cbn [q_control w_rd rd_in w_closed] in Hc, Hi. subst inp cl.
  unfold ReadControl, quicConn_Conn, quic_on_control, io_zoom, wire_read. cbn [q_control w_rd]. rewrite ReadMessage_of_frame by done.
  eexists. split; [reflexivity|]. by split.
Qed.

(** Nothing arrives before the deadline (or the stream has ended). *)
Lemma live_timeout last co d nc nd q :
  live last [] co d nc nd q → w_deadline (q_control q) = true →
  ∃ e q', ReadControl q = Some (Err e, q') ∧ live last [] co d nc nd q'.
Proof.
  destruct q as [[[inp fin] wr dl cl h] dt lc cc tr]. intros [Hc Hd Hi Ho Hl] Hdl. cbn [q_control w_rd rd_in w_deadline] in Hi, Hdl. subst inp dl.
  destruct fin; (eexists _, _; split; [reflexivity|]; by split).
Qed.

Lemma live_deadline last ci co d nc nd q on :
  live last ci co d nc nd q → live last ci co d nc nd (SetControlReadDeadline on q).
Proof. intros []. by split. Qed.

(** Batches that fit a message. *)
Definition fit (hist : list bytes) : Prop := Forall (λ p, 8 + len p <= MaxPayloadSize) hist.

Lemma run_sendable n hist last :
  fit hist → Forall (λ m, sendable m = true) (run_from (start n hist last) hist).
Proof.
  intros Hf. apply Forall_lookup_2. intros i m Hm. apply run_from_lookup in Hm as (p & -> & Hp); [|apply start_range].
  apply (Forall_lookup_1 _ _ _ _ Hf) in Hp. simpl. by apply Z.leb_le.
Qed.

Lemma io_try_ok {S A B} (c : io S A) (k : res A → io S B) s a s' :
  c s = Some (Ok a, s') → io_bind (io_try c) k s = k (Ok a) s'.
Proof. intros Hc. unfold io_bind, io_try. by rewrite Hc. Qed.

(** ** The session *)

Section session_side.
Context {P : Type} `{PtyLib P}.
Variables (SHELL : string) (environ : list string).
#[local] Abbreviation Session := (session.Session (C := quicConn) (P := P)).

(** Connection [i] is the current one and works. *)
Definition standing (i : nat) (last : Z) (ci co d : bytes) (nc nd : Z) (s : Session) : Prop :=
  session.s_conn s = Some i ∧ ∃ q, session.s_conns s !! i = Some q ∧ live last ci co d nc nd q.

(** All but the connections. *)
Definition rest_same (s s' : Session) : Prop := ∃ cs, s' = session.set_conns cs s.

Lemma standing_call {A} i last ci co d nc nd ci' co' d' nc' nd' (op : io quicConn A) r s :
  (∀ q, live last ci co d nc nd q → ∃ q', op q = Some (r, q') ∧ live last ci' co' d' nc' nd' q') →
  standing i last ci co d nc nd s →
  ∃ s', session.call i op s = Some (r, s') ∧ standing i last ci' co' d' nc' nd' s' ∧ rest_same s s'.
Proof.
  intros Hop (Hi & q & Hq & Hl). destruct (Hop q Hl) as (q' & Ho & Hl'). unfold session.call. rewrite Hq, Ho.
  eexists. split; [done|]. split; [|by eexists]. split; [done|]. exists q'. split; [apply lookup_insert_eq|done].
Qed.

Lemma replay_total i last ci co d nc es s :
  let ms := (λ e, Data (catchup.seq e) (catchup.payload e)) <$> es in
  Forall msg_wf ms → Forall (λ m, sendable m = true) ms → ∀ nd, len (frames ms) <= nd →
  standing i last ci co d nc nd s →
  ∃ s', session.replay i es s = Some (Ok true, s') ∧ rest_same s s' ∧
    standing i last ci co (d ++ frames ms) nc (nd - len (frames ms)) s'.
Proof.
  revert d s. induction es as [|e es IH]; intros d s ms Hwf Hs nd Hn Hst; cbn [session.replay]; subst ms; cbn [fmap list_fmap] in *.
  { exists s. split; [done|]. split; [exists (session.s_conns s); by destruct s|]. change (frames []) with (@nil Byte.byte). by rewrite app_nil_r, (len_nil (A := Byte.byte)), Z.sub_0_r. }
  apply Forall_cons in Hwf as [Hw Hwf]. apply Forall_cons in Hs as [Hse Hs]. rewrite frames_cons, len_app in Hn.
  set (m := Data (catchup.seq e) (catchup.payload e)) in *. set (ms := (λ e, Data _ _) <$> es) in *.
  pose proof (len_nonneg (frames ms)).
  destruct (standing_call i last ci co d nc nd ci co (d ++ frame m) nc (nd - len (frame m)) (WriteData (Ptr m)) (Ok ()) s)
    as (s1 & Hc & Hst1 & cs & ->); [|done|].
  { intros q Hq. apply live_WriteData; [done..|lia]. }
  rewrite (io_try_ok _ _ _ _ _ Hc). destruct (IH _ _ Hwf Hs (nd - len (frame m)) ltac:(lia) Hst1) as (s2 & Hr & (cs2 & ->) & Hst2).
  exists (session.set_conns cs2 s). split; [done|]. split; [by eexists|].
  rewrite frames_cons, app_assoc, len_app, Z.sub_add_distr. exact Hst2.
Qed.

(** The rest of the set-up, when the replay goes through. *)
Lemma catch_up_total n hist i last ci co nc s p :
  let d := frames (run_from (start n hist last) hist) in
  standing i last ci co [] nc (len d) s →
  sender_ok n (session.s_sendSeq s) (session.s_buf s) hist → fit hist → 0 <= last →
  session.s_ptmx s = Some p → (∃ r p', bouncePTYSize p = Some (r, p') ∧ panics r = false) →
  ∃ s', session.catch_up i s = Some (Ok (), s') ∧ is_Some (session.s_ptmx s') ∧ standing i last ci co d nc 0 s'.
Proof.
  intros d Hst Hso Hfit Hlast Hp (rb & p' & Hb & Hrb). unfold session.catch_up.
  destruct (standing_call i last ci co [] nc (len d) ci co [] nc (len d) (λ c, Some (Ok (LastClientSeq c), c)) (Ok last) s)
    as (s1 & Hc & Hst1 & cs & ->); [|done|].
  { intros q Hq. exists q. split; [|done]. simpl. by rewrite (lv_last _ _ _ _ _ _ _ Hq). }
  rewrite (io_bind_ok _ _ _ _ _ Hc), session.bind_get. simpl session.s_buf.
  destruct (sender_replay n _ _ hist last Hso Hlast) as (es & -> & Hrun). rewrite io_bind_lift. rewrite run_from_start in Hrun.
  pose proof (start_range n hist last) as Hr.
  destruct (replay_total i last ci co [] nc es (session.set_conns cs s)) with (nd := len d) as (s2 & Hre & (cs2 & ->) & Hst2); [| | |done|].
  { rewrite Hrun. apply data_run_wf; [lia|]. rewrite len_drop. destruct Hso as (_ & Hl & _). lia. }
  { rewrite Hrun. by apply run_sendable. }
  { by rewrite Hrun. }
  rewrite (io_bind_ok _ _ _ _ _ Hre). rewrite Hrun in Hst2. cbn [negb]. cbn [app] in Hst2. fold d in Hst2. rewrite Z.sub_diag in Hst2.
  set (s2 := session.set_conns cs2 _) in *. set (s3 := session.set_ptmx (Some p') s2).
  assert (∃ rb', io_try (session.on_ptmx bouncePTYSize) s2 = Some (Ok rb', s3)) as (rb' & Hbo).
  { unfold io_try, session.on_ptmx. change (session.s_ptmx s2) with (session.s_ptmx s). rewrite Hp, Hb.
    destruct rb; [by eexists|by eexists|done]. }
  rewrite (io_bind_ok _ _ _ _ _ Hbo). assert (standing i last ci co d nc 0 s3) as Hst3 by exact Hst2.
  destruct (standing_call i last ci co d nc 0 ci co d nc 0 (session.method StartDemux) (Ok ()) s3) as (s4 & Hm & Hst4 & cs4 & ->);
    [by intros q Hq; exists q|exact Hst3|].
  rewrite (io_bind_ok _ _ _ _ _ Hm). eexists. split; [done|]. split; [by eexists|exact Hst4].
Qed.

(** A read deadline. *)
Lemma deadline_total on i last ci co nc nd s :
  standing i last ci co [] nc nd s →
  ∃ s', session.call i (session.method (SetControlReadDeadline on)) s = Some (Ok (), s') ∧
    standing i last ci co [] nc nd s' ∧ rest_same s s'.
Proof. apply standing_call. intros q Hq. eexists. split; [done|]. by apply live_deadline. Qed.

Lemma await_total n hist i last term rest co nc s p :
  let d := frames (run_from (start n hist last) hist) in
  standing i last (frame (TerminalInfo term) ++ rest) co [] nc (len d) s → readable (TerminalInfo term) = true →
  sender_ok n (session.s_sendSeq s) (session.s_buf s) hist → fit hist → 0 <= last →
  (session.s_ptmx s = Some p ∨
   session.s_ptmx s = None ∧ spawnPTY SHELL environ (session.SessionID (session.s_cfg s)) term = Ok p) →
  (∃ r p', bouncePTYSize p = Some (r, p') ∧ panics r = false) →
  ∃ s', session.await_terminal SHELL environ i s = Some (Ok (), s') ∧ is_Some (session.s_ptmx s') ∧
    standing i last rest co d nc 0 s'.
Proof.
  intros d Hst Hrd Hso Hfit Hlast Hp Hb. unfold session.await_terminal.
  destruct (deadline_total true _ _ _ _ _ _ _ Hst) as (s1 & Hc & Hst1 & cs1 & ->). rewrite (io_bind_ok _ _ _ _ _ Hc).
  destruct (standing_call i last _ co [] nc (len d) rest co [] nc (len d) ReadControl (Ok (TerminalInfo term)) _
    (λ q Hq, live_ReadControl last (TerminalInfo term) rest co [] nc (len d) q Hq I Hrd) Hst1) as (s2 & Hr & Hst2 & cs2 & ->).
  rewrite (io_try_ok _ _ _ _ _ Hr). destruct (deadline_total false _ _ _ _ _ _ _ Hst2) as (s3 & Hc3 & Hst3 & cs3 & ->).
  rewrite (io_bind_ok _ _ _ _ _ Hc3). set (s3 := session.set_conns cs3 _) in *.
  assert (∃ s4, session.spawn SHELL environ term s3 = Some (Ok (), s4) ∧ session.s_ptmx s4 = Some p ∧
    standing i last rest co [] nc (len d) s4 ∧ session.s_sendSeq s4 = session.s_sendSeq s ∧ session.s_buf s4 = session.s_buf s)
    as (s4 & Hsp & Hp4 & Hst4 & Hq4 & Hb4).
  { unfold session.spawn. rewrite session.bind_get. change (session.s_ptmx s3) with (session.s_ptmx s).
    destruct Hp as [Hp|[Hp Hsp]]; rewrite Hp.
    - by exists s3.
    - rewrite session.bind_get. change (session.s_cfg s3) with (session.s_cfg s). rewrite Hsp.
      rewrite io_bind_lift. eexists. split; [done|]. by split_and!. }
  rewrite (io_try_ok _ _ _ _ _ Hsp). apply (catch_up_total n hist i last rest co nc s4 p); [done| |done..].
  by rewrite Hq4, Hb4.
Qed.

(** Nothing arrives: the session gives the connection up, with nothing else
    written. *)
Lemma await_unanswered i last co nc nd s :
  standing i last [] co [] nc nd s →
  ∃ s' q, session.await_terminal SHELL environ i s = Some (Ok (), s') ∧ session.s_conns s' !! i = Some q ∧
    session.s_conn s' = None ∧ wr_out (w_wr (q_control q)) = co ∧ wr_out (w_wr (q_data q)) = [].
Proof.
  intros Hst. unfold session.await_terminal. pose proof Hst as (Hi & q & Hq & Hl).
  set (q1 := SetControlReadDeadline true q).
  assert (session.call i (session.method (SetControlReadDeadline true)) s =
    Some (Ok (), session.set_conns (<[i := q1]> (session.s_conns s)) s)) as Hc by (unfold session.call; by rewrite Hq).
  rewrite (io_bind_ok _ _ _ _ _ Hc).
  destruct (live_timeout last co [] nc nd q1) as (e & q2 & Hr & Hl2); [by apply live_deadline|done|].
  assert (session.call i ReadControl (session.set_conns (<[i := q1]> (session.s_conns s)) s) =
    Some (Err e, session.set_conns (<[i := q2]> (<[i := q1]> (session.s_conns s))) s)) as Hc2.
  { assert (session.s_conns (session.set_conns (<[i := q1]> (session.s_conns s)) s) !! i = Some q1) as E by apply lookup_insert_eq.
    unfold session.call. by rewrite E, Hr. }
  set (s2 := session.set_conns (<[i := q2]> _) s) in *.
  assert (standing i last [] co [] nc nd s2) as Hst2 by (split; [done|]; exists q2; split; [apply lookup_insert_eq|done]).
  unfold io_bind at 1, io_try at 1. rewrite Hc2.
  destruct (deadline_total false _ _ _ _ _ _ _ Hst2) as (s3 & Hc3 & (Hi3 & q3 & Hq3 & Hl3) & cs3 & ->).
  rewrite (io_bind_ok _ _ _ _ _ Hc3). unfold session.closeConn. rewrite session.bind_get, Hi3.
  unfold io_bind, session.call. rewrite Hq3. eexists _, (Close q3). split; [reflexivity|].
  split; [apply lookup_insert_eq|]. split; [done|]. apply Hl3.
Qed.

(** The number is written before anything is read. *)
Lemma handshake_starts i last ci nc nd s :
  is_uint 64 (session.s_recvSeq s) → len (frame (SequenceHeader (session.s_recvSeq s))) <= nc →
  standing i last ci [] [] nc nd s →
  ∃ s', session.handshake SHELL environ i s = session.await_terminal SHELL environ i s' ∧ rest_same s s' ∧
    (∀ q, session.s_conns s !! i = Some q → ∃ q', session.s_conns s' !! i = Some q' ∧ q_data q' = q_data q) ∧
    standing i last ci (frame (SequenceHeader (session.s_recvSeq s))) [] (nc - len (frame (SequenceHeader (session.s_recvSeq s)))) nd s'.
Proof.
  intros Hq Hn Hst. unfold session.handshake. rewrite session.bind_get.
  destruct (standing_call i last _ [] [] nc nd _ _ [] _ nd (WriteControl (Ptr (SequenceHeader (session.s_recvSeq s)))) (Ok ()) s
    (λ q Hl, live_WriteControl _ (SequenceHeader (session.s_recvSeq s)) _ _ _ _ _ _ Hl Hq eq_refl Hn) Hst) as (s1 & Hw & Hst1 & cs & ->).
  rewrite (io_try_ok _ _ _ _ _ Hw). eexists. split; [reflexivity|]. split; [by eexists|]. split; [|exact Hst1].
  intros q0 Hq0. unfold session.call in Hw. rewrite Hq0 in Hw.
  destruct (WriteControl _ q0) as [[r q1]|] eqn:E; [|done]. injection Hw as _ <-. exists q1.
  split; [apply lookup_insert_eq|]. simpl in E. by zoomed E.
Qed.

Lemma closeConn_total hon n out hist (s : Session) :
  session.base hon n out hist s → ∃ s', session.closeConn s = Some (Ok (), s').
Proof.
  intros Hb. unfold session.closeConn. rewrite session.bind_get. destruct (session.s_conn s) as [j|] eqn:Hj; [|by eexists].
  destruct (session.b_ptr _ _ _ _ _ Hb j Hj) as [x Hx]. unfold io_bind, session.call. rewrite Hx. by eexists.
Qed.

Lemma flush_total hon n out hist now (s : Session) :
  session.base hon n out hist s → session.s_conn s = None → len hist + 1 < 2 ^ 64 →
  ∃ s', session.flushCoalesced now s = Some (Ok (), s').
Proof.
  intros Hb Hn Hl. unfold session.flushCoalesced, io_bind at 1, session.coal_Flush.
  destruct (coalesce.Flush (session.s_coal s) now) as [c [data|]]; [|by eexists].
  rewrite session.bind_modify, session.bind_get.
  destruct (sender_store n _ _ hist data (session.b_sender _ _ _ _ _ Hb) Hl) as (_ & b & Hst & _).
  unfold io_bind at 1, session.buf_Store. simpl. rewrite Hst, session.bind_get. simpl. rewrite Hn. by eexists.
Qed.

(** Batches of the shell's output fit. *)
Lemma base_fit hon n out hist (s : Session) : session.base hon n out hist s → fit hist.
Proof.
  intros Hb. eapply Forall_impl; [apply (session.b_sizes _ _ _ _ _ Hb)|]. intros p. simpl.
  unfold coalesce.Threshold, session.ptyReadBufSize, MaxPayloadSize. lia.
Qed.

(** Up to the handshake: the old connection is closed, the rest is flushed. *)
Lemma new_conn_starts n N out hist i y now (s : Session) :
  session.inv_at False n N out hist s → len hist + 1 < 2 ^ 64 →
  session.s_conn s ≠ Some i → session.s_conns s !! i = Some y →
  ∃ s' hist', session.handleNewConn SHELL environ i now s = session.handshake SHELL environ i s' ∧
    List.concat hist' = out ∧ fit hist' ∧ sender_ok n (session.s_sendSeq s') (session.s_buf s') hist' ∧
    session.s_recvSeq s' = session.s_recvSeq s ∧ session.s_ptmx s' = session.s_ptmx s ∧
    session.s_cfg s' = session.s_cfg s ∧ session.s_conn s' = Some i ∧ session.s_conns s' !! i = Some y.
Proof.
  intros (Hb & _) Hl Hni Hi. unfold session.handleNewConn.
  destruct (closeConn_total _ _ _ _ _ Hb) as (s1 & Hc). rewrite (io_bind_ok _ _ _ _ _ Hc).
  eapply session.closeConn_spec in Hc as (_ & Hb1 & Hn1 & Hsame & Ho1); [|done].
  destruct (flush_total _ _ _ _ now _ Hb1 Hn1 Hl) as (s2 & Hf). rewrite (io_bind_ok _ _ _ _ _ Hf).
  eapply session.flushCoalesced_spec in Hf as (_ & hist' & Hb2 & _ & _ & Hco2 & _ & Hp2 & Hcf2 & Hq2 & _ & _ & Ho2);
    [|done|intros j Hj; congruence|done].
  rewrite session.bind_modify. set (s3 := session.set_conn (Some i) s2).
  destruct Hsame as (Hcf1 & Hp1 & _ & _ & _ & Hq1 & _).
  exists s3, hist'. split; [done|]. split.
  { rewrite <-(session.b_out _ _ _ _ _ Hb2), Hco2. by rewrite app_nil_r. }
  split; [by eapply base_fit|]. split; [apply Hb2|]. simpl. rewrite Hq2, Hq1, Hp2, Hp1, Hcf2, Hcf1. do 3 (split; [done|]).
  split; [done|]. rewrite Ho2, Ho1; [done|done|congruence].
Qed.
End session_side.

(** ** The client *)

#[local] Abbreviation st := (client.st (C := quicConn)).

(** The client's connection works. *)
Definition online (last : Z) (ci co d : bytes) (nc nd : Z) (s : st) : Prop := live last ci co d nc nd (client.conn s).

(** More bytes arrive. *)
Definition fed (b : bytes) (s : st) : st :=
  client.St (client.cl s) (feed b (client.conn s)) (client.coal s) (client.escapeBuf s).

Lemma online_call {A} last ci co d nc nd ci' co' d' nc' nd' (op : io quicConn A) r s :
  (∀ q, live last ci co d nc nd q → ∃ q', op q = Some (r, q') ∧ live last ci' co' d' nc' nd' q') →
  online last ci co d nc nd s →
  ∃ s', client.call op s = Some (r, s') ∧ online last ci' co' d' nc' nd' s' ∧ client.cl s' = client.cl s.
Proof.
  intros Hop Hs. destruct (Hop _ Hs) as (q & Hq & Hl). unfold client.call, io_zoom. rewrite Hq. by eexists.
Qed.

Lemma io_wrap_bind_ok {S A B} text (c : io S A) (k : A → io S B) s a s' :
  c s = Some (Ok a, s') → io_bind (io_wrap text c) k s = k a s'.
Proof. intros Hc. unfold io_bind, io_wrap. by rewrite Hc. Qed.

Lemma resend_total last ci co d nc es s :
  let ms := (λ e, Data (catchup.seq e) (catchup.payload e)) <$> es in
  Forall msg_wf ms → Forall (λ m, sendable m = true) ms → ∀ nd, len (frames ms) <= nd →
  online last ci co d nc nd s →
  ∃ s', client.resend es s = Some (Ok (), s') ∧ client.cl s' = client.cl s ∧
    online last ci co (d ++ frames ms) nc (nd - len (frames ms)) s'.
Proof.
  revert d s. induction es as [|e es IH]; intros d s ms Hwf Hs nd Hn Hst; cbn [client.resend]; subst ms; cbn [fmap list_fmap] in *.
  { exists s. split; [done|]. split; [done|]. change (frames []) with (@nil Byte.byte).
    by rewrite app_nil_r, (len_nil (A := Byte.byte)), Z.sub_0_r. }
  apply Forall_cons in Hwf as [Hw Hwf]. apply Forall_cons in Hs as [Hse Hs]. rewrite frames_cons, len_app in Hn.
  set (m := Data (catchup.seq e) (catchup.payload e)) in *. set (ms := (λ e, Data _ _) <$> es) in *.
  pose proof (len_nonneg (frames ms)).
  destruct (online_call last ci co d nc nd ci co (d ++ frame m) nc (nd - len (frame m)) (WriteData (Ptr m)) (Ok ()) s)
    as (s1 & Hc & Hst1 & Hcl); [|done|].
  { intros q Hq. apply live_WriteData; [done..|lia]. }
  rewrite (io_wrap_bind_ok _ _ _ _ _ _ Hc). destruct (IH _ _ Hwf Hs (nd - len (frame m)) ltac:(lia) Hst1) as (s2 & Hr & Hcl2 & Hst2).
  exists s2. split; [done|]. split; [congruence|]. rewrite frames_cons, app_assoc, len_app, Z.sub_add_distr. exact Hst2.
Qed.

(** A stream that takes less than a message blocks its writer. *)
Lemma wire_write_blocks m w :
  w_closed w = false → wr_fin (w_wr w) = None → msg_wf m → sendable m = true → ¬ accepts (w_wr w) (len (frame m)) →
  wire_write (Ptr m) w = None.
Proof.
  intros Hc Hf Hwf Hs Ha. unfold wire_write, io_zoom. rewrite Hc.
  destruct (WriteMessage (Ptr m) (w_wr w)) as [[r w']|] eqn:E; [exfalso|done].
  apply WriteMessage_cases in E as [(_ & _ & _ & ?)|[(e & _ & ? & _)|(e & q & _ & ? & _)]]; congruence.
Qed.

(** The resend blocks when it does not fit the window. *)
Lemma resend_blocks last ci co d nc nd es s :
  let ms := (λ e, Data (catchup.seq e) (catchup.payload e)) <$> es in
  Forall msg_wf ms → Forall (λ m, sendable m = true) ms →
  online last ci co d nc nd s → 0 <= nd → wr_fin (w_wr (q_data (client.conn s))) = None →
  ¬ accepts (w_wr (q_data (client.conn s))) (len (frames ms)) →
  client.resend es s = None.
Proof.
  revert s d nd. induction es as [|e es IH]; intros s d nd ms Hwf Hs Hst Hnd Hfin Ha; cbn [client.resend]; subst ms; cbn [fmap list_fmap] in *.
  { destruct Ha. destruct Hst as [_ [_ Ha] _ _ _]. unfold accepts in *. destruct (wr_room _); [|done].
    change (0 <= z). lia. }
  apply Forall_cons in Hwf as [Hw Hwf]. apply Forall_cons in Hs as [Hse Hs]. rewrite frames_cons, len_app in Ha.
  set (m := Data (catchup.seq e) (catchup.payload e)) in *. set (ms := (λ e, Data _ _) <$> es) in *.
  assert (∀ r s', client.call (WriteData (Ptr m)) s = Some (r, s') →
    io_bind (io_wrap "catchup resend: %w" (client.call (WriteData (Ptr m)))) (λ _, client.resend es) s =
    match r with Ok _ => client.resend es s' | Err err => Some (Err (ErrWrap "catchup resend: %w" err), s') | Panicked p => Some (Panicked p, s') end)
    as Hcall by (intros r s' E; unfold io_bind, io_wrap; rewrite E; by destruct r as [[]| |]).
  destruct Hst as [Hc [Hd Hr] Hi Ho Hl].
  assert (accepts (w_wr (q_data (client.conn s))) (len (frame m)) ∨ ¬ accepts (w_wr (q_data (client.conn s))) (len (frame m))) as [Hm|Hm].
  { unfold accepts. destruct (wr_room _) as [k|]; [|by left]. lia. }
  - destruct (online_call last ci co d nc (len (frame m)) ci co (d ++ frame m) nc (len (frame m) - len (frame m)) (WriteData (Ptr m)) (Ok ()) s)
      as (s1 & E & Hst1 & Hcl); [intros q Hq; by apply live_WriteData|by split|].
    rewrite (Hcall _ _ E).
    assert (w_wr (q_data (client.conn s1)) = advance (w_wr (q_data (client.conn s))) (frame m)) as Hadv.
    { unfold client.call, io_zoom, WriteData, quicConn_Conn, quic_on_data, io_zoom, wire_write, io_zoom in E.
      rewrite Hd, WriteMessage_ok in E by done. by injection E as <-. }
    apply (IH s1 (d ++ frame m) 0); [done|done|by rewrite Z.sub_diag in Hst1|done|by rewrite Hadv|].
    intros Hf. apply Ha. rewrite Hadv in Hf. unfold accepts, advance in *. cbn [wr_room] in Hf.
    destruct (wr_room (w_wr (q_data (client.conn s)))) as [k|]; [|done]. cbn [fmap option_fmap option_map] in Hf. lia.
  - assert (client.call (WriteData (Ptr m)) s = None) as E.
    { unfold client.call, io_zoom, WriteData, quicConn_Conn, quic_on_data, io_zoom. by rewrite wire_write_blocks. }
    unfold io_bind, io_wrap. by rewrite E.
Qed.

(** The exchange, up to the resend of the batches above [sq]. *)
Lemma exchange_starts n hist last sq rest co nc nd s :
  online last (frame (SequenceHeader sq) ++ rest) co [] nc nd s → is_uint 64 sq →
  sender_ok n (client.cl_sendSeq (client.cl s)) (client.cl_buf (client.cl s)) hist → fit hist →
  ∃ es s1, client.handleSequenceExchange s = client.resend es s1 ∧ client.cl s1 = client.cl s ∧
    online last rest co [] nc nd s1 ∧ q_data (client.conn s1) = q_data (client.conn s) ∧
    let ms := (λ e, Data (catchup.seq e) (catchup.payload e)) <$> es in
    ms = run_from (start n hist sq) hist ∧ Forall msg_wf ms ∧ Forall (λ m, sendable m = true) ms.
Proof.
  intros Hs Hu Hso Hfit. unfold client.handleSequenceExchange.
  destruct (online_call last _ co [] nc nd rest co [] nc nd ReadControl (Ok (SequenceHeader sq)) s
    (λ q Hq, live_ReadControl last (SequenceHeader sq) rest co [] nc nd q Hq Hu eq_refl) Hs) as (s1 & Hr & Hs1 & Hcl1).
  rewrite (io_wrap_bind_ok _ _ _ _ _ _ Hr), client.get_bind. rewrite Hcl1.
  destruct (sender_replay n _ _ hist sq Hso) as (es & -> & Hrun); [apply Hu|]. rewrite io_bind_lift.
  rewrite run_from_start in Hrun. pose proof (start_range n hist sq) as Hst.
  exists es, s1. split; [done|]. split; [done|]. split; [done|]. split.
  { apply client.call_conn in Hr as (x & Hr & ->). by zoomed Hr. }
  cbn zeta. rewrite Hrun. split; [done|]. split; [|by apply run_sendable].
  apply data_run_wf; [lia|]. rewrite len_drop. destruct Hso as (_ & Hl & _). lia.
Qed.

Lemma len_frame_Resize r c : len (frame (Resize r c)) = 9.
Proof. unfold frame. rewrite frame_bytes_app, !len_app, len_be_put. change (payload_of (Resize r c)) with (be_put 2 r ++ be_put 2 c).
  by rewrite len_app, !len_be_put. Qed.

Lemma resize_total last ci co d nc nd size s :
  online last ci co d nc nd s → 9 <= nc → panics size = false →
  ∃ co' nc' s', client.sendResize size s = Some (Ok (), s') ∧ online last ci (co ++ co') d nc' nd s'.
Proof.
  intros Hs Hn Hp. unfold client.sendResize. rewrite client.get_bind.
  assert (∃ co' nc' s', Some (Ok (), s) = Some (Ok (), s') ∧ online last ci (co ++ co') d nc' nd s') as Hnone.
  { exists [], nc, s. split; [done|]. by rewrite app_nil_r. }
  destruct (_ <? 0); [exact Hnone|]. destruct size as [[cols rows]|e|p]; [|exact Hnone|done].
  set (m := Resize (uint16 rows) (uint16 cols)).
  destruct (online_call last ci co d nc nd ci (co ++ frame m) d (nc - len (frame m)) nd (WriteControl (Ptr m)) (Ok ()) s)
    as (s1 & Hc & Hs1 & _); [|done|].
  { intros q Hq. apply live_WriteControl; [done|by split; apply uint16_range|done|]. unfold m. rewrite len_frame_Resize. lia. }
  rewrite (io_try_ok _ _ _ _ _ Hc). by eexists _, _, s1.
Qed.

(** Given the session's number and a window for its backlog, the client
    finishes. *)
Lemma set_up_total n hist last sq nc TERM size now s :
  let d := frames (run_from (start n hist sq) hist) in
  online last (frame (SequenceHeader sq)) [] [] nc (len d) s → is_uint 64 sq →
  sender_ok n (client.cl_sendSeq (client.cl s)) (client.cl_buf (client.cl s)) hist → fit hist →
  sendable (TerminalInfo TERM) = true → len (frame (TerminalInfo TERM)) + 9 <= nc → panics size = false →
  ∃ co nc' s', client.set_up TERM (Ok ()) size now s = Some (Ok client.Enter, s') ∧
    online last [] (frame (TerminalInfo TERM) ++ co) d nc' 0 s'.
Proof.
  intros d Hs Hu Hso Hfit Ht Hn Hp. unfold client.set_up. rewrite client.modify_bind. set (s0 := client.set_cl _ s).
  destruct (exchange_starts n hist last sq [] [] nc (len d) s0) as (es & s1 & He & Hcl1 & Hs1 & _ & Hms & Hwf & Hse);
    [by rewrite app_nil_r|done..|].
  destruct (resend_total last [] [] [] nc es s1) with (nd := len d) as (s2 & Hre & Hcl2 & Hs2); [done|done|by rewrite Hms|done|].
  rewrite Hms in Hs2. cbn [app] in Hs2. fold d in Hs2. rewrite Z.sub_diag in Hs2. rewrite <-He in Hre.
  rewrite (io_try_ok _ _ _ _ _ Hre). unfold client.sendTerminalInfo.
  destruct (online_call last [] [] d nc 0 [] (frame (TerminalInfo TERM)) d (nc - len (frame (TerminalInfo TERM))) 0
    (WriteControl (Ptr (TerminalInfo TERM))) (Ok ()) s2) as (s3 & Hw & Hs3 & Hcl3); [|done|].
  { intros q Hq. apply (live_WriteControl last (TerminalInfo TERM) [] [] d nc 0 q); [done..|lia]. }
  rewrite (io_try_ok _ _ _ _ _ Hw), client.get_bind.
  destruct (resize_total last [] _ d _ 0 size s3 Hs3 ltac:(lia) Hp) as (co & nc' & s4 & Hr & Hs4).
  assert ((if 0 <=? client.cl_stdinFd (client.cl s3) then Ok () else Ok ()) = Ok ()) as -> by by destruct (_ <=? _).
  rewrite (io_bind_ok _ _ _ _ _ Hr), client.modify_bind. eexists co, nc', _. split; [reflexivity|]. exact Hs4.
Qed.

(** Without the window it does not, and has not named its terminal. *)
Lemma set_up_blocks n hist last sq nc nd TERM size now s :
  online last (frame (SequenceHeader sq)) [] [] nc nd s → 0 <= nd → is_uint 64 sq →
  sender_ok n (client.cl_sendSeq (client.cl s)) (client.cl_buf (client.cl s)) hist → fit hist →
  wr_fin (w_wr (q_data (client.conn s))) = None →
  ¬ accepts (w_wr (q_data (client.conn s))) (len (frames (run_from (start n hist sq) hist))) →
  client.set_up TERM (Ok ()) size now s = None.
Proof.
  intros Hs Hnd Hu Hso Hfit Hfin Ha. unfold client.set_up. rewrite client.modify_bind. set (s0 := client.set_cl _ s).
  destruct (exchange_starts n hist last sq [] [] nc nd s0) as (es & s1 & He & Hcl1 & Hs1 & Hd & Hms & Hwf & Hse);
    [by rewrite app_nil_r|done..|].
  unfold io_bind at 1, io_try at 1. rewrite He, (resend_blocks last [] [] [] nc nd es s1); try done.
  - by rewrite Hd.
  - by rewrite Hd, Hms.
Qed.

(** ** Properties *)

Lemma accepted_feed {P : Type} b (S : session.Session (C := quicConn) (P := P)) y :
  session.accepted False S y → session.accepted False S (feed b y).
Proof.
  intros ((cs & Hc & ms & Hd & Hms) & Hu & Hh). split; [|by split]. exists cs. split; [by apply (wire_sent_wr (q_control y))|].
  by exists ms.
Qed.

Lemma len_frame_SequenceHeader q : len (frame (SequenceHeader q)) = 13.
Proof. unfold frame. rewrite frame_bytes_app, !len_app, len_be_put. change (payload_of (SequenceHeader q)) with (be_put 8 q). by rewrite len_be_put. Qed.

(** A new connection, for a session that has run so far: what handling it does
    up to the handshake. *)
Lemma new_conn_handled {P : Type} `{PtyLib P} SHELL environ cfg N out
    (S : session.Session (C := quicConn) (P := P)) l i y last ci nc nd now :
  session.reach (C := quicConn) (P := P) SHELL environ False cfg N out S l → N + 1 < 2 ^ 64 →
  session.s_conns S !! i = None → session.accepted False S y → live last ci [] [] nc nd y → 13 <= nc →
  is_uint 64 last ∧
  ∃ S' hist', session.handleNewConn SHELL environ i now (session.set_conns (<[i := y]> (session.s_conns S)) S) =
      session.await_terminal SHELL environ i S' ∧
    List.concat hist' = out ∧ fit hist' ∧ sender_ok (session.ReplaySize cfg) (session.s_sendSeq S') (session.s_buf S') hist' ∧
    session.s_ptmx S' = session.s_ptmx S ∧ session.s_cfg S' = session.s_cfg S ∧
    ∀ nd, accepts (w_wr (q_data y)) nd →
    standing i last ci (frame (SequenceHeader (session.s_recvSeq S))) [] (nc - 13) nd S'.
Proof.
  intros Hreach HN Hi Hacc Hy Hnc.
  apply (session.reach_inv _ _ _ (session.ReplaySize cfg) []) in Hreach as [_ Hinv]; [|done|done|lia].
  assert (session.s_conn S ≠ Some i) as Hni.
  { intros Hc. destruct Hinv as (h & _ & Hbase & _). apply (session.b_ptr _ _ _ _ _ Hbase) in Hc. rewrite Hi in Hc. by destruct Hc. }
  pose proof (session.inv_accept False _ [] N out S i y Hinv Hi Hacc) as (h & _ & Hinv').
  assert (is_uint 64 (session.s_recvSeq S)) as Hu by apply (session.b_recv _ _ _ _ _ (proj1 Hinv')).
  split.
  { destruct Hacc as (_ & Hua & _). simpl in Hua. by rewrite (lv_last _ _ _ _ _ _ _ Hy) in Hua. }
  destruct (new_conn_starts SHELL environ (session.ReplaySize cfg) N out h i y now
    (session.set_conns (<[i := y]> (session.s_conns S)) S)) as (S1 & h' & -> & Hout & Hfit & Hso & Hq & Hp & Hcf & Hci & Hcy);
    [done|destruct Hinv' as (_ & _ & _ & Hl & _); lia|done|apply lookup_insert_eq|].
  simpl in Hq, Hp, Hcf. destruct (handshake_starts SHELL environ i last ci nc nd S1) as (S2 & -> & (cs & ->) & Hdata & Hst2);
    [by rewrite Hq|by rewrite len_frame_SequenceHeader|by split; [|exists y]|].
  rewrite len_frame_SequenceHeader, Hq in Hst2. eexists _, h'. do 6 (split; [done|]). intros nd' Hr.
  destruct (Hdata _ Hcy) as (q' & Hq' & Hd). destruct Hst2 as (Hi2 & q2 & Hq2 & Hlq). split; [done|]. exists q2. split; [done|].
  eapply live_room; [done|]. assert (q2 = q') as -> by congruence. by rewrite Hd.
Qed.

(** C17: Over QUIC a reconnect goes through unless flow control stops it.  Let
    the session have reached any state and the client have any backlog.  On a
    new connection that delivers nothing, the session has written its number,
    and nothing else, when it gives up.  Given exactly these bytes, a client
    whose data stream takes its backlog enters its loop, with the backlog
    written; and given exactly what that client has then written to the control
    stream, a session whose data stream takes its own backlog keeps the
    connection, with that backlog written.  When the client's backlog exceeds
    the window of the data stream, which the session does not read before it
    has the terminal name, the client is blocked in the resend. *)
Theorem quic_reconnect_succeeds {P : Type} `{PtyLib P} SHELL environ cfg N out
    (S : session.Session (C := quicConn) (P := P)) l i y last nc now p
    n hist (s : st) ld mc TERM size now' :
  session.reach (C := quicConn) (P := P) SHELL environ False cfg N out S l → N + 1 < 2 ^ 64 →
  session.s_conns S !! i = None → session.accepted False S y → live last [] [] [] nc 0 y → 13 <= nc →
  readable (TerminalInfo TERM) = true →
  (session.s_ptmx S = Some p ∨
   session.s_ptmx S = None ∧ spawnPTY SHELL environ (session.SessionID (session.s_cfg S)) TERM = Ok p) →
  (∃ r p', bouncePTYSize p = Some (r, p') ∧ panics r = false) →
  sender_ok n (client.cl_sendSeq (client.cl s)) (client.cl_buf (client.cl s)) hist → fit hist →
  online ld [] [] [] mc 0 s → len (frame (TerminalInfo TERM)) + 9 <= mc → panics size = false →
  let accept y := session.handleNewConn SHELL environ i now (session.set_conns (<[i := y]> (session.s_conns S)) S) in
  let told := frame (SequenceHeader (session.s_recvSeq S)) in
  let backlog := frames (run_from (start n hist (session.s_recvSeq S)) hist) in
  (∃ S0 q0, accept y = Some (Ok (), S0) ∧ session.s_conn S0 = None ∧ session.s_conns S0 !! i = Some q0 ∧
     wr_out (w_wr (q_control q0)) = told ∧ wr_out (w_wr (q_data q0)) = []) ∧
  (accepts (w_wr (q_data (client.conn s))) (len backlog) →
   ∃ s', client.set_up TERM (Ok ()) size now' (fed told s) = Some (Ok client.Enter, s') ∧
     wr_out (w_wr (q_data (client.conn s'))) = backlog ∧
     let named := wr_out (w_wr (q_control (client.conn s'))) in
     ∃ shist, List.concat shist = out ∧
       let replayed := frames (run_from (start (session.ReplaySize cfg) shist last) shist) in
       (accepts (w_wr (q_data y)) (len replayed) →
        ∃ S' q', accept (feed named y) = Some (Ok (), S') ∧ session.s_conn S' = Some i ∧
          is_Some (session.s_ptmx S') ∧ session.s_conns S' !! i = Some q' ∧
          wr_out (w_wr (q_control q')) = told ∧ wr_out (w_wr (q_data q')) = replayed)) ∧
  (¬ accepts (w_wr (q_data (client.conn s))) (len backlog) → wr_fin (w_wr (q_data (client.conn s))) = None →
   client.set_up TERM (Ok ()) size now' (fed told s) = None).
Proof.
  intros Hreach HN Hi Hacc Hy Hnc Hrd Hp Hb Hso Hfit Hs Hmc Hsz accept told backlog.
  assert (is_uint 64 (session.s_recvSeq S)) as Hu.
  { apply (session.reach_inv _ _ _ (session.ReplaySize cfg) []) in Hreach as [_ (h & _ & Hbase & _)]; [apply Hbase|done|done|lia]. }
  apply (live_feed _ _ _ _ _ _ told) in Hs as Hfed.
  split_and!.
  - destruct (new_conn_handled SHELL environ cfg N out S l i y last [] nc 0 now) as (_ & S1 & h & He & _ & _ & _ & _ & _ & Hst); [done..|].
    destruct (await_unanswered SHELL environ i last _ _ _ _ (Hst 0 (proj2 (lv_data _ _ _ _ _ _ _ Hy)))) as (S0 & q0 & Ha & Hq0 & Hn & Ho). exists S0, q0.
    unfold accept. by rewrite He.
  - intros Hroom. destruct (set_up_total n hist ld (session.s_recvSeq S) mc TERM size now' (fed told s)) as (co & nc' & s' & Hup & Hon);
      [by eapply live_room|done..|by apply readable_sendable|done|done|].
    exists s'. split; [done|]. split; [apply Hon|]. cbn zeta. rewrite (proj1 (lv_out _ _ _ _ _ _ _ Hon)).
    set (named := frame (TerminalInfo TERM) ++ co).
    assert (∀ nd, accepts (w_wr (q_data y)) nd → live last named [] [] nc nd (feed named y)) as Hlive.
    { intros nd Hr. apply (live_feed last [] [] [] nc nd named y). by eapply live_room. }
    apply accepted_feed with (b := named) in Hacc.
    destruct (new_conn_handled SHELL environ cfg N out S l i (feed named y) last named nc 0 now) as (Hl & S1 & h & He & Hout & Hfs & Hss & Hpt & Hcf & Hst);
      [done..|apply Hlive, Hy|done|].
    exists h. split; [done|]. intros Hr.
    destruct (await_total SHELL environ (session.ReplaySize cfg) h i last TERM co told (nc - 13) S1 p) as (S' & Ha & Hpt' & Hci & q' & Hq' & Hlq);
      [by apply Hst|done..|apply Hl|by rewrite Hpt, Hcf|done|].
    exists S', q'. unfold accept. rewrite He. split_and!; try done; apply Hlq.
  - intros Hroom Hfin. apply (set_up_blocks n hist ld (session.s_recvSeq S) mc 0); try done.
Qed.

(** ** An instance

    The situation of [Reconnect], over QUIC: a new session, and a client with
    one batch that the session does not have; the peer grants a window of
    [room] bytes on the data stream. *)

Definition ex_quic (room : Z) : quicConn :=
  QuicConn (Wire (Reader [] None) (Writer [] (Some 1000) None) false false 0)
    (Wire (Reader [] None) (Writer [] (Some room) None) false false 0) 0 false None.
Definition ex_st (room : Z) : st :=
  client.St
    (client.MkClient client.ex_cfg reconnect.ex_buf escape.NewEscapeProcessor 1 0 (Writer [] None None) (-1) true)
    (ex_quic room) (coalesce.MkCoalescer [] (MkTimer None) false) [].
Definition ex_pty : memPty := MemPty (MkWinsize 24 80 0 0) (Writer [] None None) false.

Lemma ex_live room : 0 <= room → live 0 [] [] [] 1000 0 (ex_quic room).
Proof. by split. Qed.

(** With 1000 bytes both ends finish; with 10 the client is blocked. *)
Lemma quic_reconnect_succeeds_witness :
  ∃ S : session.Session (C := quicConn) (P := memPty), session.New session.ex_cfg 0 = Some S ∧
    let accept y := session.handleNewConn "" [] 0 Second (session.set_conns (<[0%nat := y]> (session.s_conns S)) S) in
    let told := frame (SequenceHeader 0) in
    let backlog := frames [Data 1 [x61]] in
    (∃ S0 q0, accept (ex_quic 1000) = Some (Ok (), S0) ∧ session.s_conn S0 = None ∧ session.s_conns S0 !! 0%nat = Some q0 ∧
       wr_out (w_wr (q_control q0)) = told ∧ wr_out (w_wr (q_data q0)) = []) ∧
    (∃ s', client.set_up "xterm" (Ok ()) (Err EOF) 0 (fed told (ex_st 1000)) = Some (Ok client.Enter, s') ∧
       wr_out (w_wr (q_data (client.conn s'))) = backlog ∧
       let named := wr_out (w_wr (q_control (client.conn s'))) in
       ∃ shist, List.concat shist = [] ∧
         let replayed := frames (run_from (start 0 shist 0) shist) in
         (accepts (w_wr (q_data (ex_quic 1000))) (len replayed) →
          ∃ S' q', accept (feed named (ex_quic 1000)) = Some (Ok (), S') ∧ session.s_conn S' = Some 0%nat ∧
            is_Some (session.s_ptmx S') ∧ session.s_conns S' !! 0%nat = Some q' ∧
            wr_out (w_wr (q_control q')) = told ∧ wr_out (w_wr (q_data q')) = replayed)) ∧
    client.set_up "xterm" (Ok ()) (Err EOF) 0 (fed told (ex_st 10)) = None.
Proof.
  destruct session.ex_reach0 as (S & Hr & Hcs & Hn). exists S. split; [exact Hn|]. intros accept told backlog.
  assert (session.s_recvSeq S = 0 ∧ session.s_ptmx S = None ∧ session.SessionID (session.s_cfg S) = "s1"%string) as (Hq & Hp & Hid).
  { clear -Hn. unfold session.New in Hn. destruct (coalesce.New 0); [|done]. injection Hn as <-. done. }
  assert (session.accepted False S (ex_quic 1000)) as Hacc.
  { split; [|split; [done|done]]. exists []. apply quic_sent_frames; [constructor|done..]. }
  assert (∃ r p', bouncePTYSize ex_pty = Some (r, p') ∧ panics r = false) as Hb.
  { exists (Ok ()), (MemPty (MkWinsize 23 80 0 0) (Writer [] None None) false). split; [vm_compute; reflexivity|done]. }
  assert (spawnPTY "" [] (session.SessionID (session.s_cfg S)) "xterm" = Ok ex_pty) as Hsp by by rewrite Hid.
  assert (S.(session.s_conns) !! 0%nat = None) as Hi by by rewrite Hcs.
  assert (fit [[x61]]) as Hfit by by repeat constructor.
  pose proof (quic_reconnect_succeeds "" [] session.ex_cfg 0 [] S (session.Locals false false 0) 0%nat (ex_quic 1000) 0 1000 Second
    ex_pty 0 [[x61]] (ex_st 1000) 0 1000 "xterm" (Err EOF) 0) as Hfits.
  pose proof (quic_reconnect_succeeds "" [] session.ex_cfg 0 [] S (session.Locals false false 0) 0%nat (ex_quic 1000) 0 1000 Second
    ex_pty 0 [[x61]] (ex_st 10) 0 1000 "xterm" (Err EOF) 0) as Hblocks.
  rewrite Hq in Hfits, Hblocks. pose proof reconnect.ex_stored as Hso.
  destruct Hfits as (Hfirst & Hok & _); try done; try (by right); try (by apply ex_live); [].
  destruct Hblocks as (_ & _ & Hblocked); try done; try (by right); try (by apply ex_live); [].
  split; [exact Hfirst|]. split; [apply Hok; vm_compute; discriminate|].
  apply Hblocked; [|done]. vm_compute. intros Hc. by apply Hc.
Defined.
End progress.
