(* ===== verification/Bootstrap.v ===== *)
(** * Bootstrap over ssh ([internal/client/ssh.go], [internal/client/install.go])

    Starting the session on the remote host, and installing the program there.
    The ssh program, the processes, the network and the file system are an
    interface, [HostLib]; [HostLaws] states what the code relies on, and a
    simulated remote host shows that the laws can hold.  What the theorems
    show: no process is left behind on any path, and no file that the system
    would let go of ([os.Remove] may fail), when the program is installed,
    and which failure is reported as a missing installation. *)

From S2P Require Import Prelude GoIO GoStrings Auth Catchup.
Import gostrings.
Open Scope go_scope.

Module bootstrap.

Definition sshTimeout : Z := 10 * Second.
Definition remoteGoetPath : string := "~/.local/bin/goet".
Definition releaseURLBase : string := "https://github.com/chronologos/goet/releases/latest/download".
Definition errNotInstalled : error := ErrNew "goet may not be installed on remote".

Record SSHResult : Type := MkSSHResult { Host : string; Port : Z; res_Passkey : bytes; res_SessionID : string }.

(** ** The libraries and the operating system

    A started ssh process is named by a number; [proc_Stdout] is what it will
    write to its standard output, and [proc_late] tells whether [sshTimeout]
    passes before the line is there.  An [http_Get] gives the status and the
    body.  The timeouts of the commands are among their failures.  [rand_Read]
    is what the next call of [rand.Read] gives, [rand_used] the world after it. *)
Class HostLib (W : Type) : Type := {
  rand_Read : W → Z → res bytes;
  rand_used : W → W;
  cmd_StdinPipe : io W ();
  cmd_StdoutPipe : io W ();
  ssh_Start : list string → io W nat;
  proc_Write : nat → bytes → io W ();
  proc_CloseStdin : nat → io W ();
  proc_Stdout : nat → W → reader;
  proc_late : nat → W → bool;
  proc_KillWait : nat → io W ();
  ssh_CombinedOutput : list string → io W bytes;
  ssh_Run : list string → bytes → io W ();
  os_Executable : io W string;
  os_Open : string → io W bytes;
  http_Get : string → io W (Z * reader);
  os_CreateTemp : string → io W string;
  io_Copy : string → reader → io W ();
  os_Remove : string → io W ();
}.

(** ** Parsing *)

(** [parseDestination]: user and host. *)
Definition parseDestination (dest : string) : string * string :=
  let l := string_bytes dest in
  let i := LastIndex l x40 in
  if 0 <=? i
  then (bytes_string (take (Z.to_nat i) l), bytes_string (drop (Z.to_nat (i + 1)) l))
  else (""%string, dest).

(** [parseUnameOutput]: GOOS and GOARCH. *)
Definition parseUnameOutput (output : bytes) : res (string * string) :=
  match Fields output with
  | [kernel; machine] =>
    goos ← (if bool_decide (kernel = string_bytes "Linux") then Ok "linux"
            else if bool_decide (kernel = string_bytes "Darwin") then Ok "darwin"
            else Err (ErrNew "unsupported OS: %q"))%string;
    goarch ← (if bool_decide (machine = string_bytes "x86_64") then Ok "amd64"
              else if bool_decide (machine = string_bytes "aarch64") || bool_decide (machine = string_bytes "arm64")
              then Ok "arm64"
              else Err (ErrNew "unsupported architecture: %q"))%string;
    Ok (goos, goarch)
  | _ => Err (ErrNew "unexpected uname output: %q")
  end.

Definition parseVersionOutput (output : bytes) : res string :=
  let bad := Err (ErrNew "unexpected version output: %q") in
  match Fields output with
  | f0 :: f1 :: fs =>
    if negb (bool_decide (f0 = string_bytes "goet")) then bad else
    match fs with
    | [f2] => Ok (bytes_string (Trim f2 (string_bytes "()")))
    | [] => Ok (bytes_string f1)
    | _ => bad
    end
  | _ => bad
  end.

Definition isNotInstalledError (err : error) : bool := errors_Is err errNotInstalled.

Definition sshArgs (user host : string) : list string :=
  let args := if bool_decide (user = ""%string) then [] else ["-l"%string; user] in
  args ++ ["-o"; "BatchMode=yes"; host]%string.

Section bootstrap.
Context {W : Type} `{HostLib W}.
(** [runtime.GOOS], [runtime.GOARCH] and [version.Commit]. *)
Variables (GOOS GOARCH Commit : string).

(** ** Installing *)

Definition sshRun (user host command : string) : io W bytes :=
  out <- io_wrap "ssh command %q: %w" (ssh_CombinedOutput (sshArgs user host ++ [command])) ;;
  io_ret (TrimSpace out).

Definition detectRemoteArch (user host : string) : io W (string * string) :=
  out <- io_wrap "detect remote arch: %w" (sshRun user host "uname -sm") ;;
  io_lift (parseUnameOutput out).

Definition transferBinary (user host localPath : string) : io W () :=
  f <- io_wrap "open binary: %w" (os_Open localPath) ;;
  let installCmd := ("mkdir -p ~/.local/bin && cat > " +:+ remoteGoetPath +:+ " && chmod +x " +:+ remoteGoetPath)%string in
  io_wrap "transfer binary to remote: %w" (ssh_Run (sshArgs user host ++ [installCmd]) f).

(** [downloadRelease]: the file and the function that removes it. *)
Definition downloadRelease (goos goarch : string) : io W (string * io W ()) :=
  let url := (releaseURLBase +:+ "/goet-" +:+ goos +:+ "-" +:+ goarch)%string in
  resp <- io_wrap "download release: %w" (http_Get url) ;;
  if negb (resp.1 =? 200) then io_lift (Err (ErrNew "download release: HTTP %d from %s")) else
  tmpFile <- io_wrap "create temp file: %w" (os_CreateTemp "goet-download-*") ;;
  copied <- io_try (io_Copy tmpFile resp.2) ;;
  match copied with
  | Err err => io_try (os_Remove tmpFile) ;; io_lift (Err (ErrWrap "write release to temp file: %w" err))
  | _ => io_ret (tmpFile, io_try (os_Remove tmpFile) ;; io_ret ())
  end.

(** [defer cleanup()] runs when [transferBinary] has returned. *)
Definition installRemote (user host : string) : io W () :=
  arch <- detectRemoteArch user host ;;
  let '(goos, goarch) := arch in
  if bool_decide (goos = GOOS) && bool_decide (goarch = GOARCH) then
    binaryPath <- io_wrap "get local executable path: %w" os_Executable ;;
    transferBinary user host binaryPath
  else
    rel <- downloadRelease goos goarch ;;
    let '(binaryPath, cleanup) := rel in
    r <- io_try (transferBinary user host binaryPath) ;;
    cleanup ;;
    io_lift r.

Definition getRemoteVersion (user host : string) : io W string :=
  out <- io_try (sshRun user host "goet --version") ;;
  match out with
  | Ok out => io_lift (parseVersionOutput out)
  | _ =>
    out <- io_try (sshRun user host (remoteGoetPath +:+ " --version")) ;;
    match out with
    | Ok out => io_lift (parseVersionOutput out)
    | _ => io_lift (Err errNotInstalled)
    end
  end.

(** ** Starting the session *)

(** What the goroutine of [readPort] sends on [ch]; [None]: nothing. *)
Definition scan_port (stdout : reader) : option (res Z) :=
  match Scan stdout with
  | None => None
  | Some (Ok (Some text)) =>
    let line := TrimSpace text in
    Some (match Atoi (bytes_string line) with
          | (port, None) => Ok port
          | (_, Some _) => Err (ErrNew "invalid port from session: %q")
          end)
  | Some (Ok None) => Some (Err (ErrWrap "ssh stdout closed before port received: %w" errNotInstalled))
  | Some (Err err) => Some (Err (ErrWrap "read ssh stdout: %w" err))
  | Some (Panicked p) => Some (Panicked p)
  end.

Definition readPort (late : bool) (stdout : reader) : res Z :=
  match scan_port stdout with
  | Some r => if late then Err (ErrNew "timeout (%v) waiting for session port from ssh") else r
  | None => Err (ErrNew "timeout (%v) waiting for session port from ssh")
  end.

Definition killAndReap (cmd : nat) : io W () := io_try (proc_KillWait cmd) ;; io_ret ().

(** The command line given to ssh. *)
Definition session_args (user host goetPath sessionID : string) (replaySize : Z) : list string :=
  let args := sshArgs user host ++ [goetPath; "session"; "-f"; sessionID; "-p"; "0"]%string in
  if (0 <? replaySize) && negb (replaySize =? catchup.DefaultBufferSize)
  then args ++ ["-replay-size"%string; Itoa replaySize] else args.

Definition spawnSSH (user host goetPath : string) (replaySize : Z) : io W SSHResult :=
  passkey <- io_wrap "generate passkey: %w" (λ w, Some (GeneratePasskey (rand_Read w), rand_used w)) ;;
  let passkeyHex := hex_EncodeToString passkey in
  first4 <- io_lift (go_slice passkey 0 4) ;;
  let sessionID := hex_EncodeToString first4 in
  let args := session_args user host goetPath sessionID replaySize in
  io_wrap "ssh stdin pipe: %w" cmd_StdinPipe ;;
  io_wrap "ssh stdout pipe: %w" cmd_StdoutPipe ;;
  cmd <- io_wrap "start ssh: %w" (ssh_Start args) ;;
  written <- io_try (proc_Write cmd (string_bytes passkeyHex ++ [newline])) ;;
  match written with
  | Err err => killAndReap cmd ;; io_lift (Err (ErrWrap "write passkey to ssh stdin: %w" err))
  | _ =>
    io_try (proc_CloseStdin cmd) ;;
    port <- (λ w, Some (Ok (readPort (proc_late cmd w) (proc_Stdout cmd w)), w)) ;;
    match port with
    | Ok port => killAndReap cmd ;; io_ret (MkSSHResult host port passkey sessionID)
    | Err err => killAndReap cmd ;; io_lift (Err err)
    | Panicked p => io_lift (Panicked p)
    end
  end.

Definition spawnWithInstall (user host : string) (replaySize : Z) : io W SSHResult :=
  remoteVer <- io_try (getRemoteVersion user host) ;;
  let upToDate := match remoteVer with Ok v => bool_decide (v = Commit) | _ => false end in
  if upToDate then spawnSSH user host "goet" replaySize
  else
    io_wrap "install goet on remote: %w" (installRemote user host) ;;
    io_wrap "connect after install: %w" (spawnSSH user host remoteGoetPath replaySize).

Definition SpawnSSH (destination : string) (install : bool) (replaySize : Z) : io W SSHResult :=
  let '(user, host) := parseDestination destination in
  if install then spawnWithInstall user host replaySize
  else
    res <- io_try (spawnSSH user host "goet" replaySize) ;;
    match res with
    | Err err =>
      if isNotInstalledError err
      then io_lift (Err (ErrNew "goet is not installed on %s\n  Run: goet --install %s"))
      else io_lift (Err err)
    | _ => io_lift res
    end.
End bootstrap.

(** ** What the code relies on

    [temp_files] and [running] are the temporary files and the ssh processes
    of the program; no call panics; a process that is killed and waited for is
    gone, and so is a file that was removed; a removal that fails leaves the
    file. *)

Class HostState (W : Type) : Type := { temp_files : W → gset string; running : W → gset nat }.

#[export] Instance host_view {W} `{HostState W} : View W (gset string * gset nat) := λ w, (temp_files w, running w).

Class HostLaws (W : Type) `{HostLib W, HostState W} : Prop := {
  rand_left w : view (rand_used w) = view w;
  rand_panics w n : panics (rand_Read w n) = false;
  rand_len w n b : 0 <= n → rand_Read w n = Ok b → len b = n;
  StdinPipe_calm : calm same cmd_StdinPipe;
  StdoutPipe_calm : calm same cmd_StdoutPipe;
  Start_calm args : calm (λ x r x', match r with
    | Ok p => (p ∉ x.2) ∧ x' = (x.1, {[p]} ∪ x.2) | _ => x' = x end) (ssh_Start args);
  Write_calm p b : calm same (proc_Write p b);
  CloseStdin_calm p : calm same (proc_CloseStdin p);
  KillWait_calm p : calm (λ x r x', x' = (x.1, x.2 ∖ {[p]})) (proc_KillWait p);
  CombinedOutput_calm args : calm same (ssh_CombinedOutput args);
  Run_calm args f : calm same (ssh_Run args f);
  Executable_calm : calm same os_Executable;
  Open_calm f : calm same (os_Open f);
  Get_calm url : calm same (http_Get url);
  CreateTemp_calm pat : calm (λ x r x', match r with
    | Ok f => (f ∉ x.1) ∧ x' = ({[f]} ∪ x.1, x.2) | _ => x' = x end) (os_CreateTemp pat);
  Copy_calm f b : calm same (io_Copy f b);
  Remove_calm f : calm (λ x r x', match r with
    | Ok _ => x' = (x.1 ∖ {[f]}, x.2) | _ => x' = x end) (os_Remove f);
}.

(** ** Lemmas: nothing is left behind *)

Section calm.
Context {W : Type} `{HostLaws W}.

Lemma sshRun_calm user host command : calm same (sshRun user host command).
Proof. apply calm_bind_same; [apply calm_wrap_same, CombinedOutput_calm|intros; apply calm_ret]. Qed.

Lemma res_bind_no_panic {A B} (r : res A) (k : A → res B) :
  panics r = false → (∀ a, panics (k a) = false) → panics (r ≫= k) = false.
Proof. destruct r; cbn; auto. Qed.

Lemma parseUnameOutput_no_panic out : panics (parseUnameOutput out) = false.
Proof.
  unfold parseUnameOutput. destruct (Fields out) as [|kernel [|machine [|]]]; try done.
  repeat (apply res_bind_no_panic; [by repeat case_match|intros]). done.
Qed.

Lemma parseVersionOutput_no_panic out : panics (parseVersionOutput out) = false.
Proof. unfold parseVersionOutput. by repeat case_match. Qed.

Lemma transferBinary_calm user host f : calm same (transferBinary user host f).
Proof.
  apply calm_bind_same; [apply calm_wrap_same, Open_calm|]. intros b. apply calm_wrap_same, Run_calm.
Qed.

Lemma getRemoteVersion_calm user host : calm same (getRemoteVersion user host).
Proof.
  apply calm_bind_same; [apply calm_try, sshRun_calm|]. intros out.
  assert (calm same (out <- io_try (sshRun user host (remoteGoetPath +:+ " --version")) ;;
    match out with Ok out => io_lift (parseVersionOutput out) | _ => io_lift (Err errNotInstalled) end)) as Hsecond.
  { apply calm_bind_same; [apply calm_try, sshRun_calm|]. intros [b| |]; [|by apply calm_lift..].
    apply calm_lift, parseVersionOutput_no_panic. }
  destruct out; [apply calm_lift, parseVersionOutput_no_panic|exact Hsecond..].
Qed.

(** What is left: nothing new, or one new file that [os.Remove] failed on. *)
Definition left_over {A} (x : gset string * gset nat) (r : res A) (x' : gset string * gset nat) : Prop :=
  x' = x ∨ ∃ f (w1 : W) e w2, (f ∉ x.1) ∧ view w1 = ({[f]} ∪ x.1, x.2) ∧
    os_Remove f w1 = Some (Err e, w2) ∧ x' = view w1.

(** Removing file [f], whatever comes of it. *)
Definition tries_to_remove (f : string) (cleanup : io W ()) : Prop :=
  ∀ w r w', cleanup w = Some (r, w') → r = Ok () ∧
    (view w' = ((view w).1 ∖ {[f]}, (view w).2) ∨
     view w' = view w ∧ ∃ e w2, os_Remove f w = Some (Err e, w2)).

Lemma calm_left {A} (c : io W A) : calm same c → calm left_over c.
Proof. intros Hc w r w' [Hp Hx]%Hc. by split; [|left]. Qed.

(** A download that succeeds leaves one new file and a function that tries to
    remove it; one that fails has tried. *)
Definition downloads (x : gset string * gset nat) (r : res (string * io W ())) (x' : gset string * gset nat) : Prop :=
  match r with
  | Ok (f, cleanup) => (f ∉ x.1) ∧ x' = ({[f]} ∪ x.1, x.2) ∧ tries_to_remove f cleanup
  | _ => left_over x r x'
  end.

Lemma remove_added (x : gset string * gset nat) f : f ∉ x.1 → (({[f]} ∪ x.1) ∖ {[f]}, x.2) = x.
Proof. intros Hf. destruct x as [t p]. cbn in *. f_equal. clear -Hf. set_solver. Qed.

Lemma kill_added (x : gset string * gset nat) p : p ∉ x.2 → (x.1, ({[p]} ∪ x.2) ∖ {[p]}) = x.
Proof. intros Hf. destruct x as [t q]. cbn in *. f_equal. clear -Hf. set_solver. Qed.

Lemma remove_tried f : tries_to_remove f (io_try (os_Remove f) ;; io_ret ()).
Proof.
  intros w r w'. unfold io_bind, io_try. destruct (os_Remove f w) as [[r1 w1]|] eqn:E; [|done].
  destruct (Remove_calm f _ _ _ E) as [Hp Hx]. destruct r1 as [[]|e|p]; [| |done]; intros [= <- <-]; (split; [done|]).
  - by left.
  - right. split; [done|]. by eexists _, _.
Qed.

(** The file that was added is removed, or it is left over. *)
Lemma removal_leaves {A} f cleanup (x : gset string * gset nat) w u w' (r : res A) :
  (f ∉ x.1) → view w = ({[f]} ∪ x.1, x.2) → tries_to_remove f cleanup → cleanup w = Some (u, w') →
  left_over x r (view w').
Proof.
  intros Hf Hx Hcl [_ Hw]%Hcl. destruct Hw as [-> |[-> (e & w2 & He)]].
  - left. rewrite Hx. exact (remove_added x f Hf).
  - right. by exists f, w, e, w2.
Qed.

Lemma downloadRelease_calm goos goarch : calm downloads (downloadRelease goos goarch).
Proof.
  apply calm_bind; [apply calm_wrap_same, Get_calm| |by intros; left]. intros [status body].
  destruct (negb _); [by apply calm_fail; intros; left|].
  intros w r w' (r1 & w1 & Hx & Hr)%(calm_bind_inv _ _ _ _ _ _ (calm_wrap _ _ _ (CreateTemp_calm _) (λ _ _ _, id))).
  destruct r1 as [f|e|p]; [|by destruct Hr as [-> ->]; split; [|left]|done]. destruct Hx as [Hf Hx].
  apply (calm_try_inv _ _ _ _ _ _ (Copy_calm f body)) in Hr as (r2 & w2 & Hp2 & Hx2 & Hr).
  unfold same in Hx2. rewrite Hx in Hx2. destruct r2 as [[]|err|p]; [| |done].
  - injection Hr as <- <-. split; [done|]. split; [done|]. split; [done|]. apply remove_tried.
  - assert (∃ w3, (io_try (os_Remove f) ;; io_ret ()) w2 = Some (Ok (), w3) ∧ r = Err (ErrWrap "write release to temp file: %w" err) ∧ w' = w3)
      as (w3 & H3 & -> & ->).
    { apply (calm_try_inv _ _ _ _ _ _ (Remove_calm f)) in Hr as Hr'. destruct Hr' as (r3 & w3 & Hp3 & _ & [= <- <-]).
      exists w3. split; [|done]. revert Hr. unfold io_bind, io_try.
      destruct (os_Remove f w2) as [[[]]|]; [..|done]; by intros [= <-]. }
    split; [done|]. simpl. by eapply (removal_leaves f); [exact Hf|exact Hx2|apply remove_tried|exact H3].
Qed.

Lemma installRemote_calm GOOS GOARCH user host : calm left_over (installRemote GOOS GOARCH user host).
Proof.
  apply calm_bind; [| |by intros; left].
  { apply calm_bind_same; [apply calm_wrap_same, sshRun_calm|].
    intros out. apply calm_lift, parseUnameOutput_no_panic. }
  intros [goos goarch]. destruct (_ && _).
  { apply calm_left, calm_bind_same; [apply calm_wrap_same, Executable_calm|intros; apply transferBinary_calm]. }
  intros w r w' (r1 & w1 & Hx & Hr)%(calm_bind_inv _ _ _ _ _ _ (downloadRelease_calm goos goarch)).
  destruct r1 as [[f cleanup]|e|p]; [|by destruct Hr as [-> ->]|done]. destruct Hx as (Hf & Hx & Hcl).
  apply (calm_try_inv _ _ _ _ _ _ (transferBinary_calm user host f)) in Hr as (r2 & w2 & Hp2 & Hx2 & Hr).
  apply io_bind_split in Hr as (u & w3 & Hc & Hr). pose proof (Hcl _ _ _ Hc) as [-> _]. injection Hr as <- <-.
  split; [done|]. unfold same in Hx2. by eapply removal_leaves; [exact Hf|by rewrite Hx2, Hx|exact Hcl|exact Hc].
Qed.

Lemma scan_port_no_panic stdout r : scan_port stdout = Some r → panics r = false.
Proof.
  unfold scan_port. destruct (Scan stdout) as [[[text|]|e|p]|] eqn:E; [| | | |done].
  - destruct (Atoi _) as [? []]; by intros [= <-].
  - by intros [= <-].
  - by intros [= <-].
  - by apply Scan_no_panic in E.
Qed.

Lemma readPort_no_panic late stdout : panics (readPort late stdout) = false.
Proof.
  unfold readPort. destruct (scan_port stdout) as [r|] eqn:E; [|done].
  destruct late; [done|]. by eapply scan_port_no_panic.
Qed.

Lemma killAndReap_does {B} p (k : () → io W B) :
  (∀ a, calm same (k a)) → does (λ x, (x.1, x.2 ∖ {[p]})) (killAndReap p ;; k ()).
Proof.
  intros Hk. apply does_bind_ret; [|done]. apply (does_try _ _ _ (λ x, x)); [apply KillWait_calm|].
  intros; apply calm_ret.
Qed.

(** Every path of [spawnSSH] from the start of the process kills it. *)
Lemma read_and_kill_does {A} p (read : W → res Z) (k : Z → A) :
  (∀ w, panics (read w) = false) →
  does (λ x, (x.1, x.2 ∖ {[p]}))
    (port <- (λ w, Some (Ok (read w), w)) ;;
     match port with
     | Ok port => killAndReap p ;; io_ret (k port)
     | Err err => killAndReap p ;; io_lift (Err err)
     | Panicked q => io_lift (Panicked q)
     end).
Proof.
  intros Hread w r w' Hr. rewrite io_read_bind in Hr. specialize (Hread w).
  destruct (read w) as [port|err|q]; [..|done].
  - exact (killAndReap_does p (λ _, io_ret (k port)) (λ _, calm_ret _) _ _ _ Hr).
  - exact (killAndReap_does p (λ _, io_lift (Err err)) (λ _, calm_lift (Err err) eq_refl) _ _ _ Hr).
Qed.

Lemma session_process_does {A} p (b : bytes) (rest : io W A) :
  does (λ x, (x.1, x.2 ∖ {[p]})) rest →
  does (λ x, (x.1, x.2 ∖ {[p]}))
    (written <- io_try (proc_Write p b) ;;
     match written with
     | Err err => killAndReap p ;; io_lift (Err (ErrWrap "write passkey to ssh stdin: %w" err))
     | _ => io_try (proc_CloseStdin p) ;; rest
     end).
Proof.
  intros Hrest. apply (does_try _ _ (λ x, x) (λ x, (x.1, x.2 ∖ {[p]}))); [apply Write_calm|].
  assert (does (λ x, (x.1, x.2 ∖ {[p]})) (io_try (proc_CloseStdin p) ;; rest)) as Hgo.
  { by apply (does_try _ _ (λ x, x) (λ x, (x.1, x.2 ∖ {[p]}))); [apply CloseStdin_calm|]. }
  intros [[]|err|q] Hp; [exact Hgo| |done].
  apply (killAndReap_does p (λ _, io_lift (Err (ErrWrap _ err)))). intros. by apply calm_lift.
Qed.

Lemma spawnSSH_calm user host goetPath size : calm same (spawnSSH user host goetPath size).
Proof.
  intros w r w' (r1 & w1 & E & Hr)%io_bind_split.
  unfold io_wrap in E. injection E as <- <-.
  destruct (GeneratePasskey (rand_Read w)) as [passkey|e|p] eqn:E; cbn [wrap_err] in Hr.
  2:{ destruct Hr as [-> ->]. split; [done|apply rand_left]. }
  2:{ exfalso. unfold GeneratePasskey in E. pose proof (rand_panics w PasskeySize).
      destruct (rand_Read w PasskeySize); cbn in *; congruence. }
  assert (len passkey = 32) as Hlen.
  { unfold GeneratePasskey in E. destruct (rand_Read w PasskeySize) as [b|e|p] eqn:E'; [|done..].
    injection E as <-. by eapply (rand_len w PasskeySize). }
  rewrite go_slice_head in Hr by lia. rewrite io_bind_lift in Hr.
  enough (panics r = false ∧ same (view (rand_used w)) r (view w')) by (by rewrite <-(rand_left w)).
  revert Hr. generalize (rand_used w). clear w E. intros w Hr.
  apply (calm_bind_inv _ _ _ _ _ _ (calm_wrap_same _ _ StdinPipe_calm)) in Hr as (r1 & w1 & Hx1 & Hr).
  unfold same in *. rewrite <-Hx1. destruct r1 as [[]|e|p]; [|by destruct Hr as [-> ->]|done].
  apply (calm_bind_inv _ _ _ _ _ _ (calm_wrap_same _ _ StdoutPipe_calm)) in Hr as (r2 & w2 & Hx2 & Hr).
  unfold same in *. rewrite <-Hx2. destruct r2 as [[]|e|p]; [|by destruct Hr as [-> ->]|done].
  apply (calm_bind_inv _ _ _ _ _ _ (calm_wrap _ _ _ (Start_calm _) (λ _ _ _, id))) in Hr as (r3 & w3 & Hx3 & Hr).
  destruct r3 as [p|e|q]; [|by destruct Hr as [-> ->]|done]. destruct Hx3 as [Hp Hx3].
  apply session_process_does in Hr as [Hpan Hx];
    [|apply (read_and_kill_does p _ (λ port, MkSSHResult _ port _ _)); intros; apply readPort_no_panic].
  split; [done|]. rewrite Hx, Hx3. exact (kill_added (view w2) p Hp).
Qed.

Lemma spawnWithInstall_calm GOOS GOARCH Commit user host size :
  calm left_over (spawnWithInstall GOOS GOARCH Commit user host size).
Proof.
  apply calm_bind; [apply calm_try, getRemoteVersion_calm| |by intros; left]. intros v.
  destruct (match v with Ok _ => _ | _ => _ end); [apply calm_left, spawnSSH_calm|].
  intros w r w' (r1 & w1 & Hx & Hr)%(calm_bind_inv _ _ _ _ _ _ (calm_wrap _ _ _ (installRemote_calm _ _ _ _) (λ _ _ _, id))).
  destruct r1 as [[]|e|p]; [|by destruct Hr as [-> ->]|done].
  apply (calm_wrap_same "connect after install: %w" _ (spawnSSH_calm _ _ _ _)) in Hr as [Hp Hs].
  split; [done|]. unfold same in Hs. by rewrite Hs.
Qed.
End calm.

(** ** Lemmas: the port line *)

Lemma Println_scan p rest fin :
  0 <= p < 2 ^ 63 → scan_port (Reader (Utoa p ++ newline :: rest) fin) = Some (Ok p).
Proof.
  intros Hp. pose proof (Utoa_length p Hp) as Hlen. destruct (Utoa_word p) as [Hne Hw]; [lia|].
  unfold scan_port. rewrite Scan_line.
  - rewrite <-(app_nil_r (Utoa p)) at 1. rewrite TrimSpace_line.
    + pose proof (ParseInt_Itoa false p Hp) as Ha. unfold Itoa in Ha.
      rewrite (proj2 (Z.ltb_ge p 0)) in Ha by lia. unfold Atoi. by rewrite Ha.
    + rewrite app_nil_r. eapply Forall_impl; [exact Hw|]. apply graphic_ascii.
    + constructor.
    + by apply word_kept.
  - intros Hin. by pose proof (proj1 (Forall_forall _ _) Hw _ Hin).
  - intros Hin. by pose proof (proj1 (Forall_forall _ _) Hw _ Hin).
  - unfold MaxScanTokenSize. lia.
Qed.

Lemma Scan_empty rd : Scan rd = Some (Ok None) ↔ rd_in rd = [] ∧ rd_fin rd = Some EOF.
Proof.
  destruct rd as [l fin]. unfold Scan. cbn [rd_in rd_fin]. split.
  - destruct (index_byte _ _); [done|]. destruct (_ <=? _); [done|]. destruct fin as [e|]; [|done].
    case_bool_decide; [|done]. by case_bool_decide; [subst|].
  - intros [-> ->]. by rewrite take_nil.
Qed.

Lemma Scan_err rd e : Scan rd = Some (Err e) → e = ErrTooLong ∨ rd_fin rd = Some e.
Proof.
  destruct rd as [l fin]. unfold Scan. cbn [rd_in rd_fin].
  destruct (index_byte _ _); [done|]. destruct (_ <=? _); [intros [= <-]; by left|]. destruct fin as [e'|]; [|done].
  case_bool_decide; [|done]. case_bool_decide; [done|]. intros [= ->]. by right.
Qed.

Lemma not_installed_wrap text e : isNotInstalledError (ErrWrap text e) = isNotInstalledError e.
Proof. unfold isNotInstalledError. cbn [errors_Is]. by rewrite bool_decide_eq_false_2. Qed.

(** ** A simulated remote host

    Its goet in the PATH and at [~/.local/bin], each by what it prints for
    [--version] (the file's contents stand for the program); the port the
    session will listen on.  Process 127 is a command that was not found.  When
    [sm_stuck] is set, the local files cannot be removed. *)

Record sim (path : option bytes) : Type := Sim {
  sm_key : bytes;
  sm_local : option bytes;
  sm_uname : bytes;
  sm_port : Z;
  sm_self : bytes;
  sm_temp : gset string;
  sm_run : gset nat;
  sm_stuck : bool;
}.
Arguments Sim {_} _ _ _ _ _ _ _ _.
Arguments sm_key {_} _.
Arguments sm_local {_} _.
Arguments sm_uname {_} _.
Arguments sm_port {_} _.
Arguments sm_self {_} _.
Arguments sm_temp {_} _.
Arguments sm_run {_} _.
Arguments sm_stuck {_} _.

Section sim.
Variable (path : option bytes).

Definition exit_error : error := ErrNew "exit status 127".

Definition set_local (o : option bytes) (w : sim path) : sim path :=
  Sim (sm_key w) o (sm_uname w) (sm_port w) (sm_self w) (sm_temp w) (sm_run w) (sm_stuck w).
Definition map_temp (f : gset string → gset string) (w : sim path) : sim path :=
  Sim (sm_key w) (sm_local w) (sm_uname w) (sm_port w) (sm_self w) (f (sm_temp w)) (sm_run w) (sm_stuck w).
Definition map_run (f : gset nat → gset nat) (w : sim path) : sim path :=
  Sim (sm_key w) (sm_local w) (sm_uname w) (sm_port w) (sm_self w) (sm_temp w) (f (sm_run w)) (sm_stuck w).

Definition sim_output (o : option bytes) : io (sim path) bytes :=
  io_lift (if o is Some b then Ok b else Err exit_error).

(** The word before [session]. *)
Fixpoint program (args : list string) : string :=
  match args with
  | a :: ((b :: _) as args') => if bool_decide (b = "session"%string) then a else program args'
  | _ => ""
  end.

Definition sim_start (args : list string) : io (sim path) nat := λ w,
  let found := if bool_decide (program args = remoteGoetPath) then sm_local w else path in
  let p := if found is Some _ then 1%nat else 127%nat in
  if bool_decide (p ∈ sm_run w) then Some (Err (ErrNew "busy"), w)
  else Some (Ok p, map_run (λ s, {[p]} ∪ s) w).

#[export] Instance sim_lib : HostLib (sim path) := {|
  rand_Read w n := Ok (take (Z.to_nat n) (sm_key w) ++ replicate (Z.to_nat n - List.length (sm_key w)) x00);
  rand_used w := w;
  cmd_StdinPipe := io_ret ();
  cmd_StdoutPipe := io_ret ();
  ssh_Start := sim_start;
  proc_Write _ _ := io_ret ();
  proc_CloseStdin _ := io_ret ();
  proc_Stdout p w := if bool_decide (p = 127%nat) then Reader [] (Some EOF)
                     else Reader (string_bytes (Itoa (sm_port w)) ++ [newline]) None;
  proc_late _ _ := false;
  proc_KillWait p := λ w, Some (Err (ErrNew "signal: killed"), map_run (λ s, s ∖ {[p]}) w);
  ssh_CombinedOutput args := λ w,
    if bool_decide (last args = Some "goet --version"%string) then sim_output path w
    else if bool_decide (last args = Some "~/.local/bin/goet --version"%string) then sim_output (sm_local w) w
    else if bool_decide (last args = Some "uname -sm"%string) then Some (Ok (sm_uname w), w)
    else sim_output None w;
  ssh_Run _ f := λ w, Some (Ok (), set_local (Some f) w);
  os_Executable := io_ret "/usr/bin/goet"%string;
  os_Open _ := λ w, Some (Ok (sm_self w), w);
  http_Get _ := λ w, Some (Ok (200, Reader (sm_self w) (Some EOF)), w);
  os_CreateTemp pattern := λ w,
    if bool_decide (pattern ∈ sm_temp w) then Some (Err (ErrNew "file exists"), w)
    else Some (Ok pattern, map_temp (λ t, {[pattern]} ∪ t) w);
  io_Copy _ _ := io_ret ();
  os_Remove f := λ w,
    if sm_stuck w then Some (Err (ErrNew "operation not permitted"), w)
    else Some (Ok (), map_temp (λ t, t ∖ {[f]}) w);
|}.

#[export] Instance sim_state : HostState (sim path) := {| temp_files := sm_temp; running := sm_run |}.

Lemma sim_output_calm o : calm same (sim_output o).
Proof. by destruct o; intros w r w' [= <- <-]. Qed.

#[export] Instance sim_laws : HostLaws (sim path).
Proof.
  split; try (intros; done); try by intros w r w' [= <- <-].
  - intros w n b Hn [= <-]. rewrite len_app, len_take, len_replicate. unfold len. lia.
  - intros args w r w'. unfold ssh_Start, sim_lib, sim_start. case_bool_decide as Hin; intros [= <- <-]; [done|].
    done.
  - by intros p b w r w' [= <- <-].
  - by intros p w r w' [= <- <-].
  - by intros p w r w' [= <- <-].
  - intros args w r w'. unfold ssh_CombinedOutput, sim_lib.
    repeat case_bool_decide; intros Hr; try exact (sim_output_calm _ _ _ _ Hr). by injection Hr as <- <-.
  - by intros args f w r w' [= <- <-].
  - by intros f w r w' [= <- <-].
  - by intros f w r w' [= <- <-].
  - intros pat w r w'. unfold os_CreateTemp, sim_lib. case_bool_decide; by intros [= <- <-].
  - by intros f b w r w' [= <- <-].
  - intros f w r w'. unfold os_Remove, sim_lib. by destruct (sm_stuck w); intros [= <- <-].
Qed.
End sim.

(** ** Properties *)

(** C26: Bootstrapping leaves nothing behind that could be removed.  However
    ssh, the remote host, the download and the disk fail, when [SpawnSSH] has
    returned no ssh process it started is running, and the temporary files are
    those there were before, except that the one downloaded file is left if
    [os.Remove] failed on it, which the code ignores; and it does not panic. *)
Theorem spawn_leaves_nothing {W} `{HostLaws W} GOOS GOARCH Commit dest install size (w : W) r w' :
  SpawnSSH GOOS GOARCH Commit dest install size w = Some (r, w') →
  panics r = false ∧ running w' = running w ∧
  (temp_files w' = temp_files w ∨
   ∃ f w1 e w2, (f ∉ temp_files w) ∧ temp_files w1 = {[f]} ∪ temp_files w ∧
     os_Remove f w1 = Some (Err e, w2) ∧ temp_files w' = temp_files w1).
Proof.
  intros Hr. enough (calm left_over (SpawnSSH GOOS GOARCH Commit dest install size)) as Hc.
  { apply Hc in Hr as [Hp Hx]. split; [done|]. destruct Hx as [Hx|(f & w1 & e & w2 & Hf & Hw1 & He & Hx)].
    - injection Hx as Ht Hrun. split; [done|]. by left.
    - rewrite Hw1 in Hx. injection Hx as Ht Hrun. injection Hw1 as Ht1 Hrun1. split; [done|]. right. exists f, w1, e, w2.
      by rewrite Ht, Ht1. }
  unfold SpawnSSH. destruct (parseDestination dest) as [user host]. destruct install.
  { apply spawnWithInstall_calm. }
  clear r w' Hr. intros w0 r w' (r1 & w1 & Hp & Hx & Hr)%(calm_try_inv _ _ _ _ _ _ (spawnSSH_calm user host "goet" size)).
  unfold same in Hx. rewrite <-Hx. destruct r1 as [res|err|p]; [|destruct (isNotInstalledError err)|done];
    injection Hr as <- <-; by split; [|left].
Qed.

Definition ex_key : bytes := string_bytes "0123456789abcdef0123456789abcdef".
Definition ex_version : bytes := string_bytes "goet 0.4.0 (abc1234)" ++ [newline].
(** An old version in the PATH. *)
Definition ex_old : sim (Some (string_bytes "goet old")) :=
  Sim ex_key None (string_bytes "Linux aarch64") 40000 ex_version ∅ ∅ false.

(** The upgrade downloads the release for the other architecture and connects
    to the installed program. *)
Example ex_upgrade :
  fst <$> SpawnSSH "linux" "amd64" "abc1234" "me@host" true 0 ex_old =
  Some (Ok (MkSSHResult "host" 40000 ex_key "30313233")).
Proof. vm_compute. reflexivity. Qed.

(** The same where the temporary file cannot be removed. *)
Definition ex_stuck : sim (Some (string_bytes "goet old")) :=
  Sim ex_key None (string_bytes "Linux aarch64") 40000 ex_version ∅ ∅ true.

Lemma spawn_leaves_nothing_witness :
  ∃ r w' r' w'', SpawnSSH "linux" "amd64" "abc1234" "me@host" true 0 ex_old = Some (r, w') ∧
    temp_files w' = ∅ ∧ running w' = ∅ ∧
    SpawnSSH "linux" "amd64" "abc1234" "me@host" true 0 ex_stuck = Some (r', w'') ∧
    temp_files w'' = {["goet-download-*"%string]} ∧
    panics r' = false ∧ running w'' = ∅ ∧
    (temp_files w'' = ∅ ∨
     ∃ f (w1 : sim (Some (string_bytes "goet old"))) e w2, (f ∉ temp_files ex_stuck) ∧ temp_files w1 = {[f]} ∪ temp_files ex_stuck ∧
       os_Remove f w1 = Some (Err e, w2) ∧ temp_files w'' = temp_files w1).
Proof.
  destruct (SpawnSSH "linux" "amd64" "abc1234" "me@host" true 0 ex_old) as [[r w']|] eqn:E; [|vm_compute in E; discriminate].
  destruct (SpawnSSH "linux" "amd64" "abc1234" "me@host" true 0 ex_stuck) as [[r' w'']|] eqn:E'; [|vm_compute in E'; discriminate].
  exists r, w', r', w''. split; [reflexivity|].
  split; [vm_compute in E; injection E as _ <-; reflexivity|]. split; [vm_compute in E; injection E as _ <-; reflexivity|].
  split; [reflexivity|]. split; [vm_compute in E'; injection E' as _ <-; reflexivity|].
  exact (spawn_leaves_nothing "linux" "amd64" "abc1234" "me@host" true 0 ex_stuck r' w'' E').
Defined.

(** C38: The port gets through.  Whatever port the session prints with
    [fmt.Println], [readPort] reads back; and the installation hint is shown
    exactly when the stream ended cleanly without a byte, for whatever reason
    it did. *)
Theorem port_line p rest fin :
  0 <= p < 2 ^ 63 →
  readPort false (Reader (string_bytes (Itoa p) ++ newline :: rest) fin) = Ok p ∧
  ∀ late stdout, (∀ e, rd_fin stdout = Some e → isNotInstalledError e = false) →
    (∃ e, readPort late stdout = Err e ∧ isNotInstalledError e = true) ↔
    late = false ∧ rd_in stdout = [] ∧ rd_fin stdout = Some EOF.
Proof.
  intros Hp. unfold readPort. split.
  { unfold Itoa. rewrite (proj2 (Z.ltb_ge p 0)), string_bytes_of, Println_scan by lia. done. }
  intros late stdout Hfin. rewrite <-Scan_empty. unfold scan_port.
  destruct (Scan stdout) as [[[text|]|e|q]|] eqn:E.
  - split; [|by intros [_ [=]]]. intros (e & He & Hn). destruct (Atoi _) as [port [err|]], late; simplify_eq.
  - destruct late; split; [|by intros [? _]| |]; [by intros (e & [= <-] & ?)|done|].
    intros _. eexists. split; [done|]. by rewrite not_installed_wrap.
  - split; [|by intros [_ [=]]]. intros (e' & He & Hn). destruct late; [by injection He as <-|]. injection He as <-.
    rewrite not_installed_wrap in Hn. apply Scan_err in E as [->|Hf]; [done|]. by rewrite (Hfin _ Hf) in Hn.
  - by apply Scan_no_panic in E.
  - split; [|by intros [_ [=]]]. by intros (e' & [= <-] & Hn).
Qed.

Lemma port_line_witness :
  0 <= 40000 < 2 ^ 63 ∧
  readPort false (Reader (string_bytes (Itoa 40000) ++ [newline]) None) = Ok 40000 ∧
  (∀ late stdout, (∀ e, rd_fin stdout = Some e → isNotInstalledError e = false) →
    (∃ e, readPort late stdout = Err e ∧ isNotInstalledError e = true) ↔
    late = false ∧ rd_in stdout = [] ∧ rd_fin stdout = Some EOF).
Proof. split; [lia|]. apply (port_line 40000 [] None). lia. Defined.

Lemma io_wrap_fst {W A} text (c : io W A) w r w' :
  io_wrap text c w = Some (r, w') → ∃ r0, c w = Some (r0, w') ∧ r = wrap_err text r0.
Proof. unfold io_wrap. destruct (c w) as [[r0 w0]|]; [|done]. intros [= <- <-]. by eexists. Qed.

Lemma readPort_EOF late : ∃ e, readPort late (Reader [] (Some EOF)) = Err e.
Proof.
  unfold readPort, scan_port. rewrite (proj2 (Scan_empty (Reader [] (Some EOF)))) by done.
  destruct late; by eexists.
Qed.

(** A start that succeeded, step by step. *)
Lemma spawnSSH_inv {W} `{HostLaws W} user host goetPath size (w : W) res w' :
  spawnSSH user host goetPath size w = Some (Ok res, w') →
  ∃ key w1 p w2 w3 r w4 port,
    rand_Read w PasskeySize = Ok key ∧ len key = 32 ∧
    ssh_Start (session_args user host goetPath (hex_EncodeToString (take 4 key)) size) w1 = Some (Ok p, w2) ∧
    proc_Write p (string_bytes (hex_EncodeToString key) ++ [newline]) w2 = Some (Ok (), w3) ∧
    proc_CloseStdin p w3 = Some (r, w4) ∧
    readPort (proc_late p w4) (proc_Stdout p w4) = Ok port ∧
    res = MkSSHResult host port key (hex_EncodeToString (take 4 key)).
Proof.
  intros (key & w0 & Hg & Hr)%io_bind_inv. apply io_wrap_inv in Hg. injection Hg as Hg <-.
  assert (rand_Read w PasskeySize = Ok key) as Hkey.
  { unfold GeneratePasskey in Hg. destruct (rand_Read w PasskeySize); [|done..]. by injection Hg as ->. }
  assert (len key = 32) as Hlen by (by eapply (rand_len w PasskeySize)).
  rewrite go_slice_head in Hr by lia. rewrite io_bind_lift in Hr. change (Z.to_nat 4) with 4%nat in Hr. cbn zeta in Hr.
  apply io_bind_inv in Hr as ([] & w1 & _ & Hr). apply io_bind_inv in Hr as ([] & w2 & _ & Hr).
  apply io_bind_inv in Hr as (p & w3 & Hs & Hr). apply io_wrap_inv in Hs.
  apply io_try_split in Hr as (r4 & w4 & Hw & Hp4 & Hr); [|done].
  destruct r4 as [[]|err|q]; [|by apply io_bind_inv in Hr as (? & ? & _ & Hr)|done].
  apply io_try_split in Hr as (r5 & w5 & Hc & _ & Hr); [|done]. rewrite io_read_bind in Hr.
  exists key, w2, p, w3, w4, r5, w5.
  destruct (readPort (proc_late p w5) (proc_Stdout p w5)) as [port|err|q] eqn:E;
    [|by apply io_bind_inv in Hr as (? & ? & _ & Hr)|done].
  apply io_bind_inv in Hr as ([] & w6 & _ & Hr). injection Hr as <- _. by exists port.
Qed.

Lemma SpawnSSH_passkey {W} `{HostLaws W} GOOS GOARCH Commit dest install size (w : W) res w' :
  SpawnSSH GOOS GOARCH Commit dest install size w = Some (Ok res, w') → len (res_Passkey res) = 32.
Proof.
  assert (∀ user host path w r w', spawnSSH user host path size w = Some (Ok r, w') → len (res_Passkey r) = 32) as Hspawn.
  { intros user host path w0 r w0' (key & ? & ? & ? & ? & ? & ? & ? & _ & Hlen & _ & _ & _ & _ & ->)%spawnSSH_inv. done. }
  unfold SpawnSSH. destruct (parseDestination dest) as [user host]. destruct install.
  - intros (v & w1 & _ & Hr)%io_bind_inv. destruct (match v with Ok _ => _ | _ => _ end); [by apply Hspawn in Hr|].
    apply io_bind_inv in Hr as ([] & w2 & _ & Hr). apply io_wrap_inv in Hr. by apply Hspawn in Hr.
  - intros (r & w1 & Hs & Hr)%(io_try_split _ _ _ _ _); [|done].
    destruct Hr as [Hp Hr]. destruct r as [r|e|p]; [|by destruct (isNotInstalledError e)|done].
    injection Hr as <- <-. by apply Hspawn in Hs.
Qed.

(** No session starts when the command is not found. *)
Lemma spawnSSH_not_found {W} `{HostLaws W} user host goetPath size (w : W) r w' :
  (∀ sid w1 p w2 w3, ssh_Start (session_args user host goetPath sid size) w1 = Some (Ok p, w2) →
    proc_Stdout p w3 = Reader [] (Some EOF)) →
  spawnSSH user host goetPath size w = Some (r, w') → ∃ e, r = Err e.
Proof.
  intros Hdead Hr. destruct (spawnSSH_calm _ _ _ _ _ _ _ Hr) as [Hp _].
  destruct r as [res|e|q]; [exfalso|by eexists|done].
  unfold spawnSSH in Hr. apply io_bind_inv in Hr as (key & w1 & _ & Hr).
  apply io_bind_inv in Hr as (first4 & w2 & _ & Hr). apply io_bind_inv in Hr as ([] & w3 & _ & Hr).
  apply io_bind_inv in Hr as ([] & w4 & _ & Hr). apply io_bind_inv in Hr as (p & w5 & Hs & Hr).
  apply io_wrap_inv in Hs. apply io_bind_inv in Hr as (written & w6 & _ & Hr).
  destruct written as [[]|err|q]; [|by apply io_bind_inv in Hr as (? & ? & _ & Hr)|].
  all: apply io_bind_inv in Hr as (? & w7 & _ & Hr); rewrite io_read_bind in Hr.
  all: rewrite (Hdead _ _ _ _ w7 Hs) in Hr; destruct (readPort_EOF (proc_late p w7)) as (e & He); rewrite He in Hr.
  all: by apply io_bind_inv in Hr as (? & ? & _ & Hr).
Qed.

(** An installation outside the PATH is never used.  When only
    [~/.local/bin/goet] answers, and with the current version, [--install]
    installs nothing and starts the bare [goet], which the remote shell does
    not find: it fails every time, with the program in place. *)
Theorem installed_elsewhere {W} `{HostLaws W} GOOS GOARCH Commit dest user host size (w : W) e w1 out w2 :
  parseDestination dest = (user, host) →
  ssh_CombinedOutput (sshArgs user host ++ ["goet --version"%string]) w = Some (Err e, w1) →
  ssh_CombinedOutput (sshArgs user host ++ ["~/.local/bin/goet --version"%string]) w1 = Some (Ok out, w2) →
  parseVersionOutput (TrimSpace out) = Ok Commit →
  (∀ sid w3 p w4 w5, ssh_Start (session_args user host "goet" sid size) w3 = Some (Ok p, w4) →
    proc_Stdout p w5 = Reader [] (Some EOF)) →
  SpawnSSH GOOS GOARCH Commit dest true size w = spawnSSH user host "goet" size w2 ∧
  ∀ r w', SpawnSSH GOOS GOARCH Commit dest true size w = Some (r, w') → ∃ e, r = Err e.
Proof.
  intros Hd Hv1 Hv2 Hver Hdead.
  assert (SpawnSSH GOOS GOARCH Commit dest true size w = spawnSSH user host "goet" size w2) as Heq.
  { unfold SpawnSSH. rewrite Hd. unfold spawnWithInstall, getRemoteVersion, sshRun, io_bind, io_try, io_wrap.
    rewrite Hv1. cbn [wrap_err]. change (remoteGoetPath +:+ " --version") with "~/.local/bin/goet --version"%string.
    rewrite Hv2. cbn -[spawnSSH]. by rewrite Hver, bool_decide_eq_true_2. }
  split; [done|]. intros r w'. rewrite Heq. by apply spawnSSH_not_found.
Qed.

(** The current version, outside the PATH. *)
Definition ex_hidden : sim None := Sim ex_key (Some ex_version) (string_bytes "Linux x86_64") 40000 ex_version ∅ ∅ false.

Lemma installed_elsewhere_witness :
  fst <$> SpawnSSH "linux" "amd64" "abc1234" "me@host" true 0 ex_hidden =
    Some (Err (ErrWrap "ssh stdout closed before port received: %w" errNotInstalled)) ∧
  SpawnSSH "linux" "amd64" "abc1234" "me@host" true 0 ex_hidden = spawnSSH "me" "host" "goet" 0 ex_hidden ∧
  ∀ r w', SpawnSSH "linux" "amd64" "abc1234" "me@host" true 0 ex_hidden = Some (r, w') → ∃ e, r = Err e.
Proof.
  split; [vm_compute; reflexivity|].
  apply (installed_elsewhere "linux" "amd64" "abc1234" "me@host" "me" "host" 0 ex_hidden exit_error ex_hidden ex_version ex_hidden);
    [reflexivity..|vm_compute; reflexivity|].
  intros sid w3 p w4 w5. cbn -[Itoa]. unfold sim_start. cbn. case_bool_decide; [discriminate|].
  intros [= <- _]. reflexivity.
Defined.
End bootstrap.
