(* ===== verification/CommandLine.v ===== *)
(** * The command line ([cmd/goet/main.go])

    From [os.Args] to the configuration a session or a client is started
    with: the global flags, the choice of the command, the flags of [session]
    and [--local], the passkey.  What the theorems show: every configuration
    that is started is well formed, the session that a client starts over ssh
    gets the client's passkey and buffer size, and what [--version] prints is
    what [--install] reads. *)

From S2P Require Import Prelude GoIO GoStrings Auth Catchup Transport Session Client Bootstrap.
Import gostrings.
Open Scope go_scope.

Module commandline.
Import bootstrap.

(** ** The [flag] package

    A flag set is the list of its flags with their values; none of the
    program's is boolean.  [ExitOnError]: a bad command line ends the program
    with code 2, a request for help with 0. *)

Inductive value : Type := VInt (z : Z) | VString (s : string).
Abbreviation FlagSet := (list (string * value)).

Fixpoint flag_get (fs : FlagSet) (name : string) : option value :=
  match fs with
  | [] => None
  | (n, v) :: fs' => if bool_decide (n = name) then Some v else flag_get fs' name
  end.
Fixpoint flag_put (fs : FlagSet) (name : string) (v : value) : FlagSet :=
  match fs with
  | [] => []
  | (n, v') :: fs' => if bool_decide (n = name) then (n, v) :: fs' else (n, v') :: flag_put fs' name v
  end.

(** [Value.Set]: integers are parsed with base 0. *)
Definition flag_set (v : value) (s : string) : option value :=
  match v with
  | VInt _ => match ParseInt true s with (z, None) => Some (VInt z) | (_, Some _) => None end
  | VString _ => Some (VString s)
  end.

(** [name=value], the [=] not in the first place. *)
Definition cut_value (name : bytes) : bytes * option bytes :=
  match index_byte (drop 1 name) x3d with
  | Some i => (take (S i) name, Some (drop (S (S i)) name))
  | None => (name, None)
  end.

(** [FlagSet.Parse]: the flags and the remaining arguments, or the exit code. *)
Fixpoint flag_Parse (fs : FlagSet) (args : list string) : FlagSet * list string + Z :=
  match args with
  | [] => inl (fs, [])
  | s :: args' =>
    match string_bytes s with
    | x2d :: c :: l =>
      if bool_decide (c = x2d) && bool_decide (l = []) then inl (fs, args') else
      let name := if bool_decide (c = x2d) then l else c :: l in
      if bool_decide (head name ∈ [None; Some x2d; Some x3d]) then inr 2 else
      let '(name, value) := cut_value name in
      let name := bytes_string name in
      match flag_get fs name with
      | None => inr (if bool_decide (name ∈ ["help"; "h"]%string) then 0 else 2)
      | Some v =>
        match value with
        | Some val =>
          match flag_set v (bytes_string val) with
          | Some v' => flag_Parse (flag_put fs name v') args'
          | None => inr 2
          end
        | None =>
          match args' with
          | [] => inr 2
          | val :: args'' =>
            match flag_set v val with
            | Some v' => flag_Parse (flag_put fs name v') args''
            | None => inr 2
            end
          end
        end
      end
    | _ => inl (fs, args)
    end
  end.

Definition flag_int (fs : FlagSet) (name : string) : Z :=
  match flag_get fs name with Some (VInt z) => z | _ => 0 end.
Definition flag_string (fs : FlagSet) (name : string) : string :=
  match flag_get fs name with Some (VString s) => s | _ => ""%string end.

(** ** The global flags *)

Record globalFlags : Type := MkGlobalFlags {
  gf_version : bool;
  gf_local : bool;
  gf_install : bool;
  gf_tcp : bool;
  gf_profile : bool;
  gf_replaySize : Z;
  gf_rest : list string;
}.

Definition dialMode (g : globalFlags) : DialMode := if gf_tcp g then DialTCP else DialQUIC.

Definition set_version g := MkGlobalFlags true (gf_local g) (gf_install g) (gf_tcp g) (gf_profile g) (gf_replaySize g) (gf_rest g).
Definition set_local g := MkGlobalFlags (gf_version g) true (gf_install g) (gf_tcp g) (gf_profile g) (gf_replaySize g) (gf_rest g).
Definition set_install g := MkGlobalFlags (gf_version g) (gf_local g) true (gf_tcp g) (gf_profile g) (gf_replaySize g) (gf_rest g).
Definition set_tcp g := MkGlobalFlags (gf_version g) (gf_local g) (gf_install g) true (gf_profile g) (gf_replaySize g) (gf_rest g).
Definition set_profile g := MkGlobalFlags (gf_version g) (gf_local g) (gf_install g) (gf_tcp g) true (gf_replaySize g) (gf_rest g).
Definition set_replaySize n g := MkGlobalFlags (gf_version g) (gf_local g) (gf_install g) (gf_tcp g) (gf_profile g) n (gf_rest g).
Definition add_rest a g := MkGlobalFlags (gf_version g) (gf_local g) (gf_install g) (gf_tcp g) (gf_profile g) (gf_replaySize g) (gf_rest g ++ [a]).

(** The cases that do not look at the next argument. *)
Definition global_flag (arg : string) (g : globalFlags) : globalFlags :=
  if bool_decide (arg = "--version"%string) then set_version g
  else if bool_decide (arg = "--local"%string) then set_local g
  else if bool_decide (arg = "--install"%string) then set_install g
  else if bool_decide (arg = "--tcp"%string) then set_tcp g
  else if bool_decide (arg = "--profile"%string) then set_profile g
  else if HasPrefix arg "--replay-size="
  then set_replaySize (Atoi (CutPrefix arg "--replay-size=")).1 g
  else add_rest arg g.

Fixpoint parse_args (args : list string) (g : globalFlags) : globalFlags :=
  match args with
  | [] => g
  | arg :: args' =>
    match args' with
    | next :: args'' =>
      if bool_decide (arg = "--replay-size"%string) then parse_args args'' (set_replaySize (Atoi next).1 g)
      else parse_args args' (global_flag arg g)
    | [] => parse_args args' (global_flag arg g)
    end
  end.

Definition parseGlobalFlags (os_Args : list string) : globalFlags :=
  parse_args (drop 1 os_Args) (MkGlobalFlags false false false false false 0 []).

Fixpoint findDestination (args : list string) : string :=
  match args with
  | [] => ""
  | arg :: args' => if HasPrefix arg "-" then findDestination args' else arg
  end.

(** ** The commands

    What the program has become: it has ended with a code, with what it
    printed on its standard output, or it runs a session or a client. *)

Inductive started : Type :=
| Exit (code : Z) (stdout : bytes)
| StartSession (cfg : session.Config)
| StartClient (cfg : client.Config).

Definition decode_passkey (s : string) : option bytes :=
  match hex_DecodeString s with
  | Ok passkey => if len passkey =? 32 then Some passkey else None
  | _ => None
  end.

(** [runSession]; [None] while the passkey line does not come. *)
Definition runSession (args : list string) (stdin : reader) : option started :=
  let args := match args with a :: args' => if bool_decide (a = "session"%string) then args' else args | [] => [] end in
  match flag_Parse [("f", VString ""); ("p", VInt 0); ("replay-size", VInt 0)]%string args with
  | inr code => Some (Exit code [])
  | inl (fs, _) =>
    let sessionID := flag_string fs "f" in
    if bool_decide (sessionID = ""%string) then Some (Exit 1 []) else
    match ReadString newline stdin with
    | None => None
    | Some (Ok line, _) =>
      match decode_passkey (bytes_string (TrimSpace line)) with
      | None => Some (Exit 1 [])
      | Some passkey =>
        Some (StartSession (session.MkConfig sessionID (flag_int fs "p") passkey (flag_int fs "replay-size")))
      end
    | Some (_, _) => Some (Exit 1 [])
    end
  end.

Definition runClient (gf : globalFlags) : started :=
  match flag_Parse [("p", VInt 0); ("k", VString "")]%string (gf_rest gf) with
  | inr code => Exit code []
  | inl (fs, args) =>
    if flag_int fs "p" =? 0 then Exit 1 []
    else if bool_decide (flag_string fs "k" = ""%string) then Exit 1 []
    else match decode_passkey (flag_string fs "k") with
         | None => Exit 1 []
         | Some passkey =>
           StartClient (client.MkConfig (default "127.0.0.1"%string (head args)) (flag_int fs "p") passkey
             (gf_profile gf) (dialMode gf) (gf_replaySize gf))
         end
  end.

Section main.
Context {W : Type} `{HostLib W}.
(** [runtime.GOOS], [runtime.GOARCH], [version.VERSION] and [version.Commit]. *)
Variables (GOOS GOARCH VERSION Commit : string).

Definition runSSHClient (destination : string) (gf : globalFlags) : io W started :=
  res <- io_try (SpawnSSH GOOS GOARCH Commit destination (gf_install gf) (gf_replaySize gf)) ;;
  match res with
  | Ok res =>
    io_ret (StartClient (client.MkConfig (Host res) (Port res) (res_Passkey res)
      (gf_profile gf) (dialMode gf) (gf_replaySize gf)))
  | _ => io_ret (Exit 1 [])
  end.

(** [fmt.Printf("goet %s (%s)\n", version.VERSION, version.Commit)] *)
Definition version_line : bytes :=
  string_bytes "goet " ++ string_bytes VERSION ++ string_bytes " (" ++ string_bytes Commit ++ string_bytes ")" ++ [newline].

Definition main (os_Args : list string) (stdin : reader) : io W started :=
  let gf := parseGlobalFlags os_Args in
  if gf_version gf || bool_decide (head (gf_rest gf) = Some "version"%string) then io_ret (Exit 0 version_line) else
  arg0 <- io_lift (go_index os_Args 0) ;;
  if bool_decide (filepath_Base arg0 = "goet-session"%string) || bool_decide (head (gf_rest gf) = Some "session"%string)
  then match runSession (gf_rest gf) stdin with Some r => io_ret r | None => io_block end
  else if gf_local gf then io_ret (runClient gf)
  else
    let dest := findDestination (gf_rest gf) in
    if bool_decide (dest = ""%string) then io_ret (Exit 1 []) else runSSHClient dest gf.
End main.

(** ** Lemmas: words that are no flags *)

Lemma no_dash s : (∀ b, head (string_bytes s) = Some b → b ≠ x2d) → HasPrefix s "-" = false.
Proof.
  destruct s as [|c s]; [done|]. intros H. unfold HasPrefix. cbn [String.prefix].
  destruct (Ascii.ascii_dec _ _) as [<-|]; [|done]. by destruct (H x2d eq_refl).
Qed.

(** An argument that no case of [parseGlobalFlags] takes. *)
Definition plain (a : string) : Prop :=
  a ≠ "--replay-size"%string ∧ ∀ g, global_flag a g = add_rest a g.

Lemma plain_no_dash a : HasPrefix a "-" = false → plain a.
Proof.
  intros Ha. destruct a as [|c a]; [done|].
  assert (∀ s, String (Ascii.ascii_of_byte x2d) s ≠ String c a) as Hne.
  { intros s [= <- <-]. unfold HasPrefix in Ha. cbn in Ha. by destruct s. }
  assert (HasPrefix (String c a) "--replay-size=" = false) as Hp.
  { unfold HasPrefix in *. cbn [String.prefix] in *.
    destruct (Ascii.ascii_dec _ c); [by destruct a|done]. }
  split; [intros Heq; by eapply Hne|]. intros g. unfold global_flag.
  rewrite !bool_decide_eq_false_2 by (intros Heq; by eapply Hne). by rewrite Hp.
Qed.

Definition add_rests (args : list string) (g : globalFlags) : globalFlags :=
  MkGlobalFlags (gf_version g) (gf_local g) (gf_install g) (gf_tcp g) (gf_profile g) (gf_replaySize g) (gf_rest g ++ args).

Lemma parse_args_app args k g :
  Forall plain args → parse_args (args ++ k) g = parse_args k (add_rests args g).
Proof.
  intros Ha. revert g. induction Ha as [|a args [Hne Hf] Ha IH]; intros g.
  { cbn [app]. unfold add_rests. rewrite app_nil_r. by destruct g. }
  assert (parse_args ((a :: args) ++ k) g = parse_args (args ++ k) (global_flag a g)) as ->.
  { cbn [app parse_args]. destruct (args ++ k); [done|]. by rewrite bool_decide_eq_false_2. }
  rewrite IH, Hf. unfold add_rests, add_rest. cbn. by rewrite <-app_assoc.
Qed.

Lemma parse_args_plain args g : Forall plain args → parse_args args g = add_rests args g.
Proof. intros Ha. by rewrite <-(app_nil_r args) at 1; rewrite parse_args_app. Qed.

Lemma is_hex_graphic b : is_hex b = true → graphic b = true ∧ b ≠ x2d.
Proof. destruct b; (discriminate || done). Qed.

Lemma hex_word l : l ≠ [] → word (string_bytes (hex_EncodeToString l)).
Proof.
  intros Hl. split.
  - intros Hn%(f_equal (@List.length byte)). rewrite hex_encode_length in Hn. destruct l; [done|]. simpl in Hn. lia.
  - eapply Forall_impl; [apply hex_encode_digits|]. intros b Hb. by apply is_hex_graphic in Hb as [].
Qed.

Lemma hex_no_dash l : HasPrefix (hex_EncodeToString l) "-" = false.
Proof.
  apply no_dash. intros b Hb. apply head_Some_elem_of in Hb.
  pose proof (proj1 (Forall_forall _ _) (hex_encode_digits l) b Hb) as Hh. by apply is_hex_graphic in Hh as [].
Qed.

Lemma Itoa_no_dash z : 0 <= z → HasPrefix (Itoa z) "-" = false.
Proof.
  intros Hz. apply no_dash. intros b. unfold Itoa. rewrite (proj2 (Z.ltb_ge z 0)), string_bytes_of by lia.
  intros Hb%head_Some_elem_of. destruct (Utoa_word z Hz) as [_ Hw].
  pose proof (digits_are (S (Z.to_nat (Z.log2 z))) z [] ltac:(constructor)) as Hd.
  pose proof (proj1 (Forall_forall _ _) Hd b Hb). by destruct b.
Qed.

(** ** Lemmas: the passkey *)

Lemma decode_passkey_inv s k : decode_passkey s = Some k → len k = 32.
Proof.
  unfold decode_passkey. destruct (hex_DecodeString s); [|done..]. case_bool; [|done]. by intros [= <-].
Qed.

Lemma decode_passkey_line key fin :
  len key = 32 →
  ∃ line rd, ReadString newline (Reader (string_bytes (hex_EncodeToString key) ++ [newline]) fin) = Some (Ok line, rd) ∧
    decode_passkey (bytes_string (TrimSpace line)) = Some key.
Proof.
  intros Hk. set (h := string_bytes (hex_EncodeToString key)).
  assert (word h) as Hw by (apply hex_word; by intros ->). destruct Hw as [Hne Hw].
  assert (newline ∉ h) as Hn by (intros Hin; by pose proof (proj1 (Forall_forall _ _) Hw _ Hin)).
  eexists _, _. split; [by apply ReadString_line|]. rewrite TrimSpace_line.
  - unfold decode_passkey, h. rewrite bytes_string_of, hex_decode_encode. by rewrite Hk.
  - apply Forall_app. split; [|by repeat constructor]. eapply Forall_impl; [exact Hw|]. apply graphic_ascii.
  - by repeat constructor.
  - by apply word_kept.
Qed.

(** ** Lemmas: [main] of a session *)

Section main_lemmas.
Context {W : Type} `{HostLib W}.
Variables (GOOS GOARCH VERSION Commit : string).
#[local] Abbreviation main := (main (W := W) GOOS GOARCH VERSION Commit).

Lemma main_session a0 args rest stdin (w : W) :
  gf_version (parseGlobalFlags (a0 :: args)) = false →
  gf_rest (parseGlobalFlags (a0 :: args)) = "session"%string :: rest →
  main (a0 :: args) stdin w =
    match runSession ("session"%string :: rest) stdin with Some r => Some (Ok r, w) | None => None end.
Proof.
  intros Hv Hr. unfold main. rewrite Hv, Hr. cbn [orb]. rewrite bool_decide_eq_false_2 by done.
  rewrite (go_index_ok _ 0 a0) by done. rewrite io_bind_lift. rewrite orb_true_r. by destruct (runSession _ _).
Qed.
End main_lemmas.

(** A session's command line, with its passkey on the standard input. *)
Lemma runSession_starts args sid port size rest key fin :
  flag_Parse [("f", VString ""); ("p", VInt 0); ("replay-size", VInt 0)]%string args =
    inl ([("f", VString sid); ("p", VInt port); ("replay-size", VInt size)]%string, rest) →
  sid ≠ ""%string → len key = 32 →
  runSession ("session"%string :: args) (Reader (string_bytes (hex_EncodeToString key) ++ [newline]) fin) =
    Some (StartSession (session.MkConfig sid port key size)).
Proof.
  intros Hf Hsid Hkey. unfold runSession. rewrite bool_decide_eq_true_2, Hf by done.
  destruct (decode_passkey_line key fin Hkey) as (line & rd & Hrd & Hdec). rewrite Hrd, Hdec.
  cbn. by rewrite bool_decide_eq_false_2.
Qed.

(** The words of [session_args] after the program's name. *)
Definition session_argv (sid : string) (size : Z) : list string :=
  ["-f"; sid; "-p"; "0"]%string ++
  if (0 <? size) && negb (size =? catchup.DefaultBufferSize) then ["-replay-size"%string; Itoa size] else [].

Lemma session_args_argv user host goetPath sid size :
  session_args user host goetPath sid size = sshArgs user host ++ goetPath :: "session"%string :: session_argv sid size.
Proof.
  unfold session_args, session_argv. destruct (_ && _); by rewrite <-?app_assoc.
Qed.

Lemma plain_consts : Forall plain ["session"; "-f"; "-p"; "0"; "-replay-size"]%string.
Proof. repeat constructor; done. Qed.

Lemma session_argv_plain sid size :
  HasPrefix sid "-" = false → Forall plain ("session"%string :: session_argv sid size).
Proof.
  intros Hs. pose proof plain_consts as Hc. rewrite !Forall_cons in Hc. destruct Hc as (? & ? & ? & ? & ? & _).
  unfold session_argv. cbn [app]. do 5 (constructor; [by auto using plain_no_dash|]).
  destruct (Z.ltb_spec 0 size); [|constructor]. destruct (negb _); [|constructor]. cbn [andb].
  repeat constructor; try done; by apply plain_no_dash, Itoa_no_dash; lia.
Qed.

Lemma session_argv_Parse sid size :
  size < 2 ^ 63 →
  flag_Parse [("f", VString ""); ("p", VInt 0); ("replay-size", VInt 0)]%string (session_argv sid size) =
  inl ([("f", VString sid); ("p", VInt 0);
        ("replay-size", VInt (if (0 <? size)%Z && negb (size =? catchup.DefaultBufferSize)%Z then size else 0%Z))]%string, []).
Proof.
  intros Hs. unfold session_argv. destruct (Z.ltb_spec 0 size) as [H0|H0]; cbn [andb]; [|reflexivity].
  destruct (negb _); [|reflexivity]. 
  transitivity (match flag_set (VInt 0) (Itoa size) with
    | Some v => flag_Parse [("f", VString sid); ("p", VInt 0); ("replay-size", v)]%string []
    | None => inr 2 end); [reflexivity|].
  unfold flag_set. by rewrite ParseInt_Itoa by lia.
Qed.

(** ** Properties *)

(** Words a remote shell leaves as they are. *)
Definition shell_safe (b : byte) : bool := is_hex b || is_letter b || bool_decide (b = x2d).

Lemma session_argv_safe key size :
  Forall (λ a, forallb shell_safe (string_bytes a) = true) ("session"%string :: session_argv (hex_EncodeToString key) size).
Proof.
  assert (∀ l, Forall (λ b, is_hex b = true) l → forallb shell_safe l = true) as Hsafe.
  { induction 1 as [|b l Hb Hl IH]; [done|]. cbn [forallb]. unfold shell_safe at 1. by rewrite Hb, IH. }
  unfold session_argv. cbn [app].
  constructor; [done|]. constructor; [done|]. constructor; [apply Hsafe, hex_encode_digits|]. do 2 (constructor; [done|]).
  destruct (Z.ltb_spec 0 size); [|constructor]. destruct (negb _); [|constructor]. cbn [andb].
  constructor; [done|]. constructor; [|constructor]. apply Hsafe. unfold Itoa.
  rewrite (proj2 (Z.ltb_ge size 0)), string_bytes_of by lia.
  eapply Forall_impl; [apply digits_are; constructor|]. intros b Hb. unfold is_hex. by rewrite Hb.
Qed.

(** Leaving the flag out when it gives the default changes nothing. *)
Lemma replay_size_New size :
  catchup.New (if (0 <? size) && negb (size =? catchup.DefaultBufferSize) then size else 0) = catchup.New size.
Proof.
  destruct (Z.ltb_spec 0 size) as [H0|H0]; cbn [andb].
  - destruct (Z.eqb_spec size catchup.DefaultBufferSize) as [->|]; done.
  - unfold catchup.New. by rewrite (proj2 (Z.leb_le size 0)) by lia.
Qed.

(** C22: Both ends agree after the bootstrap.  When [spawnSSH] succeeds, the
    words it gave to ssh after the program's name need no quoting, and the
    program that is run with them and reads the line [spawnSSH] wrote runs a
    session with the client's passkey, the session name it reports, a port of
    its own choosing and the same catchup buffer as a client with that replay
    size; the client connects to the port that process printed. *)
Theorem bootstrap_agrees {W} `{HostLaws W} GOOS GOARCH VERSION Commit user host goetPath size (w : W) res w' :
  size < 2 ^ 63 →
  spawnSSH user host goetPath size w = Some (Ok res, w') →
  ∃ argv w1 p w2 line w3 r w4 cfg,
    ssh_Start (sshArgs user host ++ goetPath :: argv) w1 = Some (Ok p, w2) ∧
    Forall (λ a, forallb shell_safe (string_bytes a) = true) argv ∧
    proc_Write p line w2 = Some (Ok (), w3) ∧
    (∀ fin w0, main (W := W) GOOS GOARCH VERSION Commit (goetPath :: argv) (Reader line fin) w0 =
      Some (Ok (StartSession cfg), w0)) ∧
    session.Passkey cfg = res_Passkey res ∧ len (res_Passkey res) = 32 ∧
    session.SessionID cfg = res_SessionID res ∧ session.Port cfg = 0 ∧
    catchup.New (session.ReplaySize cfg) = catchup.New size ∧
    proc_CloseStdin p w3 = Some (r, w4) ∧ readPort (proc_late p w4) (proc_Stdout p w4) = Ok (Port res) ∧
    Host res = host.
Proof.
  intros Hsize (key & w1 & p & w2 & w3 & r & w4 & port & Hkey & Hlen & Hs & Hw & Hc & Hport & ->)%spawnSSH_inv.
  set (sid := hex_EncodeToString (take 4 key)) in *. rewrite session_args_argv in Hs.
  assert (sid ≠ ""%string) as Hsid.
  { intros E%(f_equal (λ s, List.length (string_bytes s))). unfold sid in E. rewrite hex_encode_length, length_take in E.
    unfold len in Hlen. change (List.length (string_bytes "")) with 0%nat in E. lia. }
  exists ("session"%string :: session_argv sid size), w1, p, w2, (string_bytes (hex_EncodeToString key) ++ [newline]), w3, r, w4.
  eexists. split; [done|]. split.
  { apply session_argv_safe. }
  split; [done|]. split.
  { intros fin w0. pose proof (session_argv_plain sid size (hex_no_dash _)) as Hplain.
    rewrite (main_session _ _ _ _ _ ("session"%string :: session_argv sid size) (session_argv sid size)) by
      (unfold parseGlobalFlags; change (drop 1 (?a :: ?l)) with l; by rewrite parse_args_plain).
    by rewrite (runSession_starts _ _ _ _ _ _ _ (session_argv_Parse sid size Hsize) Hsid Hlen). }
  cbn. split_and!; try done. apply replay_size_New.
Qed.

Definition ex_remote : sim (Some ex_version) := Sim ex_key None (string_bytes "Linux x86_64") 40000 ex_version ∅ ∅ false.
Definition ex_result : SSHResult := MkSSHResult "host" 40000 ex_key "30313233".

Lemma bootstrap_agrees_witness :
  ∃ argv (w1 : sim (Some ex_version)) p w2 line w3 r w4 cfg,
    ssh_Start (sshArgs "me" "host" ++ "goet"%string :: argv) w1 = Some (Ok p, w2) ∧
    Forall (λ a, forallb shell_safe (string_bytes a) = true) argv ∧
    proc_Write p line w2 = Some (Ok (), w3) ∧
    (∀ fin w0, main (W := sim (Some ex_version)) "linux" "amd64" "0.4.0" "abc1234" ("goet"%string :: argv) (Reader line fin) w0 =
      Some (Ok (StartSession cfg), w0)) ∧
    session.Passkey cfg = res_Passkey ex_result ∧ len (res_Passkey ex_result) = 32 ∧
    session.SessionID cfg = res_SessionID ex_result ∧ session.Port cfg = 0 ∧
    catchup.New (session.ReplaySize cfg) = catchup.New 65536 ∧
    proc_CloseStdin p w3 = Some (r, w4) ∧ readPort (proc_late p w4) (proc_Stdout p w4) = Ok (Port ex_result) ∧
    Host ex_result = "host"%string.
Proof.
  destruct (spawnSSH "me" "host" "goet" 65536 ex_remote) as [[[res|e|q] w']|] eqn:E;
    [|exfalso; vm_compute in E; discriminate..].
  assert (res = ex_result) as Hres.
  { enough (fst <$> spawnSSH "me" "host" "goet" 65536 ex_remote = Some (Ok ex_result)) as Hf
      by (rewrite E in Hf; injection Hf as ->; reflexivity). vm_compute. reflexivity. }
  rewrite <-Hres.
  exact (bootstrap_agrees "linux" "amd64" "0.4.0" "abc1234" "me" "host" "goet" 65536 ex_remote res w' ltac:(lia) E).
Defined.

(** What [--version] prints, [--install] reads.  Whatever the program's
    name and the other arguments, [goet --version] prints a line from which
    [parseVersionOutput] gets the commit, if the version and the commit are
    words and the commit neither starts nor ends with a parenthesis; the
    output of older versions, the program's name and the commit, is read too. *)
Theorem version_roundtrip {W} `{HostLib W} GOOS GOARCH VERSION Commit arg0 stdin (w : W) :
  word (string_bytes VERSION) → word (string_bytes Commit) →
  kept (λ b, bool_decide (b ∈ string_bytes "()")) (string_bytes Commit) →
  (∃ out, main GOOS GOARCH VERSION Commit [arg0; "--version"%string] stdin w = Some (Ok (Exit 0 out), w) ∧
          main GOOS GOARCH VERSION Commit [arg0; "version"%string] stdin w = Some (Ok (Exit 0 out), w) ∧
          parseVersionOutput (TrimSpace out) = Ok Commit) ∧
  parseVersionOutput (TrimSpace (string_bytes "goet " ++ string_bytes Commit ++ [newline])) = Ok Commit.
Proof.
  intros HV HC Hk.
  assert (∀ ws, ws ≠ [] → Forall word ws → TrimSpace (unwords ws ++ [newline]) = unwords ws) as Htrim.
  { intros ws Hne Hws. apply TrimSpace_line.
    - apply Forall_app. split; [by apply unwords_ascii|by repeat constructor].
    - by repeat constructor.
    - by apply unwords_kept. }
  assert (word (string_bytes "goet")) as Hg by (split; [done|by repeat constructor]).
  split.
  - eexists. split; [reflexivity|]. split; [reflexivity|]. set (c := x28 :: string_bytes Commit ++ [x29]).
    assert (word c) as Hc.
    { split; [done|]. constructor; [done|]. apply Forall_app. split; [apply HC|by repeat constructor]. }
    assert (version_line VERSION Commit = unwords [string_bytes "goet"; string_bytes VERSION; c] ++ [newline]) as ->.
    { unfold version_line, c. cbn [unwords]. change (string_bytes "goet ") with (string_bytes "goet" ++ [x20]).
      change (string_bytes " (") with [x20; x28]. change (string_bytes ")") with [x29]. by list_simplifier. }
    assert (Forall word [string_bytes "goet"; string_bytes VERSION; c]) as Hws by by rewrite !Forall_cons, Forall_nil.
    rewrite Htrim by done. unfold parseVersionOutput. rewrite Fields_unwords by done. rewrite bool_decide_eq_true_2 by done. cbn [negb].
    unfold Trim, c. change (x28 :: ?l) with ([x28] ++ l). rewrite trim_kept; [by rewrite bytes_string_of| | |done].
    + by repeat constructor.
    + by repeat constructor.
  - replace (string_bytes "goet " ++ string_bytes Commit ++ [newline])
      with (unwords [string_bytes "goet"; string_bytes Commit] ++ [newline])
      by (cbn [unwords]; change (string_bytes "goet ") with (string_bytes "goet" ++ [x20]); by list_simplifier).
    assert (Forall word [string_bytes "goet"; string_bytes Commit]) as Hws by by rewrite !Forall_cons, Forall_nil.
    rewrite Htrim by done. unfold parseVersionOutput. rewrite Fields_unwords by done. rewrite bool_decide_eq_true_2 by done. cbn [negb].
    by rewrite bytes_string_of.
Qed.

Lemma version_roundtrip_witness :
  (∃ out, main (W := sim None) "linux" "amd64" "0.4.0" "abc1234" ["goet"; "--version"]%string (Reader [] None) ex_hidden =
            Some (Ok (Exit 0 out), ex_hidden) ∧
          main (W := sim None) "linux" "amd64" "0.4.0" "abc1234" ["goet"; "version"]%string (Reader [] None) ex_hidden =
            Some (Ok (Exit 0 out), ex_hidden) ∧
          parseVersionOutput (TrimSpace out) = Ok "abc1234"%string) ∧
  parseVersionOutput (TrimSpace (string_bytes "goet " ++ string_bytes "abc1234" ++ [newline])) = Ok "abc1234"%string.
Proof.
  apply (version_roundtrip (W := sim None) "linux" "amd64" "0.4.0" "abc1234" "goet" (Reader [] None) ex_hidden).
  - split; [discriminate|repeat constructor].
  - split; [discriminate|repeat constructor].
  - exists x61. split; [reflexivity|]. split; [reflexivity|]. exists x34. split; reflexivity.
Defined.

(** C37: What is started is well formed.  However the program is called and
    whatever is on its standard input, the session it runs has a name and a
    passkey of 32 bytes, and so has the client; with
    [--local] its port is not 0. *)
Theorem started_well_formed {W} `{HostLaws W} GOOS GOARCH VERSION Commit os_Args stdin (w : W) r w' :
  main GOOS GOARCH VERSION Commit os_Args stdin w = Some (Ok r, w') →
  match r with
  | Exit _ _ => True
  | StartSession cfg => len (session.Passkey cfg) = 32 ∧ session.SessionID cfg ≠ ""%string
  | StartClient cfg => len (client.cfg_Passkey cfg) = 32 ∧
      (gf_local (parseGlobalFlags os_Args) = true → client.cfg_Port cfg ≠ 0)
  end.
Proof.
  unfold main. set (gf := parseGlobalFlags os_Args). destruct (_ || _); [by intros [= <- <-]|].
  intros (arg0 & w0 & _ & Hr)%io_bind_inv. destruct (_ || _).
  { unfold runSession in Hr. destruct (flag_Parse _ _) as [[fs args]|code]; [|by injection Hr as <- <-].
    case_bool_decide as Hid; [by injection Hr as <- <-|].
    destruct (ReadString _ _) as [[[line|e|p] rd]|]; [|by injection Hr as <- <-..|done].
    destruct (decode_passkey _) as [k|] eqn:Hk; injection Hr as <- <-; [|done].
    split; [by apply decode_passkey_inv in Hk|done]. }
  destruct (gf_local gf) eqn:Hl.
  { injection Hr as <- <-. unfold runClient. destruct (flag_Parse _ _) as [[fs args]|code]; [|done].
    destruct (Z.eqb_spec (flag_int fs "p") 0); [done|]. case_bool_decide; [done|].
    destruct (decode_passkey _) as [k|] eqn:Hk; [|done]. split; [by apply decode_passkey_inv in Hk|done]. }
  case_bool_decide; [by injection Hr as <- <-|].
  apply io_bind_inv in Hr as (res & w1 & Hs & Hr). destruct res as [res|e|p]; [|by injection Hr as <- <-..].
  injection Hr as <- <-. split; [|done].
  unfold io_try in Hs. destruct (SpawnSSH _ _ _ _ _ _ w0) as [[[res'| |] w2]|] eqn:E; [|done..].
  injection Hs as -> ->. by apply SpawnSSH_passkey in E.
Qed.

Lemma started_well_formed_witness :
  let args := ["goet"; "--local"; "-p"; "0x1F90"; "-k"; "3031323334353637383961626364656630313233343536373839616263646566"]%string in
  ∃ cfg, main (W := sim None) "linux" "amd64" "0.4.0" "abc1234" args (Reader [] None) ex_hidden = Some (Ok (StartClient cfg), ex_hidden) ∧
    client.cfg_Port cfg = 8080 ∧
    len (client.cfg_Passkey cfg) = 32 ∧ (gf_local (parseGlobalFlags args) = true → client.cfg_Port cfg ≠ 0).
Proof.
  intros args. eexists. split; [vm_compute; reflexivity|]. split; [reflexivity|].
  apply (started_well_formed "linux" "amd64" "0.4.0" "abc1234" args (Reader [] None) ex_hidden (StartClient _) ex_hidden).
  vm_compute. reflexivity.
Defined.

(** [--replay-size] on a session's command line changes nothing.  The flag
    is taken for a global one, which only the client uses: whatever follows
    it, number or not, the session starts with the default buffer; with one
    dash the same flag gives the size. *)
Theorem session_replay_size_ignored {W} `{HostLib W} GOOS GOARCH VERSION Commit arg0 id n key fin (w : W) :
  HasPrefix id "-" = false → id ≠ ""%string → len key = 32 → 0 <= n < 2 ^ 63 →
  let stdin := Reader (string_bytes (hex_EncodeToString key) ++ [newline]) fin in
  let session_of args := main GOOS GOARCH VERSION Commit (arg0 :: ["session"; "-f"; id]%string ++ args) stdin w in
  (∀ size, session_of ["--replay-size"%string; size] = Some (Ok (StartSession (session.MkConfig id 0 key 0)), w)) ∧
  (∀ size, session_of [("--replay-size=" +:+ size)%string] = Some (Ok (StartSession (session.MkConfig id 0 key 0)), w)) ∧
  session_of ["-replay-size"%string; Itoa n] = Some (Ok (StartSession (session.MkConfig id 0 key n)), w).
Proof.
  intros Hid Hne Hkey Hn stdin session_of.
  assert (Forall plain ["session"; "-f"; id]%string) as Hplain.
  { pose proof plain_consts as Hc. rewrite !Forall_cons in Hc. destruct Hc as (? & ? & _).
    rewrite !Forall_cons, Forall_nil. by auto using plain_no_dash. }
  set (g := add_rests ["session"; "-f"; id]%string (MkGlobalFlags false false false false false 0 [])).
  assert (∀ extra kept size,
    gf_version (parse_args extra g) = false → gf_rest (parse_args extra g) = (["session"; "-f"; id] ++ kept)%list%string →
    flag_Parse [("f", VString ""); ("p", VInt 0); ("replay-size", VInt 0)]%string (["-f"; id] ++ kept)%list%string =
      inl ([("f", VString id); ("p", VInt 0); ("replay-size", VInt size)]%string, []) →
    session_of extra = Some (Ok (StartSession (session.MkConfig id 0 key size)), w)) as Hgo.
  { intros extra kept size Hv Hr Hf. unfold session_of, stdin.
    rewrite (main_session _ _ _ _ _ _ (["-f"; id]%string ++ kept)); [by rewrite (runSession_starts _ id 0 size [])|..];
      unfold parseGlobalFlags; change (drop 1 (?a :: ?l)) with l; by rewrite parse_args_app. }
  split; [|split].
  - intros size. by apply (Hgo _ []).
  - intros size. apply (Hgo _ []); [| |done].
    all: cbn [parse_args]; unfold global_flag.
    all: rewrite !bool_decide_eq_false_2 by done; by destruct size.
  - apply (Hgo _ ["-replay-size"%string; Itoa n]).
    + rewrite parse_args_plain; [done|]. repeat constructor; try done; by apply plain_no_dash, Itoa_no_dash; lia.
    + rewrite parse_args_plain; [done|]. repeat constructor; try done; by apply plain_no_dash, Itoa_no_dash; lia.
    + transitivity (match flag_set (VInt 0) (Itoa n) with
        | Some v => flag_Parse [("f", VString id); ("p", VInt 0); ("replay-size", v)]%string []
        | None => inr 2 end); [reflexivity|].
      unfold flag_set. by rewrite ParseInt_Itoa by lia.
Qed.

Lemma session_replay_size_ignored_witness :
  let stdin := Reader (string_bytes (hex_EncodeToString ex_key) ++ [newline]) (Some EOF) in
  let session_of args := main (W := sim None) "linux" "amd64" "0.4.0" "abc1234"
    ("goet" :: ["session"; "-f"; "s1"] ++ args)%list%string stdin ex_hidden in
  (∀ size, session_of ["--replay-size"%string; size] = Some (Ok (StartSession (session.MkConfig "s1" 0 ex_key 0)), ex_hidden)) ∧
  (∀ size, session_of [("--replay-size=" +:+ size)%string] = Some (Ok (StartSession (session.MkConfig "s1" 0 ex_key 0)), ex_hidden)) ∧
  session_of ["-replay-size"%string; Itoa 65536] = Some (Ok (StartSession (session.MkConfig "s1" 0 ex_key 65536)), ex_hidden).
Proof.
  apply (session_replay_size_ignored (W := sim None) "linux" "amd64" "0.4.0" "abc1234" "goet" "s1" 65536 ex_key (Some EOF) ex_hidden);
    [reflexivity|discriminate|reflexivity|lia].
Defined.
End commandline.
