(* ===== verification/Profile.v ===== *)
(** * Profiling output ([internal/client/profile.go])

    What [--profile] prints: round-trip times and traffic with one decimal.
    [float64] values are fractions, [round53] is the rounding of IEEE 754 to 53
    bits, to the nearest and ties to even; no value here comes near the limits of
    the exponent.  The theorem bounds how far a printed number is from the
    quantity it stands for.  The record that is written to disk is here, the file
    itself in [ProfileFile]. *)

From S2P Require Import Prelude GoIO GoStrings.
Import gostrings.
Open Scope string_scope.
Open Scope Z_scope.

Module profile.

(** ** [float64] *)

(** A number, as a fraction with a positive denominator. *)
Definition float64 : Type := Z * Z.

(** The nearest integer to [n / d]. *)
Definition half_even (n d : Z) : Z :=
  let q := n / d in
  let r := n mod d in
  if 2 * r <? d then q else if d <? 2 * r then q + 1 else if Z.even q then q else q + 1.

(** [2 ^ e] is [up e / dn e]. *)
Definition up (e : Z) : Z := 2 ^ Z.max e 0.
Definition dn (e : Z) : Z := 2 ^ Z.max (- e) 0.

(** The exponent that leaves 53 bits of [n / d]. *)
Definition exponent (n d : Z) : Z :=
  let e := Z.log2 n - Z.log2 d - 53 in
  if n * dn e <? 2 ^ 53 * (d * up e) then e else e + 1.

Definition round_pos (n d : Z) : float64 :=
  let e := exponent n d in (half_even (n * dn e) (d * up e) * up e, dn e).

Definition round53 (x : float64) : float64 :=
  let '(n, d) := x in
  if n =? 0 then (0, 1)
  else if n <? 0 then let '(n', d') := round_pos (- n) d in (- n', d') else round_pos n d.

(** [float64(z)], and the quotient by a constant that is exact. *)
Definition float_of (z : Z) : float64 := round53 (z, 1).
Definition fdiv (x : float64) (k : Z) : float64 := round53 (x.1, x.2 * k).
Definition fadd (x y : float64) : float64 := round53 (x.1 * y.2 + y.1 * x.2, x.2 * y.2).

(** [%.1f] *)
Definition tenths (x : float64) : Z := half_even (10 * x.1) x.2.
Definition one_decimal (t : Z) : string := Itoa (t / 10) +:+ "." +:+ Itoa (t mod 10).
Definition fmt_f1 (x : float64) : string :=
  if x.1 <? 0 then "-" +:+ one_decimal (tenths (- x.1, x.2)) else one_decimal (tenths x).

(** ** Formatting *)

Definition msFloat (d : Z) : float64 := fdiv (float_of d) Millisecond.

Definition formatBytes (b : Z) : string :=
  if 2 ^ 30 <=? b then fmt_f1 (fdiv (float_of b) (2 ^ 30)) +:+ "GB"
  else if 2 ^ 20 <=? b then fmt_f1 (fdiv (float_of b) (2 ^ 20)) +:+ "MB"
  else if 2 ^ 10 <=? b then fmt_f1 (fdiv (float_of b) (2 ^ 10)) +:+ "KB"
  else Itoa b +:+ "B".

Definition formatDuration (d : Z) : string :=
  if d =? 0 then "0ms" else fmt_f1 (fdiv (float_of d) Millisecond) +:+ "ms".

(** [d.Round(time.Second)], away from zero in the middle. *)
Definition round_second (d : Z) : Z :=
  let r := Z.rem (Z.abs d) Second in
  Z.sgn d * (if 2 * r <? Second then Z.abs d - r else Z.abs d - r + Second).

(** [Duration.String] of whole seconds. *)
Definition seconds_string (d : Z) : string :=
  let s := Z.abs d / Second in
  (if d <? 0 then "-" else "") +:+
  (if 3600 <=? s then Itoa (s / 3600) +:+ "h" else "") +:+
  (if 60 <=? s then Itoa (s / 60 mod 60) +:+ "m" else "") +:+ Itoa (s mod 60) +:+ "s".

(** [quic.ConnectionStats], the fields that are read. *)
Record ConnectionStats : Type := MkStats {
  LatestRTT : Z; MinRTT : Z; SmoothedRTT : Z; MeanDeviation : Z;
  BytesSent : Z; BytesReceived : Z; PacketsSent : Z; PacketsReceived : Z; PacketsLost : Z;
}.

(** The line of a heartbeat; [None]: the connection is not a [ProfileableConn]. *)
Definition logProfile (conn : option ConnectionStats) : string :=
  match conn with
  | None => "[profile] transport-level stats not available for this connection type"
  | Some stats =>
    "[profile] rtt=" +:+ formatDuration (LatestRTT stats) +:+ " (min=" +:+ formatDuration (MinRTT stats) +:+
    " smooth=" +:+ formatDuration (SmoothedRTT stats) +:+ " jitter=" +:+ formatDuration (MeanDeviation stats) +:+
    ") loss=" +:+ Itoa (PacketsLost stats) +:+ "/" +:+ Itoa (PacketsSent stats) +:+ "pkts"
  end.

(** The lines of [logProfileSummary]. *)
Definition summary_lines (conn : option ConnectionStats) (duration : Z) : list string :=
  ["[profile] === Connection Profile ==="; "[profile] Duration: " +:+ seconds_string (round_second duration)] ++
  match conn with
  | None => ["[profile] Transport: TCP (transport-level stats not available)"]
  | Some stats =>
    ["[profile] RTT: min=" +:+ formatDuration (MinRTT stats) +:+ " smooth=" +:+ formatDuration (SmoothedRTT stats) +:+
       " latest=" +:+ formatDuration (LatestRTT stats) +:+ " jitter=" +:+ formatDuration (MeanDeviation stats);
     "[profile] Traffic: sent=" +:+ formatBytes (BytesSent stats) +:+ "/" +:+ Itoa (PacketsSent stats) +:+ "pkts recv=" +:+
       formatBytes (BytesReceived stats) +:+ "/" +:+ Itoa (PacketsReceived stats) +:+ "pkts lost=" +:+
       Itoa (PacketsLost stats) +:+ "pkts"]
  end.

Record profileRTT : Type := MkRTT { MinMs : float64; SmoothMs : float64; LatestMs : float64; JitterMs : float64 }.
Record profileTraffic : Type := MkTraffic {
  tr_BytesSent : Z; tr_BytesRecv : Z; tr_PktsSent : Z; tr_PktsRecv : Z; tr_PktsLost : Z;
}.
Record profileJSON : Type := MkProfile {
  Timestamp : string; Commit : string; Host : string; DurationS : float64; RTT : profileRTT; Traffic : profileTraffic;
}.

(** [duration.Seconds()] *)
Definition Seconds (d : Z) : float64 :=
  fadd (float_of (Z.quot d Second)) (fdiv (float_of (Z.rem d Second)) Second).

(** What [writeProfileJSON] writes; [timestamp] is the formatted time. *)
Definition profile_record (timestamp commit host : string) (duration : Z) (stats : ConnectionStats) : profileJSON :=
  MkProfile timestamp commit host (Seconds duration)
    (MkRTT (msFloat (MinRTT stats)) (msFloat (SmoothedRTT stats)) (msFloat (LatestRTT stats)) (msFloat (MeanDeviation stats)))
    (MkTraffic (BytesSent stats) (BytesReceived stats) (PacketsSent stats) (PacketsReceived stats) (PacketsLost stats)).

Definition logProfileSummary (timestamp commit host : string) (conn : option ConnectionStats) (duration : Z) :
    list string * option profileJSON :=
  (summary_lines conn duration, profile_record timestamp commit host duration <$> conn).

Example test_bytes :
  (formatBytes 1023, formatBytes 1536, formatBytes (2 ^ 20 - 1), formatBytes (5 * 2 ^ 30 + 1)) =
  ("1023B", "1.5KB", "1024.0KB", "5.0GB").
Proof. vm_compute. reflexivity. Qed.

Example test_duration :
  (formatDuration 0, formatDuration 250000, formatDuration 350000, formatDuration 12345678, formatDuration (- 40000)) =
  ("0ms", "0.2ms", "0.3ms", "12.3ms", "-0.0ms").
Proof. vm_compute. reflexivity. Qed.

Example test_seconds :
  (seconds_string (round_second (3600 * Second + 499 * Millisecond)), seconds_string (round_second (59500 * Millisecond))) =
  ("1h0m0s", "1m0s").
Proof. vm_compute. reflexivity. Qed.

(** ** Lemmas on rounding *)

Lemma half_even_near n d : 0 < d → 2 * Z.abs (half_even n d * d - n) <= d.
Proof.
  intros Hd. pose proof (Z.div_mod n d ltac:(lia)) as Hn. pose proof (Z.mod_pos_bound n d Hd) as Hr. unfold half_even.
  assert (n / d * d - n = - (n mod d)) as Hlow by lia. assert ((n / d + 1) * d - n = d - n mod d) as Hhigh by lia.
  destruct (Z.ltb_spec (2 * (n mod d)) d); [lia|]. destruct (Z.ltb_spec d (2 * (n mod d))); [lia|].
  destruct (Z.even (n / d)); lia.
Qed.

Lemma half_even_nonneg n d : 0 <= n → 0 < d → 0 <= half_even n d.
Proof.
  intros Hn Hd. pose proof (Z.div_pos n d Hn Hd). unfold half_even. repeat case_match; lia.
Qed.

Lemma up_dn_pos e : 0 < up e ∧ 0 < dn e.
Proof. unfold up, dn. split; apply Z.pow_pos_nonneg; lia. Qed.

Lemma up_dn_succ e : up (e + 1) * dn e = 2 * up e * dn (e + 1).
Proof.
  unfold up, dn. destruct (Z.leb_spec 0 e).
  - rewrite (Z.max_l (e + 1)), (Z.max_r (- e)), (Z.max_l e), (Z.max_r (- (e + 1))), Z.pow_add_r by lia. lia.
  - rewrite (Z.max_r (e + 1)), (Z.max_l (- e)), (Z.max_r e), (Z.max_l (- (e + 1))) by lia.
    replace (- e) with (- (e + 1) + 1) by lia. rewrite Z.pow_add_r by lia. lia.
Qed.

(** The first guess is right up to one. *)
Lemma exponent_guess n d :
  0 < n → 0 < d → let e := Z.log2 n - Z.log2 d - 53 in 2 ^ 52 * (d * up e) <= n * dn e.
Proof.
  intros Hn Hd e. pose proof (Z.log2_spec n Hn) as [Hn1 Hn2]. pose proof (Z.log2_spec d Hd) as [Hd1 Hd2].
  pose proof (Z.log2_nonneg n). pose proof (Z.log2_nonneg d). rewrite Z.pow_succ_r in Hd2 by lia.
  unfold up, dn. destruct (Z.leb_spec 0 e).
  - rewrite Z.max_l, Z.max_r, Z.pow_0_r, Z.mul_1_r by lia. etrans; [|exact Hn1].
    replace (Z.log2 n) with (52 + (Z.log2 d + 1 + e)) by (unfold e; lia).
    rewrite (Z.pow_add_r 2 52), Z.pow_add_r, Z.pow_add_r by lia. pose proof (Z.pow_pos_nonneg 2 e). nia.
  - rewrite Z.max_r, Z.max_l, Z.pow_0_r, Z.mul_1_r by lia.
    assert (2 ^ Z.log2 n * 2 ^ (- e) = 2 ^ 52 * (2 * 2 ^ Z.log2 d)) as He.
    { rewrite <-Z.pow_add_r, <-(Z.pow_succ_r 2), <-Z.pow_add_r by lia. f_equal. unfold e. lia. }
    pose proof (Z.pow_pos_nonneg 2 (- e)). nia.
Qed.

Lemma exponent_spec n d : 0 < n → 0 < d → 2 ^ 52 * (d * up (exponent n d)) <= n * dn (exponent n d).
Proof.
  intros Hn Hd. unfold exponent. set (e := Z.log2 n - Z.log2 d - 53).
  destruct (Z.ltb_spec (n * dn e) (2 ^ 53 * (d * up e))) as [Hlt|Hge]; [by apply exponent_guess|].
  pose proof (up_dn_succ e) as Hs. destruct (up_dn_pos e) as [Hu Hv], (up_dn_pos (e + 1)) as [Hu' Hv'].
  apply (Z.mul_le_mono_pos_r _ _ (dn e)); [done|].
  replace (2 ^ 52 * (d * up (e + 1)) * dn e) with (2 ^ 53 * (d * up e) * dn (e + 1)) by nia.
  nia.
Qed.

(** [x] is within one part in 2^53 of [n / d]. *)
Definition close (x : float64) (n d : Z) : Prop :=
  0 <= x.1 ∧ 0 < x.2 ∧ 2 ^ 53 * Z.abs (x.1 * d - n * x.2) <= n * x.2.

Lemma round53_close n d : 0 <= n → 0 < d → close (round53 (n, d)) n d.
Proof.
  intros Hn Hd. unfold round53. destruct (Z.eqb_spec n 0) as [->|Hn0]; [unfold close; simpl; lia|].
  rewrite (proj2 (Z.ltb_ge n 0)) by lia. unfold round_pos. set (e := exponent n d).
  destruct (up_dn_pos e) as [Hu Hv]. pose proof (exponent_spec n d ltac:(lia) Hd) as He. fold e in He.
  pose proof (half_even_near (n * dn e) (d * up e) ltac:(nia)) as Hq.
  pose proof (half_even_nonneg (n * dn e) (d * up e) ltac:(nia) ltac:(nia)) as Hq0.
  split; [simpl; nia|]. split; [done|]. simpl.
  replace (half_even (n * dn e) (d * up e) * up e * d - n * dn e)
    with (half_even (n * dn e) (d * up e) * (d * up e) - n * dn e) by ring. nia.
Qed.

(** A quantity [n] in units of [u], as it is printed. *)
Lemma printed_close n u :
  0 <= n → 0 < u →
  ∃ t, fmt_f1 (fdiv (float_of n) u) = one_decimal t ∧ 0 <= t ∧ 2 ^ 53 * Z.abs (t * u - 10 * n) <= 2 ^ 52 * u + 30 * n.
Proof.
  intros Hn Hu. unfold fdiv, float_of. destruct (round53_close n 1 Hn ltac:(lia)) as (Ha & Hb & Hc).
  destruct (round53 (n, 1)) as [n1 d1]. cbn [fst snd] in *.
  destruct (round53_close n1 (d1 * u) Ha ltac:(nia)) as (Ha2 & Hb2 & Hc2).
  destruct (round53 (n1, d1 * u)) as [n2 d2]. cbn [fst snd] in *.
  exists (half_even (10 * n2) d2). split.
  { unfold fmt_f1, tenths. cbn [fst snd]. by rewrite (proj2 (Z.ltb_ge n2 0)). }
  split; [apply half_even_nonneg; lia|].
  pose proof (half_even_near (10 * n2) d2 Hb2) as Hd. set (t := half_even (10 * n2) d2) in *. clearbody t.
  set (A := n1 * 1 - n * d1) in *. set (B := n2 * (d1 * u) - n1 * d2) in *. set (E := t * d2 - 10 * n2) in *.
  assert ((t * u - 10 * n) * (d1 * d2) = u * d1 * E + 10 * B + 10 * d2 * A) as Heq by (unfold A, B, E; ring).
  assert (Z.abs ((t * u - 10 * n) * (d1 * d2)) <= u * d1 * Z.abs E + 10 * Z.abs B + 10 * d2 * Z.abs A) as Habs.
  { rewrite Heq. pose proof (Z.abs_triangle (u * d1 * E + 10 * B) (10 * d2 * A)).
    pose proof (Z.abs_triangle (u * d1 * E) (10 * B)). rewrite !Z.abs_mul, (Z.abs_eq u), (Z.abs_eq d1), (Z.abs_eq d2) in * by lia. lia. }
  rewrite Z.abs_mul, (Z.abs_eq (d1 * d2)) in Habs by nia.
  assert (n1 <= 2 * (n * d1)) as Hn1 by (unfold A in Hc; lia).
  apply (Z.mul_le_mono_pos_r _ _ (d1 * d2)); [nia|].
  assert (2 ^ 53 * (u * d1 * Z.abs E) <= 2 ^ 52 * u * (d1 * d2)) as He by nia.
  assert (2 ^ 53 * (10 * Z.abs B) <= 20 * n * (d1 * d2)) as Hb' by nia.
  assert (2 ^ 53 * (10 * d2 * Z.abs A) <= 10 * n * (d1 * d2)) as Ha' by nia.
  lia.
Qed.

(** ** Property *)

(** C40: What is printed is what was measured.  A duration is printed in
    milliseconds as the decimal of a number [t] of tenths, a byte count below
    1024 exactly and otherwise in the largest of KB, MB and GB that does not exceed
    it; the tenths are off by at most one half, and the two roundings of the
    [float64] division, three parts in 2^53, so nothing is lost in the conversions. *)
Theorem printed_quantities_close :
  (∀ d, 0 < d < 2 ^ 63 →
    ∃ t, formatDuration d = one_decimal t +:+ "ms" ∧ 0 <= t ∧
      2 ^ 53 * Z.abs (t * Millisecond - 10 * d) <= 2 ^ 52 * Millisecond + 30 * d) ∧
  (∀ b, 0 <= b < 2 ^ 64 →
    (b < 2 ^ 10 ∧ formatBytes b = Itoa b +:+ "B") ∨
    ∃ t u unit, (u, unit) ∈ [(2 ^ 10, "KB"); (2 ^ 20, "MB"); (2 ^ 30, "GB")] ∧
      u <= b ∧ (unit = "GB" ∨ b < 2 ^ 10 * u) ∧ formatBytes b = one_decimal t +:+ unit ∧ 0 <= t ∧
      2 ^ 53 * Z.abs (t * u - 10 * b) <= 2 ^ 52 * u + 30 * b).
Proof.
  split.
  - intros d Hd. destruct (printed_close d Millisecond) as (t & Ht & H0 & Hc); [lia|done|]. exists t.
    unfold formatDuration. by rewrite (proj2 (Z.eqb_neq d 0)), Ht by lia.
  - intros b Hb. unfold formatBytes.
    assert (∀ u unit, (u, unit) ∈ [(2 ^ 10, "KB"); (2 ^ 20, "MB"); (2 ^ 30, "GB")] → u <= b → unit = "GB" ∨ b < 2 ^ 10 * u →
      ∃ t u' unit', (u', unit') ∈ [(2 ^ 10, "KB"); (2 ^ 20, "MB"); (2 ^ 30, "GB")] ∧
        u' <= b ∧ (unit' = "GB" ∨ b < 2 ^ 10 * u') ∧
        fmt_f1 (fdiv (float_of b) u) +:+ unit = one_decimal t +:+ unit' ∧ 0 <= t ∧
        2 ^ 53 * Z.abs (t * u' - 10 * b) <= 2 ^ 52 * u' + 30 * b) as Hunit.
    { intros u unit Hin Hu Hr. assert (0 < u) as Hu0.
      { rewrite !elem_of_cons in Hin. destruct Hin as [[= -> _]|[[= -> _]|[[= -> _]|Hin]]]; [done..|by apply not_elem_of_nil in Hin]. }
      destruct (printed_close b u) as (t & Ht & H0 & Hc); [lia|done|]. exists t, u, unit. by rewrite Ht. }
    destruct (Z.leb_spec (2 ^ 30) b); [right; apply Hunit; [rewrite !elem_of_cons; auto|done|by left]|].
    destruct (Z.leb_spec (2 ^ 20) b); [right; apply Hunit; [rewrite !elem_of_cons; auto|done|right; lia]|].
    destruct (Z.leb_spec (2 ^ 10) b); [right; apply Hunit; [rewrite !elem_of_cons; auto|done|right; lia]|].
    by left.
Qed.
End profile.
