(* ===== verification/ProfileFile.v ===== *)
(** * The profile on disk ([writeProfileJSON] in [internal/client/profile.go])

    The file [--profile] leaves in /tmp: what [encoding/json], [strconv] and
    [time] make of the record of [Profile].  Dates are computed from the days
    since 1970, [float64] values are printed with the least number of digits
    that reads back as the same value, strings are escaped rune by rune.  The other half
    is a reader that knows nothing of the printer: a parser of JSON texts
    ([Unmarshal]), the values of its numbers, and RFC 3339.  What the theorem
    shows: the file has the members it should have, each with the statistic of
    its name. *)

From S2P Require Import Prelude GoIO GoStrings Profile.
Import gostrings.
Open Scope list_scope.
Open Scope go_scope.

Module profilefile.
Import profile.

(** ** [time.Time.Format] *)

(** The Gregorian calendar: the lengths of months, and the days from 1970-01-01
    to January 1 of [y] and to a date. *)
Definition leap (y : Z) : bool := (y mod 4 =? 0) && (negb (y mod 100 =? 0) || (y mod 400 =? 0)).
Definition month_days (y m : Z) : Z :=
  if m =? 2 then (if leap y then 29 else 28) else if bool_decide (m ∈ [4; 6; 9; 11]) then 30 else 31.

Definition days_before_year (y : Z) : Z := 365 * (y - 1970) + ((y - 1) / 4 - (y - 1) / 100 + (y - 1) / 400) - 477.

Fixpoint days_before_month (y : Z) (months : nat) : Z :=
  match months with O => 0 | S k => days_before_month y k + month_days y (Z.of_nat (S k)) end.

Definition date_day (date : Z * Z * Z) : Z :=
  let '(y, m, d) := date in days_before_year y + days_before_month y (Z.to_nat (m - 1)) + (d - 1).

Definition valid_date (date : Z * Z * Z) : Prop :=
  let '(y, m, d) := date in 1 <= m <= 12 ∧ 1 <= d <= month_days y m.

(** The date of a day: the year is the mean guess or next to it, the month is
    found by counting. *)
Definition year_of (days : Z) : Z :=
  let y := 1970 + 400 * days / 146097 in
  if days <? days_before_year y then y - 1 else if days_before_year (y + 1) <=? days then y + 1 else y.

Fixpoint month_of (y : Z) (doy m : Z) (left : nat) : Z * Z :=
  match left with
  | O => (m, doy + 1)
  | S k => if doy <? month_days y m then (m, doy + 1) else month_of y (doy - month_days y m) (m + 1) k
  end.

Definition civil (days : Z) : Z * Z * Z :=
  let y := year_of days in
  let '(m, d) := month_of y (days - days_before_year y) 1 11 in (y, m, d).

(** [appendInt(b, n, width)] *)
Fixpoint zeros (k : nat) : string := match k with O => ""%string | S k => ("0" +:+ zeros k)%string end.
Definition pad (width : nat) (n : Z) : string :=
  (zeros (width - String.length (Itoa n)) +:+ Itoa n)%string.

(** The fields of a time of day, in seconds. *)
Definition clock (secs : Z) : Z * Z * Z := (secs / 3600, secs / 60 mod 60, secs mod 60).

(** The layouts [time.RFC3339], of a time in UTC, and ["20060102-150405"]; the
    argument is in seconds of the clock that is shown. *)
Definition format_RFC3339 (secs : Z) : string :=
  let '(y, m, d) := civil (secs / 86400) in
  let '(h, mi, s) := clock (secs mod 86400) in
  (pad 4 y +:+ "-" +:+ pad 2 m +:+ "-" +:+ pad 2 d +:+ "T" +:+ pad 2 h +:+ ":" +:+ pad 2 mi +:+ ":" +:+ pad 2 s +:+ "Z")%string.

Definition format_compact (secs : Z) : string :=
  let '(y, m, d) := civil (secs / 86400) in
  let '(h, mi, s) := clock (secs mod 86400) in
  (pad 4 y +:+ pad 2 m +:+ pad 2 d +:+ "-" +:+ pad 2 h +:+ pad 2 mi +:+ pad 2 s)%string.

Example test_dates :
  (format_RFC3339 0, format_RFC3339 951827696, format_RFC3339 1735689599, format_compact 4107542399) =
  ("1970-01-01T00:00:00Z", "2000-02-29T12:34:56Z", "2024-12-31T23:59:59Z", "21000228-235959")%string.
Proof. vm_compute. reflexivity. Qed.

(** *** The date of a day is a date, and its *)

Lemma days_before_year_step y : days_before_year (y + 1) = days_before_year y + (if leap y then 366 else 365).
Proof.
  unfold days_before_year, leap. replace (y + 1 - 1) with y by lia.
  pose proof (Z.div_mod y 4 ltac:(lia)). pose proof (Z.div_mod (y - 1) 4 ltac:(lia)).
  pose proof (Z.div_mod y 100 ltac:(lia)). pose proof (Z.div_mod (y - 1) 100 ltac:(lia)).
  pose proof (Z.div_mod y 400 ltac:(lia)). pose proof (Z.div_mod (y - 1) 400 ltac:(lia)).
  pose proof (Z.mod_pos_bound y 4 ltac:(lia)). pose proof (Z.mod_pos_bound (y - 1) 4 ltac:(lia)).
  pose proof (Z.mod_pos_bound y 100 ltac:(lia)). pose proof (Z.mod_pos_bound (y - 1) 100 ltac:(lia)).
  pose proof (Z.mod_pos_bound y 400 ltac:(lia)). pose proof (Z.mod_pos_bound (y - 1) 400 ltac:(lia)).
  destruct (Z.eqb_spec (y mod 4) 0), (Z.eqb_spec (y mod 100) 0), (Z.eqb_spec (y mod 400) 0); simpl; lia.
Qed.

(** The calendar drifts from the mean by less than two days. *)
Lemma days_before_year_mean y : 146097 * (y - 1970) - 800 <= 400 * days_before_year y <= 146097 * (y - 1970) + 800.
Proof.
  unfold days_before_year.
  pose proof (Z.div_mod (y - 1) 4 ltac:(lia)). pose proof (Z.div_mod (y - 1) 100 ltac:(lia)). pose proof (Z.div_mod (y - 1) 400 ltac:(lia)).
  pose proof (Z.mod_pos_bound (y - 1) 4 ltac:(lia)). pose proof (Z.mod_pos_bound (y - 1) 100 ltac:(lia)).
  pose proof (Z.mod_pos_bound (y - 1) 400 ltac:(lia)). lia.
Qed.

Lemma year_of_spec days : days_before_year (year_of days) <= days < days_before_year (year_of days + 1).
Proof.
  unfold year_of. set (y := 1970 + 400 * days / 146097).
  assert (146097 * (y - 1970) <= 400 * days < 146097 * (y - 1970) + 146097) as Hy.
  { pose proof (Z.div_mod (400 * days) 146097 ltac:(lia)). pose proof (Z.mod_pos_bound (400 * days) 146097 ltac:(lia)). lia. }
  clearbody y. pose proof (days_before_year_mean (y - 1)). pose proof (days_before_year_mean (y + 2)).
  destruct (Z.ltb_spec days (days_before_year y)); [|destruct (Z.leb_spec (days_before_year (y + 1)) days)].
  - replace (y - 1 + 1) with y by lia. lia.
  - replace (y + 1 + 1) with (y + 2) by lia. lia.
  - lia.
Qed.

Lemma month_days_range y m : 28 <= month_days y m <= 31.
Proof. unfold month_days. repeat case_match; lia. Qed.

Lemma month_of_spec y doy m k :
  0 <= doy → 1 <= m → doy < days_before_month y (Z.to_nat (m - 1) + S k) - days_before_month y (Z.to_nat (m - 1)) →
  let '(m', d) := month_of y doy m k in
  m <= m' <= m + Z.of_nat k ∧ 1 <= d <= month_days y m' ∧
  days_before_month y (Z.to_nat (m' - 1)) + (d - 1) = days_before_month y (Z.to_nat (m - 1)) + doy.
Proof.
  revert doy m. induction k as [|k IH]; intros doy m Hd Hm Hlt; cbn [month_of].
  - rewrite Nat.add_1_r in Hlt. cbn [days_before_month] in Hlt. replace (Z.of_nat (S (Z.to_nat (m - 1)))) with m in Hlt by lia. lia.
  - destruct (Z.ltb_spec doy (month_days y m)) as [Hin|Hout]; [lia|].
    assert (days_before_month y (Z.to_nat (m + 1 - 1)) = days_before_month y (Z.to_nat (m - 1)) + month_days y m) as Hs.
    { replace (Z.to_nat (m + 1 - 1)) with (S (Z.to_nat (m - 1))) by lia. cbn [days_before_month]. do 2 f_equal. lia. }
    specialize (IH (doy - month_days y m) (m + 1)). destruct (month_of _ _ _ _) as [m' d].
    destruct IH as (H1 & H2 & H3); [lia|lia| |lia].
    replace (Z.to_nat (m + 1 - 1) + S k)%nat with (Z.to_nat (m - 1) + S (S k))%nat by lia. lia.
Qed.

Lemma year_length y : days_before_month y 12 = if leap y then 366 else 365.
Proof. cbn. unfold month_days. simpl. destruct (leap y); reflexivity. Qed.

Lemma civil_spec days : valid_date (civil days) ∧ date_day (civil days) = days.
Proof.
  unfold civil. pose proof (year_of_spec days) as Hy. rewrite days_before_year_step, <-year_length in Hy.
  set (y := year_of days) in *. pose proof (month_of_spec y (days - days_before_year y) 1 11) as Hm.
  destruct (month_of _ _ _ _) as [m d]. destruct Hm as (H1 & H2 & H3); [lia|done|simpl in *; lia|].
  unfold valid_date, date_day. simpl in H3. lia.
Qed.
(** ** [strconv.AppendFloat(f, fmt, -1, 64)] *)

(** Equal values. *)
Definition feq (x y : float64) : bool := x.1 * y.2 =? y.1 * x.2.

Definition below (x y : float64) : bool := x.1 * y.2 <? y.1 * x.2.

(** [m * 10^q] *)
Definition pos10 (q : Z) : Z := 10 ^ Z.max q 0.
Definition decimal (m q : Z) : float64 := (m * pos10 q, pos10 (- q)).

(** The decimal reads back as [x]. *)
Definition reads_as (m q : Z) (x : float64) : bool := feq (round53 (decimal m q)) x.

(** The number of digits of [n / d] before the point; it is negative when zeros
    follow the point. *)
Fixpoint digits_up (fuel : nat) (p n d : Z) : Z :=
  match fuel with
  | O => p
  | S f => if n <? d * 10 ^ p then p else digits_up f (p + 1) n d
  end.
Fixpoint digits_down (fuel : nat) (j n d : Z) : Z :=
  match fuel with
  | O => j
  | S f => if n * 10 ^ (j + 1) <? d then digits_down f (j + 1) n d else j
  end.
Definition point (n d : Z) : Z :=
  if n <? d then - digits_down (S (Z.to_nat (Z.log2 d))) 0 n d else digits_up (S (Z.to_nat (Z.log2 n))) 0 n d.

(** With [k] digits, then with more: the nearest of the two decimals around
    [x] if both read back, else the one that does; 17 digits are enough. *)
Fixpoint shortest (more : nat) (k p : Z) (x : float64) : Z * Z :=
  let q := p - k in
  let num := x.1 * pos10 (- q) in
  let den := x.2 * pos10 q in
  let down := reads_as (num / den) q x in
  let up := reads_as (num / den + 1) q x in
  if down && negb up then (num / den, q)
  else if up && negb down then (num / den + 1, q)
  else match more with
       | O => (half_even num den, q)
       | S more => if down then (half_even num den, q) else shortest more (k + 1) p x
       end.

Definition shortest_decimal (x : float64) : Z * Z := shortest 16 1 (point x.1 x.2) x.

(** Without zeros at the end. *)
Fixpoint strip (fuel : nat) (m q : Z) : Z * Z :=
  match fuel with
  | S f => if m mod 10 =? 0 then strip f (m / 10) (q + 1) else (m, q)
  | O => (m, q)
  end.

Definition zero_bytes (k : Z) : bytes := replicate (Z.to_nat k) x30.
Definition dot : byte := x2e.

(** ['f'] and ['e'], from the digits of [m * 10^q]. *)
Definition format_f (m q : Z) : bytes :=
  let ds := Utoa m in
  let dp := len ds + q in
  if 0 <=? q then ds ++ zero_bytes q
  else if 0 <? dp then take (Z.to_nat dp) ds ++ dot :: drop (Z.to_nat dp) ds
  else x30 :: dot :: zero_bytes (- dp) ++ ds.

Definition format_e (m q : Z) : bytes :=
  let ds := Utoa m in
  let e := len ds + q - 1 in
  take 1 ds ++ (if 1 <? len ds then dot :: drop 1 ds else []) ++
  x65 :: (if e <? 0 then x2d else x2b) :: Utoa (Z.abs e).

(** [floatEncoder] of [encoding/json]: the exponent has no leading zero. *)
Definition format_pos (x : float64) : bytes :=
  let '(m, q) := shortest_decimal x in
  let '(m, q) := strip 17 m q in
  if below x (round53 (1, 10 ^ 6)) || negb (below x (10 ^ 21, 1)) then format_e m q else format_f m q.

Definition format_float (x : float64) : bytes :=
  if x.1 =? 0 then [x30] else if x.1 <? 0 then x2d :: format_pos (- x.1, x.2) else format_pos x.

Example test_floats :
  (λ x, bytes_string (format_float x)) <$>
    [(0, 1); msFloat 1; msFloat 250000; msFloat 12345678; msFloat 30000000000; Seconds 1; Seconds 1234567890; Seconds 100;
     (1, 2 ^ 44); round53 (10 ^ 21, 1); round53 (2, 3); (5, 1)] =
  ["0"; "0.000001"; "0.25"; "12.345678"; "30000"; "1e-9"; "1.2345678900000001"; "1e-7"; "5.684341886080802e-14"; "1e+21"; "0.6666666666666666"; "5"]%string.
Proof. vm_compute. reflexivity. Qed.
(** *** Reading back *)

Lemma up_dn_shift E e : E <= e → up e * dn E = 2 ^ (e - E) * (up E * dn e).
Proof.
  intros He. unfold up, dn. destruct (Z.leb_spec 0 E).
  - rewrite (Z.max_l e), (Z.max_r (- E)), (Z.max_l E), (Z.max_r (- e)) by lia.
    replace e with (e - E + E) at 1 by lia. rewrite Z.pow_add_r by lia. ring.
  - destruct (Z.leb_spec 0 e).
    + rewrite (Z.max_l e), (Z.max_l (- E)), (Z.max_r E), (Z.max_r (- e)) by lia.
      replace (e - E) with (e + - E) by lia. rewrite Z.pow_add_r by lia. ring.
    + rewrite (Z.max_r e), (Z.max_l (- E)), (Z.max_r E), (Z.max_l (- e)) by lia.
      replace (- E) with (e - E + - e) by lia. rewrite Z.pow_add_r by lia. ring.
Qed.

Lemma exponent_upper n d : 0 < n → 0 < d → n * dn (exponent n d) < 2 ^ 53 * (d * up (exponent n d)).
Proof.
  intros Hn Hd. unfold exponent. set (e := Z.log2 n - Z.log2 d - 53).
  destruct (Z.ltb_spec (n * dn e) (2 ^ 53 * (d * up e))) as [Hlt|_]; [done|].
  pose proof (Z.log2_spec n Hn) as [_ Hn2]. pose proof (Z.log2_spec d Hd) as [Hd1 _].
  pose proof (Z.log2_nonneg n). pose proof (Z.log2_nonneg d). unfold up, dn. destruct (Z.leb_spec 0 (e + 1)).
  - rewrite (Z.max_l (e + 1)), (Z.max_r (- (e + 1))), Z.pow_0_r, Z.mul_1_r by lia. eapply Z.lt_le_trans; [exact Hn2|].
    replace (Z.succ (Z.log2 n)) with (53 + (Z.log2 d + (e + 1))) by (unfold e; lia).
    rewrite (Z.pow_add_r 2 53), Z.pow_add_r by lia. pose proof (Z.pow_pos_nonneg 2 (e + 1)). nia.
  - rewrite (Z.max_r (e + 1)), (Z.max_l (- (e + 1))), Z.pow_0_r, Z.mul_1_r by lia.
    assert (2 ^ Z.succ (Z.log2 n) * 2 ^ (- (e + 1)) = 2 ^ 53 * 2 ^ Z.log2 d) as He.
    { rewrite <-!Z.pow_add_r by lia. f_equal. unfold e. lia. }
    pose proof (Z.pow_pos_nonneg 2 (- (e + 1))). nia.
Qed.

Lemma half_even_is n d m : 0 < d → 2 * Z.abs (n - m * d) < d → half_even n d = m.
Proof.
  intros Hd Hm. pose proof (half_even_near n d Hd). set (h := half_even n d) in *. clearbody h.
  assert (Z.abs ((h - m) * d) < d) as Hh by lia. rewrite Z.abs_mul, (Z.abs_eq d) in Hh by lia. nia.
Qed.

(** [n / d] within one part in 2^54 of [M * 2^e]. *)
Definition near (n d M e : Z) : Prop := 2 ^ 54 * Z.abs (n * dn e - M * (d * up e)) < M * (d * up e).

(** Its exponent is [e], or one less just below a power of two. *)
Lemma exponent_near n d M e :
  0 < n → 0 < d → 2 ^ 52 <= M < 2 ^ 53 → near n d M e →
  let E := exponent n d in E <= e <= E + 1 ∧ (e = E + 1 → M = 2 ^ 52).
Proof.
  intros Hn Hd HM Hne E. unfold near in Hne. pose proof (exponent_spec n d Hn Hd) as Hlo. pose proof (exponent_upper n d Hn Hd) as Hhi. fold E in Hlo, Hhi.
  destruct (up_dn_pos e) as [Hu Hv], (up_dn_pos E) as [Hu' Hv'].
  assert (E <= e) as HEe.
  { destruct (Z.leb_spec E e) as [|Hgt]; [done|exfalso]. pose proof (up_dn_shift e E ltac:(lia)) as Hs.
    assert (2 * (up e * dn E) <= up E * dn e) as H2.
    { rewrite Hs. replace (E - e) with (Z.succ (E - e - 1)) by lia. rewrite Z.pow_succ_r by lia.
      pose proof (Z.pow_pos_nonneg 2 (E - e - 1) ltac:(lia) ltac:(lia)). nia. }
    assert (2 ^ 53 * (d * up e) * dn E <= n * dn e * dn E) by nia.
    assert (2 ^ 53 * (d * up e) <= n * dn e) by nia. nia. }
  assert (∀ c, c * (up E * dn e) <= up e * dn E → c * (n * dn e) < 2 ^ 53 * (d * up e)) as Hc by (intros c Hc; nia).
  pose proof (up_dn_shift E e HEe) as Hs. split.
  - split; [done|]. destruct (Z.leb_spec e (E + 1)) as [|Hgt]; [done|exfalso]. specialize (Hc 4). rewrite Hs in Hc.
    replace (e - E) with (2 + (e - E - 2)) in Hc by lia. rewrite Z.pow_add_r in Hc by lia.
    pose proof (Z.pow_pos_nonneg 2 (e - E - 2) ltac:(lia) ltac:(lia)). nia.
  - intros ->. specialize (Hc 2). rewrite Hs in Hc. replace (E + 1 - E) with 1 in Hc by lia. nia.
Qed.

Lemma half_even_near_is n d M e :
  0 < n → 0 < d → 2 ^ 52 <= M < 2 ^ 53 → near n d M e →
  half_even (n * dn (exponent n d)) (d * up (exponent n d)) * up (exponent n d) * dn e = M * up e * dn (exponent n d).
Proof.
  intros Hn Hd HM Hne. destruct (exponent_near n d M e Hn Hd HM Hne) as [HE HM2]. set (E := exponent n d) in *.
  destruct (up_dn_pos e) as [Hu Hv], (up_dn_pos E) as [Hu' Hv']. unfold near in Hne.
  destruct (decide (E = e)) as [->|HEe]; [by rewrite (half_even_is _ _ M); [|nia|nia]|].
  assert (e = E + 1) as -> by lia. rewrite HM2 in * by done. pose proof (up_dn_succ E) as Hs.
  rewrite (half_even_is _ _ (2 ^ 53)); [|nia|].
  - replace (2 ^ 52 * up (E + 1) * dn E) with (2 ^ 52 * (up (E + 1) * dn E)) by ring. rewrite Hs. ring.
  - apply (Z.mul_lt_mono_pos_r (dn (E + 1))); [done|].
    set (D := Z.abs (n * dn (E + 1) - 2 ^ 52 * (d * up (E + 1)))) in *.
    assert (Z.abs (n * dn E - 2 ^ 53 * (d * up E)) * dn (E + 1) = dn E * D) as Hd1.
    { unfold D. rewrite <-(Z.abs_eq (dn (E + 1))) at 1 by lia. rewrite <-(Z.abs_eq (dn E)) at 2 by lia. rewrite <-!Z.abs_mul. f_equal.
      replace (dn E * (n * dn (E + 1) - 2 ^ 52 * (d * up (E + 1)))) with (dn E * n * dn (E + 1) - 2 ^ 52 * d * (up (E + 1) * dn E)) by ring.
      rewrite Hs. ring. }
    replace (2 * Z.abs (n * dn E - 2 ^ 53 * (d * up E)) * dn (E + 1)) with (2 * (dn E * D)) by lia.
    assert (4 * D * dn E < d * (up (E + 1) * dn E)) as HD by nia. rewrite Hs in HD. lia.
Qed.

(** A 53-bit number [x]. *)
Definition is_float (x : float64) : Prop :=
  0 < x.1 ∧ 0 < x.2 ∧ ∃ M e, 2 ^ 52 <= M < 2 ^ 53 ∧ x.1 * dn e = M * up e * x.2.

(** Anything within one part in 2^54 of it is rounded to it. *)
Lemma round53_to n d (x : float64) :
  is_float x → 0 < n → 0 < d → 2 ^ 54 * Z.abs (n * x.2 - x.1 * d) < x.1 * d → feq (round53 (n, d)) x = true.
Proof.
  intros (Hx1 & Hx2 & M & e & HM & Hx) Hn Hd Hnear. destruct (up_dn_pos e) as [Hu Hv].
  unfold round53. rewrite (proj2 (Z.eqb_neq n 0)), (proj2 (Z.ltb_ge n 0)) by lia. unfold round_pos, feq. cbn [fst snd]. apply Z.eqb_eq.
  assert (near n d M e) as Hne.
  { apply (Z.mul_lt_mono_pos_r x.2); [done|].
    assert (M * (d * up e) * x.2 = x.1 * d * dn e) as Hm by nia. rewrite Hm.
    assert (Z.abs (n * dn e - M * (d * up e)) * x.2 = dn e * Z.abs (n * x.2 - x.1 * d)) as Ha.
    { rewrite <-(Z.abs_eq x.2) at 1 by lia. rewrite <-(Z.abs_eq (dn e)) at 2 by lia. rewrite <-!Z.abs_mul. f_equal. lia. }
    replace (2 ^ 54 * Z.abs (n * dn e - M * (d * up e)) * x.2) with (dn e * (2 ^ 54 * Z.abs (n * x.2 - x.1 * d))) by lia. nia. }
  pose proof (half_even_near_is n d M e Hn Hd HM Hne) as Heq. set (E := exponent n d) in *.
  apply (Z.mul_reg_r _ _ (dn e)); [lia|].
  replace (x.1 * dn E * dn e) with (x.1 * dn e * dn E) by ring. rewrite Hx.
  replace (M * up e * x.2 * dn E) with (M * up e * dn E * x.2) by ring. rewrite <-Heq. ring.
Qed.
Lemma half_even_bounds n d a b : 0 < d → a * d <= n → n < b * d → a <= half_even n d <= b.
Proof. intros Hd Ha Hb. pose proof (half_even_near n d Hd). set (h := half_even n d) in *. clearbody h. nia. Qed.

(** What rounding gives is such a number. *)
Lemma round53_float n d : 0 < n → 0 < d → is_float (round53 (n, d)).
Proof.
  intros Hn Hd. unfold round53. rewrite (proj2 (Z.eqb_neq n 0)), (proj2 (Z.ltb_ge n 0)) by lia. unfold round_pos.
  pose proof (exponent_spec n d Hn Hd) as Hlo. pose proof (exponent_upper n d Hn Hd) as Hhi. set (E := exponent n d) in *.
  destruct (up_dn_pos E) as [Hu Hv].
  pose proof (half_even_bounds (n * dn E) (d * up E) (2 ^ 52) (2 ^ 53) ltac:(nia) Hlo Hhi) as Hh. set (h := half_even _ _) in *. clearbody h.
  split; [simpl; nia|]. split; [done|]. cbn [fst snd]. destruct (decide (h = 2 ^ 53)) as [->|Hne].
  - exists (2 ^ 52), (E + 1). split; [lia|]. pose proof (up_dn_succ E) as Hs.
    replace (2 ^ 52 * up (E + 1) * dn E) with (2 ^ 52 * (up (E + 1) * dn E)) by ring. rewrite Hs. ring.
  - exists h, E. split; [lia|ring].
Qed.

Lemma pos10_shift a b : b <= a → pos10 a * pos10 (- b) = 10 ^ (a - b) * (pos10 b * pos10 (- a)).
Proof.
  intros He. unfold pos10. destruct (Z.leb_spec 0 b).
  - rewrite (Z.max_l a), (Z.max_r (- b)), (Z.max_l b), (Z.max_r (- a)) by lia.
    replace a with (a - b + b) at 1 by lia. rewrite Z.pow_add_r by lia. ring.
  - destruct (Z.leb_spec 0 a).
    + rewrite (Z.max_l a), (Z.max_l (- b)), (Z.max_r b), (Z.max_r (- a)) by lia.
      replace (a - b) with (a + - b) by lia. rewrite Z.pow_add_r by lia. ring.
    + rewrite (Z.max_r a), (Z.max_l (- b)), (Z.max_r b), (Z.max_l (- a)) by lia.
      replace (- b) with (a - b + - a) by lia. rewrite Z.pow_add_r by lia. ring.
Qed.

Lemma pos10_pos q : 0 < pos10 q.
Proof. unfold pos10. apply Z.pow_pos_nonneg; lia. Qed.

Lemma digits_down_spec f j n d :
  0 < n → 0 < d → 0 <= j → Z.log2 d < j + Z.of_nat f →
  let j' := digits_down f j n d in 0 <= j' ∧ d <= n * 10 ^ (j' + 1).
Proof.
  intros Hn Hd. revert j. induction f as [|f IH]; intros j Hj Hf j'; unfold j'; cbn [digits_down].
  - split; [done|]. pose proof (Z.log2_spec d Hd) as [_ Hl]. pose proof (Z.log2_nonneg d).
    assert (2 ^ Z.succ (Z.log2 d) <= 10 ^ (j + 1)); [|nia].
    etrans; [apply (Z.pow_le_mono_r 2 _ (j + 1)); lia|apply Z.pow_le_mono_l; lia].
  - destruct (Z.ltb_spec (n * 10 ^ (j + 1)) d); [apply IH; lia|done].
Qed.

Lemma digits_up_spec f p n d :
  1 <= p → d * 10 ^ (p - 1) <= n → let p' := digits_up f p n d in 1 <= p' ∧ d * 10 ^ (p' - 1) <= n.
Proof.
  revert p. induction f as [|f IH]; intros p Hp Hl p'; unfold p'; cbn [digits_up]; [done|].
  destruct (Z.ltb_spec n (d * 10 ^ p)); [done|]. apply IH; [lia|]. by replace (p + 1 - 1) with p by lia.
Qed.

Lemma point_spec n d : 0 < n → 0 < d → let p := point n d in d * pos10 (p - 1) <= n * pos10 (- (p - 1)).
Proof.
  intros Hn Hd p. unfold p, point, pos10. pose proof (Z.log2_nonneg d). destruct (Z.ltb_spec n d) as [Hlt|Hge].
  - destruct (digits_down_spec (S (Z.to_nat (Z.log2 d))) 0 n d) as [Hj Hl]; [done..|lia|]. set (j := digits_down _ _ _ _) in *. clearbody j.
    rewrite Z.max_r, Z.max_l, Z.pow_0_r, Z.mul_1_r by lia. by replace (- (- j - 1)) with (j + 1) by lia.
  - cbn [digits_up]. rewrite Z.pow_0_r, Z.mul_1_r, (proj2 (Z.ltb_ge n d)) by done.
    destruct (digits_up_spec (Z.to_nat (Z.log2 n)) (0 + 1) n d) as [Hp Hl]; [lia|simpl; lia|]. set (q := digits_up _ _ _ _) in *. clearbody q.
    by rewrite Z.max_l, Z.max_r, Z.pow_0_r, Z.mul_1_r by lia.
Qed.

(** 17 digits are enough, *)
Lemma enough_digits (x : float64) :
  is_float x → let q := point x.1 x.2 - 17 in
  reads_as (half_even (x.1 * pos10 (- q)) (x.2 * pos10 q)) q x = true.
Proof.
  intros Hx q. pose proof Hx as (Hx1 & Hx2 & _). pose proof (point_spec x.1 x.2 Hx1 Hx2) as Hp. simpl in Hp.
  set (r := point x.1 x.2 - 1) in *. assert (q = r - 16) as Hq by (unfold q, r; lia). clearbody q r.
  pose proof (pos10_pos q). pose proof (pos10_pos (- q)). pose proof (pos10_pos r). pose proof (pos10_pos (- r)).
  assert (10 ^ 16 * (x.2 * pos10 q) <= x.1 * pos10 (- q)) as Hlow.
  { apply (Z.mul_le_mono_pos_r _ _ (pos10 (- r))); [done|]. pose proof (pos10_shift r q ltac:(lia)) as Hs.
    replace (r - q) with 16 in Hs by lia.
    replace (10 ^ 16 * (x.2 * pos10 q) * pos10 (- r)) with (x.2 * (10 ^ 16 * (pos10 q * pos10 (- r)))) by ring. rewrite <-Hs. nia. }
  pose proof (half_even_near (x.1 * pos10 (- q)) (x.2 * pos10 q) ltac:(nia)) as Hh.
  pose proof (half_even_bounds (x.1 * pos10 (- q)) (x.2 * pos10 q) (10 ^ 16) (x.1 * pos10 (- q) + 1) ltac:(nia) Hlow ltac:(nia)) as [Hh0 _].
  set (h := half_even _ _) in *. clearbody h. unfold reads_as, decimal. apply round53_to; [done|nia|done|].
  replace (h * pos10 q * x.2 - x.1 * pos10 (- q)) with (h * (x.2 * pos10 q) - x.1 * pos10 (- q)) by ring. lia.
Qed.

Lemma half_even_either n d : half_even n d = n / d ∨ half_even n d = n / d + 1.
Proof. unfold half_even. repeat case_match; auto. Qed.

(** and fewer are only taken when they are. *)
Lemma shortest_reads f k p (x : float64) :
  reads_as (half_even (x.1 * pos10 (- (p - (k + Z.of_nat f)))) (x.2 * pos10 (p - (k + Z.of_nat f)))) (p - (k + Z.of_nat f)) x = true →
  let '(m, q) := shortest f k p x in reads_as m q x = true.
Proof.
  revert k. induction f as [|f IH]; intros k Hend; cbn [shortest].
  - rewrite Z.add_0_r in Hend. destruct (reads_as (_ / _) _ x) eqn:Ed, (reads_as (_ / _ + 1) _ x) eqn:Eu; done.
  - destruct (reads_as (_ / _) _ x) eqn:Ed, (reads_as (_ / _ + 1) _ x) eqn:Eu; try done; cbn [andb negb].
    + destruct (half_even_either (x.1 * pos10 (- (p - k))) (x.2 * pos10 (p - k))) as [-> | ->]; done.
    + apply IH. by replace (k + 1 + Z.of_nat f) with (k + Z.of_nat (S f)) by lia.
Qed.

Lemma shortest_decimal_reads x : is_float x → let '(m, q) := shortest_decimal x in reads_as m q x = true.
Proof. intros Hx. apply (shortest_reads 16 1). exact (enough_digits x Hx). Qed.

(** Zeros at the end do not matter. *)
Lemma strip_spec f m q : let '(m', q') := strip f m q in q <= q' ∧ m = m' * 10 ^ (q' - q).
Proof.
  revert m q. induction f as [|f IH]; intros m q; cbn [strip]; [by rewrite Z.sub_diag, Z.mul_1_r|].
  destruct (Z.eqb_spec (m mod 10) 0) as [Hz|]; [|by rewrite Z.sub_diag, Z.mul_1_r].
  specialize (IH (m / 10) (q + 1)). destruct (strip f _ _) as [m' q']. destruct IH as [Hq Hm]. split; [lia|].
  rewrite (Z.div_mod m 10), Hz, Z.add_0_r, Hm by lia. replace (q' - q) with (Z.succ (q' - (q + 1))) by lia. rewrite Z.pow_succ_r by lia. ring.
Qed.
(** *** The rounding depends on the value only *)

Lemma exponent_unique n d E1 E2 :
  0 < n → 0 < d → n * dn E1 < 2 ^ 53 * (d * up E1) → 2 ^ 52 * (d * up E2) <= n * dn E2 → E2 <= E1.
Proof.
  intros Hn Hd H1 H2. destruct (Z.leb_spec E2 E1) as [|Hlt]; [done|exfalso].
  destruct (up_dn_pos E1) as [Hu1 Hv1], (up_dn_pos E2) as [Hu2 Hv2]. pose proof (up_dn_shift E1 E2 ltac:(lia)) as Hs.
  assert (2 * (up E1 * dn E2) <= up E2 * dn E1) as H3.
  { rewrite Hs. replace (E2 - E1) with (Z.succ (E2 - E1 - 1)) by lia. rewrite Z.pow_succ_r by lia.
    pose proof (Z.pow_pos_nonneg 2 (E2 - E1 - 1) ltac:(lia) ltac:(lia)). nia. }
  assert (n * dn E1 * dn E2 < 2 ^ 53 * (d * up E1) * dn E2) by nia.
  assert (2 ^ 52 * (d * up E2) * dn E1 <= n * dn E2 * dn E1) by nia. nia.
Qed.

Lemma half_even_scale n d c : 0 < d → 0 < c → half_even (n * c) (d * c) = half_even n d.
Proof.
  intros Hd Hc. unfold half_even. rewrite Z.div_mul_cancel_r, Z.mul_mod_distr_r by lia.
  assert (∀ a b, (a * c <? b * c) = (a <? b)) as Hlt by (intros a b; destruct (Z.ltb_spec a b), (Z.ltb_spec (a * c) (b * c)); nia).
  rewrite !Z.mul_assoc, !Hlt. done.
Qed.

Lemma round53_scale n d c : 0 <= n → 0 < d → 0 < c → round53 (n * c, d * c) = round53 (n, d).
Proof.
  intros Hn Hd Hc. unfold round53. destruct (Z.eqb_spec n 0) as [->|Hn0]; [done|].
  rewrite (proj2 (Z.eqb_neq (n * c) 0)), (proj2 (Z.ltb_ge (n * c) 0)), (proj2 (Z.ltb_ge n 0)) by nia. unfold round_pos.
  assert (exponent (n * c) (d * c) = exponent n d) as ->.
  { pose proof (exponent_spec n d ltac:(lia) Hd). pose proof (exponent_upper n d ltac:(lia) Hd).
    pose proof (exponent_spec (n * c) (d * c) ltac:(nia) ltac:(nia)). pose proof (exponent_upper (n * c) (d * c) ltac:(nia) ltac:(nia)).
    apply Z.le_antisymm; (eapply (exponent_unique n d); [lia|done|nia|nia]). }
  set (E := exponent n d). replace (n * c * dn E) with (n * dn E * c) by ring. replace (d * c * up E) with (d * up E * c) by ring.
  rewrite half_even_scale; [done| |done]. destruct (up_dn_pos E). nia.
Qed.

Lemma round53_value n d n' d' : 0 <= n → 0 < d → 0 <= n' → 0 < d' → n * d' = n' * d → round53 (n, d) = round53 (n', d').
Proof.
  intros Hn Hd Hn' Hd' He. rewrite <-(round53_scale n d d'), <-(round53_scale n' d' d) by done. by rewrite He, (Z.mul_comm d).
Qed.

(** ** Reading a JSON number *)

Definition digits_value (l : bytes) : Z := foldl (λ n b, 10 * n + (Zb b - 48)) 0 l.

Definition split_at (b : byte) (l : bytes) : bytes * option bytes :=
  match index_byte l b with Some i => (take i l, Some (drop (S i) l)) | None => (l, None) end.

(** A decimal [m * 10^e]. *)
Definition read_number (l : bytes) : Z * Z :=
  let '(mant, ex) := split_at x65 l in
  let '(ip, fp) := split_at dot mant in
  let e := match ex with
           | Some ex => let '(neg, ds) := split_sign ex in if neg then - digits_value ds else digits_value ds
           | None => 0 end in
  (digits_value (ip ++ default [] fp), e - len (default [] fp)).

Definition read_float (l : bytes) : float64 := let '(m, e) := read_number l in round53 (decimal m e).

Lemma digits_value_from n l : foldl (λ n b, 10 * n + (Zb b - 48)) n l = n * 10 ^ len l + digits_value l.
Proof.
  unfold digits_value. revert n. induction l as [|b l IH]; intros n; cbn [foldl]; [rewrite len_nil; lia|].
  rewrite IH, (IH (10 * 0 + (Zb b - 48))), len_cons, Z.pow_add_r by (pose proof (len_nonneg l); lia). lia.
Qed.

Lemma digits_value_app l1 l2 : digits_value (l1 ++ l2) = digits_value l1 * 10 ^ len l2 + digits_value l2.
Proof. unfold digits_value at 1. rewrite foldl_app. apply digits_value_from. Qed.

Lemma digits_value_zeros k : digits_value (zero_bytes k) = 0.
Proof. unfold zero_bytes. generalize (Z.to_nat k). intros n. unfold digits_value. by induction n as [|n IH]. Qed.

Lemma len_zero_bytes k : 0 <= k → len (zero_bytes k) = k.
Proof. intros Hk. unfold zero_bytes, len. rewrite length_replicate. lia. Qed.

Lemma foldl_digits f n acc :
  0 <= n < 10 ^ Z.of_nat f → foldl (λ n b, 10 * n + (Zb b - 48)) 0 (digits f n acc) = foldl (λ n b, 10 * n + (Zb b - 48)) n acc.
Proof.
  revert n acc. induction f as [|f IH]; intros n acc Hn.
  { change (10 ^ Z.of_nat 0) with 1 in Hn. by assert (n = 0) as -> by lia. }
  pose proof (Z.mod_pos_bound n 10 eq_refl). pose proof (Z.div_mod n 10 ltac:(done)) as Hdm.
  assert (Zb (byteZ (48 + n mod 10)) = 48 + n mod 10) as Hb by (rewrite Zb_byteZ, Z.mod_small; lia).
  cbn [digits]. destruct (Z.ltb_spec n 10).
  - cbn [foldl]. rewrite Hb. f_equal. rewrite Z.mod_small by lia. lia.
  - rewrite Nat2Z.inj_succ, Z.pow_succ_r in Hn by lia. rewrite IH.
    + cbn [foldl]. rewrite Hb. f_equal. lia.
    + split; [apply Z.div_pos; lia|apply Z.div_lt_upper_bound; lia].
Qed.

Lemma digits_value_Utoa n : 0 <= n → digits_value (Utoa n) = n.
Proof. intros Hn. unfold digits_value, Utoa. rewrite foldl_digits; [done|]. split; [done|by apply Utoa_fuel]. Qed.

Lemma index_byte_absent l b : b ∉ l → index_byte l b = None.
Proof.
  induction l as [|a l IH]; cbn [index_byte]; [done|]. rewrite not_elem_of_cons. intros [Ha Hl].
  rewrite bool_decide_eq_false_2 by congruence. by rewrite IH.
Qed.

Lemma split_at_app b l k : b ∉ l → split_at b (l ++ b :: k) = (l, Some k).
Proof.
  intros Hl. unfold split_at. rewrite index_byte_app by done. rewrite take_app_length.
  by rewrite <-Nat.add_1_r, <-drop_drop, drop_app_length.
Qed.

Lemma split_at_absent b l : b ∉ l → split_at b l = (l, None).
Proof. intros Hl. unfold split_at. by rewrite index_byte_absent. Qed.

(** Digits hold neither a dot nor an e. *)
Definition all_digits (l : bytes) : Prop := Forall (λ b, is_digit b = true) l.

Lemma digits_not b l : all_digits l → is_digit b = false → b ∉ l.
Proof. intros Hl Hb Hin. rewrite (proj1 (Forall_forall _ l) Hl b Hin) in Hb. done. Qed.

Lemma Utoa_digits n : all_digits (Utoa n).
Proof. by apply digits_are. Qed.

Lemma zeros_digits k : all_digits (zero_bytes k).
Proof. apply Forall_replicate. done. Qed.
(** Both formats are read back as [m * 10^q]. *)
Lemma read_plain ip fp :
  all_digits ip → all_digits fp → read_number (ip ++ dot :: fp) = (digits_value (ip ++ fp), - len fp).
Proof.
  intros Hi Hf. unfold read_number. rewrite split_at_absent.
  - rewrite split_at_app by (by eapply digits_not). simpl. f_equal.
  - rewrite elem_of_app, elem_of_cons. intros [Hin|[?|Hin]]; [by apply (digits_not x65 ip)|done|by apply (digits_not x65 fp)].
Qed.

Lemma read_format_f m q :
  0 <= m → let '(m', q') := read_number (format_f m q) in decimal m' q' = decimal m q.
Proof.
  intros Hm. pose proof (Utoa_digits m) as Hd. pose proof (digits_value_Utoa m Hm) as Hv. unfold format_f.
  set (ds := Utoa m) in *. clearbody ds. destruct (Z.leb_spec 0 q) as [Hq|Hq].
  - unfold read_number. assert (all_digits (ds ++ zero_bytes q)) as Ha by (apply Forall_app; split; [done|apply zeros_digits]).
    rewrite split_at_absent by (by eapply digits_not). rewrite split_at_absent by (by eapply digits_not). simpl.
    rewrite app_nil_r, digits_value_app, digits_value_zeros, (len_zero_bytes q Hq), Hv. change (len []) with 0.
    unfold decimal, pos10. rewrite (Z.max_l q), (Z.max_r (- q)), Z.sub_0_r, Z.opp_0, Z.max_id, !Z.pow_0_r by lia. f_equal. lia.
  - destruct (Z.ltb_spec 0 (len ds + q)) as [Hp|Hp].
    + rewrite read_plain; [|by apply Forall_take|by apply Forall_drop]. rewrite take_drop, Hv. f_equal.
      unfold len in *. rewrite length_drop. lia.
    + change (x30 :: dot :: zero_bytes (- (len ds + q)) ++ ds) with ([x30] ++ dot :: (zero_bytes (- (len ds + q)) ++ ds)).
      rewrite read_plain; [|by constructor|apply Forall_app; split; [apply zeros_digits|done]].
      rewrite !digits_value_app, digits_value_zeros, Hv, len_app, len_zero_bytes by lia. simpl. f_equal. lia.
Qed.

Lemma read_format_e m q :
  0 <= m → read_number (format_e m q) = (m, q).
Proof.
  intros Hm. pose proof (Utoa_digits m) as Hd. pose proof (digits_value_Utoa m Hm) as Hv.
  destruct (Utoa_head m Hm) as (d & l & _ & Heq & _). unfold format_e. rewrite Heq in *. set (b := byteZ (48 + d)) in *. clearbody b.
  set (e := len (b :: l) + q - 1).
  assert (split_sign ((if e <? 0 then x2d else x2b) :: Utoa (Z.abs e)) = (e <? 0, Utoa (Z.abs e))) as Hs by (by destruct (e <? 0)).
  assert ((if e <? 0 then - digits_value (Utoa (Z.abs e)) else digits_value (Utoa (Z.abs e))) = e) as He.
  { rewrite digits_value_Utoa by lia. destruct (Z.ltb_spec e 0); lia. }
  apply Forall_cons in Hd as [Hb Hl]. change (take 1 (b :: l)) with [b]. change (drop 1 (b :: l)) with l.
  rewrite len_cons. unfold read_number. destruct l as [|b1 l].
  - rewrite (proj2 (Z.ltb_ge 1 _)) by (rewrite len_nil; lia). rewrite app_nil_l, (split_at_app x65 [b]) by (apply digits_not; [by constructor|done]).
    rewrite Hs, split_at_absent by (apply digits_not; [by constructor|done]). simpl. rewrite He, len_nil. f_equal; [exact Hv|].
    unfold e. rewrite len_cons, len_nil. lia.
  - rewrite (proj2 (Z.ltb_lt 1 _)) by (rewrite len_cons; pose proof (len_nonneg l); lia).
    rewrite app_assoc, (split_at_app x65 ([b] ++ dot :: b1 :: l)).
    2:{ rewrite elem_of_app, (elem_of_cons (b1 :: l)). intros [<-%list_elem_of_singleton|[?|Hin]]; [done|done|by apply (digits_not x65 (b1 :: l))]. }
    rewrite Hs, split_at_app by (apply digits_not; [by constructor|done]). simpl. rewrite He. f_equal; [exact Hv|].
    unfold e. rewrite len_cons. lia.
Qed.

(** What is read as a positive number is positive. *)
Lemma reads_pos m q (x : float64) : is_float x → reads_as m q x = true → 0 < m.
Proof.
  intros (Hx1 & Hx2 & _) Hr. destruct (Z.ltb_spec 0 m) as [|Hneg]; [done|exfalso]. revert Hr.
  unfold reads_as, decimal, round53. pose proof (pos10_pos q). destruct (Z.eqb_spec (m * pos10 q) 0).
  { unfold feq. cbn [fst snd]. rewrite Z.eqb_eq. lia. }
  rewrite (proj2 (Z.ltb_lt (m * pos10 q) 0)) by nia.
  destruct (round53_float (- (m * pos10 q)) (pos10 (- q)) ltac:(nia) (pos10_pos _)) as (Hp1 & Hp2 & _).
  unfold round53 in Hp1, Hp2. rewrite (proj2 (Z.eqb_neq (- (m * pos10 q)) 0)), (proj2 (Z.ltb_ge (- (m * pos10 q)) 0)) in Hp1, Hp2 by nia.
  destruct (round_pos _ _) as [a b]. unfold feq. simpl in *. rewrite Z.eqb_eq. nia.
Qed.

(** The digits that are printed, without zeros at the end. *)
Lemma printed_decimal (x : float64) : is_float x →
  ∃ m q, 0 < m ∧ round53 (decimal m q) = round53 (decimal (shortest_decimal x).1 (shortest_decimal x).2) ∧
    (format_float x = format_e m q ∨ format_float x = format_f m q).
Proof.
  intros Hf. pose proof Hf as (Hx1 & _). unfold format_float. rewrite (proj2 (Z.eqb_neq x.1 0)), (proj2 (Z.ltb_ge x.1 0)) by lia.
  unfold format_pos. pose proof (shortest_decimal_reads x Hf) as Hr. destruct (shortest_decimal x) as [m q] eqn:Es.
  apply reads_pos in Hr; [|done]. pose proof (strip_spec 17 m q) as Hst. destruct (strip 17 m q) as [m' q']. destruct Hst as [Hq Hm].
  exists m', q'. split; [pose proof (Z.pow_pos_nonneg 10 (q' - q)); nia|]. split; [|destruct (below _ _ || _); auto].
  unfold decimal. cbn [fst snd]. pose proof (pos10_pos q). pose proof (pos10_pos q'). pose proof (pos10_pos (- q)). pose proof (pos10_pos (- q')).
  assert (0 < m') by (pose proof (Z.pow_pos_nonneg 10 (q' - q)); nia).
  apply round53_value; [nia|done|nia|done|]. pose proof (pos10_shift q' q Hq) as Hs. rewrite Hm.
  replace (m' * pos10 q' * pos10 (- q)) with (m' * (pos10 q' * pos10 (- q))) by ring. rewrite Hs. ring.
Qed.

(** A number that is written reads back. *)
Lemma read_format_float (x : float64) : 0 < x.2 → x.1 = 0 ∨ is_float x → feq (read_float (format_float x)) x = true.
Proof.
  intros Hx2 [Hz|Hf].
  { unfold format_float. rewrite Hz. simpl. unfold feq. simpl. by rewrite Hz. }
  pose proof (shortest_decimal_reads x Hf) as Hr. destruct (printed_decimal x Hf) as (m & q & Hm & Heq & Hfmt).
  destruct (shortest_decimal x) as [m0 q0]. unfold reads_as in Hr. cbn [fst snd] in Heq. rewrite <-Heq in Hr.
  unfold read_float. destruct Hfmt as [-> | ->].
  - by rewrite read_format_e by lia.
  - pose proof (read_format_f m q ltac:(lia)) as Hrf. destruct (read_number _) as [m2 q2]. by rewrite Hrf.
Qed.
(** ** JSON text ([encoding/json]) *)

Definition backslash : byte := x5c.
Definition quotation : byte := x22.

(** One rune of a string: quotes, control characters, [<], [>], [&] and the
    two line separators are escaped, a byte that is not UTF-8 is replaced. *)
Definition escape_ascii (b : byte) : bytes :=
  match b with
  | x5c | x22 => [backslash; b]
  | x08 => [backslash; x62]
  | x0c => [backslash; x66]
  | x0a => [backslash; x6e]
  | x0d => [backslash; x72]
  | x09 => [backslash; x74]
  | _ =>
    if (Zb b <? 32) || bool_decide (b ∈ [x3c; x3e; x26])
    then [backslash; x75; x30; x30; hex_digit (Zb b / 16); hex_digit (Zb b mod 16)] else [b]
  end.

Definition escape_rune (c : rune) : bytes :=
  let '(r, bs) := c in
  match bs with
  | [b] => if ascii b then escape_ascii b else [backslash; x75; x66; x66; x66; x64]
  | _ =>
    if (r =? 8232) || (r =? 8233) then [backslash; x75; x32; x30; x32; hex_digit (Z.land r 15)] else bs
  end.

Definition quote (s : string) : bytes :=
  quotation :: List.concat (escape_rune <$> runes_of (string_bytes s)) ++ [quotation].

Inductive json : Type :=
| JString (s : string)
| JNumber (text : bytes)
| JObject (fields : list (string * json)).

(** A new line, indented for a member of [depth] objects. *)
Definition line (depth : nat) : bytes := newline :: replicate (2 * depth) x20.

(** [json.MarshalIndent(v, "", "  ")], within [depth] objects. *)
Fixpoint marshal (depth : nat) (v : json) : bytes :=
  match v with
  | JString s => quote s
  | JNumber text => text
  | JObject [] => [x7b; x7d]
  | JObject ((k, v) :: fields) =>
    x7b :: line (S depth) ++ quote k ++ [x3a; x20] ++ marshal (S depth) v ++
    (fix rest (fields : list (string * json)) : bytes :=
       match fields with
       | [] => []
       | (k, v) :: fields => x2c :: line (S depth) ++ quote k ++ [x3a; x20] ++ marshal (S depth) v ++ rest fields
       end) fields ++ line depth ++ [x7d]
  end.
Definition MarshalIndent (v : json) : bytes := marshal 0 v.

(** The fields with their tags. *)
Definition rtt_json (r : profileRTT) : json := JObject
  [("min_ms", JNumber (format_float (MinMs r))); ("smooth_ms", JNumber (format_float (SmoothMs r)));
   ("latest_ms", JNumber (format_float (LatestMs r))); ("jitter_ms", JNumber (format_float (JitterMs r)))]%string.

Definition traffic_json (t : profileTraffic) : json := JObject
  [("bytes_sent", JNumber (Utoa (tr_BytesSent t))); ("bytes_recv", JNumber (Utoa (tr_BytesRecv t)));
   ("pkts_sent", JNumber (Utoa (tr_PktsSent t))); ("pkts_recv", JNumber (Utoa (tr_PktsRecv t)));
   ("pkts_lost", JNumber (Utoa (tr_PktsLost t)))]%string.

Definition profile_json (p : profileJSON) : json := JObject
  [("timestamp", JString (Timestamp p)); ("commit", JString (Commit p)); ("host", JString (Host p));
   ("duration_s", JNumber (format_float (DurationS p))); ("rtt", rtt_json (RTT p)); ("traffic", traffic_json (Traffic p))]%string.

(** ** [writeProfileJSON]

    [now] is in seconds since 1970, [zone] what the local clock is ahead of UTC;
    the result is what is printed.  Marshalling fails on no such record. *)
Class FileLib (W : Type) : Type := { os_WriteFile : string → bytes → Z → io W () }.

Definition profile_filename (now zone : Z) : string := ("/tmp/goet-profile-" +:+ format_compact (now + zone) +:+ ".json")%string.

Definition writeProfileJSON {W} `{FileLib W} (commit host : string) (conn : option ConnectionStats) (now zone duration : Z) :
    io W (list string) :=
  match conn with
  | None => io_ret []
  | Some stats =>
    let p := profile_record (format_RFC3339 now) commit host duration stats in
    let filename := profile_filename now zone in
    r <- io_try (os_WriteFile filename (MarshalIndent (profile_json p)) 420 (* 0644 *)) ;;
    match r with
    | Err _ => io_ret []
    | _ => io_ret [("[profile] wrote " +:+ filename)%string]
    end
  end.

Definition ex_stats : ConnectionStats := MkStats 12345678 9000000 11000000 250000 123456 7890 42 17 0.

(** With apostrophes for the quotes. *)
Example test_file :
  bytes_string ((λ b, if bool_decide (b = quotation) then x27 else b) <$>
    MarshalIndent (profile_json (profile_record (format_RFC3339 951827696) "abc" "a<b" 1500000000 ex_stats))) =
"{
  'timestamp': '2000-02-29T12:34:56Z',
  'commit': 'abc',
  'host': 'a\u003cb',
  'duration_s': 1.5,
  'rtt': {
    'min_ms': 9,
    'smooth_ms': 11,
    'latest_ms': 12.345678,
    'jitter_ms': 0.25
  },
  'traffic': {
    'bytes_sent': 123456,
    'bytes_recv': 7890,
    'pkts_sent': 42,
    'pkts_recv': 17,
    'pkts_lost': 0
  }
}"%string.
Proof. vm_compute. reflexivity. Qed.

(** ** Reading it back *)

(** The bytes of a code point below 2^16. *)
Definition utf8 (r : Z) : bytes :=
  if r <? 128 then [byteZ r]
  else if r <? 2048 then [byteZ (192 + r / 64); byteZ (128 + r mod 64)]
  else [byteZ (224 + r / 4096); byteZ (128 + r / 64 mod 64); byteZ (128 + r mod 64)].

Definition simple_escape (b : byte) : option byte :=
  match b with
  | x22 | x5c | x2f => Some b
  | x62 => Some x08 | x66 => Some x0c | x6e => Some x0a | x72 => Some x0d | x74 => Some x09
  | _ => None
  end.

(** The string a JSON string stands for, without surrogates. *)
Fixpoint unescape (l : bytes) : option bytes :=
  match l with
  | [] => Some []
  | x5c :: x75 :: a :: b :: c :: d :: l' =>
    match hex_value a, hex_value b, hex_value c, hex_value d with
    | Some a, Some b, Some c, Some d => (utf8 (a * 4096 + b * 256 + c * 16 + d) ++.) <$> unescape l'
    | _, _, _, _ => None
    end
  | x5c :: b :: l' => match simple_escape b with Some b => (b ::.) <$> unescape l' | None => None end
  | x5c :: [] => None
  | b :: l' => (b ::.) <$> unescape l'
  end.

(** A parser for JSON texts without arrays and literals.  Values: strings by
    their bytes, numbers by their text, objects with their members in order. *)
Inductive value : Type :=
| VString (s : bytes)
| VNumber (text : bytes)
| VObject (members : list (bytes * value)).

Definition is_ws (b : byte) : bool := bool_decide (b ∈ [x20; x09; x0a; x0d]).

Fixpoint skip_ws (l : bytes) : bytes :=
  match l with b :: l' => if is_ws b then skip_ws l' else l | [] => [] end.

(** What stands before the closing quote, and what follows it. *)
Fixpoint scan_string (l : bytes) : option (bytes * bytes) :=
  match l with
  | [] => None
  | x22 :: l' => Some ([], l')
  | x5c :: b :: l' => prod_map (λ s, x5c :: b :: s) id <$> scan_string l'
  | b :: l' => prod_map (b ::.) id <$> scan_string l'
  end.

Definition parse_string (l : bytes) : option (bytes * bytes) :=
  match l with
  | x22 :: l' => '(raw, rest) ← scan_string l'; s ← unescape raw; Some (s, rest)
  | _ => None
  end.

Definition number_byte (b : byte) : bool := is_digit b || bool_decide (b ∈ [x2d; x2b; dot; x65; x45]).

Fixpoint span_number (l : bytes) : bytes * bytes :=
  match l with
  | b :: l' => if number_byte b then prod_map (b ::.) id (span_number l') else ([], l)
  | [] => ([], [])
  end.

(** The grammar of a number: an integer without leading zeros, then perhaps a
    fraction and an exponent. *)
Definition digits_ok (l : bytes) : bool := negb (bool_decide (l = [])) && forallb is_digit l.
Definition int_ok (l : bytes) : bool := digits_ok l && match l with x30 :: _ :: _ => false | _ => true end.

Definition unsigned (l : bytes) : bytes := match l with x2d :: l' => l' | _ => l end.

Definition number_ok (l : bytes) : bool :=
  let '(mant, ex) := split_at x65 (unsigned l) in
  let '(ip, fp) := split_at dot mant in
  int_ok ip && from_option digits_ok true fp && from_option (λ e, digits_ok (split_sign e).2) true ex.

Fixpoint parse_value (fuel : nat) (l : bytes) : option (value * bytes) :=
  match fuel with
  | O => None
  | S f =>
    match skip_ws l with
    | x7b :: l1 =>
      match skip_ws l1 with
      | x7d :: rest => Some (VObject [], rest)
      | l2 => '(ms, rest) ← parse_members f l2; Some (VObject ms, rest)
      end
    | x22 :: l1 => '(s, rest) ← parse_string (x22 :: l1); Some (VString s, rest)
    | l1 => let '(text, rest) := span_number l1 in if number_ok text then Some (VNumber text, rest) else None
    end
  end
with parse_members (fuel : nat) (l : bytes) : option (list (bytes * value) * bytes) :=
  match fuel with
  | O => None
  | S f =>
    '(k, l1) ← parse_string (skip_ws l);
    match skip_ws l1 with
    | x3a :: l2 =>
      '(v, l3) ← parse_value f l2;
      match skip_ws l3 with
      | x2c :: l4 => '(ms, rest) ← parse_members f l4; Some ((k, v) :: ms, rest)
      | x7d :: rest => Some ([(k, v)], rest)
      | _ => None
      end
    | _ => None
    end
  end.

(** The whole text is one value. *)
Definition Unmarshal (l : bytes) : option value :=
  '(v, rest) ← parse_value (S (List.length l)) l;
  if bool_decide (skip_ws rest = []) then Some v else None.

(** [s] is UTF-8. *)
Definition valid_rune (c : rune) : bool := match c.2 with [b] => ascii b | _ => true end.
Definition valid_utf8 (l : bytes) : bool := forallb valid_rune (runes_of l).

Lemma unescape_plain b l : b ≠ backslash → unescape (b :: l) = (b ::.) <$> unescape l.
Proof. intros Hb. destruct b; done. Qed.

Lemma unescape_multi bs l : Forall (λ b, ascii b = false) bs → unescape (bs ++ l) = (bs ++.) <$> unescape l.
Proof.
  induction 1 as [|b bs Hb Hbs IH]; [cbn [app]; by destruct (unescape l)|]. cbn [app]. rewrite unescape_plain by (intros ->; by vm_compute in Hb).
  rewrite IH. by destruct (unescape l).
Qed.

Lemma unescape_ascii b l : ascii b = true → unescape (escape_ascii b ++ l) = (b ::.) <$> unescape l.
Proof. intros Hb. destruct b; try discriminate Hb; reflexivity. Qed.

(** What a rune is made of. *)
Lemma runes_elem n l c :
  c ∈ runes_fuel n l → ∃ k, k ≠ [] ∧ c = ((decode_rune k).1, take (decode_rune k).2 k).
Proof.
  revert l. induction n as [|n IH]; intros [|b l]; cbn [runes_fuel]; try (by intros ?%not_elem_of_nil).
  destruct (decode_rune (b :: l)) as [r w] eqn:E. intros [->|Hin]%elem_of_cons; [|by eapply IH].
  exists (b :: l). by rewrite E.
Qed.

Lemma runes_concat n l : (List.length l ≤ n)%nat → List.concat (snd <$> runes_fuel n l) = l.
Proof.
  revert l. induction n as [|n IH]; intros [|b l] Hl; simpl in Hl; try done; [lia|]. cbn [runes_fuel].
  destruct (decode_rune (b :: l)) as [r w] eqn:E. rewrite fmap_cons. cbn [snd List.concat].
  rewrite IH; [apply take_drop|]. assert (w ≠ 0%nat) as Hw.
  { intros ->. revert E. unfold decode_rune. repeat case_match; congruence. }
  destruct w; [done|]. rewrite length_drop. simpl. lia.
Qed.

Lemma cont_bits b : cont b = true → Zb b = 128 + cbits b ∧ 0 <= cbits b < 64.
Proof.
  unfold cont, cbits. rewrite andb_true_iff, !Z.leb_le. intros [H1 H2]. change 63 with (Z.ones 6). rewrite Z.land_ones by done.
  pose proof (Z.mod_pos_bound (Zb b) 64 eq_refl). pose proof (Z.div_mod (Zb b) 64 ltac:(done)). change (2 ^ 6) with 64. lia.
Qed.

Lemma cbits_nonneg b : 0 <= cbits b.
Proof. unfold cbits. pose proof (Zb_range b). by apply Z.land_nonneg; right. Qed.

Lemma high_not_ascii b : 128 <= Zb b → ascii b = false.
Proof. unfold ascii. intros ?%Z.ltb_ge. done. Qed.

Lemma byte_is b z : Zb b = z → b = byteZ z.
Proof. intros <-. by rewrite byteZ_Zb. Qed.
Lemma rune_cases k r w :
  k ≠ [] → decode_rune k = (r, w) →
  (∃ b, take w k = [b]) ∨
  ((2 ≤ List.length (take w k))%nat ∧ Forall (λ b, ascii b = false) (take w k) ∧
   (r = 8232 → take w k = [xe2; x80; xa8]) ∧ (r = 8233 → take w k = [xe2; x80; xa9])).
Proof.
  destruct k as [|b0 k]; [done|]. intros _. unfold decode_rune.
  destruct (Zb b0 <? 128); [intros [= <- <-]; left; by eexists|].
  destruct k as [|b1 k]; [intros [= <- <-]; left; by eexists|].
  destruct ((194 <=? Zb b0) && _ && cont b1) eqn:E2.
  { rewrite !andb_true_iff, !Z.leb_le in E2. destruct E2 as [[H1 H2] [Hc Hr]%cont_bits].
    intros [= <- <-]. right. cbn [take List.length].
    assert (Z.land (Zb b0) 31 < 32) by (change 31 with (Z.ones 5); rewrite Z.land_ones by done; by apply Z.mod_pos_bound).
    rewrite lor_shiftl_add by lia. split; [lia|].
    split; [repeat constructor; apply high_not_ascii; lia|split; intros; lia]. }
  destruct k as [|b2 k]; [intros [= <- <-]; left; by eexists|].
  destruct ((224 <=? Zb b0) && _ && _ && _ && _ && _) eqn:E3.
  { rewrite !andb_true_iff, !Z.leb_le in E3. destruct E3 as [[[[[H1 H2] [Hc1 Hr1]%cont_bits] [Hc2 Hr2]%cont_bits] _] _].
    intros [= <- <-]. right. cbn [take List.length]. split; [lia|].
    split; [repeat constructor; apply high_not_ascii; lia|].
    assert (Z.land (Zb b0) 15 = Zb b0 - 224) as ->.
    { change 15 with (Z.ones 4). rewrite Z.land_ones by done. change (2 ^ 4) with 16. symmetry. apply (Z.mod_unique _ _ 14); lia. }
    rewrite !lor_shiftl_add by (rewrite ?lor_shiftl_add; lia).
    split; intros He; rewrite (byte_is b0 226), (byte_is b1 128) by lia; [rewrite (byte_is b2 168)|rewrite (byte_is b2 169)]; done || lia. }
  destruct k as [|b3 k]; [intros [= <- <-]; left; by eexists|].
  destruct ((240 <=? Zb b0) && _ && _ && _ && _ && _ && _) eqn:E4; [|intros [= <- <-]; left; by eexists].
  rewrite !andb_true_iff, !Z.leb_le in E4. destruct E4 as [[[[[[H1 H2] [Hc1 _]%cont_bits] [Hc2 _]%cont_bits] [Hc3 _]%cont_bits] H5] _].
  intros [= <- <-]. right. cbn [take List.length]. split; [lia|].
  pose proof (cbits_nonneg b1). pose proof (cbits_nonneg b2). pose proof (cbits_nonneg b3).
  split; [repeat constructor; apply high_not_ascii; lia|split; intros; lia].
Qed.

(** What a rune of the file stands for. *)
Definition plain (c : rune) : bytes :=
  match c.2 with [b] => if ascii b then [b] else [xef; xbf; xbd] | bs => bs end.

Lemma unescape_rune k l :
  k ≠ [] → let c := ((decode_rune k).1, take (decode_rune k).2 k) in
  unescape (escape_rune c ++ l) = (plain c ++.) <$> unescape l.
Proof.
  intros Hk c. unfold c. destruct (decode_rune k) as [r w] eqn:E. cbn [fst snd]. unfold plain. cbn [snd].
  destruct (rune_cases k r w Hk E) as [[b ->]|(Hlen & Hf & H1 & H2)]; cbn [escape_rune].
  - destruct (ascii b) eqn:Ea; [by apply unescape_ascii|reflexivity].
  - destruct (Z.eqb_spec r 8232) as [Hr|Hr]; [by rewrite (H1 Hr), Hr|].
    destruct (Z.eqb_spec r 8233) as [Hr'|Hr']; [by rewrite (H2 Hr'), Hr'|].
    destruct (take w k) as [|b1 [|b2 bs]]; simpl in Hlen; [lia|lia|]. cbn [orb]. by apply unescape_multi.
Qed.

(** A string reads back, with U+FFFD for what is not UTF-8. *)
Definition plain_bytes (l : bytes) : bytes := List.concat (plain <$> runes_of l).
Definition escaped (s : string) : bytes := List.concat (escape_rune <$> runes_of (string_bytes s)).

Lemma unescape_escaped s : unescape (escaped s) = Some (plain_bytes (string_bytes s)).
Proof.
  unfold escaped, plain_bytes, runes_of. generalize (List.length (string_bytes s)). intros n. generalize (string_bytes s). clear s. intros l.
  pose proof (runes_elem n l) as Hc.
  induction (runes_fuel n l) as [|c cs IH]; [done|]. rewrite !fmap_cons. cbn [List.concat].
  destruct (Hc c) as (k & Hk & ->); [by left|]. rewrite unescape_rune by done.
  rewrite IH; [done|]. intros c Hin. apply Hc. by right.
Qed.

(** No quote of the text is taken for the closing one. *)
Lemma scan_plain b l : b ≠ quotation → b ≠ backslash → scan_string (b :: l) = prod_map (b ::.) id <$> scan_string l.
Proof. intros Hq Hb. destruct b; done. Qed.

Definition unquoted (b : byte) : Prop := b ≠ quotation ∧ b ≠ backslash.

Lemma scan_multi bs l :
  Forall unquoted bs → scan_string (bs ++ l) = prod_map (bs ++.) id <$> scan_string l.
Proof.
  induction 1 as [|b bs [Hq Hb] Hbs IH]; [cbn [app]; by destruct (scan_string l) as [[]|]|]. cbn [app].
  rewrite scan_plain, IH by done. by destruct (scan_string l) as [[]|].
Qed.

Lemma scan_escape x bs l :
  Forall unquoted bs → scan_string (backslash :: x :: bs ++ l) = prod_map ((backslash :: x :: bs) ++.) id <$> scan_string l.
Proof.
  intros Hbs. change (scan_string (backslash :: x :: bs ++ l)) with (prod_map (λ s, x5c :: x :: s) id <$> scan_string (bs ++ l)).
  rewrite scan_multi by done. by destruct (scan_string l) as [[]|].
Qed.

Lemma escape_shape b :
  ascii b = true → (escape_ascii b = [b] ∧ unquoted b) ∨ ∃ x bs, escape_ascii b = backslash :: x :: bs ∧ Forall unquoted bs.
Proof.
  intros Hb. destruct b; try discriminate Hb;
    first [left; split; [reflexivity|split; discriminate]
          |right; eexists _, _; split; [reflexivity|]; repeat (constructor; [split; discriminate|]); constructor].
Qed.

Lemma scan_rune k l :
  k ≠ [] → let c := ((decode_rune k).1, take (decode_rune k).2 k) in
  scan_string (escape_rune c ++ l) = prod_map (escape_rune c ++.) id <$> scan_string l.
Proof.
  intros Hk c. unfold c. destruct (decode_rune k) as [r w] eqn:E. cbn [fst snd].
  assert (∀ x bs, Forall unquoted bs →
    scan_string ((backslash :: x :: bs) ++ l) = prod_map ((backslash :: x :: bs) ++.) id <$> scan_string l) as Hesc
    by (intros x bs; apply scan_escape).
  destruct (rune_cases k r w Hk E) as [[b ->]|(Hlen & Hf & _ & _)]; cbn [escape_rune].
  - destruct (ascii b) eqn:Ea.
    + destruct (escape_shape b Ea) as [[-> Hu]|(x & bs & -> & Hbs)]; [by apply scan_multi, Forall_singleton|by apply Hesc].
    + apply Hesc. repeat (constructor; [split; discriminate|]). constructor.
  - destruct (take w k) as [|b1 [|b2 bs]]; simpl in Hlen; [lia|lia|].
    destruct (Z.eqb_spec r 8232) as [->|Hr]; [|destruct (Z.eqb_spec r 8233) as [->|Hr']]; cbn [orb].
    1-2: apply Hesc; repeat (constructor; [split; discriminate|]); constructor.
    apply scan_multi. eapply Forall_impl; [exact Hf|]. intros b Hb. by split; intros ->; vm_compute in Hb.
Qed.

Lemma parse_quote s rest : parse_string (quote s ++ rest) = Some (plain_bytes (string_bytes s), rest).
Proof.
  assert (scan_string (escaped s ++ quotation :: rest) = Some (escaped s, rest)) as Hs.
  { unfold escaped, runes_of. generalize (List.length (string_bytes s)). intros n. pose proof (runes_elem n (string_bytes s)) as Hc.
    induction (runes_fuel n (string_bytes s)) as [|c cs IH]; [done|]. rewrite !fmap_cons. cbn [List.concat]. rewrite <-app_assoc.
    destruct (Hc c) as (k & Hk & ->); [by left|]. rewrite scan_rune by done.
    rewrite IH; [done|]. intros c Hin. apply Hc. by right. }
  unfold quote, parse_string. fold (escaped s). cbn [app]. rewrite <-app_assoc. cbn [app].
  rewrite Hs. cbn. by rewrite unescape_escaped.
Qed.

(** *** Numbers are numbers *)

Definition number_text (ip : bytes) (fp ex : option bytes) : bytes :=
  ip ++ from_option (dot ::.) [] fp ++ from_option (x65 ::.) [] ex.

(** Of the grammar, and scanned to the end. *)
Definition number_wf (l : bytes) : Prop := number_ok l = true ∧ Forall (λ b, number_byte b = true) l.

Lemma digits_ok_all l : digits_ok l = true ↔ l ≠ [] ∧ all_digits l.
Proof.
  unfold digits_ok, all_digits. rewrite andb_true_iff, negb_true_iff, bool_decide_eq_false.
  enough (forallb is_digit l = true ↔ Forall (λ b, is_digit b = true) l) as -> by done.
  induction l as [|b l IH]; [done|]. cbn [forallb]. by rewrite andb_true_iff, Forall_cons, IH.
Qed.

Lemma digit_head b (l : bytes) : is_digit b = true → unsigned (b :: l) = b :: l.
Proof. by destruct b. Qed.

Lemma number_wf_text ip fp ex :
  int_ok ip = true → from_option digits_ok true fp = true → from_option (λ e, digits_ok (split_sign e).2) true ex = true →
  from_option (Forall (λ b, number_byte b = true)) True ex → number_wf (number_text ip fp ex).
Proof.
  intros Hip Hfp Hex Hexb. pose proof Hip as Hi. unfold int_ok in Hi. apply andb_true_iff in Hi as [[Hne Hd]%digits_ok_all _].
  assert (from_option all_digits True fp) as Hfd by (destruct fp; [by apply digits_ok_all in Hfp as [_ ?]|done]).
  assert (∀ l, all_digits l → Forall (λ b, number_byte b = true) l) as Hnb.
  { intros l Hl. eapply Forall_impl; [exact Hl|]. intros b Hb. unfold number_byte. by rewrite Hb. }
  split.
  - assert (split_at dot (ip ++ from_option (dot ::.) [] fp) = (ip, fp)) as Hdot.
    { destruct fp as [fp|]; simpl; [apply split_at_app; by apply digits_not|]. rewrite app_nil_r. apply split_at_absent. by apply digits_not. }
    assert (x65 ∉ ip ++ from_option (dot ::.) [] fp) as Hx.
    { rewrite elem_of_app. intros [Hin|Hin]; [by eapply digits_not in Hin|]. destruct fp as [fp|]; simpl in Hin; [|by apply not_elem_of_nil in Hin].
      apply elem_of_cons in Hin as [?|Hin]; [done|]. by eapply digits_not in Hin. }
    assert (split_at x65 (number_text ip fp ex) = (ip ++ from_option (dot ::.) [] fp, ex)) as He.
    { unfold number_text. rewrite app_assoc. destruct ex as [ex|]; simpl; [by apply split_at_app|]. rewrite app_nil_r. by apply split_at_absent. }
    unfold number_ok. destruct ip as [|b ip]; [done|]. apply Forall_cons in Hd as [Hb _].
    change (number_text (b :: ip) fp ex) with (b :: number_text ip fp ex) in *. rewrite digit_head by done.
    rewrite He, Hdot, Hip, Hfp. simpl. exact Hex.
  - unfold number_text. rewrite !Forall_app. split; [by apply Hnb|]. split.
    + destruct fp; simpl; [constructor; [done|by apply Hnb]|constructor].
    + destruct ex; simpl; [by constructor|constructor].
Qed.

Lemma Utoa_digits_ok n : 0 <= n → digits_ok (Utoa n) = true.
Proof. intros Hn. apply digits_ok_all. split; [|apply Utoa_digits]. by destruct (Utoa_head n Hn) as (d & l & _ & -> & _). Qed.

(** Digits that start like a positive number. *)
Lemma int_ok_head n l k :
  0 < n → Utoa n = l ++ k → l ≠ [] → ∀ z, all_digits z → int_ok (l ++ z) = true.
Proof.
  intros Hn He Hl z Hz. destruct (Utoa_head n ltac:(lia)) as (d & l0 & Hd & Hu & _ & Hp). specialize (Hp Hn).
  pose proof (Utoa_digits n) as Ha. rewrite He in Ha, Hu. apply Forall_app in Ha as [Ha _]. destruct l as [|b l]; [done|].
  injection Hu as -> _. unfold int_ok. apply andb_true_iff. split.
  - apply digits_ok_all. split; [done|]. by apply Forall_app.
  - assert (Zb (byteZ (48 + d)) = 48 + d) as Hb by (rewrite Zb_byteZ, Z.mod_small; lia).
    cbn [app]. destruct (l ++ z); destruct (byteZ (48 + d)); try done; cbn in Hb; lia.
Qed.

Lemma int_ok_Utoa n : 0 <= n → int_ok (Utoa n) = true.
Proof.
  intros Hn. destruct (decide (n = 0)) as [->|Hne]; [done|]. rewrite <-(app_nil_r (Utoa n)).
  apply (int_ok_head n (Utoa n) []); [lia|by rewrite app_nil_r| |constructor].
  by destruct (Utoa_head n Hn) as (d & l & _ & -> & _).
Qed.

Lemma number_wf_Utoa n : 0 <= n → number_wf (Utoa n).
Proof.
  intros Hn. replace (Utoa n) with (number_text (Utoa n) None None) by apply app_nil_r.
  apply number_wf_text; [by apply int_ok_Utoa|done..].
Qed.

Lemma number_wf_format_f m q : 0 < m → number_wf (format_f m q).
Proof.
  intros Hm. pose proof (Utoa_digits m) as Hd. pose proof (Utoa_digits_ok m ltac:(lia)) as [Hne _]%digits_ok_all. unfold format_f.
  pose proof (int_ok_head m) as Hint. set (ds := Utoa m) in *. clearbody ds. destruct (Z.leb_spec 0 q) as [Hq|Hq].
  - replace (ds ++ zero_bytes q) with (number_text (ds ++ zero_bytes q) None None) by (unfold number_text; by rewrite !app_nil_r).
    apply number_wf_text; [|done..]. apply (Hint ds []); [done|by rewrite app_nil_r|done|apply zeros_digits].
  - destruct (Z.ltb_spec 0 (len ds + q)) as [Hp|Hp].
    + set (k := Z.to_nat (len ds + q)).
      replace (take k ds ++ dot :: drop k ds) with (number_text (take k ds) (Some (drop k ds)) None)
        by (unfold number_text; simpl; by rewrite app_nil_r).
      apply number_wf_text; [| |done..].
      * rewrite <-(app_nil_r (take k ds)). apply (Hint (take k ds) (drop k ds)); [done|by rewrite take_drop| |constructor].
        destruct ds; [done|]. unfold k. destruct (Z.to_nat (len (b :: ds) + q)) eqn:E; [lia|done].
      * apply digits_ok_all. split; [|by apply Forall_drop]. intros H%(f_equal List.length). rewrite length_drop in H.
        unfold k, len in *. simpl in H. lia.
    + change (x30 :: dot :: zero_bytes (- (len ds + q)) ++ ds) with ([x30] ++ (dot :: (zero_bytes (- (len ds + q)) ++ ds))).
      rewrite <-(app_nil_r (dot :: _)). apply (number_wf_text [x30] (Some _) None); [done| |done..].
      apply digits_ok_all. split; [by destruct (zero_bytes _), ds|]. apply Forall_app. split; [apply zeros_digits|done].
Qed.

Lemma number_wf_format_e m q : 0 < m → number_wf (format_e m q).
Proof.
  intros Hm. pose proof (Utoa_digits m) as Hd. pose proof (int_ok_head m) as Hint. unfold format_e.
  destruct (Utoa m) as [|b l] eqn:Em; [by pose proof (Utoa_digits_ok m ltac:(lia)) as H; rewrite Em in H|].
  set (e := len (b :: l) + q - 1). set (sg := if e <? 0 then x2d else x2b).
  apply Forall_cons in Hd as [Hb Hl]. change (take 1 (b :: l)) with [b]. change (drop 1 (b :: l)) with l.
  replace ([b] ++ (if 1 <? len (b :: l) then dot :: l else []) ++ x65 :: sg :: Utoa (Z.abs e))
    with (number_text [b] (match l with [] => None | _ => Some l end) (Some (sg :: Utoa (Z.abs e)))).
  2:{ unfold number_text. rewrite len_cons. destruct l as [|b1 l]; [done|].
      rewrite (proj2 (Z.ltb_lt 1 _)) by (rewrite len_cons; pose proof (len_nonneg l); lia). done. }
  apply number_wf_text.
  - rewrite <-(app_nil_r [b]). apply (Hint [b] l); [done|done|done|constructor].
  - destruct l; [done|]. apply digits_ok_all. done.
  - cbn [from_option]. assert ((split_sign (sg :: Utoa (Z.abs e))).2 = Utoa (Z.abs e)) as -> by (unfold sg; by destruct (e <? 0)).
    apply Utoa_digits_ok. lia.
  - simpl. constructor; [unfold sg; by destruct (e <? 0)|]. eapply Forall_impl; [apply Utoa_digits|].
    intros c Hc. unfold number_byte. by rewrite Hc.
Qed.

Lemma number_wf_format_float (x : float64) : x.1 = 0 ∨ is_float x → number_wf (format_float x).
Proof.
  intros [Hz|Hf].
  - unfold format_float. rewrite Hz. split; [done|by repeat constructor].
  - destruct (printed_decimal x Hf) as (m & q & Hm & _ & [-> | ->]); [by apply number_wf_format_e|by apply number_wf_format_f].
Qed.

Lemma plain_valid l : valid_utf8 l = true → List.concat (plain <$> runes_of l) = l.
Proof.
  intros Hv. rewrite <-(runes_concat (List.length l) l) at 2 by done. unfold valid_utf8 in Hv. fold (runes_of l). f_equal.
  apply list_fmap_ext. intros i c Hi. rewrite forallb_forall in Hv.
  assert (valid_rune c = true) as Hc by (apply Hv, list_elem_of_In; by eapply list_elem_of_lookup_2).
  unfold valid_rune, plain in *. destruct c.2 as [|b [|]]; [done| |done]. by rewrite Hc.
Qed.

(** *** The text of a value parses *)

Fixpoint value_of (v : json) : value :=
  match v with
  | JString s => VString (plain_bytes (string_bytes s))
  | JNumber t => VNumber t
  | JObject fields => VObject (List.map (λ '(k, v), (plain_bytes (string_bytes k), value_of v)) fields)
  end.

(** Its numbers are numbers. *)
Fixpoint json_wf (v : json) : Prop :=
  match v with
  | JString _ => True
  | JNumber t => number_wf t
  | JObject fields => (fix all fields := match fields with [] => True | (_, v) :: fields => json_wf v ∧ all fields end) fields
  end.

Fixpoint json_size (v : json) : nat :=
  match v with
  | JString _ | JNumber _ => 1
  | JObject fields => S ((fix all fields := match fields with [] => O | (_, v) :: fields => S (json_size v + all fields) end) fields)
  end.

Lemma json_induction (Q : json → Prop) :
  (∀ s, Q (JString s)) → (∀ t, Q (JNumber t)) →
  (∀ fields, Forall (λ kv, Q kv.2) fields → Q (JObject fields)) → ∀ v, Q v.
Proof.
  intros Hs Hn Ho. fix IH 1. intros [s|t|fields]; [apply Hs|apply Hn|]. apply Ho.
  induction fields as [|[k v] fields IHf]; constructor; [apply IH|exact IHf].
Qed.

Lemma json_wf_fields fields : json_wf (JObject fields) ↔ Forall (λ kv, json_wf kv.2) fields.
Proof.
  induction fields as [|[k v] fields IH]; [done|]. rewrite Forall_cons, <-IH. done.
Qed.

Definition fields_size (fields : list (string * json)) : nat := pred (json_size (JObject fields)).

(** The members after the first. *)
Fixpoint more_members (depth : nat) (fields : list (string * json)) : bytes :=
  match fields with
  | [] => []
  | (k, v) :: fields => x2c :: line (S depth) ++ quote k ++ [x3a; x20] ++ marshal (S depth) v ++ more_members depth fields
  end.

Lemma marshal_object depth k v fields :
  marshal depth (JObject ((k, v) :: fields)) =
    x7b :: line (S depth) ++ quote k ++ [x3a; x20] ++ marshal (S depth) v ++ more_members depth fields ++ line depth ++ [x7d].
Proof.
  cbn [marshal]. do 5 f_equal. f_equal. induction fields as [|[k' v'] fields IH]; [done|]. cbn [more_members]. by rewrite <-IH.
Qed.

Lemma skip_line depth l : skip_ws (line depth ++ l) = skip_ws l.
Proof.
  unfold line. change (skip_ws ((newline :: replicate (2 * depth) x20) ++ l)) with (skip_ws (replicate (2 * depth) x20 ++ l)).
  by induction (2 * depth)%nat as [|n IH].
Qed.

Lemma span_number_app t rest :
  Forall (λ b, number_byte b = true) t → match rest with b :: _ => number_byte b = false | [] => True end →
  span_number (t ++ rest) = (t, rest).
Proof.
  intros Ht Hr. induction Ht as [|b t Hb Ht IH]; cbn [app span_number].
  - destruct rest as [|b rest]; [done|]. cbn [span_number]. by rewrite Hr.
  - by rewrite Hb, IH.
Qed.

Lemma parse_number_head fuel b l :
  number_byte b = true →
  parse_value (S fuel) (b :: l) = let '(text, rest) := span_number (b :: l) in if number_ok text then Some (VNumber text, rest) else None.
Proof. intros Hb. destruct b; first [reflexivity|exfalso; vm_compute in Hb; discriminate Hb]. Qed.

(** What follows a value is not taken for a part of it. *)
Definition ends_value (rest : bytes) : Prop := match rest with b :: _ => number_byte b = false | [] => True end.

Definition parses (v : json) : Prop :=
  ∀ depth rest fuel, ends_value rest → (json_size v ≤ fuel)%nat →
    parse_value fuel (marshal depth v ++ rest) = Some (value_of v, rest).

Lemma parse_value_space fuel l : parse_value fuel (x20 :: l) = parse_value fuel l.
Proof. by destruct fuel. Qed.

(** One member, up to what follows its value. *)
Lemma parse_member depth k v rest fuel :
  parses v → ends_value rest → (json_size v ≤ fuel)%nat →
  parse_members (S fuel) (quote k ++ [x3a; x20] ++ marshal (S depth) v ++ rest) =
    match skip_ws rest with
    | x2c :: l => '(ms, r) ← parse_members fuel l; Some ((plain_bytes (string_bytes k), value_of v) :: ms, r)
    | x7d :: r => Some ([(plain_bytes (string_bytes k), value_of v)], r)
    | _ => None
    end.
Proof.
  intros Hv Hr Hl. cbn [parse_members]. change (skip_ws (quote k ++ ?l)) with (quote k ++ l).
  rewrite parse_quote. cbn [mbind option_bind]. change (skip_ws ([x3a; x20] ++ ?l)) with (x3a :: x20 :: l). cbv beta iota.
  by rewrite parse_value_space, Hv.
Qed.

Lemma parse_members_line depth fuel l : parse_members fuel (line depth ++ l) = parse_members fuel l.
Proof. destruct fuel; [done|]. cbn [parse_members]. by rewrite skip_line. Qed.

Lemma parse_members_text depth k v fields rest fuel :
  parses v → Forall (λ kv, parses kv.2) fields → (S (json_size v + fields_size fields) ≤ fuel)%nat →
  parse_members fuel (quote k ++ [x3a; x20] ++ marshal (S depth) v ++ more_members depth fields ++ line depth ++ x7d :: rest) =
    Some (List.map (λ '(k, v), (plain_bytes (string_bytes k), value_of v)) ((k, v) :: fields), rest).
Proof.
  intros Hv Hf. revert k v fuel Hv. induction Hf as [|[k' v'] fields Hv' Hf IH]; intros k v [|fuel] Hv Hl; [lia| |lia|].
  - rewrite parse_member; [|done|done|lia]. cbn [more_members]. rewrite app_nil_l, skip_line. reflexivity.
  - change (fields_size ((k', v') :: fields)) with (S (json_size v' + fields_size fields)) in Hl.
    rewrite parse_member; [|done|done|lia]. cbn [more_members]. rewrite <-app_comm_cons.
    change (skip_ws (x2c :: ?l)) with (x2c :: l). cbv beta iota. rewrite <-!app_assoc, parse_members_line.
    rewrite IH by (done || lia). reflexivity.
Qed.

Lemma parse_object fuel k l1 l2 :
  skip_ws l1 = quote k ++ l2 →
  parse_value (S fuel) (x7b :: l1) = '(ms, rest) ← parse_members fuel (quote k ++ l2); Some (VObject ms, rest).
Proof. intros Hl. cbn [parse_value]. change (skip_ws (x7b :: l1)) with (x7b :: l1). cbv iota. by rewrite Hl. Qed.

Lemma parse_marshal v : json_wf v → parses v.
Proof.
  induction v as [s|t|fields IH] using json_induction; intros Hwf depth rest [|fuel] Hr Hl; try (simpl in Hl; lia).
  - cbn [marshal value_of].
    change (parse_value (S fuel) (quote s ++ rest)) with ('(s', r) ← parse_string (quote s ++ rest); Some (VString s', r)).
    by rewrite parse_quote.
  - destruct Hwf as [Hok Hb]. cbn [marshal value_of]. destruct t as [|b t]; [done|].
    change ((b :: t) ++ rest) with (b :: (t ++ rest)). pose proof Hb as [Hb0 _]%Forall_cons. rewrite parse_number_head by done.
    change (b :: (t ++ rest)) with ((b :: t) ++ rest). rewrite span_number_app by done. by rewrite Hok.
  - apply json_wf_fields in Hwf. assert (Forall (λ kv, parses kv.2) fields) as Hp.
    { rewrite Forall_forall in IH, Hwf |- *. auto. }
    clear IH Hwf. destruct Hp as [|[k v] fields Hv Hf]; [reflexivity|]. rewrite marshal_object, <-app_comm_cons.
    rewrite (parse_object fuel k _ ([x3a; x20] ++ marshal (S depth) v ++ more_members depth fields ++ line depth ++ x7d :: rest)).
    + rewrite (parse_members_text depth k v fields rest fuel Hv Hf); [reflexivity|].
      change (json_size (JObject ((k, v) :: fields))) with (S (S (json_size v + fields_size fields))) in Hl. lia.
    + by rewrite <-app_assoc, skip_line, <-!app_assoc.
Qed.

(** The length of a text is enough fuel. *)
Lemma marshal_size v : json_wf v → ∀ depth, (json_size v ≤ List.length (marshal depth v))%nat.
Proof.
  induction v as [s|t|fields IH] using json_induction; intros Hwf depth.
  - cbn [marshal json_size]. unfold quote. simpl. lia.
  - destruct Hwf as [Hok _]. by destruct t; [|simpl; lia].
  - apply json_wf_fields in Hwf. destruct fields as [|[k v] fields]; [simpl; lia|]. rewrite marshal_object.
    apply Forall_cons in IH as [IHv IH]. apply Forall_cons in Hwf as [Hv Hwf]. specialize (IHv Hv (S depth)). simpl in IHv.
    assert (fields_size fields ≤ List.length (more_members depth fields))%nat as Hm.
    { clear -IH Hwf. induction IH as [|[k v] fields IHv IH IHf]; [done|]. apply Forall_cons in Hwf as [Hv Hwf].
      specialize (IHf Hwf). specialize (IHv Hv (S depth)). simpl in IHv. cbn [more_members].
      change (fields_size ((k, v) :: fields)) with (S (json_size v + fields_size fields)).
      cbn [List.length]. rewrite !length_app. lia. }
    change (json_size (JObject ((k, v) :: fields))) with (S (S (json_size v + fields_size fields))).
    cbn [List.length]. rewrite !length_app. cbn [List.length]. lia.
Qed.

Lemma Unmarshal_MarshalIndent v : json_wf v → Unmarshal (MarshalIndent v) = Some (value_of v).
Proof.
  intros Hwf. unfold Unmarshal, MarshalIndent. pose proof (marshal_size v Hwf 0%nat) as Hl.
  pose proof (parse_marshal v Hwf 0%nat [] (S (List.length (marshal 0 v))) I ltac:(lia)) as Hp. rewrite app_nil_r in Hp.
  by rewrite Hp.
Qed.

(** *** The time *)

(** The seconds that a time in the layout of RFC 3339, in UTC, stands for. *)
Definition read_RFC3339 (l : bytes) : Z :=
  let field i n := digits_value (take n (drop i l)) in
  date_day (field 0%nat 4%nat, field 5%nat 2%nat, field 8%nat 2%nat) * 86400 +
  field 11%nat 2%nat * 3600 + field 14%nat 2%nat * 60 + field 17%nat 2%nat.

Lemma string_length_bytes s : String.length s = List.length (string_bytes s).
Proof. unfold string_bytes. induction s as [|a s IH]; simpl; congruence. Qed.

Lemma zeros_bytes k : string_bytes (zeros k) = replicate k x30.
Proof. induction k as [|k IH]; [done|]. cbn [zeros]. rewrite string_bytes_app, IH. done. Qed.

Lemma Utoa_short n k : 0 <= n < 10 ^ Z.of_nat k → k ≠ 0%nat → (List.length (Utoa n) ≤ k)%nat.
Proof.
  intros Hn Hk. unfold Utoa.
  assert (∀ f n acc k, k ≠ 0%nat → 0 <= n < 10 ^ Z.of_nat k → (List.length (digits f n acc) ≤ k + List.length acc)%nat) as Hd; [|].
  { clear. induction f as [|f IH]; intros n acc k Hk Hn; cbn [digits]; [lia|].
    destruct (Z.ltb_spec n 10); [simpl; lia|]. destruct k as [|k]; [done|]. rewrite Nat2Z.inj_succ, Z.pow_succ_r in Hn by lia.
    etrans; [apply (IH _ _ k)|simpl; lia].
    - intros ->. simpl in Hn. lia.
    - split; [apply Z.div_pos; lia|apply Z.div_lt_upper_bound; lia]. }
  etrans; [by apply (Hd _ _ _ k)|]. simpl. lia.
Qed.

(** A padded number has its width and its value. *)
Lemma pad_spec k n :
  0 <= n < 10 ^ Z.of_nat k → k ≠ 0%nat → List.length (string_bytes (pad k n)) = k ∧ digits_value (string_bytes (pad k n)) = n.
Proof.
  intros Hn Hk. unfold pad. assert (string_bytes (Itoa n) = Utoa n) as Hi.
  { unfold Itoa. rewrite (proj2 (Z.ltb_ge n 0)) by lia. apply string_bytes_of. }
  rewrite string_length_bytes, string_bytes_app, zeros_bytes, Hi. pose proof (Utoa_short n k Hn Hk). split.
  - rewrite length_app, length_replicate. lia.
  - pose proof (digits_value_zeros (Z.of_nat (k - List.length (Utoa n)))) as Hz. unfold zero_bytes in Hz. rewrite Nat2Z.id in Hz.
    rewrite digits_value_app, Hz, digits_value_Utoa by lia. lia.
Qed.

(** The year is one of four digits. *)
Definition four_digit_year (secs : Z) : Prop := 0 <= (civil (secs / 86400)).1.1 < 10000.

Lemma read_format_RFC3339 secs : four_digit_year secs → read_RFC3339 (string_bytes (format_RFC3339 secs)) = secs.
Proof.
  unfold four_digit_year, format_RFC3339, read_RFC3339. pose proof (civil_spec (secs / 86400)) as [Hv Hd].
  destruct (civil (secs / 86400)) as [[y m] d]. cbn [fst snd]. intros Hy. unfold valid_date in Hv. destruct Hv as [Hm Hdm].
  pose proof (month_days_range y m) as Hmd. unfold clock. set (t := secs mod 86400).
  assert (0 <= t < 86400) as Ht by (by apply Z.mod_pos_bound).
  pose proof (Z.div_mod secs 86400 ltac:(done)) as Hs. fold t in Hs.
  pose proof (Z.div_mod t 60 ltac:(done)). pose proof (Z.mod_pos_bound t 60 eq_refl).
  pose proof (Z.div_mod (t / 60) 60 ltac:(done)). pose proof (Z.mod_pos_bound (t / 60) 60 eq_refl).
  assert (t / 60 / 60 = t / 3600) as Hdiv by (by rewrite Z.div_div).
  destruct (pad_spec 4 y) as [L1 V1]; [simpl; lia|done|]. destruct (pad_spec 2 m) as [L2 V2]; [simpl; lia|done|].
  destruct (pad_spec 2 d) as [L3 V3]; [simpl; lia|done|]. destruct (pad_spec 2 (t / 3600)) as [L4 V4]; [simpl; lia|done|].
  destruct (pad_spec 2 (t / 60 mod 60)) as [L5 V5]; [simpl; lia|done|]. destruct (pad_spec 2 (t mod 60)) as [L6 V6]; [simpl; lia|done|].
  rewrite !string_bytes_app.
  destruct (string_bytes (pad 4 y)) as [|a1 [|a2 [|a3 [|a4 [|]]]]]; try discriminate L1.
  destruct (string_bytes (pad 2 m)) as [|b1 [|b2 [|]]]; try discriminate L2.
  destruct (string_bytes (pad 2 d)) as [|c1 [|c2 [|]]]; try discriminate L3.
  destruct (string_bytes (pad 2 (t / 3600))) as [|d1 [|d2 [|]]]; try discriminate L4.
  destruct (string_bytes (pad 2 (t / 60 mod 60))) as [|e1 [|e2 [|]]]; try discriminate L5.
  destruct (string_bytes (pad 2 (t mod 60))) as [|f1 [|f2 [|]]]; try discriminate L6.
  change (string_bytes "-") with [x2d]. change (string_bytes ":") with [x3a]. change (string_bytes "T") with [x54].
  change (string_bytes "Z") with [x5a]. cbn [app take drop]. rewrite V1, V2, V3, V4, V5, V6, Hd. lia.
Qed.

(** ASCII bytes are read back as they are. *)
Lemma plain_ascii l : Forall (λ b, ascii b = true) l → plain_bytes l = l.
Proof.
  intros Hl. unfold plain_bytes. rewrite runes_of_ascii by done.
  induction Hl as [|b l Hb Hl IH]; [done|]. rewrite !fmap_cons. cbn [List.concat]. rewrite IH. unfold plain. simpl. by rewrite Hb.
Qed.

Lemma digits_ascii l : all_digits l → Forall (λ b, ascii b = true) l.
Proof.
  intros Hl. eapply Forall_impl; [exact Hl|]. intros b. unfold is_digit, ascii. rewrite andb_true_iff, !Z.leb_le, Z.ltb_lt. lia.
Qed.

Lemma pad_ascii k n : 0 <= n → Forall (λ b, ascii b = true) (string_bytes (pad k n)).
Proof.
  intros Hn. unfold pad, Itoa. rewrite (proj2 (Z.ltb_ge n 0)) by lia. rewrite string_bytes_app, zeros_bytes, string_bytes_of.
  apply Forall_app. split; [by apply Forall_replicate|apply digits_ascii, Utoa_digits].
Qed.

Lemma format_RFC3339_ascii secs :
  four_digit_year secs → Forall (λ b, ascii b = true) (string_bytes (format_RFC3339 secs)).
Proof.
  unfold four_digit_year, format_RFC3339. pose proof (civil_spec (secs / 86400)) as [Hv _].
  destruct (civil (secs / 86400)) as [[y m] d]. cbn [fst snd]. intros Hy. destruct Hv as [Hm Hd]. unfold clock.
  pose proof (Z.mod_pos_bound secs 86400 eq_refl). set (t := secs mod 86400) in *.
  assert (0 <= t / 3600) by (apply Z.div_pos; lia).
  pose proof (Z.mod_pos_bound (t / 60) 60 eq_refl). pose proof (Z.mod_pos_bound t 60 eq_refl).
  rewrite !string_bytes_app, !Forall_app. split_and!; try (apply pad_ascii; lia); by repeat constructor.
Qed.

(** *** The numbers *)

Lemma float_of_float z : 0 <= z → (float_of z).1 = 0 ∧ 0 < (float_of z).2 ∧ z = 0 ∨ is_float (float_of z).
Proof.
  intros Hz. unfold float_of. destruct (decide (z = 0)) as [->|Hne]; [by left|]. right. apply round53_float; lia.
Qed.

Lemma fdiv_float (x : float64) k : 0 <= x.1 → 0 < x.2 → 0 < k → (fdiv x k).1 = 0 ∧ 0 < (fdiv x k).2 ∨ is_float (fdiv x k).
Proof.
  intros Hx Hx2 Hk. unfold fdiv. destruct (decide (x.1 = 0)) as [->|Hne]; [by left|]. right. apply round53_float; nia.
Qed.

(** Of such a value, the sign. *)
Lemma float_sign (x : float64) : x.1 = 0 ∧ 0 < x.2 ∨ is_float x → 0 <= x.1 ∧ 0 < x.2.
Proof. intros [[-> ?]|(H1 & H2 & _)]; lia. Qed.

Lemma msFloat_float d : 0 <= d → (msFloat d).1 = 0 ∧ 0 < (msFloat d).2 ∨ is_float (msFloat d).
Proof.
  intros Hd. unfold msFloat. destruct (float_sign (float_of d)) as [H1 H2].
  { destruct (float_of_float d Hd) as [(H1 & H2 & _)|Hf]; auto. }
  by apply fdiv_float.
Qed.

Lemma Seconds_float d : 0 <= d → (Seconds d).1 = 0 ∧ 0 < (Seconds d).2 ∨ is_float (Seconds d).
Proof.
  intros Hd. unfold Seconds.
  assert (0 <= Z.quot d Second) as Hq by (by apply Z.quot_pos). assert (0 <= Z.rem d Second) as Hr by (by apply Z.rem_nonneg).
  destruct (float_sign (float_of (Z.quot d Second))) as [A1 A2].
  { destruct (float_of_float _ Hq) as [(H1 & H2 & _)|Hf]; auto. }
  destruct (float_sign (float_of (Z.rem d Second))) as [B1 B2].
  { destruct (float_of_float _ Hr) as [(H1 & H2 & _)|Hf]; auto. }
  destruct (float_sign (fdiv (float_of (Z.rem d Second)) Second)) as [C1 C2]; [by apply fdiv_float|].
  set (a := float_of _) in *. set (b := fdiv _ _) in *. unfold fadd.
  destruct (decide (a.1 * b.2 + b.1 * a.2 = 0)) as [->|Hne]; [by left|]. right. apply round53_float; nia.
Qed.

(** ** Property *)

Lemma read_Utoa n : 0 <= n → read_number (Utoa n) = (n, 0).
Proof.
  intros Hn. unfold read_number. pose proof (Utoa_digits n) as Ha.
  rewrite split_at_absent by (by eapply digits_not). rewrite split_at_absent by (by eapply digits_not).
  simpl. by rewrite app_nil_r, digits_value_Utoa.
Qed.

(** The text stands for the value [x]. *)
Definition stands_for (text : bytes) (x : float64) : Prop := feq (read_float text) x = true.

(** A nonnegative value, as it is written. *)
Lemma float_written (x : float64) :
  x.1 = 0 ∧ 0 < x.2 ∨ is_float x → number_wf (format_float x) ∧ stands_for (format_float x) x.
Proof.
  intros Hx. assert (x.1 = 0 ∨ is_float x) as Hz by (destruct Hx as [[? _]|?]; auto).
  split; [by apply number_wf_format_float|]. apply read_format_float; [by apply float_sign in Hx as [_ ?]|done].
Qed.

Abbreviation key k := (string_bytes k%string).

(** C39: The profile can be read back.  Whatever is measured (durations that are
    not negative, a year of four digits), the file that is written is a JSON
    text with exactly these members: the timestamp stands for the second of the
    write, the commit and the host are those given if they are UTF-8, every
    number of milliseconds and the duration, read as the nearest [float64], is
    that of the statistic of its name, and the counters are those of the
    connection; and what is printed names the file exactly if the write did not
    fail. *)
Theorem profile_reads_back {W} `{FileLib W} commit host stats now zone duration :
  0 <= duration → Forall (λ d, 0 <= d) [MinRTT stats; SmoothedRTT stats; LatestRTT stats; MeanDeviation stats] →
  Forall (λ n, 0 <= n) [BytesSent stats; BytesReceived stats; PacketsSent stats; PacketsReceived stats; PacketsLost stats] →
  four_digit_year now →
  ∃ file ts c h dur min smooth latest jitter bsent brecv psent precv plost,
    Unmarshal file = Some (VObject
      [(key "timestamp", VString ts); (key "commit", VString c); (key "host", VString h); (key "duration_s", VNumber dur);
       (key "rtt", VObject
          [(key "min_ms", VNumber min); (key "smooth_ms", VNumber smooth);
           (key "latest_ms", VNumber latest); (key "jitter_ms", VNumber jitter)]);
       (key "traffic", VObject
          [(key "bytes_sent", VNumber bsent); (key "bytes_recv", VNumber brecv); (key "pkts_sent", VNumber psent);
           (key "pkts_recv", VNumber precv); (key "pkts_lost", VNumber plost)])]) ∧
    read_RFC3339 ts = now ∧
    (valid_utf8 (string_bytes commit) = true → c = string_bytes commit) ∧
    (valid_utf8 (string_bytes host) = true → h = string_bytes host) ∧
    stands_for dur (Seconds duration) ∧
    stands_for min (msFloat (MinRTT stats)) ∧ stands_for smooth (msFloat (SmoothedRTT stats)) ∧
    stands_for latest (msFloat (LatestRTT stats)) ∧ stands_for jitter (msFloat (MeanDeviation stats)) ∧
    read_number bsent = (BytesSent stats, 0) ∧ read_number brecv = (BytesReceived stats, 0) ∧
    read_number psent = (PacketsSent stats, 0) ∧ read_number precv = (PacketsReceived stats, 0) ∧
    read_number plost = (PacketsLost stats, 0) ∧
    ∀ (w w' : W) r,
      os_WriteFile (profile_filename now zone) file 420 w = Some (r, w') → panics r = false →
      writeProfileJSON commit host (Some stats) now zone duration w =
        Some (Ok (if is_ok r then ["[profile] wrote " +:+ profile_filename now zone]%string else []), w').
Proof.
  intros Hd Hr Hn Hy. repeat match goal with Hf : Forall _ (_ :: _) |- _ => apply Forall_cons in Hf as [? Hf] end.
  set (p := profile_record (format_RFC3339 now) commit host duration stats).
  destruct (float_written (Seconds duration)) as [W0 V0]; [by apply Seconds_float|].
  assert (∀ d, 0 <= d → number_wf (format_float (msFloat d)) ∧ stands_for (format_float (msFloat d)) (msFloat d)) as Hms
    by (intros d Hd0; by apply float_written, msFloat_float).
  destruct (Hms (MinRTT stats)) as [W1 V1]; [done|]. destruct (Hms (SmoothedRTT stats)) as [W2 V2]; [done|].
  destruct (Hms (LatestRTT stats)) as [W3 V3]; [done|]. destruct (Hms (MeanDeviation stats)) as [W4 V4]; [done|].
  pose proof (Unmarshal_MarshalIndent (profile_json p)) as Hp.
  eexists (MarshalIndent (profile_json p)), _, _, _, _, _, _, _, _, _, _, _, _, _. split.
  { rewrite Hp; [reflexivity|]. simpl json_wf. pose proof number_wf_Utoa. split_and!; auto. }
  split.
  { change (read_RFC3339 (plain_bytes (string_bytes (format_RFC3339 now))) = now).
    by rewrite plain_ascii, read_format_RFC3339 by (done || by apply format_RFC3339_ascii). }
  split; [apply plain_valid|]. split; [apply plain_valid|]. do 5 (split; [assumption|]).
  do 5 (split; [by apply read_Utoa|]).
  intros w w' r Hw Hpan. unfold writeProfileJSON, io_bind, io_try. cbv zeta. fold p. rewrite Hw. by destruct r.
Qed.

(** A disk that takes everything. *)
#[export] Instance mem_files : FileLib (gmap string bytes) := {|
  os_WriteFile name data _ := λ w, Some (Ok (), <[name := data]> w);
|}.

Lemma profile_reads_back_witness :
  ∃ file ts c h dur min smooth latest jitter bsent brecv psent precv plost,
    Unmarshal file = Some (VObject
      [(key "timestamp", VString ts); (key "commit", VString c); (key "host", VString h); (key "duration_s", VNumber dur);
       (key "rtt", VObject
          [(key "min_ms", VNumber min); (key "smooth_ms", VNumber smooth);
           (key "latest_ms", VNumber latest); (key "jitter_ms", VNumber jitter)]);
       (key "traffic", VObject
          [(key "bytes_sent", VNumber bsent); (key "bytes_recv", VNumber brecv); (key "pkts_sent", VNumber psent);
           (key "pkts_recv", VNumber precv); (key "pkts_lost", VNumber plost)])]) ∧
    read_RFC3339 ts = 951827696 ∧ h = string_bytes "a<b" ∧
    stands_for min (msFloat 9000000) ∧ stands_for smooth (msFloat 11000000) ∧ read_number precv = (17, 0) ∧
    writeProfileJSON "abc" "a<b" (Some ex_stats) 951827696 3600 1500000000 (∅ : gmap string bytes) =
      Some (Ok ["[profile] wrote /tmp/goet-profile-20000229-133456.json"]%string,
            {["/tmp/goet-profile-20000229-133456.json"%string := file]}).
Proof.
  destruct (profile_reads_back (W := gmap string bytes) "abc" "a<b" ex_stats 951827696 3600 1500000000)
    as (file & ts & c & h & dur & mn & sm & lt & jt & bs & br & ps & pr & pl & Hu & Ht & _ & Hh & _ & Hmn & Hsm & _ & _ & _ & _ & _ & Hpr & _ & Hw).
  - lia.
  - by vm_compute; repeat constructor.
  - by vm_compute; repeat constructor.
  - by vm_compute.
  - exists file, ts, c, h, dur, mn, sm, lt, jt, bs, br, ps, pr, pl. split; [exact Hu|]. split; [exact Ht|].
    split; [exact (Hh eq_refl)|]. split; [exact Hmn|]. split; [exact Hsm|]. split; [exact Hpr|].
    exact (Hw ∅ _ (Ok ()) eq_refl eq_refl).
Defined.
End profilefile.
