(* ===== verification/ClientRun.v ===== *)
(** * The client's main function ([Run] in [internal/client/client.go])

    [Client] models the parts of [Run]; here they are put together: dialling
    and its hint, raw mode and the deferred [restoreTerminal], the messages on
    stderr, the waits between attempts, and how [Run] returns or panics.  The
    terminal is golang.org/x/term, which is an interface, [TermLib]; [TermLaws]
    states what the code relies on.  What the theorems show: every run of
    [Run] is a run of [Client.client.reach]; outside the event loop, and after
    [Run] has returned or panicked, the terminal is in the mode it was started
    in, but not when a goroutine that reads a stream panics; and [Run] gives
    up only for a reason it is meant to. *)

From S2P Require Import Prelude GoIO Protocol Catchup Coalesce Escape Transport Sender Client Profile.
Open Scope list_scope.
Open Scope go_scope.

Module clientrun.
Import client.

(** ** The terminal

    [term.MakeRaw] gives the state that [term.Restore] takes. *)
Class TermLib (W : Type) : Type := {
  term_State : Type;
  term_MakeRaw : Z → io W term_State;
  term_Restore : Z → term_State → io W ();
}.

(** The view [M] of a terminal is its mode.  [MakeRaw] saves it and sets the
    raw one, or fails and changes nothing; [Restore] sets a saved one, or
    fails. *)
Class TermLaws (W : Type) {M : Type} `{TermLib W, View W M} : Type := {
  saved : term_State → M;
  raw : M → M;
  MakeRaw_mode fd (w : W) r w' : term_MakeRaw fd w = Some (r, w') →
    match r with
    | Ok state => saved state = view w ∧ view w' = raw (view w)
    | Err _ => view w' = view w
    | Panicked _ => False
    end;
  Restore_mode fd state (w : W) r w' : term_Restore fd state w = Some (r, w') →
    match r with Ok _ => view w' = saved state | Err _ => True | Panicked _ => False end;
}.

(** ** The state of [Run] *)

Section run.
Context {C : Type} `{ConnLaws C} {W : Type} `{TermLib W}.
#[local] Abbreviation st := (client.st (C := C)).

(** The client with its locals, the terminal, the lines on stderr, the local
    [dialHinted], the variables [oldState] of the [restoreTerminal] calls
    deferred so far, the latest first, and the logged restore failures. *)
Record rst : Type := MkRun {
  r_st : st;
  r_tty : W;
  r_stderr : list string;
  r_dialHinted : bool;
  r_deferred : list (option term_State);
  r_failures : list error;
}.

Definition set_st (x : st) (s : rst) : rst :=
  MkRun x (r_tty s) (r_stderr s) (r_dialHinted s) (r_deferred s) (r_failures s).
Definition set_tty (w : W) (s : rst) : rst :=
  MkRun (r_st s) w (r_stderr s) (r_dialHinted s) (r_deferred s) (r_failures s).
Definition set_hinted (b : bool) (s : rst) : rst :=
  MkRun (r_st s) (r_tty s) (r_stderr s) b (r_deferred s) (r_failures s).
Definition set_deferred (l : list (option term_State)) (s : rst) : rst :=
  MkRun (r_st s) (r_tty s) (r_stderr s) (r_dialHinted s) l (r_failures s).

Definition rget {A} (f : rst → A) : io rst A := λ s, Some (Ok (f s), s).
Definition rmodify (f : rst → rst) : io rst () := λ s, Some (Ok (), f s).
Definition on_client {A} (c : io st A) : io rst A := io_zoom r_st set_st c.
Definition on_tty {A} (c : io W A) : io rst A := io_zoom r_tty set_tty c.

(** [fmt.Fprintf(c.stderr, ...)] *)
Definition Fprintf (lines : list string) : io rst () :=
  rmodify (λ s, MkRun (r_st s) (r_tty s) (r_stderr s ++ lines) (r_dialHinted s) (r_deferred s) (r_failures s)).

(** [c.log.Error("terminal restore failed", "err", err)] *)
Definition log_failure (e : error) : io rst () :=
  rmodify (λ s, MkRun (r_st s) (r_tty s) (r_stderr s) (r_dialHinted s) (r_deferred s) (r_failures s ++ [e])).

(** ** Raw mode *)

(** [restoreTerminal] on one variable [oldState]. *)
Definition restore (oldState : option term_State) : io rst () :=
  match oldState with
  | None => io_ret ()
  | Some state =>
    fd <- rget (λ s, cl_stdinFd (cl (r_st s))) ;;
    r <- io_try (on_tty (term_Restore fd state)) ;;
    match r with Err e => log_failure e | _ => io_ret () end
  end.

(** The call after [ioLoop]: it sets the variable of this iteration to nil. *)
Definition restoreTerminal : io rst () :=
  ds <- rget r_deferred ;;
  match ds with
  | d :: ds => restore d ;; rmodify (set_deferred (None :: ds))
  | [] => io_ret ()
  end.

(** The deferred calls, when [Run] returns or panics. *)
Fixpoint restore_all (ds : list (option term_State)) : io rst () :=
  match ds with
  | [] => io_ret ()
  | d :: ds => restore d ;; restore_all ds
  end.

Definition run_deferred : io rst () :=
  ds <- rget r_deferred ;; restore_all ds ;; rmodify (set_deferred []).

(** Enter raw mode, if the input is a terminal, and defer its restoration. *)
Definition make_raw : io rst () :=
  fd <- rget (λ s, cl_stdinFd (cl (r_st s))) ;;
  oldState <- (if 0 <=? fd then state <- on_tty (term_MakeRaw fd) ;; io_ret (Some state) else io_ret None) ;;
  rmodify (λ s, set_deferred (oldState :: r_deferred s) s).

(** ** One attempt *)

(** [transport.Dial], what it was called with and what it returned; the
    deadline of 10 s is part of what it may return. *)
Definition dialer : Type := DialMode → string → Z → bytes → Z → res C.

Definition dial (transport_Dial : dialer) (c : Client) : res C :=
  transport_Dial (cfg_DialMode (cl_cfg c)) (cfg_Host (cl_cfg c)) (cfg_Port (cl_cfg c)) (cfg_Passkey (cl_cfg c)) (cl_recvSeq c).

(** From the successful dial to the terminal name; [false] when the connection
    is given up. *)
Definition greet (TERM : string) : io st bool :=
  modify (λ c, MkClient (cl_cfg c) (cl_buf c) (cl_escape c) (cl_sendSeq c) (cl_recvSeq c) (cl_stdout c)
                 (cl_stdinFd c) true) ;;
  r <- io_try handleSequenceExchange ;;
  match r with
  | Err _ => call (λ c, Some (Ok (), Close c)) ;; io_ret false
  | _ =>
    r <- io_try (sendTerminalInfo TERM) ;;
    match r with
    | Err _ => call (λ c, Some (Ok (), Close c)) ;; io_ret false
    | _ => io_ret true
    end
  end.

(** From raw mode to the start of [ioLoop]. *)
Definition prepare (size : res (Z * Z)) (now : Z) : io st () :=
  sendResize size ;;
  modify (λ c, set_escape (escape.Reset (cl_escape c)) c) ;;
  call (λ c, Some (Ok (), StartDemux c)) ;;
  enter_loop now.

(** What profiling prints: the connection's statistics, the time since the
    first dial, and the file that was written, if it was. *)
Record profiled : Type := MkProfiled {
  pf_stats : option profile.ConnectionStats;
  pf_elapsed : Z;
  pf_wrote : option string;
}.

Definition heartbeat_line (pf : profiled) : list string := [profile.logProfile (pf_stats pf)].

Definition exit_lines (pf : profiled) : list string :=
  profile.summary_lines (pf_stats pf) (pf_elapsed pf) ++
  match pf_stats pf, pf_wrote pf with
  | Some _, Some name => [("[profile] wrote " +:+ name)%string]
  | _, _ => []
  end.

(** One iteration of [ioLoop], with what it prints when profiling: a line at a
    heartbeat that was written, and the deferred summary when it returns or
    panics. *)
Definition loop_turn (lastRecv now : Z) (e : event) (pf : profiled) : io rst (Z + exitReason) := λ s,
  let printed lines s :=
    if cfg_Profile (cl_cfg (cl (r_st s)))
    then MkRun (r_st s) (r_tty s) (r_stderr s ++ lines) (r_dialHinted s) (r_deferred s) (r_failures s) else s in
  match on_client (ioLoop lastRecv now e) s with
  | None => None
  | Some (Ok (inl l), s') =>
    Some (Ok (inl l), match e with EvHeartbeat => printed (heartbeat_line pf) s' | _ => s' end)
  | Some (r, s') => Some (r, printed (exit_lines pf) s')
  end.

(** ** [Run]

    Where it blocks: in the dial, in the select of [ioLoop], or in the select
    between two attempts. *)
Inductive phase : Type := Dialing | Looping (lastRecv : Z) | Waiting.

(** What it is given there; [ctx_err] is [ctx.Err()]. *)
Inductive input : Type :=
| Dialed (transport_Dial : dialer) (ctx_err : option error) (TERM : string) (size : res (Z * Z)) (now : Z)
| Turn (now : Z) (e : event) (pf : profiled) (ctx_err : option error)
| DelayOver
| CtxDone (ctx_err : error).

(** From raw mode into the loop. *)
Definition enter (size : res (Z * Z)) (now : Z) : io rst (phase + option error) :=
  r <- io_try make_raw ;;
  match r with
  | Err err =>
    on_client (call (λ c, Some (Ok (), Close c))) ;;
    io_ret (inr (Some (ErrWrap "make raw: %w" err)))
  | _ => on_client (prepare size now) ;; io_ret (inl (Looping now))
  end.

Definition step (p : phase) (i : input) : io rst (phase + option error) :=
  match p, i with
  | Dialing, Dialed transport_Dial ctx_err TERM size now =>
    c <- rget (λ s, cl (r_st s)) ;;
    match dial transport_Dial c with
    | Panicked pn => io_lift (Panicked pn)
    | Err _ =>
      hinted <- rget r_dialHinted ;;
      let '(n, hinted, lines) := after_failed_dial c hinted ctx_err in
      rmodify (set_hinted hinted) ;;
      Fprintf lines ;;
      io_ret (match n with Return err => inr err | _ => inl Waiting end)
    | Ok conn =>
      rmodify (λ s, set_st (St (cl (r_st s)) conn (coal (r_st s)) (escapeBuf (r_st s))) s) ;;
      let reconnecting := cl_started c in
      greeted <- on_client (greet TERM) ;;
      if negb greeted then io_ret (inl Waiting) else
      (if reconnecting then Fprintf ["Reconnected."%string] else io_ret ()) ;;
      enter size now
    end
  | Looping lastRecv, Turn now e pf ctx_err =>
    r <- loop_turn lastRecv now e pf ;;
    match r with
    | inl lastRecv => io_ret (inl (Looping lastRecv))
    | inr reason =>
      restoreTerminal ;;
      n <- on_client (after_loop reason ctx_err) ;;
      match n with
      | Return err => io_ret (inr err)
      | _ => Fprintf [""; "Connection lost. Reconnecting..."]%string ;; io_ret (inl Waiting)
      end
    end
  | Waiting, DelayOver => io_ret (inl Dialing)
  | Waiting, CtxDone err => io_ret (inr (Some err))
  | _, _ => io_block
  end.

(** How the main goroutine stands: it runs, has returned, panics with its
    deferred calls done; or a goroutine that reads a stream has panicked,
    which ends the process as it is. *)
Inductive outcome : Type :=
| Running (p : phase)
| Returned (err : option error)
| Panicking (p : panic)
| Crashed (p : panic).

Definition finish (o : outcome) (s : rst) : option (outcome * rst) :=
  match run_deferred s with
  | Some (Panicked p, s') => Some (Panicking p, s')
  | Some (_, s') => Some (o, s')
  | None => None
  end.

Definition Run_step (p : phase) (i : input) (s : rst) : option (outcome * rst) :=
  match step p i s with
  | None => None
  | Some (Ok (inl p'), s') => Some (Running p', s')
  | Some (Ok (inr err), s') => finish (Returned err) s'
  | Some (Err e, s') => finish (Returned (Some e)) s'
  | Some (Panicked pn, s') => finish (Panicking pn) s'
  end.

(** A reader of the connection that panics. *)
Definition reader_panics (control : bool) (s : rst) : option (outcome * rst) :=
  match on_client (readStreamLoop_iter (if control then ReadControl else ReadData)) s with
  | Some (Panicked p, s') => Some (Crashed p, s')
  | _ => None
  end.

(** [New], with nothing printed and nothing deferred. *)
Definition starts (cfg : Config) (stdout : writer) (fd : Z) (tty : W) (s : rst) : Prop :=
  cl (r_st s) = New cfg stdout fd ∧ r_tty s = tty ∧ r_stderr s = [] ∧ r_dialHinted s = false ∧
  r_deferred s = [] ∧ r_failures s = [].

(** ** What the client's operations leave alone

    The descriptor and the configuration are never changed. *)
Definition fixed (s s' : st) : Prop :=
  cl_stdinFd (cl s') = cl_stdinFd (cl s) ∧ cl_cfg (cl s') = cl_cfg (cl s).

#[export] Instance fixed_preorder : PreOrder fixed.
Proof. split; [by intros s|]. intros s1 s2 s3 [] []. split; congruence. Qed.

Lemma fixed_get {A} (f : st → A) : leaves fixed (get f).
Proof. apply leaves_read, _. Qed.

Lemma fixed_modify (f : Client → Client) :
  (∀ c, cl_stdinFd (f c) = cl_stdinFd c ∧ cl_cfg (f c) = cl_cfg c) → leaves fixed (modify f).
Proof. intros Hf s r s' [= _ <-]. apply Hf. Qed.

Lemma fixed_call {A} (c : io C A) : leaves fixed (call c).
Proof. by apply leaves_zoom. Qed.

Lemma fixed_stdout p : leaves fixed (stdout_Write p).
Proof. by apply leaves_zoom. Qed.

(** A step written out as a function of the state. *)
Lemma fixed_fun {A} (f : st → option (res A * st)) :
  (∀ s r s', f s = Some (r, s') → fixed s s') → leaves fixed f.
Proof. done. Qed.

#[local] Hint Resolve fixed_get fixed_call fixed_stdout : leaves.
#[local] Hint Extern 2 (leaves fixed (modify _)) => by apply fixed_modify : leaves.

Lemma fixed_exchange : leaves fixed handleSequenceExchange.
Proof.
  assert (∀ es, leaves fixed (resend es)) as Hr.
  { induction es as [|e es IH]; cbn [resend]; solve_leaves. }
  unfold handleSequenceExchange. solve_leaves.
Qed.

Lemma fixed_resize size : leaves fixed (sendResize size).
Proof. unfold sendResize. solve_leaves. Qed.

#[local] Hint Resolve fixed_exchange fixed_resize : leaves.

Lemma fixed_greet TERM : leaves fixed (greet TERM).
Proof. unfold greet, sendTerminalInfo. solve_leaves. Qed.

Lemma fixed_flush now : leaves fixed (flushStdinCoalesced now).
Proof.
  unfold flushStdinCoalesced. solve_leaves.
  - apply fixed_fun. intros s r s'. destruct (coalesce.Flush _ _). by intros [= _ <-].
  - apply fixed_fun. intros s r s'. destruct (catchup.Store _ _ _) as [[]|]; [..|done]; by intros [= _ <-].
Qed.

Lemma fixed_deliver msg : leaves fixed (deliver msg).
Proof. unfold deliver. solve_leaves. Qed.

#[local] Hint Resolve fixed_flush fixed_deliver : leaves.

Lemma fixed_drain arriving : leaves fixed (drainRemainingData arriving).
Proof. induction arriving as [|[msg|e|p] rest IH]; cbn [drainRemainingData]; solve_leaves. Qed.

#[local] Hint Resolve fixed_drain : leaves.

Lemma fixed_ioLoop lastRecv now e : leaves fixed (ioLoop lastRecv now e).
Proof.
  unfold ioLoop. solve_leaves.
  - apply fixed_fun. intros s r s'. destruct (escape.Process _ _ _) as [[[[e' dst] n'] a]| |]; by intros [= _ <-].
  - apply fixed_fun. intros s r s'. destruct (coalesce.Add _ _ _). by intros [= _ <-].
  - apply fixed_fun. intros s r s'. destruct (coalesce.recv_Timer _ _); [|done]. by intros [= _ <-].
Qed.

Lemma fixed_prepare size now : leaves fixed (prepare size now).
Proof.
  unfold prepare. solve_leaves. apply fixed_fun. intros s r s'. unfold enter_loop.
  destruct (coalesce.New now); [|done]. by intros [= _ <-].
Qed.

Lemma fixed_after reason ctx : leaves fixed (after_loop reason ctx).
Proof. unfold after_loop. solve_leaves. Qed.

(** ** The set-up, in the order of [Run] *)

Lemma set_up_greet TERM makeRaw size now (s : st) :
  set_up TERM makeRaw size now s =
  (ok <- greet TERM ;;
   if negb ok then io_ret Retry else
   fd <- get (λ s, cl_stdinFd (cl s)) ;;
   match (if 0 <=? fd then makeRaw else Ok ()) with
   | Panicked p => io_lift (Panicked p)
   | Err e => call (λ c, Some (Ok (), Close c)) ;; io_ret (Return (Some (ErrWrap "make raw: %w" e)))
   | Ok _ => prepare size now ;; io_ret Enter
   end) s.
Proof.
  unfold set_up, greet, prepare, io_bind, io_try, modify, get, io_ret, io_lift. set (s0 := set_cl _ s).
  repeat (case_match; simplify_eq; try done).
Qed.

(** ** Runs *)

(** [ctxE]: what [ctx.Err()] is once the context is done. *)
Variables (cfg : Config) (stdout : writer) (fd : Z) (ctxE : error).

Definition from_ctx (ctx_err : option error) : Prop := ctx_err = None ∨ ctx_err = Some ctxE.

(** What the loop may be given: no chunk longer than the read buffer, and no
    panic, which is not a value that arrives. *)
Definition admissible_event (e : event) : Prop :=
  len (stdin_bytes e) <= stdinBufSize ∧
  match e with
  | EvControl r drained => panics r = false ∧ Forall (λ r, panics r = false) drained
  | EvData r control => panics r = false
  | EvSigwinch size => panics size = false
  | _ => True
  end.

Definition admissible (c : Client) (i : input) : Prop :=
  match i with
  | Dialed transport_Dial ctx_err _ size _ =>
    from_ctx ctx_err ∧ panics size = false ∧
    ∀ x, dial transport_Dial c = Ok x → fresh x ∧ ∃ cs, sent x cs []
  | Turn _ e _ ctx_err => admissible_event e ∧ from_ctx ctx_err ∧ (e = EvCtxDone → ctx_err = Some ctxE)
  | DelayOver => True
  | CtxDone e => e = ctxE
  end.

Definition turns (i : input) : Z := match i with Turn _ _ _ _ => 1 | _ => 0 end.
Definition typed (i : input) : bytes := match i with Turn _ e _ _ => stdin_bytes e | _ => [] end.

(** [reach tty N inp o s]: from a terminal [tty], after [N] iterations of the
    event loop that read [inp] from it, the main goroutine stands at [o]. *)
Inductive reach (tty : W) : Z → bytes → outcome → rst → Prop :=
| run_start s : starts cfg stdout fd tty s → reach tty 0 [] (Running Dialing) s
| run_input N inp p i s o s' :
  reach tty N inp (Running p) s → admissible (cl (r_st s)) i → Run_step p i s = Some (o, s') →
  reach tty (N + turns i) (inp ++ typed i) o s'
| run_goroutine N inp p s x :
  reach tty N inp (Running p) s → goroutine_step (conn (r_st s)) x →
  reach tty N inp (Running p) (set_st (St (cl (r_st s)) x (coal (r_st s)) (escapeBuf (r_st s))) s)
| run_crash N inp l control s o s' :
  reach tty N inp (Running (Looping l)) s → reader_panics control s = Some (o, s') →
  reach tty N inp o s'.
End run.

(** ** The mode of the terminal *)

Section mode.
Context {C : Type} `{ConnLaws C} {W M : Type} `{TermLaws W M}.
#[local] Abbreviation rst := (rst (C := C) (W := W)).
Variables (fd : Z) (m0 : M).

(** All is restored. *)
Definition settled (s : rst) : Prop :=
  Forall (λ d, d = None) (r_deferred s) ∧ (r_failures s = [] → view (r_tty s) = m0).

(** Raw mode, with the state that ends it at hand. *)
Definition rawly (s : rst) : Prop :=
  ∃ d ds, r_deferred s = d :: ds ∧ Forall (λ d, d = None) ds ∧
    (r_failures s = [] →
     if 0 <=? fd then view (r_tty s) = raw m0 ∧ ∃ state, d = Some state ∧ saved state = m0
     else view (r_tty s) = m0 ∧ d = None).

(** What the operations of the client leave alone. *)
Definition outside (s s' : rst) : Prop :=
  r_tty s' = r_tty s ∧ r_deferred s' = r_deferred s ∧ r_failures s' = r_failures s ∧ fixed (r_st s) (r_st s').

#[export] Instance outside_preorder : PreOrder outside.
Proof. split; [by intros s|]. intros s1 s2 s3 (?&?&?&?) (?&?&?&?). split_and!; [congruence..|by etrans]. Qed.

Lemma outside_client {A} (c : io (st (C := C)) A) : leaves fixed c → leaves outside (on_client c).
Proof. intros Hc s r s' (x & E & ->)%zoom_inv. split_and!; [done..|]. by eapply Hc. Qed.

Lemma settled_outside s s' : outside s s' → settled s → settled s'.
Proof. unfold settled. by intros (-> & -> & -> & _). Qed.

Lemma rawly_outside s s' : outside s s' → rawly s → rawly s'.
Proof. unfold rawly. by intros (-> & -> & -> & _). Qed.

Lemma restore_spec d (s : rst) r s' :
  restore d s = Some (r, s') →
  r = Ok () ∧ r_st s' = r_st s ∧ r_deferred s' = r_deferred s ∧
  (r_failures s' = [] → r_failures s = [] ∧
    match d with Some state => view (r_tty s') = saved state | None => r_tty s' = r_tty s end).
Proof.
  destruct d as [state|]; [|by intros [= <- <-]]. unfold restore, rget, io_bind, io_try, on_tty, io_zoom.
  destruct (term_Restore _ _ _) as [[[]w]|] eqn:E; [..|done]; apply Restore_mode in E; [| |done]; intros [= <- <-].
  - by split_and!.
  - split_and!; [done..|]. by intros [_ ?]%app_eq_nil.
Qed.

Lemma restore_all_none ds (s : rst) : Forall (λ d, d = None) ds → restore_all ds s = Some (Ok (), s).
Proof. induction 1 as [|d ds -> _ IH]; [done|]. simpl. by rewrite (io_bind_ok _ _ s () s). Qed.

Lemma restoreTerminal_spec (s : rst) r s' :
  rawly s → restoreTerminal s = Some (r, s') → r = Ok () ∧ r_st s' = r_st s ∧ settled s'.
Proof.
  intros (d & ds & Hd & Hn & Hm). unfold restoreTerminal. rewrite (io_bind_ok _ _ s (r_deferred s) s) by done. rewrite Hd.
  intros (r1 & s1 & (-> & Hst & _ & Hf)%restore_spec & [= <- <-])%io_bind_split.
  split; [done|]. split; [done|]. split; [by constructor|]. simpl. intros [Hf0 Hv]%Hf. specialize (Hm Hf0).
  destruct (0 <=? fd); [destruct Hm as (_ & state & -> & <-)|destruct Hm as [<- ->]]; [done|]. by rewrite Hv.
Qed.

(** The deferred calls restore whatever was left. *)
Lemma finish_spec o (s : rst) o' s' :
  settled s ∨ rawly s → finish o s = Some (o', s') → o' = o ∧ (r_failures s' = [] → view (r_tty s') = m0).
Proof.
  unfold finish, run_deferred, rget. rewrite (io_bind_ok _ _ s (r_deferred s) s) by done. intros [[Hn Hm]|(d & ds & -> & Hn & Hm)].
  - rewrite (io_bind_ok _ _ s () s) by (by apply restore_all_none). by intros [= <- <-].
  - destruct (io_bind _ _ s) as [[r s1]|] eqn:E; [|done].
    apply io_bind_split in E as (r1 & s2 & E & Hk). cbn [restore_all] in E.
    apply io_bind_split in E as (r2 & s3 & (-> & _ & _ & Hf)%restore_spec & E). rewrite restore_all_none in E by done.
    injection E as <- <-. injection Hk as <- <-. intros [= <- <-]. split; [done|]. simpl.
    intros [Hf0 Hv]%Hf. specialize (Hm Hf0). destruct (0 <=? fd); [destruct Hm as (_ & state & -> & <-)|destruct Hm as [<- ->]]; [done|].
    by rewrite Hv.
Qed.

Lemma make_raw_spec (s : rst) r s' :
  cl_stdinFd (cl (r_st s)) = fd → settled s → make_raw s = Some (r, s') →
  r_st s' = r_st s ∧ match r with Ok _ => rawly s' | Err _ => settled s' | Panicked _ => False end.
Proof.
  intros Hfd [Hn Hm]. unfold make_raw, rget. rewrite (io_bind_ok _ _ s (cl_stdinFd (cl (r_st s))) s), Hfd by done.
  destruct (0 <=? fd) eqn:Ef.
  - unfold io_bind, on_tty, io_zoom. destruct (term_MakeRaw fd (r_tty s)) as [[[state|e|p] w]|] eqn:E; [..|done];
      apply MakeRaw_mode in E; [|intros [= <- <-]; split; [done|]..|done].
    + intros [= <- <-]. split; [done|]. destruct E as [Hs Hv]. exists (Some state), (r_deferred s). split; [done|]. split; [done|].
      simpl. rewrite Ef. intros Hf%Hm. rewrite Hv, Hf. split; [done|]. exists state. split; [done|]. congruence.
    + split; [done|]. simpl. intros Hf%Hm. congruence.
  - intros [= <- <-]. split; [done|]. exists None, (r_deferred s). split; [done|]. split; [done|]. simpl. rewrite Ef. auto.
Qed.

Lemma rget_bind {A B} (f : rst → A) (k : A → io rst B) s : io_bind (rget f) k s = k (f s) s.
Proof. done. Qed.
Lemma rmodify_bind {B} f (k : () → io rst B) s : io_bind (rmodify f) k s = k () (f s).
Proof. done. Qed.

Definition guarded (p : phase) (s : rst) : Prop :=
  cl_stdinFd (cl (r_st s)) = fd ∧ match p with Looping _ => rawly s | _ => settled s end.

Definition left_in (r : res (phase + option error)) (s : rst) : Prop :=
  match r with Ok (inl p) => guarded p s | _ => settled s ∨ rawly s end.

Lemma loop_turn_outside lastRecv now e pf : leaves outside (loop_turn (C := C) (W := W) lastRecv now e pf).
Proof.
  intros s r s'. unfold loop_turn. destruct (on_client _ s) as [[r1 s1]|] eqn:E; [|done].
  assert (outside s s1) as Ho by (eapply outside_client; [apply fixed_ioLoop|exact E]).
  destruct r1 as [[l|reason]|e1|p]; intros [= _ <-]; destruct (cfg_Profile _), e; exact Ho.
Qed.

Lemma enter_left size now s r s' :
  guarded Dialing s → enter (C := C) size now s = Some (r, s') → left_in r s'.
Proof.
  intros [Hfd Hs]. unfold enter. intros (r2 & s3 & E2 & Hk)%io_bind_split. unfold io_try in E2.
  destruct (make_raw s) as [[r3 s4]|] eqn:E3; [|done]. apply make_raw_spec in E3 as [Hst Hr3]; [|done..].
  destruct r3 as [[]|e|p]; [| |done]; injection E2 as <- <-.
  - apply io_bind_split in Hk as (r5 & s5 & E5%(outside_client _ (fixed_prepare size now)) & Hk).
    pose proof (rawly_outside _ _ E5 Hr3) as Hr5. destruct r5; [|by destruct Hk as [-> ->]; right..].
    injection Hk as <- <-. split; [|done]. destruct E5 as (_ & _ & _ & -> & _). by rewrite Hst.
  - apply io_bind_split in Hk as (r5 & s5 & E5 & Hk). apply (outside_client _ (fixed_call _)) in E5.
    pose proof (settled_outside _ _ E5 Hr3) as Hr5. destruct r5; [by injection Hk as <- <-; left|by destruct Hk as [-> ->]; left..].
Qed.

Lemma dialed_left d ctx TERM size now s r s' :
  guarded Dialing s → step (C := C) Dialing (Dialed d ctx TERM size now) s = Some (r, s') → left_in r s'.
Proof.
  intros [Hfd Hs]. unfold step. rewrite rget_bind. destruct (dial d _) as [x|e|p]; [| |by intros [= <- <-]; left].
  2:{ rewrite rget_bind. destruct (after_failed_dial _ _ _) as [[n h] lines]. by destruct n; intros [= <- <-]; [split..|left]. }
  rewrite rmodify_bind. set (s0 := set_st _ s).
  intros (r1 & s1 & E%(outside_client _ (fixed_greet TERM)) & Hk)%io_bind_split.
  assert (guarded Dialing s1) as [Hfd1 Hs1].
  { split; [|by eapply settled_outside, Hs]. destruct E as (_ & _ & _ & -> & _). done. }
  destruct r1 as [[]|e|p]; simpl in Hk; [| |by destruct Hk as [-> ->]; left..]; [|by injection Hk as <- <-].
  destruct (cl_started _); (eapply enter_left; [|exact Hk]); done.
Qed.

Lemma step_left p i s r s' : guarded p s → step p i s = Some (r, s') → left_in r s'.
Proof.
  destruct p as [|l|], i as [d ctx TERM size now|now e pf ctx| |e]; try done.
  - apply dialed_left.
  - intros [Hfd Hr]. unfold step. intros (r1 & s1 & E%loop_turn_outside & Hk)%io_bind_split.
    pose proof (rawly_outside _ _ E Hr) as Hr1. destruct r1 as [[l'|reason]|e1|p]; [| |by destruct Hk as [-> ->]; right..].
    { injection Hk as <- <-. split; [|done]. destruct E as (_ & _ & _ & -> & _). done. }
    apply io_bind_split in Hk as (r2 & s2 & (-> & Hst & Hs2)%restoreTerminal_spec & Hk); [|done].
    apply io_bind_split in Hk as (r3 & s3 & E3%(outside_client _ (fixed_after reason ctx)) & Hk).
    pose proof (settled_outside _ _ E3 Hs2) as Hs3.
    assert (cl_stdinFd (cl (r_st s3)) = fd) as Hfd3.
    { destruct E3 as (_ & _ & _ & -> & _). rewrite Hst. destruct E as (_ & _ & _ & -> & _). done. }
    destruct r3 as [n|e3|p]; [|by destruct Hk as [-> ->]; left..].
    destruct n as [| |err]; injection Hk as <- <-; [by split..|by left].
  - intros Hg [= <- <-]. exact Hg.
  - intros [_ Hs] [= <- <-]. by left.
Qed.

(** The mode, for every way the main goroutine stands. *)
Definition mode_of (o : outcome) : M :=
  match o with
  | Running (Looping _) | Crashed _ => if 0 <=? fd then raw m0 else m0
  | _ => m0
  end.

Definition mode_inv (o : outcome) (s : rst) : Prop :=
  match o with
  | Running p => guarded p s
  | _ => r_failures s = [] → view (r_tty s) = mode_of o
  end.

Lemma rawly_mode s : rawly s → r_failures s = [] → view (r_tty s) = if 0 <=? fd then raw m0 else m0.
Proof. intros (d & ds & _ & _ & Hm) Hf. specialize (Hm Hf). destruct (0 <=? fd); by destruct Hm as [-> _]. Qed.

Lemma Run_step_mode p i s o s' : guarded p s → Run_step p i s = Some (o, s') → mode_inv o s'.
Proof.
  unfold Run_step. intros Hg. destruct (step p i s) as [[r s1]|] eqn:E; [|done]. apply step_left in E; [|done].
  destruct r as [[p'|err]|e|pn]; [by intros [= <- <-]|..]; intros [-> Hm]%finish_spec; done.
Qed.
End mode.

(** ** The client inside *)

Section refinement.
Context {C : Type} `{ConnLaws C} {W M : Type} `{TermLaws W M}.
#[local] Abbreviation rst := (rst (C := C) (W := W)).
Variables (cfg : Config) (stdout : writer) (fd : Z) (ctxE : error).
#[local] Abbreviation creach := (client.reach (C := C) cfg stdout fd).

Definition at_loop (p : phase) : option Z := match p with Looping l => Some l | _ => None end.

(** After [N] iterations that read [inp] the client is one that [client.reach]
    allows. *)
Definition follows (N : Z) (inp : bytes) (p : phase) (s : rst) : Prop :=
  ∃ segs cur, inp = List.concat segs ++ cur ∧ (at_loop p = None → cur = []) ∧ creach N segs cur (r_st s) (at_loop p).

Lemma follows_st N inp p p' (s s' : rst) :
  at_loop p' = at_loop p → r_st s' = r_st s → follows N inp p s → follows N inp p' s'.
Proof. unfold follows. by intros -> ->. Qed.

Lemma make_raw_st (s : rst) r s' : make_raw s = Some (r, s') → r_st s' = r_st s.
Proof.
  unfold make_raw. rewrite rget_bind. unfold io_bind, on_tty, io_zoom, rmodify. destruct (0 <=? _).
  - destruct (term_MakeRaw _ _) as [[[]]|]; [..|done]; by intros [= _ <-].
  - by intros [= _ <-].
Qed.

Lemma enter_st size now (s : rst) p s' :
  enter size now s = Some (Ok (inl p), s') → p = Looping now ∧ prepare size now (r_st s) = Some (Ok (), r_st s').
Proof.
  unfold enter, io_bind at 1, io_try. destruct (make_raw s) as [[[[]|e|pn] s1]|] eqn:Em; [..|done].
  - apply make_raw_st in Em. intros ([] & s2 & (x & Hp & ->)%zoom_inv & [= <- <-])%io_bind_inv. by rewrite <-Em.
  - by intros (? & ? & _ & ?)%io_bind_inv.
  - done.
Qed.

(** A dial: the connection is set up, or it is given up. *)
Lemma follows_dialed N inp d ctx TERM size now (s : rst) p' s' :
  follows N inp Dialing s → admissible ctxE (cl (r_st s)) (Dialed d ctx TERM size now) →
  step Dialing (Dialed d ctx TERM size now) s = Some (Ok (inl p'), s') → follows N inp p' s'.
Proof.
  intros Hf (_ & _ & Hd). unfold step. rewrite rget_bind. destruct (dial d _) as [x|e|pn] eqn:Ed; [| |done].
  2:{ rewrite rget_bind. destruct (after_failed_dial _ _ _) as [[[] h] lines]; intros [= <- <-]; by eapply follows_st. }
  destruct (Hd x eq_refl) as (Hfr & cs & Hcs). destruct Hf as (segs & cur & -> & Hcur & Hr).
  rewrite (Hcur eq_refl) in *. rewrite rmodify_bind. set (s0 := set_st _ s).
  intros (ok & s1 & (x1 & Hg & ->)%zoom_inv & Hk)%io_bind_inv. destruct ok; simpl in Hk.
  2:{ injection Hk as <- <-. exists segs, []. split; [done|]. split; [done|]. simpl.
      eapply (reach_dial_failed _ _ _ N segs _ x TERM (Ok ()) size now); [exact Hr|].
      rewrite set_up_greet. by rewrite (io_bind_ok _ _ _ _ _ Hg). }
  assert (∃ s2, r_st s2 = x1 ∧ enter size now s2 = Some (Ok (inl p'), s')) as (s2 & Hs2 & (-> & Hp)%enter_st)
    by (destruct (cl_started _); eexists; (split; [|exact Hk]); done).
  exists segs, []. split; [done|]. split; [done|]. simpl.
  eapply (reach_dial _ _ _ N segs _ x cs TERM (Ok ()) size now); [exact Hr|done|done|].
  rewrite set_up_greet, (io_bind_ok _ _ _ _ _ Hg). simpl. rewrite get_bind.
  rewrite Hs2 in Hp. by destruct (0 <=? _); rewrite (io_bind_ok _ _ _ _ _ Hp).
Qed.

(** What [loop_turn] does to the client is [ioLoop]. *)
Lemma loop_turn_st lastRecv now e pf (s : rst) r s' :
  loop_turn lastRecv now e pf s = Some (r, s') → ioLoop lastRecv now e (r_st s) = Some (r, r_st s').
Proof.
  unfold loop_turn, on_client, io_zoom. destruct (ioLoop _ _ _ _) as [[r1 x]|]; [|done].
  destruct r1 as [[l|reason]|e1|p]; intros [= <- <-]; destruct (cfg_Profile _), e; done.
Qed.

Lemma restoreTerminal_st (s : rst) r s' : restoreTerminal s = Some (r, s') → r_st s' = r_st s.
Proof.
  unfold restoreTerminal. rewrite rget_bind. destruct (r_deferred s); [by intros [= _ <-]|].
  intros (r1 & s1 & (-> & Hst & _)%restore_spec & [= _ <-])%io_bind_split. done.
Qed.

(** A turn of the loop that does not go on: its reason, and what [after_loop]
    made of it. *)
Lemma turn_left l now e pf ctx (s : rst) q s' :
  step (Looping l) (Turn now e pf ctx) s = Some (Ok q, s') →
  (∃ l', q = inl (Looping l') ∧ ioLoop l now e (r_st s) = Some (Ok (inl l'), r_st s')) ∨
  (∃ reason x n, ioLoop l now e (r_st s) = Some (Ok (inr reason), x) ∧
     after_loop reason ctx x = Some (Ok n, r_st s') ∧ q = match n with Return err => inr err | _ => inl Waiting end).
Proof.
  unfold step. intros ([l'|reason] & s1 & E%loop_turn_st & Hk)%io_bind_inv.
  { injection Hk as <- <-. left. by exists l'. }
  right. apply io_bind_inv in Hk as ([] & s2 & Hst%restoreTerminal_st & Hk).
  apply io_bind_inv in Hk as (n & s3 & (x & E3 & ->)%zoom_inv & Hk). rewrite Hst in E3.
  exists reason, (r_st s1), n. split; [done|]. by destruct n as [| |err]; injection Hk as <- <-.
Qed.

Lemma after_loop_next reason ctx (s : st (C := C)) n s' :
  after_loop reason ctx s = Some (Ok n, s') → n ≠ Enter ∧ (n = Retry → reason = exitNetwork).
Proof.
  destruct reason; cbn [after_loop]; try intros (? & ? & _ & Hk)%io_bind_inv;
    try (apply io_bind_inv in Hk as (? & ? & _ & Hk)); by injection Hk as <- <-.
Qed.

Lemma follows_step N inp p i (s : rst) p' s' :
  follows N inp p s → admissible ctxE (cl (r_st s)) i → step p i s = Some (Ok (inl p'), s') →
  follows (N + turns i) (inp ++ typed i) p' s'.
Proof.
  destruct p as [|l|], i as [d ctx TERM size now|now e pf ctx| |e]; try done; cbn [turns typed];
    rewrite ?Z.add_0_r, ?app_nil_r.
  - apply follows_dialed.
  - intros (segs & cur & -> & _ & Hr) ([Hl _] & _) [(l' & [= ->] & E)|(reason & x & n & E & Ha & Hq)]%turn_left.
    + exists segs, (cur ++ stdin_bytes e). split; [by rewrite app_assoc|]. split; [done|]. by eapply reach_event.
    + destruct (after_loop_next _ _ _ _ _ Ha) as [Hne Hre]. destruct n as [| |err]; [|done..]. injection Hq as ->.
      rewrite (Hre eq_refl) in *. exists (segs ++ [cur ++ stdin_bytes e]), []. split.
      { rewrite concat_app. simpl. by rewrite !app_nil_r, app_assoc. }
      split; [done|]. by eapply reach_lost.
  - intros Hf _ [= <- <-]. by eapply follows_st.
Qed.
End refinement.

(** ** How the loop ends *)

Section returns.
Context {C : Type} `{ConnLaws C}.
#[local] Abbreviation st := (client.st (C := C)).
Variable (n : Z).

Lemma stdout_returns p (s : st) r s' : stdout_Write p s = Some (r, s') → panics r = false.
Proof.
  intros (w & Hw & _)%zoom_inv. destruct (Write_cases _ _ _ _ Hw) as [(-> & _)|(e & q & -> & _)]; done.
Qed.

Lemma deliver_returns msg (s : st) r s' : deliver msg s = Some (r, s') → panics r = false.
Proof.
  destruct msg; simpl; try by intros [= <- <-].
  intros (r1 & s1 & Hp%stdout_returns & Hk)%io_bind_split. destruct r1; [by injection Hk as <- _|by destruct Hk as [-> _]|done].
Qed.

Lemma drain_returns arriving (s : st) r s' :
  Forall (λ r, panics r = false) arriving → drainRemainingData arriving s = Some (r, s') → r = Ok ().
Proof.
  intros Hf. revert s. induction Hf as [|[msg|e|p] rest Hp _ IH]; intros s; simpl; try by intros [= <- _].
  unfold io_bind, io_try. destruct (deliver msg s) as [[r1 s1]|] eqn:Hd; [|done]. apply deliver_returns in Hd.
  destruct r1; [apply IH|by intros [= <- _]|done].
Qed.

(** The end of an iteration that flushes. *)
Lemma flush_end_returns m hist pre cur now (f : res () → Z + exitReason) (s : st) r s' :
  looping n m hist pre cur s → len hist + 1 < 2 ^ 64 →
  (r <- io_try (flushStdinCoalesced now) ;; io_ret (f r)) s = Some (r, s') → ∃ x, r = Ok x.
Proof.
  intros Hl Hb. unfold io_bind, io_try. destruct (flushStdinCoalesced now s) as [[r1 s1]|] eqn:Hf; [|done].
  eapply flush_step in Hf as (Hp & _); [|done..]. destruct r1; [by intros [= <- _]; eexists..|done].
Qed.

(** An iteration neither panics nor fails. *)
Lemma ioLoop_returns m hist pre cur lastRecv now e (s : st) r s' :
  looping n m hist pre cur s → len hist + 1 < 2 ^ 64 → admissible_event e →
  ioLoop lastRecv now e s = Some (r, s') → ∃ x, r = Ok x.
Proof.
  intros Hl Hb [Hd He]. pose proof Hl as (Hc & Hm & Hbuf & out & Hh & Hr).
  destruct e as [[data|]| |[msg|err|p] dr|[msg|err|p] ctl|size| |]; unfold ioLoop; try done; try (by intros [= <- _]; eexists).
  - destruct (_ <? _); [intros [= <- _]; by eexists|].
    destruct (escape.run (escape.state (cl_escape (cl s))) data) as [[st2 o] a] eqn:Er. simpl in Hd.
    destruct (escape.Process_run (cl_escape (cl s)) data (escapeBuf s) st2 o a) as (dst & Hp & Hs & Hdl); [lia|done|].
    unfold io_bind at 1. rewrite Hp, Hs. cbn [fmap res_fmap]. destruct a; [|intros [= <- _]; by eexists].
    destruct (0 <? len o); [|intros [= <- _]; by eexists]. unfold io_bind at 1. simpl.
    destruct (coalesce.Add (coal s) now o) as [c' full] eqn:Ea. destruct full; [|intros [= <- _]; by eexists].
    apply coalesce.Add_out in Ea as [Hb' _].
    eapply (flush_end_returns m hist pre (cur ++ data)); [|done]. split; [exact Hc|]. split; [done|]. split; [simpl; lia|].
    exists out. split; [done|]. simpl. rewrite Hb', app_assoc.
    pose proof (escape.run_app _ _ data _ _ Hr) as Hr2. by rewrite Er in Hr2.
  - by apply (flush_end_returns m hist pre cur now (λ _, inr exitStdinEOF)).
  - unfold io_bind at 1. destruct (coalesce.recv_Timer (coal s) now) as [c|] eqn:Et; [|done].
    destruct (_ <? _); [intros [= <- _]; by eexists|]. apply (flush_end_returns m hist pre cur); [|done].
    unfold coalesce.recv_Timer in Et. destruct (coalesce.Timer _) as [t|]; [|done]. simpl in Et.
    destruct (timer_recv t now) as [t'|]; [|done]. injection Et as <-. exact Hl.
  - destruct He as [_ Hdr]. destruct msg; try (by intros [= <- _]; eexists).
    intros (r1 & s1 & ->%drain_returns & Hk)%io_bind_split; [|done]. injection Hk as <- _. by eexists.
  - by destruct He.
  - unfold io_bind, io_try. destruct (deliver msg s) as [[r1 s1]|] eqn:Hdl; [|done]. apply deliver_returns in Hdl.
    destruct r1; [intros [= <- _]; by eexists..|done].
  - intros (r1 & s1 & Hk & Hk2)%io_bind_split. assert (panics r1 = false) as Hp.
    { unfold sendResize in Hk. rewrite get_bind in Hk. destruct (_ <? 0); [by injection Hk as <- _|].
      destruct size as [[cols rows]|err|p]; [|by injection Hk as <- _|done].
      unfold io_bind, io_try in Hk. destruct (call _ s) as [[r2 s2]|] eqn:Hw; [|done].
      eapply call_control in Hw as (_ & Hp & _); [|exact Hc|by split; apply uint16_range|done].
      destruct r2; [by injection Hk as <- _..|done]. }
    eapply resize_looping in Hk as (-> & _); [|done..]. injection Hk2 as <- _. by eexists.
  - destruct (_ <? _); [intros [= <- _]; by eexists|]. unfold io_bind, io_try.
    destruct (call _ s) as [[r1 s1]|] eqn:Hw; [|done].
    eapply control_looping in Hw as (Hp & _); [|exact Hl|apply int64_range|done].
    destruct r1; [intros [= <- _]; by eexists..|done].
Qed.

(** [after_loop] closes the connection and says what is next. *)
Lemma after_loop_returns reason ctx cs ds (s : st) r s' :
  sent (conn s) cs ds → after_loop reason ctx s = Some (r, s') →
  closed (conn s') ∧
  r = Ok (match reason with exitNetwork => Retry | exitCancelled => Return ctx | _ => Return None end).
Proof.
  assert (∀ (x : next) (s : st) cs ds r s', sent (conn s) cs ds →
    (call (λ c, Some (Ok (), Close c)) ;; io_ret x) s = Some (r, s') → closed (conn s') ∧ r = Ok x) as Hclose.
  { intros x s0 cs0 ds0 r0 s0' Hs (r1 & s1 & (y & [= <- <-] & ->)%call_conn & Hk)%io_bind_split.
    injection Hk as <- <-. split; [|done]. by eapply Close_closed. }
  intros Hs. destruct reason; cbn [after_loop]; try by eapply Hclose.
  all: unfold io_bind at 1, io_try; destruct (call _ s) as [[r1 s1]|] eqn:Hw; [|done];
    apply call_conn in Hw as (y & Hw & ->).
  all: assert ((∃ cs' ds', sent y cs' ds') ∧ panics r1 = false) as [(cs' & ds' & Hy) Hp] by
    (destruct (WriteControl_sent Shutdown _ _ _ _ _ Hs I eq_refl Hw) as [(e & -> & Hy)|[-> Hy]]; split; eauto).
  all: destruct r1; [by eapply Hclose..|done].
Qed.
End returns.

(** ** What [Run] returns *)

Section values.
Context {C : Type} `{ConnLaws C} {W M : Type} `{TermLaws W M}.
#[local] Abbreviation rst := (rst (C := C) (W := W)).

Lemma errless_get {A} (f : st (C := C) → A) : errless (get f).
Proof. by intros s r s' [= <- _]. Qed.
Lemma errless_modify (f : Client → Client) : errless (modify (C := C) f).
Proof. by intros s r s' [= <- _]. Qed.
Lemma errless_method (f : C → C) : errless (call (λ c, Some (Ok (), f c))).
Proof. by intros s r s' [= <- _]. Qed.
Lemma errless_rget {A} (f : rst → A) : errless (rget f).
Proof. by intros s r s' [= <- _]. Qed.
Lemma errless_rmodify (f : rst → rst) : errless (rmodify f).
Proof. by intros s r s' [= <- _]. Qed.

#[local] Hint Resolve errless_get errless_modify errless_method errless_rget errless_rmodify : leaves.

Lemma errless_greet TERM : errless (greet (C := C) TERM).
Proof. unfold greet. solve_errless. Qed.

Lemma errless_prepare size now : errless (prepare (C := C) size now).
Proof.
  unfold prepare, sendResize. solve_errless. intros s r s'. unfold enter_loop. destruct (coalesce.New now); [|done].
  by intros [= <- _].
Qed.

#[local] Hint Resolve errless_greet errless_prepare : leaves.

Lemma errless_enter size now : errless (enter (C := C) (W := W) size now).
Proof. unfold enter, on_client. solve_errless. Qed.

Lemma errless_dialed d ctx TERM size now : errless (step (C := C) (W := W) Dialing (Dialed d ctx TERM size now)).
Proof.
  pose proof (errless_enter size now). unfold step, on_client, Fprintf. solve_errless.
Qed.

(** What [Run] returns from a dial. *)
Lemma dialed_value d ctx TERM size now (s : rst) err s' ctxE :
  from_ctx ctxE ctx → step Dialing (Dialed d ctx TERM size now) s = Some (Ok (inr err), s') →
  ∃ e, err = Some e ∧ (e = ctxE ∨ ∃ e', e = ErrWrap "make raw: %w" e').
Proof.
  intros Hctx. unfold step. rewrite rget_bind. destruct (dial d _) as [x|e|pn]; [| |done].
  - rewrite rmodify_bind. intros (ok & s1 & _ & Hk)%io_bind_inv. destruct ok; [|done]. simpl in Hk.
    apply io_bind_inv in Hk as ([] & s2 & _ & Hk). unfold enter, io_bind at 1, io_try in Hk.
    destruct (make_raw s2) as [[[[]|e|p] s3]|]; [| |done..].
    + by apply io_bind_inv in Hk as (? & ? & _ & ?).
    + apply io_bind_inv in Hk as (? & ? & _ & [= <- _]). eexists. split; [done|]. right. by exists e.
  - rewrite rget_bind. unfold after_failed_dial. destruct Hctx as [-> | ->].
    { destruct (_ && _); by intros (? & ? & _ & (? & ? & _ & ?)%io_bind_inv)%io_bind_inv. }
    rewrite rmodify_bind. intros ([] & s1 & _ & [= <- _])%io_bind_inv. eexists. split; [done|]. by left.
Qed.

(** The loop is cancelled only by the context. *)
Lemma ioLoop_cancelled lastRecv now e (s : st (C := C)) s' :
  ioLoop lastRecv now e s = Some (Ok (inr exitCancelled), s') → e = EvCtxDone.
Proof.
  destruct e as [[data|]| |[msg|err|p] dr|[msg|err|p] ctl|size| |]; unfold ioLoop; try done.
  - destruct (_ <? _); [done|]. intros ([out a] & s1 & _ & Hk)%io_bind_inv. destruct a; [|done].
    destruct (0 <? len out); [|done]. apply io_bind_inv in Hk as (full & s2 & _ & Hk). destruct full; [|done].
    apply io_bind_inv in Hk as (r & s3 & _ & Hk). by destruct r.
  - by intros (? & ? & _ & ?)%io_bind_inv.
  - intros ([] & s1 & _ & Hk)%io_bind_inv. destruct (_ <? _); [done|].
    apply io_bind_inv in Hk as (r & s3 & _ & Hk). by destruct r.
  - destruct msg; try done. by intros (? & ? & _ & ?)%io_bind_inv.
  - intros (r & s1 & _ & Hk)%io_bind_inv. by destruct r.
  - by destruct (drainForShutdown ctl).
  - by intros (? & ? & _ & ?)%io_bind_inv.
  - destruct (_ <? _); [done|]. intros (r & s1 & _ & Hk)%io_bind_inv. by destruct r.
Qed.
End values.

(** ** Properties *)

Section properties.
Context {C : Type} `{ConnLaws C} {W M : Type} `{TermLaws W M}.
Variables (cfg : Config) (stdout : writer) (fd : Z) (ctxE : error) (tty : W).
#[local] Abbreviation rst := (rst (C := C) (W := W)).
#[local] Abbreviation reach := (reach (C := C) (W := W) cfg stdout fd ctxE tty).

Lemma reach_mode N inp o (s : rst) : reach N inp o s → mode_inv fd (view tty) o s.
Proof.
  induction 1 as [s (Hcl & Htty & _ & _ & Hd & Hf)|N inp p i s o s' _ IH _ Hs|N inp p s x _ IH _|N inp l control s o s' _ IH Hc].
  - split; [by rewrite Hcl|]. unfold settled. by rewrite Hd, Htty.
  - by eapply Run_step_mode.
  - destruct IH as [Hfd IH]. split; [exact Hfd|]. by destruct p.
  - unfold reader_panics in Hc. destruct (on_client _ s) as [[[?|?|pn] s1]|] eqn:E; [done|done| |done]. injection Hc as <- <-.
    apply zoom_inv in E as (y & _ & ->). destruct IH as [_ Hr]. intros Hf. by apply rawly_mode in Hr.
Qed.

Lemma reach_follows N inp p (s : rst) : reach N inp (Running p) s → follows cfg stdout fd N inp p s.
Proof.
  intros Hr. remember (Running p) as o eqn:Ho. revert p Ho.
  induction Hr as [s (Hcl & _)|N inp p i s o s' _ IH Ha Hs|N inp p s x _ IH Hg|N inp l control s o s' _ IH Hc]; intros p' Ho.
  - injection Ho as <-. exists [], []. split; [done|]. split; [done|]. by constructor.
  - specialize (IH p eq_refl). rewrite Ho in Hs. unfold Run_step in Hs.
    destruct (step p i s) as [[[[q|err]|e|pn] s1]|] eqn:E; [| | | |done].
    1: injection Hs as <- <-; by eapply follows_step.
    all: unfold finish in Hs; destruct (run_deferred s1) as [[[]]|]; done.
  - injection Ho as <-. destruct (IH p eq_refl) as (segs & cur & He & Hcur & Hr'). exists segs, cur. split; [done|]. split; [done|].
    by apply reach_goroutine.
  - unfold reader_panics in Hc. rewrite Ho in Hc. by destruct (on_client _ s) as [[[?|?|pn] s1]|].
Qed.

(** C9: The terminal is given back.  Wherever [Run] stands, as long as no
    restoration has been reported to fail: the terminal is in raw mode exactly
    while the event loop runs on a terminal; between two connections, and once
    [Run] has returned or panicked, it is in the mode it had at the start.  The
    exception is a reader goroutine that panics in the loop: the process ends
    with the terminal in raw mode. *)
Theorem terminal_restored N inp o (s : rst) :
  reach N inp o s → r_failures s = [] → view (r_tty s) = mode_of fd (view tty) o.
Proof.
  intros Hr%reach_mode Hf. destruct o as [p|err|pn|pn]; try by apply Hr.
  destruct Hr as [_ Hg]. destruct p as [|l|]; [by apply Hg|by apply rawly_mode|by apply Hg].
Qed.

(** C8: [Run] refines the client.  Whatever dials, events, waits and goroutines
    [Run] is given, the client in it is in a state of [client.reach] that has
    gone through the same number of iterations and read the same terminal input,
    so that what is proved of those runs holds of [Run]. *)
Theorem run_refines_client N inp p (s : rst) :
  reach N inp (Running p) s →
  ∃ segs cur, inp = List.concat segs ++ cur ∧
    client.reach cfg stdout fd N segs cur (r_st s) (match p with Looping l => Some l | _ => None end).
Proof. intros (segs & cur & Hi & _ & Hr)%reach_follows. by exists segs, cur. Qed.

(** A turn of the event loop. *)
Lemma loop_step N inp l now e pf ctx (s : rst) o s' :
  reach N inp (Running (Looping l)) s → N + 1 < 2 ^ 64 → admissible ctxE (cl (r_st s)) (Turn (C := C) now e pf ctx) →
  Run_step (Looping l) (Turn now e pf ctx) s = Some (o, s') →
  (∃ l', o = Running (Looping l')) ∨
  ∃ reason x, ioLoop l now e (r_st s) = Some (Ok (inr reason), x) ∧ closed (conn (r_st s')) ∧
    o = match reason with
        | exitNetwork => Running Waiting
        | exitCancelled => Returned (Some ctxE)
        | _ => Returned None
        end.
Proof.
  intros Hr HN (He & Hctx & Hdone) Hs. pose proof (reach_mode _ _ _ _ Hr) as [_ Hraw].
  apply reach_follows in Hr as (segs & cur & _ & _ & Hr).
  apply (run_inv (cfg_ReplaySize cfg)) in Hr as [_ (hist & outs & Hl & _ & m & Hloop & Hsm)]; [|done|lia].
  unfold Run_step in Hs. destruct (step _ _ s) as [[r s1]|] eqn:E; [|done]. unfold step in E.
  apply io_bind_split in E as (r1 & s2 & E1 & Hk). pose proof (loop_turn_outside l now e pf _ _ _ E1) as Ho.
  apply loop_turn_st in E1. destruct (ioLoop_returns _ _ _ _ _ _ _ _ _ _ _ Hloop ltac:(lia) He E1) as [q ->].
  destruct q as [l'|reason].
  { injection Hk as <- <-. injection Hs as <- <-. left. by exists l'. }
  right. eapply ioLoop_stepped in E1 as Hst; [|done|done|lia|apply He]. destruct Hst as (hist' & _ & _ & (cs & ds & Hcs & _) & _).
  apply io_bind_split in Hk as (r2 & s3 & Hrt & Hk). apply restoreTerminal_spec with (fd := fd) (m0 := view tty) in Hrt as (-> & Hst3 & Hset);
    [|by eapply rawly_outside].
  apply io_bind_split in Hk as (r3 & s4 & (x & E3 & ->)%zoom_inv & Hk). rewrite Hst3 in E3.
  destruct (after_loop_returns _ _ _ _ _ _ _ Hcs E3) as [Hcl ->]. exists reason, (r_st s2). split; [done|].
  assert (reason = exitCancelled → ctx = Some ctxE) as Hcx.
  { intros ->. apply Hdone. by eapply ioLoop_cancelled. }
  destruct Hset as [Hn _].
  destruct reason; injection Hk as <- <-; try (by injection Hs as <- <-).
  all: unfold finish, run_deferred in Hs; rewrite rget_bind in Hs;
    rewrite (io_bind_ok _ _ (set_st x s3) () _ (restore_all_none _ _ Hn)) in Hs; injection Hs as <- <-; split; [done|].
  all: by rewrite ?Hcx.
Qed.

(** C10: When [Run] stops.  It waits and dials again after a failed dial or
    set-up and when the network failed; it returns nil only because [~.] was
    typed, the input ended or the session shut down, and an error only because
    the context is done or raw mode could not be entered; the main goroutine
    can panic only while it sets a connection up.  A connection that was in the
    event loop has been closed by then. *)
Theorem run_outcomes N inp p i (s : rst) o s' :
  reach N inp (Running p) s → N + 1 < 2 ^ 64 → admissible ctxE (cl (r_st s)) i → Run_step p i s = Some (o, s') →
  let ended reason := closed (conn (r_st s')) ∧
    ∃ l now e pf ctx x, p = Looping l ∧ i = Turn now e pf ctx ∧ ioLoop l now e (r_st s) = Some (Ok (inr reason), x) in
  match o with
  | Running (Looping _) => p ≠ Waiting
  | Running Dialing => p = Waiting
  | Running Waiting => p = Dialing ∨ ended exitNetwork
  | Returned None => ended exitEscape ∨ ended exitShutdown ∨ ended exitStdinEOF
  | Returned (Some e) => e = ctxE ∨ (p = Dialing ∧ ∃ e', e = ErrWrap "make raw: %w" e')
  | Panicking _ => p = Dialing
  | Crashed _ => False
  end.
Proof.
  intros Hr HN Ha Hs ended. destruct p as [|l|], i as [d ctx TERM size now|now e pf ctx| |e]; try done.
  - unfold Run_step in Hs. destruct (step _ _ s) as [[r s1]|] eqn:E; [|done].
    destruct r as [[p'|err]|e|pn].
    + injection Hs as <- <-. destruct p' as [|l|]; [|done|by left]. exfalso. clear -E. unfold step in E. rewrite rget_bind in E.
      destruct (dial d _) as [x|e|pn]; [|rewrite rget_bind in E; by destruct (after_failed_dial _ _ _) as [[[] ?] ?]|done].
      rewrite rmodify_bind in E. apply io_bind_inv in E as (ok & s2 & _ & Hk). destruct ok; [|done]. simpl in Hk.
      by apply io_bind_inv in Hk as ([] & s3 & _ & [? _]%enter_st).
    + destruct Ha as [Hctx _]. apply (dialed_value _ _ _ _ _ _ _ _ _ Hctx) in E as (e & -> & He). unfold finish in Hs.
      destruct (run_deferred s1) as [[[]]|]; [..|done]; injection Hs as <- <-; naive_solver.
    + by destruct (errless_dialed _ _ _ _ _ _ _ _ E e).
    + unfold finish in Hs. by destruct (run_deferred s1) as [[[]]|]; [..|done]; injection Hs as <- <-.
  - destruct (loop_step _ _ _ _ _ _ _ _ _ _ Hr HN Ha Hs) as [[l' ->]|(reason & x & E & Hcl & ->)]; [done|].
    assert (ended reason) as He by (split; [done|]; by repeat eexists). destruct reason; naive_solver.
  - by injection Hs as <- <-.
  - simpl in Ha. subst e. unfold Run_step, finish in Hs. simpl in Hs.
    pose proof (reach_mode _ _ _ _ Hr) as [_ [Hn _]]. unfold run_deferred in Hs. rewrite rget_bind in Hs.
    rewrite (io_bind_ok _ _ s () s (restore_all_none _ _ Hn)) in Hs. injection Hs as <- <-. by left.
Qed.
End properties.

(** Over QUIC the session can make a reader panic, with a terminal name of
    65534 bytes. *)
Section crash.
Context {W M : Type} `{TermLaws W M}.
Variables (cfg : Config) (stdout : writer) (fd : Z) (ctxE : error) (tty : W).

(** C36: A panic that raw mode survives.  When the control stream of a QUIC
    connection delivers a terminal name of 65534 or 65535 bytes to a client in
    its event loop on a terminal, the goroutine that reads it panics; the
    process ends without the deferred restoration, in raw mode. *)
Theorem reader_panic_leaves_raw N inp l (s : rst (C := quicConn) (W := W)) term rest fin :
  reach cfg stdout fd ctxE tty N inp (Running (Looping l)) s → 0 <= fd → r_failures s = [] →
  w_rd (q_control (conn (r_st s))) = Reader (frame (TerminalInfo term) ++ rest) fin →
  65534 <= len (string_bytes term) <= 65535 →
  ∃ pn s', reader_panics true s = Some (Crashed pn, s') ∧
    reach cfg stdout fd ctxE tty N inp (Crashed pn) s' ∧ view (r_tty s') = raw (view tty).
Proof.
  intros Hr Hfd Hf Hin Hl. pose proof (reach_mode _ _ _ _ _ _ _ _ _ Hr) as [_ Hraw%rawly_mode]; [|done].
  rewrite (proj2 (Z.leb_le _ _) Hfd) in Hraw.
  destruct (ReadMessage_long_terminal_info term rest fin Hl) as (pn & Hp).
  assert (∃ s', reader_panics true s = Some (Crashed pn, s') ∧ r_tty s' = r_tty s) as (s' & E & Ht).
  { unfold reader_panics, on_client, readStreamLoop_iter, io_zoom, io_bind, io_try, call, io_zoom. simpl.
    unfold quic_on_control, io_zoom, wire_read. rewrite Hin, Hp. by eexists. }
  exists pn, s'. split; [done|]. split; [by eapply run_crash|]. by rewrite Ht.
Qed.
End crash.

(** ** Instances of the properties

    A terminal in memory: whether it is in raw mode, and whether the two calls
    fail.  The client connects over QUIC, enters raw mode, and the user types
    [~.]. *)

Record memTty : Type := MemTty { mt_raw : bool; mt_no_raw : bool; mt_no_restore : bool }.

#[export] Instance memTty_view : View memTty bool := mt_raw.

#[export] Instance memTty_lib : TermLib memTty := {|
  term_State := bool;
  term_MakeRaw _ := λ w,
    if mt_no_raw w then Some (Err (ErrNew "inappropriate ioctl for device"), w)
    else Some (Ok (mt_raw w), MemTty true (mt_no_raw w) (mt_no_restore w));
  term_Restore _ state := λ w,
    if mt_no_restore w then Some (Err (ErrNew "input/output error"), w)
    else Some (Ok (), MemTty state (mt_no_raw w) (mt_no_restore w));
|}.

#[export, refine] Instance memTty_laws : TermLaws memTty := {| saved state := state; raw _ := true |}.
Proof.
  - intros fd w r w'. simpl. by destruct (mt_no_raw w); intros [= <- <-].
  - intros fd state w r w'. simpl. by destruct (mt_no_restore w); intros [= <- <-].
Defined.

Definition ex_stdout : writer := Writer [] None None.
Definition ex_tty : memTty := MemTty false false false.
Definition ex_rst : Type := rst (C := quicConn) (W := memTty).
Definition ex_cancelled : error := ErrNew "context canceled".
Definition ex_r0 : ex_rst :=
  MkRun (St (New ex_cfg ex_stdout 0) (ex_conn 0) (coalesce.MkCoalescer [] (MkTimer None) false) []) ex_tty [] false [] [].

(** The state after a step. *)
Definition stepped_to (x : option (outcome * ex_rst)) : ex_rst := from_option snd ex_r0 x.
Definition ex_dialed (c : quicConn) : input (C := quicConn) := Dialed (λ _ _ _ _ _, Ok c) None "xterm" (Ok (80, 24)) 0.
Definition ex_typed (data : bytes) : input (C := quicConn) := Turn Millisecond (EvStdin (Some data)) (MkProfiled None 0 None) None.
Definition ex_r1 : ex_rst := stepped_to (Run_step Dialing (ex_dialed (ex_conn 0)) ex_r0).
Definition ex_r2 : ex_rst := stepped_to (Run_step (Looping 0) (ex_typed [x7e; x2e]) ex_r1).

Definition is_looping (l : Z) (x : option (outcome * ex_rst)) : bool :=
  match x with Some (Running (Looping l'), _) => l' =? l | _ => false end.
Definition is_returned (x : option (outcome * ex_rst)) : bool :=
  match x with Some (Returned None, _) => true | _ => false end.

Lemma is_looping_eq l x : is_looping l x = true → x = Some (Running (Looping l), stepped_to x).
Proof. by destruct x as [[[[|l'|]| | |] s]|]; simpl; [|intros ->%Z.eqb_eq|..]. Qed.
Lemma is_returned_eq x : is_returned x = true → x = Some (Returned None, stepped_to x).
Proof. by destruct x as [[[|[]| |] s]|]. Qed.

Lemma ex_dialed_admissible c (x : Client) :
  sent c [] [] → admissible ex_cancelled x (ex_dialed c).
Proof. intros Hs. split; [by left|]. split; [done|]. intros y [= <-]. split; [done|]. by exists []. Qed.

Lemma ex_in_loop : reach ex_cfg ex_stdout 0 ex_cancelled ex_tty 0 [] (Running (Looping 0)) ex_r1.
Proof.
  apply (run_input _ _ _ _ _ 0 [] Dialing (ex_dialed (ex_conn 0)) ex_r0).
  - by apply run_start.
  - apply ex_dialed_admissible, ex_sent.
  - apply is_looping_eq. vm_compute. reflexivity.
Qed.

Lemma ex_typed_admissible : admissible (C := quicConn) ex_cancelled (cl (r_st ex_r1)) (ex_typed [x7e; x2e]).
Proof. split; [done|]. split; [by left|done]. Qed.

Lemma ex_escaped_step : Run_step (Looping 0) (ex_typed [x7e; x2e]) ex_r1 = Some (Returned None, ex_r2).
Proof. apply is_returned_eq. vm_compute. reflexivity. Qed.

Lemma ex_escaped : reach ex_cfg ex_stdout 0 ex_cancelled ex_tty 1 [x7e; x2e] (Returned None) ex_r2.
Proof.
  exact (run_input _ _ _ _ _ 0 [] (Looping 0) (ex_typed [x7e; x2e]) ex_r1 _ _ ex_in_loop ex_typed_admissible ex_escaped_step).
Qed.

Lemma terminal_restored_witness :
  mt_raw (r_tty ex_r1) = true ∧ mt_raw (r_tty ex_r2) = false.
Proof.
  split.
  - exact (terminal_restored _ _ _ _ _ _ _ _ _ ex_in_loop ltac:(vm_compute; reflexivity)).
  - exact (terminal_restored _ _ _ _ _ _ _ _ _ ex_escaped ltac:(vm_compute; reflexivity)).
Defined.

Lemma run_refines_client_witness :
  ∃ segs cur, [] = List.concat segs ++ cur ∧ client.reach ex_cfg ex_stdout 0 0 segs cur (r_st ex_r1) (Some 0).
Proof. exact (run_refines_client _ _ _ _ _ _ _ _ _ ex_in_loop). Defined.

Lemma run_outcomes_witness :
  0 + 1 < 2 ^ 64 ∧
  let ended reason := closed (conn (r_st ex_r2)) ∧
    ∃ l now e pf ctx x, Looping 0 = Looping l ∧ ex_typed [x7e; x2e] = Turn now e pf ctx ∧
      ioLoop l now e (r_st ex_r1) = Some (Ok (inr reason), x) in
  ended exitEscape ∨ ended exitShutdown ∨ ended exitStdinEOF.
Proof.
  split; [lia|].
  exact (run_outcomes ex_cfg ex_stdout 0 ex_cancelled ex_tty 0 [] (Looping 0) (ex_typed [x7e; x2e]) ex_r1 _ _
    ex_in_loop ltac:(lia) ex_typed_admissible ex_escaped_step).
Defined.

(** A session that sends such a name. *)
Definition ex_long : string := bytes_string (replicate (Z.to_nat 65534) x78).
Definition ex_bad_conn : quicConn :=
  QuicConn (Wire (Reader (frames [SequenceHeader 0] ++ frame (TerminalInfo ex_long)) None) ex_stdout false false 0)
    (Wire (Reader [] None) ex_stdout false false 0) 0 false None.
Definition ex_b1 : ex_rst := stepped_to (Run_step Dialing (ex_dialed ex_bad_conn) ex_r0).

Lemma ex_bad_connected : reach ex_cfg ex_stdout 0 ex_cancelled ex_tty 0 [] (Running (Looping 0)) ex_b1.
Proof.
  apply (run_input _ _ _ _ _ 0 [] Dialing (ex_dialed ex_bad_conn) ex_r0).
  - by apply run_start.
  - apply ex_dialed_admissible. split; [split; [constructor|]; exists []; by split_and!; [|left|]|].
    exists []. split; [|done]. split; [constructor|]. exists []. by split_and!; [|left|].
  - apply is_looping_eq. vm_compute. reflexivity.
Qed.

Lemma ex_bad_next : w_rd (q_control (conn (r_st ex_b1))) = Reader (frame (TerminalInfo ex_long) ++ []) None.
Proof.
  assert (∀ rd b, bool_decide (rd_in rd = b) && bool_decide (rd_fin rd = None) = true → rd = Reader b None) as Heq.
  { intros [i f] b [Hi%bool_decide_eq_true_1 Hf%bool_decide_eq_true_1]%andb_prop. simpl in *. by subst. }
  apply Heq. vm_compute. reflexivity.
Qed.

Lemma ex_long_len : 65534 <= len (string_bytes ex_long) <= 65535.
Proof. unfold ex_long. rewrite string_bytes_string, len_replicate. lia. Qed.

Lemma reader_panic_leaves_raw_witness :
  mt_raw ex_tty = false ∧
  ∃ pn s', reader_panics true ex_b1 = Some (Crashed pn, s') ∧
    reach ex_cfg ex_stdout 0 ex_cancelled ex_tty 0 [] (Crashed pn) s' ∧ mt_raw (r_tty s') = true.
Proof.
  split; [done|].
  exact (reader_panic_leaves_raw ex_cfg ex_stdout 0 ex_cancelled ex_tty 0 [] 0 ex_b1 ex_long [] None ex_bad_connected
    ltac:(done) ltac:(vm_compute; reflexivity) ex_bad_next ex_long_len).
Defined.
End clientrun.
